(* ===== verification/_CoqProject ===== *)
-Q . S2P
Prelude.v
Crypto.v
Identity.v
Text.v
Wire.v
Float64.v
Dcnet.v
RoundNetwork.v
RoundDriver.v
RoundEngine.v
WebOfTrust.v
DcNetwork.v
Group.v
Relay.v
Session.v
ConnectionManager.v
App.v
Storage.v
F2f.v
LocalBroadcast.v
Durability.v
Ratchet.v
Shuffle.v
AddressBook.v
Service.v
ProtocolFilter.v
WebConsole.v
Discovery.v
Daemon.v
Legacy.v
Ffi.v
RoundSystem.v
System.v
World.v
