(* ===== verification/Prelude.v ===== *)
(** * Chrono-shift: a peer-to-peer daemon for anonymous group messages

    The repository is one Rust crate, [src/client/security/rust_core/src/] (paths below are
    relative to it). A node has an Ed25519 identity and friends with whom it shares 32-byte edge
    keys. Channel messages travel in rounds of a dining-cryptographers network (DC-net): every
    participant sends the XOR of pads derived from its edge keys, one of them adds a message, and
    the XOR of all shares is the message. Around that sit authenticated TCP sessions, relaying
    through mutual friends, a web of trust, the membership rules of named networks, a store of
    friends and channels that survives crashes, a local web console and a C interface.

    ** Files

    - [Prelude]: machine integers, bytes, strings and UTF-8, results, tactics, shared lemmas.
    - [Crypto]: the cryptographic primitives as a class with one class of laws each, and
      [crypto.rs]. [toy_crypto] is a concrete instance on which the examples run.
    - [Identity]: [identity.rs] (hex codec, key pairs, fingerprints), [validate_uid] of [lib.rs].
    - [Text]: what the sources use of the standard library on text: characters, white space,
      trimming and splitting, decimal numbers, socket addresses.
    - [Wire]: [net/tcp.rs], the [PeerMessage] enum and frames; serde's JSON is the class [Json].
    - [Float64]: the IEEE binary64 operations used by reputations.
    - [Dcnet]: [dcnet/mod.rs], XOR of buffers and pad derivation. Pads cancel in pairs.
    - [RoundNetwork]: [dcnet/round_network.rs], framing, masking, share signatures, and the
      modules [RoundCollector] and [RoundTracker].
    - [RoundDriver]: [dcnet/round_driver.rs], the mesh protocol without a leader, as a state
      machine [RoundDriver.t] with [initiate] and [handle].
    - [RoundEngine]: [round_engine.rs], the leader protocol the daemon runs.
    - [WebOfTrust]: [pgp/mod.rs] and [pgp/web_of_trust.rs].
    - [DcNetwork]: [dcnet/network.rs], admins, invitations, leaders.
    - [Group]: [dcnet/round.rs], [dcnet/group.rs], [dcnet/reputation.rs].
    - [Relay]: [net/relay.rs], relay signatures, routing table, admission control.
    - [Session]: [net/session.rs], handshake and encrypted frames.
    - [ConnectionManager]: [net/connection_manager.rs], peer tables, queues, connection tasks.
    - [App]: the relay operations of [app.rs] and the relay branch of the pump in [main.rs].
    - [Storage]: [storage.rs], the write-ahead log with the outcome of each file operation; serde's
      JSON is the class [StoreJson].
    - [F2f]: [dcnet/f2f.rs], friends, edge keys, channels, logging, snapshot, and recovery as
      [app.rs] runs it; [F2fRun] runs sequences of operations.
    - [LocalBroadcast]: the local round and the trust synchronisation of [dcnet/f2f.rs].
    - [Durability]: the life of a bridge over every operation of [F2f] and [LocalBroadcast],
      restarts included.
    - [Ratchet]: [ratchet.rs], the message ratchet; [RatchetRun] runs sequences of operations.
    - [Shuffle]: [dcnet/shuffle.rs] and [reveal_round] of [dcnet/f2f.rs], committed slots and blame.
    - [AddressBook]: [address_book.rs], peer addresses and gossip.
    - [Service]: [service.rs], the registry of proxied services; [ServiceRun] runs histories and
      [AccessList] is the access list it should implement; [Grants] reads who has access off a history.
    - [ProtocolFilter]: [protocol_filter.rs], which texts may pass a proxy.
    - [WebConsole]: [web.rs], from the bytes of a request to the bytes of the answer, the token's
      start-up, the connection attempts, and the counter of handler threads as a step relation.
    - [Discovery]: [net/lan.rs], [net/transport.rs] and [network.rs] as the modules [Lan],
      [Transport] and [Socks5]; the configuration's JSON is the class [ConfigJson].
    - [Daemon]: start-up and shutdown of [app.rs] with the identity file of [identity.rs], and the
      arguments and pumps of [main.rs], over the whole application state; JSON is [DaemonJson].
    - [Legacy]: operations the daemon keeps but does not call (the earlier store of [storage.rs],
      shareable identities of [pgp/mod.rs], [keepalive_frame], [debug_info]) and the start of the
      console; JSON is [LegacyJson].
    - [Ffi]: [ffi.rs] and [parser.rs], every entry point over a memory shared with C, with
      allocations as blocks and undefined behaviour as [None]; JSON is [FfiJson].
    - [RoundSystem]: all participants of a round and the packets between them. [PacketNet] is a
      network that delivers in any order and may lose, over the interface [Node]; [Protocol] is
      what a protocol promises to it, discharged by [LeaderNet] for the engine and by [MeshNet]
      for the driver.
    - [System]: one whole node, its connection tasks, pumps and console threads as interleaved
      steps over one shared state.
    - [World]: several whole nodes and the encrypted connections between them. [link] runs the two
      ends of a handshake against each other, [write] and [read] move frames; [Deployment] is
      what a round protocol on top of [PacketNet] has to provide, discharged for the engine.

    A Rust struct is a record (named [t] inside the module of its name), an enum an inductive
    type, a method a function from the state to the new state and the result. Definitions keep
    the source's names; helpers name a part of a function that proofs refer to.

    ** Conventions

    - Unsigned integers are [Z]. The release build wraps, and the model wraps where the source
      can overflow ([wrap64], [+₆₄]). Strings are their UTF-8 bytes.
    - [HashMap] is [gmap] and [HashSet] is [gset]. Where the iteration order shows, it is the
      order of the model's map; the trust computation takes it as an argument and is proved
      independent of it.
    - Clocks and random bytes are arguments of the functions that read them.
    - [Result<T, String>] is [result T string] with the source's messages; [?] is a match. A lock
      that can be poisoned is an option. Logging is dropped.
    - Primitives of other crates appear as parameters. The laws used are functional: key and
      digest lengths, decryption inverts encryption, verification accepts what signing made,
      Diffie-Hellman commutes. No theorem assumes that a hash is injective or a signature
      unforgeable.

    ** What the theorems show

    - Rounds ([RoundNetwork], [RoundDriver], [RoundEngine]). A round with one sender delivers
      exactly its message to everyone; without a sender it is silent; a share exists exactly
      when every edge key is there; for each transcript there are pads under which any other
      participant would be the sender. The framing round trip is exact, signatures bind channel,
      round and share, the collector keeps the first valid share of each participant, the
      tracker's counter advances by one. The driver keeps its invariant under every interleaving
      of calls, emits each round once, sends its message share last, resolves simultaneous
      starts by uid, and completes a round as participant and as initiator; the engine's
      leader protocol delivers end to end. Also shown: the retry limit is never reached, round
      results carry no authentication, a restarted node repeats its pads, and a failed start
      loses the queued message.
    - Rounds over a network ([RoundSystem]). Whatever the order of delivery and whatever is lost
      before the deadline, a round takes a bounded number of packets, can always be finished from
      where it is, and tells no participant anything but the message. When nothing is lost,
      everyone is told in the leader protocol; in the mesh protocol the initiator always is, and
      another participant exactly when no share reached it before its start, which two parties
      cannot see.
    - Trust and membership ([WebOfTrust], [DcNetwork], [Group]). The trust loop terminates
      within two passes per key and computes the least fixpoint of its rule, whatever the order
      of keys; positive trust is backed by a verified signature; after any sequence of
      insertions, removals, overrides and queries the cache is never stale. A
      network always has an admin and a leader among its members, rotation is round-robin, and
      only invited uids of sufficient trust become members. Dropouts lose reputation, three
      in a row are removed, bans are final.
    - Sessions ([Session], [ConnectionManager]). Honest ends agree on keys; an authenticated
      outbound session has a verified signature over its own nonce; frames arrive in order and
      are never accepted twice; frames over the limit of the receiver end the connection. Slots, queues and identity binding hold under every interleaving
      of the connection tasks. Also shown: a response signature passes as a challenge signature
      of the same peer, and no session ever records a key.
    - Relaying ([Relay], [App]). Effects need a valid signature, a fresh timestamp and a nonce above
      the one on record, if there is one; a message is forwarded at most eight times with its signed
      fields intact; a sequence of messages through a mutual friend arrives in order. Also shown: replays pass once the nonce table has been emptied, a forged
      message pins a key before its signature is checked, and the event channel blocks when full.
    - Durability ([Storage], [F2f], [Durability]). Recovery from snapshot and log gives back the state
      of a node that stopped between checkpoints but for topics and the keys drawn for friends
      added since; a checkpoint and restart give back friends, keys, channels, topics and members,
      whatever operations, local rounds and recoveries came before. A
      checkpoint in which any file operation fails keeps either the log or the new snapshot, an append that
      stops at any byte is replayed as a whole or not at all. Also shown: the operation that
      makes a checkpoint due is in neither file.
    - The local round ([LocalBroadcast]) returns the text that went in, or nothing in exactly the
      three cases the code names. Also shown: the synchronisation that ends it makes unverified
      friends trusted.
    - The daemon ([Daemon]). A turn of the incoming pump serves its whole queue, each message by
      its component and in order, exactly when the events fit their channel; an identity once
      written stays. Also shown: a node that starts without an identity takes the empty uid,
      which every peer refuses in the handshake, at that start and at every later one.
    - The whole node ([System]). However the tasks interleave, what enters the channel is served
      once, in order, and came from a peer with a key on record unless it is a keepalive. Also shown: the daemon as
      shipped registers no peer and dials nobody, so its state never changes and nothing is ever
      queued for a peer; and a full event channel stops the pump and the console for good.
    - Daemons together ([World]). Daemons that have each other's key on record connect, and what one
      writes the other opens. Every run of connected daemons, however their pumps, queues, writers,
      frames, readers and filters interleave, is a run of the network of [RoundSystem]; so a
      round started in one of them tells all users the sender's text and nothing else once the
      queues are empty, and they can be emptied from every state. Also shown: the packets a leader
      addresses to itself always fail.
    - What is not called ([Legacy]). The earlier store reads back what was written in full and
      loses both states when a write is torn; an exported identity is imported; the report names
      every connection and peer.
    - Ratchet and shuffle ([Ratchet], [Shuffle]). Messages in order are delivered; an honest shuffle is revealed in full, and blame falls on
      exactly the slots that do not open to their commitment. Also shown: a frame can be reflected
      to its sender, one lost frame stops the conversation, the DH step changes no message key,
      and the slot index wraps.
    - Addresses and services ([AddressBook], [Service], [ProtocolFilter]). Gossip merges what is
      announced by trusted friends and nothing else; pruning is exact; a client may use a port exactly when
      the history opened it by accepting a service that waited for approval, its owner closed
      nothing since, and the list of the port, as changed since, admits the client. What passes
      the filter is small printable text of an allowed kind. Also shown: the first key for a peer
      is never replaced, rejecting a service keeps its proxy and closing one removes its
      owner's others, ports wrap.
    - Web console ([WebConsole]). Without the token an answer does not depend on the node's
      state and starts nothing; a request consumes a bounded number of bytes and its headers
      are read in finitely many steps; at most 64 handlers run and no slot is lost; a fresh token
      opens the console. Also shown: a token with a capital letter locks it, and its connect route
      never connects.
    - Edges ([Discovery], [Ffi]). Announcements of uids without a colon read back; the transport
      setting survives a restart, or becomes [Direct] when its file is torn; the SOCKS5 client
      asks for the right target. What the C calls hand out are new blocks that can be
      read to the length C is told; no call loses or invents an allocation, and each block can be
      released, once. Also shown: ciphertexts of the longest plaintexts cannot be decrypted
      through the interface, a uid that is not UTF-8 becomes the empty one, and a wiped string
      cannot be released.

    ** Bounds and fuel

    [WebOfTrust.trust_loop] runs with fuel of two passes per key plus one, [bfs] with one step per
    signature and own key plus one; both are proved to be enough ([trust_loop_spec],
    [trust_path_search_ends]). The pad loops [share_blocks] and [repeat_hash] run with the output
    length as fuel, more than the 32-byte steps they take ([derive_pair_share_length]), and so does
    [LocalRound.expand_blocks] ([expand_share_length]). [WebConsole.header_loop] has one step per
    unread byte and one more, and every line has a byte ([header_loop_ends]); [Ffi.scan] has one
    step per address of the memory and one more ([c_bytes_spec]); [Socks5.read_exact] of two bytes
    has two. Other loops are structural. The runs of [RoundSystem] and [System] are lists of actions
    of any length; a run of a leader round has at most [3 n - 1] packets, of a mesh round at most
    [n * n - 1], for [n] participants ([run_bound]). In [World] at most 51 steps per pair of
    participants empty all queues and wires ([world_drains]); its theorems on rounds are for fewer than
    2^63 steps, so that no frame counter wraps, and fewer than 1024 participants, so that no channel
    to a pump is ever full. Theorems on counters assume fewer than 2^64 events.

    ** Not modelled

    Sockets and timers (what is read and the firing of a timer are arguments or events), file
    permissions, the spawning of tasks, the web page, logging, zeroing of memory on drop, and
    Rust panics that no modelled input raises. A step of [System] takes the messages and events a
    handler sends together with the handler, and a [read] of [World] a whole frame with what it
    leaves; no timer fires there and no bytes are lost or changed on a wire. The listener counts a
    connection and refuses it when there are too many in one step, where the source's counter reads one more
    for a moment; a time-out and other failures of a read are one error. A file operation of a
    checkpoint fails or succeeds, the process is not killed between two of them. The callers that
    start a round or register a peer are not part of the daemon: [start_round] and the witnesses
    stand for them. Functions that only draw random bytes
    ([crypto::generate_key] and the like) are the arguments that stand for their results; types
    that no function uses are left out. *)

From Stdlib Require Export ZArith Lia.
From stdpp Require Export base tactics option list gmap strings pretty.

(** ** Machine integers

    Unsigned integers are [Z]; the shipped binary is built with
    [cargo build --release], where [+=] wraps. *)

Declare Scope chrono_scope.
Delimit Scope chrono_scope with chrono.
#[global] Open Scope Z_scope.
#[global] Open Scope chrono_scope.

Definition u8_max : Z := 2 ^ 8 - 1.
Definition wrap8 (z : Z) : Z := z mod 2 ^ 8.
Definition wrap16 (z : Z) : Z := z mod 2 ^ 16.
Definition wrap32 (z : Z) : Z := z mod 2 ^ 32.
Definition wrap64 (z : Z) : Z := z mod 2 ^ 64.

Notation "a +₆₄ b" := (wrap64 (a + b)) (at level 50, left associativity) : chrono_scope.
Notation "a +₃₂ b" := (wrap32 (a + b)) (at level 50, left associativity) : chrono_scope.

(** [u64::abs_diff]. *)
Definition abs_diff (a b : Z) : Z := Z.abs (a - b).

(** [Ord::clamp]. *)
Definition clampZ (x lo hi : Z) : Z := Z.max lo (Z.min x hi).

(** ** Bytes *)

Abbreviation bytes := (list Z).

Definition is_byte (b : Z) : Prop := 0 <= b < 256.
Definition bytes_ok (bs : bytes) : Prop := Forall is_byte bs.

(** [slice.len()]. *)
Definition zlen {A} (l : list A) : Z := Z.of_nat (length l).

(** [vec![0u8; n]]. *)
Definition zeros (n : Z) : bytes := replicate (Z.to_nat n) 0.

(** Lexicographic [<] on byte arrays, as [PartialOrd] derives it for [[u8; N]]. *)
Fixpoint bytes_ltb (a b : bytes) : bool :=
  match a, b with
  | _, [] => false
  | [], _ :: _ => true
  | x :: a', y :: b' => (x <? y) || ((x =? y) && bytes_ltb a' b')
  end.

(** [to_be_bytes] / [from_be_bytes] at [n] bytes. *)
Fixpoint be_bytes (n : nat) (z : Z) : bytes :=
  match n with
  | O => []
  | S m => Z.shiftr z (8 * Z.of_nat m) mod 256 :: be_bytes m z
  end.

Definition from_be (bs : bytes) : Z := foldl (fun acc b => acc * 256 + b) 0 bs.

(** ** Strings: a Rust [String] is its UTF-8 bytes *)

Definition ascii_byte (c : Ascii.ascii) : Z := Z.of_N (Ascii.N_of_ascii c).
Definition byte_ascii (b : Z) : Ascii.ascii := Ascii.ascii_of_N (Z.to_N b).

(** [str::as_bytes]. *)
Fixpoint string_bytes (s : string) : bytes :=
  match s with
  | EmptyString => []
  | String c s' => ascii_byte c :: string_bytes s'
  end.

Fixpoint bytes_string (bs : bytes) : string :=
  match bs with
  | [] => EmptyString
  | b :: bs' => String (byte_ascii b) (bytes_string bs')
  end.

(** [str::len] counts bytes. *)
Definition slen (s : string) : Z := Z.of_nat (String.length s).

Definition byte_in (lo hi b : Z) : bool := (lo <=? b) && (b <=? hi).
Definition cont (b : Z) : bool := byte_in 128 191 b.

(** Second byte accepted after a three-byte or four-byte lead. *)
Definition second3 (b0 b1 : Z) : bool :=
  if b0 =? 224 then byte_in 160 191 b1
  else if b0 =? 237 then byte_in 128 159 b1
  else cont b1.

Definition second4 (b0 b1 : Z) : bool :=
  if b0 =? 240 then byte_in 144 191 b1
  else if b0 =? 244 then byte_in 128 143 b1
  else cont b1.

(** The acceptance automaton of [str::from_utf8]. *)
Fixpoint utf8_valid (bs : bytes) : bool :=
  match bs with
  | [] => true
  | b0 :: r0 =>
      if b0 <? 128 then utf8_valid r0
      else if byte_in 194 223 b0 then
        match r0 with
        | b1 :: r1 => cont b1 && utf8_valid r1
        | [] => false
        end
      else if byte_in 224 239 b0 then
        match r0 with
        | b1 :: b2 :: r2 => second3 b0 b1 && cont b2 && utf8_valid r2
        | _ => false
        end
      else if byte_in 240 244 b0 then
        match r0 with
        | b1 :: b2 :: b3 :: r3 => second4 b0 b1 && cont b2 && cont b3 && utf8_valid r3
        | _ => false
        end
      else false
  end.

(** U+FFFD, what [from_utf8_lossy] puts for each maximal invalid subpart. *)
Definition replacement : bytes := [239; 191; 189].

Fixpoint utf8_lossy (bs : bytes) : bytes :=
  match bs with
  | [] => []
  | b0 :: r0 =>
      if b0 <? 128 then b0 :: utf8_lossy r0
      else if byte_in 194 223 b0 then
        match r0 with
        | b1 :: r1 => if cont b1 then b0 :: b1 :: utf8_lossy r1
                      else replacement ++ utf8_lossy r0
        | [] => replacement
        end
      else if byte_in 224 239 b0 then
        match r0 with
        | b1 :: r1 =>
            if second3 b0 b1 then
              match r1 with
              | b2 :: r2 => if cont b2 then b0 :: b1 :: b2 :: utf8_lossy r2
                            else replacement ++ utf8_lossy r1
              | [] => replacement
              end
            else replacement ++ utf8_lossy r0
        | [] => replacement
        end
      else if byte_in 240 244 b0 then
        match r0 with
        | b1 :: r1 =>
            if second4 b0 b1 then
              match r1 with
              | b2 :: r2 =>
                  if cont b2 then
                    match r2 with
                    | b3 :: r3 => if cont b3 then b0 :: b1 :: b2 :: b3 :: utf8_lossy r3
                                  else replacement ++ utf8_lossy r2
                    | [] => replacement
                    end
                  else replacement ++ utf8_lossy r1
              | [] => replacement
              end
            else replacement ++ utf8_lossy r0
        | [] => replacement
        end
      else replacement ++ utf8_lossy r0
  end.

(** [String::from_utf8(bs).ok()]. *)
Definition from_utf8 (bs : bytes) : option string :=
  if utf8_valid bs then Some (bytes_string bs) else None.

(** [String::from_utf8_lossy(bs).to_string()]. *)
Definition from_utf8_lossy (bs : bytes) : string := bytes_string (utf8_lossy bs).

(** ** Results *)

Inductive result (A E : Type) : Type :=
| Ok (a : A)
| Err (e : E).
Arguments Ok {A E} a.
Arguments Err {A E} e.

Definition is_ok {A E} (r : result A E) : bool :=
  match r with Ok _ => true | Err _ => false end.
Definition is_err {A E} (r : result A E) : bool := negb (is_ok r).
Definition ok {A E} (r : result A E) : option A :=
  match r with Ok a => Some a | Err _ => None end.

(** Decimal [Display] of an integer. *)
Definition fmt (z : Z) : string := pretty z.

(** [Option::unwrap_or]. *)
Definition unwrap_or {A} (d : A) (o : option A) : A := default d o.

(** ** Proof automation *)

Create HintDb chrono.
Create Rewrite HintDb chrono.

(** Case on every [bool_decide], [decide] and [match] the goal is stuck on. *)
Ltac break :=
  repeat first
    [ progress simplify_eq/=
    | case_bool_decide
    | case_decide
    | case_match ].

(** Turn boolean tests of hypotheses into propositions. *)
Ltac breflect :=
  repeat match goal with
  | H : _ && _ = true |- _ => apply andb_true_iff in H; destruct H
  | H : _ || _ = false |- _ => apply orb_false_iff in H; destruct H
  | H : negb _ = true |- _ => apply negb_true_iff in H
  | H : negb _ = false |- _ => apply negb_false_iff in H
  | H : bool_decide _ = true |- _ => apply bool_decide_eq_true in H
  | H : bool_decide _ = false |- _ => apply bool_decide_eq_false in H
  | H : (_ <? _) = true |- _ => apply Z.ltb_lt in H
  | H : (_ <? _) = false |- _ => apply Z.ltb_ge in H
  | H : (_ <=? _) = true |- _ => apply Z.leb_le in H
  | H : (_ <=? _) = false |- _ => apply Z.leb_gt in H
  | H : (_ =? _) = true |- _ => apply Z.eqb_eq in H
  | H : (_ =? _) = false |- _ => apply Z.eqb_neq in H
  end.

(** ** Lemmas on integers and lengths *)

Lemma zlen_app {A} (l k : list A) : zlen (l ++ k) = zlen l + zlen k.
Proof. unfold zlen. rewrite length_app. lia. Qed.

Lemma zlen_cons {A} (x : A) (l : list A) : zlen (x :: l) = 1 + zlen l.
Proof. unfold zlen. simpl. lia. Qed.

Lemma zlen_nonneg {A} (l : list A) : 0 <= zlen l.
Proof. unfold zlen. lia. Qed.

Lemma zlen_zeros n : 0 <= n -> zlen (zeros n) = n.
Proof. intros. unfold zlen, zeros. rewrite length_replicate. lia. Qed.

Lemma wrap64_small z : 0 <= z < 2 ^ 64 -> wrap64 z = z.
Proof. intros. by apply Z.mod_small. Qed.

Lemma wrap32_small z : 0 <= z < 2 ^ 32 -> wrap32 z = z.
Proof. intros. by apply Z.mod_small. Qed.

Lemma wrap64_range z : 0 <= wrap64 z < 2 ^ 64.
Proof. by apply Z.mod_pos_bound. Qed.

Lemma wrap32_range z : 0 <= wrap32 z < 2 ^ 32.
Proof. by apply Z.mod_pos_bound. Qed.

#[export] Hint Rewrite @zlen_app @zlen_cons : chrono.
#[export] Hint Resolve zlen_nonneg wrap64_range wrap32_range : chrono.

Lemma forallb_true_Forall {A} (f : A -> bool) l :
  forallb f l = true <-> Forall (fun x => f x = true) l.
Proof.
  induction l as [|x l IH]; simpl; [split; [constructor|done]|].
  by rewrite andb_true_iff, Forall_cons, IH.
Qed.

Lemma filter_all {A} (P : A -> Prop) `{forall x, Decision (P x)} l :
  Forall P l -> filter P l = l.
Proof. induction 1; [done|]. by rewrite filter_cons_True, IHForall. Qed.

Lemma filter_none {A} (P : A -> Prop) `{forall x, Decision (P x)} l :
  Forall (fun x => ~ P x) l -> filter P l = [].
Proof. induction 1; [done|]. by rewrite filter_cons_False. Qed.

Lemma filter_fmap {A B} (f : A -> B) (P : B -> Prop) `{forall x, Decision (P x)} (l : list A) :
  filter P (f <$> l) = f <$> filter (fun x => P (f x)) l.
Proof.
  induction l as [|x l IH]; [done|]. rewrite fmap_cons. destruct (decide (P (f x))).
  - by rewrite !filter_cons_True, fmap_cons, IH.
  - by rewrite !filter_cons_False, IH.
Qed.

Lemma NoDup_fmap_key {A B} (f : A -> B) l x y :
  NoDup (f <$> l) -> x ∈ l -> y ∈ l -> f x = f y -> x = y.
Proof.
  intros Hnd [i Hi]%list_elem_of_lookup_1 [j Hj]%list_elem_of_lookup_1 E.
  assert (i = j) as ->; [|congruence].
  eapply (NoDup_lookup (f <$> l)); [done|by rewrite list_lookup_fmap, Hi|].
  by rewrite list_lookup_fmap, Hj, E.
Qed.

(** ** Lemmas on the byte codecs *)

Lemma length_be_bytes n z : length (be_bytes n z) = n.
Proof. induction n; simpl; congruence. Qed.

Lemma zlen_be_bytes n z : zlen (be_bytes n z) = Z.of_nat n.
Proof. unfold zlen. by rewrite length_be_bytes. Qed.

Lemma be_bytes_ok n z : bytes_ok (be_bytes n z).
Proof.
  induction n; simpl; constructor; [|done].
  unfold is_byte. by apply Z.mod_pos_bound.
Qed.

Lemma foldl_be acc bs :
  foldl (fun acc b => acc * 256 + b) acc bs = acc * 256 ^ zlen bs + from_be bs.
Proof.
  unfold from_be. revert acc. induction bs as [|b bs IH]; intros acc.
  - unfold zlen. simpl. lia.
  - cbn [foldl]. rewrite IH, (IH (0 * 256 + b)), zlen_cons, Z.pow_add_r by (auto with chrono; lia).
    lia.
Qed.

Lemma from_be_cons b bs : from_be (b :: bs) = b * 256 ^ zlen bs + from_be bs.
Proof. unfold from_be at 1. cbn [foldl]. rewrite foldl_be. lia. Qed.

Lemma from_be_bytes n z : from_be (be_bytes n z) = z mod 256 ^ Z.of_nat n.
Proof.
  induction n as [|n IH].
  - unfold from_be. simpl. by rewrite Z.mod_1_r.
  - cbn [be_bytes]. rewrite from_be_cons, IH, zlen_be_bytes.
    rewrite Z.shiftr_div_pow2 by lia.
    replace (2 ^ (8 * Z.of_nat n)) with (256 ^ Z.of_nat n)
      by (rewrite Z.pow_mul_r by lia; done).
    rewrite Nat2Z.inj_succ, Z.pow_succ_r by lia.
    rewrite (Z.mul_comm 256), Z.rem_mul_r by (try apply Z.pow_nonzero; lia).
    lia.
Qed.

Lemma be_bytes_inj n z1 z2 :
  0 <= z1 < 256 ^ Z.of_nat n -> 0 <= z2 < 256 ^ Z.of_nat n ->
  be_bytes n z1 = be_bytes n z2 -> z1 = z2.
Proof.
  intros H1 H2 E%(f_equal from_be). rewrite !from_be_bytes in E.
  by rewrite !Z.mod_small in E.
Qed.

Lemma from_be_bound bs : bytes_ok bs -> 0 <= from_be bs < 256 ^ zlen bs.
Proof.
  induction 1 as [|b bs Hb Hbs IH]; [done|]. unfold is_byte in Hb.
  rewrite from_be_cons, zlen_cons, Z.pow_add_r by (auto with chrono; lia).
  assert (0 < 256 ^ zlen bs) by (apply Z.pow_pos_nonneg; auto with chrono; lia). nia.
Qed.

Lemma from_be_range bs : bytes_ok bs -> zlen bs = 4 -> 0 <= from_be bs < 2 ^ 32.
Proof. intros Hok Hl. pose proof (from_be_bound bs Hok). by rewrite Hl in H. Qed.

Lemma from_be_inj a b :
  bytes_ok a -> bytes_ok b -> length a = length b -> from_be a = from_be b -> a = b.
Proof.
  intros Ha. revert b. induction Ha as [|x a Hx Ha IH]; intros [|y b] Hb Hl E; try done.
  apply Forall_cons in Hb as [Hy Hb]. simpl in Hl. unfold is_byte in *.
  rewrite !from_be_cons in E.
  pose proof (from_be_bound a Ha). pose proof (from_be_bound b Hb).
  assert (zlen a = zlen b) as Hz by (unfold zlen; lia). rewrite Hz in *.
  assert (x = y) as -> by nia. f_equal. apply IH; [done|lia|lia].
Qed.

Lemma be_bytes_from_be bs : bytes_ok bs -> be_bytes (length bs) (from_be bs) = bs.
Proof.
  intros Hok. apply from_be_inj; [apply be_bytes_ok|done|apply length_be_bytes|].
  rewrite from_be_bytes. apply Z.mod_small, from_be_bound, Hok.
Qed.

Lemma app_eq_length {A} (a b c d : list A) :
  length a = length b -> a ++ c = b ++ d -> a = b /\ c = d.
Proof. intros. by apply app_inj_1. Qed.

(** ** Lemmas on strings *)

Lemma ascii_byte_range c : is_byte (ascii_byte c).
Proof.
  unfold is_byte, ascii_byte. pose proof (Ascii.N_ascii_bounded c). lia.
Qed.

Lemma byte_ascii_byte c : byte_ascii (ascii_byte c) = c.
Proof. unfold byte_ascii, ascii_byte. by rewrite N2Z.id, Ascii.ascii_N_embedding. Qed.

Lemma ascii_byte_ascii b : is_byte b -> ascii_byte (byte_ascii b) = b.
Proof.
  unfold is_byte, byte_ascii, ascii_byte. intros.
  rewrite Ascii.N_ascii_embedding by lia. lia.
Qed.

Lemma string_bytes_ok s : bytes_ok (string_bytes s).
Proof. induction s; simpl; constructor; auto using ascii_byte_range. Qed.

Lemma bytes_string_bytes s : bytes_string (string_bytes s) = s.
Proof. induction s; simpl; [done|]. by rewrite byte_ascii_byte, IHs. Qed.

Lemma string_bytes_string bs : bytes_ok bs -> string_bytes (bytes_string bs) = bs.
Proof.
  induction 1; simpl; [done|]. by rewrite ascii_byte_ascii, IHForall.
Qed.

Lemma string_bytes_inj s1 s2 : string_bytes s1 = string_bytes s2 -> s1 = s2.
Proof. intros E%(f_equal bytes_string). by rewrite !bytes_string_bytes in E. Qed.

Lemma length_string_bytes s : length (string_bytes s) = String.length s.
Proof. induction s; simpl; congruence. Qed.

Lemma zlen_string_bytes s : zlen (string_bytes s) = slen s.
Proof. unfold zlen, slen. by rewrite length_string_bytes. Qed.

Lemma string_bytes_app s1 s2 : string_bytes (s1 +:+ s2) = string_bytes s1 ++ string_bytes s2.
Proof. induction s1; simpl; [done|]. f_equal. apply IHs1. Qed.

(** [from_utf8_lossy] is the identity on valid UTF-8. *)
Lemma utf8_lossy_valid_le n bs : (length bs <= n)%nat -> utf8_valid bs = true -> utf8_lossy bs = bs.
Proof.
  revert bs. induction n as [|n IH]; intros [|b0 r0] Hn Hv; simpl in Hn; try (done || lia).
  cbn [utf8_valid] in Hv. cbn [utf8_lossy].
  destruct (b0 <? 128); [rewrite IH by (done || lia); done|].
  destruct (byte_in 194 223 b0).
  { destruct r0 as [|b1 r1]; [done|]. breflect. rewrite H.
    rewrite IH by (simpl in *; done || lia). done. }
  destruct (byte_in 224 239 b0).
  { destruct r0 as [|b1 [|b2 r2]]; try done. breflect. rewrite H, H1.
    rewrite IH by (simpl in *; done || lia). done. }
  destruct (byte_in 240 244 b0); [|done].
  destruct r0 as [|b1 [|b2 [|b3 r3]]]; try done. breflect. rewrite H, H1, H2.
  rewrite IH by (simpl in *; done || lia). done.
Qed.

Lemma utf8_lossy_valid bs : utf8_valid bs = true -> utf8_lossy bs = bs.
Proof. by apply (utf8_lossy_valid_le (length bs)). Qed.

Definition str_ok (s : string) : Prop := utf8_valid (string_bytes s) = true.

Lemma from_utf8_str s : str_ok s -> from_utf8 (string_bytes s) = Some s.
Proof. unfold str_ok, from_utf8. intros ->. by rewrite bytes_string_bytes. Qed.

Lemma from_utf8_lossy_str s : str_ok s -> from_utf8_lossy (string_bytes s) = s.
Proof. unfold str_ok, from_utf8_lossy. intros. by rewrite utf8_lossy_valid, bytes_string_bytes. Qed.

#[global] Arguments be_bytes : simpl never.
#[global] Arguments from_be : simpl never.
#[global] Arguments zlen : simpl never.
#[global] Arguments slen : simpl never.
#[global] Arguments zeros : simpl never.
#[global] Arguments Z.pow : simpl never.
