(* ===== verification/Crypto.v ===== *)
(** The cryptographic interface of the daemon, and [crypto.rs] on top of it.

    The primitives (SHA-256, HKDF-SHA256, AES-256-GCM, Ed25519, X25519) are crates, not code of
    the repository: they are the operations of the class [Crypto], and what the program relies
    on is stated in one small class of laws per primitive. [toy_crypto] is a concrete instance
    that satisfies every law; the witnesses of the other files run the model on it. *)

From S2P Require Import Prelude.

Class Crypto := {
  (** [Sha256::digest]. *)
  sha256_digest : bytes -> bytes;
  (** [Hkdf::<Sha256>::new(salt, ikm).expand(info, &mut [0u8; 32])]. *)
  hkdf32 : option bytes -> bytes -> bytes -> bytes;
  (** [Aes256Gcm::encrypt] and [decrypt] under key and nonce; the ciphertext carries the tag. *)
  aes_encrypt : bytes -> bytes -> bytes -> option bytes;
  aes_decrypt : bytes -> bytes -> bytes -> option bytes;
  (** Ed25519: [SigningKey::sign], [SigningKey::verifying_key().as_bytes()],
      [VerifyingKey::from_bytes], [Signature::from_slice], [VerifyingKey::verify]. *)
  ed_sign : bytes -> bytes -> bytes;
  ed_public : bytes -> bytes;
  ed_vk_from_bytes : bytes -> option bytes;
  ed_sig_from_slice : bytes -> option bytes;
  ed_verify : bytes -> bytes -> bytes -> bool;
  (** X25519: [PublicKey::from(&secret)], [diffie_hellman], [was_contributory]. *)
  x_public : bytes -> bytes;
  x_dh : bytes -> bytes -> bytes;
  x_contributory : bytes -> bool;
}.

(** SHA-256 of the empty string, the first test vector of FIPS 180-4. *)
Definition sha256_of_empty : bytes :=
  [227; 176; 196; 66; 152; 252; 28; 20; 154; 251; 244; 200; 153; 111; 185; 36;
   39; 174; 65; 228; 100; 155; 147; 76; 164; 149; 153; 27; 120; 82; 184; 85].

Class ShaLaws `{Crypto} : Prop := {
  sha256_length : forall m, length (sha256_digest m) = 32%nat;
  sha256_bytes_ok : forall m, bytes_ok (sha256_digest m);
  sha256_empty : sha256_digest [] = sha256_of_empty;
}.

Class HkdfLaws `{Crypto} : Prop := {
  hkdf32_length : forall salt ikm info, length (hkdf32 salt ikm info) = 32%nat;
  hkdf32_bytes_ok : forall salt ikm info, bytes_ok (hkdf32 salt ikm info);
}.

Class AesLaws `{Crypto} : Prop := {
  aes_encrypt_total : forall k n p,
    length k = 32%nat -> length n = 12%nat -> zlen p < 2 ^ 36 -> is_Some (aes_encrypt k n p);
  aes_round_trip : forall k n p c, aes_encrypt k n p = Some c -> aes_decrypt k n c = Some p;
  aes_tag : forall k n p c, aes_encrypt k n p = Some c -> zlen c = zlen p + 16;
  aes_unique : forall k n p c, aes_decrypt k n c = Some p -> aes_encrypt k n p = Some c;
}.

Class EdLaws `{Crypto} : Prop := {
  ed_public_length : forall sk, length (ed_public sk) = 32%nat;
  ed_public_bytes_ok : forall sk, bytes_ok (ed_public sk);
  ed_public_parses : forall sk, ed_vk_from_bytes (ed_public sk) = Some (ed_public sk);
  ed_sign_parses : forall sk m, ed_sig_from_slice (ed_sign sk m) = Some (ed_sign sk m);
  ed_sig_slice_len : forall s sig, ed_sig_from_slice s = Some sig -> length s = 64%nat;
  ed_verify_sign : forall sk m, ed_verify (ed_public sk) m (ed_sign sk m) = true;
}.

Class DhLaws `{Crypto} : Prop := {
  x_public_length : forall s, length (x_public s) = 32%nat;
  x_public_bytes_ok : forall s, bytes_ok (x_public s);
  x_dh_comm : forall a b, x_dh a (x_public b) = x_dh b (x_public a);
}.

(** ** [crypto.rs] *)

Section CryptoRs.
Context `{Crypto}.

(** [nonce] stands for the twelve bytes [OsRng] fills. *)
Definition encrypt_e2e (nonce plaintext key : bytes) : option bytes :=
  match aes_encrypt key nonce plaintext with
  | Some ciphertext => Some (nonce ++ ciphertext)
  | None => None
  end.

Definition decrypt_e2e (encrypted key : bytes) : option bytes :=
  if zlen encrypted <? 28 then None
  else aes_decrypt key (take 12 encrypted) (drop 12 encrypted).

Definition constant_time_eq (a b : bytes) : bool :=
  let same_len := bool_decide (length a = length b) in
  let diff := foldl (fun d p => Z.lor d (Z.lxor (fst p) (snd p))) 0 (zip a b) in
  (diff =? 0) && same_len.

Definition sha256 (data : bytes) : bytes := sha256_digest data.

Definition hkdf_expand32 (prk info : bytes) : bytes := hkdf32 None prk info.

Definition derive_session_key (shared_secret eph_a eph_b : bytes) : bytes :=
  let '(lo, hi) := if bytes_ltb eph_a eph_b then (eph_a, eph_b) else (eph_b, eph_a) in
  hkdf32 (Some (lo ++ hi)) shared_secret (string_bytes "chrono-session-v1").

Definition secure_clear (data : bytes) : bytes := (fun _ => 0) <$> data.

End CryptoRs.

(** ** Lemmas *)

Lemma bytes_ltb_irrefl a : bytes_ltb a a = false.
Proof. induction a; simpl; [done|]. rewrite IHa, Z.ltb_irrefl, Z.eqb_refl. done. Qed.

Lemma bytes_ltb_asym a b : bytes_ltb a b = true -> bytes_ltb b a = false.
Proof.
  revert b. induction a as [|x a IH]; intros [|y b]; simpl; try done.
  rewrite orb_true_iff, andb_true_iff, orb_false_iff, andb_false_iff.
  intros [?|[? ?]]; breflect; subst.
  - split; [apply Z.ltb_ge; lia|left; apply Z.eqb_neq; lia].
  - split; [apply Z.ltb_irrefl|right; auto].
Qed.

Lemma bytes_ltb_total a b : bytes_ltb a b = false -> bytes_ltb b a = false -> a = b.
Proof.
  revert b. induction a as [|x a IH]; intros [|y b]; simpl; try done.
  rewrite !orb_false_iff, !andb_false_iff. intros [? H1] [? H2]. breflect.
  assert (x = y) as -> by lia. rewrite Z.eqb_refl in *.
  f_equal. apply IH; naive_solver.
Qed.

(** Ordering the two arguments by [<] makes a two-argument function symmetric. *)
Lemma bytes_sort_sym a b :
  (if bytes_ltb a b then (a, b) else (b, a)) = (if bytes_ltb b a then (b, a) else (a, b)).
Proof.
  destruct (bytes_ltb a b) eqn:E1, (bytes_ltb b a) eqn:E2; try done.
  - by rewrite (bytes_ltb_asym _ _ E1) in E2.
  - by rewrite (bytes_ltb_total _ _ E1 E2).
Qed.

Lemma derive_session_key_sym `{Crypto} s a b :
  derive_session_key s a b = derive_session_key s b a.
Proof. unfold derive_session_key. by rewrite bytes_sort_sym. Qed.

Lemma lor_fold_zero d (l : list (Z * Z)) :
  foldl (fun d p => Z.lor d (Z.lxor (fst p) (snd p))) d l = 0 <->
  d = 0 /\ Forall (fun p => fst p = snd p) l.
Proof.
  revert d. induction l as [|[x y] l IH]; intros d; simpl.
  - split; [intros ->; split; [done|constructor]|naive_solver].
  - rewrite IH, Z.lor_eq_0_iff, Z.lxor_eq_0_iff, Forall_cons. simpl. naive_solver.
Qed.

Lemma zip_fst_snd_eq {A} (a b : list A) :
  length a = length b -> Forall (fun p => fst p = snd p) (zip a b) <-> a = b.
Proof.
  revert b. induction a as [|x a IH]; intros [|y b] Hl; simpl in *; try (done || lia).
  rewrite Forall_cons, IH by lia. simpl. naive_solver.
Qed.

Lemma constant_time_eq_spec a b : constant_time_eq a b = bool_decide (a = b).
Proof.
  unfold constant_time_eq. apply eq_bool_prop_intro.
  rewrite andb_True, !bool_decide_spec. rewrite Is_true_true, Z.eqb_eq, lor_fold_zero.
  split.
  - intros [[_ HF] Hl]. by apply zip_fst_snd_eq.
  - intros ->. rewrite zip_fst_snd_eq by done. done.
Qed.

Lemma encrypt_decrypt_e2e `{Crypto, !AesLaws} nonce p key c :
  length nonce = 12%nat -> encrypt_e2e nonce p key = Some c -> decrypt_e2e c key = Some p.
Proof.
  unfold encrypt_e2e, decrypt_e2e. intros Hn E. case_match eqn:Ea; simplify_eq.
  pose proof (aes_tag _ _ _ _ Ea). rewrite zlen_app.
  replace (zlen nonce) with 12 by (unfold zlen; lia).
  rewrite (proj2 (Z.ltb_ge _ _)) by (pose proof (zlen_nonneg p); lia).
  rewrite take_app_length', drop_app_length' by lia. by eapply aes_round_trip.
Qed.

(** ** A concrete instance *)

Definition toy_digest (m : bytes) : bytes :=
  match m with
  | [] => sha256_of_empty
  | _ => be_bytes 32 (from_be (take 64 m) + 5 * zlen m)
  end.

Definition toy_tag (k m : bytes) : bytes := be_bytes 64 (from_be k * 2 ^ 250 + from_be (take 64 m)).

Definition toy_aes_tag (k n p : bytes) : bytes :=
  be_bytes 16 (from_be (take 32 k) + 3 * from_be (take 12 n) + 7 * from_be (take 16 p)).

Definition toy_decrypt (k n c : bytes) : option bytes :=
  let p := take (length c - 16) c in
  if bool_decide (16 <= length c /\ drop (length c - 16) c = toy_aes_tag k n p)%nat
  then Some p else None.

Definition toy_crypto : Crypto := {|
  sha256_digest := toy_digest;
  hkdf32 := fun salt ikm info =>
    be_bytes 32 (from_be (default [] salt) + 11 * from_be ikm + 13 * from_be info);
  aes_encrypt := fun k n p => Some (p ++ toy_aes_tag k n p);
  aes_decrypt := toy_decrypt;
  ed_sign := fun sk m => toy_tag (be_bytes 32 (from_be sk)) m;
  ed_public := fun sk => be_bytes 32 (from_be sk);
  ed_vk_from_bytes := fun b => if bool_decide (length b = 32%nat) then Some b else None;
  ed_sig_from_slice := fun s => if bool_decide (length s = 64%nat) then Some s else None;
  ed_verify := fun vk m s => bool_decide (s = toy_tag vk m);
  x_public := fun s => be_bytes 32 (9 * from_be s);
  x_dh := fun s p => be_bytes 32 (from_be s * from_be p);
  x_contributory := fun s => negb (bool_decide (s = be_bytes 32 0));
|}.

Lemma toy_sha_laws : @ShaLaws toy_crypto.
Proof.
  split; simpl.
  - intros [|b m]; [done|]. apply length_be_bytes.
  - intros [|b m]; [|apply be_bytes_ok]. repeat constructor; unfold is_byte; lia.
  - done.
Qed.

Lemma toy_hkdf_laws : @HkdfLaws toy_crypto.
Proof. split; intros; [apply length_be_bytes|apply be_bytes_ok]. Qed.

Lemma toy_aes_laws : @AesLaws toy_crypto.
Proof.
  assert (Hl : forall k n p, length (toy_aes_tag k n p) = 16%nat)
    by (intros; apply length_be_bytes).
  split; simpl.
  - intros k n p _ _ _. eauto.
  - intros k n p c E. injection E as <-. unfold toy_decrypt.
    rewrite length_app, Hl.
    replace (length p + 16 - 16)%nat with (length p) by lia.
    rewrite take_app_length, drop_app_length.
    rewrite bool_decide_eq_true_2; [done|split; [lia|done]].
  - intros k n p c E. injection E as <-. rewrite zlen_app. unfold zlen at 2. rewrite Hl. done.
  - unfold toy_decrypt. intros k n p c E. case_bool_decide as Hc; [|done]. injection E as <-.
    destruct Hc as [_ <-]. by rewrite take_drop.
Qed.

Lemma toy_ed_laws : @EdLaws toy_crypto.
Proof.
  split; cbn [ed_public ed_vk_from_bytes ed_sig_from_slice ed_sign ed_verify toy_crypto]; intros.
  - apply length_be_bytes.
  - apply be_bytes_ok.
  - by rewrite bool_decide_eq_true_2 by apply length_be_bytes.
  - by rewrite bool_decide_eq_true_2 by apply length_be_bytes.
  - by case_bool_decide.
  - by rewrite bool_decide_eq_true_2.
Qed.

Lemma be_bytes_mod n a b :
  a mod 256 ^ Z.of_nat n = b mod 256 ^ Z.of_nat n -> be_bytes n a = be_bytes n b.
Proof.
  revert a b. induction n as [|n IH]; intros a b E; [done|]. cbn [be_bytes].
  rewrite Nat2Z.inj_succ, Z.pow_succ_r, (Z.mul_comm 256) in E by lia.
  assert (Hp : 0 < 256 ^ Z.of_nat n) by (apply Z.pow_pos_nonneg; lia).
  apply (f_equal2 cons).
  - rewrite !Z.shiftr_div_pow2 by lia.
    replace (2 ^ (8 * Z.of_nat n)) with (256 ^ Z.of_nat n)
      by (rewrite Z.pow_mul_r by lia; done).
    apply (f_equal (fun z => z / 256 ^ Z.of_nat n)) in E.
    rewrite !Z.rem_mul_r, !(Z.add_comm (_ mod 256 ^ _)), !(Z.mul_comm (256 ^ _)),
      !Z.div_add_l in E by lia.
    rewrite !(Z.div_small (_ mod 256 ^ _)) in E by (apply Z.mod_pos_bound; lia). lia.
  - apply IH. apply (f_equal (fun z => z mod 256 ^ Z.of_nat n)) in E.
    rewrite !Z.rem_mul_r, !(Z.mul_comm (256 ^ _)), !Z.mod_add, !Z.mod_mod in E by lia. done.
Qed.

Lemma toy_dh_laws : @DhLaws toy_crypto.
Proof.
  split; cbn [x_public x_dh toy_crypto]; intros; [apply length_be_bytes|apply be_bytes_ok|].
  apply be_bytes_mod. rewrite !from_be_bytes.
  rewrite !Z.mul_mod_idemp_r by (apply Z.pow_nonzero; lia). f_equal. lia.
Qed.

#[export] Existing Instances toy_sha_laws toy_hkdf_laws toy_aes_laws toy_ed_laws toy_dh_laws.
