(* ===== verification/Identity.v ===== *)
(** Identities: [identity.rs] (hex codec, Ed25519 key pair, fingerprint), [validate_uid] of
    [lib.rs], and the key parser shared by [relay.rs], [round_driver.rs] and [round_engine.rs]. *)

From S2P Require Import Prelude Crypto.

(** ** Hex codec *)

Definition hex_digit (d : Z) : Z := if d <? 10 then 48 + d else 87 + d.

(** [format!("{:02x}", b)] for every byte. *)
Fixpoint hex_encode_bytes (bs : bytes) : bytes :=
  match bs with
  | [] => []
  | b :: r => hex_digit (b / 16) :: hex_digit (b mod 16) :: hex_encode_bytes r
  end.

Definition hex_encode (bs : bytes) : string := bytes_string (hex_encode_bytes bs).

(** [char::to_digit(16)]. *)
Definition to_digit (c : Z) : option Z :=
  if byte_in 48 57 c then Some (c - 48)
  else if byte_in 97 102 c then Some (c - 87)
  else if byte_in 65 70 c then Some (c - 55)
  else None.

(** [u8::from_str_radix(s, 16)] on a two-character [s]: a leading plus sign is accepted. *)
Definition from_str_radix2 (c1 c2 : Z) : option Z :=
  if c1 =? 43 then to_digit c2
  else match to_digit c1, to_digit c2 with
       | Some h, Some l => Some (16 * h + l)
       | _, _ => None
       end.

Fixpoint hex_pairs (bs : bytes) : option bytes :=
  match bs with
  | [] => Some []
  | c1 :: c2 :: r =>
      match from_str_radix2 c1 c2, hex_pairs r with
      | Some b, Some bs' => Some (b :: bs')
      | _, _ => None
      end
  | [_] => None
  end.

Definition is_ascii (bs : bytes) : bool := forallb (fun b => b <? 128) bs.

Definition hex_decode (hex : string) : option bytes :=
  if negb (slen hex mod 2 =? 0) || negb (is_ascii (string_bytes hex)) then None
  else hex_pairs (string_bytes hex).

(** [<[u8; 32]>::try_from(bytes).ok()]. *)
Definition array32 (bs : bytes) : option bytes :=
  if bool_decide (length bs = 32%nat) then Some bs else None.

(** [bytes.chunks(4)]. *)
Fixpoint chunks4 (bs : bytes) : list bytes :=
  match bs with
  | a :: b :: c :: d :: r => [a; b; c; d] :: chunks4 r
  | [] => []
  | r => [r]
  end.

Fixpoint join_space (ls : list bytes) : bytes :=
  match ls with
  | [] => []
  | [l] => l
  | l :: r => l ++ 32 :: join_space r
  end.

Definition ascii_upper (b : Z) : Z := if byte_in 97 122 b then b - 32 else b.
Definition ascii_lower (b : Z) : Z := if byte_in 65 90 b then b + 32 else b.

Section Identity.
Context `{Crypto}.

Definition fingerprint_of_public_hex (public_hex : string) : string :=
  let hash := sha256_digest (string_bytes public_hex) in
  let hex := hex_encode_bytes hash in
  bytes_string (ascii_upper <$> join_space (take 8 (chunks4 hex))).

(** [struct Identity]; the secret stays in its hex form. *)
Record Identity := mkIdentity {
  uid : string;
  secret_hex : string;
  public_hex : string;
  created : Z;
}.

(** [seed] stands for the 32 bytes [OsRng] fills, [now] for the Unix time. *)
Definition generate (uid0 : string) (seed : bytes) (now : Z) : Identity :=
  {| uid := uid0; secret_hex := hex_encode seed;
     public_hex := hex_encode (ed_public seed); created := now |}.

Definition public_key (id : Identity) : option bytes :=
  bs ← hex_decode (public_hex id); arr ← array32 bs; ed_vk_from_bytes arr.

Definition signing_key (id : Identity) : option bytes :=
  bs ← hex_decode (secret_hex id); array32 bs.

Definition sign (id : Identity) (message : bytes) : option bytes :=
  sk ← signing_key id; Some (ed_sign sk message).

Definition fingerprint (id : Identity) : string := fingerprint_of_public_hex (public_hex id).

Definition public_hex_short (id : Identity) : string :=
  let h := string_bytes (public_hex id) in
  if (zlen h <? 8) || negb (is_ascii h) then public_hex id
  else bytes_string (take 8 h ++ [46; 46; 46] ++ drop (length h - 8) h).

(** [parse_verifying_key] of relay.rs, round_driver.rs and round_engine.rs. *)
Definition parse_verifying_key (key_hex : string) : option bytes :=
  bs ← hex_decode key_hex; arr ← array32 bs; ed_vk_from_bytes arr.

End Identity.

(** ** Peer uids *)

Definition is_ascii_alphanumeric (b : Z) : bool :=
  byte_in 48 57 b || byte_in 65 90 b || byte_in 97 122 b.

(** The other characters allowed: [. _ - @ : [ ]]. *)
Definition uid_punct (b : Z) : bool :=
  bool_decide (b ∈ [46; 95; 45; 64; 58; 91; 93]).

Definition validate_uid (uid : string) : bool :=
  negb (bool_decide (uid = EmptyString)) && (slen uid <=? 64) &&
  forallb (fun b => is_ascii_alphanumeric b || uid_punct b) (string_bytes uid).

(** ** Lemmas *)

Lemma to_digit_hex_digit d : 0 <= d < 16 -> to_digit (hex_digit d) = Some d.
Proof.
  intros. unfold hex_digit, to_digit, byte_in.
  destruct (d <? 10) eqn:E; breflect.
  - rewrite !(proj2 (Z.leb_le _ _)) by lia. simpl. f_equal. lia.
  - rewrite (proj2 (Z.leb_gt _ 57)) by lia. rewrite andb_false_r.
    rewrite !(proj2 (Z.leb_le _ _)) by lia. simpl. f_equal. lia.
Qed.

Lemma hex_digit_range d : 0 <= d < 16 -> 48 <= hex_digit d < 103 /\ hex_digit d <> 43.
Proof. unfold hex_digit. case_match; breflect; lia. Qed.

Lemma hex_byte b :
  is_byte b -> from_str_radix2 (hex_digit (b / 16)) (hex_digit (b mod 16)) = Some b.
Proof.
  unfold is_byte. intros Hb.
  assert (0 <= b / 16 < 16) by (split; [apply Z.div_pos|apply Z.div_lt_upper_bound]; lia).
  pose proof (Z.mod_pos_bound b 16 eq_refl).
  unfold from_str_radix2. rewrite (proj2 (Z.eqb_neq _ _)) by (by apply hex_digit_range).
  rewrite !to_digit_hex_digit by done. f_equal. symmetry. by apply Z.div_mod.
Qed.

Lemma hex_pairs_encode bs : bytes_ok bs -> hex_pairs (hex_encode_bytes bs) = Some bs.
Proof.
  induction 1 as [|b bs Hb Hbs IH]; [done|]. cbn [hex_encode_bytes hex_pairs].
  by rewrite hex_byte, IH.
Qed.

Lemma hex_encode_bytes_ascii bs :
  bytes_ok bs -> Forall (fun c => 48 <= c < 103) (hex_encode_bytes bs).
Proof.
  induction 1 as [|b bs Hb Hbs IH]; [constructor|]. unfold is_byte in Hb. simpl.
  assert (0 <= b / 16 < 16) by (split; [apply Z.div_pos|apply Z.div_lt_upper_bound]; lia).
  pose proof (Z.mod_pos_bound b 16 eq_refl).
  pose proof (hex_digit_range (b / 16)). pose proof (hex_digit_range (b mod 16)).
  repeat constructor; try lia; done.
Qed.

Lemma length_hex_encode_bytes bs : length (hex_encode_bytes bs) = (2 * length bs)%nat.
Proof. induction bs; simpl; lia. Qed.

Lemma hex_string_bytes bs : bytes_ok bs -> string_bytes (hex_encode bs) = hex_encode_bytes bs.
Proof.
  intros Hb. apply string_bytes_string.
  eapply Forall_impl; [by apply hex_encode_bytes_ascii|]. unfold is_byte. simpl. lia.
Qed.

Lemma to_digit_range c d : to_digit c = Some d -> 0 <= d < 16.
Proof. unfold to_digit, byte_in. intros E. repeat case_match; breflect; simplify_eq; lia. Qed.

Lemma hex_decode_bytes_ok s bs : hex_decode s = Some bs -> bytes_ok bs.
Proof.
  unfold hex_decode. destruct (_ || _); [done|]. generalize (string_bytes s). intros l.
  assert (Hn : forall n l bs, (length l <= n)%nat -> hex_pairs l = Some bs -> bytes_ok bs).
  { clear. induction n as [|n IH]; intros [|a [|b l]] bs Hl; cbn [length hex_pairs] in *; try lia; try done; try (intros [= <-]; constructor).
    destruct (from_str_radix2 a b) as [x|] eqn:E; [|done]. destruct (hex_pairs l) as [r|] eqn:Er; [|done]. intros [= <-].
    constructor; [|by apply (IH l); [lia|]]. unfold from_str_radix2, is_byte in *. destruct (a =? 43); [apply to_digit_range in E; lia|].
    destruct (to_digit a) as [h|] eqn:Ea; [|done]. destruct (to_digit b) as [d|] eqn:Ed; [|done]. injection E as <-.
    apply to_digit_range in Ea, Ed. lia. }
  by apply (Hn (length l)).
Qed.

Lemma hex_decode_encode bs : bytes_ok bs -> hex_decode (hex_encode bs) = Some bs.
Proof.
  intros Hb. unfold hex_decode. rewrite <-zlen_string_bytes, hex_string_bytes by done.
  assert (is_ascii (hex_encode_bytes bs) = true) as ->.
  { apply forallb_true_Forall. eapply Forall_impl; [by apply hex_encode_bytes_ascii|].
    intros c Hc. apply Z.ltb_lt. simpl in Hc. lia. }
  unfold zlen. rewrite length_hex_encode_bytes, Nat2Z.inj_mul, Z.mul_comm, Z_mod_mult.
  simpl. by apply hex_pairs_encode.
Qed.

Lemma hex_encode_inj a b : bytes_ok a -> bytes_ok b -> hex_encode a = hex_encode b -> a = b.
Proof.
  intros Ha Hb E. apply (f_equal hex_decode) in E. rewrite !hex_decode_encode in E by done. congruence.
Qed.

Lemma array32_Some bs a : array32 bs = Some a <-> a = bs /\ length bs = 32%nat.
Proof. unfold array32. case_bool_decide; naive_solver. Qed.

Lemma generate_keys `{Crypto, !EdLaws} u seed now :
  length seed = 32%nat -> bytes_ok seed ->
  signing_key (generate u seed now) = Some seed /\
  public_key (generate u seed now) = Some (ed_public seed) /\
  parse_verifying_key (public_hex (generate u seed now)) = Some (ed_public seed).
Proof.
  intros Hl Hok. unfold signing_key, public_key, parse_verifying_key, generate, public_hex, secret_hex.
  rewrite !hex_decode_encode by (done || apply ed_public_bytes_ok).
  simpl. unfold array32. rewrite !bool_decide_eq_true_2 by (done || apply ed_public_length).
  simpl. rewrite ed_public_parses. done.
Qed.

Lemma validate_uid_spec u :
  validate_uid u = true <->
  u <> EmptyString /\ slen u <= 64 /\
  Forall (fun b => is_ascii_alphanumeric b = true \/ uid_punct b = true) (string_bytes u).
Proof.
  unfold validate_uid.
  rewrite !andb_true_iff, negb_true_iff, bool_decide_eq_false, Z.leb_le, forallb_true_Forall.
  assert (HF : forall bs, Forall (fun b => is_ascii_alphanumeric b || uid_punct b = true) bs <->
    Forall (fun b => is_ascii_alphanumeric b = true \/ uid_punct b = true) bs).
  { intros bs. apply Forall_iff. intros b. apply orb_true_iff. }
  rewrite HF. tauto.
Qed.
