(* ===== verification/Text.v ===== *)
(** What the daemon uses of the standard library on text: characters of UTF-8, white space,
    trimming and splitting, decimal numbers, and socket addresses ([core::net::parser]). Strings are
    their bytes; the functions take valid UTF-8. *)

From S2P Require Import Prelude Identity.

(** ** Characters *)

(** The number of bytes of the character a byte starts. *)
Definition char_width (b : Z) : nat :=
  if b <? 128 then 1 else if b <? 224 then 2 else if b <? 240 then 3 else 4.

(** [str::chars], each character as its bytes. *)
Fixpoint chars_from (fuel : nat) (bs : bytes) : list bytes :=
  match fuel, bs with
  | S fuel', b :: _ => take (char_width b) bs :: chars_from fuel' (drop (char_width b) bs)
  | _, _ => []
  end.
Definition chars (bs : bytes) : list bytes := chars_from (length bs) bs.

(** [char::is_whitespace]: the characters with the property White_Space. *)
Definition is_whitespace (c : bytes) : bool :=
  match c with
  | [b] => byte_in 9 13 b || (b =? 32)
  | [194; b] => (b =? 133) || (b =? 160)
  | [225; 154; 128] => true
  | [226; 128; b] => byte_in 128 138 b || (b =? 168) || (b =? 169) || (b =? 175)
  | [226; 129; 159] => true
  | [227; 128; 128] => true
  | _ => false
  end.

(** ** Trimming and splitting *)

Fixpoint skip_while {A} (f : A -> bool) (l : list A) : list A :=
  match l with
  | [] => []
  | x :: r => if f x then skip_while f r else l
  end.

Definition skip_back {A} (f : A -> bool) (l : list A) : list A := rev (skip_while f (rev l)).

(** [str::trim_end] and [str::trim]. *)
Definition trim_end (bs : bytes) : bytes := concat (skip_back is_whitespace (chars bs)).
Definition trim (bs : bytes) : bytes := concat (skip_back is_whitespace (skip_while is_whitespace (chars bs))).

(** The words of a list of characters; [word] is the current one. *)
Fixpoint words (word : bytes) (cs : list bytes) : list bytes :=
  match cs with
  | [] => if bool_decide (word = []) then [] else [word]
  | c :: r =>
      if is_whitespace c then if bool_decide (word = []) then words [] r else word :: words [] r
      else words (word ++ c) r
  end.
Definition split_whitespace (bs : bytes) : list bytes := words [] (chars bs).

(** [str::split(c)] at an ASCII character; there is always a first part. *)
Fixpoint split_at (sep : Z) (part : bytes) (bs : bytes) : list bytes :=
  match bs with
  | [] => [part]
  | b :: r => if b =? sep then part :: split_at sep [] r else split_at sep (part ++ [b]) r
  end.
Definition split (sep : Z) (bs : bytes) : list bytes := split_at sep [] bs.

(** [str::splitn(2, c)]. *)
Fixpoint splitn2_at (sep : Z) (part : bytes) (bs : bytes) : list bytes :=
  match bs with
  | [] => [part]
  | b :: r => if b =? sep then [part; r] else splitn2_at sep (part ++ [b]) r
  end.
Definition splitn2 (sep : Z) (bs : bytes) : list bytes := splitn2_at sep [] bs.

(** [str::strip_prefix] and [starts_with]. *)
Fixpoint strip_prefix (p bs : bytes) : option bytes :=
  match p, bs with
  | [], _ => Some bs
  | x :: p', y :: bs' => if x =? y then strip_prefix p' bs' else None
  | _ :: _, [] => None
  end.
Definition starts_with (p bs : bytes) : bool := bool_decide (is_Some (strip_prefix p bs)).

(** [to_ascii_lowercase] and [eq_ignore_ascii_case]. *)
Definition to_ascii_lowercase (bs : bytes) : bytes := ascii_lower <$> bs.
Definition eq_ignore_ascii_case (a b : bytes) : bool := bool_decide (to_ascii_lowercase a = to_ascii_lowercase b).

(** ** Numbers *)

Definition digit (radix c : Z) : option Z := d ← to_digit c; if d <? radix then Some d else None.

(** Digits of [str::parse::<uN>()] with overflow at [max]. *)
Fixpoint parse_digits (max acc : Z) (bs : bytes) : option Z :=
  match bs with
  | [] => Some acc
  | b :: r => d ← digit 10 b; let n := 10 * acc + d in if max <? n then None else parse_digits max n r
  end.

(** A leading plus sign is accepted, an empty text or a sign alone is not. *)
Definition parse_uint (max : Z) (bs : bytes) : option Z :=
  match bs with
  | [] => None
  | [43] => None
  | 43 :: r => parse_digits max 0 r
  | _ => parse_digits max 0 bs
  end.

Definition u16_max : Z := 2 ^ 16 - 1.
Definition usize_max : Z := 2 ^ 64 - 1.

(** ** Socket addresses *)

Inductive SocketAddr :=
| V4 (ip port : Z)
| V6 (ip port flowinfo scope_id : Z).

#[export] Instance SocketAddr_eq_dec : EqDecision SocketAddr.
Proof. solve_decision. Defined.

(** A reader takes a prefix of the text, or fails and takes nothing. *)
Definition reader (A : Type) := bytes -> option (A * bytes).

Definition read_char (c : Z) : reader unit :=
  fun bs => match bs with b :: r => if b =? c then Some (tt, r) else None | [] => None end.

(** The digits [Parser::read_number] takes: value, count, rest. *)
Fixpoint take_digits (radix max : Z) (limit : option nat) (acc : Z) (n : nat) (bs : bytes) : option (Z * nat * bytes) :=
  match bs with
  | [] => Some (acc, n, bs)
  | b :: r =>
      match digit radix b with
      | None => Some (acc, n, bs)
      | Some d =>
          let v := radix * acc + d in
          if max <? v then None
          else if match limit with Some l => (l <? S n)%nat | None => false end then None
          else take_digits radix max limit v (S n) r
      end
  end.

Definition read_number (radix max : Z) (limit : option nat) (allow_zero_prefix : bool) : reader Z :=
  fun bs =>
    let zero := match bs with b :: _ => b =? 48 | [] => false end in
    '(v, n, r) ← take_digits radix max limit 0 0 bs;
    if (n =? 0)%nat then None
    else if negb allow_zero_prefix && zero && (1 <? n)%nat then None
    else Some (v, r).

(** [read_separator]: the separator before every item but the first. *)
Definition read_separator {A} (sep : Z) (i : nat) (p : reader A) : reader A :=
  fun bs => if (i =? 0)%nat then p bs else '(_, r) ← read_char sep bs; p r.

Definition read_octet (i : nat) : reader Z := read_separator 46 i (read_number 10 255 (Some 3%nat) false).

Definition read_ipv4 : reader Z :=
  fun bs =>
    '(a, r) ← read_octet 0 bs; '(b, r) ← read_octet 1 r; '(c, r) ← read_octet 2 r; '(d, r) ← read_octet 3 r;
    Some (((a * 256 + b) * 256 + c) * 256 + d, r).

(** [read_groups]: the groups read, whether they end in an IPv4 address, and the rest. *)
Fixpoint read_groups (todo i : nat) (bs : bytes) : list Z * bool * bytes :=
  match todo with
  | O => ([], false, bs)
  | S todo' =>
      let v4 := if (1 <? todo)%nat then read_separator 58 i read_ipv4 bs else None in
      match v4 with
      | Some (ip, r) => ([ip / 65536; ip mod 65536], true, r)
      | None =>
          match read_separator 58 i (read_number 16 65535 (Some 4%nat) true) bs with
          | Some (g, r) => let '(gs, v4, r) := read_groups todo' (S i) r in (g :: gs, v4, r)
          | None => ([], false, bs)
          end
      end
  end.

Definition from_groups (gs : list Z) : Z := foldl (fun acc g => acc * 65536 + g) 0 gs.

Definition read_ipv6 : reader Z :=
  fun bs =>
    let '(head, head_v4, r) := read_groups 8 0 bs in
    if (length head =? 8)%nat then Some (from_groups head, r)
    else if head_v4 then None
    else
      '(_, r) ← read_char 58 r; '(_, r) ← read_char 58 r;
      let '(tail, _, r) := read_groups (8 - (length head + 1)) 0 r in
      Some (from_groups (head ++ replicate (8 - length head - length tail) 0 ++ tail), r).

Definition read_port : reader Z := fun bs => '(_, r) ← read_char 58 bs; read_number 10 65535 None true r.

Definition read_scope : reader Z := fun bs => '(_, r) ← read_char 37 bs; read_number 10 (2 ^ 32 - 1) None true r.

Definition read_socket_v4 : reader SocketAddr :=
  fun bs => '(ip, r) ← read_ipv4 bs; '(port, r) ← read_port r; Some (V4 ip port, r).

Definition read_socket_v6 : reader SocketAddr :=
  fun bs =>
    '(_, r) ← read_char 91 bs; '(ip, r) ← read_ipv6 r;
    let '(scope, r) := match read_scope r with Some (s, r') => (s, r') | None => (0, r) end in
    '(_, r) ← read_char 93 r; '(port, r) ← read_port r; Some (V6 ip port 0 scope, r).

(** [str::parse::<SocketAddr>()]: the whole text, IPv4 first. *)
Definition parse_socket_addr (bs : bytes) : option SocketAddr :=
  match read_socket_v4 bs with
  | Some (a, []) => Some a
  | Some _ => None
  | None => match read_socket_v6 bs with Some (a, []) => Some a | _ => None end
  end.

(** ** Lemmas *)

Lemma chars_from_concat fuel bs : (length bs <= fuel)%nat -> concat (chars_from fuel bs) = bs.
Proof.
  revert bs. induction fuel as [|fuel IH]; intros [|b bs] Hl; cbn [chars_from concat length] in *; try done; [lia|].
  rewrite IH; [apply take_drop|]. rewrite length_drop. cbn [length]. unfold char_width. repeat case_match; lia.
Qed.

Lemma chars_concat bs : concat (chars bs) = bs.
Proof. by apply chars_from_concat. Qed.

Lemma skip_while_suffix {A} (f : A -> bool) l : exists p, l = p ++ skip_while f l.
Proof.
  induction l as [|x l [p IH]]; [by exists []|]. cbn [skip_while]. destruct (f x); [|by exists []].
  exists (x :: p). cbn. by rewrite <-IH.
Qed.

Lemma skip_back_prefix {A} (f : A -> bool) l : exists s, l = skip_back f l ++ s.
Proof.
  destruct (skip_while_suffix f (rev l)) as [p E]. exists (rev p). unfold skip_back.
  rewrite <-rev_app_distr, <-E. symmetry. apply rev_involutive.
Qed.

(** What trimming leaves is a part of the text. *)
Lemma trim_part bs : exists p s, bs = p ++ trim bs ++ s.
Proof.
  destruct (skip_while_suffix is_whitespace (chars bs)) as [p E].
  destruct (skip_back_prefix is_whitespace (skip_while is_whitespace (chars bs))) as [s E'].
  exists (concat p), (concat s). unfold trim. rewrite <-concat_app, <-E', <-concat_app, <-E. symmetry. apply chars_concat.
Qed.

Lemma trim_end_part bs : exists s, bs = trim_end bs ++ s.
Proof.
  destruct (skip_back_prefix is_whitespace (chars bs)) as [s E]. exists (concat s).
  unfold trim_end. rewrite <-concat_app, <-E. symmetry. apply chars_concat.
Qed.

Lemma trim_Forall (P : Z -> Prop) bs : Forall P bs -> Forall P (trim bs).
Proof. destruct (trim_part bs) as (p & s & E). rewrite E at 1. rewrite !Forall_app. tauto. Qed.

Lemma trim_end_Forall (P : Z -> Prop) bs : Forall P bs -> Forall P (trim_end bs).
Proof. destruct (trim_end_part bs) as [s E]. rewrite E at 1. rewrite Forall_app. tauto. Qed.

Lemma strip_prefix_Some p bs r : strip_prefix p bs = Some r <-> bs = p ++ r.
Proof.
  revert bs. induction p as [|x p IH]; intros bs; cbn [strip_prefix app]; [split; congruence|].
  destruct bs as [|y bs]; [done|]. destruct (Z.eqb_spec x y) as [->|Hxy]; [rewrite IH; split; congruence|split; congruence].
Qed.

Lemma starts_with_spec p bs : starts_with p bs = true <-> p `prefix_of` bs.
Proof.
  unfold starts_with. rewrite bool_decide_eq_true. split.
  - intros [r E]. exists r. by apply strip_prefix_Some.
  - intros [r E]. exists r. by apply strip_prefix_Some.
Qed.

Lemma ascii_lower_lower b : byte_in 65 90 (ascii_lower b) = false.
Proof.
  unfold ascii_lower, byte_in. destruct ((65 <=? b) && (b <=? 90)) eqn:E; [|done]. breflect.
  apply andb_false_iff. right. apply Z.leb_gt. lia.
Qed.

Lemma split_at_part sep part bs :
  sep ∉ bs -> split_at sep part bs = [part ++ bs].
Proof.
  revert part. induction bs as [|b bs IH]; intros part Hs; cbn [split_at]; [by rewrite app_nil_r|].
  apply not_elem_of_cons in Hs as [Hb Hs]. rewrite (proj2 (Z.eqb_neq _ _)) by congruence.
  rewrite IH by done. by rewrite <-app_assoc.
Qed.

Lemma split_at_sep sep part a r :
  sep ∉ a -> split_at sep part (a ++ sep :: r) = (part ++ a) :: split_at sep [] r.
Proof.
  revert part. induction a as [|b a IH]; intros part Hs; cbn [split_at app].
  - by rewrite Z.eqb_refl, app_nil_r.
  - apply not_elem_of_cons in Hs as [Hb Hs]. rewrite (proj2 (Z.eqb_neq _ _)) by congruence.
    rewrite IH by done. by rewrite <-app_assoc.
Qed.

(** ** ASCII text *)

Lemma chars_from_ascii fuel bs : Forall (fun b => b < 128) bs -> (length bs <= fuel)%nat -> chars_from fuel bs = (fun b => [b]) <$> bs.
Proof.
  intros Hb. revert bs Hb. induction fuel as [|fuel IH]; intros [|b bs] Hb Hl; cbn [length] in *; try done; [lia|].
  inversion_clear Hb. cbn [chars_from]. unfold char_width. rewrite (proj2 (Z.ltb_lt _ _)) by done. cbn [take drop fmap list_fmap].
  f_equal. apply IH; [done|lia].
Qed.

Lemma chars_ascii bs : Forall (fun b => b < 128) bs -> chars bs = (fun b => [b]) <$> bs.
Proof. intros. by apply chars_from_ascii. Qed.

Lemma skip_while_app {A} (f : A -> bool) p l :
  Forall (fun x => f x = true) p -> match l with [] => True | x :: _ => f x = false end -> skip_while f (p ++ l) = l.
Proof. induction 1 as [|x p Hx _ IH]; intros Hl; [destruct l; cbn; [done|by rewrite Hl]|]. cbn. rewrite Hx. by apply IH. Qed.

Lemma concat_singletons {A} (l : list A) : concat ((fun x => [x]) <$> l) = l.
Proof. induction l; [done|]. cbn. by f_equal. Qed.

(** [blank] bytes are trimmed, [solid] ones are not. *)
Definition blank (b : Z) : Prop := b < 128 /\ is_whitespace [b] = true.
Definition solid (b : Z) : Prop := b < 128 /\ is_whitespace [b] = false.

Lemma fmap_rev {A B} (f : A -> B) l : f <$> rev l = rev (f <$> l).
Proof. induction l as [|x l IH]; [done|]. cbn. rewrite fmap_app, IH. done. Qed.

Lemma skip_back_blank l w :
  match rev l with [] => True | b :: _ => solid b end -> Forall blank w ->
  skip_back is_whitespace ((fun b => [b]) <$> l ++ w) = (fun b => [b]) <$> l.
Proof.
  intros Hl Hw. unfold skip_back. rewrite <-fmap_rev, rev_app_distr, fmap_app, skip_while_app; [by rewrite <-fmap_rev, rev_involutive| |].
  - apply Forall_fmap, Forall_rev. eapply Forall_impl; [done|]. by intros b [_ Hb].
  - destruct (rev l); cbn; [done|]. apply Hl.
Qed.

Lemma blank_ascii w : Forall blank w -> Forall (fun b => b < 128) w.
Proof. intros Hw. eapply Forall_impl; [done|]. by intros b [Hb _]. Qed.

Lemma trim_end_ascii l w :
  Forall (fun b => b < 128) l -> match rev l with [] => True | b :: _ => solid b end -> Forall blank w -> trim_end (l ++ w) = l.
Proof.
  intros Ha Hl Hw. unfold trim_end. rewrite chars_ascii, skip_back_blank, concat_singletons; try done.
  rewrite Forall_app. split; [done|by apply blank_ascii].
Qed.

Lemma trim_ascii w l :
  Forall blank w -> Forall (fun b => b < 128) l -> match l with [] => True | b :: _ => solid b end ->
  match rev l with [] => True | b :: _ => solid b end -> trim (w ++ l) = l.
Proof.
  intros Hw Ha Hf Hl. unfold trim. rewrite chars_ascii by (rewrite Forall_app; split; [by apply blank_ascii|done]).
  rewrite fmap_app, skip_while_app.
  - pose proof (skip_back_blank l [] Hl ltac:(constructor)) as E. rewrite app_nil_r in E. by rewrite E, concat_singletons.
  - apply Forall_fmap. eapply Forall_impl; [done|]. by intros b [_ Hb].
  - destruct l; cbn; [done|]. apply Hf.
Qed.

Lemma is_whitespace_single b : is_whitespace [b] = byte_in 9 13 b || (b =? 32).
Proof. destruct b as [|p|p]; try reflexivity. do 8 (destruct p as [p|p|]; try reflexivity). Qed.

Lemma rev_first {A} (P : A -> Prop) l : Forall P l -> match rev l with [] => True | b :: _ => P b end.
Proof. intros Hl. apply Forall_rev in Hl. by destruct Hl. Qed.

Lemma utf8_lossy_ascii bs : Forall (fun b => b < 128) bs -> utf8_lossy bs = bs.
Proof. induction 1 as [|b bs Hb _ IH]; [done|]. cbn [utf8_lossy]. by rewrite (proj2 (Z.ltb_lt _ _)), IH. Qed.

Lemma Forall_check (f : Z -> bool) (P : Z -> Prop) l :
  (forall b, f b = true -> P b) -> forallb f l = true -> Forall P l.
Proof. intros Hf. rewrite forallb_true_Forall. intros Hl. eapply Forall_impl; [done|]. apply Hf. Qed.

Lemma ascii_check l : forallb (fun b => b <? 128) l = true -> Forall (fun b => b < 128) l.
Proof. apply Forall_check. intros b. apply Z.ltb_lt. Qed.

(** A text with a solid end. *)
Lemma solid_end p t : t <> [] -> Forall solid t -> match rev (p ++ t) with [] => True | b :: _ => solid b end.
Proof.
  intros Hn Hs. rewrite rev_app_distr. pose proof (rev_first _ _ Hs) as Hr. destruct (rev t) as [|b l] eqn:E; [|done].
  apply (f_equal (@rev Z)) in E. rewrite rev_involutive in E. done.
Qed.

(** ** Decimal text *)

Lemma parse_uint_digits max b r : b <> 43 -> parse_uint max (b :: r) = parse_digits max 0 (b :: r).
Proof.
  intros Hb. destruct b as [|p|p]; try reflexivity. do 6 (destruct p as [p|p|]; try reflexivity). done.
Qed.

Lemma digit_pretty n : (n < 10)%N ->
  digit 10 (ascii_byte (pretty_N_char n)) = Some (Z.of_N n) /\ 48 <= ascii_byte (pretty_N_char n) <= 57.
Proof.
  intros Hn. destruct n as [|p]; [by vm_compute|].
  do 4 (destruct p as [p|p|]; try (vm_compute; by repeat split)); lia.
Qed.

Lemma parse_digits_go max x s :
  (0 < x)%N -> Z.of_N x <= max ->
  parse_digits max 0 (string_bytes (pretty_N_go x s)) = parse_digits max (Z.of_N x) (string_bytes s).
Proof.
  revert s. induction (N.lt_wf_0 x) as [x _ IH]. intros s Hx Hm. rewrite pretty_N_go_step by done.
  destruct (digit_pretty (x `mod` 10)%N) as [Hd _]; [apply N.mod_lt; lia|].
  assert (Z.of_N x = 10 * Z.of_N (x / 10) + Z.of_N (x mod 10)) as Ex by (pose proof (N.div_mod x 10); lia).
  assert (parse_digits max (Z.of_N (x / 10)) (string_bytes (String (pretty_N_char (x mod 10)) s)) =
          parse_digits max (Z.of_N x) (string_bytes s)) as Es.
  { cbn [string_bytes parse_digits]. rewrite Hd. cbn [mbind option_bind]. rewrite <-Ex. by rewrite (proj2 (Z.ltb_ge _ _)). }
  destruct (decide (x / 10 = 0)%N) as [E0|Hn].
  - rewrite E0, pretty_N_go_0. rewrite E0 in Es. exact Es.
  - assert (x / 10 < x)%N as Hlt by (apply N.div_lt; lia).
    rewrite (IH _ Hlt); [exact Es|by apply N.neq_0_lt_0|]. lia.
Qed.

Lemma digits_go x s : Forall (byte_in 48 57) (string_bytes s) -> Forall (byte_in 48 57) (string_bytes (pretty_N_go x s)).
Proof.
  revert s. induction (N.lt_wf_0 x) as [x _ IH]. intros s Hs. destruct (decide (x = 0)%N) as [->|Hx]; [by rewrite pretty_N_go_0|].
  rewrite pretty_N_go_step by lia. apply IH; [apply N.div_lt; lia|]. cbn [string_bytes]. constructor; [|done].
  destruct (digit_pretty (x `mod` 10)%N) as [_ [? ?]]; [apply N.mod_lt; lia|]. unfold byte_in.
  by rewrite !(proj2 (Z.leb_le _ _)).
Qed.

Lemma fmt_go z : 0 < z -> fmt z = pretty_N_go (Z.to_N z) "".
Proof. destruct z as [|q|q]; try lia. done. Qed.

(** The decimal text of a number is digits. *)
Lemma fmt_digits z : 0 <= z -> Forall (byte_in 48 57) (string_bytes (fmt z)).
Proof.
  intros Hz. destruct (decide (z = 0)) as [->|Hn]; [by repeat constructor|].
  rewrite fmt_go by lia. apply digits_go. constructor.
Qed.

(** A printed number reads back. *)
Lemma parse_uint_fmt max z : 0 <= z <= max -> parse_uint max (string_bytes (fmt z)) = Some z.
Proof.
  intros [Hz Hm]. pose proof (fmt_digits z Hz) as Hd. destruct (decide (z = 0)) as [->|Hn].
  { change (string_bytes (fmt 0)) with [48]. rewrite parse_uint_digits by done. unfold parse_digits.
    change (digit 10 48) with (Some 0). cbn [mbind option_bind]. by rewrite (proj2 (Z.ltb_ge max (10 * 0 + 0))). }
  pose proof (parse_digits_go max (Z.to_N z) "" ltac:(lia) ltac:(lia)) as Hp. rewrite <-fmt_go in Hp by lia.
  cbn [string_bytes parse_digits] in Hp. rewrite Z2N.id in Hp by lia.
  destruct (string_bytes (fmt z)) as [|b r]; [cbn in Hp; congruence|].
  rewrite parse_uint_digits; [done|]. inversion_clear Hd as [|? ? Hb _]. intros ->. done.
Qed.
