(* ===== verification/Wire.v ===== *)
(** The wire layer of [net/tcp.rs]: the [PeerMessage] enum, length-prefixed frames and traffic
    padding. A TCP stream is the list of bytes still to be read; a write appends to it. JSON is
    serde's: [to_json] and [from_json] are operations of the class [Json]. *)

From S2P Require Import Prelude Crypto.

Inductive PeerMessage :=
| FriendRequest (from_uid greeting : string)
| FriendAccept (from_uid : string)
| ChannelMessage (channel from_uid text : string)
| DcRound (channel : string) (round_id : Z) (xored_payload : bytes)
| DcRoundStart (channel : string) (round_id : Z) (leader_id : string)
    (participants : list string) (deadline_secs payload_len : Z)
| DcRoundShare (channel : string) (round_id : Z) (peer_uid : string)
    (xored_payload signature : bytes)
| DcRoundResult (channel : string) (round_id : Z) (extracted_message leader_signature : bytes)
| RoundSyncRequest (from_uid channel : string)
| RoundSyncResponse (leader_uid channel : string) (round_id payload_len : Z)
    (share_commitments : list (string * string))
| LeaderChange (network new_leader reason : string) (round_id : Z)
| NetworkInvite (from_uid network_name pgp_fingerprint : string) (signature : bytes)
| NetworkJoinRequest (from_uid network_name pgp_fingerprint : string) (signature : bytes)
| NetworkJoinAccept (from_uid network_name : string) (member_list : list string)
    (signature : bytes)
| NetworkKick (from_uid network_name kicked_uid reason : string) (signature : bytes)
| NetworkSync (from_uid network_name : string) (members : list string) (topic : string)
    (round_id : Z) (signature : bytes)
| Ping (ts : Z)
| Pong (ts : Z)
| AuthChallenge (from_uid public_key_hex eph_pub_hex : string) (nonce signature : bytes)
| AuthResponse (from_uid public_key_hex eph_pub_hex : string) (signature : bytes)
| RelayRequest (from_uid to_uid origin_key_hex : string) (nonce timestamp hops_left : Z)
    (signature encrypted_payload : bytes)
| RelayResponse (from_uid to_uid origin_key_hex : string) (nonce timestamp hops_left : Z)
    (signature encrypted_payload : bytes).

#[export] Instance PeerMessage_eq_dec : EqDecision PeerMessage.
Proof. solve_decision. Defined.

(** serde's JSON for [PeerMessage]; a Rust [String] is valid UTF-8. *)
Class Json := {
  to_json : PeerMessage -> string;
  from_json : string -> option PeerMessage;
}.

Class JsonLaws `{Json} : Prop := {
  json_round_trip : forall m, from_json (to_json m) = Some m;
  json_utf8 : forall m, str_ok (to_json m);
}.

(** [std::io::ErrorKind] with its message. *)
Inductive io_error :=
| UnexpectedEof
| InvalidData (msg : string)
| PermissionDenied (msg : string)
| Other (msg : string).

(** [read_exact] of [n] bytes. *)
Definition read_exact (n : Z) (stream : bytes) : result (bytes * bytes) io_error :=
  if zlen stream <? n then Err UnexpectedEof
  else Ok (take (Z.to_nat n) stream, drop (Z.to_nat n) stream).

Definition send_frame (stream payload : bytes) : bytes :=
  stream ++ be_bytes 4 (wrap32 (zlen payload)) ++ payload.

Definition recv_frame (stream : bytes) : result (bytes * bytes) io_error :=
  match read_exact 4 stream with
  | Err e => Err e
  | Ok (len_buf, rest) =>
      let len := from_be len_buf in
      if len >? 65536 then Err (InvalidData "frame too large")
      else read_exact len rest
  end.

Section Frames.
Context `{Crypto}.

Definition send_encrypted_frame (stream payload key nonce : bytes) : result bytes io_error :=
  match encrypt_e2e nonce payload key with
  | Some encrypted => Ok (send_frame stream encrypted)
  | None => Err (Other "encrypt failed")
  end.

Definition recv_encrypted_frame (stream key : bytes) : result (bytes * bytes) io_error :=
  match recv_frame stream with
  | Err e => Err e
  | Ok (encrypted, rest) =>
      match decrypt_e2e encrypted key with
      | Some p => Ok (p, rest)
      | None => Err (Other "decrypt failed")
      end
  end.

End Frames.

Definition PADDED_SIZE : Z := 1024.

(** [random] stands for what [OsRng] fills after the payload. *)
Definition pad_frame (payload random : bytes) : result bytes io_error :=
  if zlen payload >? PADDED_SIZE then
    Err (InvalidData ("payload too large: " +:+ fmt (zlen payload) +:+ " > " +:+ fmt PADDED_SIZE))
  else Ok (take (Z.to_nat PADDED_SIZE) (payload ++ random)).

Definition unpad_frame (padded : bytes) (original_len : Z) : bytes :=
  take (Z.to_nat (Z.min original_len (zlen padded))) padded.

(** ** Lemmas *)

Lemma read_exact_app a b : read_exact (zlen a) (a ++ b) = Ok (a, b).
Proof.
  unfold read_exact. rewrite zlen_app, (proj2 (Z.ltb_ge _ _))
    by (pose proof (zlen_nonneg b); lia).
  unfold zlen. rewrite Nat2Z.id, take_app_length, drop_app_length. done.
Qed.

Lemma read_be4 z rest :
  0 <= z < 2 ^ 32 -> read_exact 4 (be_bytes 4 z ++ rest) = Ok (be_bytes 4 z, rest).
Proof.
  intros. rewrite <-(zlen_be_bytes 4 z) at 1. apply read_exact_app.
Qed.

Lemma from_be_u32 z : 0 <= z < 2 ^ 32 -> from_be (be_bytes 4 z) = z.
Proof. intros. rewrite from_be_bytes. by apply Z.mod_small. Qed.

Lemma from_be_u64 z : 0 <= z < 2 ^ 64 -> from_be (be_bytes 8 z) = z.
Proof. intros. rewrite from_be_bytes. by apply Z.mod_small. Qed.

(** What the receiver makes of one frame, for every payload that fits a u32 length. *)
Lemma recv_send_frame p rest :
  zlen p < 2 ^ 32 ->
  recv_frame (send_frame [] p ++ rest) =
    if zlen p >? 65536 then Err (InvalidData "frame too large") else Ok (p, rest).
Proof.
  intros Hp. pose proof (zlen_nonneg p).
  unfold recv_frame, send_frame. rewrite app_nil_l, <-app_assoc, wrap32_small by lia.
  rewrite read_be4, from_be_u32 by lia.
  destruct (zlen p >? 65536); [done|]. apply read_exact_app.
Qed.

(** ** A concrete serializer

    The field list of a message, written as a string of binary digits. *)

Module ToyJson.

Inductive field := FS (s : string) | FZ (z : Z) | FB (b : bytes) | FL (l : list string)
  | FP (l : list (string * string)).

Abbreviation fields := (nat * list field)%type.

Definition enc (m : PeerMessage) : fields :=
  match m with
  | FriendRequest a b => (0, [FS a; FS b])
  | FriendAccept a => (1, [FS a])
  | ChannelMessage a b c => (2, [FS a; FS b; FS c])
  | DcRound a b c => (3, [FS a; FZ b; FB c])
  | DcRoundStart a b c d e f => (4, [FS a; FZ b; FS c; FL d; FZ e; FZ f])
  | DcRoundShare a b c d e => (5, [FS a; FZ b; FS c; FB d; FB e])
  | DcRoundResult a b c d => (6, [FS a; FZ b; FB c; FB d])
  | RoundSyncRequest a b => (7, [FS a; FS b])
  | RoundSyncResponse a b c d e => (8, [FS a; FS b; FZ c; FZ d; FP e])
  | LeaderChange a b c d => (9, [FS a; FS b; FS c; FZ d])
  | NetworkInvite a b c d => (10, [FS a; FS b; FS c; FB d])
  | NetworkJoinRequest a b c d => (11, [FS a; FS b; FS c; FB d])
  | NetworkJoinAccept a b c d => (12, [FS a; FS b; FL c; FB d])
  | NetworkKick a b c d e => (13, [FS a; FS b; FS c; FS d; FB e])
  | NetworkSync a b c d e f => (14, [FS a; FS b; FL c; FS d; FZ e; FB f])
  | Ping a => (15, [FZ a])
  | Pong a => (16, [FZ a])
  | AuthChallenge a b c d e => (17, [FS a; FS b; FS c; FB d; FB e])
  | AuthResponse a b c d => (18, [FS a; FS b; FS c; FB d])
  | RelayRequest a b c d e f g h => (19, [FS a; FS b; FS c; FZ d; FZ e; FZ f; FB g; FB h])
  | RelayResponse a b c d e f g h => (20, [FS a; FS b; FS c; FZ d; FZ e; FZ f; FB g; FB h])
  end%nat.

Definition dec (f : fields) : option PeerMessage :=
  match f with
  | (0, [FS a; FS b]) => Some (FriendRequest a b)
  | (1, [FS a]) => Some (FriendAccept a)
  | (2, [FS a; FS b; FS c]) => Some (ChannelMessage a b c)
  | (3, [FS a; FZ b; FB c]) => Some (DcRound a b c)
  | (4, [FS a; FZ b; FS c; FL d; FZ e; FZ f]) => Some (DcRoundStart a b c d e f)
  | (5, [FS a; FZ b; FS c; FB d; FB e]) => Some (DcRoundShare a b c d e)
  | (6, [FS a; FZ b; FB c; FB d]) => Some (DcRoundResult a b c d)
  | (7, [FS a; FS b]) => Some (RoundSyncRequest a b)
  | (8, [FS a; FS b; FZ c; FZ d; FP e]) => Some (RoundSyncResponse a b c d e)
  | (9, [FS a; FS b; FS c; FZ d]) => Some (LeaderChange a b c d)
  | (10, [FS a; FS b; FS c; FB d]) => Some (NetworkInvite a b c d)
  | (11, [FS a; FS b; FS c; FB d]) => Some (NetworkJoinRequest a b c d)
  | (12, [FS a; FS b; FL c; FB d]) => Some (NetworkJoinAccept a b c d)
  | (13, [FS a; FS b; FS c; FS d; FB e]) => Some (NetworkKick a b c d e)
  | (14, [FS a; FS b; FL c; FS d; FZ e; FB f]) => Some (NetworkSync a b c d e f)
  | (15, [FZ a]) => Some (Ping a)
  | (16, [FZ a]) => Some (Pong a)
  | (17, [FS a; FS b; FS c; FB d; FB e]) => Some (AuthChallenge a b c d e)
  | (18, [FS a; FS b; FS c; FB d]) => Some (AuthResponse a b c d)
  | (19, [FS a; FS b; FS c; FZ d; FZ e; FZ f; FB g; FB h]) => Some (RelayRequest a b c d e f g h)
  | (20, [FS a; FS b; FS c; FZ d; FZ e; FZ f; FB g; FB h]) => Some (RelayResponse a b c d e f g h)
  | _ => None
  end%nat.

#[export] Instance field_eq_dec : EqDecision field.
Proof. solve_decision. Defined.

#[export] Instance field_countable : Countable field.
Proof.
  apply (inj_countable'
    (fun f => match f with
              | FS s => inl (inl s) | FZ z => inl (inr z) | FB b => inr (inl b)
              | FL l => inr (inr (inl l)) | FP l => inr (inr (inr l)) end)
    (fun f => match f with
              | inl (inl s) => FS s | inl (inr z) => FZ z | inr (inl b) => FB b
              | inr (inr (inl l)) => FL l | inr (inr (inr l)) => FP l end)).
  by intros [].
Defined.

Fixpoint digits (p : positive) : string :=
  match p with
  | xH => EmptyString
  | xO p => String (byte_ascii 48) (digits p)
  | xI p => String (byte_ascii 49) (digits p)
  end.

Fixpoint value (s : string) : positive :=
  match s with
  | EmptyString => xH
  | String c s => if ascii_byte c =? 48 then xO (value s) else xI (value s)
  end.

Definition toy_json : Json := {|
  to_json m := digits (encode (enc m));
  from_json s := decode (value s) ≫= dec;
|}.

Lemma value_digits p : value (digits p) = p.
Proof.
  induction p as [p IH|p IH|]; cbn [digits value]; [| |done];
    change (ascii_byte (byte_ascii _) =? 48) with true || change (ascii_byte (byte_ascii _) =? 48) with false;
    cbn; by rewrite IH.
Qed.

Lemma toy_json_laws : @JsonLaws toy_json.
Proof.
  split; intros m; cbn [to_json from_json toy_json].
  - rewrite value_digits, decode_encode. by destruct m.
  - unfold str_ok. induction (encode (enc m)); done.
Qed.

End ToyJson.

#[export] Existing Instance ToyJson.toy_json_laws.
