(* ===== verification/Float64.v ===== *)
(** [f64] as the IEEE 754 binary64 of the Standard Library's [SpecFloat]: the arithmetic is
    computed, with round-to-nearest-even, and no property of it is assumed. *)

From S2P Require Import Prelude.
From Stdlib Require Import SpecFloat.

Abbreviation f64 := spec_float.

Definition f64_add (a b : f64) : f64 := SFadd 53 1024 a b.
Definition f64_mul (a b : f64) : f64 := SFmul 53 1024 a b.
Definition f64_div (a b : f64) : f64 := SFdiv 53 1024 a b.
Definition f64_lt (a b : f64) : bool := SFltb a b.
Definition f64_le (a b : f64) : bool := SFleb a b.
Definition f64_gt (a b : f64) : bool := SFltb b a.
Definition f64_ge (a b : f64) : bool := SFleb b a.

(** [x as f64] of an unsigned integer. *)
Definition f64_of_Z (z : Z) : f64 := binary_normalize 53 1024 z 0 false.

(** A decimal literal [n/d] with [n], [d] below [2^53]: IEEE division rounds correctly. *)
Definition f64_lit (n d : Z) : f64 := f64_div (f64_of_Z n) (f64_of_Z d).

(** [f64::min]: a NaN operand is ignored. *)
Definition f64_min (a b : f64) : f64 :=
  match a, b with
  | S754_nan, _ => b
  | _, S754_nan => a
  | _, _ => if f64_lt a b then a else b
  end.

Definition f0_0 : f64 := S754_zero false.
Definition f0_05 : f64 := Eval vm_compute in f64_lit 5 100.
Definition f0_3 : f64 := Eval vm_compute in f64_lit 3 10.
Definition f0_4 : f64 := Eval vm_compute in f64_lit 4 10.
Definition f0_5 : f64 := Eval vm_compute in f64_lit 5 10.
Definition f0_7 : f64 := Eval vm_compute in f64_lit 7 10.
Definition f0_8 : f64 := Eval vm_compute in f64_lit 8 10.
Definition f1_0 : f64 := Eval vm_compute in f64_lit 1 1.

(** ** Lemmas *)

Lemma f64_min_le_one x : f64_le (f64_min x f1_0) f1_0 = true.
Proof.
  unfold f64_min. destruct (f64_lt x f1_0) eqn:E; [|by destruct x].
  assert (f64_le x f1_0 = true) as Hle.
  { unfold f64_lt, f64_le, SFltb, SFleb in *. by destruct (SFcompare x f1_0) as [[]|]. }
  by destruct x.
Qed.

(** Comparison of numbers is a total preorder. *)
Lemma f64_le_trans a b c : f64_le a b = true -> f64_le b c = true -> f64_le a c = true.
Proof.
  unfold f64_le, SFleb, SFcompare.
  destruct a as [?|[]| |[] ma ea], b as [?|[]| |[] mb eb], c as [?|[]| |[] mc ec]; try done;
    repeat match goal with |- context [?x ?= ?y] => destruct (Z.compare_spec x y) end; subst; try lia; try done;
    repeat match goal with |- context [Pos.compare_cont Eq ?x ?y] => change (Pos.compare_cont Eq x y) with (Pos.compare x y); destruct (Pos.compare_spec x y) end;
    cbn; subst; try done; lia.
Qed.

Lemma f64_gt_le a b : a <> S754_nan -> b <> S754_nan -> f64_gt b a = false <-> f64_le b a = true.
Proof.
  intros Ha Hb. unfold f64_gt, f64_le, SFltb, SFleb, SFcompare.
  destruct a as [?|[]| |[] ma ea], b as [?|[]| |[] mb eb]; try done;
    destruct (Z.compare_spec ea eb), (Z.compare_spec eb ea); subst; try lia; try done;
    change (Pos.compare_cont Eq mb ma) with (Pos.compare mb ma); change (Pos.compare_cont Eq ma mb) with (Pos.compare ma mb);
    destruct (Pos.compare_spec ma mb), (Pos.compare_spec mb ma); cbn; subst; try done; lia.
Qed.
