(* ===== verification/Dcnet.v ===== *)
(** The DC-net core of [dcnet/mod.rs]: participants, byte-wise XOR and the pairwise shares
    derived from the friend-edge keys, with the algebra the rounds rest on: XOR is a commutative
    group on vectors of one length, symmetric pads cancel when everybody broadcasts, and a
    transcript does not reveal who embedded the message. *)

From S2P Require Import Prelude Crypto Float64.

Record Participant := mkParticipant {
  peer_id : bytes;
  shares : list bytes;
  reputation : f64;
  consecutive_drops : Z;
  rounds_participated : Z;
}.

Module Participant.

Definition new (pid : bytes) : Participant :=
  {| peer_id := pid; shares := []; reputation := f1_0;
     consecutive_drops := 0; rounds_participated := 0 |}.

Definition penalize (p : Participant) : Participant :=
  {| peer_id := peer_id p; shares := shares p;
     reputation := f64_mul (reputation p) f0_7;
     consecutive_drops := consecutive_drops p +₃₂ 1;
     rounds_participated := rounds_participated p |}.

Definition reward (p : Participant) : Participant :=
  {| peer_id := peer_id p; shares := shares p;
     reputation := f64_min (f64_add (reputation p) f0_05) f1_0;
     consecutive_drops := 0;
     rounds_participated := rounds_participated p |}.

Definition is_malicious (p : Participant) : bool :=
  (3 <=? consecutive_drops p) || f64_lt (reputation p) f0_3.

Definition absorb_from (p other : Participant) : Participant :=
  {| peer_id := peer_id p; shares := shares p;
     reputation := reputation other;
     consecutive_drops := consecutive_drops other;
     rounds_participated := rounds_participated other |}.

End Participant.

(** [a.get(i).copied().unwrap_or(0)]: byte [i], zero past the end. *)
Definition at_ (a : bytes) (i : nat) : Z := nth i a 0.

Definition xor_bytes (a b : bytes) : bytes :=
  (fun i => Z.lxor (at_ a i) (at_ b i)) <$> seq 0 (Nat.max (length a) (length b)).

Section PairShare.
Context `{Crypto}.

(** The HKDF info string; peer ids are sorted so both ends agree. *)
Definition pair_info (round_id : Z) (peer_a peer_b : bytes) : bytes :=
  let '(lo, hi) := if bytes_ltb peer_a peer_b then (peer_a, peer_b) else (peer_b, peer_a) in
  string_bytes "chrono-dcnet-pair-v1" ++ be_bytes 8 round_id ++ lo ++ hi.

(** [while out.len() < len]; [block] is a [u8], and [block += 1] wraps. *)
Fixpoint share_blocks (fuel : nat) (edge_key info : bytes) (len : Z) (out : bytes) (block : Z) : bytes :=
  match fuel with
  | O => out
  | S fuel' =>
      if zlen out <? len then
        let okm := hkdf32 None edge_key (info ++ [block]) in
        share_blocks fuel' edge_key info len (out ++ okm) (wrap8 (block + 1))
      else out
  end.

Definition derive_pair_share (edge_key : bytes) (round_id : Z) (peer_a peer_b : bytes) (len : Z) : bytes :=
  let info := pair_info round_id peer_a peer_b in
  take (Z.to_nat len) (share_blocks (Z.to_nat len) edge_key info len [] 0).

End PairShare.

(** ** The algebra of XOR *)

Lemma at_past a i : (length a <= i)%nat -> at_ a i = 0.
Proof. apply nth_overflow. Qed.

Lemma xor_bytes_length a b : length (xor_bytes a b) = Nat.max (length a) (length b).
Proof. unfold xor_bytes. by rewrite length_fmap, length_seq. Qed.

Lemma xor_bytes_at a b i : at_ (xor_bytes a b) i = Z.lxor (at_ a i) (at_ b i).
Proof.
  destruct (decide (i < Nat.max (length a) (length b))%nat).
  - unfold at_ at 1. apply nth_lookup_Some. unfold xor_bytes.
    rewrite list_lookup_fmap, lookup_seq_lt by done. done.
  - rewrite !at_past by (rewrite ?xor_bytes_length; lia). done.
Qed.

Lemma bytes_ext (a b : bytes) :
  length a = length b -> (forall i, at_ a i = at_ b i) -> a = b.
Proof. intros Hl H. apply (nth_ext _ _ 0 0); [done|]. intros i _. apply H. Qed.

Ltac xor_ext :=
  apply bytes_ext; [rewrite ?xor_bytes_length; lia|intros ?; rewrite ?xor_bytes_at].

Lemma xor_bytes_comm a b : xor_bytes a b = xor_bytes b a.
Proof. xor_ext. apply Z.lxor_comm. Qed.

Lemma xor_bytes_assoc a b c : xor_bytes (xor_bytes a b) c = xor_bytes a (xor_bytes b c).
Proof. xor_ext. apply Z.lxor_assoc. Qed.

Lemma zeros_at n i : at_ (zeros n) i = 0.
Proof.
  unfold at_, zeros. rewrite nth_lookup.
  destruct (_ !! i) eqn:E; [|done]. by apply lookup_replicate in E as [-> _].
Qed.

Lemma length_zeros n : length (zeros n) = Z.to_nat n.
Proof. apply length_replicate. Qed.

Lemma xor_bytes_self a n : length a = Z.to_nat n -> xor_bytes a a = zeros n.
Proof.
  intros. apply bytes_ext; [rewrite xor_bytes_length, length_zeros; lia|].
  intros i. by rewrite xor_bytes_at, zeros_at, Z.lxor_nilpotent.
Qed.

Lemma xor_zeros_l a n : length a = Z.to_nat n -> xor_bytes (zeros n) a = a.
Proof.
  intros. apply bytes_ext; [rewrite xor_bytes_length, length_zeros; lia|].
  intros i. by rewrite xor_bytes_at, zeros_at, Z.lxor_0_l.
Qed.

Lemma byte_lxor x y : is_byte x -> is_byte y -> is_byte (Z.lxor x y).
Proof.
  unfold is_byte. intros Hx Hy. assert (0 <= Z.lxor x y) by (apply Z.lxor_nonneg; lia).
  split; [done|]. destruct (decide (Z.lxor x y = 0)) as [->|]; [lia|].
  change 256 with (2 ^ 8). apply Z.log2_lt_pow2; [lia|].
  pose proof (Z.log2_lxor x y).
  assert (forall z, 0 <= z < 256 -> Z.log2 z < 8).
  { intros z Hz. destruct (decide (z = 0)) as [->|]; [done|]. apply Z.log2_lt_pow2; lia. }
  pose proof (H1 x Hx). pose proof (H1 y Hy). lia.
Qed.

Lemma at_byte a i : bytes_ok a -> is_byte (at_ a i).
Proof.
  intros Ha. unfold at_. rewrite nth_lookup.
  destruct (a !! i) eqn:E; simpl; [by eapply Forall_lookup in E|unfold is_byte; lia].
Qed.

Lemma xor_bytes_ok a b : bytes_ok a -> bytes_ok b -> bytes_ok (xor_bytes a b).
Proof.
  intros Ha Hb. apply Forall_fmap, Forall_true. intros i.
  apply byte_lxor; by apply at_byte.
Qed.

Lemma zeros_ok n : bytes_ok (zeros n).
Proof. apply Forall_replicate. unfold is_byte. lia. Qed.

#[export] Hint Rewrite xor_bytes_length xor_bytes_at zeros_at length_zeros : chrono.
#[export] Hint Resolve xor_bytes_ok zeros_ok : chrono.

(** XOR of a list of scalars. *)
Definition xsum (l : list Z) : Z := foldr Z.lxor 0 l.

Lemma xsum_cons x l : xsum (x :: l) = Z.lxor x (xsum l).
Proof. done. Qed.

Lemma xsum_app l k : xsum (l ++ k) = Z.lxor (xsum l) (xsum k).
Proof. unfold xsum. induction l as [|x l IH]; simpl; [done|]. by rewrite IH, Z.lxor_assoc. Qed.

#[export] Instance xsum_proper : Proper ((≡ₚ) ==> (=)) xsum.
Proof.
  unfold xsum. induction 1 as [| |x y l|]; simpl; try congruence.
  by rewrite <-!Z.lxor_assoc, (Z.lxor_comm x y).
Qed.

Lemma xsum_lxor {A} (f g : A -> Z) l :
  xsum ((fun x => Z.lxor (f x) (g x)) <$> l) = Z.lxor (xsum (f <$> l)) (xsum (g <$> l)).
Proof.
  induction l as [|x l IH]; [done|]. rewrite !fmap_cons, !xsum_cons, IH, !Z.lxor_assoc. f_equal.
  rewrite <-!Z.lxor_assoc. f_equal. apply Z.lxor_comm.
Qed.

Lemma xsum_const0 {A} (l : list A) : xsum ((fun _ => 0) <$> l) = 0.
Proof. induction l; [done|]. by rewrite fmap_cons, xsum_cons, IHl. Qed.

Lemma xsum_indicator `{EqDecision A} (f : A -> bool) (c : Z) l x :
  NoDup l -> x ∈ l -> (forall y, y ∈ l -> f y = bool_decide (y = x)) ->
  xsum ((fun y => if f y then c else 0) <$> l) = c.
Proof.
  intros Hnd Hx Hf. apply elem_of_Permutation in Hx as [k Hk].
  assert (Hfx : f x = true) by (rewrite Hf by (rewrite Hk; by left); by apply bool_decide_eq_true_2).
  rewrite Hk in *. apply NoDup_cons in Hnd as [Hnot _].
  rewrite fmap_cons, xsum_cons, Hfx.
  replace (xsum _) with 0; [by rewrite Z.lxor_0_r|].
  rewrite (list_fmap_ext _ (fun _ => 0)); [by rewrite xsum_const0|].
  intros i y Hy%list_elem_of_lookup_2. rewrite Hf by (rewrite Hk; by right).
  by rewrite bool_decide_eq_false_2 by (intros ->; done).
Qed.

Lemma foldl_xor_at z ls i :
  at_ (foldl xor_bytes z ls) i = Z.lxor (at_ z i) (xsum ((fun l => at_ l i) <$> ls)).
Proof.
  revert z. induction ls as [|l ls IH]; intros z; cbn [foldl fmap list_fmap xsum foldr].
  - by rewrite Z.lxor_0_r.
  - by rewrite IH, xor_bytes_at, Z.lxor_assoc.
Qed.

Lemma foldl_xor_length n z ls :
  length z = n -> Forall (fun l => length l = n) ls -> length (foldl xor_bytes z ls) = n.
Proof.
  intros Hz HF. revert z Hz. induction HF; intros z Hz; simpl; [done|].
  apply IHHF. rewrite xor_bytes_length. lia.
Qed.

(** Everybody but [u]. *)
Definition others `{EqDecision A} (u : A) (us : list A) : list A := filter (fun v => v <> u) us.

Lemma others_cons_eq `{EqDecision A} (u : A) us : others u (u :: us) = others u us.
Proof. unfold others. rewrite filter_cons_False; [done|tauto]. Qed.

Lemma others_cons_ne `{EqDecision A} (u v : A) us :
  v <> u -> others u (v :: us) = v :: others u us.
Proof. unfold others. by intros; rewrite filter_cons_True. Qed.

Lemma others_fresh `{EqDecision A} (u : A) us : u ∉ us -> others u us = us.
Proof.
  unfold others. induction us as [|v us IH]; intros Hu; [done|].
  rewrite not_elem_of_cons in Hu. destruct Hu.
  rewrite filter_cons_True by done. f_equal. auto.
Qed.

(** Symmetric pads cancel: each pair's pad occurs once at each of its two ends. *)
Lemma pads_cancel `{EqDecision A} (f : A -> A -> Z) us :
  NoDup us -> (forall u v, u ∈ us -> v ∈ us -> f u v = f v u) ->
  xsum ((fun u => xsum (f u <$> others u us)) <$> us) = 0.
Proof.
  induction 1 as [|a us Ha Hnd IH]; intros Hsym; [done|].
  rewrite fmap_cons, xsum_cons.
  rewrite others_cons_eq, others_fresh by done.
  rewrite (list_fmap_ext (fun u => xsum (f u <$> others u (a :: us)))
    (fun u => Z.lxor (f a u) (xsum (f u <$> others u us)))).
  - rewrite (xsum_lxor (f a)), IH; [rewrite Z.lxor_0_r; apply Z.lxor_nilpotent|].
    intros. apply Hsym; by right.
  - intros i u Hi. apply list_elem_of_lookup_2 in Hi.
    rewrite others_cons_ne by (intros ->; done).
    rewrite fmap_cons, xsum_cons.
    by rewrite (Hsym u a) by (by left || by right).
Qed.

(** ** Pair shares *)

Section PairShareLemmas.
Context `{Crypto, !HkdfLaws}.

Lemma pair_info_sym r a b : pair_info r a b = pair_info r b a.
Proof. unfold pair_info. by rewrite bytes_sort_sym. Qed.

Lemma derive_pair_share_sym k r a b len :
  derive_pair_share k r a b len = derive_pair_share k r b a len.
Proof. unfold derive_pair_share. by rewrite pair_info_sym. Qed.

(** The key stream: block [j] of the loop, whose counter byte is [j mod 256]. *)
Definition stream_block (k info : bytes) (j : nat) : bytes :=
  hkdf32 None k (info ++ [wrap8 (Z.of_nat j)]).

Definition stream_blocks (k info : bytes) (from n : nat) : bytes :=
  concat (stream_block k info <$> seq from n).

Lemma length_stream_blocks k info from n : length (stream_blocks k info from n) = (32 * n)%nat.
Proof.
  unfold stream_blocks. revert from. induction n as [|n IH]; intros from; simpl; [done|].
  unfold stream_block at 1. rewrite length_app, hkdf32_length, IH. lia.
Qed.

Lemma stream_blocks_snoc k info n :
  stream_blocks k info 0 (S n) = stream_blocks k info 0 n ++ stream_block k info n.
Proof.
  unfold stream_blocks. rewrite seq_S, fmap_app, concat_app. simpl. by rewrite app_nil_r.
Qed.

Lemma stream_blocks_split k info a b :
  stream_blocks k info 0 (a + b) = stream_blocks k info 0 a ++ stream_blocks k info a b.
Proof. unfold stream_blocks. by rewrite seq_app, fmap_app, concat_app. Qed.

Lemma wrap8_succ j : wrap8 (wrap8 (Z.of_nat j) + 1) = wrap8 (Z.of_nat (S j)).
Proof. unfold wrap8. rewrite Z.add_mod_idemp_l by done. f_equal. lia. Qed.

(** The loop started after [n] blocks stops with a prefix of the stream of at least [len] bytes. *)
Lemma share_blocks_stream k info len fuel n :
  len <= Z.of_nat (32 * n + 32 * fuel) ->
  exists m, share_blocks fuel k info len (stream_blocks k info 0 n) (wrap8 (Z.of_nat n)) =
    stream_blocks k info 0 m /\ len <= Z.of_nat (32 * m).
Proof.
  revert n. induction fuel as [|fuel IH]; intros n Hlen; cbn [share_blocks].
  - exists n. split; [done|lia].
  - unfold zlen at 1. rewrite length_stream_blocks.
    destruct (_ <? len) eqn:E; breflect; [|exists n; split; [done|lia]].
    change (hkdf32 None k (info ++ [wrap8 (Z.of_nat n)])) with (stream_block k info n).
    rewrite <-stream_blocks_snoc, wrap8_succ. apply IH. lia.
Qed.

(** The share is the first [len] bytes of any long enough prefix of the stream. *)
Lemma derive_pair_share_stream k r a b len m :
  0 <= len <= Z.of_nat (32 * m) ->
  derive_pair_share k r a b len =
    take (Z.to_nat len) (stream_blocks k (pair_info r a b) 0 m).
Proof.
  intros Hm. unfold derive_pair_share.
  destruct (share_blocks_stream k (pair_info r a b) len (Z.to_nat len) 0) as (n & E & Hn); [lia|].
  change (wrap8 (Z.of_nat 0)) with 0 in E. change (stream_blocks _ _ 0 0) with (@nil Z) in E.
  rewrite E. destruct (decide (n <= m)%nat).
  - replace m with (n + (m - n))%nat by lia.
    rewrite stream_blocks_split, take_app_le; [done|rewrite length_stream_blocks; lia].
  - replace n with (m + (n - m))%nat by lia.
    rewrite stream_blocks_split, take_app_le; [done|rewrite length_stream_blocks; lia].
Qed.

Lemma derive_pair_share_length k r a b len :
  0 <= len -> length (derive_pair_share k r a b len) = Z.to_nat len.
Proof.
  intros. rewrite (derive_pair_share_stream _ _ _ _ _ (Z.to_nat len)) by lia.
  rewrite length_take, length_stream_blocks. lia.
Qed.

Lemma stream_blocks_ok k info from n : bytes_ok (stream_blocks k info from n).
Proof.
  unfold stream_blocks, bytes_ok. apply Forall_concat, Forall_fmap, Forall_true.
  intros j. apply hkdf32_bytes_ok.
Qed.

Lemma derive_pair_share_ok k r a b len :
  0 <= len -> bytes_ok (derive_pair_share k r a b len).
Proof.
  intros. rewrite (derive_pair_share_stream _ _ _ _ _ (Z.to_nat len)) by lia.
  apply Forall_take, stream_blocks_ok.
Qed.

Lemma stream_block_period k info j : stream_block k info (256 + j) = stream_block k info j.
Proof.
  unfold stream_block, wrap8. rewrite Nat2Z.inj_add, Z.add_comm.
  change (2 ^ 8) with 256. by rewrite <-Zplus_mod_idemp_r, Z.add_0_r.
Qed.

Lemma stream_blocks_period k info from n :
  stream_blocks k info (256 + from) n = stream_blocks k info from n.
Proof.
  revert from. induction n as [|n IH]; intros from; [done|].
  unfold stream_blocks in *. rewrite <-!cons_seq, !fmap_cons, !concat_cons, stream_block_period.
  f_equal. apply (IH (S from)).
Qed.

(** The block counter is one byte, so the pad repeats every 256 blocks. *)
Lemma derive_pair_share_repeats k r a b len i :
  8192 <= len -> 0 <= i < len - 8192 ->
  at_ (derive_pair_share k r a b len) (Z.to_nat (i + 8192)) =
  at_ (derive_pair_share k r a b len) (Z.to_nat i).
Proof.
  intros Hl Hi. set (m := Z.to_nat len).
  rewrite (derive_pair_share_stream _ _ _ _ _ (256 + m)) by lia. unfold at_.
  rewrite !nth_lookup, !lookup_take_lt by lia. f_equal.
  transitivity (stream_blocks k (pair_info r a b) 0 m !! Z.to_nat i).
  - rewrite stream_blocks_split, lookup_app_r by (rewrite length_stream_blocks; lia).
    rewrite length_stream_blocks, (stream_blocks_period _ _ 0). f_equal. lia.
  - rewrite (Nat.add_comm 256), stream_blocks_split.
    by rewrite lookup_app_l by (rewrite length_stream_blocks; lia).
Qed.

End PairShareLemmas.
