(* ===== verification/RoundNetwork.v ===== *)
(** [dcnet/round_network.rs]: the share collector of one round, the construction of a
    participant's share from its edge keys, the checksummed message frame, share signatures and
    the monotonic round tracker.

    An [Instant] is a number of nanoseconds and [now] an argument of what reads the clock. A
    [HashSet] is a [gset], a [HashMap] a [gmap]; iteration goes through [elements] and
    [map_to_list], and no theorem depends on that order. *)

From S2P Require Import Prelude Crypto Identity Wire Float64 Dcnet.

Definition DEFAULT_PAYLOAD_LEN : Z := 1024.
Definition MAX_ROUND_DEADLINE_SECS : Z := 30.

Definition SHARE_SIG_DOMAIN : bytes := string_bytes "chrono-dcnet-share-v1".

(** [Duration::from_secs] in nanoseconds. *)
Definition from_secs (n : Z) : Z := n * 10 ^ 9.

(** [dst[off..off + src.len()].copy_from_slice(src)] within bounds. *)
Definition slice_write (dst : bytes) (off : nat) (src : bytes) : bytes :=
  take off dst ++ src ++ drop (off + length src) dst.

(** ** Collecting the shares of one round *)

Module RoundCollector.

Record t := mk {
  channel : string;
  round_id : Z;
  participants : gset string;
  shares_received : gmap string bytes;
  deadline : Z;
  payload_len : Z;
  my_message : option bytes;
  my_share_submitted : bool;
}.

Definition new (now : Z) (channel0 : string) (round_id0 : Z) (participants0 : list string)
    (deadline_secs payload_len0 : Z) : t :=
  {| channel := channel0; round_id := round_id0;
     participants := list_to_set participants0;
     shares_received := ∅;
     deadline := now + from_secs (Z.min deadline_secs MAX_ROUND_DEADLINE_SECS);
     payload_len := clampZ payload_len0 4 65536;
     my_message := None; my_share_submitted := false |}.

Definition is_expired (now : Z) (c : t) : bool := deadline c <=? now.

Definition is_complete (c : t) : bool :=
  (size (participants c) <=? size (shares_received c))%nat.

Definition set_shares (c : t) (m : gmap string bytes) : t :=
  {| channel := channel c; round_id := round_id c; participants := participants c;
     shares_received := m; deadline := deadline c; payload_len := payload_len c;
     my_message := my_message c; my_share_submitted := my_share_submitted c |}.

(** [&mut self]: the new collector, equal to the old one on an error. *)
Definition submit_share (c : t) (peer_uid : string) (xored : bytes) : t * result unit string :=
  if negb (bool_decide (peer_uid ∈ participants c)) then
    (c, Err (peer_uid +:+ " is not a participant of this round"))
  else if bool_decide (is_Some (shares_received c !! peer_uid)) then
    (c, Err ("duplicate share from " +:+ peer_uid))
  else if negb (zlen xored =? payload_len c) then
    (c, Err ("Share length mismatch: got " +:+ fmt (zlen xored) +:+ ", expected "
             +:+ fmt (payload_len c)))
  else (set_shares c (<[peer_uid := xored]> (shares_received c)), Ok tt).

Definition missing_participants (c : t) : list string :=
  filter (fun p => shares_received c !! p = None) (elements (participants c)).

(** One turn of the loop of [extract_message]. *)
Definition xor_into (result share : bytes) : bytes :=
  slice_write result 0 (xor_bytes result share).

Definition extract_message (c : t) : option bytes :=
  if bool_decide (shares_received c = ∅) then None
  else Some (foldl xor_into (zeros (payload_len c)) (map_to_list (shares_received c)).*2).

(** The slice write of [extract_message] is out of bounds when a share is longer than the payload. *)
Definition extract_panics (c : t) : bool :=
  existsb (fun share => payload_len c <? zlen share) (map_to_list (shares_received c)).*2.

End RoundCollector.

Abbreviation RoundCollector := RoundCollector.t.

(** ** The message frame *)

Section Shares.
Context `{Crypto}.

Definition peer_id_of (uid : string) : bytes := sha256_digest (string_bytes uid).

Definition pad_message (msg : bytes) (payload_len : Z) : option bytes :=
  let frame_len := 36 + zlen msg in
  if payload_len <? frame_len then None
  else
    let padded := zeros payload_len in
    let padded := slice_write padded 0 (be_bytes 4 (wrap32 (zlen msg))) in
    let padded := slice_write padded 4 (sha256_digest msg) in
    let padded := slice_write padded 36 msg in
    Some padded.

Definition unpad_message (padded : bytes) : option bytes :=
  if zlen padded <? 36 then None
  else
    let len := from_be (take 4 padded) in
    if len >? zlen padded - 36 then None
    else
      let msg := take (Z.to_nat len) (drop 36 padded) in
      if negb (bool_decide (sha256_digest msg = take 32 (drop 4 padded))) then None
      else Some msg.

(** ** Shares *)

(** The loop over the participants; [pad] is the pairwise share with one of them, [None] when
    no edge key is held. *)
Fixpoint mask_loop (pad : string -> option bytes) (my_uid : string) (participants : list string)
    (output : bytes) : option bytes :=
  match participants with
  | [] => Some output
  | other :: rest =>
      if bool_decide (other = my_uid) then mask_loop pad my_uid rest output
      else match pad other with
           | None => None
           | Some share => mask_loop pad my_uid rest (xor_bytes output share)
           end
  end.

Definition masked_share (pad : string -> option bytes) (my_uid : string)
    (participants : list string) (message : option bytes) (payload_len : Z) : option bytes :=
  match mask_loop pad my_uid participants (zeros payload_len) with
  | None => None
  | Some output =>
      match message with
      | None => Some output
      | Some msg =>
          match pad_message msg payload_len with
          | None => None
          | Some padded => Some (xor_bytes output padded)
          end
      end
  end.

Definition edge_pad (round_id : Z) (my_uid : string) (payload_len : Z)
    (edge_keys : gmap string bytes) (other : string) : option bytes :=
  match edge_keys !! other with
  | None => None
  | Some key =>
      Some (derive_pair_share key round_id (peer_id_of my_uid) (peer_id_of other) payload_len)
  end.

Definition compute_xor_share_secure (round_id : Z) (my_uid : string) (participants : list string)
    (message : option bytes) (payload_len : Z) (edge_keys : gmap string bytes) : option bytes :=
  if (zlen participants <? 2) || negb (bool_decide (my_uid ∈ participants)) then None
  else masked_share (edge_pad round_id my_uid payload_len edge_keys)
         my_uid participants message payload_len.

(** [while result.len() < output_len { result.extend_from_slice(&hash) }]. *)
Fixpoint repeat_hash (fuel : nat) (hash : bytes) (output_len : Z) (result : bytes) : bytes :=
  match fuel with
  | O => result
  | S fuel' =>
      if zlen result <? output_len then repeat_hash fuel' hash output_len (result ++ hash)
      else result
  end.

Definition pairwise_share_simulation (round_id : Z) (peer_a peer_b : string) (output_len : Z) : bytes :=
  let '(p1, p2) :=
    if bytes_ltb (string_bytes peer_a) (string_bytes peer_b)
    then (string_bytes peer_a, string_bytes peer_b)
    else (string_bytes peer_b, string_bytes peer_a) in
  let hash := sha256_digest
    (string_bytes "chrono-dcnet-pairwise-sim-v1"
     ++ be_bytes 4 (wrap32 (zlen p1)) ++ p1
     ++ be_bytes 4 (wrap32 (zlen p2)) ++ p2
     ++ be_bytes 8 round_id) in
  take (Z.to_nat output_len) (repeat_hash (Z.to_nat output_len) hash output_len []).

Definition compute_xor_share_simulation (round_id : Z) (my_uid : string)
    (participants : list string) (message : option bytes) (payload_len : Z) : option bytes :=
  masked_share (fun other => Some (pairwise_share_simulation round_id my_uid other payload_len))
    my_uid participants message payload_len.

(** ** Share signatures *)

Definition share_signature_message (channel : string) (round_id : Z) (share : bytes) : bytes :=
  SHARE_SIG_DOMAIN ++ be_bytes 4 (wrap32 (slen channel)) ++ string_bytes channel
  ++ be_bytes 8 round_id ++ share.

Definition sign_share (signing_key : bytes) (channel : string) (round_id : Z) (share : bytes) : bytes :=
  ed_sign signing_key (share_signature_message channel round_id share).

Definition verify_share_signature (vk : bytes) (channel : string) (round_id : Z)
    (share signature : bytes) : bool :=
  match ed_sig_from_slice signature with
  | Some sig => ed_verify vk (share_signature_message channel round_id share) sig
  | None => false
  end.

Definition build_round_start (channel : string) (round_id : Z) (leader_id : string)
    (participants : list string) (deadline_secs payload_len : Z) : PeerMessage :=
  DcRoundStart channel round_id leader_id participants deadline_secs payload_len.

Definition build_round_share (channel : string) (round_id : Z) (peer_uid : string)
    (xored_payload signature : bytes) : PeerMessage :=
  DcRoundShare channel round_id peer_uid xored_payload signature.

End Shares.

(** ** The round tracker *)

Module RoundTracker.

Record t := mk {
  current_round_id : Z;
  active_round : option RoundCollector;
  message_queue : list string;
  last_leader_seen : Z;
}.

Definition new (now : Z) : t :=
  {| current_round_id := 0; active_round := None; message_queue := []; last_leader_seen := now |}.

Definition set_round (rt : t) (r : Z) : t :=
  {| current_round_id := r; active_round := active_round rt;
     message_queue := message_queue rt; last_leader_seen := last_leader_seen rt |}.

Definition set_queue (rt : t) (q : list string) : t :=
  {| current_round_id := current_round_id rt; active_round := active_round rt;
     message_queue := q; last_leader_seen := last_leader_seen rt |}.

Definition next_round (rt : t) : t * Z :=
  let r := current_round_id rt +₆₄ 1 in (set_round rt r, r).

Definition mark_seen (rt : t) (round_id : Z) : t * bool :=
  if round_id =? (current_round_id rt +₆₄ 1) then (set_round rt round_id, true)
  else (rt, false).

Definition is_stale (rt : t) (round_id : Z) : bool := round_id <=? current_round_id rt.

Definition verify_round_id (rt : t) (round_id : Z) : bool :=
  (round_id =? current_round_id rt) || (round_id =? (current_round_id rt +₆₄ 1)).

Definition queue_message (rt : t) (text : string) : t :=
  set_queue rt (message_queue rt ++ [text]).

Definition dequeue_message (rt : t) : t * option string :=
  match message_queue rt with
  | [] => (rt, None)
  | text :: rest => (set_queue rt rest, Some text)
  end.

Section Sync.
Context `{Crypto}.

Definition build_sync_response (rt : t) (leader_uid channel : string) (collector : RoundCollector) : PeerMessage :=
  let commitments :=
    (fun p => (p.1, hex_encode (sha256_digest p.2))) <$>
      map_to_list (RoundCollector.shares_received collector) in
  RoundSyncResponse leader_uid channel (current_round_id rt)
    (RoundCollector.payload_len collector) commitments.

Definition verify_share_commitment (uid : string) (share : bytes) (commitment : string) : bool :=
  bool_decide (hex_encode (sha256_digest share) = commitment).

End Sync.

End RoundTracker.

Abbreviation RoundTracker := RoundTracker.t.

(** ** The frame *)

Lemma slice_write_length dst off src :
  (off + length src <= length dst)%nat -> length (slice_write dst off src) = length dst.
Proof. intros. unfold slice_write. rewrite !length_app, length_take, length_drop. lia. Qed.

Lemma slice_write_at_end (a b src : bytes) :
  (length src <= length b)%nat ->
  slice_write (a ++ b) (length a) src = a ++ src ++ drop (length src) b.
Proof.
  intros. unfold slice_write. rewrite take_app_length, drop_app_add. done.
Qed.

Lemma drop_zeros n m : drop n (zeros m) = zeros (m - Z.of_nat n).
Proof. unfold zeros. rewrite drop_replicate. f_equal. lia. Qed.

Section FrameLemmas.
Context `{Crypto, !ShaLaws}.

(** The frame as a concatenation: length, checksum, message, zero fill. *)
Definition frame (msg : bytes) (payload_len : Z) : bytes :=
  be_bytes 4 (wrap32 (zlen msg)) ++ sha256_digest msg ++ msg ++ zeros (payload_len - 36 - zlen msg).

Lemma pad_message_frame msg n :
  pad_message msg n = if n <? 36 + zlen msg then None else Some (frame msg n).
Proof.
  unfold pad_message. destruct (n <? 36 + zlen msg) eqn:E; breflect; [done|]. f_equal.
  pose proof (zlen_nonneg msg).
  pose proof (sha256_length msg) as Hs.
  set (l := be_bytes 4 (wrap32 (zlen msg))).
  assert (Hl : length l = 4%nat) by apply length_be_bytes.
  change (zeros n) with ([] ++ zeros n). change 0%nat with (length (@nil Z)) at 1.
  rewrite slice_write_at_end by (rewrite length_zeros; lia).
  rewrite app_nil_l, drop_zeros. replace 4%nat with (length l) at 1 by lia.
  rewrite slice_write_at_end by (rewrite length_zeros; lia). rewrite drop_zeros, app_assoc.
  replace 36%nat with (length (l ++ sha256_digest msg)) by (rewrite length_app; lia).
  unfold zlen in *. rewrite slice_write_at_end by (rewrite length_zeros; lia).
  rewrite drop_zeros, <-app_assoc. unfold frame. fold l. do 4 f_equal. unfold zlen. lia.
Qed.

Lemma frame_length msg n : 36 + zlen msg <= n -> length (frame msg n) = Z.to_nat n.
Proof.
  intros. unfold frame.
  rewrite !length_app, length_be_bytes, sha256_length, length_zeros. unfold zlen in *. lia.
Qed.

Lemma frame_ok msg n : bytes_ok msg -> bytes_ok (frame msg n).
Proof.
  intros. unfold frame. unfold bytes_ok. rewrite !Forall_app.
  repeat split; [apply be_bytes_ok|apply sha256_bytes_ok|done|apply zeros_ok].
Qed.

(** [unpad_message] on anything laid out as a frame. *)
Lemma unpad_layout len_bs sum rest :
  length len_bs = 4%nat -> length sum = 32%nat ->
  unpad_message (len_bs ++ sum ++ rest) =
    let len := from_be len_bs in
    if len >? zlen rest then None
    else let msg := take (Z.to_nat len) rest in
         if bool_decide (sha256_digest msg = sum) then Some msg else None.
Proof.
  intros H4 H32. unfold unpad_message.
  assert (Hz : zlen (len_bs ++ sum ++ rest) = 36 + zlen rest)
    by (rewrite !zlen_app; unfold zlen; lia).
  rewrite Hz, (proj2 (Z.ltb_ge _ _)) by (pose proof (zlen_nonneg rest); lia).
  rewrite take_app_length' by lia.
  replace (36 + zlen rest - 36) with (zlen rest) by lia.
  rewrite (app_assoc len_bs), (drop_app_length' (len_bs ++ sum)) by (rewrite length_app; lia).
  rewrite <-app_assoc, drop_app_length' by lia. rewrite take_app_length' by lia.
  cbv zeta. case_bool_decide; done.
Qed.

Lemma unpad_frame_msg msg n : zlen msg < 2 ^ 32 -> unpad_message (frame msg n) = Some msg.
Proof.
  intros Hm. unfold frame. pose proof (zlen_nonneg msg).
  rewrite unpad_layout by (apply length_be_bytes || apply sha256_length). cbv zeta.
  rewrite wrap32_small, from_be_u32 by lia.
  rewrite zlen_app, Z.gtb_ltb, (proj2 (Z.ltb_ge _ _))
    by (pose proof (zlen_nonneg (zeros (n - 36 - zlen msg))); lia).
  rewrite take_app_length' by (unfold zlen; lia). by rewrite bool_decide_eq_true_2.
Qed.

(** An all-zero payload announces the empty message, whose checksum is not zero. *)
Lemma unpad_zeros n : unpad_message (zeros n) = None.
Proof.
  destruct (decide (36 <= n)) as [Hn|Hn].
  - replace (zeros n) with (zeros 4 ++ zeros 32 ++ zeros (n - 36)).
    + rewrite unpad_layout by done. change (from_be (zeros 4)) with 0. cbv zeta.
      case_match; [done|]. change (take (Z.to_nat 0) _) with (@nil Z).
      rewrite sha256_empty. by rewrite bool_decide_eq_false_2.
    + unfold zeros. rewrite <-!replicate_add. f_equal. lia.
  - unfold unpad_message. rewrite (proj2 (Z.ltb_lt _ _)); [done|].
    unfold zlen. rewrite length_zeros. lia.
Qed.

Lemma split36 (p : bytes) :
  36 <= zlen p -> exists a b c, p = a ++ b ++ c /\ length a = 4%nat /\ length b = 32%nat.
Proof.
  intros Hp. unfold zlen in Hp. exists (take 4 p), (take 32 (drop 4 p)), (drop 32 (drop 4 p)).
  rewrite !take_drop. rewrite !length_take, length_drop. repeat split; lia.
Qed.

Lemma unpad_message_inv p m :
  bytes_ok p -> unpad_message p = Some m ->
  exists rest, p = be_bytes 4 (zlen m) ++ sha256_digest m ++ m ++ rest /\ zlen m < 2 ^ 32.
Proof.
  intros Hok E. assert (36 <= zlen p).
  { unfold unpad_message in E. destruct (zlen p <? 36) eqn:?; breflect; [done|lia]. }
  destruct (split36 p) as (a & b & c & -> & Ha & Hb); [done|].
  rewrite unpad_layout in E by done. cbv zeta in E.
  destruct (from_be a >? zlen c) eqn:Eg; [done|]. rewrite Z.gtb_ltb in Eg. breflect.
  case_bool_decide as Hsum; simplify_eq.
  apply Forall_app in Hok as [Haok _].
  assert (0 <= from_be a < 2 ^ 32) by (apply (from_be_range a Haok); unfold zlen; lia).
  assert (zlen (take (Z.to_nat (from_be a)) c) = from_be a) as ->.
  { unfold zlen in *. rewrite length_take. lia. }
  exists (drop (Z.to_nat (from_be a)) c). rewrite take_drop. split; [|lia].
  f_equal. symmetry. rewrite <-Ha. by apply be_bytes_from_be.
Qed.

End FrameLemmas.

(** ** Shares *)

Section ShareLemmas.
Context `{Crypto}.

Lemma mask_loop_spec pad me ps out :
  mask_loop pad me ps out = foldl xor_bytes out <$> mapM pad (others me ps).
Proof.
  revert out. induction ps as [|v ps IH]; intros out; cbn [mask_loop]; [done|].
  case_bool_decide as Hv.
  - subst. by rewrite others_cons_eq.
  - rewrite others_cons_ne by done. cbn [mapM]. destruct (pad v) as [s|]; [|done].
    rewrite IH. cbn. by destruct (mapM pad (others me ps)).
Qed.

Lemma mapM_Some_fmap {A B} (f : A -> option B) (g : A -> B) l :
  (forall x, x ∈ l -> f x = Some (g x)) -> mapM f l = Some (g <$> l).
Proof.
  intros Hf. apply mapM_Some, Forall2_fmap_r, Forall_Forall2_diag, Forall_forall. done.
Qed.

Lemma elem_of_others (v u : string) ps : v ∈ others u ps <-> v <> u /\ v ∈ ps.
Proof. unfold others. by rewrite list_elem_of_filter. Qed.

(** [P v] is the pad shared with [v]: what the loop and the optional message add up to. *)
Lemma masked_share_Some pad (P : string -> bytes) me ps msg n :
  (forall v, v ∈ ps -> v <> me -> pad v = Some (P v)) ->
  masked_share pad me ps msg n =
    (let masked := foldl xor_bytes (zeros n) (P <$> others me ps) in
     match msg with
     | None => Some masked
     | Some m => xor_bytes masked <$> pad_message m n
     end).
Proof.
  intros HP. unfold masked_share. rewrite mask_loop_spec, (mapM_Some_fmap _ P).
  - cbn [fmap option_fmap option_map]. destruct msg as [m|]; [|done]. by destruct (pad_message m n).
  - intros v [??]%elem_of_others. auto.
Qed.

Lemma masked_share_None pad me ps msg n v :
  v ∈ ps -> v <> me -> pad v = None -> masked_share pad me ps msg n = None.
Proof.
  intros Hv Hne Hp. unfold masked_share. rewrite mask_loop_spec.
  destruct (mapM pad (others me ps)) as [k|] eqn:E; [|done].
  apply mapM_Some_1 in E. assert (Hin : v ∈ others me ps) by (by apply elem_of_others).
  apply list_elem_of_lookup_1 in Hin as [i Hi].
  eapply Forall2_lookup_l in E as (y & _ & Hy); [|done]. congruence.
Qed.

End ShareLemmas.

(** One round as a whole: pads [P], messages [msg], the share of every participant. *)
Section Round.
Context `{Crypto, !ShaLaws}.
Variables (ps : list string) (n : Z) (P : string -> string -> bytes) (msg : string -> option bytes).
Hypotheses
  (Hps : NoDup ps) (Hn : 0 <= n)
  (Plen : forall u v, length (P u v) = Z.to_nat n)
  (Psym : forall u v, u ∈ ps -> v ∈ ps -> P u v = P v u)
  (Hfit : forall u m, u ∈ ps -> msg u = Some m -> 36 + zlen m <= n).

(** The embedded frame, the zero vector for a neutral share. *)
Definition embedded (u : string) : bytes :=
  match msg u with Some m => frame m n | None => zeros n end.

Definition round_share (u : string) : bytes :=
  xor_bytes (foldl xor_bytes (zeros n) (P u <$> others u ps)) (embedded u).

Lemma embedded_length u : u ∈ ps -> length (embedded u) = Z.to_nat n.
Proof.
  intros Hu. unfold embedded. destruct (msg u) eqn:E; [|apply length_zeros].
  apply frame_length. eauto.
Qed.

Lemma pads_foldl_length u : length (foldl xor_bytes (zeros n) (P u <$> others u ps)) = Z.to_nat n.
Proof.
  apply foldl_xor_length; [apply length_zeros|]. apply Forall_fmap, Forall_true. intros v. apply Plen.
Qed.

Lemma round_share_length u : u ∈ ps -> length (round_share u) = Z.to_nat n.
Proof.
  intros. unfold round_share. rewrite xor_bytes_length, pads_foldl_length, embedded_length by done. lia.
Qed.

Lemma masked_share_round pad u :
  u ∈ ps -> (forall v, v ∈ ps -> v <> u -> pad v = Some (P u v)) ->
  masked_share pad u ps (msg u) n = Some (round_share u).
Proof.
  intros Hu Hpad. rewrite (masked_share_Some _ (P u)) by done. cbv zeta.
  unfold round_share, embedded. destruct (msg u) as [m|] eqn:E.
  - rewrite pad_message_frame, (proj2 (Z.ltb_ge _ _)) by eauto. done.
  - f_equal. rewrite xor_bytes_comm, xor_zeros_l; [done|apply pads_foldl_length].
Qed.

(** The XOR of everybody's shares is the XOR of the embedded frames. *)
Lemma round_xor : foldl xor_bytes (zeros n) (round_share <$> ps) = foldl xor_bytes (zeros n) (embedded <$> ps).
Proof.
  apply bytes_ext.
  - rewrite !(foldl_xor_length (Z.to_nat n)); try apply length_zeros; try done;
      apply Forall_fmap, Forall_forall; intros u Hu;
      [by apply embedded_length|by apply round_share_length].
  - intros i. rewrite !foldl_xor_at, zeros_at, !Z.lxor_0_l. rewrite <-!list_fmap_compose.
    rewrite (list_fmap_ext _ (fun u => Z.lxor (xsum ((fun v => at_ (P u v) i) <$> others u ps))
                                              (at_ (embedded u) i))).
    + rewrite xsum_lxor, pads_cancel; [by rewrite Z.lxor_0_l|done|].
      intros u v Hu Hv. by rewrite Psym.
    + intros j u _. unfold compose, round_share.
      rewrite xor_bytes_at, foldl_xor_at, zeros_at, Z.lxor_0_l. do 2 f_equal.
      by rewrite <-list_fmap_compose.
Qed.

End Round.

(** Only one participant embeds a message. *)
Lemma single_embedded `{Crypto, !ShaLaws} ps n sender m :
  NoDup ps -> sender ∈ ps -> 36 + zlen m <= n ->
  foldl xor_bytes (zeros n)
    (embedded n (fun u => if bool_decide (u = sender) then Some m else None) <$> ps) = frame m n.
Proof.
  intros Hnd Hs Hm. set (e := embedded n _).
  assert (Hlen : forall u, length (e u) = Z.to_nat n).
  { intros u. unfold e, embedded. case_bool_decide; [by apply frame_length|apply length_zeros]. }
  assert (He : e sender = frame m n) by (unfold e, embedded; by rewrite bool_decide_eq_true_2).
  rewrite <-He. apply bytes_ext.
  - rewrite (foldl_xor_length (Z.to_nat n)); [by rewrite Hlen|apply length_zeros|].
    apply Forall_fmap, Forall_true, Hlen.
  - intros i. rewrite foldl_xor_at, zeros_at, Z.lxor_0_l, <-list_fmap_compose.
    rewrite (list_fmap_ext _ (fun u => if bool_decide (u = sender) then at_ (e sender) i else 0)).
    + by apply (xsum_indicator _ _ _ sender).
    + intros j u _. unfold compose. case_bool_decide as Hu; [by rewrite Hu|].
      unfold e, embedded. rewrite bool_decide_eq_false_2 by done. apply zeros_at.
Qed.

Lemma no_embedded `{Crypto} (ps : list string) n :
  foldl xor_bytes (zeros n) (embedded n (fun _ => None) <$> ps) = zeros n.
Proof.
  unfold embedded. induction ps as [|p ps IH]; [done|].
  cbn [fmap list_fmap foldl]. rewrite xor_zeros_l by apply length_zeros. apply IH.
Qed.

(** ** The collector *)

Module CollectorFacts.
Import RoundCollector.

(** What [new] establishes and [submit_share] keeps. *)
Record wf (c : t) : Prop := {
  wf_len : 4 <= payload_len c <= 65536;
  wf_dom : dom (shares_received c) ⊆ participants c;
  wf_shares : map_Forall (fun _ s => zlen s = payload_len c) (shares_received c);
}.

Lemma new_wf now ch r ps d n : wf (new now ch r ps d n).
Proof.
  split; simpl; [unfold clampZ; lia|set_solver|apply map_Forall_empty].
Qed.

Lemma submit_share_cases c u s :
  (exists c' , submit_share c u s = (c', Ok tt) /\ c' = set_shares c (<[u := s]> (shares_received c)) /\
     u ∈ participants c /\ shares_received c !! u = None /\ zlen s = payload_len c) \/
  (exists e, submit_share c u s = (c, Err e) /\
     (u ∉ participants c \/ is_Some (shares_received c !! u) \/ zlen s <> payload_len c)).
Proof.
  unfold submit_share. case_bool_decide; simpl; [|right; eauto].
  case_bool_decide as Hs; simpl; [right; eauto|].
  destruct (zlen s =? payload_len c) eqn:E; breflect; simpl; [|right; eauto].
  left. eexists. split_and!; [done|done|done| |done]. by apply eq_None_not_Some.
Qed.

Lemma submit_share_wf c u s : wf c -> wf (submit_share c u s).1.
Proof.
  intros Hwf. destruct (submit_share_cases c u s) as [(c' & -> & -> & Hu & Hnone & Hl)|(e & -> & _)];
    [|done].
  destruct Hwf. split; simpl; [done|set_solver|].
  by apply map_Forall_insert.
Qed.

Lemma size_dom_complete c : wf c -> is_complete c = true <-> dom (shares_received c) = participants c.
Proof.
  intros [_ Hdom _]. unfold is_complete. rewrite Nat.leb_le, <-size_dom. split.
  - intros Hle. apply leibniz_equiv. split; [set_solver|]. apply set_subseteq_size_eq in Hdom; [set_solver|].
    done.
  - intros ->. done.
Qed.

Lemma missing_spec c u :
  u ∈ missing_participants c <-> u ∈ participants c /\ shares_received c !! u = None.
Proof. unfold missing_participants. rewrite list_elem_of_filter, elem_of_elements. tauto. Qed.

Lemma complete_no_missing c : wf c -> is_complete c = true <-> missing_participants c = [].
Proof.
  intros Hwf. rewrite size_dom_complete by done. split.
  - intros Hd. apply elem_of_nil_inv. intros u [Hu Hn]%missing_spec.
    apply not_elem_of_dom in Hn. set_solver.
  - intros Hm. apply set_eq. intros x. split; [by apply wf_dom|]. intros Hx.
    apply dec_stable. intros Hn%not_elem_of_dom.
    assert (Hin : x ∈ missing_participants c) by (by apply missing_spec).
    rewrite Hm in Hin. by apply not_elem_of_nil in Hin.
Qed.

Lemma xor_into_eq r s : (length s <= length r)%nat -> xor_into r s = xor_bytes r s.
Proof.
  intros. unfold xor_into, slice_write. rewrite take_0, drop_ge; [by rewrite app_nil_r|].
  rewrite xor_bytes_length. lia.
Qed.

Lemma foldl_xor_into n r ls :
  length r = n -> Forall (fun l => length l = n) ls -> foldl xor_into r ls = foldl xor_bytes r ls.
Proof.
  intros Hr HF. revert r Hr. induction HF; intros r Hr; simpl; [done|].
  rewrite xor_into_eq by lia. apply IHHF. rewrite xor_bytes_length. lia.
Qed.

Lemma wf_share_lengths c :
  wf c -> Forall (fun l => length l = Z.to_nat (payload_len c)) (map_to_list (shares_received c)).*2.
Proof.
  intros Hwf. apply Forall_fmap, Forall_forall. intros [u s] Hin%elem_of_map_to_list.
  apply (wf_shares _ Hwf) in Hin. unfold zlen in Hin. simpl in *. lia.
Qed.

(** A well-formed collector never writes out of bounds. *)
Lemma extract_no_panic c : wf c -> extract_panics c = false.
Proof.
  intros Hwf. apply not_true_iff_false. unfold extract_panics. rewrite existsb_exists.
  intros (s & Hin%list_elem_of_In & Hlt). breflect.
  apply (proj1 (Forall_forall _ _) (wf_share_lengths c Hwf)) in Hin. simpl in Hin.
  pose proof (wf_len _ Hwf). unfold zlen in *. lia.
Qed.

Lemma foldl_xor_perm z ls ks : ls ≡ₚ ks -> foldl xor_bytes z ls = foldl xor_bytes z ks.
Proof.
  intros Hp. revert z. induction Hp; intros z; simpl; try congruence.
  rewrite !xor_bytes_assoc. by rewrite (xor_bytes_comm y x).
Qed.

Lemma extract_message_xor c :
  wf c -> shares_received c <> ∅ ->
  extract_message c =
    Some (foldl xor_bytes (zeros (payload_len c)) (map_to_list (shares_received c)).*2).
Proof.
  intros Hwf Hne. unfold extract_message. rewrite bool_decide_eq_false_2 by done. f_equal.
  apply (foldl_xor_into (Z.to_nat (payload_len c))); [apply length_zeros|by apply wf_share_lengths].
Qed.

(** A map that holds [f u] for every participant, as a list of values. *)
Lemma shares_perm (m : gmap string bytes) (f : string -> bytes) (ps : list string) :
  NoDup ps -> dom m = list_to_set ps -> (forall u s, m !! u = Some s -> s = f u) ->
  (map_to_list m).*2 ≡ₚ f <$> ps.
Proof.
  intros Hnd Hdom Hf.
  assert (Hk : (map_to_list m).*1 ≡ₚ ps).
  { apply NoDup_Permutation; [apply NoDup_fst_map_to_list|done|]. intros u.
    assert (Hu : u ∈ dom m <-> u ∈ ps) by (rewrite Hdom; apply elem_of_list_to_set).
    rewrite <-Hu, elem_of_dom, list_elem_of_fmap. split.
    - intros ([k s] & -> & Hin%elem_of_map_to_list). by exists s.
    - intros [s Hs]. exists (u, s). split; [done|]. by apply elem_of_map_to_list. }
  rewrite <-Hk, <-list_fmap_compose. erewrite list_fmap_ext; [reflexivity|].
  intros i [u s] Hi%list_elem_of_lookup_2%elem_of_map_to_list. simpl. by apply Hf.
Qed.

(** Feeding a list of shares. *)
Definition submit_all (c : t) (l : list (string * bytes)) : t :=
  foldl (fun c p => (submit_share c p.1 p.2).1) c l.

Lemma submit_all_wf c l : wf c -> wf (submit_all c l).
Proof.
  revert c. induction l as [|[u s] l IH]; intros c Hwf; simpl; [done|].
  apply IH. by apply submit_share_wf.
Qed.

Lemma submit_all_fields c l :
  participants (submit_all c l) = participants c /\ payload_len (submit_all c l) = payload_len c.
Proof.
  revert c. induction l as [|[u s] l IH]; intros c; simpl; [done|].
  destruct (IH (submit_share c u s).1) as [-> ->].
  destruct (submit_share_cases c u s) as [(? & -> & -> & _)|(? & -> & _)]; done.
Qed.

Lemma submit_all_shares c l :
  NoDup l.*1 -> (forall u s, (u, s) ∈ l -> u ∈ participants c /\ zlen s = payload_len c) ->
  (forall u, u ∈ l.*1 -> shares_received c !! u = None) ->
  shares_received (submit_all c l) = list_to_map l ∪ shares_received c.
Proof.
  revert c. induction l as [|[u s] l IH]; intros c Hnd Hin Hfresh; simpl; [by rewrite (left_id_L ∅ _)|].
  simpl in Hnd. apply NoDup_cons in Hnd as [Hu Hnd].
  destruct (Hin u s) as [Hup Hlen]; [by left|].
  destruct (submit_share_cases c u s) as [(c' & -> & -> & _ & Hnone & _)|(e & _ & [H1|[H1|H1]])].
  - simpl. rewrite IH; simpl; [|done|intros; apply Hin; by right|].
    + rewrite <-insert_union_r, insert_union_l; [done|].
      apply not_elem_of_list_to_map_1. done.
    + intros v Hv. rewrite lookup_insert_ne by (intros ->; done). apply Hfresh. by right.
  - done.
  - rewrite Hfresh in H1 by (by left). by destruct H1.
  - done.
Qed.

(** The first share of the right length submitted under [u]. *)
Definition first_valid (n : Z) (u : string) (l : list (string * bytes)) : option bytes :=
  head (filter (fun p => p.1 = u /\ zlen p.2 = n) l).*2.

Lemma first_valid_spec n u l :
  is_Some (first_valid n u l) <-> exists s, (u, s) ∈ l /\ zlen s = n.
Proof.
  unfold first_valid. induction l as [|[v s] l IH]; simpl.
  { split; [intros [? ?]; done|intros (s & Hs & _); by apply not_elem_of_nil in Hs]. }
  destruct (decide (v = u /\ zlen s = n)) as [[-> Hl]|Hno].
  - rewrite filter_cons_True by done. simpl. split; [|eauto]. intros _. exists s. split; [by left|done].
  - rewrite filter_cons_False by done. rewrite IH. split; intros (s' & Hs & Hl); exists s'; split; try done.
    + by right.
    + apply elem_of_cons in Hs as [[= -> ->]|]; [tauto|done].
Qed.

Lemma submit_all_first c l u :
  shares_received (submit_all c l) !! u =
    match shares_received c !! u with
    | Some s => Some s
    | None => if bool_decide (u ∈ participants c) then first_valid (payload_len c) u l else None
    end.
Proof.
  revert c. induction l as [|[v s] l IH]; intros c; simpl.
  { unfold first_valid. simpl. destruct (shares_received c !! u); [done|by case_bool_decide]. }
  rewrite IH. unfold first_valid.
  destruct (submit_share_cases c v s) as [(c' & -> & -> & Hv & Hnone & Hl)|(e & -> & Hr)]; simpl.
  - destruct (decide (u = v)) as [->|Hne].
    + rewrite lookup_insert_eq, Hnone, bool_decide_eq_true_2 by done.
      by rewrite filter_cons_True by done.
    + rewrite lookup_insert_ne, filter_cons_False by naive_solver. done.
  - destruct (shares_received c !! u) eqn:Es; [done|]. case_bool_decide as Hu; [|done].
    rewrite filter_cons_False; [done|]. simpl. intros [-> Hl]. destruct Hr as [?|[[? ?]|?]]; congruence.
Qed.

End CollectorFacts.

(** ** The tracker *)

Module TrackerFacts.
Import RoundTracker.

Inductive op := NextRound | MarkSeen (round_id : Z) | Queue (text : string) | Dequeue.

(** One call: the new tracker, the round id issued or accepted, the message handed out. *)
Definition step (rt : t) (o : op) : t * list Z * list string :=
  match o with
  | NextRound => let '(rt', r) := next_round rt in (rt', [r], [])
  | MarkSeen r => let '(rt', b) := mark_seen rt r in (rt', if b then [r] else [], [])
  | Queue s => (queue_message rt s, [], [])
  | Dequeue => let '(rt', o) := dequeue_message rt in (rt', [], option_list o)
  end.

Fixpoint run (rt : t) (ops : list op) : t * list Z * list string :=
  match ops with
  | [] => (rt, [], [])
  | o :: ops' =>
      let '(rt1, ids1, ts1) := step rt o in
      let '(rt2, ids2, ts2) := run rt1 ops' in
      (rt2, ids1 ++ ids2, ts1 ++ ts2)
  end.

Definition queued (ops : list op) : list string :=
  omap (fun o => match o with Queue s => Some s | _ => None end) ops.

(** [n] consecutive integers from [z]. *)
Definition zseq (z : Z) (n : nat) : list Z := (fun i => z + Z.of_nat i) <$> seq 0 n.

Lemma zseq_S z n : zseq z (S n) = z :: zseq (z + 1) n.
Proof.
  unfold zseq. rewrite <-cons_seq, fmap_cons, <-fmap_S_seq, <-list_fmap_compose.
  f_equal; [lia|]. apply list_fmap_ext. intros i x _. simpl. lia.
Qed.

(** One call either keeps the counter or advances it by one to the id it reports. *)
Lemma step_spec rt o rt' ids ts :
  0 <= current_round_id rt -> current_round_id rt + 1 < 2 ^ 64 ->
  step rt o = (rt', ids, ts) ->
  ((ids = [] /\ current_round_id rt' = current_round_id rt) \/
   (ids = [current_round_id rt + 1] /\ current_round_id rt' = current_round_id rt + 1)) /\
  ts ++ message_queue rt' = message_queue rt ++ queued [o].
Proof.
  intros H0 H1. destruct o as [|r|s|]; simpl.
  - intros [= <- <- <-]. simpl. rewrite wrap64_small, app_nil_r by lia. auto.
  - unfold mark_seen. rewrite wrap64_small by lia.
    destruct (_ =? _) eqn:E; intros [= <- <- <-]; simpl; rewrite app_nil_r; breflect; subst; auto.
  - intros [= <- <- <-]. simpl. auto.
  - unfold dequeue_message. destruct (message_queue rt) as [|x q] eqn:E; intros [= <- <- <-]; simpl;
      rewrite ?E, ?app_nil_r; auto.
Qed.

Lemma queued_cons o ops : queued (o :: ops) = queued [o] ++ queued ops.
Proof. by destruct o. Qed.

Lemma run_spec ops rt :
  0 <= current_round_id rt -> current_round_id rt + zlen ops < 2 ^ 64 ->
  let '(rt', ids, texts) := run rt ops in
  ids = zseq (current_round_id rt + 1) (length ids) /\
  current_round_id rt' = current_round_id rt + zlen ids /\
  texts ++ message_queue rt' = message_queue rt ++ queued ops.
Proof.
  revert rt. induction ops as [|o ops IH]; intros rt H0 Hb; cbn [run].
  { split_and!; [done|unfold zlen; simpl; lia|by rewrite app_nil_r]. }
  rewrite zlen_cons in Hb. pose proof (zlen_nonneg ops).
  destruct (step rt o) as [[rt1 ids1] ts1] eqn:Es.
  apply step_spec in Es as [Hids Hq]; [|lia..].
  specialize (IH rt1). destruct (run rt1 ops) as [[rt2 ids2] ts2].
  destruct IH as (IHi & IHr & IHq); [destruct Hids as [[-> ->]|[-> ->]]; lia..|].
  rewrite <-app_assoc, IHq, app_assoc, Hq, (queued_cons o ops), app_assoc.
  destruct Hids as [[-> Hr]|[-> Hr]]; rewrite Hr in *; split_and!; try done.
  - cbn [app length]. by rewrite zseq_S, <-IHi.
  - rewrite IHr, zlen_app, zlen_cons. unfold zlen at 2. simpl. lia.
Qed.

End TrackerFacts.

(** ** Edge-key shares *)

Section EdgeShares.
Context `{Crypto, !ShaLaws, !HkdfLaws}.

(** The two ends of every friend edge hold the same key. *)
Definition edge_keys_agree (ps : list string) (keys : string -> gmap string bytes) : Prop :=
  forall u v, u ∈ ps -> v ∈ ps -> u <> v ->
    is_Some (keys u !! v) /\ keys u !! v = keys v !! u.

(** The pad of one pair as a total function. *)
Definition pair_pad (keys : string -> gmap string bytes) (r n : Z) (u v : string) : bytes :=
  derive_pair_share (default [] (keys u !! v)) r (peer_id_of u) (peer_id_of v) n.

Lemma edge_pad_Some keys r n u v :
  is_Some (keys u !! v) -> edge_pad r u n (keys u) v = Some (pair_pad keys r n u v).
Proof. intros [k Hk]. unfold edge_pad, pair_pad. by rewrite Hk. Qed.

Lemma pair_pad_sym keys ps r n u v :
  edge_keys_agree ps keys -> u ∈ ps -> v ∈ ps -> pair_pad keys r n u v = pair_pad keys r n v u.
Proof.
  intros Hk Hu Hv. destruct (decide (u = v)) as [->|Hne]; [done|].
  unfold pair_pad. destruct (Hk u v Hu Hv Hne) as [_ ->]. apply derive_pair_share_sym.
Qed.

Lemma compute_share_round keys ps r n msg u :
  edge_keys_agree ps keys -> 2 <= zlen ps -> 0 <= n -> u ∈ ps ->
  (forall u m, u ∈ ps -> msg u = Some m -> 36 + zlen m <= n) ->
  compute_xor_share_secure r u ps (msg u) n (keys u) =
    Some (round_share ps n (pair_pad keys r n) msg u).
Proof.
  intros Hk H2 Hn Hu Hfit. unfold compute_xor_share_secure.
  rewrite (proj2 (Z.ltb_ge _ _)), bool_decide_eq_true_2 by (done || lia). cbn [orb negb].
  apply masked_share_round; try done.
  - intros. by apply derive_pair_share_length.
  - intros v Hv Hne. apply edge_pad_Some. apply Hk; congruence.
Qed.

(** A whole round over [msg], the shares arriving in any order. *)
Lemma round_extract keys ps r n msg now ch d order :
  NoDup ps -> edge_keys_agree ps keys -> 2 <= zlen ps -> 4 <= n <= 65536 ->
  (forall u m, u ∈ ps -> msg u = Some m -> 36 + zlen m <= n) ->
  order ≡ₚ ps ->
  let share := round_share ps n (pair_pad keys r n) msg in
  let c := CollectorFacts.submit_all (RoundCollector.new now ch r ps d n)
             ((fun u => (u, share u)) <$> order) in
  RoundCollector.is_complete c = true /\ RoundCollector.extract_panics c = false /\
  RoundCollector.extract_message c = Some (foldl xor_bytes (zeros n) (embedded n msg <$> ps)).
Proof.
  intros Hnd Hk H2 Hn Hfit Hord share c. set (c0 := RoundCollector.new now ch r ps d n) in *.
  assert (Hlen : forall u, u ∈ ps -> length (share u) = Z.to_nat n).
  { intros u Hu. apply round_share_length; try done. intros. apply derive_pair_share_length. lia. }
  assert (Hwf : CollectorFacts.wf c) by (apply CollectorFacts.submit_all_wf, CollectorFacts.new_wf).
  assert (Hf : ((fun u => (u, share u)) <$> order).*1 = order).
  { rewrite <-list_fmap_compose. apply list_fmap_id. }
  assert (Hp : RoundCollector.payload_len c0 = n) by (simpl; unfold clampZ; lia).
  destruct (CollectorFacts.submit_all_fields c0 ((fun u => (u, share u)) <$> order)) as [Hpart Hpl].
  fold c in Hpart, Hpl.
  assert (Hsh : RoundCollector.shares_received c = list_to_map ((fun u => (u, share u)) <$> order)).
  { unfold c. rewrite CollectorFacts.submit_all_shares; [apply (right_id_L ∅ _)| | |done].
    - by rewrite Hf, Hord.
    - intros u s (v & [= -> ->] & Hv)%list_elem_of_fmap. rewrite Hord in Hv. split.
      + simpl. by apply elem_of_list_to_set.
      + rewrite Hp. unfold zlen. rewrite Hlen by done. lia. }
  assert (Hdom : dom (RoundCollector.shares_received c) = list_to_set ps).
  { rewrite Hsh, dom_list_to_map_L, Hf. by apply list_to_set_perm_L. }
  assert (Hget : forall u s, RoundCollector.shares_received c !! u = Some s -> s = share u).
  { intros u s Hs. rewrite Hsh in Hs. apply elem_of_list_to_map_2 in Hs.
    apply list_elem_of_fmap in Hs as (v & [= -> ->] & _). done. }
  split_and!.
  - apply CollectorFacts.size_dom_complete; [done|]. rewrite Hdom, Hpart. done.
  - by apply CollectorFacts.extract_no_panic.
  - rewrite CollectorFacts.extract_message_xor; [|done|].
    + f_equal. rewrite Hpl, Hp.
      rewrite (CollectorFacts.foldl_xor_perm _ _ _ (CollectorFacts.shares_perm _ share ps Hnd Hdom Hget)).
      apply round_xor; try done; [intros; apply derive_pair_share_length; lia|].
      intros. by eapply pair_pad_sym.
    + intros He. rewrite He, dom_empty_L in Hdom. destruct ps as [|p ps]; [done|set_solver].
Qed.

Lemma edge_pads_length r u n keys l k :
  0 <= n -> mapM (edge_pad r u n keys) l = Some k -> Forall (fun s => length s = Z.to_nat n) k.
Proof.
  intros Hn Ek%mapM_Some_1. apply Forall_forall. intros s Hs.
  apply list_elem_of_lookup_1 in Hs as [i Hi].
  eapply Forall2_lookup_r in Ek as (v & _ & Hv); [|done]. unfold edge_pad in Hv.
  case_match; simplify_eq. by apply derive_pair_share_length.
Qed.

(** A share fills the payload. *)
Lemma compute_share_length r u ps msg n keys s :
  0 <= n -> compute_xor_share_secure r u ps msg n keys = Some s -> zlen s = n.
Proof.
  intros Hn. unfold compute_xor_share_secure, masked_share. destruct (_ || _); [done|].
  rewrite mask_loop_spec. destruct (mapM _ (others u ps)) as [k|] eqn:Ek; [|done].
  cbn [fmap option_fmap option_map].
  assert (Hl : length (foldl xor_bytes (zeros n) k) = Z.to_nat n).
  { apply foldl_xor_length; [apply length_zeros|by eapply edge_pads_length]. }
  destruct msg as [m|]; [|intros [= <-]; unfold zlen; lia].
  rewrite pad_message_frame. destruct (n <? 36 + zlen m) eqn:E; [done|]. breflect.
  intros [= <-]. unfold zlen. rewrite xor_bytes_length, Hl, frame_length by done. lia.
Qed.

(** Reusing a round id under the same keys: the two shares differ by the frame alone. *)
Lemma reuse_xor r u ps m n keys s1 s2 :
  0 <= n ->
  compute_xor_share_secure r u ps (Some m) n keys = Some s1 ->
  compute_xor_share_secure r u ps None n keys = Some s2 ->
  xor_bytes s1 s2 = frame m n /\ 36 + zlen m <= n.
Proof.
  intros Hn. unfold compute_xor_share_secure. destruct (_ || _); [done|].
  unfold masked_share. rewrite mask_loop_spec.
  destruct (mapM _ (others u ps)) as [k|] eqn:Ek; [|done].
  cbn [fmap option_fmap option_map]. rewrite pad_message_frame.
  destruct (n <? 36 + zlen m) eqn:E; [done|]. breflect. intros [= <-] [= <-].
  assert (Hl : length (foldl xor_bytes (zeros n) k) = Z.to_nat n).
  { apply foldl_xor_length; [apply length_zeros|by eapply edge_pads_length]. }
  split; [|done].
  rewrite xor_bytes_comm, <-xor_bytes_assoc, (xor_bytes_self _ n) by done.
  apply xor_zeros_l. by apply frame_length.
Qed.

End EdgeShares.

(** ** Moving the sender *)

Section Untraceable.
Variables (p q : string) (F : bytes).

Definition is_pair (u v : string) : bool :=
  bool_decide ((u = p /\ v = q) \/ (u = q /\ v = p)).

(** The pads with [F] added on the edge between [p] and [q]. *)
Definition shift_pads (P : string -> string -> bytes) (u v : string) : bytes :=
  if is_pair u v then xor_bytes (P u v) F else P u v.

Lemma is_pair_sym u v : is_pair u v = is_pair v u.
Proof. unfold is_pair. apply bool_decide_ext. tauto. Qed.

Lemma shift_pads_at P u v i :
  at_ (shift_pads P u v) i = Z.lxor (at_ (P u v) i) (if is_pair u v then at_ F i else 0).
Proof. unfold shift_pads. case_match; rewrite ?xor_bytes_at, ?Z.lxor_0_r; done. Qed.

Lemma untraceable_byte `{Crypto} u m n i :
  p <> q -> frame m n = F ->
  at_ (embedded n (fun u => if bool_decide (u = p) then Some m else None) u) i =
  Z.lxor (if bool_decide (u = p \/ u = q) then at_ F i else 0)
         (at_ (embedded n (fun u => if bool_decide (u = q) then Some m else None) u) i).
Proof.
  intros Hne <-. unfold embedded. repeat case_bool_decide; subst; try naive_solver;
    rewrite ?zeros_at, ?Z.lxor_0_r, ?Z.lxor_nilpotent; done.
Qed.

(** At [p] and at [q] the shift adds [F] once, nowhere else anything. *)
Lemma shift_row ps u i :
  NoDup ps -> p <> q -> p ∈ ps -> q ∈ ps ->
  xsum ((fun v => if is_pair u v then at_ F i else 0) <$> others u ps) =
    if bool_decide (u = p \/ u = q) then at_ F i else 0.
Proof.
  intros Hnd Hne Hp Hq. assert (Hndo : NoDup (others u ps)) by (by apply NoDup_filter).
  case_bool_decide as Hu.
  - destruct Hu as [->| ->];
      [apply (xsum_indicator _ _ _ q)|apply (xsum_indicator _ _ _ p)];
      try done; try (apply elem_of_others; done);
      intros y [? ?]%elem_of_others; unfold is_pair; apply bool_decide_ext; naive_solver.
  - rewrite (list_fmap_ext _ (fun _ => 0)); [apply xsum_const0|].
    intros j v _. unfold is_pair. rewrite bool_decide_eq_false_2; [done|naive_solver].
Qed.

End Untraceable.

(** ** Properties *)

Section Properties.
Context `{Crypto, !ShaLaws, !HkdfLaws}.

(** C4: a DC-net round delivers. When the two ends of every edge hold the same key and the
    message fits, every participant can compute its share, and whatever the order the shares
    arrive in, the collector is complete and extracts exactly the sender's message. *)
Theorem round_delivers keys ps sender m r n now ch d :
  NoDup ps -> edge_keys_agree ps keys -> 2 <= zlen ps -> sender ∈ ps ->
  36 + zlen m <= n <= 65536 ->
  exists share,
    (forall u, u ∈ ps ->
       compute_xor_share_secure r u ps (if bool_decide (u = sender) then Some m else None) n (keys u)
       = Some (share u)) /\
    forall order, order ≡ₚ ps ->
      let c := CollectorFacts.submit_all (RoundCollector.new now ch r ps d n)
                 ((fun u => (u, share u)) <$> order) in
      RoundCollector.is_complete c = true /\ RoundCollector.extract_panics c = false /\
      (RoundCollector.extract_message c ≫= unpad_message) = Some m.
Proof.
  intros Hnd Hk H2 Hs Hm. pose proof (zlen_nonneg m).
  set (msg := fun u => if bool_decide (u = sender) then Some m else None).
  assert (Hfit : forall u m', u ∈ ps -> msg u = Some m' -> 36 + zlen m' <= n).
  { intros u m' _. unfold msg. case_bool_decide; [intros [= <-]; lia|done]. }
  exists (round_share ps n (pair_pad keys r n) msg). split.
  - intros u Hu. apply (compute_share_round keys ps r n msg u); auto; lia.
  - intros order Hord.
    destruct (round_extract keys ps r n msg now ch d order) as (? & ? & E); auto; [lia|].
    split_and!; [done|done|]. cbv zeta. rewrite E. unfold msg. rewrite single_embedded by (done || lia).
    apply unpad_frame_msg. lia.
Qed.

(** A round nobody embeds a message in extracts nothing: the all-zero payload is never a
    valid frame. *)
Theorem neutral_round_silent keys ps r n now ch d order :
  NoDup ps -> edge_keys_agree ps keys -> 2 <= zlen ps -> 4 <= n <= 65536 -> order ≡ₚ ps ->
  exists share,
    (forall u, u ∈ ps -> compute_xor_share_secure r u ps None n (keys u) = Some (share u)) /\
    let c := CollectorFacts.submit_all (RoundCollector.new now ch r ps d n)
               ((fun u => (u, share u)) <$> order) in
    RoundCollector.is_complete c = true /\
    (RoundCollector.extract_message c ≫= unpad_message) = None.
Proof.
  intros Hnd Hk H2 Hn Hord. set (msg := fun _ : string => @None bytes).
  exists (round_share ps n (pair_pad keys r n) msg). split.
  - intros u Hu. apply (compute_share_round keys ps r n msg u); auto; [lia|done].
  - destruct (round_extract keys ps r n msg now ch d order) as (? & ? & E); auto; [done|].
    split; [done|]. cbv zeta. rewrite E, no_embedded. simpl. apply unpad_zeros.
Qed.

(** Secure participation is all or nothing. A share exists exactly when we are one of at
    least two participants, hold an edge key for every other one, and the message, if any, fits
    beside its 36-byte header. *)
Theorem compute_share_defined_iff r u ps msg n keys :
  is_Some (compute_xor_share_secure r u ps msg n keys) <->
  2 <= zlen ps /\ u ∈ ps /\ (forall v, v ∈ ps -> v <> u -> is_Some (keys !! v)) /\
  (forall m, msg = Some m -> 36 + zlen m <= n).
Proof.
  unfold compute_xor_share_secure.
  destruct (zlen ps <? 2) eqn:E2; breflect; simpl.
  { split; [intros [? ?]; done|lia]. }
  case_bool_decide as Hu; simpl; [|split; [intros [? ?]; done|tauto]].
  destruct (decide (Forall (fun v => v = u \/ is_Some (keys !! v)) ps)) as [Hall|Hno];
    rewrite Forall_forall in *.
  - rewrite (masked_share_Some _ (pair_pad (fun _ => keys) r n u))
      by (intros v Hv ?; destruct (Hall v Hv); [done|]; by apply (edge_pad_Some (fun _ => keys))).
    assert (Hkeys : forall v, v ∈ ps -> v <> u -> is_Some (keys !! v)) by naive_solver.
    destruct msg as [m|]; simpl.
    + rewrite pad_message_frame. destruct (n <? 36 + zlen m) eqn:E; breflect; simpl.
      * split; [intros [? ?]; done|]. intros (_ & _ & _ & Hm). specialize (Hm m eq_refl). lia.
      * split; [|eauto]. intros _. split_and!; auto. by intros ? [= <-].
    + split; [|eauto]. intros _. split_and!; auto. done.
  - split; [|intros (_ & _ & Hk & _); destruct Hno; intros v Hv; destruct (decide (v = u)); auto].
    intros [s Hs]. destruct Hno. intros v Hv. destruct (decide (v = u)) as [|Hne]; [by left|right].
    destruct (keys !! v) as [k|] eqn:Ek; [eauto|].
    rewrite (masked_share_None _ _ _ _ _ v) in Hs; [done..|]. unfold edge_pad. by rewrite Ek.
Qed.

(** C12: sender untraceability. For the transcript of a round sent by [p] under some pads there
    are pads, symmetric and of the same lengths, under which the same transcript is the round
    sent by any other participant [q]; they differ from the first on the one edge between [p]
    and [q], and the correspondence is an involution. Whoever does not hold that edge key sees
    nothing that distinguishes the two. *)
Theorem round_untraceable P ps p q m n :
  NoDup ps -> p ∈ ps -> q ∈ ps -> p <> q -> 36 + zlen m <= n ->
  (forall u v, length (P u v) = Z.to_nat n) ->
  (forall u v, P u v = P v u) ->
  let P' := shift_pads p q (frame m n) P in
  (forall u, u ∈ ps ->
     masked_share (fun v => Some (P u v)) u ps (if bool_decide (u = p) then Some m else None) n =
     masked_share (fun v => Some (P' u v)) u ps (if bool_decide (u = q) then Some m else None) n) /\
  (forall u v, length (P' u v) = Z.to_nat n) /\ (forall u v, P' u v = P' v u) /\
  (forall u v, shift_pads p q (frame m n) P' u v = P u v).
Proof.
  intros Hnd Hp Hq Hne Hm Plen Psym P'.
  assert (HF : length (frame m n) = Z.to_nat n) by (by apply frame_length).
  pose proof (zlen_nonneg m).
  assert (Plen' : forall u v, length (P' u v) = Z.to_nat n).
  { intros u v. unfold P', shift_pads. case_match; [rewrite xor_bytes_length, HF|]; rewrite Plen; lia. }
  split_and!; [|done| |].
  - intros u Hu.
    set (mp := fun u => if bool_decide (u = p) then Some m else None).
    set (mq := fun u => if bool_decide (u = q) then Some m else None).
    assert (Hfp : forall w m', w ∈ ps -> mp w = Some m' -> 36 + zlen m' <= n)
      by (intros w m' _; unfold mp; case_bool_decide; [by intros [= <-]|done]).
    assert (Hfq : forall w m', w ∈ ps -> mq w = Some m' -> 36 + zlen m' <= n)
      by (intros w m' _; unfold mq; case_bool_decide; [by intros [= <-]|done]).
    transitivity (Some (round_share ps n P mp u)); [by apply (masked_share_round ps n P mp)|].
    transitivity (Some (round_share ps n P' mq u)); [|symmetry; by apply (masked_share_round ps n P' mq)].
    f_equal. apply bytes_ext; [by rewrite !round_share_length|].
    intros i. unfold round_share. rewrite !xor_bytes_at, !foldl_xor_at, !zeros_at, !Z.lxor_0_l.
    rewrite <-!list_fmap_compose.
    rewrite (list_fmap_ext ((fun l => at_ l i) ∘ P' u)
      (fun v => Z.lxor (at_ (P u v) i) (if is_pair p q u v then at_ (frame m n) i else 0)))
      by (intros; apply shift_pads_at).
    rewrite xsum_lxor, (shift_row p q _ ps) by done. rewrite Z.lxor_assoc.
    apply (f_equal2 Z.lxor); [done|].
    apply untraceable_byte; done.
  - intros u v. unfold P', shift_pads. rewrite (is_pair_sym p q u v). case_match; by rewrite Psym.
  - intros u v. unfold P', shift_pads. destruct (is_pair p q u v); [|done].
    rewrite xor_bytes_assoc, (xor_bytes_self _ n), xor_bytes_comm by done. by apply xor_zeros_l.
Qed.

(** C36: the frame is exact. [pad_message] succeeds precisely when the message and its header fit,
    the result is as long as the payload, and a payload is accepted by [unpad_message] as [m]
    precisely when it starts with the length, the SHA-256 and the bytes of [m]: every message
    comes back unchanged, trailing zero bytes included. *)
Theorem frame_exact m n p :
  0 <= n -> zlen m < 2 ^ 32 -> bytes_ok p ->
  (pad_message m n = None <-> n < 36 + zlen m) /\
  (forall f, pad_message m n = Some f -> zlen f = n /\ unpad_message f = Some m) /\
  (unpad_message p = Some m <->
     exists rest, p = be_bytes 4 (zlen m) ++ sha256_digest m ++ m ++ rest).
Proof.
  intros Hn Hm Hp. rewrite pad_message_frame.
  split_and!.
  - destruct (n <? 36 + zlen m) eqn:E; breflect; split; done || lia.
  - intros f. destruct (n <? 36 + zlen m) eqn:E; [done|]. breflect. intros [= <-].
    split; [unfold zlen; rewrite frame_length by done; lia|]. by apply unpad_frame_msg.
  - split.
    + intros E. destruct (unpad_message_inv p m) as (rest & ? & _); eauto.
    + intros [rest ->]. pose proof (zlen_nonneg m).
      rewrite unpad_layout by (apply length_be_bytes || apply sha256_length). cbv zeta.
      rewrite from_be_u32 by lia. rewrite zlen_app, Z.gtb_ltb, (proj2 (Z.ltb_ge _ _))
        by (pose proof (zlen_nonneg rest); lia).
      rewrite take_app_length' by (unfold zlen; lia). by rewrite bool_decide_eq_true_2.
Qed.

(** A share signature binds the channel, the round and the share: the signed bytes of two
    shares are equal only when all three are. *)
Theorem share_signature_binds ch1 ch2 r1 r2 s1 s2 :
  slen ch1 < 2 ^ 32 -> slen ch2 < 2 ^ 32 -> 0 <= r1 < 2 ^ 64 -> 0 <= r2 < 2 ^ 64 ->
  share_signature_message ch1 r1 s1 = share_signature_message ch2 r2 s2 ->
  ch1 = ch2 /\ r1 = r2 /\ s1 = s2.
Proof.
  intros Hc1 Hc2 Hr1 Hr2 E. unfold share_signature_message in E.
  pose proof (zlen_nonneg (string_bytes ch1)) as Hz1. pose proof (zlen_nonneg (string_bytes ch2)) as Hz2.
  rewrite zlen_string_bytes in Hz1, Hz2. rewrite !wrap32_small in E by lia.
  apply app_inv_head in E.
  apply app_eq_length in E as [El E]; [|by rewrite !length_be_bytes].
  apply be_bytes_inj in El; [|lia..].
  apply app_eq_length in E as [Ech E].
  2: { pose proof (zlen_string_bytes ch1). pose proof (zlen_string_bytes ch2). unfold zlen in *. lia. }
  apply app_eq_length in E as [Er Es]; [|by rewrite !length_be_bytes].
  apply be_bytes_inj in Er; [|lia..]. split_and!; [by apply string_bytes_inj|done|done].
Qed.

(** The collector against arbitrary submissions. Whatever list of shares is fed to a fresh
    collector, the share kept for a participant is the first one of the right length submitted
    under its uid, nothing is kept for an outsider, the collector is complete exactly when every
    participant has submitted such a share, and extraction is within bounds. *)
Theorem collector_keeps_first now ch r ps d n l :
  let c0 := RoundCollector.new now ch r ps d n in
  let c := CollectorFacts.submit_all c0 l in
  (forall u, RoundCollector.shares_received c !! u =
     if bool_decide (u ∈ ps) then CollectorFacts.first_valid (clampZ n 4 65536) u l else None) /\
  (RoundCollector.is_complete c = true <->
     forall u, u ∈ ps -> exists s, (u, s) ∈ l /\ zlen s = clampZ n 4 65536) /\
  RoundCollector.extract_panics c = false.
Proof.
  intros c0 c.
  assert (Hwf : CollectorFacts.wf c) by (apply CollectorFacts.submit_all_wf, CollectorFacts.new_wf).
  assert (Hget : forall u, RoundCollector.shares_received c !! u =
     if bool_decide (u ∈ ps) then CollectorFacts.first_valid (clampZ n 4 65536) u l else None).
  { intros u. unfold c. rewrite CollectorFacts.submit_all_first. simpl.
    rewrite lookup_empty. by rewrite (bool_decide_ext _ _ (elem_of_list_to_set u ps)). }
  split_and!; [done| |by apply CollectorFacts.extract_no_panic].
  rewrite CollectorFacts.complete_no_missing by done. split.
  - intros Hm u Hu. apply CollectorFacts.first_valid_spec.
    specialize (Hget u). rewrite bool_decide_eq_true_2 in Hget by done.
    rewrite <-Hget. apply not_eq_None_Some. intros Hn.
    assert (Hin : u ∈ RoundCollector.missing_participants c).
    { apply CollectorFacts.missing_spec. split; [|done].
      destruct (CollectorFacts.submit_all_fields c0 l) as [Hp _]. fold c in Hp. rewrite Hp.
      by apply elem_of_list_to_set. }
    rewrite Hm in Hin. by apply not_elem_of_nil in Hin.
  - intros Hall. apply elem_of_nil_inv. intros u [Hu Hn]%CollectorFacts.missing_spec.
    destruct (CollectorFacts.submit_all_fields c0 l) as [Hp _]. fold c in Hp.
    rewrite Hp in Hu. apply elem_of_list_to_set in Hu.
    rewrite Hget, bool_decide_eq_true_2 in Hn by done.
    apply Hall, CollectorFacts.first_valid_spec in Hu. rewrite Hn in Hu. by destruct Hu.
Qed.

(** The tracker has one counter that only ever advances by one. Over any sequence of calls
    the round ids issued and accepted are exactly the consecutive ids after the current one (no
    id is skipped or accepted twice, so no far-future id can be injected), and messages leave
    the queue in the order they entered. *)
Theorem tracker_runs ops rt :
  0 <= RoundTracker.current_round_id rt -> RoundTracker.current_round_id rt + zlen ops < 2 ^ 64 ->
  let '(rt', ids, texts) := TrackerFacts.run rt ops in
  ids = TrackerFacts.zseq (RoundTracker.current_round_id rt + 1) (length ids) /\
  RoundTracker.current_round_id rt' = RoundTracker.current_round_id rt + zlen ids /\
  texts ++ RoundTracker.message_queue rt' = RoundTracker.message_queue rt ++ TrackerFacts.queued ops.
Proof. intros. by apply TrackerFacts.run_spec. Qed.

End Properties.

(** ** Witnesses: three friends on the toy primitives *)

Module RoundWitness.

Definition ps : list string := ["alice"; "bob"; "carol"].

Definition keys (u : string) : gmap string bytes :=
  if bool_decide (u = "alice") then {[ "bob" := [1]; "carol" := [2] ]}
  else if bool_decide (u = "bob") then {[ "alice" := [1]; "carol" := [3] ]}
  else {[ "alice" := [2]; "bob" := [3] ]}.

Definition hi : bytes := [104; 105; 0].

Lemma keys_agree : edge_keys_agree ps keys.
Proof.
  intros u v Hu Hv Hne. apply list_elem_of_In in Hu, Hv.
  repeat (destruct Hu as [<-|Hu]; [repeat (destruct Hv as [<-|Hv]; [first [done|vm_compute; eauto]|]); done|]).
  done.
Qed.

Lemma ps_nodup : NoDup ps.
Proof. apply (bool_decide_unpack _). vm_compute. exact I. Qed.

Lemma ps_perm : ["carol"; "alice"; "bob"] ≡ₚ ps.
Proof. apply (bool_decide_unpack _). vm_compute. exact I. Qed.

Lemma round_delivers_witness :
  exists share,
    (forall u, u ∈ ps ->
       @compute_xor_share_secure toy_crypto 7 u ps
         (if bool_decide (u = "bob") then Some hi else None) 48 (keys u) = Some (share u)) /\
    forall order, order ≡ₚ ps ->
      let c := CollectorFacts.submit_all (RoundCollector.new 0 "#a" 7 ps 30 48)
                 ((fun u => (u, share u)) <$> order) in
      RoundCollector.is_complete c = true /\ RoundCollector.extract_panics c = false /\
      (RoundCollector.extract_message c ≫= @unpad_message toy_crypto) = Some hi.
Proof.
  apply (round_delivers (H := toy_crypto) keys ps "bob" hi 7 48 0 "#a" 30 ps_nodup keys_agree);
    [vm_compute; done|right; left|vm_compute; done].
Defined.

Lemma neutral_round_silent_witness :
  exists share,
    (forall u, u ∈ ps -> @compute_xor_share_secure toy_crypto 7 u ps None 48 (keys u) = Some (share u)) /\
    let c := CollectorFacts.submit_all (RoundCollector.new 0 "#a" 7 ps 30 48)
               ((fun u => (u, share u)) <$> ["carol"; "alice"; "bob"]) in
    RoundCollector.is_complete c = true /\
    (RoundCollector.extract_message c ≫= @unpad_message toy_crypto) = None.
Proof.
  apply (neutral_round_silent (H := toy_crypto) keys ps 7 48 0 "#a" 30 _ ps_nodup keys_agree);
    [vm_compute; done|lia|exact ps_perm].
Defined.

Lemma compute_share_defined_witness :
  is_Some (@compute_xor_share_secure toy_crypto 7 "bob" ps (Some hi) 48 (keys "bob")) <->
  2 <= zlen ps /\ "bob" ∈ ps /\ (forall v, v ∈ ps -> v <> "bob" -> is_Some (keys "bob" !! v)) /\
  (forall m, Some hi = Some m -> 36 + zlen m <= 48).
Proof. apply (compute_share_defined_iff (H := toy_crypto)). Defined.

Lemma round_untraceable_witness :
  let P := fun _ _ : string => zeros 48 in
  let P' := shift_pads "alice" "carol" (@frame toy_crypto hi 48) P in
  (forall u, u ∈ ps ->
     @masked_share toy_crypto (fun v => Some (P u v)) u ps
       (if bool_decide (u = "alice") then Some hi else None) 48 =
     @masked_share toy_crypto (fun v => Some (P' u v)) u ps
       (if bool_decide (u = "carol") then Some hi else None) 48) /\
  (forall u v, length (P' u v) = Z.to_nat 48) /\ (forall u v, P' u v = P' v u) /\
  (forall u v, shift_pads "alice" "carol" (@frame toy_crypto hi 48) P' u v = P u v).
Proof.
  apply (round_untraceable (H := toy_crypto) (fun _ _ => zeros 48) ps "alice" "carol" hi 48 ps_nodup);
    [left|right; right; left|done|vm_compute; done|done|done].
Defined.

Lemma frame_exact_witness :
  let f := @frame toy_crypto hi 48 in
  (@pad_message toy_crypto hi 48 = None <-> 48 < 36 + zlen hi) /\
  (forall f', @pad_message toy_crypto hi 48 = Some f' -> zlen f' = 48 /\ @unpad_message toy_crypto f' = Some hi) /\
  (@unpad_message toy_crypto f = Some hi <->
     exists rest, f = be_bytes 4 (zlen hi) ++ @sha256_digest toy_crypto hi ++ hi ++ rest).
Proof.
  apply (frame_exact (H := toy_crypto) hi 48); [lia|vm_compute; done|].
  apply (bool_decide_unpack (Forall (fun b => 0 <= b < 256) _)). vm_compute. exact I.
Defined.

Lemma share_signature_binds_witness : "#a" = "#a" /\ 7 = 7 /\ hi = [104; 105; 0].
Proof.
  apply (share_signature_binds "#a" "#a" 7 7 hi [104; 105; 0]);
    [vm_compute; done..|lia|lia|reflexivity].
Defined.

Lemma tracker_runs_witness :
  let '(rt', ids, texts) := TrackerFacts.run (RoundTracker.new 0)
    [TrackerFacts.NextRound; TrackerFacts.MarkSeen 100; TrackerFacts.Queue "a"; TrackerFacts.MarkSeen 2] in
  ids = TrackerFacts.zseq 1 (length ids) /\
  RoundTracker.current_round_id rt' = 0 + zlen ids /\
  texts ++ RoundTracker.message_queue rt' = [] ++ ["a"].
Proof.
  apply (tracker_runs [TrackerFacts.NextRound; TrackerFacts.MarkSeen 100; TrackerFacts.Queue "a";
    TrackerFacts.MarkSeen 2] (RoundTracker.new 0)); vm_compute; done.
Defined.

End RoundWitness.
