(* ===== verification/RoundDriver.v ===== *)
(** [dcnet/round_driver.rs]: the mesh round state machine of a channel.

    A handler takes the driver and returns the new driver with what it sends; [now] is the
    clock. The properties are about every interleaving of calls ([reachable]) and about a
    complete round seen from a neutral participant and from the initiator. *)

From S2P Require Import Prelude Crypto Identity Wire Float64 Dcnet RoundNetwork.

Definition CHANNEL_PAYLOAD_LEN : Z := 4096.
Definition CHANNEL_ROUND_DEADLINE_SECS : Z := 30.
Definition MAX_CONFLICT_RETRIES : Z := 3.

Record RoundContext := mkRoundContext {
  my_uid : string;
  ctx_signing_key : bytes;
  edge_keys : gmap string bytes;
  known_keys : gmap string string;
}.

Record ExtractedMessage := mkExtracted {
  ex_channel : string;
  ex_text : string;
  ex_round_id : Z;
}.

Abbreviation outgoing_msg := (string * PeerMessage)%type.

Record RoundAction := mkAction {
  extracted : list ExtractedMessage;
  outgoing : list outgoing_msg;
}.

Definition no_action : RoundAction := {| extracted := []; outgoing := [] |}.

Module RoundDriver.

Record t := mk {
  tracker : RoundTracker;
  pending_message : option bytes;
  pending_round_id : option Z;
  retries : Z;
  collectors : gmap Z RoundCollector;
  emitted : gset Z;
  my_share : option (bytes * bytes);
  my_share_broadcast : bool;
  pending_outgoing : list outgoing_msg;
  retry_after_peer : option Z;
}.

Definition new (now : Z) : t :=
  {| tracker := RoundTracker.new now; pending_message := None; pending_round_id := None;
     retries := 0; collectors := ∅; emitted := ∅; my_share := None;
     my_share_broadcast := false; pending_outgoing := []; retry_after_peer := None |}.

(** Field assignment. *)
Definition set_tracker (d : t) x := mk x (pending_message d) (pending_round_id d) (retries d)
  (collectors d) (emitted d) (my_share d) (my_share_broadcast d) (pending_outgoing d) (retry_after_peer d).
Definition set_message (d : t) x := mk (tracker d) x (pending_round_id d) (retries d)
  (collectors d) (emitted d) (my_share d) (my_share_broadcast d) (pending_outgoing d) (retry_after_peer d).
Definition set_pending (d : t) x := mk (tracker d) (pending_message d) x (retries d)
  (collectors d) (emitted d) (my_share d) (my_share_broadcast d) (pending_outgoing d) (retry_after_peer d).
Definition set_retries (d : t) x := mk (tracker d) (pending_message d) (pending_round_id d) x
  (collectors d) (emitted d) (my_share d) (my_share_broadcast d) (pending_outgoing d) (retry_after_peer d).
Definition set_collectors (d : t) x := mk (tracker d) (pending_message d) (pending_round_id d) (retries d)
  x (emitted d) (my_share d) (my_share_broadcast d) (pending_outgoing d) (retry_after_peer d).
Definition set_emitted (d : t) x := mk (tracker d) (pending_message d) (pending_round_id d) (retries d)
  (collectors d) x (my_share d) (my_share_broadcast d) (pending_outgoing d) (retry_after_peer d).
Definition set_my_share (d : t) x y := mk (tracker d) (pending_message d) (pending_round_id d) (retries d)
  (collectors d) (emitted d) x y (pending_outgoing d) (retry_after_peer d).
Definition set_outgoing (d : t) x := mk (tracker d) (pending_message d) (pending_round_id d) (retries d)
  (collectors d) (emitted d) (my_share d) (my_share_broadcast d) x (retry_after_peer d).
Definition set_retry_after (d : t) x := mk (tracker d) (pending_message d) (pending_round_id d) (retries d)
  (collectors d) (emitted d) (my_share d) (my_share_broadcast d) (pending_outgoing d) x.

(** [for uid in participants { if uid != my_uid { out.push((uid, msg)) } }]. *)
Definition to_others (me : string) (participants : list string) (msg : PeerMessage) : list outgoing_msg :=
  (fun uid => (uid, msg)) <$> others me participants.

Section Handlers.
Context `{Crypto}.

Definition initiate (now : Z) (d : t) (channel text : string) (participants : list string)
    (ctx : RoundContext) : t * result (list outgoing_msg) string :=
  if slen text + 36 >? CHANNEL_PAYLOAD_LEN then
    (d, Err ("message too long (max " +:+ fmt (CHANNEL_PAYLOAD_LEN - 36) +:+ " bytes)"))
  else if (zlen participants <? 2) || negb (bool_decide (my_uid ctx ∈ participants)) then
    (d, Err "not a participant of this channel")
  else
    let '(tr, round_id) := RoundTracker.next_round (tracker d) in
    let d := set_tracker d tr in
    match compute_xor_share_secure round_id (my_uid ctx) participants
            (Some (string_bytes text)) CHANNEL_PAYLOAD_LEN (edge_keys ctx) with
    | None => (d, Err "cannot participate securely: missing edge keys")
    | Some share =>
        let signature := sign_share (ctx_signing_key ctx) channel round_id share in
        let collector := RoundCollector.new now channel round_id participants
                           CHANNEL_ROUND_DEADLINE_SECS CHANNEL_PAYLOAD_LEN in
        let d := set_collectors d (<[round_id := collector]> (collectors d)) in
        let d := set_message d (Some (string_bytes text)) in
        let d := set_pending d (Some round_id) in
        let d := set_my_share d (Some (share, signature)) false in
        let d := set_retries d 0 in
        let start := build_round_start channel round_id (my_uid ctx) participants
                       CHANNEL_ROUND_DEADLINE_SECS CHANNEL_PAYLOAD_LEN in
        (d, Ok (to_others (my_uid ctx) participants start))
    end.

(** Abort our initiated round, keeping the queued message. *)
Definition abort_pending_round (d : t) : t :=
  let d := match pending_round_id d with
           | Some id => set_collectors (set_pending d None) (delete id (collectors d))
           | None => d
           end in
  set_my_share d None false.

Definition retry_pending (now : Z) (d : t) (channel : string) (participants : list string)
    (ctx : RoundContext) : t :=
  if MAX_CONFLICT_RETRIES <=? retries d then set_message d None
  else
    let d := set_retries d (retries d +₃₂ 1) in
    match pending_message d with
    | None => d
    | Some text =>
        match initiate now d channel (from_utf8_lossy text) participants ctx with
        | (d', Ok out) => set_outgoing d' (pending_outgoing d' ++ out)
        | (d', Err _) => d'
        end
    end.

(** The body of the loop of [drop_expired]. *)
Definition drop_one (now : Z) (ctx : RoundContext) (d : t) (id : Z) : t :=
  let was_mine := bool_decide (pending_round_id d = Some id) in
  let participants :=
    match collectors d !! id with
    | Some c => elements (RoundCollector.participants c)
    | None => []
    end in
  let channel :=
    match collectors d !! id with
    | Some c => RoundCollector.channel c
    | None => EmptyString
    end in
  let d := set_collectors d (delete id (collectors d)) in
  if was_mine then
    let d := set_pending d None in
    let d := set_my_share d None false in
    if negb (bool_decide (participants = [])) then retry_pending now d channel participants ctx
    else d
  else d.

Definition expired_ids (now : Z) (d : t) : list Z :=
  (filter (fun p => RoundCollector.is_expired now p.2 = true) (map_to_list (collectors d))).*1.

Definition drop_expired (now : Z) (d : t) (ctx : RoundContext) : t :=
  foldl (drop_one now ctx) d (expired_ids now d).

(** The neutral participation that ends [on_round_start]. *)
Definition participate (now : Z) (d : t) (channel : string) (round_id : Z)
    (participants : list string) (deadline_secs payload_len : Z) (ctx : RoundContext) : t * RoundAction :=
  if negb (bool_decide (my_uid ctx ∈ participants)) then (d, no_action)
  else
    match compute_xor_share_secure round_id (my_uid ctx) participants None payload_len (edge_keys ctx) with
    | None => (d, no_action)
    | Some share =>
        let signature := sign_share (ctx_signing_key ctx) channel round_id share in
        let share_msg := build_round_share channel round_id (my_uid ctx) share signature in
        let collector := RoundCollector.new now channel round_id participants deadline_secs payload_len in
        let '(collector, _) := RoundCollector.submit_share collector (my_uid ctx) share in
        let d := set_collectors d (<[round_id := collector]> (collectors d)) in
        (d, {| extracted := []; outgoing := to_others (my_uid ctx) participants share_msg |})
    end.

Definition on_round_start (now : Z) (d : t) (channel : string) (round_id : Z) (leader_id : string)
    (participants : list string) (deadline_secs payload_len : Z) (ctx : RoundContext) : t * RoundAction :=
  match RoundTracker.mark_seen (tracker d) round_id with
  | (tr, true) =>
      participate now (set_tracker d tr) channel round_id participants deadline_secs payload_len ctx
  | (_, false) =>
      let conflict := bool_decide (pending_round_id d = Some round_id) &&
                      negb (bool_decide (leader_id = my_uid ctx)) in
      if conflict && bytes_ltb (string_bytes leader_id) (string_bytes (my_uid ctx)) then
        let d := abort_pending_round d in
        let d := set_retry_after d (Some round_id) in
        participate now d channel round_id participants deadline_secs payload_len ctx
      else (d, no_action)
  end.

(** The signature check at the head of [on_round_share]: unknown and unparsable keys pass. *)
Definition share_admitted (ctx : RoundContext) (channel : string) (round_id : Z) (peer_uid : string)
    (share signature : bytes) : bool :=
  match known_keys ctx !! peer_uid with
  | None => true
  | Some key_hex =>
      match parse_verifying_key key_hex with
      | Some vk => verify_share_signature vk channel round_id share signature
      | None => true
      end
  end.

(** [extracted_ok] of [on_round_share], with the message it pushes; [emitted.insert] is false
    for a round already emitted. *)
Definition emit_extracted (d : t) (collector : RoundCollector) (channel : string) (round_id : Z) :
    t * list ExtractedMessage * bool :=
  match RoundCollector.extract_message collector with
  | Some payload =>
      match (unpad_message payload ≫= from_utf8) with
      | Some text =>
          if bool_decide (round_id ∈ emitted d) then (d, [], false)
          else (set_emitted d ({[round_id]} ∪ emitted d),
                [{| ex_channel := channel; ex_text := text; ex_round_id := round_id |}], true)
      | None => (d, [], false)
      end
  | None => (d, [], false)
  end.

(** [if is_my_round { .. }]. *)
Definition settle_mine (now : Z) (d : t) (is_my_round extracted_ok : bool) (channel : string)
    (round_participants : list string) (ctx : RoundContext) : t :=
  if is_my_round then
    let d := set_pending d None in
    let d := set_my_share d None false in
    if negb extracted_ok then retry_pending now d channel round_participants ctx
    else set_message d None
  else d.

(** [if self.retry_after_peer == Some(round_id) { .. }]. *)
Definition retry_lost_conflict (now : Z) (d : t) (channel : string) (round_id : Z)
    (round_participants : list string) (ctx : RoundContext) : t :=
  if bool_decide (retry_after_peer d = Some round_id) then
    let d := set_retry_after d None in
    if bool_decide (is_Some (pending_message d))
    then retry_pending now d channel round_participants ctx else d
  else d.

(** The part of [on_round_share] for a complete collector. *)
Definition finish_round (now : Z) (d : t) (collector : RoundCollector) (channel : string)
    (round_id : Z) (is_my_round : bool) (ctx : RoundContext) : t * list ExtractedMessage :=
  let '(d, ext, extracted_ok) := emit_extracted d collector channel round_id in
  let round_participants := elements (RoundCollector.participants collector) in
  let d := set_collectors d (delete round_id (collectors d)) in
  let d := settle_mine now d is_my_round extracted_ok channel round_participants ctx in
  let d := retry_lost_conflict now d channel round_id round_participants ctx in
  (d, ext).

Definition on_round_share (now : Z) (d : t) (channel : string) (round_id : Z) (peer_uid : string)
    (share signature : bytes) (ctx : RoundContext) : t * RoundAction :=
  if negb (share_admitted ctx channel round_id peer_uid share signature) then (d, no_action)
  else
    let is_my_round := bool_decide (pending_round_id d = Some round_id) in
    match collectors d !! round_id with
    | None => (d, no_action)
    | Some collector =>
        match RoundCollector.submit_share collector peer_uid share with
        | (_, Err _) => (d, no_action)
        | (collector, Ok _) =>
            let d := set_collectors d (<[round_id := collector]> (collectors d)) in
            let all_others_arrived :=
              bool_decide (RoundCollector.missing_participants collector = [my_uid ctx]) in
            let '(d, collector, out) :=
              if is_my_round && negb (my_share_broadcast d) && all_others_arrived then
                match my_share d with
                | Some (mine, my_sig) =>
                    let share_msg := build_round_share channel round_id (my_uid ctx) mine my_sig in
                    let '(collector, _) := RoundCollector.submit_share collector (my_uid ctx) mine in
                    let d := set_my_share d (my_share d) true in
                    let d := set_collectors d (<[round_id := collector]> (collectors d)) in
                    (d, collector,
                     to_others (my_uid ctx) (elements (RoundCollector.participants collector)) share_msg)
                | None => (d, collector, [])
                end
              else (d, collector, []) in
            if RoundCollector.is_complete collector then
              let '(d, ext) := finish_round now d collector channel round_id is_my_round ctx in
              (d, {| extracted := ext; outgoing := out |})
            else (d, {| extracted := []; outgoing := out |})
        end
    end.

Definition handle (now : Z) (d : t) (msg : PeerMessage) (ctx : RoundContext) : t * RoundAction :=
  let d := drop_expired now d ctx in
  let '(d, action) :=
    match msg with
    | DcRoundStart channel round_id leader_id participants deadline_secs payload_len =>
        on_round_start now d channel round_id leader_id participants deadline_secs payload_len ctx
    | DcRoundShare channel round_id peer_uid xored_payload signature =>
        on_round_share now d channel round_id peer_uid xored_payload signature ctx
    | _ => (d, no_action)
    end in
  (set_outgoing d [], {| extracted := extracted action;
                         outgoing := outgoing action ++ pending_outgoing d |}).

Definition drain_pending_outgoing (d : t) : t * list outgoing_msg :=
  (set_outgoing d [], pending_outgoing d).

End Handlers.

End RoundDriver.

Abbreviation RoundDriver := RoundDriver.t.

(** ** The invariant *)

Module DriverFacts.
Import RoundDriver.
Abbreviation cur := (fun d => RoundTracker.current_round_id (tracker d)).

(** A failed round of ours and a lost conflict each cost at most one retry. *)
Definition b2z {A} (o : option A) : Z := match o with Some _ => 1 | None => 0 end.
Definition retry_budget (d : t) : Z := retries d + b2z (pending_round_id d) + b2z (retry_after_peer d).

(** [B] bounds the counter and [k] the retry budget. *)
Record core (me : string) (B k : Z) (d : t) : Prop := {
  core_cur : 0 <= cur d <= B;
  core_coll : forall id c, collectors d !! id = Some c ->
    CollectorFacts.wf c /\ 1 <= id <= cur d;
  core_emit : forall id, id ∈ emitted d -> id <= cur d /\ collectors d !! id = None;
  core_pend : forall r, pending_round_id d = Some r ->
    exists c, collectors d !! r = Some c /\ RoundCollector.payload_len c = CHANNEL_PAYLOAD_LEN /\
      me ∈ RoundCollector.participants c;
  core_share : forall s g, my_share d = Some (s, g) -> zlen s = CHANNEL_PAYLOAD_LEN;
  core_mine : is_Some (pending_round_id d) -> is_Some (my_share d);
  core_retry : 0 <= retries d /\ retry_budget d <= k;
}.

Definition inv (me : string) (B : Z) (d : t) : Prop :=
  core me B 2 d /\ my_share_broadcast d = false.

Lemma b2z_range {A} (o : option A) : 0 <= b2z o <= 1.
Proof. destruct o; simpl; lia. Qed.

Lemma core_weaken me B B' k k' d : core me B k d -> B <= B' -> k <= k' -> core me B' k' d.
Proof. intros [] ??. split; try done; lia. Qed.

Lemma new_inv me now : inv me 0 (new now).
Proof.
  split; [|done]. split; simpl; try done; try lia.
Qed.

Section Preservation.
Context `{Crypto, !ShaLaws, !HkdfLaws}.
Variable ctx : RoundContext.
Local Abbreviation me := (my_uid ctx).

Lemma next_round_cur d B :
  0 <= cur d <= B -> B + 1 < 2 ^ 64 ->
  RoundTracker.next_round (tracker d) = (RoundTracker.set_round (tracker d) (cur d + 1), cur d + 1).
Proof. intros. unfold RoundTracker.next_round. by rewrite wrap64_small by lia. Qed.

(** Raising the counter alone. *)
Lemma core_tick B k d r :
  core me B k d -> cur d <= r <= B + 1 ->
  core me (B + 1) k (set_tracker d (RoundTracker.set_round (tracker d) r)).
Proof.
  intros [] Hr. split; simpl; try done; try lia.
  - intros id c Hc. destruct (core_coll0 id c Hc). split; [done|lia].
  - intros id Hid. destruct (core_emit0 id Hid). split; [lia|done].
Qed.

Lemma initiate_inv now d ch text ps B :
  inv me B d -> B + 1 < 2 ^ 64 -> inv me (B + 1) (initiate now d ch text ps ctx).1.
Proof.
  intros [Hc Hb] HB. pose proof (core_cur _ _ _ _ Hc) as Hcur. unfold initiate.
  destruct (_ >? _); [split; [|done]; eapply core_weaken; eauto; lia|].
  destruct (_ || _) eqn:Eg; [split; [|done]; eapply core_weaken; eauto; lia|].
  breflect. rewrite (next_round_cur d B) by lia.
  destruct (compute_xor_share_secure _ _ _ _ _ _) as [share|] eqn:Es; simpl.
  2: { split; [|done]. apply core_tick; [done|lia]. }
  split; [|done]. apply compute_share_length in Es; [|done].
  destruct Hc. split; simpl; try done; try lia.
  - intros id c. rewrite lookup_insert_Some. intros [[<- <-]|[Hne Hc]].
    + split; [apply CollectorFacts.new_wf|lia].
    + destruct (core_coll0 id c Hc). split; [done|lia].
  - intros id Hid. destruct (core_emit0 id Hid). split; [lia|]. by rewrite lookup_insert_ne by lia.
  - intros r [= <-]. eexists. rewrite lookup_insert_eq. split_and!; [done|done|].
    simpl. apply elem_of_list_to_set. done.
  - intros s g [= <- <-]. done.
  - unfold retry_budget. simpl. pose proof (b2z_range (retry_after_peer d)). lia.
Qed.

(** [retry_pending] spends one unit of the retry budget. *)
Lemma retry_pending_inv now d ch ps B :
  core me B 1 d -> my_share_broadcast d = false -> B + 1 < 2 ^ 64 ->
  inv me (B + 1) (retry_pending now d ch ps ctx).
Proof.
  intros Hc Hb HB. unfold retry_pending. destruct (_ <=? _).
  { split; [|done]. apply (core_weaken _ B _ 1); [|lia..]. destruct Hc; split; done. }
  assert (Hd : inv me B (set_retries d (retries d +₃₂ 1))).
  { split; [|done]. destruct Hc. split; simpl; try done. unfold retry_budget in *. simpl.
    pose proof (b2z_range (pending_round_id d)). pose proof (b2z_range (retry_after_peer d)).
    rewrite wrap32_small by lia. lia. }
  cbn [pending_message set_retries]. destruct (pending_message d) as [text|].
  2: { destruct Hd. split; [|done]. eapply core_weaken; eauto; lia. }
  pose proof (initiate_inv now _ ch (from_utf8_lossy text) ps B Hd HB) as Hi.
  destruct (initiate _ _ _ _ _ _) as [d' [out|e]]; [|done].
  destruct Hi as [Hi Hb']. split; [|done]. destruct Hi; split; done.
Qed.

(** Forgetting a round of ours frees its unit of the budget. *)
Lemma forget_mine B d r :
  core me B 2 d -> pending_round_id d = Some r ->
  core me B 1 (set_my_share (set_pending (set_collectors d (delete r (collectors d))) None) None false).
Proof.
  intros [] Hp. split; simpl; try done.
  - intros id c Hc. apply lookup_delete_Some in Hc as [_ Hc]. eauto.
  - intros id Hid. destruct (core_emit0 id Hid). split; [done|]. apply lookup_delete_None. auto.
  - unfold retry_budget in *. simpl in *. rewrite Hp in core_retry0. simpl in *. lia.
Qed.

Lemma forget_other B k d r :
  core me B k d -> pending_round_id d <> Some r ->
  core me B k (set_collectors d (delete r (collectors d))).
Proof.
  intros [] Hp. split; simpl; try done.
  - intros id c Hc. apply lookup_delete_Some in Hc as [_ Hc]. eauto.
  - intros id Hid. destruct (core_emit0 id Hid). split; [done|]. apply lookup_delete_None. auto.
  - intros r' Hr'. rewrite lookup_delete_ne by congruence. auto.
Qed.

Lemma drop_one_inv now B d id :
  inv me B d -> B + 1 < 2 ^ 64 -> inv me (B + 1) (drop_one now ctx d id).
Proof.
  intros [Hc Hb] HB. unfold drop_one. case_bool_decide as Hp.
  - assert (Hf := forget_mine B d id Hc Hp). case_bool_decide; simpl.
    + split; [|done]. eapply core_weaken; [exact Hf|lia..].
    + by apply retry_pending_inv.
  - split; [|done]. eapply core_weaken; [by apply forget_other|lia..].
Qed.

Lemma drop_expired_inv now B d :
  inv me B d -> B + Z.of_nat (size (collectors d)) < 2 ^ 64 ->
  inv me (B + Z.of_nat (size (collectors d))) (drop_expired now d ctx).
Proof.
  intros Hi HB. unfold drop_expired.
  assert (Hl : (length (expired_ids now d) <= size (collectors d))%nat).
  { unfold expired_ids. rewrite length_fmap, <-length_map_to_list. apply length_filter. }
  set (n := size (collectors d)) in *. clearbody n. generalize dependent (expired_ids now d).
  intros ids. revert B d n Hi HB. induction ids as [|id ids IH]; intros B d n Hi HB Hl; simpl in *.
  - destruct Hi. split; [|done]. eapply core_weaken; eauto; lia.
  - replace (B + Z.of_nat n) with (B + 1 + Z.of_nat (n - 1)) by lia.
    apply IH; [|lia..]. apply drop_one_inv; [done|lia].
Qed.

Lemma participate_inv now d ch r ps dl n B :
  inv me B d -> 1 <= r <= cur d -> r ∉ emitted d -> pending_round_id d <> Some r ->
  inv me B (participate now d ch r ps dl n ctx).1.
Proof.
  intros [Hc Hb] Hr Hem Hp. unfold participate. destruct (negb _); [done|].
  destruct (compute_xor_share_secure _ _ _ _ _ _) as [s|]; [|done].
  pose proof (CollectorFacts.submit_share_wf _ (my_uid ctx) s (CollectorFacts.new_wf now ch r ps dl n)) as Hwf.
  destruct (RoundCollector.submit_share _ _ _) as [c res]. simpl in *.
  split; [|done]. destruct Hc. split; simpl; try done.
  - intros id c'. rewrite lookup_insert_Some. intros [[<- <-]|[_ Hc']]; [done|eauto].
  - intros id Hid. destruct (core_emit0 id Hid). split; [done|].
    rewrite lookup_insert_ne by (intros ->; done). done.
  - intros r' Hr'. rewrite lookup_insert_ne by congruence. auto.
Qed.

Lemma on_round_start_inv now d ch r leader ps dl n B :
  inv me B d -> B + 1 < 2 ^ 64 ->
  inv me (B + 1) (on_round_start now d ch r leader ps dl n ctx).1.
Proof.
  intros [Hc Hb] HB. pose proof (core_cur _ _ _ _ Hc) as Hcur.
  unfold on_round_start, RoundTracker.mark_seen. rewrite wrap64_small by lia.
  destruct (r =? _) eqn:Er; breflect.
  - subst r. apply participate_inv; simpl.
    + split; [|done]. apply core_tick; [done|lia].
    + lia.
    + intros Hin. apply (core_emit _ _ _ _ Hc) in Hin. lia.
    + intros (c & Hcoll & _)%(core_pend _ _ _ _ Hc). apply (core_coll _ _ _ _ Hc) in Hcoll. lia.
  - assert (Hw : inv me (B + 1) d) by (split; [eapply core_weaken; eauto; lia|done]).
    destruct (_ && _) eqn:Ec; [|done]. breflect. rename H2 into Hp.
    unfold abort_pending_round. rewrite Hp.
    destruct (core_pend _ _ _ _ Hc r Hp) as (c & Hcoll & _).
    destruct (core_coll _ _ _ _ Hc r c Hcoll) as [_ Hr].
    apply participate_inv; simpl; [|done| |done].
    + split; [|done]. apply (core_weaken _ B _ 2); [|lia..].
      destruct (forget_mine B d r Hc Hp). split; try done.
      unfold retry_budget in *. simpl in *. pose proof (b2z_range (retry_after_peer d)). lia.
    + intros Hin. apply (core_emit _ _ _ _ Hc) in Hin as [_ Hin]. congruence.
Qed.

(** What [finish_round] does to [emitted] keeps the core invariant once the collector is gone. *)
Lemma core_emit_add B k d r :
  core me B k d -> r <= cur d -> collectors d !! r = None ->
  core me B k (set_emitted d ({[r]} ∪ emitted d)).
Proof.
  intros [] Hr Hn. split; simpl; try done.
  intros id [->%elem_of_singleton|Hid]%elem_of_union; auto.
Qed.

Lemma retry_lost_conflict_inv now d ch ps r B :
  inv me B d -> B + 1 < 2 ^ 64 -> inv me (B + 1) (retry_lost_conflict now d ch r ps ctx).
Proof.
  intros [Hc Hb] HB. unfold retry_lost_conflict. case_bool_decide as Hr.
  - assert (Hc1 : core me B 1 (set_retry_after d None)).
    { destruct Hc. split; try done. unfold retry_budget in *. simpl in *. rewrite Hr in *. simpl in *. lia. }
    cbv zeta. case_bool_decide; [by apply retry_pending_inv|].
    split; [|done]. eapply core_weaken; eauto; lia.
  - split; [|done]. eapply core_weaken; eauto; lia.
Qed.

Lemma emit_extracted_cases d c ch r :
  (exists text, emit_extracted d c ch r =
     (set_emitted d ({[r]} ∪ emitted d), [mkExtracted ch text r], true) /\ r ∉ emitted d /\
     (RoundCollector.extract_message c ≫= fun p => unpad_message p ≫= from_utf8) = Some text) \/
  emit_extracted d c ch r = (d, [], false).
Proof.
  unfold emit_extracted. destruct (RoundCollector.extract_message c) as [p|]; [|by right].
  simpl. destruct (unpad_message p ≫= from_utf8) as [text|]; [|by right].
  case_bool_decide; [by right|]. left. eauto.
Qed.

Lemma emit_extracted_forget d c ch r :
  emit_extracted (set_my_share (set_pending d None) None false) c ch r =
    let '(d', ext, okb) := emit_extracted d c ch r in
    (set_my_share (set_pending d' None) None false, ext, okb).
Proof. unfold emit_extracted. simpl. repeat case_match; by simplify_eq. Qed.

(** The state in which [settle_mine] runs, after the emission and the removal. *)
Lemma emitted_removed B k d d' r ext okb c ch :
  emit_extracted d c ch r = (d', ext, okb) ->
  core me B k (set_collectors d (delete r (collectors d))) -> r <= cur d ->
  core me B k (set_collectors d' (delete r (collectors d'))).
Proof.
  intros E Hc Hr. destruct (emit_extracted_cases d c ch r) as [(text & E' & _ & _)|E'];
    rewrite E in E'; simplify_eq; [|done].
  apply (core_emit_add _ _ _ r Hc Hr), lookup_delete_eq.
Qed.

Lemma settle_mine_inv now d d' c ch r ps ext okb B :
  core me B 2 d -> r <= cur d -> emit_extracted d c ch r = (d', ext, okb) ->
  (pending_round_id d <> Some r -> my_share_broadcast d = false) -> B + 1 < 2 ^ 64 ->
  inv me (B + 1)
    (settle_mine now (set_collectors d' (delete r (collectors d')))
       (bool_decide (pending_round_id d = Some r)) okb ch ps ctx).
Proof.
  intros Hc Hr E Hb HB. unfold settle_mine. case_bool_decide as Hp.
  - assert (Hf := forget_mine B d r Hc Hp).
    change (set_my_share _ None false) with (set_collectors
      (set_my_share (set_pending d None) None false) (delete r (collectors d))) in Hf.
    assert (E' : emit_extracted (set_my_share (set_pending d None) None false) c ch r =
      (set_my_share (set_pending d' None) None false, ext, okb)).
    { by rewrite emit_extracted_forget, E. }
    apply (emitted_removed B 1 _ _ r _ _ c ch E') in Hf; [|done].
    destruct okb; cbn [negb].
    + split; [|done]. apply (core_weaken _ B _ 1); [|lia..]. destruct Hf; split; done.
    + apply (retry_pending_inv now _ ch _ B); [exact Hf|done|lia].
  - assert (Hf := forget_other B 2 d r Hc Hp).
    eapply emitted_removed in Hf; [|exact E|done].
    split; [apply (core_weaken _ B _ 2); [done|lia..]|].
    destruct (emit_extracted_cases d c ch r) as [(? & E' & _)|E']; rewrite E in E'; simplify_eq; by apply Hb.
Qed.

Lemma finish_round_inv now d c ch r B :
  core me B 2 d -> r <= cur d ->
  (pending_round_id d <> Some r -> my_share_broadcast d = false) -> B + 2 < 2 ^ 64 ->
  inv me (B + 2) (finish_round now d c ch r (bool_decide (pending_round_id d = Some r)) ctx).1.
Proof.
  intros Hc Hr Hb HB. unfold finish_round.
  destruct (emit_extracted d c ch r) as [[d' ext] okb] eqn:E. simpl.
  replace (B + 2) with (B + 1 + 1) by lia. apply retry_lost_conflict_inv; [|lia].
  eapply settle_mine_inv; eauto. lia.
Qed.

(** A submitted share keeps the invariant. *)
Lemma core_submit B k d r c u s :
  core me B k d -> collectors d !! r = Some c ->
  core me B k (set_collectors d (<[r := (RoundCollector.submit_share c u s).1]> (collectors d))).
Proof.
  intros [] Hr.
  assert (Hsame : RoundCollector.participants (RoundCollector.submit_share c u s).1 = RoundCollector.participants c /\
    RoundCollector.payload_len (RoundCollector.submit_share c u s).1 = RoundCollector.payload_len c).
  { destruct (CollectorFacts.submit_share_cases c u s) as [(c' & -> & -> & _)|(e & -> & _)]; done. }
  destruct Hsame as [Hps Hpl]. split; simpl; try done.
  - intros id c'. rewrite lookup_insert_Some. intros [[<- <-]|[_ Hc']]; [|eauto].
    destruct (core_coll0 r c Hr). split; [by apply CollectorFacts.submit_share_wf|done].
  - intros id Hid. destruct (core_emit0 id Hid). split; [done|].
    rewrite lookup_insert_ne by congruence. done.
  - intros r' Hr'. destruct (core_pend0 r' Hr') as (c' & Hc' & Hl & Hin).
    destruct (decide (r = r')) as [->|]; [|rewrite lookup_insert_ne by done; eauto].
    rewrite lookup_insert_eq. eexists. split_and!; [done|congruence|congruence].
Qed.

(** Our own share is the last one missing: submitting it completes the round. *)
Lemma last_share_completes c s :
  CollectorFacts.wf c -> RoundCollector.missing_participants c = [me] ->
  zlen s = RoundCollector.payload_len c ->
  RoundCollector.is_complete (RoundCollector.submit_share c me s).1 = true.
Proof.
  intros Hwf Hm Hl. assert (Hin : me ∈ RoundCollector.missing_participants c) by (rewrite Hm; by left).
  apply CollectorFacts.missing_spec in Hin as [Hp Hn].
  apply CollectorFacts.complete_no_missing; [by apply CollectorFacts.submit_share_wf|].
  destruct (CollectorFacts.submit_share_cases c me s) as [(c' & -> & -> & _)|(e & _ & [?|[[? ?]|?]])];
    [|congruence..].
  apply elem_of_nil_inv. intros u [Hu Hnu]%CollectorFacts.missing_spec. simpl in *.
  apply lookup_insert_None in Hnu as [Hnu Hne].
  assert (Hum : u ∈ RoundCollector.missing_participants c) by (by apply CollectorFacts.missing_spec).
  rewrite Hm in Hum. apply list_elem_of_singleton in Hum. congruence.
Qed.

Lemma on_round_share_inv now d ch r u s g B :
  inv me B d -> B + 2 < 2 ^ 64 ->
  inv me (B + 2) (on_round_share now d ch r u s g ctx).1.
Proof.
  intros [Hc Hb] HB. assert (Hw : inv me (B + 2) d) by (split; [eapply core_weaken; eauto; lia|done]).
  unfold on_round_share. destruct (negb _); [done|].
  destruct (collectors d !! r) as [c|] eqn:Hr; [|done].
  pose proof (core_submit B 2 d r c u s Hc Hr) as Hsub.
  pose proof (CollectorFacts.submit_share_wf c u s (proj1 (core_coll _ _ _ _ Hc r c Hr))) as Hwf.
  destruct (RoundCollector.submit_share c u s) as [c1 [[]|e]] eqn:Es; [|done].
  cbn [fst] in Hsub, Hwf. set (d1 := set_collectors d _) in *.
  assert (Hr1 : collectors d1 !! r = Some c1) by apply lookup_insert_eq.
  assert (Hrng : 1 <= r <= cur d1) by (apply (core_coll _ _ _ _ Hc r c Hr)).
  change (my_share_broadcast d1) with (my_share_broadcast d). rewrite Hb.
  change (pending_round_id d) with (pending_round_id d1). cbv zeta.
  destruct (_ && _) eqn:Ec; [destruct (my_share d1) as [[mine sig]|] eqn:Em|].
  - breflect. rename H2 into Hp.
    pose proof (core_submit B 2 d1 r c1 (my_uid ctx) mine Hsub Hr1) as Hsub2.
    destruct (core_pend _ _ _ _ Hsub r Hp) as (c1' & E1 & Hpl & Hin). rewrite Hr1 in E1. simplify_eq.
    pose proof (last_share_completes c1' mine Hwf) as Hlast.
    rewrite (core_share _ _ _ _ Hsub _ _ Em) in Hlast. specialize (Hlast H3 (eq_sym Hpl)).
    destruct (RoundCollector.submit_share c1' (my_uid ctx) mine) as [c2 res]. cbn [fst] in *.
    rewrite Hlast. set (d2 := set_collectors (set_my_share d1 _ true) _).
    assert (Hc2 : core me B 2 d2).
    { destruct Hsub2; split; try done.
      intros s' g' [= <- <-]. by apply (core_share _ _ _ _ Hsub _ _ Em). }
    pose proof (finish_round_inv now d2 c2 ch r B Hc2) as Hf.
    change (pending_round_id d2) with (pending_round_id d1) in Hf.
    destruct (finish_round now d2 c2 ch r _ ctx) as [d3 ext]. apply Hf; [simpl in *; lia|by intros []|lia].
  - destruct (RoundCollector.is_complete c1).
    + pose proof (finish_round_inv now d1 c1 ch r B Hsub) as Hf.
      destruct (finish_round now d1 c1 ch r _ ctx) as [d3 ext]. apply Hf; [lia|intros _; exact Hb|lia].
    + split; [|done]. eapply core_weaken; eauto; lia.
  - destruct (RoundCollector.is_complete c1).
    + pose proof (finish_round_inv now d1 c1 ch r B Hsub) as Hf.
      destruct (finish_round now d1 c1 ch r _ ctx) as [d3 ext]. apply Hf; [lia|intros _; exact Hb|lia].
    + split; [|done]. eapply core_weaken; eauto; lia.
Qed.

Lemma handle_inv now d msg B :
  inv me B d -> B + Z.of_nat (size (collectors d)) + 2 < 2 ^ 64 ->
  inv me (B + Z.of_nat (size (collectors d)) + 2) (handle now d msg ctx).1.
Proof.
  intros Hi HB. pose proof (drop_expired_inv now B d Hi) as Hd. unfold handle.
  set (B1 := B + Z.of_nat (size (collectors d))) in *.
  set (d1 := drop_expired now d ctx) in *. specialize (Hd ltac:(lia)). clearbody d1.
  assert (Hout : forall d', inv me (B1 + 2) d' -> inv me (B1 + 2) (set_outgoing d' []))
    by (intros d' [[] ?]; split; [split; done|done]).
  assert (Hw : forall d', inv me (B1 + 1) d' -> inv me (B1 + 2) d')
    by (intros d' [? ?]; split; [eapply core_weaken; eauto; lia|done]).
  assert (Hid : inv me (B1 + 2) d1) by (destruct Hd; split; [eapply core_weaken; eauto; lia|done]).
  destruct msg; try (by apply Hout).
  - pose proof (on_round_start_inv now d1 channel round_id leader_id participants deadline_secs payload_len B1 Hd) as Hs.
    destruct (on_round_start _ _ _ _ _ _ _ _ _) as [d2 act]. apply Hout, Hw, Hs. lia.
  - pose proof (on_round_share_inv now d1 channel round_id peer_uid xored_payload signature B1 Hd) as Hs.
    destruct (on_round_share _ _ _ _ _ _ _ _) as [d2 act]. apply Hout, Hs. lia.
Qed.

(** ** What is emitted *)

Lemma initiate_emitted now d ch text ps : emitted (initiate now d ch text ps ctx).1 = emitted d.
Proof. unfold initiate. repeat case_match; simpl; by simplify_eq. Qed.

Lemma retry_pending_emitted now d ch ps : emitted (retry_pending now d ch ps ctx) = emitted d.
Proof.
  unfold retry_pending. repeat (case_match; [done|]). destruct (pending_message _) as [text|]; [|done].
  pose proof (initiate_emitted now (set_retries d (retries d +₃₂ 1)) ch (from_utf8_lossy text) ps) as Hi.
  by destruct (initiate _ _ _ _ _ _) as [d' [out|e]].
Qed.

Lemma settle_mine_emitted now d mine okb ch ps :
  emitted (settle_mine now d mine okb ch ps ctx) = emitted d.
Proof. unfold settle_mine. destruct mine, okb; cbn [negb]; rewrite ?retry_pending_emitted; done. Qed.

Lemma retry_lost_conflict_emitted now d ch r ps :
  emitted (retry_lost_conflict now d ch r ps ctx) = emitted d.
Proof.
  unfold retry_lost_conflict. repeat case_bool_decide; rewrite ?retry_pending_emitted; done.
Qed.

Lemma drop_expired_emitted now d : emitted (drop_expired now d ctx) = emitted d.
Proof.
  unfold drop_expired. generalize (expired_ids now d). intros ids. revert d.
  induction ids as [|id ids IH]; intros d; simpl; [done|]. rewrite IH. unfold drop_one.
  repeat case_bool_decide; simpl; try done; by rewrite retry_pending_emitted.
Qed.

Lemma finish_round_emitted now d c ch r mine d' ext :
  finish_round now d c ch r mine ctx = (d', ext) ->
  (ext = [] /\ emitted d' = emitted d) \/
  (exists text, ext = [mkExtracted ch text r] /\ r ∉ emitted d /\ emitted d' = {[r]} ∪ emitted d /\
     (RoundCollector.extract_message c ≫= fun p => unpad_message p ≫= from_utf8) = Some text).
Proof.
  unfold finish_round. destruct (emit_extracted d c ch r) as [[d1 ext1] okb] eqn:E.
  intros [= <- <-].
  rewrite retry_lost_conflict_emitted, settle_mine_emitted. cbn [emitted set_collectors].
  destruct (emit_extracted_cases d c ch r) as [(text & E' & Hn & Ht)|E'];
    rewrite E in E'; simplify_eq; [right; eauto 6|by left].
Qed.

Lemma on_round_share_emitted now d ch r u s g d' act :
  on_round_share now d ch r u s g ctx = (d', act) ->
  (extracted act = [] /\ emitted d' = emitted d) \/
  (exists text, extracted act = [mkExtracted ch text r] /\ r ∉ emitted d /\
     emitted d' = {[r]} ∪ emitted d).
Proof.
  unfold on_round_share. destruct (negb _); [intros [= <- <-]; by left|].
  destruct (collectors d !! r) as [c|]; [|intros [= <- <-]; by left].
  destruct (RoundCollector.submit_share c u s) as [c1 [[]|e]]; [|intros [= <- <-]; by left].
  cbv zeta. set (x := if _ && _ && _ then _ else _).
  assert (Hx : emitted x.1.1 = emitted d) by (unfold x; repeat case_match; done).
  clearbody x. destruct x as [[d2 c2] out]. simpl in Hx.
  destruct (RoundCollector.is_complete c2); [|intros [= <- <-]; by left].
  destruct (finish_round _ _ _ _ _ _ _) as [d3 ext] eqn:Ef. intros [= <- <-]. simpl.
  apply finish_round_emitted in Ef as [[-> ->]|(text & -> & Hn & -> & _)]; rewrite <-Hx; eauto.
Qed.

Lemma handle_emitted now d msg d' act :
  handle now d msg ctx = (d', act) ->
  (extracted act = [] /\ emitted d' = emitted d) \/
  (exists x, extracted act = [x] /\ ex_round_id x ∉ emitted d /\
     emitted d' = {[ex_round_id x]} ∪ emitted d).
Proof.
  unfold handle. set (d1 := drop_expired now d ctx).
  assert (Hd1 : emitted d1 = emitted d) by apply drop_expired_emitted. clearbody d1.
  destruct msg; try (intros [= <- <-]; simpl; by left).
  - destruct (on_round_start _ _ _ _ _ _ _ _ _) as [d2 act2] eqn:E. intros [= <- <-]. simpl. left.
    revert E. unfold on_round_start, participate, abort_pending_round.
    repeat case_match; intros; by simplify_eq/=.
  - destruct (on_round_share _ _ _ _ _ _ _ _) as [d2 act2] eqn:E. intros [= <- <-]. simpl.
    apply on_round_share_emitted in E as [[-> ->]|(text & -> & Hn & ->)]; [left; done|right].
    eexists. split_and!; [done|by rewrite <-Hd1|by rewrite Hd1].
Qed.

End Preservation.

(** ** Every interleaving of calls *)

(** The counter cannot wrap in the next call. *)
Definition room (d : t) : Prop := cur d + Z.of_nat (size (collectors d)) + 2 < 2 ^ 64.

(** States reachable from a new driver by the calls of a node called [me], with the round ids of
    the messages handed to the user on the way. *)
Inductive reachable `{Crypto} (me : string) : t -> list Z -> Prop :=
| reach_new now : reachable me (new now) []
| reach_initiate d tr now ch text ps ctx :
    reachable me d tr -> my_uid ctx = me -> room d ->
    reachable me (initiate now d ch text ps ctx).1 tr
| reach_handle d tr now msg ctx :
    reachable me d tr -> my_uid ctx = me -> room d ->
    reachable me (handle now d msg ctx).1
      (tr ++ (ex_round_id <$> extracted (handle now d msg ctx).2))
| reach_drain d tr : reachable me d tr -> reachable me (drain_pending_outgoing d).1 tr.

Lemma inv_tighten me B d : inv me B d -> inv me (cur d) d.
Proof. intros [[] ?]. split; [|done]. split; try done; lia. Qed.

Lemma reachable_inv `{Crypto, !ShaLaws, !HkdfLaws} me d tr : reachable me d tr -> inv me (cur d) d.
Proof.
  induction 1 as [|d tr now ch text ps ctx Hr IH <- Hroom|d tr now msg ctx Hr IH <- Hroom|d tr Hr IH].
  - apply new_inv.
  - eapply inv_tighten, initiate_inv; [done|]. unfold room in Hroom. lia.
  - eapply inv_tighten, handle_inv; done.
  - destruct IH as [[] ?]. split; [split|]; done.
Qed.

(** ** One round, message by message *)

Section Messages.
Context `{Crypto, !ShaLaws, !HkdfLaws}.
Variable ctx : RoundContext.
Local Abbreviation me := (my_uid ctx).

Lemma drop_expired_none now d :
  map_Forall (fun _ c => RoundCollector.is_expired now c = false) (collectors d) ->
  drop_expired now d ctx = d.
Proof.
  intros HF. unfold drop_expired. replace (expired_ids now d) with (@nil Z); [done|].
  symmetry. unfold expired_ids. apply elem_of_nil_inv.
  intros id ([id' c] & _ & [He Hin]%list_elem_of_filter)%list_elem_of_fmap. apply elem_of_map_to_list in Hin.
  apply HF in Hin. simpl in *. congruence.
Qed.

Lemma set_outgoing_nil d : pending_outgoing d = [] -> set_outgoing d [] = d.
Proof. destruct d; simpl; by intros ->. Qed.

(** Waiting for shares of round [r] in collector [c], everything else idle. *)
Record waiting (r : Z) (c : RoundCollector) (d : t) : Prop := {
  wt_coll : collectors d = {[ r := c ]};
  wt_out : pending_outgoing d = [];
  wt_retry : retry_after_peer d = None;
  wt_emit : r ∉ emitted d;
}.

Lemma handle_share_wait now d ch r c c' u s g :
  waiting r c d -> RoundCollector.is_expired now c = false ->
  share_admitted ctx ch r u s g = true -> RoundCollector.submit_share c u s = (c', Ok tt) ->
  (pending_round_id d = Some r -> RoundCollector.missing_participants c' <> [me]) ->
  RoundCollector.is_complete c' = false ->
  handle now d (DcRoundShare ch r u s g) ctx = (set_collectors d {[ r := c' ]}, no_action).
Proof.
  intros [Hc Ho _ _] Hx Ha Hs Hm Hn. unfold handle.
  rewrite drop_expired_none by (rewrite Hc; by apply map_Forall_singleton).
  unfold on_round_share. rewrite Ha, Hc, lookup_singleton_eq, Hs. cbn [negb].
  rewrite insert_singleton_eq. cbn [my_share_broadcast set_collectors].
  replace (_ && bool_decide _) with false.
  2: { symmetry. rewrite (bool_decide_decide (RoundCollector.missing_participants _ = _)).
       destruct (decide _); [|by rewrite andb_false_r].
       rewrite bool_decide_eq_false_2; [done|]. naive_solver. }
  rewrite Hn. simpl. rewrite Ho. f_equal. by apply set_outgoing_nil.
Qed.

(** The collector is complete and holds the text. *)
Definition holds (c : RoundCollector) (text : string) : Prop :=
  RoundCollector.is_complete c = true /\
  (RoundCollector.extract_message c ≫= fun p => unpad_message p ≫= from_utf8) = Some text.

Lemma emit_holds d c ch r text :
  holds c text -> r ∉ emitted d ->
  emit_extracted d c ch r = (set_emitted d ({[r]} ∪ emitted d), [mkExtracted ch text r], true).
Proof.
  intros [_ E] Hn. unfold emit_extracted. destruct (RoundCollector.extract_message c); [|done].
  simpl in E. rewrite E. by rewrite bool_decide_eq_false_2.
Qed.

Lemma handle_share_final now d ch r c c' u s g text :
  waiting r c d -> pending_round_id d = None -> RoundCollector.is_expired now c = false ->
  share_admitted ctx ch r u s g = true -> RoundCollector.submit_share c u s = (c', Ok tt) ->
  holds c' text ->
  handle now d (DcRoundShare ch r u s g) ctx =
    (set_emitted (set_collectors d ∅) ({[r]} ∪ emitted d),
     {| extracted := [mkExtracted ch text r]; outgoing := [] |}).
Proof.
  intros [Hc Ho Hr He] Hp Hx Ha Hs Hh. unfold handle.
  rewrite drop_expired_none by (rewrite Hc; by apply map_Forall_singleton).
  unfold on_round_share. rewrite Ha, Hc, lookup_singleton_eq, Hs, Hp. cbn [negb].
  rewrite insert_singleton_eq, bool_decide_eq_false_2 by done. cbn [andb].
  rewrite (proj1 Hh). unfold finish_round. rewrite (emit_holds _ _ _ _ text) by done.
  unfold settle_mine, retry_lost_conflict.
  cbn [retry_after_peer set_collectors set_emitted collectors emitted].
  rewrite Hr, bool_decide_eq_false_2 by done. rewrite delete_singleton_eq. simpl. rewrite Ho.
  f_equal. destruct d; simpl in *. by rewrite Ho.
Qed.

(** The last foreign share of our own round: we broadcast our share and the round is over. *)
Lemma handle_share_mine now d ch r c c' u s g mine sig text :
  waiting r c d -> pending_round_id d = Some r -> my_share d = Some (mine, sig) ->
  my_share_broadcast d = false -> RoundCollector.is_expired now c = false ->
  share_admitted ctx ch r u s g = true -> RoundCollector.submit_share c u s = (c', Ok tt) ->
  RoundCollector.missing_participants c' = [me] ->
  holds (RoundCollector.submit_share c' me mine).1 text ->
  handle now d (DcRoundShare ch r u s g) ctx =
    (mk (tracker d) None None (retries d) ∅ ({[r]} ∪ emitted d) None false [] None,
     {| extracted := [mkExtracted ch text r];
        outgoing := to_others me (elements (RoundCollector.participants c'))
                      (DcRoundShare ch r me mine sig) |}).
Proof.
  intros [Hc Ho Hr He] Hp Hsh Hb Hx Ha Hs Hm Hh. unfold handle.
  rewrite drop_expired_none by (rewrite Hc; by apply map_Forall_singleton).
  unfold on_round_share. rewrite Ha, Hc, lookup_singleton_eq, Hs, Hp. cbn [negb].
  rewrite !insert_singleton_eq, !bool_decide_eq_true_2 by done.
  cbn [andb my_share_broadcast set_collectors my_share]. rewrite Hb, Hsh. cbn [andb negb].
  assert (Hps : RoundCollector.participants (RoundCollector.submit_share c' me mine).1 =
    RoundCollector.participants c').
  { destruct (CollectorFacts.submit_share_cases c' me mine) as [(? & -> & -> & _)|(? & -> & _)]; done. }
  destruct (RoundCollector.submit_share c' me mine) as [c2 res]. cbn [fst] in *.
  rewrite (proj1 Hh). unfold finish_round. rewrite (emit_holds _ _ _ _ text) by done.
  unfold settle_mine, retry_lost_conflict, build_round_share.
  cbn. rewrite Hr, bool_decide_eq_false_2 by done. rewrite ?insert_singleton_eq, ?delete_singleton_eq, ?Ho, ?Hps; simpl.
  rewrite ?Ho, ?app_nil_r. f_equal. destruct d; simpl in *; subst.
  cbv [set_outgoing set_message set_my_share set_pending set_collectors set_emitted tracker
       pending_message pending_round_id retries collectors emitted my_share my_share_broadcast
       pending_outgoing retry_after_peer].
  by rewrite ?insert_singleton_eq, ?delete_singleton_eq.
Qed.

(** A duplicate-free list with exactly one element. *)
Lemma NoDup_singleton_iff (l : list string) x : NoDup l -> (forall y, y ∈ l <-> y = x) -> l = [x].
Proof.
  intros Hnd Hl. assert (Hp : l ≡ₚ [x]).
  { apply NoDup_Permutation; [done|apply NoDup_singleton|]. intros y.
    rewrite Hl, list_elem_of_singleton. done. }
  by apply Permutation_singleton_r in Hp.
Qed.

Lemma cons_minus (m u x : string) k :
  m ∉ u :: k -> u ∉ k -> (x = m \/ x ∈ u :: k) /\ x <> u <-> x = m \/ x ∈ k.
Proof.
  rewrite not_elem_of_cons, elem_of_cons. intros [? ?] ?. split; [naive_solver|].
  intros [->|Hx]; split; auto; congruence.
Qed.

(** Handling a list of timed messages. *)
Fixpoint handles (d : t) (evs : list (Z * PeerMessage)) : t * list RoundAction :=
  match evs with
  | [] => (d, [])
  | (now, msg) :: evs' =>
      let '(d1, act) := handle now d msg ctx in
      let '(d2, acts) := handles d1 evs' in
      (d2, act :: acts)
  end.

(** The arrivals [(now, u)] of the shares of round [r]. *)
Section Arrivals.
Variables (ch : string) (r : Z) (share sig : string -> bytes).

Definition share_event (a : Z * string) : Z * PeerMessage :=
  (a.1, DcRoundShare ch r a.2 (share a.2) (sig a.2)).

Definition with_share (u : string) : string * bytes := (u, share u).

(** Every arrival is in time, from a participant not yet heard, well formed and admitted. *)
Definition arrivals_ok (c : RoundCollector) (arr : list (Z * string)) : Prop :=
  NoDup arr.*2 /\ forall now u, (now, u) ∈ arr ->
    RoundCollector.is_expired now c = false /\ u ∈ RoundCollector.participants c /\
    RoundCollector.shares_received c !! u = None /\ zlen (share u) = RoundCollector.payload_len c /\
    share_admitted ctx ch r u (share u) (sig u) = true.

(** Accepting the first arrival leaves the others acceptable. *)
Lemma arrivals_ok_step c now u arr :
  CollectorFacts.wf c -> arrivals_ok c ((now, u) :: arr) ->
  exists c', RoundCollector.submit_share c u (share u) = (c', Ok tt) /\ CollectorFacts.wf c' /\
    arrivals_ok c' arr /\
    CollectorFacts.submit_all c (with_share <$> u :: arr.*2) = CollectorFacts.submit_all c' (with_share <$> arr.*2) /\
    (forall x, x ∈ RoundCollector.missing_participants c' <-> x ∈ RoundCollector.missing_participants c /\ x <> u).
Proof.
  intros Hwf [Hnd Hall]. destruct (Hall now u) as (_ & Hin & Hnone & Hl & _); [by left|].
  pose proof (CollectorFacts.submit_share_wf c u (share u) Hwf) as Hwf'.
  destruct (CollectorFacts.submit_share_cases c u (share u)) as [(c' & E & -> & _)|(e & _ & [?|[[? ?]|?]])];
    [|congruence..].
  rewrite E in Hwf'. eexists. split_and!; [exact E|done| | |].
  - simpl in Hnd. apply NoDup_cons in Hnd as [Hu Hnd]. split; [done|]. intros now' v Hv.
    destruct (Hall now' v) as (? & ? & ? & ? & ?); [by right|]. split_and!; try done. simpl.
    rewrite lookup_insert_ne; [done|]. intros ->. apply Hu. apply list_elem_of_fmap. by exists (now', v).
  - simpl. by rewrite E.
  - intros x. rewrite !CollectorFacts.missing_spec. simpl. rewrite lookup_insert_None. naive_solver.
Qed.

Lemma missing_incomplete c x :
  CollectorFacts.wf c -> x ∈ RoundCollector.missing_participants c -> RoundCollector.is_complete c = false.
Proof.
  intros Hwf Hx. apply not_true_iff_false. rewrite CollectorFacts.complete_no_missing by done.
  intros Hm. rewrite Hm in Hx. by apply not_elem_of_nil in Hx.
Qed.

Lemma arrival_missing c now u arr :
  arrivals_ok c ((now, u) :: arr) -> u ∈ RoundCollector.missing_participants c.
Proof.
  intros [_ Hall]. destruct (Hall now u) as (_ & ? & ? & _); [by left|].
  by apply CollectorFacts.missing_spec.
Qed.

Lemma waiting_step c c' d : waiting r c d -> waiting r c' (set_collectors d {[ r := c' ]}).
Proof. intros []. by split. Qed.

(** A neutral participant stays silent until the last share and then hands out the text. *)
Lemma neutral_run c d now0 u0 arr text :
  waiting r c d -> pending_round_id d = None -> CollectorFacts.wf c ->
  arrivals_ok c ((now0, u0) :: arr) ->
  holds (CollectorFacts.submit_all c (with_share <$> u0 :: arr.*2)) text ->
  handles d (share_event <$> (now0, u0) :: arr) =
    (set_emitted (set_collectors d ∅) ({[r]} ∪ emitted d),
     replicate (length arr) no_action ++ [{| extracted := [mkExtracted ch text r]; outgoing := [] |}]).
Proof.
  revert c d now0 u0. induction arr as [|[now1 u1] arr IH]; intros c d now0 u0 Hw Hp Hwf Hok Hh.
  - destruct (arrivals_ok_step c now0 u0 [] Hwf Hok) as (c' & Es & Hwf' & _ & Ea & _).
    destruct Hok as [_ Hall]. destruct (Hall now0 u0) as (? & _ & _ & _ & ?); [by left|].
    cbn [fmap list_fmap handles share_event fst snd].
    erewrite handle_share_final; [|exact Hw|done|done|done|exact Es|]; [done|].
    rewrite Ea in Hh. exact Hh.
  - destruct (arrivals_ok_step c now0 u0 _ Hwf Hok) as (c' & Es & Hwf' & Hok' & Ea & _).
    destruct Hok as [_ Hall]. destruct (Hall now0 u0) as (? & _ & _ & _ & ?); [by left|].
    rewrite fmap_cons. cbn [handles]. unfold share_event at 1. cbn [fst snd].
    erewrite handle_share_wait; [|exact Hw|done|done|exact Es|congruence|].
    2: { eapply missing_incomplete; [done|by eapply arrival_missing]. }
    rewrite (IH c'); [done|by eapply waiting_step|done|done|done|].
    rewrite Ea in Hh. exact Hh.
Qed.

(** The initiator stays silent until the last foreign share, then broadcasts its own. *)
Lemma initiator_run c d now0 u0 arr mine sg text :
  waiting r c d -> pending_round_id d = Some r -> my_share d = Some (mine, sg) ->
  my_share_broadcast d = false -> CollectorFacts.wf c ->
  arrivals_ok c ((now0, u0) :: arr) ->
  (forall x, x ∈ RoundCollector.missing_participants c <-> x = me \/ x ∈ u0 :: arr.*2) ->
  me ∉ u0 :: arr.*2 ->
  holds (RoundCollector.submit_share (CollectorFacts.submit_all c (with_share <$> u0 :: arr.*2)) me mine).1 text ->
  handles d (share_event <$> (now0, u0) :: arr) =
    (mk (tracker d) None None (retries d) ∅ ({[r]} ∪ emitted d) None false [] None,
     replicate (length arr) no_action ++
     [{| extracted := [mkExtracted ch text r];
         outgoing := to_others me (elements (RoundCollector.participants c)) (DcRoundShare ch r me mine sg) |}]).
Proof.
  revert c d now0 u0. induction arr as [|[now1 u1] arr IH];
    intros c d now0 u0 Hw Hp Hs Hb Hwf Hok Hmiss Hme Hh.
  - destruct (arrivals_ok_step c now0 u0 [] Hwf Hok) as (c' & Es & Hwf' & _ & Ea & Hm').
    destruct Hok as [_ Hall]. destruct (Hall now0 u0) as (? & _ & _ & _ & ?); [by left|].
    assert (Hpart : RoundCollector.participants c' = RoundCollector.participants c).
    { destruct (CollectorFacts.submit_share_cases c u0 (share u0)) as [(? & E & -> & _)|(? & E & _)];
        rewrite Es in E; by simplify_eq. }
    cbn [fmap list_fmap handles share_event fst snd].
    erewrite handle_share_mine; [|exact Hw|done|done|done|done|done|exact Es| |].
    + by rewrite Hpart.
    + apply NoDup_singleton_iff. { apply NoDup_filter, NoDup_elements. }
      intros x. rewrite Hm', Hmiss, cons_minus; [|done|by apply not_elem_of_nil].
      split; [intros [?|?%not_elem_of_nil]; done|by left].
    + rewrite Ea in Hh. exact Hh.
  - destruct (arrivals_ok_step c now0 u0 _ Hwf Hok) as (c' & Es & Hwf' & Hok' & Ea & Hm').
    destruct Hok as [Hnd Hall]. destruct (Hall now0 u0) as (? & _ & _ & _ & ?); [by left|].
    assert (Hpart : RoundCollector.participants c' = RoundCollector.participants c).
    { destruct (CollectorFacts.submit_share_cases c u0 (share u0)) as [(? & E & -> & _)|(? & E & _)];
        rewrite Es in E; by simplify_eq. }
    assert (Hu1 : u1 ∈ RoundCollector.missing_participants c') by (by eapply arrival_missing).
    rewrite fmap_cons. cbn [handles]. unfold share_event at 1. cbn [fst snd].
    erewrite handle_share_wait; [|exact Hw|done|done|exact Es| |by eapply missing_incomplete].
    2: { intros _ E. rewrite E in Hu1. apply list_elem_of_singleton in Hu1 as ->.
         apply Hme. right. left. }
    rewrite (IH c'); [by rewrite Hpart|by eapply waiting_step|done|done|done|done|done| | |].
    + intros x. rewrite Hm', Hmiss. simpl in Hnd. apply NoDup_cons in Hnd as [Hnd _].
      by apply cons_minus.
    + by apply not_elem_of_cons in Hme as [_ Hme].
    + rewrite Ea in Hh. exact Hh.
Qed.

End Arrivals.
End Messages.
(** ** A complete mesh round *)

(** The context of participant [u]: its edge keys, its signing key, and of the other identity
    keys the true ones or none. *)
Record honest_ctx `{Crypto} (keys : string -> gmap string bytes) (sk : string -> bytes) (u : string)
    (ctx : RoundContext) : Prop := {
  hc_uid : my_uid ctx = u;
  hc_edge : edge_keys ctx = keys u;
  hc_sk : ctx_signing_key ctx = sk u;
  hc_known : forall w k, known_keys ctx !! w = Some k -> k = hex_encode (ed_public (sk w));
}.

(** No round in flight and [r] is the next round. *)
Record idle (r : Z) (d : t) : Prop := {
  idle_cur : cur d + 1 = r;
  idle_range : 1 <= r < 2 ^ 64;
  idle_coll : collectors d = ∅;
  idle_pend : pending_round_id d = None;
  idle_out : pending_outgoing d = [];
  idle_retry : retry_after_peer d = None;
  idle_emit : r ∉ emitted d;
  idle_bc : my_share_broadcast d = false;
}.

Section Mesh.
Context `{Crypto, !ShaLaws, !HkdfLaws, !EdLaws}.
Variables (keys : string -> gmap string bytes) (sk : string -> bytes)
  (ps : list string) (init text ch : string) (r n t0 : Z).
Hypotheses
  (Hnd : NoDup ps) (Hkeys : edge_keys_agree ps keys) (Htwo : 2 <= zlen ps) (Hinit : init ∈ ps)
  (Htext : str_ok text) (Hfit : slen text + 36 <= n) (Hn : 4 <= n <= 65536).

Definition mesh_msg (u : string) : option bytes :=
  if bool_decide (u = init) then Some (string_bytes text) else None.

Definition mesh_share : string -> bytes :=
  round_share ps n (pair_pad keys r n) mesh_msg.

Definition mesh_sig (u : string) : bytes := sign_share (sk u) ch r (mesh_share u).

Lemma mesh_msg_fits u m : u ∈ ps -> mesh_msg u = Some m -> 36 + zlen m <= n.
Proof.
  intros _. unfold mesh_msg. case_bool_decide; [|done]. intros [= <-].
  rewrite zlen_string_bytes. lia.
Qed.

Lemma mesh_share_computed u :
  u ∈ ps -> compute_xor_share_secure r u ps (mesh_msg u) n (keys u) = Some (mesh_share u).
Proof. intros Hu. apply compute_share_round; try done; [lia|apply mesh_msg_fits]. Qed.

Lemma mesh_share_zlen u : u ∈ ps -> zlen (mesh_share u) = n.
Proof. intros Hu. eapply compute_share_length; [lia|by apply mesh_share_computed]. Qed.

(** Everybody's shares in any order make a complete collector that extracts the frame. *)
Lemma mesh_extract now order :
  order ≡ₚ ps ->
  let c := CollectorFacts.submit_all (RoundCollector.new now ch r ps CHANNEL_ROUND_DEADLINE_SECS n)
             (with_share mesh_share <$> order) in
  RoundCollector.is_complete c = true /\
  RoundCollector.extract_message c = Some (frame (string_bytes text) n) /\
  unpad_message (frame (string_bytes text) n) = Some (string_bytes text).
Proof.
  intros Hord. destruct (round_extract keys ps r n mesh_msg now ch CHANNEL_ROUND_DEADLINE_SECS order)
    as (Hc & _ & E); try done; [apply mesh_msg_fits|].
  split_and!; [exact Hc| |].
  - unfold with_share, mesh_share. rewrite E.
    rewrite (single_embedded ps n init (string_bytes text)); try done. rewrite zlen_string_bytes. lia.
  - apply unpad_frame_msg. rewrite zlen_string_bytes. lia.
Qed.

Lemma mesh_holds now order :
  order ≡ₚ ps ->
  holds (CollectorFacts.submit_all (RoundCollector.new now ch r ps CHANNEL_ROUND_DEADLINE_SECS n)
    (with_share mesh_share <$> order)) text.
Proof.
  intros Hord. destruct (mesh_extract now order Hord) as (Hc & E & Hu). split; [exact Hc|].
  rewrite E. cbn [mbind option_bind]. rewrite Hu. by apply from_utf8_str.
Qed.

Lemma honest_admits ctx v u :
  honest_ctx keys sk v ctx -> share_admitted ctx ch r u (mesh_share u) (mesh_sig u) = true.
Proof.
  intros Hc. unfold share_admitted. destruct (known_keys ctx !! u) as [k|] eqn:Ek; [|done].
  rewrite (hc_known _ _ _ _ Hc _ _ Ek). unfold parse_verifying_key.
  rewrite hex_decode_encode by apply ed_public_bytes_ok. simpl. unfold array32.
  rewrite bool_decide_eq_true_2 by apply ed_public_length. simpl. rewrite ed_public_parses.
  unfold verify_share_signature, mesh_sig, sign_share. rewrite ed_sign_parses. apply ed_verify_sign.
Qed.

Lemma mesh_arrivals_ok ctx v c arr :
  honest_ctx keys sk v ctx -> NoDup arr.*2 ->
  RoundCollector.participants c = list_to_set ps -> RoundCollector.payload_len c = n ->
  RoundCollector.deadline c = t0 + from_secs CHANNEL_ROUND_DEADLINE_SECS ->
  (forall now u, (now, u) ∈ arr -> now < t0 + from_secs CHANNEL_ROUND_DEADLINE_SECS) ->
  (forall u, u ∈ arr.*2 -> u ∈ ps /\ RoundCollector.shares_received c !! u = None) ->
  arrivals_ok ctx ch r mesh_share mesh_sig c arr.
Proof.
  intros Hc Hnda Hp Hl Hdl Ht Hall. split; [done|]. intros now u Hin.
  destruct (Hall u) as [Hu Hnone]; [apply list_elem_of_fmap; by exists (now, u)|].
  split_and!; [|rewrite Hp; by apply elem_of_list_to_set|done| |].
  - unfold RoundCollector.is_expired. apply Z.leb_gt. rewrite Hdl. eauto.
  - rewrite Hl. by apply mesh_share_zlen.
  - by eapply honest_admits.
Qed.

End Mesh.

Section MeshDriver.
Context `{Crypto, !ShaLaws, !HkdfLaws, !EdLaws}.
Variables (keys : string -> gmap string bytes) (sk : string -> bytes)
  (ps : list string) (init text ch : string) (r t0 : Z).
Hypotheses
  (Hkeys : edge_keys_agree ps keys) (Htwo : 2 <= zlen ps) (Hinit : init ∈ ps)
  (Hfit : slen text + 36 <= CHANNEL_PAYLOAD_LEN).
Local Abbreviation share := (mesh_share keys ps init text r CHANNEL_PAYLOAD_LEN).
Local Abbreviation sig := (mesh_sig keys sk ps init text ch r CHANNEL_PAYLOAD_LEN).

Lemma idle_no_expired ctx now d : idle r d -> drop_expired now d ctx = d.
Proof. intros Hi. apply drop_expired_none. rewrite (idle_coll _ _ Hi). apply map_Forall_empty. Qed.

(** The start reaches a participant other than the initiator. *)
Lemma mesh_start ctx v d :
  honest_ctx keys sk v ctx -> v ∈ ps -> v <> init -> idle r d ->
  exists c d1,
    handle t0 d (DcRoundStart ch r init ps CHANNEL_ROUND_DEADLINE_SECS CHANNEL_PAYLOAD_LEN) ctx =
      (d1, {| extracted := [];
              outgoing := to_others v ps (DcRoundShare ch r v (share v) (sig v)) |}) /\
    waiting r c d1 /\ pending_round_id d1 = None /\ emitted d1 = emitted d /\
    c = CollectorFacts.submit_all (RoundCollector.new t0 ch r ps CHANNEL_ROUND_DEADLINE_SECS CHANNEL_PAYLOAD_LEN)
          [(v, share v)].
Proof.
  intros Hc Hv Hne Hi. unfold handle. rewrite idle_no_expired by done.
  unfold on_round_start, RoundTracker.mark_seen.
  pose proof (idle_range _ _ Hi). pose proof (idle_cur _ _ Hi) as Hcur.
  rewrite Hcur, wrap64_small, Z.eqb_refl by lia.
  unfold participate. rewrite (hc_uid _ _ _ _ Hc), (hc_edge _ _ _ _ Hc), (hc_sk _ _ _ _ Hc).
  rewrite bool_decide_eq_true_2 by done. cbn [negb].
  assert (Hm : mesh_msg init text v = None) by (unfold mesh_msg; by rewrite bool_decide_eq_false_2).
  rewrite <-Hm, (mesh_share_computed keys ps init text r CHANNEL_PAYLOAD_LEN) by done. cbn [CollectorFacts.submit_all foldl fst snd].
  destruct (RoundCollector.submit_share _ v (share v)) as [c res] eqn:Es.
  eexists. eexists. split_and!.
  - cbn. rewrite (idle_out _ _ Hi), app_nil_r. reflexivity.
  - split; simpl; [by rewrite (idle_coll _ _ Hi)|done|apply Hi|apply Hi].
  - apply Hi.
  - done.
  - done.
Qed.

(** The initiator's side of the start. *)
Lemma mesh_initiate ctx d :
  honest_ctx keys sk init ctx -> idle r d ->
  exists d1,
    initiate t0 d ch text ps ctx =
      (d1, Ok (to_others init ps
        (DcRoundStart ch r init ps CHANNEL_ROUND_DEADLINE_SECS CHANNEL_PAYLOAD_LEN))) /\
    waiting r (RoundCollector.new t0 ch r ps CHANNEL_ROUND_DEADLINE_SECS CHANNEL_PAYLOAD_LEN) d1 /\
    pending_round_id d1 = Some r /\ my_share d1 = Some (share init, sig init) /\
    my_share_broadcast d1 = false /\ pending_message d1 = Some (string_bytes text).
Proof.
  intros Hc Hi. unfold initiate. pose proof (idle_range _ _ Hi). pose proof (idle_cur _ _ Hi) as Hcur.
  rewrite Z.gtb_ltb, (proj2 (Z.ltb_ge _ _)) by lia.
  rewrite (hc_uid _ _ _ _ Hc), (hc_edge _ _ _ _ Hc), (hc_sk _ _ _ _ Hc).
  rewrite (proj2 (Z.ltb_ge _ _)), bool_decide_eq_true_2 by (done || lia). cbn [orb negb].
  unfold RoundTracker.next_round. rewrite Hcur, wrap64_small by lia.
  assert (Hm : mesh_msg init text init = Some (string_bytes text)) by (unfold mesh_msg; by rewrite bool_decide_eq_true_2).
  rewrite <-Hm, (mesh_share_computed keys ps init text r CHANNEL_PAYLOAD_LEN) by done. eexists. split_and!; [reflexivity| |done..|done].
  split; simpl; [by rewrite (idle_coll _ _ Hi)|apply Hi..].
Qed.

End MeshDriver.

Lemma others_perm v (ps : list string) : NoDup ps -> v ∈ ps -> v :: others v ps ≡ₚ ps.
Proof.
  intros Hnd Hv. apply NoDup_Permutation; [|done|].
  - apply NoDup_cons. split; [|by apply NoDup_filter]. intros [? _]%elem_of_others. done.
  - intros x. rewrite elem_of_cons, elem_of_others. destruct (decide (x = v)); naive_solver.
Qed.

Lemma two_members (u v : string) ps : u ∈ ps -> v ∈ ps -> v <> u -> 2 <= zlen ps.
Proof.
  intros Hu Hv Hne. destruct ps as [|a [|b ps]].
  - by apply not_elem_of_nil in Hu.
  - apply list_elem_of_singleton in Hu, Hv. congruence.
  - rewrite !zlen_cons. pose proof (zlen_nonneg ps). lia.
Qed.

(** A participant's own share in a fresh collector. *)
Lemma submit_first now ch r ps dl n v s :
  v ∈ ps -> zlen s = n -> 4 <= n <= 65536 ->
  let c := CollectorFacts.submit_all (RoundCollector.new now ch r ps dl n) [(v, s)] in
  RoundCollector.shares_received c = {[ v := s ]} /\
  RoundCollector.participants c = list_to_set ps /\
  RoundCollector.payload_len c = n /\
  RoundCollector.deadline c = now + from_secs (Z.min dl MAX_ROUND_DEADLINE_SECS).
Proof.
  intros Hv Hs Hn c. unfold c. simpl.
  destruct (CollectorFacts.submit_share_cases (RoundCollector.new now ch r ps dl n) v s)
    as [(c' & -> & -> & _)|(e & _ & [Hx|[[? Hx]|Hx]])].
  - split_and!; try done. simpl. unfold clampZ. lia.
  - destruct Hx. by apply elem_of_list_to_set.
  - done.
  - destruct Hx. simpl. unfold clampZ. lia.
Qed.

End DriverFacts.

(** ** Properties *)

Section DriverProperties.
Context `{Crypto, !ShaLaws, !HkdfLaws}.
Import RoundDriver DriverFacts.

(** C13: the driver's invariant, over every interleaving of calls by a node called [me]. A live
    collector belongs to a round that has started and can be extracted within bounds; a round
    whose message was handed out has no collector left; a round of ours that is pending has a
    live collector we participate in and its message share has not left the node. *)
Theorem driver_invariant me d tr :
  reachable me d tr ->
  (forall id c, collectors d !! id = Some c ->
     1 <= id <= RoundTracker.current_round_id (tracker d) /\ RoundCollector.extract_panics c = false) /\
  (forall id, id ∈ emitted d ->
     id <= RoundTracker.current_round_id (tracker d) /\ collectors d !! id = None) /\
  (forall r, pending_round_id d = Some r ->
     is_Some (my_share d) /\ exists c, collectors d !! r = Some c /\ me ∈ RoundCollector.participants c) /\
  my_share_broadcast d = false.
Proof.
  intros [Hc Hb]%reachable_inv. split_and!; [|apply Hc| |done].
  - intros id c Hid. destruct (core_coll _ _ _ _ Hc id c Hid).
    split; [done|by apply CollectorFacts.extract_no_panic].
  - intros r Hr. split; [apply Hc; eauto|].
    destruct (core_pend _ _ _ _ Hc r Hr) as (c & ? & _ & ?). eauto.
Qed.

(** No round's message is handed to the user twice, over every interleaving of calls, and
    the dedup set is exactly the rounds handed out. *)
Theorem messages_emitted_once me d tr :
  reachable me d tr -> NoDup tr /\ emitted d = list_to_set tr.
Proof.
  induction 1 as [|d tr now ch text ps ctx Hr [IHn IHe] <- Hroom|d tr now msg ctx Hr [IHn IHe] <- Hroom|d tr Hr IH].
  - split; [constructor|done].
  - split; [done|]. by rewrite initiate_emitted.
  - destruct (handle now d msg ctx) as [d' act] eqn:E. simpl.
    apply handle_emitted in E as [[-> ->]|(x & -> & Hn & ->)]; simpl; [by rewrite app_nil_r|].
    rewrite IHe in *. split.
    + apply NoDup_app. split_and!; [done| |apply NoDup_singleton].
      intros id Hid Hx. apply list_elem_of_singleton in Hx as ->. apply Hn. by apply elem_of_list_to_set.
    + rewrite list_to_set_app_L. set_solver.
  - done.
Qed.

(** The retry limit never binds. Every state the driver can reach has fewer than
    [MAX_CONFLICT_RETRIES] recorded retries, because re-initiating resets the count: the branch
    that drops a message after repeated failures is dead, and a failing message is re-initiated
    for ever. *)
Theorem retry_limit_never_reached me d tr :
  reachable me d tr -> 0 <= retries d < MAX_CONFLICT_RETRIES.
Proof.
  intros [Hc _]%reachable_inv. destruct (core_retry _ _ _ _ Hc). unfold retry_budget in *.
  pose proof (b2z_range (pending_round_id d)). pose proof (b2z_range (retry_after_peer d)).
  unfold MAX_CONFLICT_RETRIES. lia.
Qed.

(** The initiator's share goes last. Handling a share makes the driver transmit something
    only in its own round and only when the share of every other participant has arrived; what
    it transmits is the stored share, to every other participant and to nobody else. *)
Theorem message_share_goes_last now d ch r u s g ctx d' act :
  on_round_share now d ch r u s g ctx = (d', act) -> outgoing act <> [] ->
  pending_round_id d = Some r /\
  exists c c' mine sig, collectors d !! r = Some c /\
    RoundCollector.submit_share c u s = (c', Ok tt) /\ my_share d = Some (mine, sig) /\
    (forall v, v ∈ RoundCollector.participants c -> v <> my_uid ctx ->
       is_Some (RoundCollector.shares_received c' !! v)) /\
    outgoing act = to_others (my_uid ctx) (elements (RoundCollector.participants c))
                     (DcRoundShare ch r (my_uid ctx) mine sig).
Proof.
  unfold on_round_share. destruct (negb _); [by intros [= <- <-]|].
  destruct (collectors d !! r) as [c|] eqn:Hr; [|by intros [= <- <-]].
  destruct (CollectorFacts.submit_share_cases c u s) as [(c' & Es & Ec' & _)|(e & Es & _)];
    rewrite Es; [|by intros [= <- <-]].
  assert (Hps : RoundCollector.participants c' = RoundCollector.participants c) by (by rewrite Ec').
  cbn [my_share_broadcast set_collectors my_share].
  set (quiet := (_, c', [])).
  assert (Hq : forall b, (if RoundCollector.is_complete c' then
      let '(d, ext) := finish_round now (set_collectors d (<[r := c']> (collectors d))) c' ch r b ctx in
      (d, {| extracted := ext; outgoing := [] |}) else
      (set_collectors d (<[r := c']> (collectors d)), {| extracted := []; outgoing := [] |})) = (d', act) ->
      outgoing act <> [] -> False).
  { intros b. destruct (RoundCollector.is_complete c'); [|by intros [= <- <-]].
    destruct (finish_round _ _ _ _ _ _ _). by intros [= <- <-]. }
  destruct (_ && _) eqn:Eb; [|intros E Ho; by destruct (Hq _ E Ho)].
  destruct (my_share d) as [[mine sig]|] eqn:Em; [|intros E Ho; by destruct (Hq _ E Ho)].
  apply andb_true_iff in Eb as [Eb Hmiss%bool_decide_eq_true].
  apply andb_true_iff in Eb as [Hp%bool_decide_eq_true _].
  destruct (RoundCollector.submit_share c' (my_uid ctx) mine) as [c2 res] eqn:E2.
  assert (Hps2 : RoundCollector.participants c2 = RoundCollector.participants c').
  { destruct (CollectorFacts.submit_share_cases c' (my_uid ctx) mine) as [(? & E' & -> & _)|(? & E' & _)];
      rewrite E2 in E'; by simplify_eq. }
  intros E Ho. split; [done|]. exists c, c', mine, sig. split_and!; try done.
  - intros v Hv Hne. rewrite <-Hps in Hv. apply not_eq_None_Some. intros Hn.
    assert (Hin : v ∈ RoundCollector.missing_participants c') by (by apply CollectorFacts.missing_spec).
    rewrite Hmiss in Hin. by apply list_elem_of_singleton in Hin.
  - rewrite Hps2, Hps in E. destruct (RoundCollector.is_complete c2).
    + destruct (finish_round _ _ _ _ _ _ _). by simplify_eq.
    + by simplify_eq.
Qed.

(** Simultaneous initiators. On the start of a rival round with our own pending id, the
    node with the greater uid gives its round up (its message share is discarded unsent, the
    message is kept and scheduled for retry, and it answers the rival with a neutral share, not
    with its message), while the node with the smaller uid ignores the rival entirely. *)
Theorem conflict_tie_break now d ch r rival ps dl n ctx d' act :
  pending_round_id d = Some r -> r <= RoundTracker.current_round_id (tracker d) < 2 ^ 64 - 1 ->
  0 <= r -> rival <> my_uid ctx ->
  on_round_start now d ch r rival ps dl n ctx = (d', act) ->
  (bytes_ltb (string_bytes rival) (string_bytes (my_uid ctx)) = true ->
    pending_round_id d' = None /\ my_share d' = None /\ pending_message d' = pending_message d /\
    retry_after_peer d' = Some r /\ extracted act = [] /\
    forall v m, (v, m) ∈ outgoing act ->
      v <> my_uid ctx /\ exists share, m = DcRoundShare ch r (my_uid ctx) share
        (sign_share (ctx_signing_key ctx) ch r share) /\
        compute_xor_share_secure r (my_uid ctx) ps None n (edge_keys ctx) = Some share) /\
  (bytes_ltb (string_bytes rival) (string_bytes (my_uid ctx)) = false -> d' = d /\ act = no_action).
Proof.
  intros Hp Hcur Hr Hne. unfold on_round_start, RoundTracker.mark_seen.
  rewrite wrap64_small, (proj2 (Z.eqb_neq _ _)) by lia.
  rewrite bool_decide_eq_true_2, bool_decide_eq_false_2 by done. cbn [andb negb].
  intros E. split; intros Hlt; rewrite Hlt in E; [|by simplify_eq].
  unfold participate, abort_pending_round in E. rewrite Hp in E.
  destruct (negb _).
  { simplify_eq. split_and!; try done. intros v m Hin. by apply not_elem_of_nil in Hin. }
  destruct (compute_xor_share_secure _ _ _ _ _ _) as [share|] eqn:Es.
  2: { simplify_eq. split_and!; try done. intros v m Hin. by apply not_elem_of_nil in Hin. }
  destruct (RoundCollector.submit_share _ _ _) as [c res]. simplify_eq. split_and!; try done.
  intros v m (x & [= -> ->] & [Hx _]%elem_of_others)%list_elem_of_fmap. split; [done|]. eauto.
Qed.

Section MeshProperties.
Context `{!EdLaws}.

(** A mesh round as a neutral participant sees it. From any idle state, the start makes it
    send its neutral share, signed, to everybody else; then the shares of the others, in any
    order before the deadline, produce no action until the last one, which hands out exactly
    the initiator's text and leaves no round in flight. *)
Theorem mesh_round_participant keys sk ps init v text ch r t0 d ctx arr :
  NoDup ps -> edge_keys_agree ps keys -> init ∈ ps -> v ∈ ps -> v <> init ->
  str_ok text -> slen text + 36 <= CHANNEL_PAYLOAD_LEN ->
  honest_ctx keys sk v ctx -> idle r d ->
  arr.*2 ≡ₚ others v ps ->
  (forall now u, (now, u) ∈ arr -> now < t0 + from_secs CHANNEL_ROUND_DEADLINE_SECS) ->
  let share := mesh_share keys ps init text r CHANNEL_PAYLOAD_LEN in
  let sig := mesh_sig keys sk ps init text ch r CHANNEL_PAYLOAD_LEN in
  (forall u, u ∈ ps -> compute_xor_share_secure r u ps
     (if bool_decide (u = init) then Some (string_bytes text) else None) CHANNEL_PAYLOAD_LEN (keys u) =
     Some (share u)) /\
  exists d1 d2,
    handle t0 d (DcRoundStart ch r init ps CHANNEL_ROUND_DEADLINE_SECS CHANNEL_PAYLOAD_LEN) ctx =
      (d1, {| extracted := []; outgoing := to_others v ps (DcRoundShare ch r v (share v) (sig v)) |}) /\
    handles ctx d1 (share_event ch r share sig <$> arr) =
      (d2, replicate (length arr - 1) no_action ++
           [{| extracted := [mkExtracted ch text r]; outgoing := [] |}]) /\
    collectors d2 = ∅.
Proof.
  intros Hnd Hk Hinit Hv Hne Htext Hfit Hc Hi Harr Ht share sig.
  assert (Hn : 4 <= CHANNEL_PAYLOAD_LEN <= 65536) by done.
  assert (Htwo : 2 <= zlen ps) by (by apply (two_members init v)).
  split; [intros u Hu; by apply (mesh_share_computed keys ps init text r CHANNEL_PAYLOAD_LEN)|].
  destruct (mesh_start keys sk ps init text ch r t0 Hk Htwo Hfit ctx v d) as
    (c & d1 & Eh & Hw & Hp & He & Ec); try done.
  assert (Hin : forall u, u ∈ arr.*2 -> u ∈ ps /\ u <> v).
  { intros u Hu. rewrite Harr in Hu. apply elem_of_others in Hu. tauto. }
  assert (Hndv : NoDup (v :: arr.*2)).
  { apply NoDup_cons. split; [intros Hx; by destruct (Hin v Hx)|]. rewrite Harr. by apply NoDup_filter. }
  assert (Hperm : v :: arr.*2 ≡ₚ ps) by (rewrite Harr; by apply others_perm).
  assert (Hfields : RoundCollector.shares_received c = {[ v := share v ]} /\
    RoundCollector.participants c = list_to_set ps /\ RoundCollector.payload_len c = CHANNEL_PAYLOAD_LEN /\
    RoundCollector.deadline c = t0 + from_secs CHANNEL_ROUND_DEADLINE_SECS).
  { subst c. apply submit_first; [done| |done]. by apply (mesh_share_zlen keys ps init text r CHANNEL_PAYLOAD_LEN). }
  destruct Hfields as (Hs & Hpart & Hpl & Hdl).
  assert (Hok : arrivals_ok ctx ch r share sig c arr).
  { eapply (mesh_arrivals_ok keys sk ps init text ch r CHANNEL_PAYLOAD_LEN t0); try done; [by apply NoDup_cons in Hndv as [_ ?]|].
    intros u Hu. destruct (Hin u Hu). split; [done|]. rewrite Hs. by apply lookup_singleton_ne. }
  destruct arr as [|[now0 u0] arr].
  { exfalso. apply Permutation_length in Hperm. simpl in Hperm. unfold zlen in Htwo. lia. }
  exists d1. eexists. split_and!; [exact Eh| |].
  - replace (length ((now0, u0) :: arr) - 1)%nat with (length arr) by (simpl; lia).
    eapply (neutral_run ctx ch r share sig c); try done.
    + subst c. apply CollectorFacts.submit_all_wf, CollectorFacts.new_wf.
    + subst c. apply (mesh_holds keys ps init text ch r CHANNEL_PAYLOAD_LEN Hnd Hk Htwo Hinit Htext Hfit Hn t0) in Hperm.
      exact Hperm.
  - done.
Qed.

(** A mesh round as its initiator sees it. [initiate] sends only the start; the shares of
    the others, in any order before the deadline, produce no action until the last one, on
    which the initiator sends its message share to everybody else, extracts its own text like
    everybody, and forgets the queued message. *)
Theorem mesh_round_initiator keys sk ps init text ch r t0 d ctx arr :
  NoDup ps -> edge_keys_agree ps keys -> 2 <= zlen ps -> init ∈ ps ->
  str_ok text -> slen text + 36 <= CHANNEL_PAYLOAD_LEN ->
  honest_ctx keys sk init ctx -> idle r d ->
  arr.*2 ≡ₚ others init ps ->
  (forall now u, (now, u) ∈ arr -> now < t0 + from_secs CHANNEL_ROUND_DEADLINE_SECS) ->
  let share := mesh_share keys ps init text r CHANNEL_PAYLOAD_LEN in
  let sig := mesh_sig keys sk ps init text ch r CHANNEL_PAYLOAD_LEN in
  exists d1 d2 rs,
    initiate t0 d ch text ps ctx =
      (d1, Ok (to_others init ps
        (DcRoundStart ch r init ps CHANNEL_ROUND_DEADLINE_SECS CHANNEL_PAYLOAD_LEN))) /\
    pending_message d1 = Some (string_bytes text) /\
    handles ctx d1 (share_event ch r share sig <$> arr) =
      (d2, replicate (length arr - 1) no_action ++
           [{| extracted := [mkExtracted ch text r];
               outgoing := to_others init rs (DcRoundShare ch r init (share init) (sig init)) |}]) /\
    rs ≡ₚ ps /\ collectors d2 = ∅ /\ pending_message d2 = None /\ pending_round_id d2 = None.
Proof.
  intros Hnd Hk Htwo Hinit Htext Hfit Hc Hi Harr Ht share sig.
  assert (Hn : 4 <= CHANNEL_PAYLOAD_LEN <= 65536) by done.
  destruct (mesh_initiate keys sk ps init text ch r t0 Hk Htwo Hinit Hfit ctx d) as
    (d1 & E1 & Hw & Hp & Hs & Hb & Hm); try done.
  set (c := RoundCollector.new _ _ _ _ _ _) in Hw.
  assert (Hin : forall u, u ∈ arr.*2 -> u ∈ ps /\ u <> init).
  { intros u Hu. rewrite Harr in Hu. apply elem_of_others in Hu. tauto. }
  assert (Hok : arrivals_ok ctx ch r share sig c arr).
  { eapply (mesh_arrivals_ok keys sk ps init text ch r CHANNEL_PAYLOAD_LEN t0); try done.
    - rewrite Harr. by apply NoDup_filter.
    - intros u Hu. destruct (Hin u Hu). done. }
  assert (Hperm : init :: arr.*2 ≡ₚ ps) by (rewrite Harr; by apply others_perm).
  destruct arr as [|[now0 u0] arr].
  { exfalso. apply Permutation_length in Hperm. simpl in Hperm. unfold zlen in Htwo. lia. }
  exists d1. eexists. eexists. split_and!; [exact E1|exact Hm| | | | |].
  - replace (length ((now0, u0) :: arr) - 1)%nat with (length arr) by (simpl; lia).
    pose proof (initiator_run ctx ch r share sig c d1 now0 u0 arr (share init) (sig init) text) as Hrun.
    rewrite (hc_uid _ _ _ _ Hc) in Hrun. apply (Hrun Hw Hp Hs Hb); [|exact Hok|..].
    + apply CollectorFacts.new_wf.
    + intros x. rewrite CollectorFacts.missing_spec. simpl.
      rewrite lookup_empty, elem_of_list_to_set, <-Hperm. simpl. rewrite !elem_of_cons. naive_solver.
    + intros Hx. by destruct (Hin init Hx).
    + rewrite Permutation_cons_append in Hperm.
      apply (mesh_holds keys ps init text ch r CHANNEL_PAYLOAD_LEN Hnd Hk Htwo Hinit Htext Hfit Hn t0) in Hperm.
      rewrite fmap_app in Hperm. unfold CollectorFacts.submit_all in *.
      rewrite foldl_app in Hperm. exact Hperm.
  - simpl. rewrite elements_list_to_set by done. done.
  - done.
  - done.
  - done.
Qed.

End MeshProperties.

End DriverProperties.

(** ** Witnesses *)

Module DriverWitness.
Import RoundDriver DriverFacts RoundWitness.

Definition sk (u : string) : bytes := string_bytes u.

Definition ctx (u : string) : RoundContext :=
  {| my_uid := u; ctx_signing_key := sk u; edge_keys := keys u;
     known_keys := {[ "bob" := hex_encode (@ed_public toy_crypto (sk "bob")) ]} |}.

Lemma ctx_honest u : @honest_ctx toy_crypto keys sk u (ctx u).
Proof.
  split; try done. intros w k Hk. simpl in Hk. apply lookup_singleton_Some in Hk as [<- <-]. done.
Qed.

Lemma new_idle : idle 1 (new 0).
Proof. split; done. Qed.

(** Alice's state after initiating a round. *)
Definition d1 : RoundDriver := (@initiate toy_crypto 0 (new 0) "#a" "hi" ps (ctx "alice")).1.

Lemma d1_reachable : @reachable toy_crypto "alice" d1 [].
Proof. apply reach_initiate; [apply reach_new|done|vm_compute; done]. Qed.

Lemma driver_invariant_witness :
  (forall id c, collectors d1 !! id = Some c ->
     1 <= id <= RoundTracker.current_round_id (tracker d1) /\ RoundCollector.extract_panics c = false) /\
  (forall id, id ∈ emitted d1 ->
     id <= RoundTracker.current_round_id (tracker d1) /\ collectors d1 !! id = None) /\
  (forall r, pending_round_id d1 = Some r ->
     is_Some (my_share d1) /\ exists c, collectors d1 !! r = Some c /\ "alice" ∈ RoundCollector.participants c) /\
  my_share_broadcast d1 = false.
Proof. exact (driver_invariant (H := toy_crypto) "alice" d1 [] d1_reachable). Defined.

Lemma messages_emitted_once_witness : NoDup (@nil Z) /\ emitted d1 = list_to_set [].
Proof. exact (messages_emitted_once (H := toy_crypto) "alice" d1 [] d1_reachable). Defined.

Lemma retry_limit_witness : 0 <= retries d1 < MAX_CONFLICT_RETRIES.
Proof. exact (retry_limit_never_reached (H := toy_crypto) "alice" d1 [] d1_reachable). Defined.

(** A pending round of ours with one foreign share missing. *)
Definition d2 : RoundDriver :=
  mk (RoundTracker.set_round (RoundTracker.new 0) 1) None (Some 1) 0
     {[ 1 := RoundCollector.new 0 "#a" 1 ["alice"; "bob"] 30 4 ]} ∅
     (Some ([1; 2; 3; 4], [9])) false [] None.

Definition step2 : RoundDriver * RoundAction :=
  @on_round_share toy_crypto 0 d2 "#a" 1 "bob" [0; 0; 0; 0] []
    {| my_uid := "alice"; ctx_signing_key := []; edge_keys := ∅; known_keys := ∅ |}.

Lemma message_share_goes_last_witness :
  pending_round_id d2 = Some 1 /\
  exists c c' mine sig, collectors d2 !! 1 = Some c /\
    RoundCollector.submit_share c "bob" [0; 0; 0; 0] = (c', Ok tt) /\ my_share d2 = Some (mine, sig) /\
    (forall v, v ∈ RoundCollector.participants c -> v <> "alice" ->
       is_Some (RoundCollector.shares_received c' !! v)) /\
    outgoing step2.2 = to_others "alice" (elements (RoundCollector.participants c))
                         (DcRoundShare "#a" 1 "alice" mine sig).
Proof.
  apply (message_share_goes_last (H := toy_crypto) 0 d2 "#a" 1 "bob" [0; 0; 0; 0] []
    {| my_uid := "alice"; ctx_signing_key := []; edge_keys := ∅; known_keys := ∅ |} step2.1 step2.2).
  - vm_compute. reflexivity.
  - vm_compute. discriminate.
Defined.

(** Bob, pending in round 1, hears of Alice's round 1. *)
Definition d3 : RoundDriver :=
  mk (RoundTracker.set_round (RoundTracker.new 0) 1) (Some [104; 105]) (Some 1) 0
     {[ 1 := RoundCollector.new 0 "#a" 1 ps 30 48 ]} ∅ (Some ([], [])) false [] None.

Definition step3 : RoundDriver * RoundAction :=
  @on_round_start toy_crypto 0 d3 "#a" 1 "alice" ps 30 48 (ctx "bob").

Lemma conflict_tie_break_witness :
  pending_round_id step3.1 = None /\ my_share step3.1 = None /\
  pending_message step3.1 = Some [104; 105] /\ retry_after_peer step3.1 = Some 1 /\
  extracted step3.2 = [] /\
  forall v m, (v, m) ∈ outgoing step3.2 ->
    v <> "bob" /\ exists share, m = DcRoundShare "#a" 1 "bob" share
      (@sign_share toy_crypto (sk "bob") "#a" 1 share) /\
      @compute_xor_share_secure toy_crypto 1 "bob" ps None 48 (keys "bob") = Some share.
Proof.
  destruct (conflict_tie_break (H := toy_crypto) 0 d3 "#a" 1 "alice" ps 30 48 (ctx "bob") step3.1 step3.2)
    as [Hlose _]; [reflexivity|vm_compute; split; done|lia|done|apply surjective_pairing|].
  apply Hlose. reflexivity.
Defined.

Lemma in_time (arr : list (Z * string)) :
  forallb (fun a => a.1 <? from_secs CHANNEL_ROUND_DEADLINE_SECS) arr = true ->
  forall now u, (now, u) ∈ arr -> now < 0 + from_secs CHANNEL_ROUND_DEADLINE_SECS.
Proof.
  intros HF now u Hin. apply forallb_true_Forall in HF. rewrite Forall_forall in HF.
  apply HF in Hin. simpl in Hin. breflect. lia.
Qed.

Lemma mesh_round_participant_witness :
  let share := @mesh_share toy_crypto keys ps "bob" "hi" 1 CHANNEL_PAYLOAD_LEN in
  let sig := @mesh_sig toy_crypto keys sk ps "bob" "hi" "#a" 1 CHANNEL_PAYLOAD_LEN in
  (forall u, u ∈ ps -> @compute_xor_share_secure toy_crypto 1 u ps
     (if bool_decide (u = "bob") then Some (string_bytes "hi") else None) CHANNEL_PAYLOAD_LEN (keys u) =
     Some (share u)) /\
  exists d1 d2,
    @handle toy_crypto 0 (new 0) (DcRoundStart "#a" 1 "bob" ps CHANNEL_ROUND_DEADLINE_SECS CHANNEL_PAYLOAD_LEN)
      (ctx "carol") =
      (d1, {| extracted := []; outgoing := to_others "carol" ps (DcRoundShare "#a" 1 "carol" (share "carol") (sig "carol")) |}) /\
    @handles toy_crypto (ctx "carol") d1 (share_event "#a" 1 share sig <$> [(5, "bob"); (7, "alice")]) =
      (d2, replicate 1 no_action ++ [{| extracted := [mkExtracted "#a" "hi" 1]; outgoing := [] |}]) /\
    collectors d2 = ∅.
Proof.
  apply (mesh_round_participant (H := toy_crypto) keys sk ps "bob" "carol" "hi" "#a" 1 0 (new 0) (ctx "carol")
    [(5, "bob"); (7, "alice")] ps_nodup keys_agree);
    [right; left|right; right; left|done|reflexivity|vm_compute; done|apply ctx_honest|apply new_idle
    |apply Permutation_swap|apply in_time; reflexivity].
Defined.

Lemma mesh_round_initiator_witness :
  let share := @mesh_share toy_crypto keys ps "bob" "hi" 1 CHANNEL_PAYLOAD_LEN in
  let sig := @mesh_sig toy_crypto keys sk ps "bob" "hi" "#a" 1 CHANNEL_PAYLOAD_LEN in
  exists d1 d2 rs,
    @initiate toy_crypto 0 (new 0) "#a" "hi" ps (ctx "bob") =
      (d1, Ok (to_others "bob" ps
        (DcRoundStart "#a" 1 "bob" ps CHANNEL_ROUND_DEADLINE_SECS CHANNEL_PAYLOAD_LEN))) /\
    pending_message d1 = Some (string_bytes "hi") /\
    @handles toy_crypto (ctx "bob") d1 (share_event "#a" 1 share sig <$> [(5, "carol"); (7, "alice")]) =
      (d2, replicate 1 no_action ++
           [{| extracted := [mkExtracted "#a" "hi" 1];
               outgoing := to_others "bob" rs (DcRoundShare "#a" 1 "bob" (share "bob") (sig "bob")) |}]) /\
    rs ≡ₚ ps /\ collectors d2 = ∅ /\ pending_message d2 = None /\ pending_round_id d2 = None.
Proof.
  apply (mesh_round_initiator (H := toy_crypto) keys sk ps "bob" "hi" "#a" 1 0 (new 0) (ctx "bob")
    [(5, "carol"); (7, "alice")] ps_nodup keys_agree);
    [vm_compute; done|right; left|reflexivity|vm_compute; done|apply ctx_honest|apply new_idle
    |apply Permutation_swap|apply in_time; reflexivity].
Defined.

End DriverWitness.
