(* ===== verification/RoundEngine.v ===== *)
(** [round_engine.rs]: the leader-based round coordination the daemon runs. A node answers a
    round start with its share, the leader collects the shares and announces the result. *)

From S2P Require Import Prelude Crypto Identity Wire Float64 Dcnet RoundNetwork RoundDriver.

Inductive RoundEvent :=
| MessageReceived (channel text : string) (round_id : Z)
| MessageExtracted (channel text : string) (round_id : Z).

Module RoundEngine.

Record t := mk {
  tracker : RoundTracker;
  collectors : gmap Z RoundCollector;
  my_uid : string;
  leader_uid : option string;
}.

Definition new (now : Z) (uid : string) : t :=
  {| tracker := RoundTracker.new now; collectors := ∅; my_uid := uid; leader_uid := None |}.

Definition set_tracker (e : t) x := mk x (collectors e) (my_uid e) (leader_uid e).
Definition set_collectors (e : t) x := mk (tracker e) x (my_uid e) (leader_uid e).
Definition set_leader (e : t) x := mk (tracker e) (collectors e) (my_uid e) x.

Definition queue_message (e : t) (text : string) : t :=
  set_tracker e (RoundTracker.queue_message (tracker e) text).

Section Handlers.
Context `{Crypto}.

Definition start_round_as_leader (now : Z) (e : t) (channel : string) (participants : list string)
    (ctx : RoundContext) : t * list outgoing_msg :=
  let '(tr, round_id) := RoundTracker.next_round (tracker e) in
  let deadline := Z.min 30 MAX_ROUND_DEADLINE_SECS in
  let payload_len := DEFAULT_PAYLOAD_LEN in
  let collector := RoundCollector.new now channel round_id participants deadline payload_len in
  let '(tr, queued) := RoundTracker.dequeue_message tr in
  let collector :=
    match queued with
    | Some message =>
        match compute_xor_share_secure round_id (my_uid e) participants
                (Some (string_bytes message)) payload_len (edge_keys ctx) with
        | Some share => (RoundCollector.submit_share collector (my_uid e) share).1
        | None => collector
        end
    | None =>
        match compute_xor_share_secure round_id (my_uid e) participants None payload_len (edge_keys ctx) with
        | Some share => (RoundCollector.submit_share collector (my_uid e) share).1
        | None => collector
        end
    end in
  let e := set_tracker e tr in
  let e := set_collectors e (<[round_id := collector]> (collectors e)) in
  let start_msg := build_round_start channel round_id (my_uid e) participants deadline payload_len in
  (e, (fun p => (p, start_msg)) <$> participants).

Definition handle_round_start (e : t) (channel : string) (round_id : Z) (leader_id : string)
    (participants : list string) (deadline_secs payload_len : Z) (ctx : RoundContext) :
    t * (option RoundEvent * list outgoing_msg) :=
  match RoundTracker.mark_seen (tracker e) round_id with
  | (_, false) => (e, (None, []))
  | (tr, true) =>
      let e := set_leader (set_tracker e tr) (Some leader_id) in
      let '(tr, my_message) := RoundTracker.dequeue_message (tracker e) in
      let e := set_tracker e tr in
      match compute_xor_share_secure round_id (my_uid e) participants
              (string_bytes <$> my_message) payload_len (edge_keys ctx) with
      | None => (e, (None, []))
      | Some share =>
          let signature := sign_share (ctx_signing_key ctx) channel round_id share in
          let share_msg := build_round_share channel round_id (my_uid e) share signature in
          (e, (None, [(leader_id, share_msg)]))
      end
  end.

(** The signature check is the driver's. *)
Definition share_admitted (ctx : RoundContext) (channel : string) (round_id : Z) (peer_uid : string)
    (share signature : bytes) : bool :=
  RoundDriver.share_admitted ctx channel round_id peer_uid share signature.

(** [String::from_utf8(bytes).unwrap_or_else(|_| "(binary data)".to_string())]. *)
Definition text_or_binary (bs : bytes) : string := default "(binary data)" (from_utf8 bs).

Definition handle_round_share (now : Z) (e : t) (channel : string) (round_id : Z) (peer_uid : string)
    (xored_payload signature : bytes) (ctx : RoundContext) :
    t * (option RoundEvent * list outgoing_msg) :=
  if negb (share_admitted ctx channel round_id peer_uid xored_payload signature) then (e, (None, []))
  else
    match collectors e !! round_id with
    | None => (e, (None, []))
    | Some collector =>
        match RoundCollector.submit_share collector peer_uid xored_payload with
        | (_, Err _) => (e, (None, []))
        | (collector, Ok _) =>
            let e := set_collectors e (<[round_id := collector]> (collectors e)) in
            if RoundCollector.is_complete collector || RoundCollector.is_expired now collector then
              match RoundCollector.extract_message collector with
              | None => (e, (None, []))
              | Some payload =>
                  match unpad_message payload with
                  | None => (set_collectors e (delete round_id (collectors e)), (None, []))
                  | Some bs =>
                      let text := text_or_binary bs in
                      let result_msg := DcRoundResult channel round_id payload [] in
                      (set_collectors e (delete round_id (collectors e)),
                       (Some (MessageExtracted channel text round_id),
                        (fun p => (p, result_msg)) <$> elements (RoundCollector.participants collector)))
                  end
              end
            else (e, (None, []))
        end
    end.

Definition handle_round_result (e : t) (channel : string) (round_id : Z) (extracted_message : bytes) :
    t * option RoundEvent :=
  match unpad_message extracted_message with
  | None => (e, None)
  | Some bs =>
      let text := text_or_binary bs in
      let '(tr, _) := RoundTracker.mark_seen (tracker e) round_id in
      (set_tracker e tr, Some (MessageReceived channel text round_id))
  end.

(** Logs only. *)
Definition handle_sync_request (e : t) (from_uid channel : string) : option RoundEvent := None.

Definition handle_incoming (now : Z) (e : t) (msg : PeerMessage) (ctx : RoundContext) :
    t * (option RoundEvent * list outgoing_msg) :=
  match msg with
  | DcRoundStart channel round_id leader_id participants deadline_secs payload_len =>
      handle_round_start e channel round_id leader_id participants deadline_secs payload_len ctx
  | DcRoundShare channel round_id peer_uid xored_payload signature =>
      handle_round_share now e channel round_id peer_uid xored_payload signature ctx
  | DcRoundResult channel round_id extracted_message _ =>
      let '(e, ev) := handle_round_result e channel round_id extracted_message in (e, (ev, []))
  | RoundSyncRequest from_uid channel => (e, (handle_sync_request e from_uid channel, []))
  | RoundSyncResponse _ _ _ _ _ => (e, (None, []))
  | _ => (e, (None, []))
  end.

End Handlers.

End RoundEngine.

Abbreviation RoundEngine := RoundEngine.t.

(** ** A leader's round *)

Module EngineFacts.
Import RoundEngine DriverFacts.

Section Run.
Context `{Crypto}.
Variable ctx : RoundContext.

Fixpoint incoming (e : t) (evs : list (Z * PeerMessage)) : t * list (option RoundEvent * list outgoing_msg) :=
  match evs with
  | [] => (e, [])
  | (now, msg) :: evs' =>
      let '(e1, act) := handle_incoming now e msg ctx in
      let '(e2, acts) := incoming e1 evs' in
      (e2, act :: acts)
  end.

Section LeaderRun.
Context `{!ShaLaws}.
Variables (ch : string) (r : Z) (share sig : string -> bytes).

Lemma engine_share_wait now e c c' u s g :
  collectors e !! r = Some c -> RoundDriver.share_admitted ctx ch r u s g = true ->
  RoundCollector.submit_share c u s = (c', Ok tt) ->
  RoundCollector.is_complete c' = false -> RoundCollector.is_expired now c' = false ->
  handle_incoming now e (DcRoundShare ch r u s g) ctx =
    (set_collectors e (<[r := c']> (collectors e)), (None, [])).
Proof.
  intros Hc Ha Hs Hn Hx. simpl. unfold handle_round_share, share_admitted.
  by rewrite Ha, Hc, Hs, Hn, Hx.
Qed.

Lemma engine_share_final now e c c' u s g payload m :
  collectors e !! r = Some c -> RoundDriver.share_admitted ctx ch r u s g = true ->
  RoundCollector.submit_share c u s = (c', Ok tt) -> RoundCollector.is_complete c' = true ->
  RoundCollector.extract_message c' = Some payload -> unpad_message payload = Some m ->
  handle_incoming now e (DcRoundShare ch r u s g) ctx =
    (set_collectors e (delete r (<[r := c']> (collectors e))),
     (Some (MessageExtracted ch (text_or_binary m) r),
      (fun p => (p, DcRoundResult ch r payload [])) <$> elements (RoundCollector.participants c'))).
Proof.
  intros Hc Ha Hs Hn Hp Hm. simpl. unfold handle_round_share, share_admitted.
  by rewrite Ha, Hc, Hs, Hn, Hp, Hm.
Qed.

(** The leader is silent until the last share and then announces the result to everybody. *)
Lemma leader_run c e now0 u0 arr payload m :
  collectors e !! r = Some c -> CollectorFacts.wf c ->
  arrivals_ok ctx ch r share sig c ((now0, u0) :: arr) ->
  let c2 := CollectorFacts.submit_all c (with_share share <$> u0 :: arr.*2) in
  RoundCollector.is_complete c2 = true ->
  RoundCollector.extract_message c2 = Some payload -> unpad_message payload = Some m ->
  exists e2, incoming e (share_event ch r share sig <$> (now0, u0) :: arr) =
    (e2, replicate (length arr) (None, []) ++
      [(Some (MessageExtracted ch (text_or_binary m) r),
        (fun p => (p, DcRoundResult ch r payload [])) <$> elements (RoundCollector.participants c))]) /\
    collectors e2 !! r = None.
Proof.
  revert c e now0 u0. induction arr as [|[now1 u1] arr IH]; intros c e now0 u0 Hc Hwf Hok c2 Hcp Hx Hm.
  - destruct (arrivals_ok_step ctx ch r share sig c now0 u0 [] Hwf Hok) as (c' & Es & Hwf' & _ & Ea & _).
    destruct Hok as [_ Hall]. destruct (Hall now0 u0) as (? & _ & _ & _ & ?); [by left|].
    assert (Hpart : RoundCollector.participants c' = RoundCollector.participants c).
    { destruct (CollectorFacts.submit_share_cases c u0 (share u0)) as [(? & E & -> & _)|(? & E & _)];
        rewrite Es in E; by simplify_eq. }
    unfold c2 in *. rewrite Ea in *. cbn [fmap list_fmap incoming share_event fst snd].
    erewrite engine_share_final by done. rewrite Hpart. eexists. split; [done|].
    simpl. apply lookup_delete_eq.
  - destruct (arrivals_ok_step ctx ch r share sig c now0 u0 _ Hwf Hok) as (c' & Es & Hwf' & Hok' & Ea & _).
    destruct Hok as [_ Hall]. destruct (Hall now0 u0) as (Hexp & _ & _ & _ & ?); [by left|].
    assert (Hpart : RoundCollector.participants c' = RoundCollector.participants c /\
                    RoundCollector.deadline c' = RoundCollector.deadline c).
    { destruct (CollectorFacts.submit_share_cases c u0 (share u0)) as [(? & E & -> & _)|(? & E & _)];
        rewrite Es in E; by simplify_eq. }
    destruct Hpart as [Hpart Hdl].
    rewrite fmap_cons. cbn [incoming]. unfold share_event at 1. cbn [fst snd].
    erewrite engine_share_wait; [|done|done|exact Es| |].
    2: { eapply missing_incomplete; [done|by eapply arrival_missing]. }
    2: { unfold RoundCollector.is_expired in *. by rewrite Hdl. }
    destruct (IH c' (set_collectors e (<[r := c']> (collectors e))) now1 u1) as (e2 & E2 & Hd); try done.
    + apply lookup_insert_eq.
    + unfold c2 in Hcp. rewrite Ea in Hcp. exact Hcp.
    + unfold c2 in Hx. rewrite Ea in Hx. exact Hx.
    + rewrite E2, Hpart. exists e2. done.
Qed.

End LeaderRun.
End Run.
End EngineFacts.

(** ** Properties *)

Section EngineProperties.
Context `{Crypto, !ShaLaws, !HkdfLaws}.
Import RoundEngine EngineFacts DriverFacts.

(** The engine of [u] before round [r], with [q] queued. *)
Record ready (r : Z) (u : string) (q : list string) (e : RoundEngine.t) : Prop := {
  rd_uid : RoundEngine.my_uid e = u;
  rd_cur : RoundTracker.current_round_id (RoundEngine.tracker e) + 1 = r;
  rd_range : 1 <= r < 2 ^ 64;
  rd_queue : RoundTracker.message_queue (RoundEngine.tracker e) = q;
}.

(** The queue of the node that has something to say. *)
Definition queue_of (sender text u : string) : list string :=
  if bool_decide (u = sender) then [text] else [].

Lemma dequeue_ready e r u q :
  ready r u q e ->
  (RoundTracker.dequeue_message (RoundTracker.set_round (RoundEngine.tracker e) r)).2 = head q.
Proof. intros Hr. unfold RoundTracker.dequeue_message. simpl. rewrite (rd_queue _ _ _ _ Hr). by destruct q. Qed.

Lemma queue_head_msg sender text u :
  string_bytes <$> head (queue_of sender text u) = mesh_msg sender text u.
Proof. unfold queue_of, mesh_msg. by case_bool_decide. Qed.

(** The reply to the start of the next round. *)
Lemma start_reply now e ch r leader ps dl n ctx :
  r = RoundTracker.current_round_id (RoundEngine.tracker e) +₆₄ 1 ->
  (handle_incoming now e (DcRoundStart ch r leader ps dl n) ctx).2 =
    match compute_xor_share_secure r (RoundEngine.my_uid e) ps
            (string_bytes <$> head (RoundTracker.message_queue (RoundEngine.tracker e))) n (edge_keys ctx) with
    | None => (None, [])
    | Some s => (None, [(leader, DcRoundShare ch r (RoundEngine.my_uid e) s
                                   (sign_share (ctx_signing_key ctx) ch r s))])
    end.
Proof.
  intros ->. cbn [handle_incoming]. unfold handle_round_start, RoundTracker.mark_seen.
  rewrite Z.eqb_refl. unfold RoundTracker.dequeue_message. cbv zeta.
  cbn [RoundEngine.tracker set_leader set_tracker RoundTracker.set_round RoundTracker.message_queue].
  destruct (RoundTracker.message_queue (RoundEngine.tracker e)) as [|text rest]; cbn [head fmap option_fmap option_map];
    cbn [RoundEngine.my_uid set_tracker set_leader]; by destruct (compute_xor_share_secure _ _ _ _ _ _).
Qed.

(** How a member answers a start. *)
Lemma member_answers keys sk ps sender text ch r leader now u e ctx :
  edge_keys_agree ps keys -> 2 <= zlen ps -> slen text + 36 <= DEFAULT_PAYLOAD_LEN -> u ∈ ps ->
  ready r u (queue_of sender text u) e -> honest_ctx keys sk u ctx ->
  exists e',
    handle_incoming now e (DcRoundStart ch r leader ps 30 DEFAULT_PAYLOAD_LEN) ctx =
      (e', (None, [(leader, DcRoundShare ch r u (mesh_share keys ps sender text r DEFAULT_PAYLOAD_LEN u)
                       (mesh_sig keys sk ps sender text ch r DEFAULT_PAYLOAD_LEN u))])) /\
    RoundTracker.current_round_id (RoundEngine.tracker e') = r /\ leader_uid e' = Some leader.
Proof.
  intros Hk Htwo Hfit Hu Hr Hc. pose proof (rd_range _ _ _ _ Hr). pose proof (rd_cur _ _ _ _ Hr) as Hcur.
  cbn [handle_incoming]. unfold handle_round_start, RoundTracker.mark_seen.
  rewrite Hcur, wrap64_small, Z.eqb_refl by lia. cbv zeta. cbn [RoundEngine.tracker set_leader set_tracker].
  pose proof (dequeue_ready e r u _ Hr) as Hd.
  assert (Hcur' : RoundTracker.current_round_id
    (RoundTracker.dequeue_message (RoundTracker.set_round (RoundEngine.tracker e) r)).1 = r).
  { unfold RoundTracker.dequeue_message. by case_match. }
  destruct (RoundTracker.dequeue_message _) as [tr msg]. cbn [fst snd] in *. subst msg.
  cbn [RoundEngine.my_uid set_tracker set_leader]. rewrite (rd_uid _ _ _ _ Hr), queue_head_msg.
  rewrite (hc_edge _ _ _ _ Hc), (hc_sk _ _ _ _ Hc).
  rewrite (mesh_share_computed keys ps sender text r DEFAULT_PAYLOAD_LEN) by done.
  eexists. split_and!; [reflexivity|done|done].
Qed.

(** How the leader starts. *)
Lemma leader_starts keys sk ps sender text ch r leader t0 e ctx :
  edge_keys_agree ps keys -> 2 <= zlen ps -> slen text + 36 <= DEFAULT_PAYLOAD_LEN -> leader ∈ ps ->
  ready r leader (queue_of sender text leader) e -> honest_ctx keys sk leader ctx ->
  exists e',
    start_round_as_leader t0 e ch ps ctx =
      (e', (fun p => (p, DcRoundStart ch r leader ps 30 DEFAULT_PAYLOAD_LEN)) <$> ps) /\
    RoundEngine.collectors e' !! r = Some (CollectorFacts.submit_all
      (RoundCollector.new t0 ch r ps 30 DEFAULT_PAYLOAD_LEN)
      [(leader, mesh_share keys ps sender text r DEFAULT_PAYLOAD_LEN leader)]).
Proof.
  intros Hk Htwo Hfit Hl Hr Hc. pose proof (rd_range _ _ _ _ Hr). pose proof (rd_cur _ _ _ _ Hr) as Hcur.
  unfold start_round_as_leader, RoundTracker.next_round. rewrite Hcur, wrap64_small by lia.
  pose proof (dequeue_ready e r leader _ Hr) as Hd.
  destruct (RoundTracker.dequeue_message _) as [tr msg]. cbn [snd] in Hd.
  assert (Hm : string_bytes <$> msg = mesh_msg sender text leader) by (rewrite Hd; apply queue_head_msg).
  pose proof (mesh_share_computed keys ps sender text r DEFAULT_PAYLOAD_LEN Hk Htwo Hfit ltac:(done) leader Hl) as Hs.
  rewrite <-Hm, <-(hc_edge _ _ _ _ Hc) in Hs. cbv zeta. rewrite (rd_uid _ _ _ _ Hr).
  eexists. destruct msg as [m|]; cbn [fmap option_fmap option_map] in Hs; rewrite Hs;
    (split; [cbn; by rewrite (rd_uid _ _ _ _ Hr)|apply lookup_insert_eq]).
Qed.

(** A leader's round, end to end over the engines of all participants. The leader's start
    makes every other member answer with its signed share; the answers, in any order before the
    deadline, leave the leader silent until the last one, on which it extracts exactly the text
    the one member with something queued had queued, and sends the result to every participant;
    and every engine that receives that result reports the same text. *)
Theorem leader_round_delivers `{!EdLaws} keys sk ps leader sender text ch r t0
    (eng : string -> RoundEngine.t) (ctxs : string -> RoundContext) arr :
  NoDup ps -> edge_keys_agree ps keys -> 2 <= zlen ps -> leader ∈ ps -> sender ∈ ps ->
  str_ok text -> slen text + 36 <= DEFAULT_PAYLOAD_LEN ->
  (forall u, u ∈ ps -> ready r u (queue_of sender text u) (eng u)) ->
  (forall u, u ∈ ps -> honest_ctx keys sk u (ctxs u)) ->
  arr.*2 ≡ₚ others leader ps ->
  (forall now u, (now, u) ∈ arr -> now < t0 + from_secs 30) ->
  exists (share sig : string -> bytes) payload e1 e2 rs,
    let start := DcRoundStart ch r leader ps 30 DEFAULT_PAYLOAD_LEN in
    let result := DcRoundResult ch r payload [] in
    start_round_as_leader t0 (eng leader) ch ps (ctxs leader) = (e1, (fun p => (p, start)) <$> ps) /\
    (forall now u, u ∈ ps -> u <> leader -> exists eu,
       handle_incoming now (eng u) start (ctxs u) =
         (eu, (None, [(leader, DcRoundShare ch r u (share u) (sig u))]))) /\
    incoming (ctxs leader) e1 (share_event ch r share sig <$> arr) =
      (e2, replicate (length arr - 1) (None, []) ++
           [(Some (MessageExtracted ch text r), (fun p => (p, result)) <$> rs)]) /\
    rs ≡ₚ ps /\
    (forall now e ctx, exists e', handle_incoming now e result ctx =
       (e', (Some (MessageReceived ch text r), []))).
Proof.
  intros Hnd Hk Htwo Hl Hs Htext Hfit Hready Hctx Harr Ht.
  assert (Hn : 4 <= DEFAULT_PAYLOAD_LEN <= 65536) by done.
  set (share := mesh_share keys ps sender text r DEFAULT_PAYLOAD_LEN).
  set (sig := mesh_sig keys sk ps sender text ch r DEFAULT_PAYLOAD_LEN).
  destruct (leader_starts keys sk ps sender text ch r leader t0 (eng leader) (ctxs leader)) as (e1 & E1 & Hc1);
    auto. fold share in Hc1. set (c := CollectorFacts.submit_all _ _) in Hc1.
  assert (Hin : forall u, u ∈ arr.*2 -> u ∈ ps /\ u <> leader).
  { intros u Hu. rewrite Harr in Hu. apply elem_of_others in Hu. tauto. }
  assert (Hperm : leader :: arr.*2 ≡ₚ ps) by (rewrite Harr; by apply others_perm).
  destruct (submit_first t0 ch r ps 30 DEFAULT_PAYLOAD_LEN leader (share leader)) as (Hsh & Hpart & Hpl & Hdl);
    [done|by apply (mesh_share_zlen keys ps sender text r DEFAULT_PAYLOAD_LEN)|done|].
  assert (Hok : arrivals_ok (ctxs leader) ch r share sig c arr).
  { eapply (mesh_arrivals_ok keys sk ps sender text ch r DEFAULT_PAYLOAD_LEN t0); try done.
    - by apply Hctx.
    - rewrite Harr. by apply NoDup_filter.
    - intros u Hu. destruct (Hin u Hu). split; [done|]. unfold c. rewrite Hsh. by apply lookup_singleton_ne. }
  destruct arr as [|[now0 u0] arr].
  { exfalso. apply Permutation_length in Hperm. simpl in Hperm. unfold zlen in Htwo. lia. }
  destruct (mesh_extract keys ps sender text ch r DEFAULT_PAYLOAD_LEN Hnd Hk Htwo Hs Hfit Hn t0 _ Hperm)
    as (Hcp & Hx & Hu). fold share in Hcp, Hx.
  destruct (leader_run (ctxs leader) ch r share sig c e1 now0 u0 arr
    (frame (string_bytes text) DEFAULT_PAYLOAD_LEN) (string_bytes text) Hc1) as (e2 & E2 & _);
    [apply CollectorFacts.submit_all_wf, CollectorFacts.new_wf|done|exact Hcp|exact Hx|exact Hu|].
  assert (Htx : text_or_binary (string_bytes text) = text)
    by (unfold text_or_binary; by rewrite from_utf8_str).
  exists share, sig, (frame (string_bytes text) DEFAULT_PAYLOAD_LEN), e1, e2.
  exists (elements (RoundCollector.participants c)). cbv zeta. split_and!; [exact E1| | | |].
  - intros now u Hu' Hne. destruct (member_answers keys sk ps sender text ch r leader now u (eng u) (ctxs u))
      as (eu & Eu & _); auto. eauto.
  - rewrite Htx in E2. simpl length. rewrite Nat.sub_succ, Nat.sub_0_r. exact E2.
  - unfold c. rewrite Hpart. by rewrite elements_list_to_set.
  - intros now e ctx. cbn [handle_incoming]. unfold handle_round_result. rewrite Hu, Htx.
    destruct (RoundTracker.mark_seen _ _). eauto.
Qed.

(** Nobody vouches for a round result. Whatever its state, its friends and the round it is
    in, a node reports the content of a result frame that anybody can build, under any channel
    and round id and whatever the [leader_signature] field holds; the leader itself sends that
    field empty. *)
Theorem round_result_unauthenticated now e ctx ch r m n sg :
  36 + zlen m <= n -> zlen m < 2 ^ 32 ->
  (handle_incoming now e (DcRoundResult ch r (frame m n) sg) ctx).2 =
    (Some (MessageReceived ch (text_or_binary m) r), []).
Proof.
  intros Hm Hl. cbn [handle_incoming]. unfold handle_round_result.
  rewrite unpad_frame_msg by done. by destruct (RoundTracker.mark_seen _ _).
Qed.

(** Pads repeat after a restart. The edge keys are stored, the round counter is not: a node
    that answered round 1 with a queued message before a restart and answers round 1 with
    nothing queued after it has transmitted two shares whose XOR is its message frame, so
    whoever saw both reads the message and knows its sender. *)
Theorem restart_reveals_message now1 now2 me text ch ch' leader leader' ps n ctx s1 g1 s2 g2 :
  0 <= n -> slen text < 2 ^ 32 ->
  (handle_incoming now1 (queue_message (new now1 me) text)
     (DcRoundStart ch 1 leader ps 30 n) ctx).2 = (None, [(leader, DcRoundShare ch 1 me s1 g1)]) ->
  (handle_incoming now2 (new now2 me)
     (DcRoundStart ch' 1 leader' ps 30 n) ctx).2 = (None, [(leader', DcRoundShare ch' 1 me s2 g2)]) ->
  unpad_message (xor_bytes s1 s2) = Some (string_bytes text).
Proof.
  intros Hn Hl E1 E2. rewrite start_reply in E1, E2 by done.
  cbn [RoundEngine.my_uid queue_message set_tracker new RoundEngine.tracker RoundTracker.message_queue
    RoundTracker.queue_message RoundTracker.set_queue RoundTracker.new app head
    fmap option_fmap option_map] in E1, E2.
  destruct (compute_xor_share_secure 1 me ps (Some (string_bytes text)) n (edge_keys ctx)) as [x|] eqn:C1; [|done].
  destruct (compute_xor_share_secure 1 me ps None n (edge_keys ctx)) as [y|] eqn:C2; [|done].
  injection E1 as -> _. injection E2 as -> _.
  destruct (reuse_xor 1 me ps (string_bytes text) n (edge_keys ctx) s1 s2) as [-> _]; [done..|].
  apply unpad_frame_msg. by rewrite zlen_string_bytes.
Qed.

(** A queued message is taken off the queue before the node knows whether it can take part.
    When the share cannot be computed (an edge key is missing, the message does not fit the
    announced payload, or the node is not a participant) nothing is sent and the message is
    gone. *)
Theorem failed_start_loses_message now e text rest ch r leader ps dl n ctx :
  RoundTracker.message_queue (RoundEngine.tracker e) = text :: rest ->
  r = RoundTracker.current_round_id (RoundEngine.tracker e) +₆₄ 1 ->
  compute_xor_share_secure r (RoundEngine.my_uid e) ps (Some (string_bytes text)) n (edge_keys ctx) = None ->
  exists e', handle_incoming now e (DcRoundStart ch r leader ps dl n) ctx = (e', (None, [])) /\
    RoundTracker.message_queue (RoundEngine.tracker e') = rest.
Proof.
  intros Hq -> Hs. cbn [handle_incoming]. unfold handle_round_start, RoundTracker.mark_seen.
  rewrite Z.eqb_refl. unfold RoundTracker.dequeue_message. cbn. rewrite Hq. cbn. rewrite Hs. eauto.
Qed.

End EngineProperties.

(** ** Witnesses *)

Module EngineWitness.
Import RoundEngine EngineFacts DriverFacts RoundWitness DriverWitness.

Definition eng (u : string) : RoundEngine.t :=
  if bool_decide (u = "carol") then queue_message (new 0 u) "hi" else new 0 u.

Lemma eng_ready u : u ∈ ps -> ready 1 u (queue_of "carol" "hi" u) (eng u).
Proof.
  intros _. unfold eng, queue_of. case_bool_decide; split; try done; lia.
Qed.

Lemma leader_round_delivers_witness :
  exists (share sig : string -> bytes) payload e1 e2 rs,
    let start := DcRoundStart "#a" 1 "alice" ps 30 DEFAULT_PAYLOAD_LEN in
    let result := DcRoundResult "#a" 1 payload [] in
    @start_round_as_leader toy_crypto 0 (eng "alice") "#a" ps (ctx "alice") = (e1, (fun p => (p, start)) <$> ps) /\
    (forall now u, u ∈ ps -> u <> "alice" -> exists eu,
       @handle_incoming toy_crypto now (eng u) start (ctx u) =
         (eu, (None, [("alice", DcRoundShare "#a" 1 u (share u) (sig u))]))) /\
    @incoming toy_crypto (ctx "alice") e1 (share_event "#a" 1 share sig <$> [(3, "carol"); (4, "bob")]) =
      (e2, replicate 1 (None, []) ++
           [(Some (MessageExtracted "#a" "hi" 1), (fun p => (p, result)) <$> rs)]) /\
    rs ≡ₚ ps /\
    (forall now e ctx, exists e', @handle_incoming toy_crypto now e result ctx =
       (e', (Some (MessageReceived "#a" "hi" 1), []))).
Proof.
  apply (leader_round_delivers (H := toy_crypto) keys sk ps "alice" "carol" "hi" "#a" 1 0 eng ctx
    [(3, "carol"); (4, "bob")] ps_nodup keys_agree);
    [vm_compute; done|left|right; right; left|reflexivity|vm_compute; done|apply eng_ready
    |intros; apply ctx_honest|apply Permutation_swap|apply in_time; reflexivity].
Defined.

Lemma round_result_unauthenticated_witness :
  (@handle_incoming toy_crypto 0 (new 0 "bob")
     (DcRoundResult "#a" 99 (@frame toy_crypto hi 48) [1; 2; 3]) (ctx "bob")).2 =
    (Some (MessageReceived "#a" (text_or_binary hi) 99), []).
Proof. apply (round_result_unauthenticated (H := toy_crypto)); vm_compute; done. Defined.

Definition reply (e : RoundEngine.t) : option RoundEvent * list outgoing_msg :=
  (@handle_incoming toy_crypto 0 e (DcRoundStart "#a" 1 "alice" ps 30 48) (ctx "bob")).2.

Definition sent (p : option RoundEvent * list outgoing_msg) : bytes * bytes :=
  match p with (_, [(_, DcRoundShare _ _ _ s g)]) => (s, g) | _ => ([], []) end.

Definition before_restart : bytes * bytes := sent (reply (queue_message (new 0 "bob") "hi")).
Definition after_restart : bytes * bytes := sent (reply (new 0 "bob")).

Lemma restart_reveals_message_witness :
  @unpad_message toy_crypto (xor_bytes before_restart.1 after_restart.1) = Some (string_bytes "hi").
Proof.
  apply (restart_reveals_message (H := toy_crypto) 0 0 "bob" "hi" "#a" "#a" "alice" "alice" ps 48 (ctx "bob")
    before_restart.1 before_restart.2 after_restart.1 after_restart.2);
    [lia|vm_compute; done|vm_compute; reflexivity|vm_compute; reflexivity].
Defined.

Lemma failed_start_loses_message_witness :
  exists e', @handle_incoming toy_crypto 0 (queue_message (new 0 "bob") "hi")
      (DcRoundStart "#a" 1 "alice" ps 30 16) (ctx "bob") = (e', (None, [])) /\
    RoundTracker.message_queue (RoundEngine.tracker e') = [].
Proof.
  apply (failed_start_loses_message (H := toy_crypto) 0 (queue_message (new 0 "bob") "hi") "hi" []);
    vm_compute; reflexivity.
Defined.

End EngineWitness.
