(* ===== verification/WebOfTrust.v ===== *)
(** [pgp/mod.rs] and [pgp/web_of_trust.rs]: identities, trust levels and the web of trust.

    [compute_trust_map] iterates over [self.keys.keys()], whose order a [HashMap] does not fix:
    it is the argument [order], any duplicate-free list of the known fingerprints. The loop runs
    on fuel; [trust_loop_total] shows that two passes per key and one more always suffice. *)

From S2P Require Import Prelude Crypto Identity.

(** ** [pgp/mod.rs] *)

Record PgpIdentity := mkPgp {
  user_id : string;
  public_key_hex : string;
  pgp_fingerprint : string;
  pgp_created : Z;
}.

Inductive TrustLevel := Never | Unknown | Marginal | Full | Ultimate.

#[export] Instance TrustLevel_eq_dec : EqDecision TrustLevel.
Proof. solve_decision. Defined.

Module PgpIdentity.
Section Pgp.
Context `{Crypto}.

Definition from_parts (now : Z) (uid0 pk_hex : string) : PgpIdentity :=
  {| user_id := uid0; public_key_hex := pk_hex;
     pgp_fingerprint := fingerprint_of_public_hex pk_hex; pgp_created := now |}.

Definition from_identity (now : Z) (id : Identity) : PgpIdentity :=
  from_parts now (if bool_decide (uid id = EmptyString) then "anonymous" else uid id) (public_hex id).

End Pgp.

Definition formatted_fingerprint (p : PgpIdentity) : string := pgp_fingerprint p.

(** Slices of the key, by bytes. *)
Definition fingerprint_short (p : PgpIdentity) : string :=
  let h := string_bytes (public_key_hex p) in
  if slen (public_key_hex p) <=? 16 then public_key_hex p
  else bytes_string (take 8 h ++ [46; 46; 46] ++ drop (length h - 8) h).
End PgpIdentity.

Module TrustLevel.

Definition from_i32 (v : Z) : TrustLevel :=
  if v =? -1 then Never else if v =? 0 then Unknown else if v =? 1 then Marginal
  else if v =? 2 then Full else if v =? 3 then Ultimate else Unknown.

Definition to_i32 (l : TrustLevel) : Z :=
  match l with Never => -1 | Unknown => 0 | Marginal => 1 | Full => 2 | Ultimate => 3 end.

(** The derived [Ord]: declaration order. *)
Definition ge (a b : TrustLevel) : bool := to_i32 b <=? to_i32 a.
Definition min (a b : TrustLevel) : TrustLevel := if to_i32 a <=? to_i32 b then a else b.

Definition to_dcnet_trust (l : TrustLevel) : Z :=
  match l with Never | Unknown => 0 | Marginal => 1 | Full => 2 | Ultimate => 3 end.

Definition can_speak (l : TrustLevel) : bool := ge l Marginal.
Definition can_admin (l : TrustLevel) : bool := ge l Ultimate.
Definition can_relay (l : TrustLevel) : bool := ge l Full.

End TrustLevel.

(** ** [pgp/web_of_trust.rs] *)

Record TrustSignature := mkTrustSig {
  signer_fingerprint : string;
  subject_fingerprint : string;
  trust_level : Z;
  ts_timestamp : Z;
  signature_data : bytes;
}.

Definition signature_message (subject_fp : string) (level timestamp : Z) : bytes :=
  string_bytes "chrono-wot-sign-v1" ++ be_bytes 4 (wrap32 (slen subject_fp)) ++ string_bytes subject_fp
  ++ [level] ++ be_bytes 8 timestamp.

Definition fingerprint_short (fp : string) : string :=
  let b := string_bytes fp in
  if slen fp <=? 12 then fp
  else bytes_string (take 6 b ++ [46; 46] ++ drop (length b - 6) b).

Module WebOfTrust.

Record t := mk {
  keys : gmap string PgpIdentity;
  signatures : list TrustSignature;
  own_fingerprints : gset string;
  trusted_introducers : gset string;
  manual_overrides : gmap string TrustLevel;
  trust_cache : gmap string TrustLevel;
  cache_valid : bool;
}.

Definition new : t :=
  {| keys := ∅; signatures := []; own_fingerprints := ∅; trusted_introducers := ∅;
     manual_overrides := ∅; trust_cache := ∅; cache_valid := false |}.

Definition invalidate_cache (w : t) : t :=
  mk (keys w) (signatures w) (own_fingerprints w) (trusted_introducers w) (manual_overrides w) ∅ false.

Definition add_own_key (w : t) (identity : PgpIdentity) : t :=
  invalidate_cache
    (mk (<[pgp_fingerprint identity := identity]> (keys w)) (signatures w)
        ({[pgp_fingerprint identity]} ∪ own_fingerprints w) (trusted_introducers w)
        (manual_overrides w) (trust_cache w) (cache_valid w)).

Definition add_key (w : t) (identity : PgpIdentity) : t :=
  invalidate_cache
    (mk (<[pgp_fingerprint identity := identity]> (keys w)) (signatures w) (own_fingerprints w)
        (trusted_introducers w) (manual_overrides w) (trust_cache w) (cache_valid w)).

Definition has_key (w : t) (fp : string) : bool := bool_decide (is_Some (keys w !! fp)).
Definition get_key (w : t) (fp : string) : option PgpIdentity := keys w !! fp.
Definition key_count (w : t) : Z := Z.of_nat (size (keys w)).
Definition signature_count (w : t) : Z := zlen (signatures w).

Definition remove_signature (w : t) (signer_fp subject_fp : string) : t :=
  invalidate_cache
    (mk (keys w)
        (filter (fun s => ~ (signer_fingerprint s = signer_fp /\ subject_fingerprint s = subject_fp))
           (signatures w))
        (own_fingerprints w) (trusted_introducers w) (manual_overrides w) (trust_cache w) (cache_valid w)).

Definition set_manual_trust (w : t) (fp : string) (level : TrustLevel) : t :=
  invalidate_cache
    (mk (keys w) (signatures w) (own_fingerprints w) (trusted_introducers w)
        (<[fp := level]> (manual_overrides w)) (trust_cache w) (cache_valid w)).

(** ** The fixpoint *)

(** [trust.get(fp).copied().unwrap_or(Unknown)]. *)
Definition lvl (trust : gmap string TrustLevel) (fp : string) : TrustLevel :=
  default Unknown (trust !! fp).

(** What one signature contributes to its subject. *)
Definition contribution (trust : gmap string TrustLevel) (sig : TrustSignature) : TrustLevel :=
  TrustLevel.min (lvl trust (signer_fingerprint sig)) (TrustLevel.from_i32 (trust_level sig)).

(** The inner loop over the valid signatures: [(full, marginal)]. *)
Fixpoint count_sigs (trust : gmap string TrustLevel) (fp : string) (sigs : list TrustSignature)
    (full marginal : nat) : nat * nat :=
  match sigs with
  | [] => (full, marginal)
  | sig :: rest =>
      if negb (bool_decide (subject_fingerprint sig = fp)) then count_sigs trust fp rest full marginal
      else
        let c := contribution trust sig in
        if TrustLevel.ge c Full then count_sigs trust fp rest (S full) marginal
        else if TrustLevel.ge c Marginal then count_sigs trust fp rest full (S marginal)
        else count_sigs trust fp rest full marginal
  end.

Definition new_level (trust : gmap string TrustLevel) (sigs : list TrustSignature) (fp : string) : TrustLevel :=
  let '(full, marginal) := count_sigs trust fp sigs 0 0 in
  if (1 <=? full)%nat || (2 <=? marginal)%nat then Full
  else if (1 <=? marginal)%nat then Marginal
  else Unknown.

(** Own keys and manual overrides are never recomputed. *)
Definition pinned (w : t) (fp : string) : bool :=
  bool_decide (fp ∈ own_fingerprints w) || bool_decide (is_Some (manual_overrides w !! fp)).

(** One pass of [for fp in self.keys.keys()]. *)
Fixpoint trust_pass (w : t) (sigs : list TrustSignature) (order : list string)
    (trust : gmap string TrustLevel) (changed : bool) : gmap string TrustLevel * bool :=
  match order with
  | [] => (trust, changed)
  | fp :: rest =>
      if pinned w fp then trust_pass w sigs rest trust changed
      else
        let nl := new_level trust sigs fp in
        let cur := lvl trust fp in
        if negb (bool_decide (nl = cur)) then trust_pass w sigs rest (<[fp := nl]> trust) true
        else trust_pass w sigs rest trust changed
  end.

(** [loop { .. if !changed { break } }]; [None] when the fuel runs out. *)
Fixpoint trust_loop (fuel : nat) (w : t) (sigs : list TrustSignature) (order : list string)
    (trust : gmap string TrustLevel) : option (gmap string TrustLevel) :=
  match fuel with
  | O => None
  | S fuel' =>
      let '(trust', changed) := trust_pass w sigs order trust false in
      if negb changed then Some trust' else trust_loop fuel' w sigs order trust'
  end.

(** Own keys at Ultimate, then the manual overrides on top. *)
Definition base_trust (w : t) : gmap string TrustLevel :=
  manual_overrides w ∪ gset_to_gmap Ultimate (own_fingerprints w).

Definition loop_fuel (order : list string) : nat := 2 * length order + 1.

Section Trust.
Context `{Crypto}.

(** [TrustSignature::create]. *)
Definition create_signature (signing_key : bytes) (signer_fp subject_fp : string) (level timestamp : Z) :
    TrustSignature :=
  {| signer_fingerprint := signer_fp; subject_fingerprint := subject_fp; trust_level := level;
     ts_timestamp := timestamp;
     signature_data := ed_sign signing_key (signature_message subject_fp level timestamp) |}.

Definition signature_is_valid (w : t) (sig : TrustSignature) : bool :=
  match keys w !! signer_fingerprint sig with
  | None => false
  | Some signer =>
      match hex_decode (public_key_hex signer) with
      | None => false
      | Some bs =>
          match array32 bs with
          | None => false
          | Some arr =>
              match ed_vk_from_bytes arr with
              | None => false
              | Some vk =>
                  match ed_sig_from_slice (signature_data sig) with
                  | None => false
                  | Some signature =>
                      ed_verify vk (signature_message (subject_fingerprint sig) (trust_level sig)
                                      (ts_timestamp sig)) signature
                  end
              end
          end
      end
  end.

Definition add_signature (w : t) (sig : TrustSignature) : t * bool :=
  if negb (has_key w (signer_fingerprint sig)) || negb (has_key w (subject_fingerprint sig)) then (w, false)
  else if existsb (fun s => bool_decide (signer_fingerprint s = signer_fingerprint sig) &&
                            bool_decide (subject_fingerprint s = subject_fingerprint sig)) (signatures w)
  then (w, false)
  else if negb (signature_is_valid w sig) then (w, false)
  else
    (invalidate_cache
       (mk (keys w) (signatures w ++ [sig]) (own_fingerprints w) (trusted_introducers w)
           (manual_overrides w) (trust_cache w) (cache_valid w)), true).

Definition valid_sigs (w : t) : list TrustSignature :=
  filter (fun s => signature_is_valid w s = true) (signatures w).

Definition compute_trust_map (w : t) (order : list string) : option (gmap string TrustLevel) :=
  trust_loop (loop_fuel order) w (valid_sigs w) order (base_trust w).

Definition calculate_trust (w : t) (order : list string) (fp : string) : t * TrustLevel :=
  match manual_overrides w !! fp with
  | Some level => (w, level)
  | None =>
      if bool_decide (fp ∈ own_fingerprints w) then (w, Ultimate)
      else
        let w :=
          if negb (cache_valid w) then
            mk (keys w) (signatures w) (own_fingerprints w) (trusted_introducers w)
               (manual_overrides w) (default ∅ (compute_trust_map w order)) true
          else w in
        (w, lvl (trust_cache w) fp)
  end.

(** The keys at or above a level; every query goes through the cache. *)
Fixpoint keys_at_level_loop (w : t) (order : list string) (min : TrustLevel) (fps : list string)
    (result : list PgpIdentity) : t * list PgpIdentity :=
  match fps with
  | [] => (w, result)
  | fp :: rest =>
      let '(w, trust) := calculate_trust w order fp in
      let result :=
        if TrustLevel.ge trust min then
          match keys w !! fp with Some key => result ++ [key] | None => result end
        else result in
      keys_at_level_loop w order min rest result
  end.

Definition keys_at_level (w : t) (order : list string) (min : TrustLevel) : t * list PgpIdentity :=
  keys_at_level_loop w order min order [].

(** ** The trust path *)

(** [for sig in &self.signatures { .. }] for one dequeued key. *)
Fixpoint expand (w : t) (current : string) (path : list string) (sigs : list TrustSignature)
    (queue : list (string * list string)) (visited : gset string) : list (string * list string) * gset string :=
  match sigs with
  | [] => (queue, visited)
  | sig :: rest =>
      if bool_decide (signer_fingerprint sig = current) &&
         negb (bool_decide (subject_fingerprint sig ∈ visited)) && signature_is_valid w sig then
        expand w current path rest
          (queue ++ [(subject_fingerprint sig, path ++ [subject_fingerprint sig])])
          ({[subject_fingerprint sig]} ∪ visited)
      else expand w current path rest queue visited
  end.

(** [while let Some(..) = queue.pop_front()]; [None] when the fuel runs out. *)
Fixpoint bfs (fuel : nat) (w : t) (target : string) (queue : list (string * list string))
    (visited : gset string) : option (option (list string)) :=
  match fuel with
  | O => None
  | S fuel' =>
      match queue with
      | [] => Some None
      | (current, path) :: rest =>
          if bool_decide (current = target) then Some (Some path)
          else
            let '(queue, visited) := expand w current path (signatures w) rest visited in
            bfs fuel' w target queue visited
      end
  end.

(** Every key is enqueued at most once, an own key or the subject of a signature. *)
Definition bfs_fuel (w : t) : nat :=
  size (own_fingerprints w) + length (signatures w) + 1.

Definition trust_path (w : t) (fp : string) : list string :=
  if bool_decide (fp ∈ own_fingerprints w) then ["(you) == " +:+ fingerprint_short fp]
  else
    let own := elements (own_fingerprints w) in
    match bfs (bfs_fuel w) w fp ((fun o => (o, [o])) <$> own) (own_fingerprints w) with
    | Some (Some path) => fingerprint_short <$> path
    | _ => ["(no trust path found)"]
    end.

End Trust.

End WebOfTrust.

Abbreviation WebOfTrust := WebOfTrust.t.

(** ** The path search *)

Module PathFacts.
Import WebOfTrust.

(** Signed keys not yet visited. *)
Definition unvisited (w : t) (visited : gset string) : nat :=
  size (list_to_set (subject_fingerprint <$> signatures w) ∖ visited).

Lemma unvisited_visit w s visited :
  s ∈ signatures w -> subject_fingerprint s ∉ visited ->
  unvisited w visited = S (unvisited w ({[subject_fingerprint s]} ∪ visited)).
Proof.
  intros Hs Hv. unfold unvisited. set (A := list_to_set _).
  assert (Ha : subject_fingerprint s ∈ A ∖ visited).
  { apply elem_of_difference. split; [|done]. apply elem_of_list_to_set, list_elem_of_fmap. eauto. }
  replace (A ∖ ({[subject_fingerprint s]} ∪ visited)) with ((A ∖ visited) ∖ {[subject_fingerprint s]})
    by (clear; set_solver).
  rewrite (size_difference (A ∖ visited)) by (by apply singleton_subseteq_l). rewrite size_singleton.
  assert (size (A ∖ visited) <> 0)%nat; [|lia]. intros E%size_empty_inv. by apply (E (subject_fingerprint s)) in Ha.
Qed.

(** What [expand] enqueues it also visits. *)
Lemma expand_measure `{Crypto} w current path sigs queue visited queue' visited' :
  (forall s, s ∈ sigs -> s ∈ signatures w) ->
  expand w current path sigs queue visited = (queue', visited') ->
  (length queue' + unvisited w visited' = length queue + unvisited w visited)%nat.
Proof.
  revert queue visited. induction sigs as [|s sigs IH]; intros queue visited Hs E; cbn [expand] in E; [by simplify_eq|].
  assert (Hs' : forall s0, s0 ∈ sigs -> s0 ∈ signatures w) by (intros s0 H0; apply Hs; by right).
  destruct (_ && _) eqn:Ec; [|by eapply IH].
  apply IH in E; [|done]. rewrite length_app in E. breflect.
  rewrite (unvisited_visit w s visited) by (done || apply Hs; left). simpl in E. lia.
Qed.

Lemma bfs_total `{Crypto} fuel w target queue visited :
  (length queue + unvisited w visited < fuel)%nat -> is_Some (bfs fuel w target queue visited).
Proof.
  revert queue visited. induction fuel as [|fuel IH]; intros queue visited Hf; [lia|].
  cbn [bfs]. destruct queue as [|[current path] rest]; [done|]. case_bool_decide; [done|].
  destruct (expand _ _ _ _ _ _) as [q v] eqn:E. apply IH.
  apply expand_measure in E; [|done]. simpl in Hf. lia.
Qed.

(** The fuel of [trust_path] is enough: the search always ends. *)
Lemma trust_path_search_ends `{Crypto} w fp :
  is_Some (bfs (bfs_fuel w) w fp ((fun o => (o, [o])) <$> elements (own_fingerprints w)) (own_fingerprints w)).
Proof.
  apply bfs_total. rewrite length_fmap. unfold bfs_fuel, size, set_size. simpl.
  assert (unvisited w (own_fingerprints w) <= length (signatures w))%nat; [|lia].
  unfold unvisited. etrans; [apply subseteq_size, subseteq_difference_l; reflexivity|].
  rewrite <-(length_fmap subject_fingerprint). induction (subject_fingerprint <$> signatures w) as [|x l IH].
  - rewrite list_to_set_nil, size_empty. done.
  - rewrite list_to_set_cons, size_union_alt, size_singleton. cbn [length]. apply le_n_S.
    etrans; [|exact IH]. by apply subseteq_size, subseteq_difference_l.
Qed.

End PathFacts.

(** ** The fixpoint theory *)

Module TrustFacts.
Import WebOfTrust.

Abbreviation rank := TrustLevel.to_i32.

Lemma rank_inj a b : rank a = rank b -> a = b.
Proof. by destruct a, b. Qed.

Lemma rank_min a b : rank (TrustLevel.min a b) = Z.min (rank a) (rank b).
Proof. unfold TrustLevel.min. case_match; breflect; lia. Qed.

Lemma ge_rank a b : TrustLevel.ge a b = true <-> rank b <= rank a.
Proof. apply Z.leb_le. Qed.

(** Levels seen as a function, ordered pointwise. *)
Definition le_on (f g : string -> TrustLevel) : Prop := forall fp, rank (f fp) <= rank (g fp).

(** ** One signature list *)

(** The contributions to [fp] under the assignment [f]. *)
Definition contrib (f : string -> TrustLevel) (s : TrustSignature) : TrustLevel :=
  TrustLevel.min (f (signer_fingerprint s)) (TrustLevel.from_i32 (trust_level s)).

Definition count_ge (sigs : list TrustSignature) (f : string -> TrustLevel) (fp : string)
    (l : TrustLevel) : nat :=
  length (filter (fun s => subject_fingerprint s = fp /\ rank l <= rank (contrib f s)) sigs).

Section Rule.
Variables (sigs : list TrustSignature).

(** The reference rule of the file header: Full from one Full contribution or two Marginal ones,
    Marginal from one. *)
Definition rule (f : string -> TrustLevel) (fp : string) : TrustLevel :=
  if bool_decide (1 <= count_ge sigs f fp Full \/ 2 <= count_ge sigs f fp Marginal)%nat then Full
  else if bool_decide (1 <= count_ge sigs f fp Marginal)%nat then Marginal
  else Unknown.

Lemma rule_range f fp : 0 <= rank (rule f fp) <= 2.
Proof. unfold rule. repeat case_bool_decide; simpl; lia. Qed.

Lemma filter_length_mono {A} (P Q : A -> Prop) `{forall x, Decision (P x), forall x, Decision (Q x)} l :
  (forall x, P x -> Q x) -> (length (filter P l) <= length (filter Q l))%nat.
Proof.
  intros HPQ. induction l as [|x l IH]; [done|].
  destruct (decide (P x)), (decide (Q x)); try (by exfalso; auto).
  - rewrite !filter_cons_True by done. simpl. lia.
  - rewrite filter_cons_False, filter_cons_True by done. simpl. lia.
  - by rewrite !filter_cons_False by done.
Qed.

Lemma contrib_mono f g s : le_on f g -> rank (contrib f s) <= rank (contrib g s).
Proof. intros Hfg. unfold contrib. rewrite !rank_min. pose proof (Hfg (signer_fingerprint s)). lia. Qed.

Lemma count_ge_mono f g fp l : le_on f g -> (count_ge sigs f fp l <= count_ge sigs g fp l)%nat.
Proof.
  intros Hfg. apply filter_length_mono. intros s [? Hr]. split; [done|].
  pose proof (contrib_mono f g s Hfg). lia.
Qed.

Lemma rule_mono f g fp : le_on f g -> rank (rule f fp) <= rank (rule g fp).
Proof.
  intros Hfg. pose proof (count_ge_mono f g fp Full Hfg). pose proof (count_ge_mono f g fp Marginal Hfg).
  unfold rule. repeat case_bool_decide; simpl; lia.
Qed.

Lemma rule_ext f g fp : (forall x, f x = g x) -> rule f fp = rule g fp.
Proof.
  intros E. apply rank_inj.
  assert (le_on f g /\ le_on g f) as [??] by (split; intros x; rewrite E; lia).
  apply Z.le_antisymm; by apply rule_mono.
Qed.

(** A positive level needs a contribution. *)
Lemma rule_needs f fp :
  1 <= rank (rule f fp) ->
  exists s, s ∈ sigs /\ subject_fingerprint s = fp /\ 1 <= rank (f (signer_fingerprint s)).
Proof.
  intros Hr. assert (Hc : (1 <= count_ge sigs f fp Marginal)%nat).
  { unfold rule in Hr. case_bool_decide as H1.
    - destruct H1 as [H1|]; [|lia]. etrans; [exact H1|]. apply filter_length_mono. simpl. intros s []. split; [done|lia].
    - by case_bool_decide. }
  unfold count_ge in Hc.
  destruct (filter _ sigs) as [|s l] eqn:E; [simpl in Hc; lia|].
  assert (Hin : s ∈ filter (fun s => subject_fingerprint s = fp /\ rank Marginal <= rank (contrib f s)) sigs)
    by (rewrite E; by left).
  apply list_elem_of_filter in Hin as [[Hs Hm] Hin]. exists s. split_and!; try done.
  unfold contrib in Hm. rewrite rank_min in Hm. simpl in Hm. lia.
Qed.

(** The counting loop computes the two counters of the rule. *)
Lemma count_ge_cons s l f fp k :
  count_ge (s :: l) f fp k =
    ((if bool_decide (subject_fingerprint s = fp /\ (rank k <= rank (contrib f s))%Z) then 1 else 0)
     + count_ge l f fp k)%nat.
Proof.
  unfold count_ge. case_bool_decide; [rewrite filter_cons_True by done|rewrite filter_cons_False by done]; done.
Qed.

Lemma count_ge_Full_le l f fp : (count_ge l f fp Full <= count_ge l f fp Marginal)%nat.
Proof. apply filter_length_mono. simpl. intros ? []. split; [done|lia]. Qed.

Lemma count_sigs_spec trust fp full marginal l :
  count_sigs trust fp l full marginal =
    ((full + count_ge l (lvl trust) fp Full)%nat,
     (marginal + (count_ge l (lvl trust) fp Marginal - count_ge l (lvl trust) fp Full))%nat).
Proof.
  revert full marginal. induction l as [|s l IH]; intros full marginal; cbn [count_sigs].
  { unfold count_ge. simpl. f_equal; lia. }
  pose proof (count_ge_Full_le l (lvl trust) fp) as Hle.
  change (contribution trust s) with (contrib (lvl trust) s).
  rewrite !(count_ge_cons s). case_bool_decide as Hs; cbn [negb].
  2: { rewrite IH, !bool_decide_eq_false_2 by tauto. done. }
  destruct (TrustLevel.ge _ Full) eqn:E1; [|destruct (TrustLevel.ge _ Marginal) eqn:E2].
  - apply ge_rank in E1. rewrite IH, !bool_decide_eq_true_2 by (split; [done|simpl in *; lia]). f_equal; lia.
  - apply ge_rank in E2. rewrite <-not_true_iff_false, ge_rank in E1.
    rewrite IH, bool_decide_eq_false_2, bool_decide_eq_true_2 by tauto. f_equal; lia.
  - rewrite <-not_true_iff_false, ge_rank in E1, E2.
    rewrite IH, !bool_decide_eq_false_2 by tauto. done.
Qed.

Lemma new_level_rule trust fp : new_level trust sigs fp = rule (lvl trust) fp.
Proof.
  unfold new_level. rewrite count_sigs_spec, !Nat.add_0_l. unfold rule.
  pose proof (count_ge_Full_le sigs (lvl trust) fp).
  set (F := count_ge _ _ _ Full) in *. set (M := count_ge _ _ _ Marginal) in *.
  repeat case_bool_decide; destruct (1 <=? F)%nat eqn:E1, (2 <=? M - F)%nat eqn:E2, (1 <=? M - F)%nat eqn:E3;
    cbn [orb]; rewrite ?Nat.leb_le, ?Nat.leb_gt in *; try done; exfalso; lia.
Qed.

End Rule.
(** ** The loop *)

Section Loop.
Variables (w : t) (sigs : list TrustSignature) (order : list string).

(** A fingerprint the loop recomputes. *)
Definition free (fp : string) : Prop := pinned w fp = false /\ fp ∈ order.

#[local] Instance free_dec fp : Decision (free fp).
Proof. unfold free. apply _. Defined.

(** An assignment the rule reproduces. *)
Definition is_fix (F : string -> TrustLevel) : Prop :=
  forall fp, F fp = if decide (free fp) then rule sigs F fp else lvl (base_trust w) fp.

(** Trusted directly, or signed by somebody vouched for. *)
Inductive vouched : string -> Prop :=
| vouched_base fp : 1 <= rank (lvl (base_trust w) fp) -> vouched fp
| vouched_sig s : s ∈ sigs -> vouched (signer_fingerprint s) -> vouched (subject_fingerprint s).

(** The map between two turns of the loop: below its own image under the rule. *)
Record below (trust : gmap string TrustLevel) : Prop := {
  b_fixed : forall fp, ~ free fp -> trust !! fp = base_trust w !! fp;
  b_free : forall fp, free fp -> trust !! fp = None \/ exists l, trust !! fp = Some l /\ 1 <= rank l <= 2;
  b_rule : forall fp, free fp -> rank (lvl trust fp) <= rank (rule sigs (lvl trust) fp);
  b_vouched : forall fp, 1 <= rank (lvl trust fp) -> vouched fp;
}.

Lemma base_free fp : free fp -> base_trust w !! fp = None.
Proof.
  intros [Hp _]. unfold pinned in Hp. apply orb_false_iff in Hp as [Ho Hm]. breflect.
  unfold base_trust. apply lookup_union_None. split; [by apply eq_None_not_Some|].
  by apply lookup_gset_to_gmap_None.
Qed.

Lemma base_below : below (base_trust w).
Proof.
  split; try done.
  - intros fp Hf. left. by apply base_free.
  - intros fp Hf. unfold lvl at 1. rewrite base_free by done. simpl. apply rule_range.
  - intros fp. apply vouched_base.
Qed.

(** Raising one free key to what the rule gives. *)
Lemma below_update trust fp :
  below trust -> free fp -> rule sigs (lvl trust) fp <> lvl trust fp ->
  below (<[fp := rule sigs (lvl trust) fp]> trust) /\
  le_on (lvl trust) (lvl (<[fp := rule sigs (lvl trust) fp]> trust)) /\
  rank (lvl trust fp) < rank (lvl (<[fp := rule sigs (lvl trust) fp]> trust) fp).
Proof.
  intros Hb Hf Hne. set (nl := rule _ _ fp) in *. set (trust' := <[fp := nl]> trust).
  pose proof (b_rule _ Hb fp Hf) as Hle. fold nl in Hle.
  assert (Hlt : rank (lvl trust fp) < rank nl).
  { assert (rank nl <> rank (lvl trust fp)) by (intros ?%rank_inj; done). lia. }
  assert (Hsame : lvl trust' fp = nl) by (unfold lvl, trust'; by rewrite lookup_insert_eq).
  assert (Hother : forall q, q <> fp -> lvl trust' q = lvl trust q).
  { intros q Hq. unfold lvl, trust'. by rewrite lookup_insert_ne. }
  assert (Hup : le_on (lvl trust) (lvl trust')).
  { intros q. destruct (decide (q = fp)) as [->|Hq]; [rewrite Hsame; lia|by rewrite Hother]. }
  pose proof (rule_range sigs (lvl trust) fp) as Hrng. fold nl in Hrng.
  assert (0 <= rank (lvl trust fp)).
  { unfold lvl. destruct (b_free _ Hb fp Hf) as [-> | (l & -> & Hl)]; simpl; lia. }
  split_and!; [split|done|by rewrite Hsame].
  - intros q Hq. unfold trust'. rewrite lookup_insert_ne by (intros ->; done). by apply (b_fixed _ Hb).
  - intros q Hq. unfold trust'. destruct (decide (q = fp)) as [->|].
    + rewrite lookup_insert_eq. right. exists nl. split; [done|lia].
    + rewrite lookup_insert_ne by done. by apply (b_free _ Hb).
  - intros q Hq. destruct (decide (q = fp)) as [->|Hne'].
    + rewrite Hsame. by apply rule_mono.
    + rewrite Hother by done. etrans; [by apply (b_rule _ Hb)|]. by apply rule_mono.
  - intros q Hq. destruct (decide (q = fp)) as [->|Hne'].
    + rewrite Hsame in Hq. destruct (rule_needs sigs (lvl trust) fp Hq) as (s & Hs & <- & Hl).
      apply vouched_sig; [done|]. by apply (b_vouched _ Hb).
    + rewrite Hother in Hq by done. by apply (b_vouched _ Hb).
Qed.

(** The sum of the levels of the free keys. *)
Definition potential (trust : gmap string TrustLevel) : Z :=
  foldr (fun fp acc => acc + (if decide (free fp) then rank (lvl trust fp) else 0)) 0 order.

Lemma potential_range trust : below trust -> 0 <= potential trust <= 2 * zlen order.
Proof.
  intros Hb. unfold potential.
  assert (Hl : forall fp, 0 <= (if decide (free fp) then rank (lvl trust fp) else 0) <= 2).
  { intros fp. case_decide as Hf; [|lia]. unfold lvl.
    destruct (b_free _ Hb fp Hf) as [-> | (l & -> & ?)]; simpl; lia. }
  generalize order as l. induction l as [|fp l IH]; simpl; [done|].
  rewrite zlen_cons. specialize (Hl fp). lia.
Qed.

Lemma potential_le f g l :
  le_on (lvl f) (lvl g) ->
  foldr (fun fp acc => acc + (if decide (free fp) then rank (lvl f fp) else 0)) 0 l <=
  foldr (fun fp acc => acc + (if decide (free fp) then rank (lvl g fp) else 0)) 0 l.
Proof.
  intros Hfg. induction l as [|fp l IH]; simpl; [done|]. specialize (Hfg fp). case_decide; lia.
Qed.

Lemma potential_lt f g fp :
  le_on (lvl f) (lvl g) -> free fp -> rank (lvl f fp) < rank (lvl g fp) -> potential f < potential g.
Proof.
  intros Hfg Hf Hlt. unfold potential.
  assert (Hin : fp ∈ order) by apply Hf.
  revert Hin. generalize order as l. induction l as [|x l IH]; intros Hin; [by apply not_elem_of_nil in Hin|].
  simpl. pose proof (potential_le f g l Hfg). pose proof (Hfg x).
  apply elem_of_cons in Hin as [->|Hin].
  - rewrite !decide_True by done. lia.
  - specialize (IH Hin). case_decide; lia.
Qed.

(** One pass: nothing changes and the rule holds on all keys visited, or the potential grows. *)
Lemma trust_pass_spec rest trust ch trust' ch' :
  trust_pass w sigs rest trust ch = (trust', ch') -> (forall fp, fp ∈ rest -> fp ∈ order) -> below trust ->
  below trust' /\ (forall F, is_fix F -> le_on (lvl trust) F -> le_on (lvl trust') F) /\
  potential trust <= potential trust' /\
  ((trust' = trust /\ ch' = ch /\ forall fp, fp ∈ rest -> free fp -> rule sigs (lvl trust) fp = lvl trust fp) \/
   (ch' = true /\ potential trust < potential trust')).
Proof.
  revert trust ch. induction rest as [|fp rest IH]; intros trust ch E Hsub Hb; cbn [trust_pass] in E.
  { simplify_eq. split_and!; [done|auto|done|]. left. split_and!; [done..|].
    intros q Hq. by apply not_elem_of_nil in Hq. }
  assert (Hsub' : forall q, q ∈ rest -> q ∈ order) by (intros; apply Hsub; by right).
  destruct (pinned w fp) eqn:Hp.
  { destruct (IH trust ch E Hsub' Hb) as (? & ? & ? & Hcase). split_and!; try done.
    destruct Hcase as [(-> & -> & Hr)|?]; [left; split_and!; [done..|]|by right].
    intros q Hq Hf. apply elem_of_cons in Hq as [->|Hq]; [|auto]. destruct Hf. congruence. }
  assert (Hf : free fp) by (split; [done|apply Hsub; by left]).
  rewrite new_level_rule in E. case_bool_decide as Hnl; cbn [negb] in E.
  - destruct (IH trust ch E Hsub' Hb) as (? & ? & ? & Hcase). split_and!; try done.
    destruct Hcase as [(-> & -> & Hr)|?]; [left; split_and!; [done..|]|by right].
    intros q Hq Hfq. apply elem_of_cons in Hq as [->|Hq]; auto.
  - destruct (below_update trust fp Hb Hf Hnl) as (Hb' & Hup & Hlt).
    pose proof (potential_lt _ _ fp Hup Hf Hlt).
    destruct (IH _ true E Hsub' Hb') as (? & Hle & ? & Hcase). split_and!; try done; [|lia|].
    + intros F HF HtF. apply (Hle F HF). intros q. destruct (decide (q = fp)) as [->|Hq].
      * unfold lvl at 1. rewrite lookup_insert_eq. simpl. rewrite (HF fp), decide_True by done.
        by apply rule_mono.
      * unfold lvl at 1. rewrite lookup_insert_ne by done. apply HtF.
    + right. destruct Hcase as [(-> & -> & _)|[-> ?]]; split; try done; lia.
Qed.

(** Enough fuel: the loop stops, at the least fixpoint. *)
Lemma trust_loop_spec fuel trust :
  below trust -> (forall F, is_fix F -> le_on (lvl trust) F) ->
  2 * zlen order - potential trust < Z.of_nat fuel ->
  exists trust', trust_loop fuel w sigs order trust = Some trust' /\ below trust' /\
    is_fix (lvl trust') /\ (forall F, is_fix F -> le_on (lvl trust') F).
Proof.
  revert trust. induction fuel as [|fuel IH]; intros trust Hb HF Hfuel.
  { pose proof (potential_range trust Hb). lia. }
  cbn [trust_loop]. destruct (trust_pass w sigs order trust false) as [trust1 ch] eqn:E.
  destruct (trust_pass_spec _ _ _ _ _ E ltac:(auto) Hb) as (Hb1 & Hle & _ & [(-> & -> & Hr)|[-> Hlt]]).
  - exists trust. split_and!; try done. intros fp. case_decide as Hf.
    + rewrite Hr; [done|apply Hf|done].
    + unfold lvl. by rewrite (b_fixed _ Hb).
  - apply IH; [done|auto|lia].
Qed.

Lemma base_least F : is_fix F -> le_on (lvl (base_trust w)) F.
Proof.
  intros HF fp. rewrite (HF fp). case_decide as Hf; [|done].
  unfold lvl. rewrite base_free by done. simpl. apply rule_range.
Qed.

End Loop.
End TrustFacts.

(** ** Properties *)

Section TrustProperties.
Context `{Crypto}.
Import WebOfTrust TrustFacts.

Lemma compute_least w order :
  exists trust, compute_trust_map w order = Some trust /\ below w (valid_sigs w) order trust /\
    is_fix w (valid_sigs w) order (lvl trust) /\
    (forall F, is_fix w (valid_sigs w) order F -> le_on (lvl trust) F).
Proof.
  unfold compute_trust_map. apply trust_loop_spec; [apply base_below|apply base_least|].
  pose proof (potential_range w (valid_sigs w) order _ (base_below w (valid_sigs w) order)).
  unfold loop_fuel, zlen in *. lia.
Qed.

Lemma free_ext w o1 o2 fp : (forall x, x ∈ o1 <-> x ∈ o2) -> free w o1 fp <-> free w o2 fp.
Proof. intros E. unfold free. by rewrite E. Qed.

Lemma is_fix_ext w sigs o1 o2 F : (forall x, x ∈ o1 <-> x ∈ o2) -> is_fix w sigs o1 F -> is_fix w sigs o2 F.
Proof.
  intros E HF fp. rewrite (HF fp). pose proof (free_ext w o1 o2 fp E).
  repeat case_decide; try done; tauto.
Qed.

Lemma compute_order_irrelevant w o1 o2 :
  (forall x, x ∈ o1 <-> x ∈ o2) -> compute_trust_map w o1 = compute_trust_map w o2.
Proof.
  intros E. destruct (compute_least w o1) as (t1 & -> & B1 & F1 & L1).
  destruct (compute_least w o2) as (t2 & -> & B2 & F2 & L2). f_equal.
  assert (Hl : forall fp, lvl t1 fp = lvl t2 fp).
  { intros fp. apply rank_inj, Z.le_antisymm.
    - apply L1. eapply is_fix_ext; [|exact F2]. intros x. by rewrite E.
    - apply L2. by eapply is_fix_ext. }
  apply map_eq. intros fp. specialize (Hl fp). destruct (decide (free w o1 fp)) as [Hf|Hf].
  - unfold lvl in Hl.
    destruct (b_free _ _ _ _ B1 fp Hf) as [E1|(l1 & E1 & ?)];
      destruct (b_free _ _ _ _ B2 fp (proj1 (free_ext w o1 o2 fp E) Hf)) as [E2|(l2 & E2 & ?)];
      rewrite E1, E2 in *; simpl in Hl; subst; simpl in *; try done; lia.
  - rewrite (b_fixed _ _ _ _ B1), (b_fixed _ _ _ _ B2); [done| |done].
    by rewrite <-(free_ext w o1 o2 fp E).
Qed.

(** C11: the trust computation terminates and computes the least fixpoint. Within two passes per
    known key and one more the loop stops; the map it returns satisfies the trust rule at every
    key that is neither own nor manually set (Full for one Full contribution or two Marginal
    ones, Marginal for one, a contribution being the smaller of the signer's level and the level
    granted, over signatures that verify), keeps the own and manual levels, and is below every
    other assignment that does. It does not depend on the order the keys are visited in, which
    the [HashMap] does not fix. *)
Theorem trust_least_fixpoint w order :
  exists trust, (forall order', (forall fp, fp ∈ order' <-> fp ∈ order) ->
       compute_trust_map w order' = Some trust) /\
    (forall fp, lvl trust fp =
       if decide (free w order fp) then rule (valid_sigs w) (lvl trust) fp else lvl (base_trust w) fp) /\
    (forall F, (forall fp, F fp =
       if decide (free w order fp) then rule (valid_sigs w) F fp else lvl (base_trust w) fp) ->
       forall fp, TrustLevel.to_i32 (lvl trust fp) <= TrustLevel.to_i32 (F fp)).
Proof.
  destruct (compute_least w order) as (t & E & _ & HF & HL). exists t. split_and!; [|done|done].
  intros order' Ho. rewrite <-E. by apply compute_order_irrelevant.
Qed.

(** Trust is never conjured up. A key with a level of Marginal or better, that is neither an
    own key nor manually set, is at the end of a chain of signatures, each of which verifies
    under the stored key of its signer, that starts at an own or manually trusted key; cycles
    of keys that only sign one another stay Unknown. *)
Theorem trust_is_vouched w order trust fp :
  compute_trust_map w order = Some trust -> TrustLevel.can_speak (lvl trust fp) = true ->
  vouched w (valid_sigs w) fp.
Proof.
  intros E Hs. destruct (compute_least w order) as (t & E' & Hb & _). rewrite E in E'. simplify_eq.
  apply (b_vouched _ _ _ _ Hb). by apply ge_rank in Hs.
Qed.

(** The level without a cache. *)
Definition reference_trust (w : WebOfTrust) (fp : string) : TrustLevel :=
  match manual_overrides w !! fp with
  | Some level => level
  | None =>
      if bool_decide (fp ∈ own_fingerprints w) then Ultimate
      else lvl (default ∅ (compute_trust_map w (elements (dom (keys w))))) fp
  end.

(** An order over the known keys. *)
Definition key_order (w : WebOfTrust) (order : list string) : Prop :=
  forall fp, fp ∈ order <-> fp ∈ dom (keys w).

(** States reached from a new or freshly loaded web ([cache_valid] is skipped by serde) by the
    operations, all of them, in any order. *)
Inductive wot_reachable : WebOfTrust -> Prop :=
| wr_loaded w : cache_valid w = false -> wot_reachable w
| wr_own_key w identity : wot_reachable w -> wot_reachable (add_own_key w identity)
| wr_key w identity : wot_reachable w -> wot_reachable (add_key w identity)
| wr_signature w sig : wot_reachable w -> wot_reachable (add_signature w sig).1
| wr_remove w signer subject : wot_reachable w -> wot_reachable (remove_signature w signer subject)
| wr_manual w fp level : wot_reachable w -> wot_reachable (set_manual_trust w fp level)
| wr_query w order fp : wot_reachable w -> key_order w order -> wot_reachable (calculate_trust w order fp).1.

Definition coherent (w : WebOfTrust) : Prop :=
  cache_valid w = true -> trust_cache w = default ∅ (compute_trust_map w (elements (dom (keys w)))).

Lemma key_order_elements w order : key_order w order -> forall x, x ∈ order <-> x ∈ elements (dom (keys w)).
Proof. intros Ho x. rewrite (Ho x). by rewrite elem_of_elements. Qed.

(** The cache fields do not enter the computation. *)
Lemma compute_cache_irrelevant w c v order :
  compute_trust_map (mk (keys w) (signatures w) (own_fingerprints w) (trusted_introducers w)
    (manual_overrides w) c v) order = compute_trust_map w order.
Proof.
  unfold compute_trust_map.
  assert (Hp : forall sigs o t ch, trust_pass (mk (keys w) (signatures w) (own_fingerprints w)
      (trusted_introducers w) (manual_overrides w) c v) sigs o t ch = trust_pass w sigs o t ch).
  { intros sigs o. induction o as [|fp o IH]; intros t ch; [done|]. simpl.
    change (pinned (mk _ _ _ _ _ _ _) fp) with (pinned w fp).
    destruct (pinned w fp); [apply IH|]. case_match; apply IH. }
  change (valid_sigs (mk _ _ _ _ _ _ _)) with (valid_sigs w).
  change (base_trust (mk _ _ _ _ _ _ _)) with (base_trust w).
  generalize (base_trust w). induction (loop_fuel order) as [|n IH]; intros t; [done|]. simpl.
  rewrite Hp. destruct (trust_pass w _ order t false) as [t' ch]. destruct (negb ch); [done|apply IH].
Qed.

Lemma reachable_coherent w : wot_reachable w -> coherent w.
Proof.
  induction 1 as [w Hv|w i Hr IH|w i Hr IH|w sig Hr IH|w a b Hr IH|w fp l Hr IH|w order fp Hr IH Ho]; [unfold coherent; congruence|done|done| |done|done|].
  - unfold add_signature. repeat (destruct (_ : bool); [done|]). done.
  - unfold calculate_trust. destruct (manual_overrides w !! fp); [done|]. case_bool_decide; [done|].
    destruct (cache_valid w) eqn:Ev; simpl; [done|]. intros _. simpl.
    by rewrite compute_cache_irrelevant, (compute_order_irrelevant w order _ (key_order_elements w order Ho)).
Qed.

(** A query changes the cache alone. *)
Lemma query_cache_only w order fp :
  exists c v, (calculate_trust w order fp).1 =
    mk (keys w) (signatures w) (own_fingerprints w) (trusted_introducers w) (manual_overrides w) c v.
Proof.
  assert (Hw : exists c v, w = mk (keys w) (signatures w) (own_fingerprints w) (trusted_introducers w) (manual_overrides w) c v)
    by (exists (trust_cache w), (cache_valid w); by destruct w).
  unfold calculate_trust. destruct (manual_overrides w !! fp); [exact Hw|]. case_bool_decide; [exact Hw|].
  destruct (cache_valid w); [exact Hw|]. cbn. eauto.
Qed.

Lemma query_keeps w order fp :
  keys (calculate_trust w order fp).1 = keys w /\ forall x, reference_trust (calculate_trust w order fp).1 x = reference_trust w x.
Proof.
  destruct (query_cache_only w order fp) as (c & v & ->). split; [done|]. intros x. unfold reference_trust. cbn [manual_overrides own_fingerprints keys].
  by rewrite compute_cache_irrelevant.
Qed.

Lemma query_answer w order fp : wot_reachable w -> key_order w order -> (calculate_trust w order fp).2 = reference_trust w fp.
Proof.
  intros Hr Ho. pose proof (reachable_coherent w Hr) as Hc.
  unfold calculate_trust, reference_trust. destruct (manual_overrides w !! fp); [done|].
  case_bool_decide; [done|]. destruct (cache_valid w) eqn:Ev; simpl.
  - by rewrite Hc.
  - by rewrite (compute_order_irrelevant w order _ (key_order_elements w order Ho)).
Qed.

Lemma keys_at_level_fresh w order min fps acc : wot_reachable w -> key_order w order ->
  (keys_at_level_loop w order min fps acc).2 =
  acc ++ omap (fun fp => if TrustLevel.ge (reference_trust w fp) min then keys w !! fp else None) fps.
Proof.
  revert w acc. induction fps as [|fp fps IH]; intros w acc Hr Ho; cbn [keys_at_level_loop omap list_omap]; [by rewrite app_nil_r|].
  pose proof (query_answer w order fp Hr Ho) as Ha. pose proof (wr_query w order fp Hr Ho) as Hr'. destruct (query_keeps w order fp) as [Hk Hf].
  destruct (calculate_trust w order fp) as [w' tr]. cbn [fst snd] in *. subst tr. rewrite Hk. rewrite IH; [|done|by unfold key_order; rewrite Hk].
  rewrite Hk. assert (Hext : forall l : list string, omap (fun fp => if TrustLevel.ge (reference_trust w' fp) min then keys w !! fp else None) l =
    omap (fun fp => if TrustLevel.ge (reference_trust w fp) min then keys w !! fp else None) l)
    by (intros l; induction l as [|x l IHl]; [done|]; cbn; by rewrite Hf, IHl).
  rewrite Hext. destruct (TrustLevel.ge _ _); [|done]. destruct (keys w !! fp); [|done]. by rewrite <-app_assoc.
Qed.

(** C37: the cache is invisible. After any history of added keys and own keys, added and removed
    signatures, overrides and queries, a query answers what recomputing from the keys, the
    signatures, the own keys and the overrides gives, whatever was queried before and in
    whatever order the keys are walked; and the keys listed at a level are those whose recomputed
    trust reaches it. *)
Theorem cached_trust_is_fresh w order :
  wot_reachable w -> key_order w order ->
  (forall fp, (calculate_trust w order fp).2 = reference_trust w fp) /\
  (forall min, (keys_at_level w order min).2 =
     omap (fun fp => if TrustLevel.ge (reference_trust w fp) min then keys w !! fp else None) order).
Proof. intros Hr Ho. split; [intros fp; by apply query_answer|]. intros min. exact (keys_at_level_fresh w order min order [] Hr Ho). Qed.

End TrustProperties.

(** ** Witnesses *)

Module TrustWitness.
Import WebOfTrust TrustFacts.

Definition person (n : Z) : PgpIdentity :=
  {| user_id := fmt n; public_key_hex := hex_encode (@ed_public toy_crypto [n]);
     pgp_fingerprint := fmt n; pgp_created := 0 |}.

Definition sign_by (n m level : Z) : TrustSignature :=
  @create_signature toy_crypto [n] (fmt n) (fmt m) level 5.

(** 1 is own; 1 signs 2 at Full, 2 signs 3 at Marginal; 4 and 5 only sign each other. *)
Definition web : WebOfTrust :=
  let w := add_own_key new (person 1) in
  let w := foldl add_key w (person <$> [2; 3; 4; 5]) in
  foldl (fun w s => (@add_signature toy_crypto w s).1) w
    [sign_by 1 2 2; sign_by 2 3 1; sign_by 4 5 2; sign_by 5 4 2].

Definition order : list string := ["5"; "3"; "2"; "4"; "1"].

Lemma web_order : key_order web order.
Proof.
  assert (E : dom (keys web) = list_to_set order) by (apply (bool_decide_unpack _); vm_compute; exact I).
  intros fp. rewrite E, elem_of_list_to_set. done.
Qed.

Definition web_map : gmap string TrustLevel := default ∅ (@compute_trust_map toy_crypto web order).

Lemma trust_is_vouched_witness : @vouched web (@valid_sigs toy_crypto web) "3".
Proof.
  apply (trust_is_vouched (H := toy_crypto) web order web_map "3"); vm_compute; reflexivity.
Defined.

(** The web after a query, which fills the cache. *)
Definition queried : WebOfTrust := (@calculate_trust toy_crypto web order "3").1.

Lemma queried_reachable : @wot_reachable toy_crypto queried.
Proof. apply wr_query; [|exact web_order]. apply wr_loaded. vm_compute. reflexivity. Qed.

(** Once the signature that vouched for 2 is removed, the level of 3, answered from the cache before, is gone. *)
Lemma cached_trust_is_fresh_witness :
  cache_valid queried = true /\ (@calculate_trust toy_crypto queried order "3").2 = @reference_trust toy_crypto queried "3" /\
  (@calculate_trust toy_crypto (remove_signature queried "1" "2") order "3").2 = Unknown.
Proof.
  destruct (cached_trust_is_fresh (H := toy_crypto) queried order queried_reachable web_order) as [Hq _].
  destruct (cached_trust_is_fresh (H := toy_crypto) (remove_signature queried "1" "2") order
    (wr_remove _ _ _ queried_reachable) web_order) as [Hr _].
  split; [vm_compute; reflexivity|]. split; [exact (Hq "3")|]. rewrite Hr. vm_compute. reflexivity.
Defined.

(** The levels of that web. *)
Example web_levels :
  (fun fp => (@calculate_trust toy_crypto web order fp).2) <$> ["1"; "2"; "3"; "4"; "6"] =
  [Ultimate; Full; Marginal; Unknown; Unknown].
Proof. vm_compute. reflexivity. Qed.

End TrustWitness.
