(* ===== verification/DcNetwork.v ===== *)
(** [dcnet/network.rs]: a named network of friends with an admin, invitations, a trust
    requirement and a rotating leader. *)

From S2P Require Import Prelude Crypto Identity WebOfTrust.

Module DcNetwork.

Record t := mk {
  name : string;
  admin_uid : string;
  created : Z;
  topic : string;
  members : list string;
  pending_invites : gmap string string;
  min_trust : TrustLevel;
  min_participants : Z;
  max_dropouts : Z;
  round_interval_ms : Z;
  current_leader : string;
  member_join_order : list string;
}.

Definition new (now : Z) (name0 admin : string) : t :=
  {| name := name0; admin_uid := admin; created := now; topic := EmptyString; members := [admin];
     pending_invites := ∅; min_trust := Marginal; min_participants := 2; max_dropouts := 1;
     round_interval_ms := 3000; current_leader := admin; member_join_order := [admin] |}.

Definition set_admin_leader (n : t) (a l : string) : t :=
  mk (name n) a (created n) (topic n) (members n) (pending_invites n) (min_trust n)
     (min_participants n) (max_dropouts n) (round_interval_ms n) l (member_join_order n).

Definition set_lists (n : t) (ms : list string) (inv : gmap string string) (order : list string) : t :=
  mk (name n) (admin_uid n) (created n) (topic n) ms inv (min_trust n)
     (min_participants n) (max_dropouts n) (round_interval_ms n) (current_leader n) order.

Definition is_member (n : t) (uid : string) : bool := bool_decide (uid ∈ members n).
Definition is_admin (n : t) (uid : string) : bool := bool_decide (admin_uid n = uid).
Definition has_pending_invite (n : t) (uid : string) : bool := bool_decide (is_Some (pending_invites n !! uid)).
Definition member_count (n : t) : Z := zlen (members n).

(** [iter().position(|u| u == &x)]. *)
Fixpoint position (x : string) (l : list string) : option nat :=
  match l with
  | [] => None
  | y :: l' => if bool_decide (y = x) then Some O else S <$> position x l'
  end.

Definition next_leader (n : t) : option string :=
  match position (current_leader n) (member_join_order n) with
  | None => None
  | Some current_idx =>
      let next_idx := ((current_idx + 1) mod length (member_join_order n))%nat in
      member_join_order n !! next_idx
  end.

Definition invite_member (n : t) (uid invited_by : string) : t * result unit string :=
  if negb (is_admin n invited_by) then
    (n, Err ("Only admin (" +:+ admin_uid n +:+ ") can invite members"))
  else if is_member n uid then (n, Err (uid +:+ " is already a member"))
  else (set_lists n (members n) (<[uid := invited_by]> (pending_invites n)) (member_join_order n), Ok tt).

(** [{:?}] of a trust level. *)
Definition debug_trust (l : TrustLevel) : string :=
  match l with
  | Never => "Never" | Unknown => "Unknown" | Marginal => "Marginal" | Full => "Full"
  | Ultimate => "Ultimate"
  end.

Definition accept_join (n : t) (uid : string) (trust_level : TrustLevel) : t * result unit string :=
  if negb (has_pending_invite n uid) then (n, Err (uid +:+ " has no pending invitation"))
  else if negb (TrustLevel.ge trust_level (min_trust n)) then
    (n, Err (uid +:+ " has trust level " +:+ debug_trust trust_level +:+ ", but network requires "
             +:+ debug_trust (min_trust n)))
  else
    let n := set_lists n (members n) (delete uid (pending_invites n)) (member_join_order n) in
    let n :=
      if negb (is_member n uid)
      then set_lists n (members n ++ [uid]) (pending_invites n) (member_join_order n ++ [uid])
      else n in
    (n, Ok tt).

(** [retain(|u| u != uid)]. *)
Definition without (uid : string) (l : list string) : list string := filter (fun u => u <> uid) l.

Definition kick_member (n : t) (uid kicked_by : string) : t * result unit string :=
  if negb (is_admin n kicked_by) then
    (n, Err ("Only admin (" +:+ admin_uid n +:+ ") can kick members"))
  else if bool_decide (uid = admin_uid n) then (n, Err "Admin cannot kick themselves")
  else
    let kicked_leader := bool_decide (uid = current_leader n) in
    let n := set_lists n (without uid (members n)) (delete uid (pending_invites n))
               (without uid (member_join_order n)) in
    let n :=
      if kicked_leader
      then set_admin_leader n (admin_uid n) (default EmptyString (head (member_join_order n)))
      else n in
    (n, Ok tt).

Definition transfer_admin (n : t) (new_admin current_admin : string) : t * result unit string :=
  if negb (is_admin n current_admin) then (n, Err "Only current admin can transfer admin rights")
  else if negb (is_member n new_admin) then
    (n, Err (new_admin +:+ " is not a member of this network"))
  else (set_admin_leader n new_admin new_admin, Ok tt).

Definition set_topic (n : t) (topic0 setter : string) : t * result unit string :=
  if negb (is_admin n setter) then (n, Err "Only admin can set topic")
  else (mk (name n) (admin_uid n) (created n) topic0 (members n) (pending_invites n) (min_trust n)
          (min_participants n) (max_dropouts n) (round_interval_ms n) (current_leader n)
          (member_join_order n), Ok tt).

Definition set_min_trust (n : t) (level : TrustLevel) (setter : string) : t * result unit string :=
  if negb (is_admin n setter) then (n, Err "Only admin can change trust requirements")
  else (mk (name n) (admin_uid n) (created n) (topic n) (members n) (pending_invites n) level
          (min_participants n) (max_dropouts n) (round_interval_ms n) (current_leader n)
          (member_join_order n), Ok tt).

(** Indexing is in range: the position is taken modulo the length. *)
Definition rotate_leader (n : t) : t * option string :=
  match position (current_leader n) (member_join_order n) with
  | None => (n, None)
  | Some current_idx =>
      let next_idx := ((current_idx + 1) mod length (member_join_order n))%nat in
      let next := default EmptyString (member_join_order n !! next_idx) in
      (set_admin_leader n (admin_uid n) next, Some next)
  end.

Definition set_leader (n : t) (uid : string) : t * result unit string :=
  if negb (is_member n uid) then (n, Err (uid +:+ " is not a member"))
  else (set_admin_leader n (admin_uid n) uid, Ok tt).

Definition status_string (n : t) : string :=
  "Network '" +:+ name n +:+ "' | Admin: " +:+ admin_uid n +:+ " | Members: "
  +:+ fmt (zlen (members n)) +:+ "/" +:+ fmt (min_participants n) +:+ " | Min trust: "
  +:+ debug_trust (min_trust n) +:+ " | Leader: " +:+ current_leader n.

End DcNetwork.

Abbreviation DcNetwork := DcNetwork.t.

(** ** The invariant *)

Module NetworkFacts.
Import DcNetwork.

Inductive op :=
| Invite (uid by_ : string)
| AcceptJoin (uid : string) (trust : TrustLevel)
| Kick (uid by_ : string)
| TransferAdmin (new_admin by_ : string)
| SetTopic (topic by_ : string)
| SetMinTrust (level : TrustLevel) (by_ : string)
| Rotate
| SetLeader (uid : string).

Definition step (n : t) (o : op) : t :=
  match o with
  | Invite u b => (invite_member n u b).1
  | AcceptJoin u l => (accept_join n u l).1
  | Kick u b => (kick_member n u b).1
  | TransferAdmin a b => (transfer_admin n a b).1
  | SetTopic s b => (set_topic n s b).1
  | SetMinTrust l b => (set_min_trust n l b).1
  | Rotate => (rotate_leader n).1
  | SetLeader u => (set_leader n u).1
  end.

Record inv (n : t) : Prop := {
  inv_nodup : NoDup (members n);
  inv_order : member_join_order n = members n;
  inv_admin : admin_uid n ∈ members n;
  inv_leader : current_leader n ∈ members n;
}.

Lemma network_new_inv now nm a : inv (new now nm a).
Proof. split; simpl; [apply NoDup_singleton|done|by left|by left]. Qed.

Lemma elem_without u v l : v ∈ without u l <-> v <> u /\ v ∈ l.
Proof. unfold without. by rewrite list_elem_of_filter. Qed.

Lemma position_Some x l i : position x l = Some i -> l !! i = Some x.
Proof.
  revert i. induction l as [|y l IH]; intros i; simpl; [done|].
  case_bool_decide; [by intros [= <-]; subst|].
  destruct (position x l) as [j|]; [|done]. intros [= <-]. simpl. auto.
Qed.

Lemma position_elem x l : x ∈ l -> exists i, position x l = Some i.
Proof.
  induction l as [|y l IH]; [by intros ?%not_elem_of_nil|]. intros Hx. simpl.
  case_bool_decide as Hy; [eauto|]. apply elem_of_cons in Hx as [->|Hx]; [done|].
  destruct (IH Hx) as [i ->]. simpl. eauto.
Qed.

Lemma position_lookup x l i : NoDup l -> l !! i = Some x -> position x l = Some i.
Proof.
  intros Hnd Hi. destruct (position_elem x l) as [j Hj]; [by eapply list_elem_of_lookup_2|].
  rewrite Hj. f_equal. apply position_Some in Hj. by eapply NoDup_lookup.
Qed.

(** What a rotation does, from the invariant. *)
Lemma rotate_spec n i :
  inv n -> members n !! i = Some (current_leader n) ->
  exists x, members n !! ((i + 1) mod length (members n))%nat = Some x /\
    rotate_leader n = (set_admin_leader n (admin_uid n) x, Some x) /\ next_leader n = Some x.
Proof.
  intros Hi Hidx. unfold rotate_leader, next_leader. rewrite (inv_order _ Hi).
  rewrite (position_lookup _ _ i (inv_nodup _ Hi) Hidx).
  destruct (members n !! ((i + 1) mod length (members n))%nat) as [x|] eqn:E; [eauto|].
  apply lookup_ge_None in E. apply lookup_lt_Some in Hidx.
  pose proof (Nat.mod_upper_bound (i + 1) (length (members n))). lia.
Qed.

Lemma leader_index n : inv n -> exists i, members n !! i = Some (current_leader n).
Proof. intros Hi. by apply list_elem_of_lookup_1, inv_leader. Qed.

Lemma set_leader_inv n l : inv n -> l ∈ members n -> inv (set_admin_leader n (admin_uid n) l).
Proof. intros [] Hl. by split. Qed.

Lemma kick_inv n u b : inv n -> inv (kick_member n u b).1.
Proof.
  intros Hi. unfold kick_member. destruct (negb _); [done|]. case_bool_decide as Ha; [done|].
  destruct Hi as [Hnd Ho Had Hl].
  assert (Hnd' : NoDup (without u (members n))) by (by apply NoDup_filter).
  assert (Had' : admin_uid n ∈ without u (members n)) by (apply elem_without; auto).
  simpl. case_bool_decide as Hk.
  - split; simpl; try done; [by rewrite Ho|]. rewrite Ho.
    destruct (without u (members n)); [by apply not_elem_of_nil in Had'|]. by left.
  - split; simpl; try done; [by rewrite Ho|]. apply elem_without. auto.
Qed.

Lemma accept_inv n u l : inv n -> inv (accept_join n u l).1.
Proof.
  intros Hi. unfold accept_join. destruct (negb _); [done|]. destruct (negb _); [done|]. simpl.
  destruct Hi as [Hnd Ho Had Hl]. unfold is_member. simpl. case_bool_decide as Hu; simpl; [by split|].
  split; simpl.
  - apply NoDup_app. split_and!; [done| |apply NoDup_singleton].
    intros x Hx Hin. apply list_elem_of_singleton in Hin as ->. done.
  - by rewrite Ho.
  - apply elem_of_app. by left.
  - apply elem_of_app. by left.
Qed.

Lemma step_inv n o : inv n -> inv (step n o).
Proof.
  intros Hi. destruct o; simpl.
  - unfold invite_member. destruct (negb _); [done|]. destruct (is_member n uid); [done|]. destruct Hi; by split.
  - by apply accept_inv.
  - by apply kick_inv.
  - unfold transfer_admin. destruct (negb _); [done|]. unfold is_member. case_bool_decide; simpl; [|done].
    destruct Hi; by split.
  - unfold set_topic. destruct (negb _); [done|]. destruct Hi; by split.
  - unfold set_min_trust. destruct (negb _); [done|]. destruct Hi; by split.
  - destruct (leader_index n Hi) as [i Hidx]. destruct (rotate_spec n i Hi Hidx) as (x & Hx & -> & _).
    apply set_leader_inv; [done|]. by eapply list_elem_of_lookup_2.
  - unfold set_leader, is_member. case_bool_decide; simpl; [|done]. by apply set_leader_inv.
Qed.

Lemma run_inv ops n : inv n -> inv (foldl step n ops).
Proof. revert n. induction ops as [|o ops IH]; intros n Hi; simpl; [done|]. apply IH, step_inv, Hi. Qed.

Definition rotations (k : nat) (n : t) : t := Nat.iter k (fun n => (rotate_leader n).1) n.

Lemma rotations_spec k n i :
  inv n -> members n !! i = Some (current_leader n) ->
  inv (rotations k n) /\ members (rotations k n) = members n /\
  members n !! ((i + k) mod length (members n))%nat = Some (current_leader (rotations k n)).
Proof.
  intros Hi Hidx. pose proof (lookup_lt_Some _ _ _ Hidx) as Hlt. induction k as [|k (IHi & IHm & IHl)]; simpl.
  - split_and!; [done..|]. rewrite Nat.add_0_r, Nat.mod_small by done. done.
  - rewrite <-IHm in IHl. destruct (rotate_spec _ _ IHi IHl) as (x & Hx & E & _). rewrite E. simpl.
    rewrite IHm in *. split_and!; [|done|].
    + apply set_leader_inv; [done|]. rewrite IHm. by eapply list_elem_of_lookup_2.
    + rewrite Nat.add_succ_r, <-Nat.add_1_r. rewrite Nat.Div0.add_mod_idemp_l in Hx. done.
Qed.

End NetworkFacts.

(** An operation that leaves members and invitations alone. *)
Ltac unchanged := split; [by intros; exfalso; auto|intros [? ?] ?; simpl in *; congruence].

(** ** Properties *)

Section NetworkProperties.
Import DcNetwork NetworkFacts.

(** C35: a network never loses its admin or its leader. After any sequence of operations, by
    anybody and whether they succeed or not, the member list has no duplicates and is the join
    order, and the admin and the current leader are members. *)
Theorem network_invariant now nm admin ops :
  let n := foldl step (new now nm admin) ops in
  NoDup (members n) /\ member_join_order n = members n /\ admin_uid n ∈ members n /\
  current_leader n ∈ members n.
Proof. destruct (run_inv ops _ (network_new_inv now nm admin)). done. Qed.

(** Leader rotation is round-robin. In every state a network can be in, [rotate_leader]
    succeeds, agrees with [next_leader], and after [k] rotations the leader is the member [k]
    places further in the join order, cyclically, so each of the members leads exactly once in
    as many rotations as there are members. *)
Theorem rotation_round_robin now nm admin ops :
  let n := foldl step (new now nm admin) ops in
  (exists x, (rotate_leader n).2 = Some x /\ next_leader n = Some x) /\
  exists i, members n !! i = Some (current_leader n) /\
    forall k, members n !! ((i + k) mod length (members n))%nat = Some (current_leader (rotations k n)).
Proof.
  intros n. assert (Hi : inv n) by apply run_inv, network_new_inv. destruct (leader_index n Hi) as [i Hidx].
  split.
  - destruct (rotate_spec n i Hi Hidx) as (x & _ & E & En). exists x. by rewrite E.
  - exists i. split; [done|]. intros k. by apply rotations_spec.
Qed.

(** Membership is guarded. Whatever operation is applied, a uid that becomes a member by it
    had an invitation pending and a trust level of at least the network's minimum; and an
    invitation that becomes pending was issued in the name of the admin. *)
Theorem membership_guarded n o u :
  (u ∈ members (step n o) -> u ∉ members n ->
     exists l, o = AcceptJoin u l /\ is_Some (pending_invites n !! u) /\
       TrustLevel.to_i32 (min_trust n) <= TrustLevel.to_i32 l) /\
  (is_Some (pending_invites (step n o) !! u) -> pending_invites n !! u = None ->
     exists b, o = Invite u b /\ b = admin_uid n).
Proof.
  destruct o; simpl.
  - unfold invite_member, is_admin. case_bool_decide as Hb; simpl; [|unchanged].
    destruct (is_member n uid); simpl; [unchanged|]. split; [done|].
    intros Hs Hn. destruct (decide (u = uid)) as [->|Hne]; [eauto|].
    rewrite lookup_insert_ne in Hs by done. rewrite Hn in Hs. by destruct Hs.
  - unfold accept_join, has_pending_invite. case_bool_decide as Hp; simpl; [|unchanged].
    destruct (TrustLevel.ge trust (min_trust n)) eqn:Et; simpl; [|unchanged].
    apply Z.leb_le in Et. unfold is_member. simpl. case_bool_decide as Hm; simpl.
    + split; [done|]. intros [v Hv] Hn. apply lookup_delete_Some in Hv. naive_solver.
    + split.
      * intros [?|Hu%list_elem_of_singleton]%elem_of_app ?; [done|]. subst. eauto.
      * intros [v Hv] Hn. apply lookup_delete_Some in Hv. naive_solver.
  - unfold kick_member. destruct (negb _); simpl; [unchanged|].
    case_bool_decide; simpl; [unchanged|].
    case_bool_decide; simpl; (split; [intros [_ ?]%elem_without ?; done|]);
      intros [v Hv] Hn; apply lookup_delete_Some in Hv; naive_solver.
  - unfold transfer_admin. destruct (negb _); [unchanged|].
    destruct (negb _); unchanged.
  - unfold set_topic. destruct (negb _); unchanged.
  - unfold set_min_trust. destruct (negb _); unchanged.
  - unfold rotate_leader. destruct (position _ _); unchanged.
  - unfold set_leader. destruct (negb _); unchanged.
Qed.

End NetworkProperties.
