(* ===== verification/Group.v ===== *)
(** [dcnet/round.rs], [dcnet/group.rs] and [dcnet/reputation.rs]: local DC-net rounds with
    dropout penalties, group membership and peer reputation. Scores are [f64]. *)

From Stdlib Require Import Sorted.
From S2P Require Import Prelude Crypto Float64 Dcnet RoundNetwork.

Inductive RoundState := Collecting | Broadcasting | Complete | Failed.

Module DcRound.

Record t := mk {
  round_id : Z;
  participants : list Participant;
  state : RoundState;
  deadline : Z;
  max_dropouts : Z;
}.

Definition new (now round_id0 : Z) (ps : list Participant) (max : Z) : t :=
  {| round_id := round_id0; participants := ps; state := Collecting;
     deadline := now + from_secs 30; max_dropouts := max |}.

Definition is_expired (now : Z) (r : t) : bool := deadline r <? now.

Definition set_participants (r : t) (ps : list Participant) : t :=
  mk (round_id r) ps (state r) (deadline r) (max_dropouts r).

(** Whether a participant is among the peers that answered. *)
Definition answered (responded : list bytes) (p : Participant) : bool := bool_decide (peer_id p ∈ responded).

(** The loop of [mark_dropouts] over [&mut self.participants]. *)
Fixpoint mark_loop (responded : list bytes) (ps : list Participant) : list Participant * list bytes :=
  match ps with
  | [] => ([], [])
  | p :: rest =>
      let '(rest', dropouts) := mark_loop responded rest in
      if negb (answered responded p) then (Participant.penalize p :: rest', peer_id p :: dropouts)
      else (Participant.reward p :: rest', dropouts)
  end.

Definition mark_dropouts (r : t) (responded : list bytes) : t * list bytes :=
  let '(ps, dropouts) := mark_loop responded (participants r) in
  (mk (round_id r) ps (if zlen dropouts >? max_dropouts r then Failed else Complete)
      (deadline r) (max_dropouts r), dropouts).

Definition remove_malicious (r : t) : t * list bytes :=
  let malicious := peer_id <$> filter (fun p => Participant.is_malicious p = true) (participants r) in
  (set_participants r (filter (fun p => Participant.is_malicious p = false) (participants r)), malicious).

End DcRound.

Abbreviation DcRound := DcRound.t.

Module DcGroup.

Record t := mk {
  group_id : bytes;
  participants : list Participant;
  current_round : option DcRound;
  min_participants : Z;
  max_dropouts : Z;
}.

Definition new (gid : bytes) (min max_drop : Z) : t :=
  {| group_id := gid; participants := []; current_round := None; min_participants := min;
     max_dropouts := max_drop |}.

Definition set_participants (g : t) (ps : list Participant) : t :=
  mk (group_id g) ps (current_round g) (min_participants g) (max_dropouts g).

Definition set_round (g : t) (r : option DcRound) : t :=
  mk (group_id g) (participants g) r (min_participants g) (max_dropouts g).

Definition join (g : t) (pid : bytes) : t :=
  if negb (existsb (fun p => bool_decide (peer_id p = pid)) (participants g))
  then set_participants g (participants g ++ [Participant.new pid]) else g.

Definition leave (g : t) (pid : bytes) : t :=
  set_participants g (filter (fun p => peer_id p <> pid) (participants g)).

Definition start_round (now : Z) (g : t) (round_id : Z) : t * option DcRound :=
  let g := set_participants g (filter (fun p => Participant.is_malicious p = false) (participants g)) in
  if zlen (participants g) <? min_participants g then (g, None)
  else
    let round := DcRound.new now round_id (participants g) (max_dropouts g) in
    (set_round g (Some round), Some round).

(** [for id in .. { self.leave(id) }]. *)
Definition leave_all (g : t) (ids : list bytes) : t := foldl leave g ids.

Definition finish_round (g : t) : t :=
  match current_round g with
  | None => g
  | Some _ =>
      let g := set_round g None in
      leave_all g (peer_id <$> filter (fun p => Participant.is_malicious p = true) (participants g))
  end.

(** [iter_mut().find(|p| p.peer_id == rp.peer_id)] with [absorb_from]. *)
Fixpoint absorb_first (rp : Participant) (ps : list Participant) : list Participant :=
  match ps with
  | [] => []
  | gp :: rest =>
      if bool_decide (peer_id gp = peer_id rp) then Participant.absorb_from gp rp :: rest
      else gp :: absorb_first rp rest
  end.

Definition finish_round_with (g : t) (responded : list bytes) : t * (list bytes * list bytes) :=
  let '(g, dropouts, malicious) :=
    match current_round g with
    | Some round =>
        let '(round, dropouts) := DcRound.mark_dropouts round responded in
        let '(round, malicious) := DcRound.remove_malicious round in
        (set_participants g
           (foldl (fun ps rp => absorb_first rp ps) (participants g) (DcRound.participants round)),
         dropouts, malicious)
    | None => (g, [], [])
    end in
  let g := set_round g None in
  (leave_all g malicious, (dropouts, malicious)).

Definition reform (g : t) (dropouts : list bytes) : t := leave_all g dropouts.

Definition is_healthy (g : t) : bool :=
  (min_participants g <=? zlen (participants g)) &&
  forallb (fun p => negb (Participant.is_malicious p)) (participants g).

Definition size (g : t) : Z := zlen (participants g).
Definition malicious_count (g : t) : Z :=
  zlen (filter (fun p => Participant.is_malicious p = true) (participants g)).

End DcGroup.

Abbreviation DcGroup := DcGroup.t.

(** ** [reputation.rs] *)

Record Reputation := mkReputation {
  rep_peer_id : bytes;
  score : f64;
  rounds_total : Z;
  rounds_dropped : Z;
  rep_consecutive_drops : Z;
  drop_timing_pct : list Z;
  first_seen : Z;
  banned : bool;
}.

Module Reputation.

Definition new (now : Z) (pid : bytes) : Reputation :=
  {| rep_peer_id := pid; score := f0_5; rounds_total := 0; rounds_dropped := 0;
     rep_consecutive_drops := 0; drop_timing_pct := []; first_seen := now; banned := false |}.

Definition reward (r : Reputation) : Reputation :=
  mkReputation (rep_peer_id r) (f64_min (f64_add (score r) f0_05) f1_0) (rounds_total r +₆₄ 1)
    (rounds_dropped r) 0 (drop_timing_pct r) (first_seen r) (banned r).

Definition penalize (r : Reputation) (timing_pct : Z) : Reputation :=
  mkReputation (rep_peer_id r) (f64_mul (score r) f0_7) (rounds_total r +₆₄ 1)
    (rounds_dropped r +₆₄ 1) (rep_consecutive_drops r +₃₂ 1) (drop_timing_pct r ++ [timing_pct])
    (first_seen r) (banned r).

Definition is_malicious (r : Reputation) : bool :=
  if banned r then true
  else
    let late := length (filter (fun p => p >? 80 = true) (take 3 (reverse (drop_timing_pct r)))) in
    if (3 <=? rep_consecutive_drops r) && (2 <=? late)%nat then true
    else if (10 <=? rounds_total r) &&
            f64_gt (f64_div (f64_of_Z (rounds_dropped r)) (f64_of_Z (rounds_total r))) f0_5 then true
    else f64_lt (score r) f0_3.

Definition ban (r : Reputation) : Reputation :=
  mkReputation (rep_peer_id r) f0_0 (rounds_total r) (rounds_dropped r) (rep_consecutive_drops r)
    (drop_timing_pct r) (first_seen r) true.

Definition trust_level (r : Reputation) : Z :=
  if banned r then 0
  else if f64_ge (score r) f0_8 then 2
  else if f64_ge (score r) f0_5 then 1
  else 0.

End Reputation.

Module ReputationManager.

Abbreviation t := (gmap bytes Reputation).

Definition new : t := ∅.

Definition get_or_create (now : Z) (m : t) (pid : bytes) : t * Reputation :=
  match m !! pid with
  | Some r => (m, r)
  | None => let r := Reputation.new now pid in (<[pid := r]> m, r)
  end.

Definition get (m : t) (pid : bytes) : option Reputation := m !! pid.

(** One turn of the loop of [process_round]. *)
Definition process_peer (now : Z) (responded : list bytes) (round_pct : Z) (acc : t * list bytes)
    (pid : bytes) : t * list bytes :=
  let '(m, malicious) := acc in
  let '(m, rep) := get_or_create now m pid in
  if bool_decide (pid ∈ responded) then (<[pid := Reputation.reward rep]> m, malicious)
  else
    let rep := Reputation.penalize rep round_pct in
    if Reputation.is_malicious rep
    then (<[pid := Reputation.ban rep]> m, malicious ++ [pid])
    else (<[pid := rep]> m, malicious).

Definition process_round (now : Z) (m : t) (responded all : list bytes) (round_pct : Z) : t * list bytes :=
  foldl (process_peer now responded round_pct) (m, []) all.

(** [sort_by] on descending scores is stable: [a] stays before [b] unless [b] scores higher. *)
Definition ranks_before (a b : Reputation) : bool := negb (f64_gt (score b) (score a)).

Fixpoint insert_ranked (r : Reputation) (l : list Reputation) : list Reputation :=
  match l with
  | [] => [r]
  | r' :: l' => if ranks_before r r' then r :: l else r' :: insert_ranked r l'
  end.

Definition top_trusted (m : t) (n : nat) : list Reputation :=
  take n (foldr insert_ranked [] (filter (fun r => banned r = false) (map_to_list m).*2)).

Definition banned_count (m : t) : Z := zlen (filter (fun p => banned p.2 = true) (map_to_list m)).

End ReputationManager.

(** ** Lemmas on groups *)

Module GroupFacts.
Import DcGroup.

Abbreviation ids g := (peer_id <$> participants g).

(** A participant after one round. *)
Definition after_round (responded : list bytes) (p : Participant) : Participant :=
  if DcRound.answered responded p then Participant.reward p else Participant.penalize p.

Lemma after_round_id responded p : peer_id (after_round responded p) = peer_id p.
Proof. unfold after_round. by case_match. Qed.

Lemma mark_loop_spec responded ps :
  DcRound.mark_loop responded ps =
    (after_round responded <$> ps,
     peer_id <$> filter (fun p => DcRound.answered responded p = false) ps).
Proof.
  induction ps as [|p ps IH]; [done|]. cbn [DcRound.mark_loop]. rewrite IH, fmap_cons.
  assert (Ha : after_round responded p =
    if DcRound.answered responded p then Participant.reward p else Participant.penalize p) by done.
  destruct (DcRound.answered responded p) eqn:E; cbn [negb]; rewrite Ha.
  - by rewrite filter_cons_False by congruence.
  - by rewrite filter_cons_True by done.
Qed.

Lemma leave_all_participants g l :
  participants (leave_all g l) = filter (fun p => peer_id p ∉ l) (participants g).
Proof.
  revert g. induction l as [|x l IH]; intros g; simpl.
  - symmetry. apply filter_all, Forall_true. intros p. apply not_elem_of_nil.
  - rewrite IH. simpl. rewrite list_filter_filter. apply list_filter_iff.
    intros p. rewrite not_elem_of_cons. tauto.
Qed.

(** Writing the round's participants back into a group with unique ids: each takes the state of
    its counterpart, if there is one. *)
Lemma absorb_first_spec rp ps :
  NoDup (peer_id <$> ps) ->
  absorb_first rp ps =
    (fun p => if bool_decide (peer_id p = peer_id rp) then Participant.absorb_from p rp else p) <$> ps.
Proof.
  induction ps as [|p ps IH]; intros Hnd; [done|]. simpl in *. apply NoDup_cons in Hnd as [Hn Hnd].
  case_bool_decide as Hp.
  - f_equal. rewrite <-(list_fmap_id ps) at 1. apply list_fmap_ext. intros i q Hq%list_elem_of_lookup_2.
    rewrite bool_decide_eq_false_2; [done|]. intros Hq'. apply Hn. rewrite Hp, <-Hq'.
    by apply list_elem_of_fmap_2.
  - f_equal. auto.
Qed.

Lemma absorb_after responded p : Participant.absorb_from p (after_round responded p) = after_round responded p.
Proof. unfold after_round. by case_match. Qed.

(** The write-back of the survivors of a round over all participants. *)
Lemma write_back responded rs ps :
  NoDup (peer_id <$> ps) -> (forall r, r ∈ rs -> r ∈ ps) -> NoDup (peer_id <$> rs) ->
  foldl (fun ps rp => absorb_first rp ps) ps (after_round responded <$> rs) =
    (fun p => if bool_decide (peer_id p ∈ peer_id <$> rs) then after_round responded p else p) <$> ps.
Proof.
  intros Hnd Hin Hrs.
  assert (Hgen : forall done_ rest, rs = done_ ++ rest ->
    foldl (fun ps rp => absorb_first rp ps)
      ((fun p => if bool_decide (peer_id p ∈ peer_id <$> done_) then after_round responded p else p) <$> ps)
      (after_round responded <$> rest) =
    (fun p => if bool_decide (peer_id p ∈ peer_id <$> rs) then after_round responded p else p) <$> ps).
  { intros done_ rest. revert done_. induction rest as [|r rest IH]; intros done_ E; simpl.
    - subst. by rewrite app_nil_r.
    - rewrite absorb_first_spec.
      2: { rewrite <-list_fmap_compose. erewrite list_fmap_ext; [exact Hnd|].
           intros i p _. simpl. case_bool_decide; [apply after_round_id|done]. }
      rewrite <-(IH (done_ ++ [r])) by (subst; by rewrite <-app_assoc). f_equal.
      rewrite <-list_fmap_compose. apply list_fmap_ext. intros i p Hp%list_elem_of_lookup_2. simpl.
      assert (Hr : r ∈ ps) by (apply Hin; rewrite E; apply elem_of_app; right; by left).
      rewrite fmap_app, after_round_id. simpl.
      rewrite (bool_decide_ext (peer_id p ∈ _ ++ _)
        (peer_id p ∈ peer_id <$> done_ \/ peer_id p = peer_id r))
        by (rewrite elem_of_app, list_elem_of_singleton; done).
      rewrite E, fmap_app in Hrs. apply NoDup_app in Hrs as (_ & Hdis & _).
      destruct (decide (peer_id p = peer_id r)) as [Hpr|Hpr].
      + assert (p = r) as <- by (by eapply NoDup_fmap_key).
        assert (Hnot : peer_id p ∉ peer_id <$> done_).
        { intros Hx. apply (Hdis _ Hx). simpl. by left. }
        rewrite (bool_decide_eq_false_2 _ Hnot), !bool_decide_eq_true_2 by (done || by right).
        apply absorb_after.
      + rewrite (bool_decide_ext (_ \/ _) (peer_id p ∈ peer_id <$> done_)) by tauto.
        rewrite (bool_decide_eq_false_2 (_ = peer_id r)); [done|]. case_bool_decide; [by rewrite after_round_id|done]. }
  rewrite <-(Hgen [] rs eq_refl). f_equal. symmetry. apply list_fmap_id.
Qed.

Lemma leave_all_round g l : current_round (leave_all g l) = current_round g.
Proof. revert g. induction l as [|x l IH]; intros g; simpl; [done|]. by rewrite IH. Qed.

Lemma survivors_aux responded (ps : list Participant) (mal ids : list bytes) :
  (forall p, p ∈ ps -> peer_id p ∈ mal <-> Participant.is_malicious (after_round responded p) = true) ->
  (forall p, p ∈ ps -> peer_id p ∈ ids <-> Participant.is_malicious (after_round responded p) = false) ->
  filter (fun p => peer_id p ∉ mal)
    ((fun p => if bool_decide (peer_id p ∈ ids) then after_round responded p else p) <$> ps) =
  after_round responded <$> filter (fun p => Participant.is_malicious (after_round responded p) = false) ps.
Proof.
  induction ps as [|p ps IH]; intros Hmal Hrs; [done|].
  assert (Hp : p ∈ p :: ps) by (by left).
  rewrite fmap_cons. destruct (Participant.is_malicious (after_round responded p)) eqn:Em.
  - rewrite (filter_cons_False _ p ps) by (rewrite Em; done).
    rewrite bool_decide_eq_false_2 by (rewrite (Hrs p Hp); congruence).
    rewrite filter_cons_False by (intros Hn; apply Hn, (Hmal p Hp); done).
    apply IH; intros q Hq; [apply Hmal|apply Hrs]; by right.
  - rewrite (filter_cons_True _ p ps) by (by rewrite Em).
    rewrite bool_decide_eq_true_2 by (by apply (Hrs p Hp)).
    rewrite filter_cons_True by (rewrite after_round_id, (Hmal p Hp); congruence).
    rewrite fmap_cons. f_equal. apply IH; intros q Hq; [apply Hmal|apply Hrs]; by right.
Qed.

(** Writing back the survivors and dropping the malicious leaves the updated survivors. *)
Lemma survivors responded ps :
  NoDup (peer_id <$> ps) ->
  let rs := filter (fun p => Participant.is_malicious (after_round responded p) = false) ps in
  let mal := peer_id <$> filter (fun p => Participant.is_malicious p = true) (after_round responded <$> ps) in
  filter (fun p => peer_id p ∉ mal)
    ((fun p => if bool_decide (peer_id p ∈ peer_id <$> rs) then after_round responded p else p) <$> ps) =
  after_round responded <$> rs.
Proof.
  intros Hnd rs mal.
  assert (Hmal : forall p, p ∈ ps -> peer_id p ∈ mal <-> Participant.is_malicious (after_round responded p) = true).
  { intros p Hp. unfold mal. rewrite list_elem_of_fmap. split.
    - intros (q & Hq & [Hm (q' & -> & Hq')%list_elem_of_fmap]%list_elem_of_filter).
      rewrite after_round_id in Hq. by rewrite (NoDup_fmap_key peer_id ps p q').
    - intros Hm. exists (after_round responded p). rewrite after_round_id. split; [done|].
      apply list_elem_of_filter. split; [done|]. by apply list_elem_of_fmap_2. }
  assert (Hrs : forall p, p ∈ ps -> peer_id p ∈ peer_id <$> rs <->
    Participant.is_malicious (after_round responded p) = false).
  { intros p Hp. rewrite list_elem_of_fmap. split.
    - intros (q & Hq & [Hm Hin]%list_elem_of_filter). by rewrite (NoDup_fmap_key peer_id ps p q).
    - intros Hm. exists p. split; [done|]. by apply list_elem_of_filter. }
  by apply survivors_aux.
Qed.

End GroupFacts.

(** ** Lemmas on reputation *)

Module ReputationFacts.
Import ReputationManager.

(** What a round can make of a peer's record. *)
Lemma process_peer_lookup now responded pct m mal pid q :
  let r := default (Reputation.new now pid) (m !! pid) in
  (process_peer now responded pct (m, mal) pid).1 !! q =
    if bool_decide (q = pid) then
      Some (if bool_decide (pid ∈ responded) then Reputation.reward r
            else if Reputation.is_malicious (Reputation.penalize r pct)
                 then Reputation.ban (Reputation.penalize r pct) else Reputation.penalize r pct)
    else m !! q.
Proof.
  intros r. unfold process_peer, get_or_create, r.
  destruct (decide (q = pid)) as [->|Hq];
    [rewrite (bool_decide_eq_true_2 (pid = pid)) by done|rewrite (bool_decide_eq_false_2 (q = pid)) by done];
    destruct (m !! pid) as [x|] eqn:E; cbn [default]; unfold default;
    (destruct (bool_decide (pid ∈ responded)); [|destruct (Reputation.is_malicious _)]); cbn [fst];
    rewrite ?lookup_insert_eq, ?lookup_insert_ne by done; done.
Qed.

Lemma banned_malicious r : banned r = true -> Reputation.is_malicious r = true /\ Reputation.trust_level r = 0.
Proof. intros Hb. unfold Reputation.is_malicious, Reputation.trust_level. by rewrite Hb. Qed.

Definition banned_in (m : t) (pid : bytes) : Prop := exists r, m !! pid = Some r /\ banned r = true.

Lemma process_peer_banned now responded pct acc pid q :
  banned_in acc.1 q -> banned_in (process_peer now responded pct acc pid).1 q.
Proof.
  intros (r & Hr & Hb). destruct acc as [m mal]. simpl in Hr.
  unfold banned_in. rewrite process_peer_lookup. destruct (decide (q = pid)) as [->|Hq];
    [|rewrite (bool_decide_eq_false_2 (q = pid)) by done; eauto].
  rewrite (bool_decide_eq_true_2 (pid = pid)), Hr by done. cbn [default]. eexists. split; [done|].
  destruct (bool_decide _); [done|]. by destruct (Reputation.is_malicious _).
Qed.

Lemma process_round_banned now responded pct all acc q :
  banned_in acc.1 q -> banned_in (foldl (process_peer now responded pct) acc all).1 q.
Proof.
  revert acc. induction all as [|pid all IH]; intros acc Hb; simpl; [done|].
  apply IH. by apply process_peer_banned.
Qed.

(** Reported as malicious means banned. *)
Lemma process_peer_reported now responded pct acc pid q :
  (forall x, x ∈ acc.2 -> banned_in acc.1 x) ->
  q ∈ (process_peer now responded pct acc pid).2 -> banned_in (process_peer now responded pct acc pid).1 q.
Proof.
  intros Hacc Hq. destruct (decide (q ∈ acc.2)) as [Hin|Hnot].
  { by apply process_peer_banned, Hacc. }
  destruct acc as [m mal]. cbn [fst snd] in *. unfold banned_in. rewrite process_peer_lookup.
  unfold process_peer, get_or_create in Hq. unfold default.
  destruct (m !! pid) as [x|] eqn:E;
    (destruct (decide (pid ∈ responded)) as [Hr|Hr];
       [by rewrite (bool_decide_eq_true_2 _ Hr) in Hq|]);
    rewrite (bool_decide_eq_false_2 _ Hr) in *;
    (destruct (Reputation.is_malicious _) eqn:Em in Hq; [|done]); cbn [snd] in Hq;
    (apply elem_of_app in Hq as [?|Hq%list_elem_of_singleton]; [done|]); subst q;
    rewrite (bool_decide_eq_true_2 (pid = pid)) by done; eexists; (split; [done|]); unfold id; by rewrite Em.
Qed.

Lemma process_round_reported now responded pct all acc q :
  (forall x, x ∈ acc.2 -> banned_in acc.1 x) ->
  q ∈ (foldl (process_peer now responded pct) acc all).2 ->
  banned_in (foldl (process_peer now responded pct) acc all).1 q.
Proof.
  revert acc. induction all as [|pid all IH]; intros acc Hacc Hq; simpl in *; [auto|].
  apply IH; [|done]. intros x Hx. by apply process_peer_reported.
Qed.

(** *** Ranking *)

Lemma insert_ranked_perm r l : insert_ranked r l ≡ₚ r :: l.
Proof.
  induction l as [|r' l IH]; [done|]. cbn. destruct (ranks_before r r'); [done|]. rewrite IH. apply Permutation_swap.
Qed.

Lemma ranked_perm l : foldr insert_ranked [] l ≡ₚ l.
Proof. induction l as [|r l IH]; [done|]. cbn. by rewrite insert_ranked_perm, IH. Qed.

(** At most as good, on numbers. *)
Definition scored (r : Reputation) : Prop := score r <> SpecFloat.S754_nan.
Definition no_better (a b : Reputation) : Prop := f64_le (score b) (score a) = true.

Lemma ranks_before_spec a b : scored a -> scored b -> ranks_before a b = true <-> no_better a b.
Proof. intros Ha Hb. unfold ranks_before, no_better. rewrite negb_true_iff. by apply f64_gt_le. Qed.

Lemma ranks_after a b : scored a -> scored b -> ranks_before a b = false -> no_better b a.
Proof.
  intros Ha Hb. unfold ranks_before, no_better. rewrite negb_false_iff. unfold f64_gt, f64_le, SpecFloat.SFltb, SpecFloat.SFleb.
  by destruct (SpecFloat.SFcompare _ _) as [[]|].
Qed.

Lemma insert_ranked_sorted r l :
  scored r -> Forall scored l -> StronglySorted no_better l -> StronglySorted no_better (insert_ranked r l).
Proof.
  intros Hr Hl Hs. induction Hs as [|r' l Hs IH HF]; [repeat constructor|]. apply Forall_cons in Hl as [Hr' Hl].
  cbn. destruct (ranks_before r r') eqn:E.
  - apply (ranks_before_spec r r') in E; [|done..]. constructor; [by constructor|]. constructor; [done|].
    eapply Forall_impl; [exact HF|]. intros x Hx. by eapply f64_le_trans.
  - constructor; [by apply IH|]. apply (Forall_forall _ _). intros x Hx. rewrite insert_ranked_perm in Hx.
    apply elem_of_cons in Hx as [->|Hx]; [by apply ranks_after|]. by eapply (proj1 (Forall_forall _ _) HF).
Qed.

Lemma ranked_sorted l : Forall scored l -> StronglySorted no_better (foldr insert_ranked [] l).
Proof.
  induction 1 as [|r l Hr Hl IH]; [constructor|]. cbn. apply insert_ranked_sorted; [done| |done]. by rewrite ranked_perm.
Qed.

Lemma sorted_front (l1 l2 : list Reputation) : StronglySorted no_better (l1 ++ l2) -> StronglySorted no_better l1.
Proof.
  induction l1 as [|x l1 IH]; intros Hs; [constructor|]. cbn in Hs. apply StronglySorted_inv in Hs as [Hs HF].
  constructor; [auto|]. by apply Forall_app in HF as [? _].
Qed.

Lemma sorted_split (l1 l2 : list Reputation) a b :
  StronglySorted no_better (l1 ++ l2) -> a ∈ l1 -> b ∈ l2 -> no_better a b.
Proof.
  intros Hs Ha Hb. induction l1 as [|x l1 IH]; [by apply not_elem_of_nil in Ha|]. cbn in Hs.
  apply StronglySorted_inv in Hs as [Hs HF]. apply elem_of_cons in Ha as [->|Ha]; [|by apply IH].
  eapply (proj1 (Forall_forall _ _) HF). apply elem_of_app. auto.
Qed.

End ReputationFacts.

(** ** Properties *)

Section GroupProperties.
Import DcGroup GroupFacts.

(** One round of a group. If a round starts, no participant is malicious and there are at
    least the minimum; when it is finished with the peers that answered, the dropouts reported
    are exactly those that did not answer, every participant carries its penalty or reward, and
    exactly those that are malicious after it are reported and gone. *)
Theorem group_round now g rid g1 round responded :
  NoDup (peer_id <$> participants g) ->
  start_round now g rid = (g1, Some round) ->
  (min_participants g <= zlen (participants g1) /\ is_healthy g1 = true) /\
  let updated := after_round responded <$> participants g1 in
  let '(g2, (dropouts, malicious)) := finish_round_with g1 responded in
  dropouts = peer_id <$> filter (fun p => peer_id p ∉ responded) (participants g1) /\
  malicious = peer_id <$> filter (fun p => Participant.is_malicious p = true) updated /\
  participants g2 = filter (fun p => Participant.is_malicious p = false) updated /\
  current_round g2 = None.
Proof.
  intros Hnd E. unfold start_round in E. cbv zeta in E.
  set (g0 := set_participants g _) in E.
  assert (Hps : NoDup (peer_id <$> participants g0)).
  { unfold g0. cbn [participants set_participants].
    eapply sublist_NoDup; [exact Hnd|]. apply fmap_sublist, sublist_filter. }
  assert (Hgood : forall p, p ∈ participants g0 -> Participant.is_malicious p = false)
    by (by intros p [Hp _]%list_elem_of_filter).
  assert (Hmin : min_participants g0 = min_participants g) by done. clearbody g0.
  destruct (zlen (participants g0) <? _) eqn:El; [done|].
  breflect. injection E as <- <-. cbn [participants set_round].
  set (ps := participants g0) in *.
  split.
  { split; [by rewrite <-Hmin|]. unfold is_healthy. cbn [participants set_round min_participants].
    apply andb_true_iff. split; [apply Z.leb_le; done|]. apply forallb_true_Forall, Forall_forall.
    intros p Hp. by rewrite Hgood. }
  unfold finish_round_with, DcRound.mark_dropouts, DcRound.remove_malicious.
  cbn [current_round set_round DcRound.participants DcRound.new DcRound.set_participants].
  rewrite mark_loop_spec. cbn [DcRound.participants DcRound.set_participants].
  set (rs := filter (fun p => Participant.is_malicious (after_round responded p) = false) ps).
  assert (Hrs : filter (fun p => Participant.is_malicious p = false) (after_round responded <$> ps) =
                after_round responded <$> rs) by (by rewrite filter_fmap).
  rewrite Hrs. split_and!.
  - f_equal. apply list_filter_iff. intros p. unfold DcRound.answered. by rewrite bool_decide_eq_false.
  - done.
  - rewrite leave_all_participants. cbn [participants set_round set_participants].
    fold ps. rewrite ?Hrs. rewrite (write_back responded rs ps Hps).
    + apply survivors. done.
    + by intros r [_ Hr]%list_elem_of_filter.
    + eapply sublist_NoDup; [exact Hps|]. apply fmap_sublist, sublist_filter.
  - by rewrite leave_all_round.
Qed.

(** Three strikes. Whatever its reputation, a participant that misses three rounds in a row
    is malicious after the third and therefore evicted; a newcomer is evicted at the third and
    not before. *)
Theorem three_strikes p r1 r2 r3 :
  0 <= consecutive_drops p < 2 ^ 32 - 3 ->
  peer_id p ∉ r1 -> peer_id p ∉ r2 -> peer_id p ∉ r3 ->
  let p1 := after_round r1 p in let p2 := after_round r2 p1 in let p3 := after_round r3 p2 in
  Participant.is_malicious p3 = true /\
  (p = Participant.new (peer_id p) ->
     Participant.is_malicious p1 = false /\ Participant.is_malicious p2 = false).
Proof.
  intros Hd H1 H2 H3. cbv zeta. unfold after_round, DcRound.answered.
  rewrite (bool_decide_eq_false_2 _ H1). cbn [peer_id Participant.penalize].
  rewrite (bool_decide_eq_false_2 _ H2). cbn [peer_id Participant.penalize].
  rewrite (bool_decide_eq_false_2 _ H3). split.
  - unfold Participant.is_malicious, Participant.penalize. cbn [consecutive_drops].
    rewrite (wrap32_small (consecutive_drops p + 1)) by lia.
    rewrite (wrap32_small (consecutive_drops p + 1 + 1)) by lia.
    rewrite (wrap32_small (consecutive_drops p + 1 + 1 + 1)) by lia.
    by rewrite (proj2 (Z.leb_le _ _)) by lia.
  - intros E. rewrite E. split; vm_compute; reflexivity.
Qed.

(** A ban is for ever. A peer reported malicious by a round is banned, and a banned peer is
    still banned after any further rounds, whoever answers in them: it counts as malicious and
    its trust level is 0, even though answering raises its score again. *)
Theorem ban_is_permanent now m responded all pct pid (history : list (list bytes * list bytes * Z)) :
  pid ∈ (ReputationManager.process_round now m responded all pct).2 ->
  let m1 := (ReputationManager.process_round now m responded all pct).1 in
  let m2 := foldl (fun m h => (ReputationManager.process_round now m h.1.1 h.1.2 h.2).1) m1 history in
  exists r, m2 !! pid = Some r /\ banned r = true /\
    Reputation.is_malicious r = true /\ Reputation.trust_level r = 0.
Proof.
  intros Hin m1 m2.
  assert (Hb : ReputationFacts.banned_in m1 pid).
  { apply ReputationFacts.process_round_reported; [|done]. intros x Hx. by apply not_elem_of_nil in Hx. }
  assert (Hb2 : ReputationFacts.banned_in m2 pid).
  { unfold m2. clearbody m1. clear Hin m2. revert m1 Hb. induction history as [|h hs IH]; intros m1 Hb; [done|].
    simpl. apply IH. by apply (ReputationFacts.process_round_banned now h.1.1 h.2 h.1.2 (m1, [])). }
  destruct Hb2 as (r & Hr & Hbr). exists r. split_and!; [done..|apply ReputationFacts.banned_malicious|
    apply ReputationFacts.banned_malicious]; done.
Qed.

(** The ranking names the best peers. It has as many entries as there are peers without a ban, at
    most [n]; with the peers it leaves out they are exactly the peers without a ban, in descending
    order of score, and none left out scores higher than one named. *)
Theorem top_trusted_best (m : ReputationManager.t) n :
  Forall ReputationFacts.scored (map_to_list m).*2 ->
  let free := filter (fun r => banned r = false) (map_to_list m).*2 in
  let top := ReputationManager.top_trusted m n in
  length top = (n `min` length free)%nat /\ StronglySorted ReputationFacts.no_better top /\
  exists rest, top ++ rest ≡ₚ free /\ forall a b, a ∈ top -> b ∈ rest -> ReputationFacts.no_better a b.
Proof.
  intros HF free top. set (all := foldr ReputationManager.insert_ranked [] free).
  assert (Hp : all ≡ₚ free) by apply ReputationFacts.ranked_perm.
  assert (Hs : StronglySorted ReputationFacts.no_better (take n all ++ drop n all)).
  { rewrite take_drop. apply ReputationFacts.ranked_sorted. rewrite Forall_forall in *. intros r [_ Hr]%list_elem_of_filter. auto. }
  change top with (take n all). split_and!.
  - by rewrite length_take, Hp.
  - by eapply ReputationFacts.sorted_front.
  - exists (drop n all). split; [by rewrite take_drop|]. intros a b. by apply ReputationFacts.sorted_split.
Qed.

End GroupProperties.

(** ** Witnesses *)

Module GroupWitness.
Import DcGroup GroupFacts.

Definition g : DcGroup := foldl join (new [] 2 1) [[1]; [2]; [3]].
Definition started : DcGroup * option DcRound := start_round 0 g 1.

Lemma group_round_witness :
  (2 <= zlen (participants started.1) /\ is_healthy started.1 = true) /\
  let updated := after_round [[1]; [3]] <$> participants started.1 in
  let '(g2, (dropouts, malicious)) := finish_round_with started.1 [[1]; [3]] in
  dropouts = peer_id <$> filter (fun p => peer_id p ∉ [[1]; [3]]) (participants started.1) /\
  malicious = peer_id <$> filter (fun p => Participant.is_malicious p = true) updated /\
  participants g2 = filter (fun p => Participant.is_malicious p = false) updated /\
  current_round g2 = None.
Proof.
  apply (group_round 0 g 1 started.1 (DcRound.new 0 1 (participants started.1) 1) [[1]; [3]]).
  - apply (bool_decide_unpack _). vm_compute. exact I.
  - vm_compute. reflexivity.
Defined.

Lemma three_strikes_witness :
  let p := Participant.new [7] in
  let p1 := after_round [] p in let p2 := after_round [] p1 in let p3 := after_round [] p2 in
  Participant.is_malicious p3 = true /\
  (p = Participant.new [7] -> Participant.is_malicious p1 = false /\ Participant.is_malicious p2 = false).
Proof.
  apply (three_strikes (Participant.new [7]) [] [] []); [vm_compute; done|apply not_elem_of_nil..].
Defined.

(** A newcomer misses two rounds: its score falls from 0.5 to below 0.3. *)
Definition m0 : ReputationManager.t := (ReputationManager.process_round 0 ∅ [] [[9]] 10).1.

Lemma ban_is_permanent_witness :
  let m1 := (ReputationManager.process_round 0 m0 [] [[9]] 10).1 in
  let m2 := foldl (fun m h => (ReputationManager.process_round 0 m h.1.1 h.1.2 h.2).1) m1
              [([[9]], [[9]], 5); ([[9]], [[9]], 5)] in
  exists r, m2 !! [9] = Some r /\ banned r = true /\
    Reputation.is_malicious r = true /\ Reputation.trust_level r = 0.
Proof.
  apply (ban_is_permanent 0 m0 [] [[9]] 10 [9] [([[9]], [[9]], 5); ([[9]], [[9]], 5)]).
  vm_compute. left.
Defined.

(** Of three peers, one answered, one is new, and one was banned. *)
Definition m3 : ReputationManager.t :=
  (ReputationManager.process_round 0 (ReputationManager.process_round 0 m0 [[8]] [[8]; [9]] 10).1 [[7]] [[7]] 10).1.

Lemma top_trusted_best_witness :
  let top := ReputationManager.top_trusted m3 5 in
  length top = 2%nat /\ StronglySorted ReputationFacts.no_better top.
Proof.
  destruct (top_trusted_best m3 5) as (Hl & Hs & _); [|split; [exact Hl|exact Hs]].
  vm_compute. repeat constructor; discriminate.
Defined.

End GroupWitness.
