(* ===== verification/Relay.v ===== *)
(** [net/relay.rs]: relay signatures, routing table and admission control. Times are Unix
    seconds. *)

From Stdlib Require Import Sorted.
From S2P Require Import Prelude Crypto Identity Wire.

Definition RELAY_SIG_DOMAIN : bytes := string_bytes "chrono-relay-v1".
Definition RELAY_MAX_HOPS : Z := 8.
Definition RELAY_MAX_AGE_SECS : Z := 60.
Definition RELAY_RATE_WINDOW_SECS : Z := 60.
Definition RELAY_MAX_PER_WINDOW : Z := 60.
Definition MAX_RELAY_TRACKED : Z := 4096.
Definition MAX_RELAY_PINS : Z := 4096.

Definition relay_signature_message (from_uid to_uid : string) (nonce timestamp : Z) (payload : bytes) : bytes :=
  RELAY_SIG_DOMAIN
  ++ be_bytes 4 (wrap32 (slen from_uid)) ++ string_bytes from_uid
  ++ be_bytes 4 (wrap32 (slen to_uid)) ++ string_bytes to_uid
  ++ be_bytes 8 nonce ++ be_bytes 8 timestamp
  ++ be_bytes 4 (wrap32 (zlen payload)) ++ payload.

Definition valid_inbound_hops (hops_left : Z) : bool := hops_left <=? RELAY_MAX_HOPS.

Section RelaySig.
Context `{Crypto}.

Definition sign_relay (signing_key : bytes) (from_uid to_uid : string) (nonce timestamp : Z)
    (payload : bytes) : bytes :=
  ed_sign signing_key (relay_signature_message from_uid to_uid nonce timestamp payload).

Definition verify_relay (vk : bytes) (from_uid to_uid : string) (nonce timestamp : Z)
    (payload signature : bytes) : bool :=
  match ed_sig_from_slice signature with
  | Some sig => ed_verify vk (relay_signature_message from_uid to_uid nonce timestamp payload) sig
  | None => false
  end.

(** [struct RelayOrigin]. *)
Record RelayOrigin := mkOrigin {
  ro_signing_key : bytes;
  ro_origin_key_hex : string;
  ro_from_uid : string;
  ro_to_uid : string;
  ro_nonce : Z;
  ro_timestamp : Z;
  ro_hops_left : Z;
}.

Definition build_relay_request (o : RelayOrigin) (encrypted : bytes) : PeerMessage :=
  let signature := sign_relay (ro_signing_key o) (ro_from_uid o) (ro_to_uid o) (ro_nonce o)
                     (ro_timestamp o) encrypted in
  RelayRequest (ro_from_uid o) (ro_to_uid o) (ro_origin_key_hex o) (ro_nonce o) (ro_timestamp o)
    (Z.min (ro_hops_left o) RELAY_MAX_HOPS) signature encrypted.

Definition build_relay_response (o : RelayOrigin) (encrypted : bytes) : PeerMessage :=
  let signature := sign_relay (ro_signing_key o) (ro_from_uid o) (ro_to_uid o) (ro_nonce o)
                     (ro_timestamp o) encrypted in
  RelayResponse (ro_from_uid o) (ro_to_uid o) (ro_origin_key_hex o) (ro_nonce o) (ro_timestamp o)
    (Z.min (ro_hops_left o) RELAY_MAX_HOPS) signature encrypted.

End RelaySig.

(** ** Routing *)

Record RelayPath := mkPath {
  relay_uid : string;
  target_uid : string;
  active : bool;
  bytes_relayed : Z;
}.

Module RelayRouter.

Abbreviation t := (gmap string (list RelayPath)).

Definition new : t := ∅.

Definition add_path (r : t) (target relay : string) : t :=
  <[target := default [] (r !! target) ++ [mkPath relay target true 0]]> r.

Definition remove_target (r : t) (target : string) : t := delete target r.

Definition get_paths (r : t) (target : string) : list RelayPath :=
  match r !! target with
  | Some v => filter (fun p => active p = true) v
  | None => []
  end.

Definition has_path (r : t) (target : string) : bool :=
  match r !! target with
  | Some v => existsb active v
  | None => false
  end.

Definition next_hop (r : t) (target : string) : option string :=
  relay_uid <$> head (get_paths r target).

Definition list_all (r : t) : list RelayPath := concat (map_to_list r).*2.

End RelayRouter.

(** ** Admission control *)

Module RelayVerifier.

Record t := mk {
  last_nonce : gmap string Z;
  rate : gmap string (Z * Z);
  key_pins : gmap string string;
}.

Definition new : t := {| last_nonce := ∅; rate := ∅; key_pins := ∅ |}.

Definition pin_key (v : t) (sender key_hex : string) : t * result unit string :=
  match key_pins v !! sender with
  | None =>
      let pins := if MAX_RELAY_PINS <=? Z.of_nat (size (key_pins v)) then ∅ else key_pins v in
      (mk (last_nonce v) (rate v) (<[sender := key_hex]> pins), Ok tt)
  | Some prev =>
      if bool_decide (prev = key_hex) then (v, Ok tt)
      else (v, Err ("identity key changed for " +:+ sender))
  end.

(** The replay test at the head of [check]. *)
Definition replayed (v : t) (key_hex : string) (nonce : Z) : option Z :=
  match last_nonce v !! key_hex with
  | Some last => if nonce <=? last then Some last else None
  | None => None
  end.

(** The rate entry after the window reset: [(window_start, count)]. *)
Definition current_window (now : Z) (e : Z * Z) : Z * Z :=
  if RELAY_RATE_WINDOW_SECS <=? abs_diff now e.1 then (now, 0) else e.

Definition check (v : t) (key_hex : string) (nonce timestamp now : Z) : t * result unit string :=
  match replayed v key_hex nonce with
  | Some last => (v, Err ("replayed nonce " +:+ fmt nonce +:+ " (last " +:+ fmt last +:+ ")"))
  | None =>
      if abs_diff now timestamp >? RELAY_MAX_AGE_SECS then
        (v, Err ("timestamp " +:+ fmt timestamp +:+ " outside freshness window"))
      else
        let rates := if MAX_RELAY_TRACKED <=? Z.of_nat (size (rate v)) then ∅ else rate v in
        let '(window_start, count) := current_window now (default (now, 0) (rates !! key_hex)) in
        if RELAY_MAX_PER_WINDOW <=? count then
          (mk (last_nonce v) (<[key_hex := (window_start, count)]> rates) (key_pins v),
           Err ("rate limit exceeded for identity key " +:+ key_hex))
        else
          let rates := <[key_hex := (window_start, count +₃₂ 1)]> rates in
          let nonces := if MAX_RELAY_TRACKED <=? Z.of_nat (size (last_nonce v)) then ∅ else last_nonce v in
          (mk (<[key_hex := nonce]> nonces) rates (key_pins v), Ok tt)
  end.

End RelayVerifier.

Abbreviation RelayVerifier := RelayVerifier.t.

(** ** Lemmas *)

Module RelayFacts.
Import RelayVerifier.

(** What an admission establishes. *)
Lemma check_ok v k n ts now v' :
  check v k n ts now = (v', Ok tt) ->
  (forall last, last_nonce v !! k = Some last -> last < n) /\ abs_diff now ts <= RELAY_MAX_AGE_SECS /\
  last_nonce v' !! k = Some n /\ key_pins v' = key_pins v /\
  (Z.of_nat (size (last_nonce v)) < MAX_RELAY_TRACKED -> last_nonce v' = <[k := n]> (last_nonce v)).
Proof.
  unfold check. destruct (replayed v k n) eqn:Er; [done|].
  destruct (_ >? _) eqn:Ea; [done|]. rewrite Z.gtb_ltb in Ea. breflect.
  destruct (current_window _ _) as [ws' c'].
  destruct (_ <=? c') eqn:Ec; [done|]. intros [= <-]. simpl. split_and!.
  - intros last Hl. unfold replayed in Er. rewrite Hl in Er. case_match; breflect; [done|lia].
  - done.
  - apply lookup_insert_eq.
  - done.
  - intros Hs. by rewrite (proj2 (Z.leb_gt _ _)) by done.
Qed.

(** A rejection leaves the nonces and the pins alone. *)
Lemma check_err v k n ts now v' e :
  check v k n ts now = (v', Err e) -> last_nonce v' = last_nonce v /\ key_pins v' = key_pins v.
Proof.
  unfold check. destruct (replayed v k n); [by intros [= <- _]|].
  destruct (_ >? _); [by intros [= <- _]|].
  destruct (current_window _ _) as [ws' c'].
  destruct (_ <=? c'); by intros [= <- _].
Qed.

(** Reading a key does not depend on the case of its hex digits. *)
Lemma to_digit_upper c : to_digit (ascii_upper c) = to_digit c.
Proof.
  unfold ascii_upper. destruct (byte_in 97 122 c) eqn:E; [|done].
  unfold to_digit, byte_in in *. breflect.
  destruct (c <=? 102) eqn:E2; breflect.
  - replace (48 <=? c - 32) with true by (symmetry; apply Z.leb_le; lia).
    replace (c - 32 <=? 57) with false by (symmetry; apply Z.leb_gt; lia).
    replace (97 <=? c - 32) with false by (symmetry; apply Z.leb_gt; lia).
    replace (65 <=? c - 32) with true by (symmetry; apply Z.leb_le; lia).
    replace (c - 32 <=? 70) with true by (symmetry; apply Z.leb_le; lia).
    replace (c <=? 57) with false by (symmetry; apply Z.leb_gt; lia).
    replace (97 <=? c) with true by (symmetry; apply Z.leb_le; lia).
    rewrite !andb_false_r. simpl. f_equal. lia.
  - replace (c - 32 <=? 57) with false by (symmetry; apply Z.leb_gt; lia).
    replace (c - 32 <=? 70) with false by (symmetry; apply Z.leb_gt; lia).
    replace (c - 32 <=? 102) with true by (symmetry; apply Z.leb_le; lia).
    replace (97 <=? c - 32) with false by (symmetry; apply Z.leb_gt; lia).
    replace (c <=? 57) with false by (symmetry; apply Z.leb_gt; lia).
    replace (c <=? 70) with false by (symmetry; apply Z.leb_gt; lia).
    rewrite !andb_false_r. done.
Qed.

Lemma ascii_upper_plus c : (ascii_upper c =? 43) = (c =? 43).
Proof.
  unfold ascii_upper, byte_in. destruct (97 <=? c) eqn:E1, (c <=? 122) eqn:E2; breflect; try done. simpl.
  destruct (c - 32 =? 43) eqn:E3, (c =? 43) eqn:E4; breflect; lia || done.
Qed.

Lemma hex_pairs_upper bs : hex_pairs (ascii_upper <$> bs) = hex_pairs bs.
Proof.
  assert (Hn : forall n bs, (length bs <= n)%nat -> hex_pairs (ascii_upper <$> bs) = hex_pairs bs).
  { induction n as [|n IH]; intros [|a [|b l]] Hl; simpl in Hl; try done; try lia.
    cbn [fmap list_fmap hex_pairs]. fold (fmap (M := list) ascii_upper l). rewrite IH by lia.
    unfold from_str_radix2. by rewrite ascii_upper_plus, !to_digit_upper. }
  by apply (Hn (length bs)).
Qed.

Lemma ascii_upper_byte c : is_byte c -> is_byte (ascii_upper c).
Proof. unfold is_byte, ascii_upper, byte_in. case_match; breflect; lia. Qed.

Lemma ascii_upper_lt c : is_byte c -> (ascii_upper c <? 128) = (c <? 128).
Proof.
  unfold is_byte, ascii_upper, byte_in. intros Hc. destruct (97 <=? c) eqn:E1, (c <=? 122) eqn:E2; breflect; try done.
  simpl. destruct (c <? 128) eqn:E3; breflect; [apply Z.ltb_lt; lia|lia].
Qed.

(** The upper-case spelling of a string. *)
Definition to_ascii_uppercase (s : string) : string := bytes_string (ascii_upper <$> string_bytes s).

Lemma string_bytes_upper s : string_bytes (to_ascii_uppercase s) = ascii_upper <$> string_bytes s.
Proof.
  apply string_bytes_string, Forall_fmap. eapply Forall_impl; [apply string_bytes_ok|].
  intros c. apply ascii_upper_byte.
Qed.

Lemma hex_decode_upper s : hex_decode (to_ascii_uppercase s) = hex_decode s.
Proof.
  unfold hex_decode. rewrite <-!zlen_string_bytes, string_bytes_upper, hex_pairs_upper.
  replace (zlen (ascii_upper <$> string_bytes s)) with (zlen (string_bytes s))
    by (unfold zlen; by rewrite length_fmap).
  replace (is_ascii (ascii_upper <$> string_bytes s)) with (is_ascii (string_bytes s)); [done|].
  unfold is_ascii. induction (string_bytes_ok s) as [|c l Hc Hl IH]; [done|].
  cbn [forallb fmap list_fmap]. rewrite ascii_upper_lt by done. f_equal. apply IH.
Qed.

(** A sequence of admission calls: [(key, nonce, timestamp, now)]. *)
Fixpoint check_all (v : t) (l : list (string * Z * Z * Z)) : t * list (string * Z) :=
  match l with
  | [] => (v, [])
  | (k, n, ts, now) :: l' =>
      match check v k n ts now with
      | (v1, Ok _) => let '(v2, acc) := check_all v1 l' in (v2, (k, n) :: acc)
      | (v1, Err _) => check_all v1 l'
      end
  end.

Lemma size_insert_le (m : gmap string Z) k n : (size (<[k := n]> m) <= S (size m))%nat.
Proof.
  destruct (m !! k) eqn:E; [rewrite map_size_insert_Some by eauto; lia|].
  rewrite map_size_insert_None by done. lia.
Qed.

(** Below the table bound the nonces accepted for a key increase strictly, starting above the
    recorded one. *)
Lemma check_all_increasing l v k :
  Z.of_nat (size (last_nonce v)) + zlen l < MAX_RELAY_TRACKED ->
  let acc := (check_all v l).2 in
  let ns := (filter (fun p => p.1 = k) acc).*2 in
  StronglySorted Z.lt (option_list (last_nonce v !! k) ++ ns).
Proof.
  revert v. induction l as [|[[[k1 n1] ts] now] l IH]; intros v Hs; cbn [check_all].
  { simpl. destruct (last_nonce v !! k); simpl; repeat constructor. }
  rewrite zlen_cons in Hs. pose proof (zlen_nonneg l).
  destruct (check v k1 n1 ts now) as [v1 [[]|e]] eqn:E.
  - pose proof (check_ok _ _ _ _ _ _ E) as (Hlt & _ & Hk1 & _ & Hins). specialize (Hins ltac:(lia)).
    specialize (IH v1). destruct (check_all v1 l) as [v2 acc]. simpl in *.
    pose proof (size_insert_le (last_nonce v) k1 n1). rewrite Hins in IH.
    specialize (IH ltac:(lia)). destruct (decide (k1 = k)) as [->|Hne].
    + rewrite filter_cons_True by done. rewrite lookup_insert_eq in IH. simpl in *.
      destruct (last_nonce v !! k) as [last|] eqn:El; simpl; [|done].
      specialize (Hlt last eq_refl). constructor; [done|].
      apply StronglySorted_inv in IH as [_ HF]. constructor; [done|].
      eapply Forall_impl; [exact HF|]. simpl. lia.
    + rewrite filter_cons_False by done. by rewrite lookup_insert_ne in IH by done.
  - apply check_err in E as [E _]. rewrite <-E in *. apply IH. lia.
Qed.

End RelayFacts.

(** ** The table bound *)

Module RelayFlush.
Import RelayVerifier RelayFacts.

(** One admission request at time [now] with nonce [n]. *)
Definition ask (now : Z) (p : string * Z) : string * Z * Z * Z := (p.1, p.2, now, now).

Lemma check_all_app v l1 l2 :
  check_all v (l1 ++ l2) =
    let '(v1, a1) := check_all v l1 in let '(v2, a2) := check_all v1 l2 in (v2, a1 ++ a2).
Proof.
  revert v. induction l1 as [|[[[k n] ts] now] l1 IH]; intros v; cbn [app check_all].
  { by destruct (check_all v l2). }
  destruct (check v k n ts now) as [v1 [u|e]]; rewrite IH; destruct (check_all v1 l1) as [v2 a1];
    by destruct (check_all v2 l2).
Qed.

(** A key in neither table is admitted; the tables grow by it, or restart with it when full. *)
Lemma check_fresh v k n now :
  last_nonce v !! k = None -> rate v !! k = None ->
  let full {V} (m : gmap string V) := if MAX_RELAY_TRACKED <=? Z.of_nat (size m) then ∅ else m in
  check v k n now now =
    (mk (<[k := n]> (full (last_nonce v))) (<[k := (now, 1)]> (full (rate v))) (key_pins v), Ok tt).
Proof.
  intros Hn Hr full. unfold check, replayed. rewrite Hn.
  replace (abs_diff now now >? RELAY_MAX_AGE_SECS) with false by (unfold abs_diff; by rewrite Z.sub_diag).
  fold (full _ (rate v)) (full _ (last_nonce v)).
  assert (full _ (rate v) !! k = None) as -> by (unfold full; by case_match).
  cbn [default]. unfold current_window. cbn [fst].
  replace (RELAY_RATE_WINDOW_SECS <=? abs_diff now now) with false by (unfold abs_diff; by rewrite Z.sub_diag).
  reflexivity.
Qed.

(** Fresh keys up to the bound are all admitted, and tracked. *)
Lemma check_fresh_all now l v :
  NoDup l.*1 -> (forall k, k ∈ l.*1 -> last_nonce v !! k = None /\ rate v !! k = None) ->
  size (last_nonce v) = size (rate v) ->
  Z.of_nat (size (last_nonce v)) + zlen l <= MAX_RELAY_TRACKED ->
  exists v', check_all v (ask now <$> l) = (v', l) /\
    size (last_nonce v') = (size (last_nonce v) + length l)%nat /\ size (rate v') = size (last_nonce v') /\
    (forall k, k ∉ l.*1 -> last_nonce v' !! k = last_nonce v !! k /\ rate v' !! k = rate v !! k).
Proof.
  revert v. induction l as [|[k n] l IH]; intros v Hnd Hf Hs Hb.
  { exists v. cbn. split_and!; done || lia. }
  cbn [fmap list_fmap fst] in Hnd, Hf. apply NoDup_cons in Hnd as [Hk Hnd].
  rewrite zlen_cons in Hb. pose proof (zlen_nonneg l).
  destruct (Hf k) as [Hn Hr]; [set_solver|].
  rewrite fmap_cons. unfold ask at 1. cbn [fst snd check_all]. rewrite check_fresh by done.
  rewrite !(proj2 (Z.leb_gt _ _)) by lia.
  edestruct (IH (mk (<[k := n]> (last_nonce v)) (<[k := (now, 1)]> (rate v)) (key_pins v)))
    as (v' & E & Hs1 & Hs2 & Hout); cbn [last_nonce rate]; [done| | | |].
  - intros k' Hk'. rewrite !lookup_insert_ne by congruence. apply Hf. by right.
  - rewrite !map_size_insert_None by done. lia.
  - rewrite map_size_insert_None by done. lia.
  - rewrite E. exists v'. cbn [last_nonce rate] in *. rewrite map_size_insert_None in Hs1 by done.
    split_and!; [done|cbn [length]; lia|done|].
    intros k' Hk'. cbn [fmap list_fmap fst] in Hk'. rewrite not_elem_of_cons in Hk'. destruct Hk' as [Hne Hk'].
    destruct (Hout k' Hk') as [-> ->]. by rewrite !lookup_insert_ne by congruence.
Qed.

(** Replay protection holds up to the size of the nonce table. In any run of fewer than 4096
    requests the nonces admitted for each key increase strictly, so no message is admitted
    twice. Beyond it, the table is emptied when its 4096 entries are used up, and with it the memory of
    every accepted nonce. From the start of the daemon, one message of [k], then one message of
    each of 4096 other keys, then the very first message again: all are admitted, the replay
    included, within one second. *)
Theorem nonce_flush_replay k n (ks : list string) now :
  NoDup (k :: ks) -> zlen ks = MAX_RELAY_TRACKED ->
  let sybils := (fun k' => (k', 1)) <$> ks in
  (forall l k', zlen l < MAX_RELAY_TRACKED ->
     StronglySorted Z.lt (filter (fun p => p.1 = k') (check_all new l).2).*2) /\
  (check_all new (ask now <$> ((k, n) :: sybils ++ [(k, n)]))).2 = (k, n) :: sybils ++ [(k, n)].
Proof.
  intros Hnd Hlen sybils. split.
  { intros l k' Hl. apply (check_all_increasing l new k'). by rewrite Z.add_0_l. }
  destruct (exists_last (l := ks)) as (ks0 & kl & ->).
  { intros ->. done. }
  rewrite zlen_app in Hlen. unfold zlen at 2 in Hlen. cbn [length] in Hlen.
  apply NoDup_cons in Hnd as [Hk Hnd]. apply NoDup_app in Hnd as (Hnd0 & Hdis & _).
  rewrite not_elem_of_app, list_elem_of_singleton in Hk. destruct Hk as [Hk Hkl].
  assert (Hkl0 : kl ∉ ks0) by (intros Hin; eapply Hdis; [done|by apply list_elem_of_singleton]).
  set (l1 := (k, n) :: ((fun k' => (k', 1)) <$> ks0)).
  assert (Hl1 : l1.*1 = k :: ks0) by (unfold l1; cbn; by rewrite <-list_fmap_compose, list_fmap_id).
  assert (Hlen1 : length l1 = 4096%nat)
    by (unfold l1; cbn [length]; rewrite length_fmap; unfold zlen, MAX_RELAY_TRACKED in Hlen; lia).
  replace ((k, n) :: sybils ++ [(k, n)]) with (l1 ++ [(kl, 1); (k, n)])
    by (unfold l1, sybils; rewrite fmap_app; cbn; by rewrite <-app_assoc).
  destruct (check_fresh_all now l1 new) as (v & E & Hs1 & Hs2 & Hout).
  { rewrite Hl1. by apply NoDup_cons. }
  { done. }
  { done. }
  { unfold zlen. rewrite Hlen1. done. }
  rewrite fmap_app, check_all_app, E. cbn [fmap list_fmap ask fst snd check_all].
  destruct (Hout kl) as [Hn Hr]; [rewrite Hl1, not_elem_of_cons; naive_solver|].
  rewrite check_fresh by done. rewrite Hs2, Hs1, Hlen1. cbn [new last_nonce].
  change (MAX_RELAY_TRACKED <=? Z.of_nat (size ∅ + 4096)) with true. cbv iota.
  rewrite check_fresh; [done|cbn [last_nonce rate]; by rewrite lookup_insert_ne, lookup_empty by congruence..].
Qed.

Definition keys (a : nat) (m : nat) : list string := pretty <$> seq a m.

Lemma nonce_flush_replay_witness :
  (check_all new (ask 1000 <$> (("0", 7) :: ((fun k' => (k', 1)) <$> keys 1 4096) ++ [("0", 7)]))).2 =
    ("0", 7) :: ((fun k' => (k', 1)) <$> keys 1 4096) ++ [("0", 7)].
Proof.
  apply (nonce_flush_replay "0" 7 (keys 1 4096) 1000).
  - change (NoDup (keys 0 4097)). apply NoDup_fmap_2; [apply _|apply NoDup_seq].
  - unfold zlen, keys. rewrite length_fmap, length_seq. reflexivity.
Defined.

End RelayFlush.
