(* ===== verification/Session.v ===== *)
(** [net/session.rs]: the authenticated X25519 handshake and the encrypted, sequence-numbered
    frames that follow it.

    A handshake owns one end of a byte stream. It is a function of the bytes the other end
    sends; its result is the bytes it writes, the outcome and what it left unread. Ephemeral
    secrets and nonces, which [OsRng] draws, are arguments. Writes to the socket succeed. *)

From S2P Require Import Prelude Crypto Identity Wire.

Definition MAX_FRAME : Z := 65536.

(** [struct SessionAuth]. *)
Record SessionAuth := mkAuth {
  sa_uid : string;
  sa_public_hex : string;
  sa_signing_key : bytes;
}.

(** [struct SessionKeys]. *)
Record SessionKeys := mkKeys {
  send_key : bytes;
  recv_key : bytes;
  peer_uid : string;
  peer_public_hex : string;
  peer_authenticated : bool;
}.

Inductive PeerSigCheck := Verified | Unverified | Rejected.

(** [Mutex<HashMap<String, String>>]; [None] is a poisoned lock. *)
Abbreviation KnownKeys := (option (gmap string string)).

Section Session.
Context `{Crypto} `{Json}.

Definition check_peer_sig (known_keys : KnownKeys) (uid claimed_key_hex : string) (msg sig : bytes)
    : PeerSigCheck :=
  match map ← known_keys; map !! uid with
  | None => Unverified
  | Some expected =>
      if negb (bool_decide (expected = claimed_key_hex)) then Rejected
      else
        match bs ← hex_decode expected; arr ← array32 bs; ed_vk_from_bytes arr with
        | None => Unverified
        | Some vk =>
            match ed_sig_from_slice sig with
            | Some s => if ed_verify vk msg s then Verified else Rejected
            | None => Rejected
            end
        end
  end.

Definition hex_to_32 (hex : string) : result bytes io_error :=
  match hex_decode hex with
  | None => Err (InvalidData "bad hex")
  | Some bs =>
      match array32 bs with
      | Some a => Ok a
      | None => Err (InvalidData "bad key length")
      end
  end.

Definition derive_shared (secret peer_eph : bytes) : result bytes io_error :=
  let shared := x_dh secret peer_eph in
  if negb (x_contributory shared) then
    Err (InvalidData "peer ephemeral key is not contributory (low-order point)")
  else Ok shared.

Definition send_json (stream : bytes) (msg : PeerMessage) : bytes :=
  let payload := string_bytes (to_json msg) in
  stream ++ be_bytes 4 (wrap32 (zlen payload)) ++ payload.

(** The frame reader [recv_json] and [recv_secure_frame] both start with. *)
Definition read_frame (stream : bytes) : result (bytes * bytes) io_error :=
  match read_exact 4 stream with
  | Err e => Err e
  | Ok (len_buf, rest) =>
      let len := from_be len_buf in
      if len >? MAX_FRAME then Err (InvalidData "frame too large") else read_exact len rest
  end.

Definition recv_json (stream : bytes) : result (PeerMessage * bytes) io_error :=
  match read_frame stream with
  | Err e => Err e
  | Ok (buf, rest) =>
      match from_utf8 buf with
      | None => Err (InvalidData "non-utf8 frame")
      | Some text =>
          match from_json text with
          | None => Err (InvalidData "bad JSON frame")
          | Some m => Ok (m, rest)
          end
      end
  end.

Definition dir_a (master : bytes) : bytes := hkdf_expand32 master (string_bytes "chrono-dir-a").
Definition dir_b (master : bytes) : bytes := hkdf_expand32 master (string_bytes "chrono-dir-b").

(** What the initiator writes first. *)
Definition challenge (auth : SessionAuth) (eph_secret nonce : bytes) : PeerMessage :=
  let eph_pub := x_public eph_secret in
  let challenge_sig := ed_sign (sa_signing_key auth) (eph_pub ++ nonce) in
  AuthChallenge (sa_uid auth) (sa_public_hex auth) (hex_encode eph_pub) nonce challenge_sig.

(** What the initiator makes of the answer. *)
Definition accept_response (auth : SessionAuth) (known_keys : KnownKeys) (eph_secret nonce : bytes)
    (resp : PeerMessage) : result SessionKeys io_error :=
  let eph_pub := x_public eph_secret in
  match resp with
  | AuthResponse resp_uid resp_key_hex resp_eph_hex resp_sig =>
      if negb (validate_uid resp_uid) then Err (InvalidData "invalid responder uid")
      else
        match hex_to_32 resp_eph_hex with
        | Err e => Err e
        | Ok resp_eph =>
            match check_peer_sig known_keys resp_uid resp_key_hex (eph_pub ++ resp_eph ++ nonce) resp_sig with
            | Rejected =>
                Err (PermissionDenied ("peer " +:+ resp_uid +:+ " failed handshake signature check"))
            | chk =>
                match derive_shared eph_secret resp_eph with
                | Err e => Err e
                | Ok shared =>
                    let master := derive_session_key shared eph_pub resp_eph in
                    Ok (mkKeys (dir_a master) (dir_b master) resp_uid resp_key_hex
                          (match chk with Verified => true | _ => false end))
                end
            end
        end
  | _ => Err (InvalidData "expected auth_response")
  end.

Definition outbound_handshake (auth : SessionAuth) (known_keys : KnownKeys) (eph_secret nonce : bytes)
    (input : bytes) : bytes * result (SessionKeys * bytes) io_error :=
  (send_json [] (challenge auth eph_secret nonce),
   match recv_json input with
   | Err e => Err e
   | Ok (resp, rest) =>
       match accept_response auth known_keys eph_secret nonce resp with
       | Err e => Err e
       | Ok keys => Ok (keys, rest)
       end
   end).

Definition inbound_handshake (auth : SessionAuth) (known_keys : KnownKeys) (eph_secret : bytes)
    (input : bytes) : bytes * result (SessionKeys * bytes) io_error :=
  match recv_json input with
  | Err e => ([], Err e)
  | Ok (AuthChallenge chal_uid chal_key_hex chal_eph_hex chal_nonce chal_sig, rest) =>
      if negb (validate_uid chal_uid) then ([], Err (InvalidData "invalid challenger uid"))
      else
        match hex_to_32 chal_eph_hex with
        | Err e => ([], Err e)
        | Ok chal_eph =>
            match check_peer_sig known_keys chal_uid chal_key_hex (chal_eph ++ chal_nonce) chal_sig with
            | Rejected =>
                ([], Err (PermissionDenied ("peer " +:+ chal_uid +:+ " failed handshake signature check")))
            | chk =>
                let eph_pub := x_public eph_secret in
                let resp_sig := ed_sign (sa_signing_key auth) (chal_eph ++ eph_pub ++ chal_nonce) in
                let out := send_json [] (AuthResponse (sa_uid auth) (sa_public_hex auth)
                                           (hex_encode eph_pub) resp_sig) in
                match derive_shared eph_secret chal_eph with
                | Err e => (out, Err e)
                | Ok shared =>
                    let master := derive_session_key shared chal_eph eph_pub in
                    (out, Ok (mkKeys (dir_b master) (dir_a master) chal_uid chal_key_hex
                                (match chk with Verified => true | _ => false end), rest))
                end
            end
        end
  | Ok (_, _) => ([], Err (InvalidData "expected auth_challenge"))
  end.

(** [seq] is updated even when the encryption fails. *)
Definition send_secure_frame (stream payload key : bytes) (seq : Z) (nonce : bytes)
    : Z * result bytes io_error :=
  let seq := seq +₆₄ 1 in
  let plain := be_bytes 8 seq ++ payload in
  match encrypt_e2e nonce plain key with
  | None => (seq, Err (Other "encrypt failed"))
  | Some enc => (seq, Ok (stream ++ be_bytes 4 (wrap32 (zlen enc)) ++ enc))
  end.

(** The checks on a decrypted frame. *)
Definition open_plain (plain : bytes) (last_seq : Z) : result (Z * bytes) io_error :=
  if zlen plain <? 8 then Err (InvalidData "short frame")
  else
    let seq := from_be (take 8 plain) in
    if seq <=? last_seq then Err (InvalidData "replayed frame") else Ok (seq, drop 8 plain).

(** The new [last_seq] and the payload with the rest of the stream. *)
Definition recv_secure_frame (stream key : bytes) (last_seq : Z) : Z * result (bytes * bytes) io_error :=
  match read_frame stream with
  | Err e => (last_seq, Err e)
  | Ok (enc, rest) =>
      match decrypt_e2e enc key with
      | None => (last_seq, Err (InvalidData "decrypt/authenticate failed"))
      | Some plain =>
          match open_plain plain last_seq with
          | Err e => (last_seq, Err e)
          | Ok (seq, payload) => (seq, Ok (payload, rest))
          end
      end
  end.

End Session.

(** ** Lemmas *)

Section SessionFacts.
Context `{Crypto} `{Json}.

Lemma read_frame_app p rest :
  zlen p <= MAX_FRAME -> read_frame (be_bytes 4 (wrap32 (zlen p)) ++ p ++ rest) = Ok (p, rest).
Proof.
  intros Hp. pose proof (zlen_nonneg p). unfold MAX_FRAME in *. unfold read_frame.
  rewrite wrap32_small, read_be4, from_be_u32 by lia.
  rewrite Z.gtb_ltb, (proj2 (Z.ltb_ge _ _)) by done. apply read_exact_app.
Qed.

(** The message fits a handshake frame. *)
Definition fits (m : PeerMessage) : Prop := slen (to_json m) <= MAX_FRAME.

Lemma recv_send_json `{!JsonLaws} m rest :
  fits m -> recv_json (send_json [] m ++ rest) = Ok (m, rest).
Proof.
  intros Hf. unfold recv_json, send_json. rewrite app_nil_l, <-app_assoc.
  rewrite read_frame_app by (by rewrite zlen_string_bytes).
  by rewrite from_utf8_str, json_round_trip by apply json_utf8.
Qed.

Lemma hex_to_32_encode bs : length bs = 32%nat -> bytes_ok bs -> hex_to_32 (hex_encode bs) = Ok bs.
Proof.
  intros Hl Hb. unfold hex_to_32, array32. rewrite hex_decode_encode by done.
  by rewrite bool_decide_eq_true_2.
Qed.

(** The identity material of a key pair. *)
Definition auth_of (u : string) (sk : bytes) : SessionAuth :=
  mkAuth u (hex_encode (ed_public sk)) sk.

Lemma check_peer_sig_known `{!EdLaws} (map : gmap string string) u sk msg :
  map !! u = Some (hex_encode (ed_public sk)) ->
  check_peer_sig (Some map) u (hex_encode (ed_public sk)) msg (ed_sign sk msg) = Verified.
Proof.
  intros Hm. unfold check_peer_sig. cbn. rewrite Hm, bool_decide_eq_true_2 by done. cbn.
  rewrite hex_decode_encode by apply ed_public_bytes_ok. cbn.
  unfold array32. rewrite bool_decide_eq_true_2 by apply ed_public_length. cbn.
  by rewrite ed_public_parses, ed_sign_parses, ed_verify_sign.
Qed.

Lemma check_peer_sig_unknown (map : gmap string string) u k msg sig :
  map !! u = None -> check_peer_sig (Some map) u k msg sig = Unverified.
Proof. intros Hm. unfold check_peer_sig. cbn. by rewrite Hm. Qed.

(** What a verified check establishes. *)
Lemma check_peer_sig_verified known u k msg sig :
  check_peer_sig known u k msg sig = Verified ->
  exists map vk s, known = Some map /\ map !! u = Some k /\ parse_verifying_key k = Some vk /\
    ed_sig_from_slice sig = Some s /\ ed_verify vk msg s = true.
Proof.
  unfold check_peer_sig. destruct known as [map|]; [|done]. cbn.
  destruct (map !! u) as [e|] eqn:Eu; [|done]. case_bool_decide; [|done]. subst e. cbn.
  destruct (_ ≫= _) as [vk|] eqn:Ev; [|done].
  destruct (ed_sig_from_slice sig) as [s|] eqn:Es; [|done].
  destruct (ed_verify vk msg s) eqn:Eve; [|done]. intros _.
  exists map, vk, s. split_and!; done.
Qed.

(** A key on record for the uid either is the key [k] or is missing. *)
Definition consistent (map : gmap string string) (u k : string) : Prop :=
  map !! u = None \/ map !! u = Some k.

(** The check of a genuine signature under a consistent record. *)
Lemma check_peer_sig_honest `{!EdLaws} map u sk msg :
  consistent map u (hex_encode (ed_public sk)) ->
  check_peer_sig (Some map) u (hex_encode (ed_public sk)) msg (ed_sign sk msg) =
    (if bool_decide (is_Some (map !! u)) then Verified else Unverified).
Proof.
  intros [E|E].
  - rewrite check_peer_sig_unknown by done. rewrite bool_decide_eq_false_2; [done|].
    rewrite E. by intros [? [=]].
  - rewrite check_peer_sig_known by done. rewrite bool_decide_eq_true_2; [done|]. by rewrite E.
Qed.

(** The responder's answer to a well-formed challenge its record does not reject. *)
Lemma inbound_accepts `{!EdLaws, !DhLaws, !JsonLaws} auth known eb u k eph nonce sig rest chk :
  let m := AuthChallenge u k (hex_encode eph) nonce sig in
  length eph = 32%nat -> bytes_ok eph -> fits m -> validate_uid u = true ->
  check_peer_sig known u k (eph ++ nonce) sig = chk -> chk <> Rejected ->
  x_contributory (x_dh eb eph) = true ->
  let master := derive_session_key (x_dh eb eph) eph (x_public eb) in
  inbound_handshake auth known eb (send_json [] m ++ rest) =
    (send_json [] (AuthResponse (sa_uid auth) (sa_public_hex auth) (hex_encode (x_public eb))
                     (ed_sign (sa_signing_key auth) (eph ++ x_public eb ++ nonce))),
     Ok (mkKeys (dir_b master) (dir_a master) u k (match chk with Verified => true | _ => false end), rest)).
Proof.
  intros m Hl Hok Hf Hu Hchk Hr Hc master. unfold inbound_handshake, m.
  rewrite recv_send_json by done. rewrite Hu. cbn [negb].
  rewrite hex_to_32_encode by done. rewrite Hchk. unfold derive_shared. rewrite Hc. cbn [negb].
  by destruct chk.
Qed.

(** The initiator's side. *)
Lemma outbound_accepts `{!EdLaws, !DhLaws, !JsonLaws} auth known ea nonce u k eph sig rest chk :
  let m := AuthResponse u k (hex_encode eph) sig in
  length eph = 32%nat -> bytes_ok eph -> fits m -> validate_uid u = true ->
  check_peer_sig known u k (x_public ea ++ eph ++ nonce) sig = chk -> chk <> Rejected ->
  x_contributory (x_dh ea eph) = true ->
  let master := derive_session_key (x_dh ea eph) (x_public ea) eph in
  outbound_handshake auth known ea nonce (send_json [] m ++ rest) =
    (send_json [] (challenge auth ea nonce),
     Ok (mkKeys (dir_a master) (dir_b master) u k (match chk with Verified => true | _ => false end), rest)).
Proof.
  intros m Hl Hok Hf Hu Hchk Hr Hc master. unfold outbound_handshake, m.
  rewrite recv_send_json by done. unfold accept_response. rewrite Hu. cbn [negb].
  rewrite hex_to_32_encode by done. rewrite Hchk. unfold derive_shared. rewrite Hc. cbn [negb].
  by destruct chk.
Qed.

End SessionFacts.

(** ** Handshake *)

Section Handshake.
Context `{Crypto} `{Json} `{!EdLaws, !DhLaws, !JsonLaws}.

(** What two honest ends compute when they run against each other. *)
Lemma honest_handshake ua ska ub skb ea eb nonce (ka kb : gmap string string) :
  let a := auth_of ua ska in let b := auth_of ub skb in
  let resp := AuthResponse ub (sa_public_hex b) (hex_encode (x_public eb))
                (ed_sign skb (x_public ea ++ x_public eb ++ nonce)) in
  validate_uid ua = true -> validate_uid ub = true ->
  consistent ka ub (sa_public_hex b) -> consistent kb ua (sa_public_hex a) ->
  x_contributory (x_dh ea (x_public eb)) = true ->
  fits (challenge a ea nonce) -> fits resp ->
  let c := (outbound_handshake a (Some ka) ea nonce []).1 in
  let master := derive_session_key (x_dh ea (x_public eb)) (x_public ea) (x_public eb) in
  inbound_handshake b (Some kb) eb c =
    (send_json [] resp, Ok (mkKeys (dir_b master) (dir_a master) ua (sa_public_hex a) (bool_decide (is_Some (kb !! ua))), [])) /\
  outbound_handshake a (Some ka) ea nonce (send_json [] resp) =
    (c, Ok (mkKeys (dir_a master) (dir_b master) ub (sa_public_hex b) (bool_decide (is_Some (ka !! ub))), [])).
Proof.
  intros a b resp Hua Hub Hka Hkb Hc Hfc Hfr c master.
  pose proof (x_public_length ea). pose proof (x_public_bytes_ok ea).
  pose proof (x_public_length eb). pose proof (x_public_bytes_ok eb).
  assert (Hc' : x_contributory (x_dh eb (x_public ea)) = true) by by rewrite x_dh_comm.
  split.
  - unfold c. cbn [outbound_handshake fst]. rewrite <-(app_nil_r (send_json [] (challenge _ _ _))).
    etransitivity; [apply inbound_accepts with (chk := if bool_decide (is_Some (kb !! ua)) then Verified else Unverified); try done;
      [by apply (check_peer_sig_honest kb ua ska)|by case_bool_decide]|].
    unfold master. rewrite (x_dh_comm ea eb). by case_bool_decide.
  - rewrite <-(app_nil_r (send_json [] resp)).
    etransitivity; [apply outbound_accepts with (chk := if bool_decide (is_Some (ka !! ub)) then Verified else Unverified); try done;
      [by apply (check_peer_sig_honest ka ub skb)|by case_bool_decide]|].
    by case_bool_decide.
Qed.

(** C24: Two honest ends that run the handshake against each other both succeed and agree: each
    one's send key is the other's receive key, each learns the other's uid and identity key, and
    an end reports the peer as authenticated exactly when it had the peer's key on record. The
    initiator's challenge is what it writes before it has read anything. Both uids are valid, no end
    has another key on record for the peer, the exchanged secret is contributory and both messages
    fit a frame. *)
Theorem session_agreement ua ska ub skb ea eb nonce (ka kb : gmap string string) :
  let a := auth_of ua ska in let b := auth_of ub skb in
  let resp := AuthResponse ub (sa_public_hex b) (hex_encode (x_public eb))
                (ed_sign skb (x_public ea ++ x_public eb ++ nonce)) in
  validate_uid ua = true -> validate_uid ub = true ->
  consistent ka ub (sa_public_hex b) -> consistent kb ua (sa_public_hex a) ->
  x_contributory (x_dh ea (x_public eb)) = true ->
  fits (challenge a ea nonce) -> fits resp ->
  let c := (outbound_handshake a (Some ka) ea nonce []).1 in
  exists r sa sb,
    inbound_handshake b (Some kb) eb c = (r, Ok (sb, [])) /\
    outbound_handshake a (Some ka) ea nonce r = (c, Ok (sa, [])) /\
    send_key sa = recv_key sb /\ recv_key sa = send_key sb /\
    peer_uid sa = ub /\ peer_public_hex sa = sa_public_hex b /\
    peer_uid sb = ua /\ peer_public_hex sb = sa_public_hex a /\
    peer_authenticated sa = bool_decide (is_Some (ka !! ub)) /\
    peer_authenticated sb = bool_decide (is_Some (kb !! ua)).
Proof.
  intros a b resp Hua Hub Hka Hkb Hc Hfc Hfr c.
  destruct (honest_handshake ua ska ub skb ea eb nonce ka kb Hua Hub Hka Hkb Hc Hfc Hfr) as [Hin Hout].
  eexists _, _, _. split; [exact Hin|]. split; [exact Hout|]. done.
Qed.

(** Whatever bytes the initiator reads, when it returns an authenticated session then the
    key it reports is the one on record for the peer's uid, a signature under that key over the
    initiator's own ephemeral key, the responder's ephemeral key and the initiator's own nonce
    verified, and the session keys are derived from exactly those two ephemeral keys. *)
Theorem outbound_authentication auth known ea nonce input out s rest :
  outbound_handshake auth known ea nonce input = (out, Ok (s, rest)) ->
  peer_authenticated s = true ->
  exists map vk resp_eph sig s64 eph_hex,
    recv_json input = Ok (AuthResponse (peer_uid s) (peer_public_hex s) eph_hex sig, rest) /\
    hex_to_32 eph_hex = Ok resp_eph /\
    known = Some map /\ map !! peer_uid s = Some (peer_public_hex s) /\
    parse_verifying_key (peer_public_hex s) = Some vk /\ ed_sig_from_slice sig = Some s64 /\
    ed_verify vk (x_public ea ++ resp_eph ++ nonce) s64 = true /\
    x_contributory (x_dh ea resp_eph) = true /\
    let master := derive_session_key (x_dh ea resp_eph) (x_public ea) resp_eph in
    send_key s = dir_a master /\ recv_key s = dir_b master.
Proof.
  unfold outbound_handshake. intros [= _ E] Hauth.
  destruct (recv_json input) as [[m r]|e] eqn:Em; [|done].
  destruct (accept_response _ _ _ _ _) as [ks|e] eqn:Ea; [|done]. simplify_eq.
  destruct m; try done. cbn [accept_response] in Ea.
  destruct (validate_uid _); [|done]. cbn [negb] in Ea.
  destruct (hex_to_32 _) as [resp_eph|e] eqn:Eh; [|done].
  destruct (derive_shared ea resp_eph) as [sh|e] eqn:Ed; [|by destruct (check_peer_sig _ _ _ _ _)].
  destruct (check_peer_sig _ _ _ _ _) eqn:Ec; [|by simplify_eq|done]. simplify_eq.
  apply check_peer_sig_verified in Ec as (map & vk & s64 & -> & Hm & Hp & Hs & Hv).
  unfold derive_shared in Ed. destruct (x_contributory _) eqn:Ex; [|done]. simplify_eq/=.
  by eexists map, vk, resp_eph, _, s64, _.
Qed.

(** C10: Neither handshake signature names its role, and the length of the challenger's nonce is
    not checked. Anyone who knows a Diffie-Hellman secret [a] can therefore take the place of
    [ub] towards [uc]: it sends [ub] a challenge of its own (unsigned, under a uid [ub] has no
    key for), and the signature in [ub]'s answer is, byte for byte, a valid challenge signature
    of [ub] over the attacker's ephemeral key and the nonce "[ub]'s ephemeral key, then the
    attacker's nonce". [uc] accepts that challenge as authenticated and both session keys are
    functions of [a]. *)
Theorem handshake_impersonation a nonce evil evil_key ub skb (kb : gmap string string) eb
    uc skc (kc : gmap string string) ec :
  let b := auth_of ub skb in let c := auth_of uc skc in
  let probe := AuthChallenge evil evil_key (hex_encode (x_public a)) nonce [] in
  let sig := ed_sign skb (x_public a ++ x_public eb ++ nonce) in
  let forged := AuthChallenge ub (sa_public_hex b) (hex_encode (x_public a)) (x_public eb ++ nonce) sig in
  validate_uid evil = true -> validate_uid ub = true ->
  kb !! evil = None -> kc !! ub = Some (sa_public_hex b) ->
  x_contributory (x_dh eb (x_public a)) = true -> x_contributory (x_dh ec (x_public a)) = true ->
  fits probe -> fits forged ->
  (exists s, inbound_handshake b (Some kb) eb (send_json [] probe) =
     (send_json [] (AuthResponse ub (sa_public_hex b) (hex_encode (x_public eb)) sig), Ok (s, []))) /\
  exists out s, inbound_handshake c (Some kc) ec (send_json [] forged) = (out, Ok (s, [])) /\
    peer_uid s = ub /\ peer_authenticated s = true /\
    let master := derive_session_key (x_dh a (x_public ec)) (x_public a) (x_public ec) in
    recv_key s = dir_a master /\ send_key s = dir_b master.
Proof.
  intros b c probe sig forged He Hub Hkb Hkc Hc1 Hc2 Hf1 Hf2.
  pose proof (x_public_length a). pose proof (x_public_bytes_ok a). split.
  - eexists. rewrite <-(app_nil_r (send_json [] probe)).
    apply inbound_accepts with (chk := Unverified); try done; by apply check_peer_sig_unknown.
  - eexists _, _. split.
    + rewrite <-(app_nil_r (send_json [] forged)).
      apply inbound_accepts with (chk := Verified); try done. by apply (check_peer_sig_known kc ub skb).
    + cbn. by rewrite (x_dh_comm a ec).
Qed.

End Handshake.

(** ** Encrypted frames *)

Section SecureFrames.
Context `{Crypto}.

(** The writer task: payloads with the nonces drawn for them, appended to the stream. *)
Fixpoint send_all (key : bytes) (seq : Z) (stream : bytes) (l : list (bytes * bytes)) : Z * result bytes io_error :=
  match l with
  | [] => (seq, Ok stream)
  | (payload, nonce) :: l' =>
      match send_secure_frame stream payload key seq nonce with
      | (seq', Ok stream') => send_all key seq' stream' l'
      | (seq', Err e) => (seq', Err e)
      end
  end.

(** [n] calls of the reader. *)
Fixpoint recv_all (n : nat) (key : bytes) (last_seq : Z) (stream : bytes) : Z * result (list bytes * bytes) io_error :=
  match n with
  | O => (last_seq, Ok ([], stream))
  | S n' =>
      match recv_secure_frame stream key last_seq with
      | (l1, Err e) => (l1, Err e)
      | (l1, Ok (p, rest)) =>
          match recv_all n' key l1 rest with
          | (l2, Ok (ps, rest')) => (l2, Ok (p :: ps, rest'))
          | (l2, Err e) => (l2, Err e)
          end
      end
  end.

(** The counter after one call on each of several, arbitrary, streams. *)
Definition recv_many (key : bytes) (last_seq : Z) (streams : list bytes) : Z :=
  foldl (fun last s => (recv_secure_frame s key last).1) last_seq streams.

Lemma recv_secure_frame_mono s key last : last <= (recv_secure_frame s key last).1.
Proof.
  unfold recv_secure_frame, open_plain. repeat case_match; simplify_eq/=; breflect; lia.
Qed.

Lemma recv_many_mono key last ss : last <= recv_many key last ss.
Proof.
  unfold recv_many. revert last. induction ss as [|s ss IH]; intros last; cbn [foldl]; [lia|].
  etrans; [apply (recv_secure_frame_mono s key)|apply IH].
Qed.

Lemma open_plain_stale plain last l' seq payload :
  open_plain plain last = Ok (seq, payload) -> seq <= l' ->
  open_plain plain l' = Err (InvalidData "replayed frame").
Proof.
  unfold open_plain. destruct (zlen plain <? 8); [done|].
  destruct (_ <=? last); [done|]. intros [= <- <-] Hl. by rewrite (proj2 (Z.leb_le _ _)).
Qed.

(** One frame, sent and received. *)
Lemma secure_frame_received `{!AesLaws} stream payload key seq nonce rest :
  length key = 32%nat -> length nonce = 12%nat -> 0 <= seq < 2 ^ 64 - 1 -> zlen payload + 36 <= MAX_FRAME ->
  exists f, send_secure_frame stream payload key seq nonce = (seq + 1, Ok (stream ++ f)) /\
    recv_secure_frame (f ++ rest) key seq = (seq + 1, Ok (payload, rest)).
Proof.
  intros Hk Hn Hs Hp. pose proof (zlen_nonneg payload). unfold MAX_FRAME in *.
  unfold send_secure_frame. rewrite wrap64_small by lia.
  set (plain := be_bytes 8 (seq + 1) ++ payload).
  assert (Hpl : zlen plain = 8 + zlen payload) by (unfold plain; by rewrite zlen_app, zlen_be_bytes).
  destruct (aes_encrypt_total key nonce plain) as [c Hc]; [done|done|lia|].
  assert (He : encrypt_e2e nonce plain key = Some (nonce ++ c)) by (unfold encrypt_e2e; by rewrite Hc).
  rewrite He. eexists. split; [done|]. unfold recv_secure_frame.
  rewrite <-app_assoc, read_frame_app.
  2: { rewrite zlen_app, (aes_tag _ _ _ _ Hc). unfold MAX_FRAME, zlen at 1. lia. }
  rewrite (encrypt_decrypt_e2e _ _ _ _ Hn He). unfold open_plain.
  rewrite (proj2 (Z.ltb_ge _ _)) by lia. unfold plain.
  rewrite take_app_length', drop_app_length' by (by rewrite length_be_bytes).
  rewrite from_be_u64 by lia. by rewrite (proj2 (Z.leb_gt _ _)) by lia.
Qed.

Lemma secure_frames_received `{!AesLaws} key l seq stream :
  length key = 32%nat -> 0 <= seq -> seq + zlen l < 2 ^ 64 ->
  Forall (fun p => length p.2 = 12%nat /\ zlen p.1 + 36 <= MAX_FRAME) l ->
  exists f, send_all key seq stream l = (seq + zlen l, Ok (stream ++ f)) /\
    forall rest, recv_all (length l) key seq (f ++ rest) = (seq + zlen l, Ok (l.*1, rest)).
Proof.
  intros Hk. revert seq stream. induction l as [|[p n] l IH]; intros seq stream Hs Hb HF.
  { exists []. cbn. rewrite app_nil_r. unfold zlen. simpl. by rewrite Z.add_0_r. }
  apply Forall_cons in HF as [[Hn Hp] HF]. rewrite zlen_cons in *. pose proof (zlen_nonneg l).
  cbn [fst snd] in *.
  assert (Hf : forall rest, exists f, send_secure_frame stream p key seq n = (seq + 1, Ok (stream ++ f)) /\
    recv_secure_frame (f ++ rest) key seq = (seq + 1, Ok (p, rest)))
    by (intros rest; apply secure_frame_received; done || lia).
  destruct (Hf []) as (f & Hsend & _).
  destruct (IH (seq + 1) (stream ++ f)) as (f' & Hsend' & Hrecv'); [lia|lia|done|].
  exists (f ++ f'). cbn [send_all length recv_all]. rewrite Hsend, Hsend', <-app_assoc.
  replace (seq + 1 + zlen l) with (seq + (1 + zlen l)) in * by lia. split; [done|]. intros rest.
  destruct (Hf (f' ++ rest)) as (f2 & Hsend2 & Hrecv2).
  assert (f2 = f) as -> by (rewrite Hsend in Hsend2; simplify_eq; done).
  rewrite <-app_assoc, Hrecv2, Hrecv'. done.
Qed.

(** C25: Frames of up to 65500 bytes of payload written by [send_secure_frame] under one key, with any
    nonces, are received in order and unchanged, and the reader's counter ends at the number of frames. A frame once
    accepted is never accepted again: after any number of further calls, on any input at all,
    the same ciphertext is refused as a replay and the counter stays where it was. *)
Theorem secure_stream `{!AesLaws} key (l : list (bytes * bytes)) :
  length key = 32%nat -> zlen l < 2 ^ 64 ->
  Forall (fun p => length p.2 = 12%nat /\ zlen p.1 + 36 <= MAX_FRAME) l ->
  (exists f, send_all key 0 [] l = (zlen l, Ok f) /\ recv_all (length l) key 0 f = (zlen l, Ok (l.*1, []))) /\
  (forall enc last last' payload rest rest' others,
     zlen enc <= MAX_FRAME ->
     recv_secure_frame (send_frame [] enc ++ rest) key last = (last', Ok (payload, rest)) ->
     let now := recv_many key last' others in
     recv_secure_frame (send_frame [] enc ++ rest') key now = (now, Err (InvalidData "replayed frame"))).
Proof.
  intros Hk Hl HF. split.
  - destruct (secure_frames_received key l 0 [] Hk) as (f & Hs & Hr); [lia|lia|done|].
    exists f. rewrite Hs. split; [done|]. specialize (Hr []). by rewrite app_nil_r in Hr.
  - intros enc last last' payload rest rest' others He Hr now. revert Hr. unfold recv_secure_frame, send_frame.
    rewrite !app_nil_l, <-!app_assoc, !read_frame_app by done.
    destruct (decrypt_e2e enc key) as [plain|]; [|done].
    destruct (open_plain plain last) as [[seq pl]|] eqn:Eo; [|done]. intros [= -> ->].
    rewrite (open_plain_stale _ _ now _ _ Eo) by apply recv_many_mono. done.
Qed.

(** The sender has no limit on a payload, the receiver has: a frame whose payload is over 65500 bytes
    is written without an error and ends the receiver's connection, whatever follows it. *)
Theorem oversized_frame_refused `{!AesLaws} stream payload key seq nonce rest :
  length key = 32%nat -> length nonce = 12%nat -> 0 <= seq < 2 ^ 64 - 1 -> MAX_FRAME < zlen payload + 36 < 2 ^ 32 ->
  exists f, send_secure_frame stream payload key seq nonce = (seq + 1, Ok (stream ++ f)) /\
    recv_secure_frame (f ++ rest) key seq = (seq, Err (InvalidData "frame too large")).
Proof.
  intros Hk Hn Hs Hp. unfold MAX_FRAME in *. unfold send_secure_frame. rewrite wrap64_small by lia.
  set (plain := be_bytes 8 (seq + 1) ++ payload).
  assert (Hpl : zlen plain = 8 + zlen payload) by (unfold plain; by rewrite zlen_app, zlen_be_bytes).
  destruct (aes_encrypt_total key nonce plain) as [c Hc]; [done|done|lia|].
  unfold encrypt_e2e. rewrite Hc. eexists. split; [done|]. unfold recv_secure_frame, read_frame.
  assert (Hl : zlen (nonce ++ c) = zlen payload + 36) by (rewrite zlen_app, (aes_tag _ _ _ _ Hc); unfold zlen at 1; lia).
  rewrite <-app_assoc, wrap32_small, read_be4, from_be_u32 by lia.
  by rewrite Z.gtb_ltb, (proj2 (Z.ltb_lt _ _)) by (unfold MAX_FRAME; lia).
Qed.

End SecureFrames.

(** ** Concrete runs *)

Module SessionWitness.

#[local] Existing Instance toy_crypto.
#[local] Existing Instance ToyJson.toy_json.

Definition key (n : Z) : bytes := be_bytes 32 n.
Definition record (u : string) (sk : bytes) : gmap string string := {[u := hex_encode (ed_public sk)]}.

Lemma session_agreement_witness :
  let a := auth_of "alice" (key 5) in
  let c := (outbound_handshake a (Some (record "bob" (key 6))) (key 3) (key 77) []).1 in
  exists r sa sb,
    inbound_handshake (auth_of "bob" (key 6)) (Some ∅) (key 4) c = (r, Ok (sb, [])) /\
    outbound_handshake a (Some (record "bob" (key 6))) (key 3) (key 77) r = (c, Ok (sa, [])) /\
    send_key sa = recv_key sb /\ peer_authenticated sa = true /\ peer_authenticated sb = false.
Proof.
  intros a c.
  destruct (session_agreement "alice" (key 5) "bob" (key 6) (key 3) (key 4) (key 77)
              (record "bob" (key 6)) ∅) as (r & sa & sb & Hi & Ho & Hk & _ & _ & _ & _ & _ & Ha & Hb);
    [vm_compute; reflexivity|vm_compute; reflexivity|right; vm_compute; reflexivity|left; reflexivity
    |vm_compute; reflexivity|vm_compute; discriminate|vm_compute; discriminate|].
  exists r, sa, sb. split_and!; [exact Hi|exact Ho|exact Hk|rewrite Ha; vm_compute; reflexivity|exact Hb].
Defined.

Definition answer : bytes :=
  (inbound_handshake (auth_of "bob" (key 6)) (Some ∅) (key 4)
     (outbound_handshake (auth_of "alice" (key 5)) (Some (record "bob" (key 6))) (key 3) (key 77) []).1).1.

Lemma outbound_authentication_witness :
  exists out s rest map,
    outbound_handshake (auth_of "alice" (key 5)) (Some (record "bob" (key 6))) (key 3) (key 77) answer =
      (out, Ok (s, rest)) /\
    Some (record "bob" (key 6)) = Some map /\ map !! peer_uid s = Some (peer_public_hex s).
Proof.
  destruct (outbound_handshake (auth_of "alice" (key 5)) (Some (record "bob" (key 6))) (key 3) (key 77) answer)
    as [out [[s rest]|e]] eqn:E; [|vm_compute in E; discriminate].
  destruct (outbound_authentication _ _ _ _ _ _ _ _ E) as (map & _ & _ & _ & _ & _ & _ & _ & Hm & Hk & _);
    [vm_compute in E; injection E as _ <- _; reflexivity|].
  exists out, s, rest, map. split_and!; [reflexivity|exact Hm|exact Hk].
Defined.

Lemma handshake_impersonation_witness :
  exists forged out s,
    inbound_handshake (auth_of "carol" (key 8)) (Some (record "bob" (key 6))) (key 9) forged = (out, Ok (s, [])) /\
    peer_uid s = "bob" /\ peer_authenticated s = true.
Proof.
  destruct (handshake_impersonation (key 3) [] "mallory" "none" "bob" (key 6) ∅ (key 4) "carol" (key 8)
              (record "bob" (key 6)) (key 9)) as [_ (out & s & E & Hu & Ha & _)];
    [vm_compute; reflexivity|vm_compute; reflexivity|reflexivity|vm_compute; reflexivity
    |vm_compute; reflexivity|vm_compute; reflexivity|vm_compute; discriminate|vm_compute; discriminate|].
  eexists _, out, s. split_and!; [exact E|exact Hu|exact Ha].
Defined.

Lemma secure_stream_witness :
  exists f, send_all (key 5) 0 [] [([1; 2], zeros 12); ([], zeros 12)] = (2, Ok f) /\
    recv_all 2 (key 5) 0 f = (2, Ok ([[1; 2]; []], [])).
Proof.
  apply (secure_stream (key 5) [([1; 2], zeros 12); ([], zeros 12)]).
  - reflexivity.
  - reflexivity.
  - repeat constructor; discriminate.
Defined.

End SessionWitness.
