(* ===== verification/ConnectionManager.v ===== *)
(** [net/connection_manager.rs]: the peer tables, the bounded per-connection send queues, and the
    connection tasks (listener, outbound connect, reader, writer).

    A lock is [Some] of what it guards, or [None] when poisoned. A tokio channel is its queue and
    whether the receiving task is alive. The tasks run interleaved, in any order: [NetState.step]
    takes one event of one task, with the bytes the peer sent as part of the event. *)

From S2P Require Import Prelude Crypto Identity Wire Session.

(** [struct PeerInfo]; [last_seen] is an [Instant]. *)
Record PeerInfo := mkPeerInfo {
  pi_uid : string;
  addresses : list string;
  pi_public_key : string;
  last_seen : Z;
  pgp_fingerprint : option string;
}.

Definition WRITER_QUEUE_CAP : Z := 64.
Definition MAX_CONNECTIONS : Z := 256.
Definition INCOMING_CHANNEL_CAP : Z := 1024.

(** [struct PeerWriter]: the payloads queued for the writer task, and whether it still runs. *)
Record PeerWriter := mkWriter {
  queue : list bytes;
  receiver_alive : bool;
  conn_id : Z;
}.

Definition PeerWriter_new (id : Z) : PeerWriter := mkWriter [] true id.

(** tokio's [TrySendError]. *)
Inductive TrySendError := Full | Closed.

Definition try_send (w : PeerWriter) (payload : bytes) : PeerWriter * result unit TrySendError :=
  if negb (receiver_alive w) then (w, Err Closed)
  else if WRITER_QUEUE_CAP <=? zlen (queue w) then (w, Err Full)
  else (mkWriter (queue w ++ [payload]) true (conn_id w), Ok tt).

Abbreviation Connections := (option (gmap string PeerWriter)).

Module ConnectionManager.

Record t := mk {
  active_connections : Connections;
  known_peers : gmap string PeerInfo;
  known_peer_keys : KnownKeys;
  listen_port : Z;
}.

Definition new (port : Z) : t := mk (Some ∅) ∅ (Some ∅) port.

Definition register_peer (c : t) (uid addr public_key : string) (now : Z) : t :=
  let info :=
    match known_peers c !! uid with
    | Some p =>
        mkPeerInfo (pi_uid p)
          (if bool_decide (addr ∈ addresses p) then addresses p else addresses p ++ [addr])
          public_key now (pgp_fingerprint p)
    | None => mkPeerInfo uid [addr] public_key now None
    end in
  mk (active_connections c) (<[uid := info]> (known_peers c))
    (<[uid := public_key]> <$> known_peer_keys c) (listen_port c).

Definition is_connected (c : t) (uid : string) : bool :=
  match active_connections c with
  | Some conns => bool_decide (is_Some (conns !! uid))
  | None => false
  end.

Definition peer_addresses (c : t) (uid : string) : list string :=
  match known_peers c !! uid with Some p => addresses p | None => [] end.

Definition set_active (c : t) (a : Connections) : t :=
  mk a (known_peers c) (known_peer_keys c) (listen_port c).

Definition set_keys (c : t) (k : KnownKeys) : t :=
  mk (active_connections c) (known_peers c) k (listen_port c).

(** [show] is tokio's [Display] of the channel error. *)
Definition send_to `{Json} (show : TrySendError -> string) (c : t) (uid : string) (msg : PeerMessage)
    : t * result unit string :=
  let payload := string_bytes (to_json msg) in
  match active_connections c with
  | None => (c, Err "connection map poisoned")
  | Some conns =>
      match conns !! uid with
      | None => (c, Err ("No active connection to " +:+ uid))
      | Some writer =>
          let '(writer, r) := try_send writer payload in
          (set_active c (Some (<[uid := writer]> conns)),
           match r with Ok _ => Ok tt | Err e => Err ("Send error: " +:+ show e) end)
      end
  end.

Definition broadcast_one (payload : bytes) (conns : gmap string PeerWriter) (uid : string) : gmap string PeerWriter :=
  match conns !! uid with
  | Some writer => <[uid := (try_send writer payload).1]> conns
  | None => conns
  end.

Definition broadcast_to `{Json} (c : t) (uids : list string) (msg : PeerMessage) : t :=
  let payload := string_bytes (to_json msg) in
  match active_connections c with
  | None => c
  | Some conns => set_active c (Some (foldl (broadcast_one payload) conns uids))
  end.

Definition remove_connection (active : Connections) (uid : string) (id : Z) : Connections :=
  match active with
  | None => None
  | Some conns =>
      let stale := match conns !! uid with Some w => conn_id w =? id | None => false end in
      if stale then Some (delete uid conns) else Some conns
  end.

Definition connected_count (c : t) : Z :=
  match active_connections c with Some conns => Z.of_nat (size conns) | None => 0 end.

End ConnectionManager.

Abbreviation ConnectionManager := ConnectionManager.t.

(** ** Inbound filtering *)

Definition allowed_unauthenticated (msg : PeerMessage) : bool :=
  match msg with Ping _ | Pong _ => true | _ => false end.

Definition extract_uid (msg : PeerMessage) (addr : string) : string :=
  match msg with
  | FriendRequest from_uid _ | FriendAccept from_uid | ChannelMessage _ from_uid _
  | DcRoundShare _ _ from_uid _ _ | NetworkInvite from_uid _ _ _ | NetworkJoinRequest from_uid _ _ _
  | NetworkJoinAccept from_uid _ _ _ | NetworkKick from_uid _ _ _ _ | NetworkSync from_uid _ _ _ _ _
  | AuthChallenge from_uid _ _ _ _ | AuthResponse from_uid _ _ _
  | RelayRequest from_uid _ _ _ _ _ _ _ | RelayResponse from_uid _ _ _ _ _ _ _ => from_uid
  | DcRoundStart _ _ leader_id _ _ _ | LeaderChange _ leader_id _ _ => leader_id
  | RoundSyncRequest from_uid _ => from_uid
  | RoundSyncResponse leader_uid _ _ _ _ => leader_uid
  | DcRound _ _ _ | DcRoundResult _ _ _ _ | Ping _ | Pong _ => "peer@" +:+ addr
  end.

Definition is_relay (msg : PeerMessage) : bool :=
  match msg with RelayRequest _ _ _ _ _ _ _ _ | RelayResponse _ _ _ _ _ _ _ _ => true | _ => false end.

(** [str::starts_with]. *)
Definition starts_with (s p : string) : bool :=
  bool_decide (take (String.length p) (string_bytes s) = string_bytes p).

(** [struct ReaderCtx], without the shared handles. *)
Record ReaderCtx := mkReader {
  rc_addr : string;
  rc_recv_key : bytes;
  rc_peer_uid : string;
  rc_peer_authenticated : bool;
  rc_conn_id : Z;
}.

(** What the reader does with a decrypted payload: the message it forwards, if any. *)
Definition filter_payload `{Json} (ctx : ReaderCtx) (payload : bytes) : option PeerMessage :=
  text ← from_utf8 payload;
  msg ← from_json text;
  let claimed_uid := extract_uid msg (rc_addr ctx) in
  if negb (validate_uid claimed_uid) then None
  else if negb (rc_peer_authenticated ctx) && negb (allowed_unauthenticated msg) then None
  else
    let is_anonymous := starts_with claimed_uid "peer@" in
    if negb is_anonymous && negb (is_relay msg) && negb (bool_decide (claimed_uid = rc_peer_uid ctx))
    then None
    else Some msg.

(** One round of the reader's loop on the bytes that arrived, [None] being the idle timeout:
    the new [last_seq], and [None] when the loop ends, else what to forward and the rest. *)
Definition reader_round `{Crypto, Json} (ctx : ReaderCtx) (last_seq : Z) (read : option bytes)
    : Z * option (option PeerMessage * bytes) :=
  match read with
  | None => (last_seq, None)
  | Some stream =>
      match recv_secure_frame stream (rc_recv_key ctx) last_seq with
      | (last_seq, Err _) => (last_seq, None)
      | (last_seq, Ok (payload, rest)) => (last_seq, Some (filter_payload ctx payload, rest))
      end
  end.

(** ** The connection tasks *)

(** [k.entry(uid).or_insert_with(key)] for an authenticated peer. *)
Definition pin_session (keys : KnownKeys) (s : SessionKeys) : KnownKeys :=
  if peer_authenticated s then
    (fun k => match k !! peer_uid s with
              | Some _ => k
              | None => <[peer_uid s := peer_public_hex s]> k
              end) <$> keys
  else keys.

(** A connection: its reader's context, whether it was accepted by the listener, the reader's
    [last_seq] while the reader runs, and whether the writer runs. *)
Record Conn := mkConn {
  c_ctx : ReaderCtx;
  c_inbound : bool;
  c_reader : option Z;
  c_writer : bool;
}.

Definition c_alive (c : Conn) : bool := bool_decide (is_Some (c_reader c)) || c_writer c.

Module NetState.

(** [handshakes] counts the accepted connections whose handshake is in progress, [conn_count]
    is the listener's slot counter, [incoming] the queue towards the message pump. *)
Record t := mk {
  cm : ConnectionManager;
  conns : list Conn;
  handshakes : Z;
  conn_count : Z;
  next_conn_id : Z;
  incoming : list (string * PeerMessage);
}.

Definition init (port : Z) : t := mk (ConnectionManager.new port) [] 0 0 1 [].

Inductive event :=
| Register (uid addr key : string) (now : Z)
| Accept
| Handshake (addr : string) (auth : SessionAuth) (eph : bytes) (input : option bytes)
| Connect (uid addr : string) (auth : SessionAuth) (eph nonce : bytes) (input : option bytes)
| Read (i : nat) (read : option bytes)
| WriterEnd (i : nat)
| Flush (uid : string)
| Send (uid : string) (msg : PeerMessage)
| Broadcast (uids : list string) (msg : PeerMessage)
| Drain.

Section Step.
Context `{Crypto, Json} (show : TrySendError -> string).

Definition with_cm (st : t) (c : ConnectionManager) : t :=
  mk c (conns st) (handshakes st) (conn_count st) (next_conn_id st) (incoming st).

Definition with_slots (st : t) (h n : Z) : t :=
  mk (cm st) (conns st) h n (next_conn_id st) (incoming st).

Definition with_conns (st : t) (l : list Conn) (n : Z) : t :=
  mk (cm st) l (handshakes st) n (next_conn_id st) (incoming st).

(** The part of [start_listener]'s task and of [connect_to_peer] after the handshake: pin, take a
    connection id, enter the active map, start reader and writer. [None] when the map is
    poisoned; the id is consumed all the same. *)
Definition install (st : t) (addr : string) (s : SessionKeys) (inbound : bool) : t * bool :=
  let keys := pin_session (ConnectionManager.known_peer_keys (cm st)) s in
  let c := ConnectionManager.set_keys (cm st) keys in
  let id := next_conn_id st in
  match ConnectionManager.active_connections c with
  | None => (mk c (conns st) (handshakes st) (conn_count st) (id +₆₄ 1) (incoming st), false)
  | Some active =>
      let c := ConnectionManager.set_active c (Some (<[peer_uid s := PeerWriter_new id]> active)) in
      let ctx := mkReader addr (recv_key s) (peer_uid s) (peer_authenticated s) id in
      (mk c (conns st ++ [mkConn ctx inbound (Some 0) true]) (handshakes st) (conn_count st)
         (id +₆₄ 1) (incoming st), true)
  end.

(** The listener's accept: a slot is taken, or the connection is dropped. *)
Definition accept (st : t) : t :=
  if MAX_CONNECTIONS <=? conn_count st then st
  else with_slots st (handshakes st + 1) (conn_count st + 1).

(** The accepted connection's task up to the start of its reader and writer. *)
Definition finish_handshake (st : t) (addr : string) (auth : SessionAuth) (eph : bytes)
    (input : option bytes) : t :=
  if handshakes st <=? 0 then st
  else
    let failed := with_slots st (handshakes st - 1) (conn_count st - 1) in
    match input with
    | None => failed
    | Some bs =>
        match (inbound_handshake auth (ConnectionManager.known_peer_keys (cm st)) eph bs).2 with
        | Err _ => failed
        | Ok (s, _) =>
            let '(st', installed) := install st addr s true in
            with_slots st' (handshakes st - 1) (if installed then conn_count st else conn_count st - 1)
        end
    end.

Definition connect_to_peer (st : t) (uid addr : string) (auth : SessionAuth) (eph nonce : bytes)
    (input : option bytes) : t * result unit io_error :=
  match input with
  | None => (st, Err (Other "handshake timed out"))
  | Some bs =>
      match (outbound_handshake auth (ConnectionManager.known_peer_keys (cm st)) eph nonce bs).2 with
      | Err e => (st, Err e)
      | Ok (s, _) =>
          if negb (bool_decide (peer_uid s = uid)) then
            (st, Err (PermissionDenied ("peer identified as " +:+ peer_uid s +:+ ", expected " +:+ uid)))
          else
            let '(st', installed) := install st addr s false in
            (st', if installed then Ok tt else Err (Other "connection map poisoned"))
      end
  end.

(** A half of connection [i] ends: its entry leaves the active map, and when both halves of an
    accepted connection are done its slot is released. *)
Definition half_done (st : t) (i : nat) (c c' : Conn) : t :=
  let ctx := c_ctx c in
  let cm' := ConnectionManager.set_active (cm st)
    (ConnectionManager.remove_connection (ConnectionManager.active_connections (cm st))
       (rc_peer_uid ctx) (rc_conn_id ctx)) in
  let released := c_inbound c && c_alive c && negb (c_alive c') in
  with_conns (with_cm st cm') (<[i := c']> (conns st))
    (if released then conn_count st - 1 else conn_count st).

(** [incoming_tx.try_send]. *)
Definition forward (q : list (string * PeerMessage)) (p : string * PeerMessage) : list (string * PeerMessage) :=
  if INCOMING_CHANNEL_CAP <=? zlen q then q else q ++ [p].

Definition connection_reader (st : t) (i : nat) (read : option bytes) : t :=
  match conns st !! i with
  | Some (mkConn ctx inb (Some last) w as c) =>
      match reader_round ctx last read with
      | (_, None) => half_done st i c (mkConn ctx inb None w)
      | (last', Some (None, _)) => with_conns st (<[i := mkConn ctx inb (Some last') w]> (conns st)) (conn_count st)
      | (last', Some (Some msg, _)) =>
          mk (cm st) (<[i := mkConn ctx inb (Some last') w]> (conns st)) (handshakes st) (conn_count st)
            (next_conn_id st) (forward (incoming st) (rc_peer_uid ctx, msg))
      end
  | _ => st
  end.

(** The end of the writer task: a failed or timed-out write, or all senders gone. *)
Definition connection_writer_end (st : t) (i : nat) : t :=
  match conns st !! i with
  | Some (mkConn ctx inb r true as c) => half_done st i c (mkConn ctx inb r false)
  | _ => st
  end.

(** The writer takes the next payload off its queue. *)
Definition flush (c : ConnectionManager) (uid : string) : ConnectionManager :=
  match ConnectionManager.active_connections c with
  | Some active =>
      match active !! uid with
      | Some w => ConnectionManager.set_active c
                    (Some (<[uid := mkWriter (tail (queue w)) (receiver_alive w) (conn_id w)]> active))
      | None => c
      end
  | None => c
  end.

Definition step (st : t) (e : event) : t :=
  match e with
  | Register uid addr key now => with_cm st (ConnectionManager.register_peer (cm st) uid addr key now)
  | Accept => accept st
  | Handshake addr auth eph input => finish_handshake st addr auth eph input
  | Connect uid addr auth eph nonce input => (connect_to_peer st uid addr auth eph nonce input).1
  | Read i read => connection_reader st i read
  | WriterEnd i => connection_writer_end st i
  | Flush uid => with_cm st (flush (cm st) uid)
  | Send uid msg => with_cm st (ConnectionManager.send_to show (cm st) uid msg).1
  | Broadcast uids msg => with_cm st (ConnectionManager.broadcast_to (cm st) uids msg)
  | Drain => mk (cm st) (conns st) (handshakes st) (conn_count st) (next_conn_id st) []
  end.

Definition run (st : t) (es : list event) : t := foldl step st es.

End Step.
End NetState.

(** ** Lemmas *)

Module NetFacts.
Import NetState.

(** The reader's verdict on a message that reached the queue. *)
Definition admitted (ctx : ReaderCtx) (p : string * PeerMessage) : Prop :=
  let claimed := extract_uid p.2 (rc_addr ctx) in
  p.1 = rc_peer_uid ctx /\ validate_uid claimed = true /\
  (rc_peer_authenticated ctx = true \/ allowed_unauthenticated p.2 = true) /\
  (claimed = p.1 \/ is_relay p.2 = true \/ starts_with claimed "peer@" = true).

Definition occupied (c : Conn) : bool := c_inbound c && c_alive c.
Definition b2z (b : bool) : Z := if b then 1 else 0.
Definition slots (l : list Conn) : Z := zlen (filter (fun c => occupied c = true) l).

(** Every key-holding session is for a uid with a key on record. *)
Definition on_record (keys : KnownKeys) (ctx : ReaderCtx) : Prop :=
  rc_peer_authenticated ctx = true -> exists k, keys = Some k /\ is_Some (k !! rc_peer_uid ctx).

Record inv (st : t) : Prop := {
  inv_slots : conn_count st = handshakes st + slots (conns st);
  inv_handshakes : 0 <= handshakes st;
  inv_cap : conn_count st <= MAX_CONNECTIONS;
  inv_sessions : Forall (fun ctx => validate_uid (rc_peer_uid ctx) = true /\
    on_record (ConnectionManager.known_peer_keys (cm st)) ctx) (c_ctx <$> conns st);
  inv_queues : forall active, ConnectionManager.active_connections (cm st) = Some active ->
    map_Forall (fun _ w => zlen (queue w) <= WRITER_QUEUE_CAP) active;
  inv_incoming_len : zlen (incoming st) <= INCOMING_CHANNEL_CAP;
  inv_incoming : Forall (fun p => exists ctx, ctx ∈ c_ctx <$> conns st /\ admitted ctx p) (incoming st);
}.

Section Facts.
Context `{Crypto, Json}.

Lemma slots_app l c : slots (l ++ [c]) = slots l + b2z (occupied c).
Proof.
  unfold slots. rewrite filter_app, zlen_app. f_equal. unfold filter. cbn.
  by destruct (occupied c).
Qed.

Lemma slots_insert l i c c' :
  l !! i = Some c -> slots (<[i := c']> l) = slots l - b2z (occupied c) + b2z (occupied c').
Proof.
  revert i. induction l as [|x l IH]; intros [|i] E; simplify_eq/=; unfold slots in *; rewrite !filter_cons.
  - destruct (occupied c) eqn:E1, (occupied c') eqn:E2; simpl; unfold zlen; simpl; lia.
  - specialize (IH _ E). destruct (decide (occupied x = true)); rewrite ?zlen_cons; lia.
Qed.

Lemma fmap_insert_same {A B} (f : A -> B) (l : list A) (i : nat) x y :
  l !! i = Some x -> f y = f x -> f <$> <[i := y]> l = f <$> l.
Proof.
  intros Hi E. rewrite list_fmap_insert. apply list_insert_id. by rewrite list_lookup_fmap, Hi, E.
Qed.

(** An authenticated session is one whose key is on record already. *)
Lemma inbound_on_record auth known eb input out s rest :
  inbound_handshake auth known eb input = (out, Ok (s, rest)) ->
  validate_uid (peer_uid s) = true /\
  (peer_authenticated s = true -> exists k, known = Some k /\ k !! peer_uid s = Some (peer_public_hex s)).
Proof.
  unfold inbound_handshake. destruct (recv_json input) as [[m r]|e]; [|done].
  destruct m; try done. destruct (validate_uid from_uid) eqn:Ev; [|done]. cbn [negb].
  destruct (hex_to_32 _) as [eph|]; [|done].
  destruct (check_peer_sig _ _ _ _ _) eqn:Ec; [| |done];
    (destruct (derive_shared _ _); [|done]); intros [= _ <- _]; cbn; [|done].
  apply check_peer_sig_verified in Ec as (k & _ & _ & -> & Hk & _). eauto.
Qed.

Lemma outbound_on_record auth known ea nonce input out s rest :
  outbound_handshake auth known ea nonce input = (out, Ok (s, rest)) ->
  validate_uid (peer_uid s) = true /\
  (peer_authenticated s = true -> exists k, known = Some k /\ k !! peer_uid s = Some (peer_public_hex s)).
Proof.
  unfold outbound_handshake, accept_response. intros [= _ E].
  destruct (recv_json input) as [[m r]|e]; [|done].
  destruct m; try done. destruct (validate_uid from_uid) eqn:Ev; [|done]. cbn [negb] in E.
  destruct (hex_to_32 _) as [eph|]; [|done].
  destruct (check_peer_sig _ _ _ _ _) eqn:Ec; [| |done];
    (destruct (derive_shared _ _); [|done]); simplify_eq; cbn; [|done].
  apply check_peer_sig_verified in Ec as (k & _ & _ & -> & Hk & _). eauto.
Qed.

(** So pinning after a handshake never changes the record. *)
Lemma pin_session_id known s :
  (peer_authenticated s = true -> exists k, known = Some k /\ k !! peer_uid s = Some (peer_public_hex s)) ->
  pin_session known s = known.
Proof.
  intros Hs. unfold pin_session. destruct (peer_authenticated s); [|done].
  destruct (Hs eq_refl) as (k & -> & Hk). cbn. by rewrite Hk.
Qed.

Lemma try_send_cap w p : zlen (queue w) <= WRITER_QUEUE_CAP -> zlen (queue (try_send w p).1) <= WRITER_QUEUE_CAP.
Proof.
  unfold try_send. intros. repeat case_match; simpl; try done. breflect. rewrite zlen_app. unfold zlen at 2. simpl. lia.
Qed.

Lemma filter_payload_admitted ctx payload m :
  filter_payload ctx payload = Some m -> admitted ctx (rc_peer_uid ctx, m).
Proof.
  unfold filter_payload, admitted. destruct (from_utf8 payload) as [text|]; [|done]. cbn.
  destruct (from_json text) as [msg|]; [|done]. cbn.
  destruct (validate_uid _) eqn:Ev; [|done]. cbn.
  destruct (negb _ && negb (allowed_unauthenticated msg)) eqn:E1; [done|].
  destruct (negb _ && negb (is_relay msg) && _) eqn:E2; [done|]. intros [= <-].
  rewrite !andb_false_iff, !negb_false_iff in *. split_and!; [done|done|tauto|].
  destruct E2 as [[?|?]|?]; [auto|auto|]. breflect. auto.
Qed.

(** Growing the record or the send queues within their bound keeps the invariant. *)
Lemma inv_with_cm st c :
  inv st ->
  (forall ctx, on_record (ConnectionManager.known_peer_keys (cm st)) ctx ->
     on_record (ConnectionManager.known_peer_keys c) ctx) ->
  (forall active, ConnectionManager.active_connections c = Some active ->
    map_Forall (fun _ w => zlen (queue w) <= WRITER_QUEUE_CAP) active) ->
  inv (with_cm st c).
Proof.
  intros [] Hk Hq. split; try done. cbn. eapply Forall_impl; [done|]. intros ctx [? ?]. auto.
Qed.

Lemma on_record_insert keys u k ctx : on_record keys ctx -> on_record (<[u := k]> <$> keys) ctx.
Proof.
  intros Hr Ha. destruct (Hr Ha) as (m & -> & Hm). eexists. split; [done|].
  rewrite lookup_insert_is_Some'. auto.
Qed.

Lemma remove_connection_sub active uid id a u w :
  ConnectionManager.remove_connection active uid id = Some a -> a !! u = Some w ->
  exists a', active = Some a' /\ a' !! u = Some w.
Proof.
  unfold ConnectionManager.remove_connection. destruct active as [a'|]; [|done].
  destruct (match a' !! uid with Some _ => _ | None => _ end); intros [= <-] Hw; [|eauto].
  apply lookup_delete_Some in Hw as [_ Hw]. eauto.
Qed.

Lemma inv_half_done st i c c' :
  inv st -> conns st !! i = Some c -> c_ctx c' = c_ctx c -> c_inbound c' = c_inbound c ->
  (c_alive c' = true -> c_alive c = true) -> inv (half_done st i c c').
Proof.
  intros [] Hi Hx Hb Ha. unfold half_done. split; cbn [conn_count handshakes conns cm incoming with_conns with_cm].
  - rewrite (slots_insert _ _ _ _ Hi), inv_slots0. unfold occupied. rewrite Hb.
    destruct (c_inbound c), (c_alive c) eqn:E1, (c_alive c') eqn:E2; cbn; lia || naive_solver.
  - done.
  - case_match; lia.
  - by rewrite (fmap_insert_same _ _ _ _ _ Hi Hx).
  - intros active Ha' u w Hw. cbn in Ha'.
    destruct (remove_connection_sub _ _ _ _ _ _ Ha' Hw) as (a' & Ea & Hw'). by eapply inv_queues0.
  - done.
  - by rewrite (fmap_insert_same _ _ _ _ _ Hi Hx).
Qed.

Lemma inv_reader st i read : inv st -> inv (connection_reader st i read).
Proof.
  intros Hinv. unfold connection_reader. destruct (conns st !! i) as [[ctx inb [last|] w]|] eqn:Hi; try done.
  destruct (reader_round ctx last read) as [last' [[[msg|] rest]|]] eqn:Er.
  3: { by eapply inv_half_done. }
  all: destruct Hinv; split; cbn [conn_count handshakes conns cm incoming with_conns]; try done;
    try (by rewrite (fmap_insert_same _ _ _ _ _ Hi) by done).
  - rewrite (slots_insert _ _ _ _ Hi), inv_slots0. unfold occupied, c_alive. cbn. destruct inb; cbn; lia.
  - unfold forward. case_match; [done|]. breflect. rewrite zlen_app. unfold zlen at 2. simpl. lia.
  - rewrite (fmap_insert_same _ _ _ _ _ Hi) by done. unfold forward. case_match; [done|].
    apply Forall_app. split; [done|]. apply Forall_singleton. exists ctx. split.
    { apply list_elem_of_fmap. eexists. split; [|by eapply list_elem_of_lookup_2]. done. }
    unfold reader_round in Er. destruct read as [bs|]; [|done].
    destruct (recv_secure_frame _ _ _) as [? [[pl ?]|?]]; simplify_eq. by eapply filter_payload_admitted.
  - rewrite (slots_insert _ _ _ _ Hi), inv_slots0. unfold occupied, c_alive. cbn. destruct inb; cbn; lia.
Qed.

(** The counters [h] and [n] after a handshake that did not reject: a connection accepted by the
    listener trades its handshake for an occupied slot. *)
Lemma inv_install st addr s inb st' installed h n :
  inv st -> install st addr s inb = (st', installed) ->
  validate_uid (peer_uid s) = true ->
  (peer_authenticated s = true ->
     exists k, ConnectionManager.known_peer_keys (cm st) = Some k /\ k !! peer_uid s = Some (peer_public_hex s)) ->
  0 <= h -> n <= MAX_CONNECTIONS ->
  n = h + slots (conns st) + b2z (installed && inb) -> inv (with_slots st' h n).
Proof.
  intros [] E Hu Hr Hh Hn He. unfold install in E. rewrite pin_session_id in E by done.
  destruct (ConnectionManager.active_connections _) as [active|] eqn:Ea in E; simplify_eq.
  2: { cbn in Ea. split; cbn; done || lia. }
  cbn in Ea. split; cbn [conn_count handshakes conns cm incoming with_slots]; try done.
  - rewrite slots_app. unfold occupied. cbn. rewrite andb_true_r. lia.
  - rewrite fmap_app. apply Forall_app. split; [done|]. apply Forall_singleton. cbn. split; [done|].
    intros Ha. destruct (Hr Ha) as (k & -> & Hk). exists k. split; [done|]. by exists (peer_public_hex s).
  - cbn. intros a [= <-]. apply map_Forall_insert_2; [done|]. by apply inv_queues0.
  - eapply Forall_impl; [done|]. intros q (ctx & Hc & Ha). exists ctx. split; [|done].
    rewrite fmap_app. apply elem_of_app. auto.
Qed.

Lemma inv_accept st : inv st -> inv (accept st).
Proof.
  intros Hi. unfold accept. destruct (_ <=? _) eqn:E; [done|]. breflect.
  destruct Hi. by split; cbn [conn_count handshakes conns cm incoming with_slots]; try (done || lia).
Qed.

Lemma inv_finish_handshake st addr auth eph input : inv st -> inv (finish_handshake st addr auth eph input).
Proof.
  intros Hi. unfold finish_handshake. destruct (_ <=? 0) eqn:Eh; [done|]. breflect.
  pose proof (inv_slots _ Hi). pose proof (inv_cap _ Hi).
  assert (Hfail : inv (with_slots st (handshakes st - 1) (conn_count st - 1)))
    by (destruct Hi; split; cbn [conn_count handshakes conns cm incoming with_slots]; done || lia).
  destruct input as [bs|]; [|done].
  destruct (inbound_handshake _ _ _ bs) as [out [[s rest]|e]] eqn:E; [|done]. cbn [snd].
  apply inbound_on_record in E as [Hu Hr].
  destruct (install st addr s true) as [st' [|]] eqn:Ei;
    (eapply inv_install; [exact Hi|exact Ei|done|done|lia|lia|cbn; lia]).
Qed.

Lemma inv_connect st uid addr auth eph nonce input :
  inv st -> inv (connect_to_peer st uid addr auth eph nonce input).1.
Proof.
  intros Hi. unfold connect_to_peer. destruct input as [bs|]; [|done].
  destruct (outbound_handshake _ _ _ _ bs) as [out [[s rest]|e]] eqn:E; [|done]. cbn [snd].
  apply outbound_on_record in E as [Hu Hr]. case_bool_decide; [|done]. cbn [negb].
  destruct (install st addr s false) as [st' b] eqn:Ei. cbn [fst].
  assert (Hs : inv (with_slots st' (handshakes st) (conn_count st))).
  { pose proof (inv_slots _ Hi). pose proof (inv_cap _ Hi). pose proof (inv_handshakes _ Hi).
    eapply inv_install; try done. rewrite andb_false_r. cbn. lia. }
  replace st' with (with_slots st' (handshakes st) (conn_count st)); [done|].
  unfold install in Ei. by destruct (ConnectionManager.active_connections _) in Ei; simplify_eq.
Qed.

Lemma broadcast_cap payload uids active :
  map_Forall (fun _ w => zlen (queue w) <= WRITER_QUEUE_CAP) active ->
  map_Forall (fun _ w => zlen (queue w) <= WRITER_QUEUE_CAP)
    (foldl (ConnectionManager.broadcast_one payload) active uids).
Proof.
  revert active. induction uids as [|u uids IH]; intros active Ha; [done|]. cbn. apply IH.
  unfold ConnectionManager.broadcast_one. destruct (active !! u) eqn:E; [|done].
  apply map_Forall_insert_2; [|done]. apply try_send_cap. by eapply Ha.
Qed.

Lemma inv_step show st e : inv st -> inv (step show st e).
Proof.
  intros Hi. pose proof (inv_queues _ Hi) as Hq.
  destruct e; cbn [step]; auto using inv_accept, inv_finish_handshake, inv_connect, inv_reader.
  - apply inv_with_cm; [done|intros; by apply on_record_insert|done].
  - unfold connection_writer_end. destruct (conns st !! i) as [[ctx inb r [|]]|] eqn:Ei; try done.
    eapply inv_half_done; try done. intros _. unfold c_alive. cbn. apply orb_true_r.
  - unfold flush. destruct (ConnectionManager.active_connections _) as [a|] eqn:Ea; [|by apply inv_with_cm; cbn; rewrite ?Ea].
    specialize (Hq _ eq_refl). destruct (a !! uid) as [w|] eqn:Ew.
    2: { apply inv_with_cm; [done|done|]. rewrite Ea. by intros ? [= <-]. }
    apply inv_with_cm; [done|done|]. cbn. intros ? [= <-]. apply map_Forall_insert_2; [|done].
    cbn. specialize (Hq _ _ Ew). cbn in Hq. destruct (queue w); cbn; [done|]. rewrite zlen_cons in Hq. lia.
  - unfold ConnectionManager.send_to.
    destruct (ConnectionManager.active_connections _) as [a|] eqn:Ea; [|by apply inv_with_cm; cbn; rewrite ?Ea].
    specialize (Hq _ eq_refl). destruct (a !! uid) as [w|] eqn:Ew.
    2: { apply inv_with_cm; [done|done|]. cbn. rewrite Ea. by intros ? [= <-]. }
    destruct (try_send w _) as [w' r] eqn:Et. apply inv_with_cm; [done|done|]. cbn. intros ? [= <-].
    apply map_Forall_insert_2; [|done]. specialize (Hq _ _ Ew). eapply try_send_cap in Hq. by rewrite Et in Hq.
  - unfold ConnectionManager.broadcast_to.
    destruct (ConnectionManager.active_connections _) as [a|] eqn:Ea; [|by apply inv_with_cm; cbn; rewrite ?Ea].
    apply inv_with_cm; [done|done|]. cbn. intros ? [= <-]. by apply broadcast_cap, Hq.
  - destruct Hi. by split; cbn; try done.
Qed.

Lemma inv_init port : inv (init port).
Proof. split; cbn; try done. intros ? [= <-]. apply map_Forall_empty. Qed.

Lemma inv_run show st es : inv st -> inv (run show st es).
Proof. revert st. induction es as [|e es IH]; intros st Hi; [done|]. by apply IH, inv_step. Qed.

End Facts.
End NetFacts.

Section NetTheorems.
Context `{Crypto, Json}.
Import NetState NetFacts.

Definition is_register (e : event) : Prop := match e with Register _ _ _ _ => True | _ => False end.

#[export] Instance is_register_dec e : Decision (is_register e).
Proof. destruct e; simpl; apply _. Defined.

Lemma keys_step show st e :
  ~ is_register e ->
  ConnectionManager.known_peer_keys (cm (step show st e)) = ConnectionManager.known_peer_keys (cm st).
Proof.
  intros He. destruct e; try done; cbn [step].
  - unfold accept. by case_match.
  - unfold finish_handshake. destruct (_ <=? 0); [done|]. destruct input as [bs|]; [|done].
    destruct (inbound_handshake _ _ _ bs) as [out [[s rest]|]] eqn:E; [|done]. cbn [snd].
    apply inbound_on_record in E as [_ Hr]. unfold install. rewrite pin_session_id by done. cbn. by destruct (ConnectionManager.active_connections _).
  - unfold connect_to_peer. destruct input as [bs|]; [|done].
    destruct (outbound_handshake _ _ _ _ bs) as [out [[s rest]|]] eqn:E; [|done]. cbn [snd].
    apply outbound_on_record in E as [_ Hr]. case_bool_decide; [|done]. cbn [negb].
    unfold install. rewrite pin_session_id by done. cbn. by destruct (ConnectionManager.active_connections _).
  - unfold connection_reader. by repeat case_match.
  - unfold connection_writer_end. by repeat case_match.
  - unfold flush. cbn. by repeat case_match.
  - unfold ConnectionManager.send_to. by repeat case_match.
  - unfold ConnectionManager.broadcast_to. cbn. by case_match.
Qed.

Lemma keys_run show es st st' :
  ConnectionManager.known_peer_keys (cm st) = ConnectionManager.known_peer_keys (cm st') ->
  ConnectionManager.known_peer_keys (cm (run show st es)) =
  ConnectionManager.known_peer_keys (cm (run show st' (filter is_register es))).
Proof.
  revert st st'. induction es as [|e es IH]; intros st st' E; [done|].
  destruct (decide (is_register e)) as [Hr|Hr].
  - rewrite filter_cons_True by done. cbn [run foldl]. apply IH. destruct e; try done. cbn. by rewrite E.
  - rewrite filter_cons_False by done. apply IH. by rewrite keys_step.
Qed.

(** Without a key on record nobody is authenticated, and only keepalives pass. *)
Lemma unregistered_keepalives st :
  inv st -> ConnectionManager.known_peer_keys (cm st) = Some ∅ ->
  Forall (fun ctx => rc_peer_authenticated ctx = false) (c_ctx <$> conns st) /\
  Forall (fun p => allowed_unauthenticated p.2 = true) (incoming st).
Proof.
  intros [] Hk.
  assert (Hun : Forall (fun ctx => rc_peer_authenticated ctx = false) (c_ctx <$> conns st)).
  { eapply Forall_impl; [done|]. intros ctx [_ Hr]. destruct (rc_peer_authenticated ctx) eqn:E; [|done].
    destruct (Hr E) as (k & Ek & Hs). rewrite Hk in Ek. simplify_eq.
    rewrite lookup_empty in Hs. by destruct Hs. }
  split; [done|]. eapply Forall_impl; [done|]. intros p (ctx & Hc & Ha).
  rewrite Forall_forall in Hun. specialize (Hun _ Hc).
  destruct Ha as (_ & _ & [Ha|Ha] & _); [congruence|done].
Qed.

(** C16: In every state the connection tasks can reach, under any interleaving and any bytes from
    the peers: the listener's counter is the number of handshakes in progress plus the accepted
    connections still served, and at most 256; the send queues hold at most 64 payloads and the
    inbound queue at most 1024 messages; every connection's uid is well formed, and an
    authenticated one has a key on record; and every queued message came through a connection
    that is authenticated or carries only keepalives, names that connection's uid as its sender
    (relay traffic and [peer@] names excepted), with a well-formed sender uid. *)
Theorem connection_invariant show port es :
  let st := run show (init port) es in
  conn_count st = handshakes st + slots (conns st) /\ conn_count st <= MAX_CONNECTIONS /\
  (forall active, ConnectionManager.active_connections (cm st) = Some active ->
     map_Forall (fun _ w => zlen (queue w) <= WRITER_QUEUE_CAP) active) /\
  zlen (incoming st) <= INCOMING_CHANNEL_CAP /\
  Forall (fun ctx => validate_uid (rc_peer_uid ctx) = true /\
    on_record (ConnectionManager.known_peer_keys (cm st)) ctx) (c_ctx <$> conns st) /\
  Forall (fun p => exists ctx, ctx ∈ c_ctx <$> conns st /\ admitted ctx p) (incoming st).
Proof. destruct (inv_run show (init port) es (inv_init port)). by split_and!. Qed.

(** C17: No session ever records a key, whatever the peers send: the identity keys on record are
    those of the calls to [register_peer] alone. A daemon that never calls it, as the shipped
    one, has no authenticated session, and only keepalives reach its message pump. *)
Theorem sessions_never_pin show port es :
  let st := run show (init port) es in
  ConnectionManager.known_peer_keys (cm st) =
    ConnectionManager.known_peer_keys (cm (run show (init port) (filter is_register es))) /\
  (Forall (fun e => ~ is_register e) es ->
     ConnectionManager.known_peer_keys (cm st) = Some ∅ /\
     Forall (fun ctx => rc_peer_authenticated ctx = false) (c_ctx <$> conns st) /\
     Forall (fun p => allowed_unauthenticated p.2 = true) (incoming st)).
Proof.
  intros st. assert (Hk := keys_run show es (init port) (init port) eq_refl). split; [done|]. intros HF.
  rewrite (filter_none _ _ HF) in Hk. cbn in Hk. fold st in Hk. split; [done|].
  apply unregistered_keepalives; [apply inv_run, inv_init|done].
Qed.

End NetTheorems.

(** A session between two registered peers, end to end: the initiator's message is queued. *)
Module NetWitness.
Import NetState.
#[local] Existing Instance toy_crypto.
#[local] Existing Instance ToyJson.toy_json.

Definition alice := auth_of "alice" (be_bytes 32 5).
Definition bob := auth_of "bob" (be_bytes 32 6).
Definition hello : bytes := (outbound_handshake alice None (be_bytes 32 3) (be_bytes 32 77) []).1.

Definition send_hi : bytes :=
  let s := (outbound_handshake alice None (be_bytes 32 3) (be_bytes 32 77)
              (inbound_handshake bob None (be_bytes 32 4) hello).1).2 in
  match s with
  | Ok (k, _) =>
      match (send_secure_frame [] (string_bytes (to_json (FriendRequest "alice" "hi"))) (send_key k) 0 (zeros 12)).2 with
      | Ok f => f
      | Err _ => []
      end
  | Err _ => []
  end.

Definition script (reg : bool) : list event :=
  (if reg then [Register "alice" "10.0.0.1:9000" (sa_public_hex alice) 0] else []) ++
  [Accept; Handshake "10.0.0.1:4000" bob (be_bytes 32 4) (Some hello); Read 0 (Some send_hi)].

Example registered_peer_is_heard :
  incoming (run (fun _ => "") (init 9000) (script true)) = [("alice", FriendRequest "alice" "hi")] /\
  incoming (run (fun _ => "") (init 9000) (script false)) = [].
Proof. vm_compute. done. Qed.

End NetWitness.
