(* ===== verification/App.v ===== *)
(** [app.rs] and the relay branch of [main.rs]: originating, admitting, delivering and forwarding
    relay messages, and the bounded event channel.

    [AppState] is restricted to the fields these operations use. The connection manager sits
    behind a lock ([None] when poisoned); the outgoing channel is the list of what was sent and
    whether its receiver still exists. *)

From S2P Require Import Prelude Crypto Identity Wire Session Relay ConnectionManager.

Definition EVENT_CHANNEL_CAP : Z := 4096.

Inductive AppEvent := Info (message : string) | Error (message : string).

Record AppState := mkApp {
  identity : Identity;
  relay : RelayRouter.t;
  connection_manager : option ConnectionManager;
  relay_verifier : RelayVerifier;
  relay_nonce : Z;
  outgoing : list (string * PeerMessage);
  outgoing_open : bool;
  events : list AppEvent;
}.

(** The initial state, given the identity [Identity::load_or_generate] returns. *)
Definition new_with_port (id : Identity) (listen_port : Z) : AppState :=
  mkApp id RelayRouter.new (Some (ConnectionManager.new listen_port)) RelayVerifier.new 0 [] true [].

Definition set_verifier (s : AppState) (v : RelayVerifier) : AppState :=
  mkApp (identity s) (relay s) (connection_manager s) v (relay_nonce s) (outgoing s) (outgoing_open s) (events s).
Definition set_nonce (s : AppState) (n : Z) : AppState :=
  mkApp (identity s) (relay s) (connection_manager s) (relay_verifier s) n (outgoing s) (outgoing_open s) (events s).
Definition set_outgoing (s : AppState) (q : list (string * PeerMessage)) : AppState :=
  mkApp (identity s) (relay s) (connection_manager s) (relay_verifier s) (relay_nonce s) q (outgoing_open s) (events s).
Definition set_events (s : AppState) (q : list AppEvent) : AppState :=
  mkApp (identity s) (relay s) (connection_manager s) (relay_verifier s) (relay_nonce s) (outgoing s) (outgoing_open s) q.

(** [event_tx.send] on the bounded channel: [None] is a call that does not return, because the
    channel is full and the sender waits for room. The receiver lives in the same state. *)
Definition emit (s : AppState) (e : AppEvent) : option AppState :=
  if EVENT_CHANNEL_CAP <=? zlen (events s) then None else Some (set_events s (events s ++ [e])).

Definition poll_events (s : AppState) : AppState * list AppEvent := (set_events s [], events s).

(** [outgoing_tx.send]: [false] when the receiver is gone. *)
Definition send_outgoing (s : AppState) (p : string * PeerMessage) : AppState * bool :=
  if outgoing_open s then (set_outgoing s (outgoing s ++ [p]), true) else (s, false).

(** Where a message for [to_uid] goes next. *)
Definition route (s : AppState) (to_uid : string) : option string :=
  let direct := match connection_manager s with
                | Some cm => ConnectionManager.is_connected cm to_uid
                | None => false
                end in
  if direct then Some to_uid else RelayRouter.next_hop (relay s) to_uid.

(** The session-authenticated keys, empty when a lock is poisoned. *)
Definition known_keys (s : AppState) : gmap string string :=
  default ∅ (cm ← connection_manager s; ConnectionManager.known_peer_keys cm).

(** The fields of a relay message, and whether it is a request. *)
Record RelayMsg := mkRelay {
  from_uid : string; to_uid : string; origin_key_hex : string;
  nonce : Z; timestamp : Z; hops_left : Z;
  signature : bytes; payload : bytes; is_request : bool;
}.

Definition relay_fields (msg : PeerMessage) : option RelayMsg :=
  match msg with
  | RelayRequest f t k n ts h sg p => Some (mkRelay f t k n ts h sg p true)
  | RelayResponse f t k n ts h sg p => Some (mkRelay f t k n ts h sg p false)
  | _ => None
  end.

Definition relay_message (m : RelayMsg) : PeerMessage :=
  if is_request m then
    RelayRequest (from_uid m) (to_uid m) (origin_key_hex m) (nonce m) (timestamp m) (hops_left m)
      (signature m) (payload m)
  else
    RelayResponse (from_uid m) (to_uid m) (origin_key_hex m) (nonce m) (timestamp m) (hops_left m)
      (signature m) (payload m).

(** [hops_left: hops_left - 1]. *)
Definition one_hop (m : RelayMsg) : RelayMsg :=
  mkRelay (from_uid m) (to_uid m) (origin_key_hex m) (nonce m) (timestamp m) (hops_left m - 1)
    (signature m) (payload m) (is_request m).

Section App.
Context `{Crypto}.

(** [now] is the Unix time. *)
Definition send_relay (s : AppState) (to : string) (body : bytes) (now : Z) : AppState * option string :=
  match signing_key (identity s) with
  | None => (s, None)
  | Some sk =>
      let from := uid (identity s) in
      let s := set_nonce s (relay_nonce s +₆₄ 1) in
      let msg := build_relay_request
        (mkOrigin sk (public_hex (identity s)) from to (relay_nonce s) now RELAY_MAX_HOPS) body in
      match route s to with
      | None => (s, None)
      | Some next_hop =>
          let '(s, sent) := send_outgoing s (next_hop, msg) in
          if sent then (s, Some ("[relay] request for " +:+ to +:+ " routed via " +:+ next_hop))
          else (s, None)
      end
  end.

(** The key a relayed message is checked against: the one on record for its sender, or the one
    it carries, which is pinned first. *)
Definition relay_key (s : AppState) (m : RelayMsg) : AppState * option string :=
  match known_keys s !! from_uid m with
  | Some k => (s, Some k)
  | None =>
      match RelayVerifier.pin_key (relay_verifier s) (from_uid m) (origin_key_hex m) with
      | (v, Err _) => (set_verifier s v, None)
      | (v, Ok _) => (set_verifier s v, Some (origin_key_hex m))
      end
  end.

(** Delivery or forwarding of an admitted message. *)
Definition deliver_or_forward (s : AppState) (m : RelayMsg) : AppState * list AppEvent :=
  if bool_decide (to_uid m = uid (identity s)) then
    (s, [Info ("relay from " +:+ from_uid m +:+ ": " +:+ fmt (zlen (payload m)) +:+ " bytes")])
  else if negb (valid_inbound_hops (hops_left m)) then (s, [])
  else if hops_left m =? 0 then (s, [])
  else
    match route s (to_uid m) with
    | None => (s, [])
    | Some next_uid => ((send_outgoing s (next_uid, relay_message (one_hop m))).1, [])
    end.

Definition handle_relay_message (s : AppState) (msg : PeerMessage) (now : Z) : AppState * list AppEvent :=
  match relay_fields msg with
  | None => (s, [])
  | Some m =>
      match relay_key s m with
      | (s, None) => (s, [])
      | (s, Some key_hex) =>
          match parse_verifying_key key_hex with
          | None => (s, [])
          | Some vk =>
              if negb (verify_relay vk (from_uid m) (to_uid m) (nonce m) (timestamp m) (payload m) (signature m))
              then (s, [])
              else
                match RelayVerifier.check (relay_verifier s) key_hex (nonce m) (timestamp m) now with
                | (v, Err _) => (set_verifier s v, [])
                | (v, Ok _) => deliver_or_forward (set_verifier s v) m
                end
          end
      end
  end.

(** The relay branch of [incoming_pump]: handle, then emit every event. *)
Definition emit_all (s : AppState) (es : list AppEvent) : option AppState :=
  foldl (fun o e => s ← o; emit s e) (Some s) es.

Definition pump_relay (s : AppState) (msg : PeerMessage) (now : Z) : option AppState :=
  let '(s', es) := handle_relay_message s msg now in emit_all s' es.

End App.

(** ** Lemmas *)

Module AppFacts.
Section Facts.
Context `{Crypto}.

Lemma relay_fields_message m : relay_fields (relay_message m) = Some m.
Proof. destruct m as [? ? ? ? ? ? ? ? []]; done. Qed.

Lemma relay_message_fields msg m : relay_fields msg = Some m -> relay_message m = msg.
Proof. destruct msg; intros [= <-]; done. Qed.

(** What [relay_key] touches: the verifier's pins, nothing else. *)
Lemma relay_key_state s m s1 k :
  relay_key s m = (s1, k) -> exists v, s1 = set_verifier s v /\
    RelayVerifier.last_nonce v = RelayVerifier.last_nonce (relay_verifier s) /\
    RelayVerifier.rate v = RelayVerifier.rate (relay_verifier s).
Proof.
  unfold relay_key, RelayVerifier.pin_key. intros E.
  destruct (known_keys s !! _) as [k0|].
  { simplify_eq. exists (relay_verifier s1). by destruct s1. }
  destruct (RelayVerifier.key_pins _ !! _) as [prev|]; [destruct (bool_decide _)|];
    simplify_eq; eexists; split_and!; reflexivity.
Qed.

(** The key is the recorded one, or else the one pinned for the sender. *)
Lemma relay_key_some s m s1 k :
  relay_key s m = (s1, Some k) ->
  known_keys s !! from_uid m = Some k \/
  (known_keys s !! from_uid m = None /\ k = origin_key_hex m /\
   RelayVerifier.key_pins (relay_verifier s1) !! from_uid m = Some k).
Proof.
  unfold relay_key, RelayVerifier.pin_key. intros E.
  destruct (known_keys s !! _) as [k0|]; [simplify_eq; auto|right].
  destruct (RelayVerifier.key_pins _ !! _) as [prev|] eqn:Ep; [case_bool_decide|]; simplify_eq/=; split_and!; try done.
  apply lookup_insert_eq.
Qed.

(** A key pinned for a sender without a key on record rules out every other key. *)
Lemma relay_key_pinned s m k :
  known_keys s !! from_uid m = None -> RelayVerifier.key_pins (relay_verifier s) !! from_uid m = Some k ->
  k <> origin_key_hex m -> relay_key s m = (s, None).
Proof.
  intros Hk Hp Hne. unfold relay_key, RelayVerifier.pin_key. rewrite Hk, Hp.
  rewrite bool_decide_eq_false_2 by done. by destruct s.
Qed.

Lemma known_keys_verifier s v : known_keys (set_verifier s v) = known_keys s.
Proof. done. Qed.

(** The outcome of an admitted message. *)
Lemma deliver_or_forward_spec s m s' es :
  deliver_or_forward s m = (s', es) ->
  (to_uid m = uid (identity s) /\ s' = s /\ length es = 1%nat) \/
  (to_uid m <> uid (identity s) /\ es = [] /\
   (s' = s \/ hops_left m <> 0 /\ hops_left m <= RELAY_MAX_HOPS /\ exists next, route s (to_uid m) = Some next /\
     s' = set_outgoing s (outgoing s ++ [(next, relay_message (one_hop m))]))).
Proof.
  unfold deliver_or_forward, send_outgoing, valid_inbound_hops. intros E.
  case_bool_decide; [left; by simplify_eq|right].
  destruct (hops_left m <=? RELAY_MAX_HOPS) eqn:E1; simplify_eq/=; [|by auto].
  destruct (hops_left m =? 0) eqn:E2; simplify_eq/=; [by auto|].
  destruct (route s (to_uid m)) as [next|] eqn:Er; simplify_eq/=; [|by auto].
  destruct (outgoing_open s); simpl; (split; [done|]); (split; [done|]); [|by auto].
  breflect. right. split_and!; [done|done|]. by exists next.
Qed.
End Facts.
End AppFacts.

(** ** Admission *)

Section RelayTheorems.
Context `{Crypto}.
Import AppFacts.

(** C14: A relay message has an effect outside the verifier, an event or a forwarded message, only
    if its signature verifies under its sender's key (the key on record or else the key pinned
    for the sender), its timestamp is within a minute of the clock and its nonce exceeds the
    one the verifier's table holds for that key, if it holds one; its own nonce is in the table
    afterwards. The table is emptied when 4096 keys are in it, so this is no claim about nonces admitted
    before that. A message for this node gives one event and is not forwarded; any other is queued
    once, for the next hop, with [hops_left] between 1 and 8 lowered by one and every other field
    unchanged. *)
Theorem relay_message_sound s msg now s' es :
  handle_relay_message s msg now = (s', es) -> es <> [] \/ outgoing s' <> outgoing s ->
  exists m key vk,
    msg = relay_message m /\
    (known_keys s !! from_uid m = Some key \/
     known_keys s !! from_uid m = None /\ key = origin_key_hex m /\
     RelayVerifier.key_pins (relay_verifier s') !! from_uid m = Some key) /\
    parse_verifying_key key = Some vk /\
    verify_relay vk (from_uid m) (to_uid m) (nonce m) (timestamp m) (payload m) (signature m) = true /\
    abs_diff now (timestamp m) <= RELAY_MAX_AGE_SECS /\
    (forall last, RelayVerifier.last_nonce (relay_verifier s) !! key = Some last -> last < nonce m) /\
    RelayVerifier.last_nonce (relay_verifier s') !! key = Some (nonce m) /\
    (to_uid m = uid (identity s) /\ outgoing s' = outgoing s /\ length es = 1%nat \/
     to_uid m <> uid (identity s) /\ es = [] /\ hops_left m <> 0 /\ hops_left m <= RELAY_MAX_HOPS /\
     exists next, route s (to_uid m) = Some next /\
       outgoing s' = outgoing s ++ [(next, relay_message (one_hop m))]).
Proof.
  unfold handle_relay_message. intros E Heff.
  destruct (relay_fields msg) as [m|] eqn:Em; [|by simplify_eq; destruct Heff].
  destruct (relay_key s m) as [s1 [key|]] eqn:Ek; apply relay_key_state in Ek as Hs1;
    destruct Hs1 as (v1 & -> & Hn1 & _); [|by simplify_eq/=; destruct Heff].
  destruct (parse_verifying_key key) as [vk|] eqn:Ev; [|by simplify_eq/=; destruct Heff].
  destruct (verify_relay _ _ _ _ _ _ _) eqn:Eve; [|by simplify_eq/=; destruct Heff]. cbn [negb] in E.
  destruct (RelayVerifier.check _ _ _ _ _) as [v2 [[]|e]] eqn:Ec; [|by simplify_eq/=; destruct Heff].
  apply RelayFacts.check_ok in Ec as (Hlast & Hage & Hnew & Hpins & _). cbn [relay_verifier set_verifier] in *.
  exists m, key, vk. split; [by rewrite (relay_message_fields _ _ Em)|].
  assert (Hv : relay_verifier s' = v2).
  { apply deliver_or_forward_spec in E as [(_ & -> & _)|(_ & _ & [->|(_ & _ & next & _ & ->)])]; done. }
  rewrite Hv. split.
  { apply relay_key_some in Ek as [?|(? & ? & ?)]; [auto|right]. by rewrite Hpins. }
  split_and!; [done|done|done|by rewrite <-Hn1|done|].
  apply deliver_or_forward_spec in E as [(? & -> & ?)|(? & -> & [->|(? & ? & next & ? & ->)])].
  - by left.
  - by destruct Heff.
  - right. split_and!; try done. by exists next.
Qed.

(** [m] reaches [m'] by being forwarded by a sequence of nodes, each in any state and at any
    time: what one queues, the next receives. *)
Inductive forwarded : list (AppState * Z) -> RelayMsg -> RelayMsg -> Prop :=
| forwarded_nil m : forwarded [] m m
| forwarded_cons s now next l m m1 m2 :
    outgoing (handle_relay_message s (relay_message m) now).1 = outgoing s ++ [(next, relay_message m1)] ->
    forwarded l m1 m2 -> forwarded ((s, now) :: l) m m2.

Lemma handle_forwards s m now next m1 :
  outgoing (handle_relay_message s (relay_message m) now).1 = outgoing s ++ [(next, relay_message m1)] ->
  m1 = one_hop m /\ hops_left m <> 0 /\ hops_left m <= RELAY_MAX_HOPS.
Proof.
  unfold handle_relay_message. rewrite relay_fields_message. intros E.
  assert (Hno : outgoing s <> outgoing s ++ [(next, relay_message m1)]).
  { intros C%(f_equal length). rewrite length_app in C. simpl in C. lia. }
  destruct (relay_key s m) as [s1 [key|]] eqn:Ek; apply relay_key_state in Ek as (v1 & -> & _); [|done].
  destruct (parse_verifying_key key); [|done].
  destruct (verify_relay _ _ _ _ _ _ _); [|done]. cbn [negb] in E.
  destruct (RelayVerifier.check _ _ _ _ _) as [v2 [[]|e]]; [|done].
  destruct (deliver_or_forward _ m) as [s' es] eqn:Ed. cbn [fst] in E.
  apply deliver_or_forward_spec in Ed as [(_ & -> & _)|(_ & _ & [->|(H1 & H2 & nx & _ & ->)])]; [done|done|].
  cbn in E. apply app_inj_1 in E as [_ E]; [|done]. injection E as _ E.
  apply (f_equal relay_fields) in E. rewrite !relay_fields_message in E. by simplify_eq.
Qed.

(** C34: Routing loops end. However the nodes are connected and whatever their states, a message
    is forwarded at most [hops_left] times, and at most 8 times in all, and what arrives is what
    was sent with [hops_left] reduced by the number of hops; the signed fields are untouched. *)
Theorem relay_hops_bounded l m m' :
  0 <= hops_left m <= u8_max -> forwarded l m m' ->
  zlen l <= Z.min RELAY_MAX_HOPS (hops_left m) /\
  m' = mkRelay (from_uid m) (to_uid m) (origin_key_hex m) (nonce m) (timestamp m)
         (hops_left m - zlen l) (signature m) (payload m) (is_request m).
Proof.
  intros Hr Hf. revert Hr. induction Hf as [m|s now next l m m1 m2 E Hf IH]; intros Hr.
  { unfold zlen. cbn. rewrite Z.sub_0_r. split; [unfold RELAY_MAX_HOPS; lia|by destruct m]. }
  apply handle_forwards in E as (-> & H1 & H2). unfold u8_max in *. cbn [one_hop hops_left] in IH.
  destruct IH as [Hl ->]; [lia|]. rewrite zlen_cons. split; [lia|]. cbn. f_equal. lia.
Qed.

(** The key of a relayed sender is pinned before the message's signature is looked at. Any
    message at all that names a sender not seen before, with any key and any signature, makes
    this node drop every later message of that sender under its real key. *)
Theorem unverified_pin_locks_out s forged now m now' :
  known_keys s !! from_uid forged = None ->
  RelayVerifier.key_pins (relay_verifier s) !! from_uid forged = None ->
  from_uid m = from_uid forged -> origin_key_hex m <> origin_key_hex forged ->
  let s1 := (handle_relay_message s (relay_message forged) now).1 in
  handle_relay_message s1 (relay_message m) now' = (s1, []).
Proof.
  intros Hk Hp Hf Hne s1.
  assert (Hs1 : known_keys s1 !! from_uid m = None /\
                RelayVerifier.key_pins (relay_verifier s1) !! from_uid m = Some (origin_key_hex forged)).
  { rewrite Hf. unfold s1, handle_relay_message. rewrite relay_fields_message.
    unfold relay_key. rewrite Hk. unfold RelayVerifier.pin_key. rewrite Hp.
    set (v := RelayVerifier.mk _ _ _).
    assert (Hv : RelayVerifier.key_pins v !! from_uid forged = Some (origin_key_hex forged)) by apply lookup_insert_eq.
    destruct (parse_verifying_key _); [|done]. destruct (verify_relay _ _ _ _ _ _ _); [|done]. cbn [negb].
    destruct (RelayVerifier.check _ _ _ _ _) as [v2 [[]|e]] eqn:Ec; cbn [relay_verifier set_verifier] in Ec.
    - apply RelayFacts.check_ok in Ec as (_ & _ & _ & Hpins & _).
      destruct (deliver_or_forward _ forged) as [s' es] eqn:Ed. rewrite <-Hpins in Hv.
      apply deliver_or_forward_spec in Ed as [(_ & -> & _)|(_ & _ & [->|(_ & _ & ? & _ & ->)])]; done.
    - apply RelayFacts.check_err in Ec as [_ Hpins]. by rewrite <-Hpins in Hv. }
  unfold handle_relay_message. rewrite relay_fields_message.
  by rewrite (relay_key_pinned s1 m (origin_key_hex forged)) by naive_solver.
Qed.

End RelayTheorems.

(** ** The event channel *)

Section EventTheorems.
Context `{Crypto}.
Import AppFacts.

(** The relay messages [incoming_pump] takes off its queue, with the clock at each. *)
Fixpoint pump_all (s : AppState) (l : list (PeerMessage * Z)) : option AppState :=
  match l with
  | [] => Some s
  | (msg, now) :: l' => s' ← pump_relay s msg now; pump_all s' l'
  end.

(** The same messages through the handler alone, collecting the events. *)
Fixpoint handle_all (s : AppState) (l : list (PeerMessage * Z)) : AppState * list AppEvent :=
  match l with
  | [] => (s, [])
  | (msg, now) :: l' =>
      let '(s1, es) := handle_relay_message s msg now in
      let '(s2, es') := handle_all s1 l' in (s2, es ++ es')
  end.

Lemma set_events_id s : set_events s (events s) = s.
Proof. by destruct s. Qed.

(** The handler neither reads nor writes the event channel. *)
Lemma handle_set_events s q msg now :
  handle_relay_message (set_events s q) msg now =
    (set_events (handle_relay_message s msg now).1 q, (handle_relay_message s msg now).2).
Proof.
  unfold handle_relay_message. destruct (relay_fields msg) as [m|]; [|done].
  unfold relay_key. change (known_keys (set_events s q)) with (known_keys s).
  change (relay_verifier (set_events s q)) with (relay_verifier s).
  assert (Hd : forall s, deliver_or_forward (set_events s q) m =
    (set_events (deliver_or_forward s m).1 q, (deliver_or_forward s m).2)).
  { intros s0. unfold deliver_or_forward, send_outgoing, route. cbn [identity set_events connection_manager relay outgoing_open].
    by repeat case_match. }
  assert (Hv : forall s v, set_verifier (set_events s q) v = set_events (set_verifier s v) q) by done.
  destruct (known_keys s !! _) as [k|]; [|destruct (RelayVerifier.pin_key _ _ _) as [v [[]|e]]]; try done.
  all: destruct (parse_verifying_key _); [|done]; destruct (verify_relay _ _ _ _ _ _ _); [|done]; cbn [negb];
    rewrite ?Hv; cbn [relay_verifier set_events set_verifier];
    destruct (RelayVerifier.check _ _ _ _ _) as [v' [[]|e]]; [|done]; rewrite ?Hv; apply Hd.
Qed.

Lemma handle_keeps_events s msg now : events (handle_relay_message s msg now).1 = events s.
Proof.
  pose proof (handle_set_events s (events s) msg now) as E. rewrite set_events_id in E.
  rewrite E at 1. done.
Qed.

Lemma emit_all_cons s e es :
  emit_all s (e :: es) = match emit s e with Some s' => emit_all s' es | None => None end.
Proof.
  unfold emit_all. cbn [foldl mbind option_bind]. destruct (emit s e); [done|].
  induction es as [|e' es IH]; [done|]. apply IH.
Qed.

Lemma emit_all_spec s es :
  zlen (events s) <= EVENT_CHANNEL_CAP ->
  emit_all s es = if zlen (events s) + zlen es <=? EVENT_CHANNEL_CAP then Some (set_events s (events s ++ es)) else None.
Proof.
  revert s. induction es as [|e es IH]; intros s Hs.
  { rewrite app_nil_r, set_events_id. unfold zlen at 2. cbn. by rewrite Z.add_0_r, (proj2 (Z.leb_le _ _)). }
  rewrite emit_all_cons, zlen_cons. pose proof (zlen_nonneg es).
  unfold emit. destruct (EVENT_CHANNEL_CAP <=? zlen (events s)) eqn:E; breflect.
  - by rewrite (proj2 (Z.leb_gt _ _)) by lia.
  - rewrite IH; cbn [events set_events]; rewrite zlen_app; unfold zlen at 2; cbn [length]; [|lia].
    rewrite <-app_assoc. by replace (zlen (events s) + (1 + zlen es)) with (zlen (events s) + Z.of_nat 1 + zlen es) by lia.
Qed.

Lemma handle_all_set_events l s q :
  handle_all (set_events s q) l = (set_events (handle_all s l).1 q, (handle_all s l).2).
Proof.
  revert s. induction l as [|[msg now] l IH]; intros s; [done|]. cbn [handle_all]. rewrite handle_set_events.
  destruct (handle_relay_message s msg now) as [s1 es]. cbn [fst snd]. rewrite IH.
  by destruct (handle_all s1 l).
Qed.

Lemma handle_all_events l s : events (handle_all s l).1 = events s.
Proof.
  revert s. induction l as [|[msg now] l IH]; intros s; [done|]. cbn [handle_all].
  pose proof (handle_keeps_events s msg now) as E. destruct (handle_relay_message s msg now) as [s1 es].
  specialize (IH s1). destruct (handle_all s1 l). cbn in *. congruence.
Qed.

(** The pump that serves relay traffic returns from a sequence of messages exactly when the
    events they raise, with those already queued, fit the channel's 4096 places. With one event
    more, and nobody polling the channel, [emit] waits for room while the state is locked: the
    pump and everything behind that lock stop. *)
Theorem event_channel_bound s l :
  zlen (events s) <= EVENT_CHANNEL_CAP ->
  pump_all s l =
    if zlen (events s) + zlen (handle_all s l).2 <=? EVENT_CHANNEL_CAP
    then Some (set_events (handle_all s l).1 (events s ++ (handle_all s l).2)) else None.
Proof.
  revert s. induction l as [|[msg now] l IH]; intros s Hs; cbn [pump_all handle_all].
  { cbn. rewrite app_nil_r, set_events_id. unfold zlen at 2. cbn. by rewrite Z.add_0_r, (proj2 (Z.leb_le _ _)). }
  unfold pump_relay. pose proof (handle_keeps_events s msg now) as He.
  destruct (handle_relay_message s msg now) as [s1 es]. cbn [fst] in He.
  rewrite emit_all_spec, He by (by rewrite He).
  destruct (handle_all s1 l) as [s2 es'] eqn:Eh. cbn [fst snd]. rewrite zlen_app.
  pose proof (zlen_nonneg es). pose proof (zlen_nonneg es').
  destruct (zlen (events s) + zlen es <=? EVENT_CHANNEL_CAP) eqn:Ec; breflect; cbn [mbind option_bind].
  - rewrite IH; cbn [events set_events]; rewrite zlen_app; [|lia].
    rewrite handle_all_set_events, Eh. cbn [fst snd]. rewrite <-app_assoc, Z.add_assoc. done.
  - by rewrite (proj2 (Z.leb_gt _ _)) by lia.
Qed.

End EventTheorems.

(** ** A message's whole way *)

Section EndToEnd.
Context `{Crypto, !EdLaws}.
Import AppFacts.

Lemma verify_sign_relay sk f t n ts p : verify_relay (ed_public sk) f t n ts p (sign_relay sk f t n ts p) = true.
Proof. unfold verify_relay, sign_relay. by rewrite ed_sign_parses, ed_verify_sign. Qed.

(** A node that will admit the next [k] messages of [u], signed by [key] and numbered above [n]: it has
    no other key for [u], has seen no higher number, and the quota of the key has room for [k]. *)
Record welcomes (s : AppState) (u key : string) (n k : Z) : Prop := {
  wc_key : known_keys s !! u = Some key \/
    known_keys s !! u = None /\ (RelayVerifier.key_pins (relay_verifier s) !! u = None \/ RelayVerifier.key_pins (relay_verifier s) !! u = Some key);
  wc_nonce last : RelayVerifier.last_nonce (relay_verifier s) !! key = Some last -> last <= n;
  wc_quota ws c : RelayVerifier.rate (relay_verifier s) !! key = Some (ws, c) -> 0 <= c /\ c + k <= RELAY_MAX_PER_WINDOW;
}.

Lemma check_admits v key n ts now k last :
  (forall x, RelayVerifier.last_nonce v !! key = Some x -> x <= last) -> last < n ->
  (forall ws c, RelayVerifier.rate v !! key = Some (ws, c) -> 0 <= c /\ c + k <= RELAY_MAX_PER_WINDOW) ->
  0 < k <= RELAY_MAX_PER_WINDOW -> abs_diff now ts <= RELAY_MAX_AGE_SECS ->
  exists v', RelayVerifier.check v key n ts now = (v', Ok tt) /\ RelayVerifier.last_nonce v' !! key = Some n /\
    RelayVerifier.key_pins v' = RelayVerifier.key_pins v /\
    (forall ws c, RelayVerifier.rate v' !! key = Some (ws, c) -> 0 <= c /\ c + (k - 1) <= RELAY_MAX_PER_WINDOW).
Proof.
  intros Hl Hn Hr Hk Ha. unfold RelayVerifier.check, RelayVerifier.replayed.
  assert (match RelayVerifier.last_nonce v !! key with Some x => if n <=? x then Some x else None | None => None end = None) as ->.
  { destruct (RelayVerifier.last_nonce v !! key) as [x|]; [|done]. specialize (Hl x eq_refl). by rewrite (proj2 (Z.leb_gt _ _)) by lia. }
  rewrite Z.gtb_ltb, (proj2 (Z.ltb_ge _ _)) by done.
  set (rates := if MAX_RELAY_TRACKED <=? Z.of_nat (size (RelayVerifier.rate v)) then ∅ else RelayVerifier.rate v).
  assert (Hw : forall ws c, RelayVerifier.current_window now (default (now, 0) (rates !! key)) = (ws, c) -> 0 <= c /\ c + k <= RELAY_MAX_PER_WINDOW).
  { intros ws c. unfold RelayVerifier.current_window. destruct (rates !! key) as [[ws' c']|] eqn:E; cbn [default fst]; case_match; intros [= _ <-]; try lia.
    apply (Hr ws'). unfold rates in E. by destruct (MAX_RELAY_TRACKED <=? _). }
  destruct (RelayVerifier.current_window now _) as [ws c]. destruct (Hw ws c eq_refl) as [Hc0 Hc1]. unfold RELAY_MAX_PER_WINDOW in *.
  rewrite (proj2 (Z.leb_gt _ _)) by lia. eexists. split; [done|]. cbn. split_and!; [apply lookup_insert_eq|done|].
  rewrite lookup_insert_eq. intros ws' c' [= <- <-]. rewrite wrap32_small by lia. lia.
Qed.

(** A genuine message passes a node that welcomes it, and the node welcomes the next. *)
Lemma genuine_message_passes s sk m now n k :
  origin_key_hex m = hex_encode (ed_public sk) ->
  signature m = sign_relay sk (from_uid m) (to_uid m) (nonce m) (timestamp m) (payload m) ->
  welcomes s (from_uid m) (origin_key_hex m) n k -> n < nonce m -> 0 < k <= RELAY_MAX_PER_WINDOW ->
  abs_diff now (timestamp m) <= RELAY_MAX_AGE_SECS ->
  exists v, handle_relay_message s (relay_message m) now = deliver_or_forward (set_verifier s v) m /\
    welcomes (set_verifier s v) (from_uid m) (origin_key_hex m) (nonce m) (k - 1).
Proof.
  intros Hk Hs [Wk Wn Wq] Hn Hk0 Ha. unfold handle_relay_message. rewrite relay_fields_message.
  assert (exists v0, relay_key s m = (set_verifier s v0, Some (origin_key_hex m)) /\
    RelayVerifier.last_nonce v0 = RelayVerifier.last_nonce (relay_verifier s) /\ RelayVerifier.rate v0 = RelayVerifier.rate (relay_verifier s) /\
    (known_keys s !! from_uid m = Some (origin_key_hex m) \/
     known_keys s !! from_uid m = None /\ RelayVerifier.key_pins v0 !! from_uid m = Some (origin_key_hex m))) as (v0 & -> & En & Er & Hp).
  { unfold relay_key, RelayVerifier.pin_key. destruct Wk as [Ek|[Ek [Ep|Ep]]]; rewrite Ek.
    - exists (relay_verifier s). split_and!; [by destruct s|done|done|by left].
    - rewrite Ep. eexists. split_and!; [done|done|done|right]. split; [done|]. apply lookup_insert_eq.
    - rewrite Ep, bool_decide_true by done. exists (relay_verifier s). split_and!; [by destruct s|done|done|by right]. }
  assert (parse_verifying_key (origin_key_hex m) = Some (ed_public sk)) as ->.
  { rewrite Hk. unfold parse_verifying_key. rewrite hex_decode_encode by apply ed_public_bytes_ok. cbn.
    unfold array32. rewrite bool_decide_eq_true_2 by apply ed_public_length. apply ed_public_parses. }
  rewrite Hs, verify_sign_relay. cbn [negb relay_verifier set_verifier].
  destruct (check_admits v0 (origin_key_hex m) (nonce m) (timestamp m) now k n) as (v & -> & Hv & Hpv & Hq); [by rewrite En|done|by rewrite Er|done|done|].
  exists v. split; [done|]. split; cbn [relay_verifier set_verifier].
  - change (known_keys (set_verifier s v)) with (known_keys s). rewrite Hpv. destruct Hp as [?|[? ?]]; [by left|right; auto].
  - rewrite Hv. by intros ? [= <-].
  - exact Hq.
Qed.

(** A message of the sender, with the times at which it is sent, relayed and received. *)
Record Posting := mkPosting { body : bytes; sent : Z; at_relay : Z; at_target : Z }.

Definition send_all (s : AppState) (to : string) (l : list Posting) : AppState :=
  foldl (fun s p => (send_relay s to (body p) (sent p)).1) s l.

(** What the sender makes of the postings. *)
Fixpoint letters (seed : bytes) (ua to pub : string) (n : Z) (l : list Posting) : list RelayMsg :=
  match l with
  | [] => []
  | p :: l => mkRelay ua to pub (n + 1) (sent p) RELAY_MAX_HOPS (sign_relay seed ua to (n + 1) (sent p) (body p)) (body p) true
                :: letters seed ua to pub (n + 1) l
  end.

Lemma letters_sent ua seed t to c l s :
  length seed = 32%nat -> bytes_ok seed -> identity s = generate ua seed t -> outgoing_open s = true -> route s to = Some c ->
  0 <= relay_nonce s -> relay_nonce s + zlen l < 2 ^ 64 ->
  outgoing (send_all s to l) = outgoing s ++ ((fun m => (c, relay_message m)) <$> letters seed ua to (public_hex (identity s)) (relay_nonce s) l).
Proof.
  intros Hl Hok. revert s. induction l as [|p l IH]; intros s Hid Hop Hro Hn0 Hn; [by rewrite app_nil_r|].
  rewrite zlen_cons in Hn. pose proof (zlen_nonneg l). cbn [send_all foldl letters fmap list_fmap].
  destruct (generate_keys ua seed t Hl Hok) as [Hsk _].
  assert (E : (send_relay s to (body p) (sent p)).1 = set_outgoing (set_nonce s (relay_nonce s + 1))
    (outgoing s ++ [(c, relay_message (mkRelay ua to (public_hex (identity s)) (relay_nonce s + 1) (sent p) RELAY_MAX_HOPS
       (sign_relay seed ua to (relay_nonce s + 1) (sent p) (body p)) (body p) true))])).
  { unfold send_relay. rewrite Hid at 1. rewrite Hsk, wrap64_small by lia.
    change (route (set_nonce s (relay_nonce s + 1)) to) with (route s to). rewrite Hro.
    unfold send_outgoing. cbn [outgoing_open set_nonce]. rewrite Hop. cbn [fst outgoing set_nonce]. unfold build_relay_request, relay_message. cbn. by rewrite Hid. }
  rewrite E. fold (send_all (set_outgoing (set_nonce s (relay_nonce s + 1)) (outgoing s ++ [(c, relay_message (mkRelay ua to (public_hex (identity s)) (relay_nonce s + 1) (sent p) RELAY_MAX_HOPS
       (sign_relay seed ua to (relay_nonce s + 1) (sent p) (body p)) (body p) true))])) to l).
  rewrite IH by (done || (cbn; lia)). cbn [outgoing set_outgoing identity relay_nonce set_nonce]. by rewrite <-app_assoc.
Qed.

Lemma handle_all_cons s msg now l :
  (handle_all s ((msg, now) :: l)).1 = (handle_all (handle_relay_message s msg now).1 l).1 /\
  (handle_all s ((msg, now) :: l)).2 = (handle_relay_message s msg now).2 ++ (handle_all (handle_relay_message s msg now).1 l).2.
Proof. cbn. destruct (handle_relay_message s msg now) as [s1 es]. cbn. by destruct (handle_all s1 l). Qed.

Lemma letters_relayed ua seed to l n s :
  let pub := hex_encode (ed_public seed) in
  welcomes s ua pub n (zlen l) -> zlen l <= RELAY_MAX_PER_WINDOW ->
  uid (identity s) <> to -> route s to = Some to -> outgoing_open s = true ->
  Forall (fun p => abs_diff (at_relay p) (sent p) <= RELAY_MAX_AGE_SECS) l ->
  outgoing (handle_all s (zip (relay_message <$> letters seed ua to pub n l) (at_relay <$> l))).1 =
    outgoing s ++ ((fun m => (to, relay_message (one_hop m))) <$> letters seed ua to pub n l).
Proof.
  intros pub. revert n s. induction l as [|p l IH]; intros n s Hw Hq Hu Hr Ho HF; [by rewrite app_nil_r|].
  apply Forall_cons in HF as [Hp HF]. rewrite zlen_cons in *. pose proof (zlen_nonneg l). cbn [letters].
  set (m := mkRelay _ _ _ _ _ _ _ _ _). rewrite !fmap_cons; cbn [zip_with]; rewrite (proj1 (handle_all_cons _ _ _ _)).
  destruct (genuine_message_passes s seed m (at_relay p) n (1 + zlen l)) as (v & Ev & Hw');
    [done|done|done|cbn; lia|lia|done|].
  assert (Ed : deliver_or_forward (set_verifier s v) m =
    (set_outgoing (set_verifier s v) (outgoing s ++ [(to, relay_message (one_hop m))]), [])).
  { unfold deliver_or_forward. cbn [identity set_verifier to_uid m]. rewrite bool_decide_eq_false_2 by congruence.
    cbn [valid_inbound_hops hops_left m]. change (negb (valid_inbound_hops RELAY_MAX_HOPS)) with false.
    change (RELAY_MAX_HOPS =? 0) with false. cbv iota. change (route (set_verifier s v) to) with (route s to). rewrite Hr.
    unfold send_outgoing. cbn [outgoing_open set_verifier]. by rewrite Ho. }
  rewrite Ev, Ed. replace (1 + zlen l - 1) with (zlen l) in Hw' by lia. cbn [fst].
  rewrite (IH (n + 1)); try done; [|by destruct Hw'|lia]. cbn [outgoing set_outgoing]. by rewrite <-app_assoc.
Qed.

Definition report (ua : string) (p : Posting) : AppEvent := Info ("relay from " +:+ ua +:+ ": " +:+ fmt (zlen (body p)) +:+ " bytes").

Lemma letters_received ua seed to l n s :
  let pub := hex_encode (ed_public seed) in
  welcomes s ua pub n (zlen l) -> zlen l <= RELAY_MAX_PER_WINDOW -> uid (identity s) = to ->
  Forall (fun p => abs_diff (at_target p) (sent p) <= RELAY_MAX_AGE_SECS) l ->
  (handle_all s (zip ((fun m => relay_message (one_hop m)) <$> letters seed ua to pub n l) (at_target <$> l))).2 = report ua <$> l.
Proof.
  intros pub. revert n s. induction l as [|p l IH]; intros n s Hw Hq Hu HF; [done|].
  apply Forall_cons in HF as [Hp HF]. rewrite zlen_cons in *. pose proof (zlen_nonneg l). cbn [letters].
  set (m := mkRelay _ _ _ _ _ _ _ _ _). rewrite !fmap_cons; cbn [zip_with]; rewrite (proj2 (handle_all_cons _ _ _ _)).
  destruct (genuine_message_passes s seed (one_hop m) (at_target p) n (1 + zlen l)) as (v & Ev & Hw');
    [done|done|done|cbn; lia|lia|done|].
  assert (Ed : deliver_or_forward (set_verifier s v) (one_hop m) = (set_verifier s v, [report ua p])).
  { unfold deliver_or_forward. cbn [identity set_verifier to_uid one_hop m]. by rewrite bool_decide_eq_true_2. }
  rewrite Ev, Ed. replace (1 + zlen l - 1) with (zlen l) in Hw' by lia.
  cbn [fst snd]. by rewrite (IH (n + 1)) by (done || lia).
Qed.

(** C15: What a node originates arrives. Up to sixty messages that [ua] sends in a row go to its first hop
    [c]; a relay node [sc] connected to the target forwards each of them there, and the target [sb]
    reports each one's length and sender, all in the order they were sent. The two nodes may have
    handled any relay messages before: what counts is that they have no other key for [ua] on record or pinned,
    have admitted no higher nonce under its key, and that its quota for the minute has room for the
    messages. Nobody else's relay messages come between, the channels to the outgoing pumps are open, and
    clocks may differ by a minute. *)
Theorem relay_end_to_end ua seed t sa sc sb c (l : list Posting) :
  length seed = 32%nat -> bytes_ok seed -> identity sa = generate ua seed t -> outgoing_open sa = true ->
  0 <= relay_nonce sa -> relay_nonce sa + zlen l < 2 ^ 64 -> zlen l <= RELAY_MAX_PER_WINDOW ->
  let to := uid (identity sb) in
  let pub := public_hex (identity sa) in
  route sa to = Some c ->
  welcomes sc ua pub (relay_nonce sa) (zlen l) -> uid (identity sc) <> to -> route sc to = Some to -> outgoing_open sc = true ->
  welcomes sb ua pub (relay_nonce sa) (zlen l) ->
  Forall (fun p => abs_diff (at_relay p) (sent p) <= RELAY_MAX_AGE_SECS /\ abs_diff (at_target p) (sent p) <= RELAY_MAX_AGE_SECS) l ->
  exists msgs : list RelayMsg,
    outgoing (send_all sa to l) = outgoing sa ++ ((fun m => (c, relay_message m)) <$> msgs) /\
    outgoing (handle_all sc (zip (relay_message <$> msgs) (at_relay <$> l))).1 =
      outgoing sc ++ ((fun m => (to, relay_message (one_hop m))) <$> msgs) /\
    (handle_all sb (zip ((fun m => relay_message (one_hop m)) <$> msgs) (at_target <$> l))).2 = report ua <$> l.
Proof.
  intros Hl Hok Hid Hopen Hn0 Hn Hq to pub Hra Hwc Hne Hrc Hoc Hwb HF. apply Forall_and in HF as [HFc HFb].
  assert (Hpub : pub = hex_encode (ed_public seed)) by (unfold pub; by rewrite Hid).
  exists (letters seed ua to pub (relay_nonce sa) l). split_and!.
  - by apply (letters_sent ua seed t).
  - rewrite Hpub in *. by apply letters_relayed.
  - rewrite Hpub in *. by apply letters_received.
Qed.

End EndToEnd.

(** ** Concrete runs *)

Module AppWitness.
Import AppFacts.
#[local] Existing Instance toy_crypto.

Definition seed : bytes := be_bytes 32 5.
Definition node (u : string) (n : Z) : AppState := new_with_port (generate u (be_bytes 32 n) 0) 9000.

(** [node u n] with a live connection to [peer]. *)
Definition connected (u : string) (n : Z) (peer : string) : AppState :=
  let s := node u n in
  let cm := ConnectionManager.mk (Some {[peer := PeerWriter_new 1]}) ∅ (Some ∅) 9000 in
  mkApp (identity s) (relay s) (Some cm) (relay_verifier s) (relay_nonce s) (outgoing s) true [].

Definition pub : string := hex_encode (ed_public seed).

Definition letter (to : string) (n hops : Z) : RelayMsg :=
  mkRelay "alice" to pub n 1000 hops (sign_relay seed "alice" to n 1000 [1; 2]) [1; 2] true.

Lemma relay_message_sound_witness :
  exists m key vk, relay_message (letter "bob" 1 8) = relay_message m /\
    parse_verifying_key key = Some vk /\
    verify_relay vk (from_uid m) (to_uid m) (nonce m) (timestamp m) (payload m) (signature m) = true.
Proof.
  destruct (handle_relay_message (connected "carol" 7 "bob") (relay_message (letter "bob" 1 8)) 1010)
    as [s' es] eqn:E.
  destruct (relay_message_sound _ _ _ _ _ E) as (m & key & vk & Hm & _ & Hk & Hv & _).
  - right. vm_compute in E. injection E as <- _. vm_compute. discriminate.
  - exists m, key, vk. split_and!; assumption.
Defined.

Lemma relay_hops_bounded_witness :
  exists m', forwarded [(connected "carol" 7 "bob", 1010)] (letter "bob" 1 8) m' /\ hops_left m' = 7.
Proof.
  assert (Hf : forwarded [(connected "carol" 7 "bob", 1010)] (letter "bob" 1 8) (one_hop (letter "bob" 1 8))).
  { apply (forwarded_cons (connected "carol" 7 "bob") 1010 "bob" []
             (letter "bob" 1 8) (one_hop (letter "bob" 1 8)) (one_hop (letter "bob" 1 8))).
    - vm_compute. reflexivity.
    - apply forwarded_nil. }
  exists (one_hop (letter "bob" 1 8)). split; [exact Hf|].
  destruct (relay_hops_bounded _ (letter "bob" 1 8) _ ltac:(split; discriminate) Hf) as [_ E].
  rewrite E. reflexivity.
Defined.

(** Mallory's unsigned message under Alice's name. *)
Definition spoof : RelayMsg := mkRelay "alice" "nobody" "00" 0 0 0 [] [] true.

Lemma unverified_pin_locks_out_witness :
  let s1 := (handle_relay_message (node "bob" 6) (relay_message spoof) 990).1 in
  handle_relay_message s1 (relay_message (letter "bob" 1 8)) 1010 = (s1, []) /\
  length (handle_relay_message (node "bob" 6) (relay_message (letter "bob" 1 8)) 1010).2 = 1%nat.
Proof.
  split.
  - apply (unverified_pin_locks_out (node "bob" 6) spoof 990 (letter "bob" 1 8) 1010);
      [reflexivity|reflexivity|reflexivity|vm_compute; discriminate].
  - vm_compute. reflexivity.
Defined.

Definition stuck : AppState := set_events (node "bob" 6) (replicate 4096 (Info "")).

Lemma event_channel_bound_witness : pump_all stuck [(relay_message (letter "bob" 1 8), 1010)] = None.
Proof.
  rewrite (event_channel_bound stuck); [vm_compute; reflexivity|vm_compute; discriminate].
Defined.

(** Alice, connected to Carol, through whom she can reach Bob. *)
Definition alice : AppState :=
  let s := connected "alice" 5 "carol" in
  mkApp (identity s) (RelayRouter.add_path (relay s) "bob" "carol") (connection_manager s)
    (relay_verifier s) 0 [] true [].

(** Carol and Bob have each handled one letter of Alice; two more follow. *)
Definition carol : AppState := (handle_relay_message (connected "carol" 7 "bob") (relay_message (letter "bob" 1 8)) 1010).1.
Definition bob : AppState := (handle_relay_message (node "bob" 6) (relay_message (letter "bob" 1 7)) 1011).1.
Definition postings : list Posting := [mkPosting [1; 2] 1020 1030 1040; mkPosting [] 1021 1031 1041].

Lemma carol_welcomes : welcomes carol "alice" pub 1 2 /\ welcomes bob "alice" pub 1 2.
Proof.
  split; split; try (right; split; [vm_compute; reflexivity|right; vm_compute; reflexivity]);
    vm_compute; intros; simplify_eq; try done; split; discriminate.
Qed.

Lemma relay_end_to_end_witness :
  exists msgs : list RelayMsg,
    outgoing (send_all (set_nonce alice 1) "bob" postings) = (fun m => ("carol", relay_message m)) <$> msgs /\
    (handle_all bob (zip ((fun m => relay_message (one_hop m)) <$> msgs) [1040; 1041])).2 =
      [Info "relay from alice: 2 bytes"; Info "relay from alice: 0 bytes"].
Proof.
  destruct (relay_end_to_end "alice" seed 0 (set_nonce alice 1) carol bob "carol" postings) as (msgs & E1 & _ & E3);
    [reflexivity|apply be_bytes_ok|reflexivity|reflexivity|discriminate|reflexivity|discriminate|reflexivity|exact (proj1 carol_welcomes)
    |vm_compute; discriminate|reflexivity|reflexivity|exact (proj2 carol_welcomes)|repeat constructor; vm_compute; discriminate|].
  exists msgs. split; [exact E1|exact E3].
Defined.

End AppWitness.
