(* ===== verification/Storage.v ===== *)
(** [storage.rs]: the write-ahead log. The two files of a store are its fields: the bytes of
    [wal.log] and the text of [state.json]. serde's JSON for operations and snapshots is the class
    [StoreJson]. What each file operation does is an argument: an append may stop after any byte,
    a checkpoint after any of its steps. A crash leaves the files as the failure at that point
    does; writes that were synced survive it. *)

From S2P Require Import Prelude Crypto Identity Wire RoundNetwork.

Definition MAX_WAL_BYTES : Z := 64 * 1024 * 1024.

Inductive WalOperation :=
| AddFriend (uid addr : string) (trust : Z)
| RemoveFriend (uid : string)
| UpdateTrust (uid : string) (trust : Z)
| CreateChannel (name : string)
| JoinChannel (channel uid : string)
| LeaveChannel (channel uid : string)
| CreateNetwork (name admin : string)
| AddMember (network uid : string)
| RemoveMember (network uid : string)
| SetUid (uid : string)
| UpdateEdgeKey (uid key_hex : string)
| SendMessage (from to text : string).

Record FriendRecord := mkFriendRecord {
  fr_uid : string; fr_addr : string; fr_trust : Z; fr_edge_key_hex : option string;
}.

Record ChannelRecord := mkChannelRecord {
  cr_name : string; cr_topic : string; cr_participants : list string;
}.

Record SocialSnapshot := mkSnapshot {
  ss_uid : string; ss_friends : list FriendRecord; ss_channels : list ChannelRecord;
}.

(** [serde_json::to_string] of an operation, [to_string_pretty] of a snapshot, and the parsers. *)
Class StoreJson := {
  op_json : WalOperation -> string;
  op_of_json : string -> option WalOperation;
  snap_json : SocialSnapshot -> string;
  snap_of_json : string -> option SocialSnapshot;
}.

(** The compact form of a tagged enum is one line between braces, and a text that ends before the
    closing brace does not parse. *)
Class StoreJsonLaws `{StoreJson} : Prop := {
  op_round_trip : forall op, op_of_json (op_json op) = Some op;
  op_utf8 : forall op, str_ok (op_json op);
  op_line : forall op, exists body, string_bytes (op_json op) = 123 :: body ++ [125] /\ 10 ∉ body;
  op_closed : forall op n, (n < length (string_bytes (op_json op)))%nat ->
    op_of_json (bytes_string (take n (string_bytes (op_json op)))) = None;
  snap_round_trip : forall s, snap_of_json (snap_json s) = Some s;
  snap_utf8 : forall s, str_ok (snap_json s);
}.

(** [str::find('{')] with the slice from there. *)
Fixpoint from_brace (line : bytes) : option bytes :=
  match line with
  | [] => None
  | b :: r => if b =? 123 then Some line else from_brace r
  end.

(** [BufRead::lines]: split at line feeds, dropping a carriage return before one; what follows the
    last line feed is a line when it is not empty. [acc] is the current line, reversed. *)
Definition chomp (rev_line : bytes) : bytes :=
  match rev_line with
  | b :: r => if b =? 13 then rev r else rev rev_line
  | [] => []
  end.

Fixpoint lines_from (acc : bytes) (bs : bytes) : list bytes :=
  match bs with
  | [] => if bool_decide (acc = []) then [] else [rev acc]
  | b :: r => if b =? 10 then chomp acc :: lines_from [] r else lines_from (b :: acc) r
  end.

Definition lines (bs : bytes) : list bytes := lines_from [] bs.

(** [.map_while(Result::ok)]: a line that is not UTF-8 ends the iteration. *)
Fixpoint ok_lines (ls : list bytes) : list bytes :=
  match ls with
  | [] => []
  | l :: r => if utf8_valid l then l :: ok_lines r else []
  end.

(** How an append ends: complete, or with an error after [n] bytes of the line reached the file. *)
Inductive AppendIo :=
| Appended
| Torn (n : nat).

(** How a write in place ends: complete, before the file was opened, or after [n] bytes. *)
Inductive WriteIo :=
| Written
| NotOpened
| Partly (n : nat).

(** How the steps of a checkpoint end. *)
Record CheckpointIo := mkCheckpointIo {
  io_tmp : bool;
  io_rename : bool;
  io_remove : bool;
  io_rename_again : bool;
  io_write : WriteIo;
  io_truncate : bool;
  io_sync : bool;
}.

Definition io_fine : CheckpointIo := mkCheckpointIo true true true true Written true true.

(** [identity::write_private_file]: the content of the file afterwards, and the result. *)
Definition write_private_file (io : WriteIo) (old : option string) (contents : string)
    : option string * result unit string :=
  match io with
  | Written => (Some contents, Ok tt)
  | NotOpened => (old, Err "open failed")
  | Partly n => (Some (bytes_string (take n (string_bytes contents))), Err "write failed")
  end.

Module WalStore.

Record t := mk {
  wal_log : bytes;
  state_json : option string;
  ops_since_checkpoint : Z;
  last_checkpoint : Z;
  checkpoint_ops : Z;
  checkpoint_interval : Z;
}.

(** Opening the files a previous run left. *)
Definition open (log : bytes) (state : option string) (ops now : Z) : t :=
  mk log state 0 now ops (from_secs 60).

Section WithJson.
Context `{StoreJson}.

(** [format!("[{}] {}\n", ts, json)]. *)
Definition log_line (ts : Z) (op : WalOperation) : bytes :=
  string_bytes ("[" +:+ fmt ts +:+ "] " +:+ op_json op) ++ [10].

Definition append (io : AppendIo) (ts : Z) (w : t) (op : WalOperation) : t * result unit string :=
  match io with
  | Appended =>
      (mk (wal_log w ++ log_line ts op) (state_json w) (ops_since_checkpoint w +₆₄ 1) (last_checkpoint w)
         (checkpoint_ops w) (checkpoint_interval w), Ok tt)
  | Torn n =>
      (mk (wal_log w ++ take n (log_line ts op)) (state_json w) (ops_since_checkpoint w) (last_checkpoint w)
         (checkpoint_ops w) (checkpoint_interval w), Err "write failed")
  end.

(** The loop body of [replay]. *)
Definition parse_line (line : bytes) : option WalOperation :=
  json ← from_brace line; op_of_json (bytes_string json).

Definition replay (w : t) : list WalOperation :=
  if zlen (wal_log w) >? MAX_WAL_BYTES then []
  else omap parse_line (ok_lines (lines (wal_log w))).

(** Step 2: the content of [state.json], and the result. The first rename replaces the file; when
    it fails the file is removed and the rename tried again, and when that fails too the text is
    written in place. *)
Definition replace_state (io : CheckpointIo) (old : option string) (json : string)
    : option string * result unit string :=
  if io_rename io then (Some json, Ok tt)
  else
    let old := if io_remove io then None else old in
    if io_rename_again io then (Some json, Ok tt)
    else write_private_file (io_write io) old json.

Definition set_files (w : t) (log : bytes) (state : option string) : t :=
  mk log state (ops_since_checkpoint w) (last_checkpoint w) (checkpoint_ops w) (checkpoint_interval w).

(** Temporary file, then [state.json], then the log. *)
Definition checkpoint (io : CheckpointIo) (now : Z) (w : t) (state : SocialSnapshot) : t * result unit string :=
  if negb (io_tmp io) then (w, Err "write failed")
  else
    match replace_state io (state_json w) (snap_json state) with
    | (file, Err e) => (set_files w (wal_log w) file, Err e)
    | (file, Ok _) =>
        if negb (io_truncate io) then (set_files w (wal_log w) file, Err "open failed")
        else if negb (io_sync io) then (set_files w [] file, Err "sync failed")
        else (mk [] file 0 now (checkpoint_ops w) (checkpoint_interval w), Ok tt)
    end.

Definition should_checkpoint (now : Z) (w : t) : bool :=
  (checkpoint_ops w <=? ops_since_checkpoint w) || (checkpoint_interval w <=? now - last_checkpoint w).

Definition ops_count (w : t) : Z := ops_since_checkpoint w.
Definition time_since_checkpoint (now : Z) (w : t) : Z := now - last_checkpoint w.

Definition load_state (w : t) : option SocialSnapshot :=
  json ← state_json w; if utf8_valid (string_bytes json) then snap_of_json json else None.

End WithJson.
End WalStore.

Abbreviation WalStore := WalStore.t.

(** ** Lemmas *)

Module StorageFacts.
Import WalStore.
Section Facts.
Context `{StoreJson, !StoreJsonLaws}.

Lemma lines_from_line acc l r : 10 ∉ l -> lines_from acc (l ++ 10 :: r) = chomp (rev l ++ acc) :: lines r.
Proof.
  revert acc. induction l as [|b l IH]; intros acc Hl; [done|].
  apply not_elem_of_cons in Hl as [Hb Hl]. cbn [app lines_from].
  rewrite (proj2 (Z.eqb_neq _ _)) by congruence. rewrite IH by done. cbn [rev]. by rewrite <-app_assoc.
Qed.

Lemma chomp_rev l b : b <> 13 -> chomp (rev (l ++ [b])) = l ++ [b].
Proof.
  intros Hb. rewrite rev_app_distr. cbn [rev app chomp].
  rewrite (proj2 (Z.eqb_neq _ _)) by done. by rewrite rev_involutive.
Qed.

(** What [Display] prints for an integer: digits and a minus sign. *)
Lemma fmt_bytes z : Forall (fun b => 45 <= b < 58) (string_bytes (fmt z)).
Proof.
  assert (Hc : forall x, 45 <= ascii_byte (pretty_N_char x) < 58).
  { intros x. unfold pretty_N_char, ascii_byte. repeat case_match; vm_compute; done. }
  assert (Hgo : forall x s, Forall (fun b => 45 <= b < 58) (string_bytes s) ->
            Forall (fun b => 45 <= b < 58) (string_bytes (pretty_N_go x s))).
  { intros x. induction (N.lt_wf_0 x) as [x _ IH]. intros s Hs.
    destruct (decide (x = 0%N)) as [->|Hx]; [by rewrite pretty_N_go_0|].
    rewrite pretty_N_go_step by lia. apply IH; [apply N.div_lt; lia|]. cbn [string_bytes]. by constructor. }
  assert (HN : forall n, Forall (fun b => 45 <= b < 58) (string_bytes (@pretty N _ n))).
  { intros n. unfold pretty, pretty_N. case_decide; [repeat constructor; vm_compute; done|]. apply Hgo. constructor. }
  unfold fmt, pretty, pretty_Z. destruct z as [|q|q].
  - repeat constructor; vm_compute; done.
  - apply HN.
  - rewrite string_bytes_app. apply Forall_app. split; [repeat constructor; vm_compute; done|apply HN].
Qed.

Lemma utf8_valid_ascii a b : Forall (fun c => c < 128) a -> utf8_valid (a ++ b) = utf8_valid b.
Proof. induction 1; [done|]. cbn [app utf8_valid]. by rewrite (proj2 (Z.ltb_lt _ _)). Qed.

Lemma from_brace_app a b : 123 ∉ a -> from_brace (a ++ 123 :: b) = Some (123 :: b).
Proof.
  induction a as [|c a IH]; intros Ha; [done|]. apply not_elem_of_cons in Ha as [Hc Ha]. cbn [app from_brace].
  rewrite (proj2 (Z.eqb_neq _ _)) by congruence. auto.
Qed.

Lemma from_brace_none a : 123 ∉ a -> from_brace a = None.
Proof.
  induction a as [|c a IH]; intros Ha; [done|]. apply not_elem_of_cons in Ha as [Hc Ha]. cbn [from_brace].
  rewrite (proj2 (Z.eqb_neq _ _)) by congruence. auto.
Qed.

(** The time stamp in front of an entry. *)
Definition stamp (ts : Z) : bytes := string_bytes ("[" +:+ fmt ts +:+ "] ").

Lemma stamp_range ts : Forall (fun b => 32 <= b < 94) (stamp ts).
Proof.
  unfold stamp. rewrite !string_bytes_app. apply Forall_app. split; [repeat constructor; vm_compute; done|].
  apply Forall_app. split; [|repeat constructor; vm_compute; done].
  eapply Forall_impl; [apply fmt_bytes|]. simpl. lia.
Qed.

Lemma stamp_avoids ts b : 94 <= b \/ b < 32 -> b ∉ stamp ts.
Proof. intros Hb Hin. pose proof (stamp_range ts) as HF. rewrite Forall_forall in HF. specialize (HF _ Hin). lia. Qed.

Lemma log_line_eq ts op : log_line ts op = (stamp ts ++ string_bytes (op_json op)) ++ [10].
Proof. unfold log_line, stamp. by rewrite !string_bytes_app, <-!app_assoc. Qed.

(** One entry of the log, read back. *)
Lemma read_entry ts op rest :
  omap parse_line (ok_lines (lines (log_line ts op ++ rest))) = op :: omap parse_line (ok_lines (lines rest)).
Proof.
  destruct (op_line op) as (body & Hj & Hb).
  rewrite log_line_eq, <-app_assoc. cbn [app]. unfold lines at 1. rewrite lines_from_line.
  2: { rewrite Hj, not_elem_of_app, not_elem_of_cons, not_elem_of_app, list_elem_of_singleton.
       split; [apply stamp_avoids; lia|]. split; [done|]. by split. }
  rewrite app_nil_r.
  rewrite Hj, app_comm_cons, app_assoc, chomp_rev, <-app_assoc, <-app_comm_cons, <-Hj by done.
  cbn [ok_lines]. rewrite utf8_valid_ascii by (eapply Forall_impl; [apply stamp_range|]; simpl; lia).
  rewrite op_utf8. cbn [omap list_omap]. unfold parse_line at 1.
  rewrite Hj, from_brace_app by (apply stamp_avoids; lia). cbn [mbind option_bind].
  by rewrite <-Hj, bytes_string_bytes, op_round_trip.
Qed.

(** The log a sequence of appends writes. *)
Definition log_of (l : list (Z * WalOperation)) : bytes := concat ((fun p => log_line p.1 p.2) <$> l).

(** The end of a log, where the last line has no line feed. *)
Lemma replay_tail l bs :
  omap parse_line (ok_lines (lines (log_of l ++ bs))) = l.*2 ++ omap parse_line (ok_lines (lines bs)).
Proof.
  unfold log_of. induction l as [|[ts op] l IH]; [done|]. cbn [fmap list_fmap concat fst snd].
  rewrite <-app_assoc, read_entry. cbn [app]. f_equal. exact IH.
Qed.

Lemma replay_log l w :
  wal_log w = log_of l -> zlen (wal_log w) <= MAX_WAL_BYTES -> replay w = l.*2.
Proof.
  intros E Hl. unfold replay. rewrite Z.gtb_ltb, (proj2 (Z.ltb_ge _ _)) by done.
  by rewrite E, <-(app_nil_r (log_of l)), replay_tail, app_nil_r.
Qed.

Lemma lines_last bs : 10 ∉ bs -> lines bs = if bool_decide (bs = []) then [] else [bs].
Proof.
  intros Hb. unfold lines. assert (Hgen : forall acc, lines_from acc bs = if bool_decide (rev acc ++ bs = []) then [] else [rev acc ++ bs]).
  { induction bs as [|b bs IH]; intros acc; cbn [lines_from].
    - rewrite app_nil_r. repeat case_bool_decide; try done; exfalso.
      + by subst.
      + match goal with E : rev acc = [] |- _ => apply (f_equal length) in E; rewrite length_rev in E end. by destruct acc.
    - apply not_elem_of_cons in Hb as [Hb Hbs]. rewrite (proj2 (Z.eqb_neq _ _)) by congruence.
      rewrite IH by done. cbn [rev]. by rewrite <-app_assoc. }
  apply Hgen.
Qed.

Lemma checkpoint_ok io now w s :
  (checkpoint io now w s).2 = Ok tt ->
  (checkpoint io now w s).1 = mk [] (Some (snap_json s)) 0 now (checkpoint_ops w) (checkpoint_interval w).
Proof. unfold checkpoint, replace_state, write_private_file. repeat case_match; simplify_eq/=; done. Qed.

End Facts.
End StorageFacts.

(** ** A concrete serializer *)

Module ToyStore.
Import ToyJson.

Definition op_enc (op : WalOperation) : nat * list string * Z :=
  match op with
  | AddFriend a b t => (0, [a; b], t)
  | RemoveFriend a => (1, [a], 0%Z)
  | UpdateTrust a t => (2, [a], t)
  | CreateChannel a => (3, [a], 0%Z)
  | JoinChannel a b => (4, [a; b], 0%Z)
  | LeaveChannel a b => (5, [a; b], 0%Z)
  | CreateNetwork a b => (6, [a; b], 0%Z)
  | AddMember a b => (7, [a; b], 0%Z)
  | RemoveMember a b => (8, [a; b], 0%Z)
  | SetUid a => (9, [a], 0%Z)
  | UpdateEdgeKey a b => (10, [a; b], 0%Z)
  | SendMessage a b c => (11, [a; b; c], 0%Z)
  end%nat.

Definition op_dec (e : nat * list string * Z) : option WalOperation :=
  match e with
  | (0, [a; b], t) => Some (AddFriend a b t)
  | (1, [a], _) => Some (RemoveFriend a)
  | (2, [a], t) => Some (UpdateTrust a t)
  | (3, [a], _) => Some (CreateChannel a)
  | (4, [a; b], _) => Some (JoinChannel a b)
  | (5, [a; b], _) => Some (LeaveChannel a b)
  | (6, [a; b], _) => Some (CreateNetwork a b)
  | (7, [a; b], _) => Some (AddMember a b)
  | (8, [a; b], _) => Some (RemoveMember a b)
  | (9, [a], _) => Some (SetUid a)
  | (10, [a; b], _) => Some (UpdateEdgeKey a b)
  | (11, [a; b; c], _) => Some (SendMessage a b c)
  | _ => None
  end%nat.

Definition friend_enc (f : FriendRecord) : string * string * Z * option string :=
  (fr_uid f, fr_addr f, fr_trust f, fr_edge_key_hex f).
Definition friend_dec (e : string * string * Z * option string) : FriendRecord :=
  let '(a, b, c, d) := e in mkFriendRecord a b c d.
Definition channel_enc (c : ChannelRecord) : string * string * list string :=
  (cr_name c, cr_topic c, cr_participants c).
Definition channel_dec (e : string * string * list string) : ChannelRecord :=
  let '(a, b, c) := e in mkChannelRecord a b c.

Definition snap_enc (s : SocialSnapshot) :=
  (ss_uid s, friend_enc <$> ss_friends s, channel_enc <$> ss_channels s).
Definition snap_dec (e : string * list (string * string * Z * option string) * list (string * string * list string)) :=
  let '(a, b, c) := e in mkSnapshot a (friend_dec <$> b) (channel_dec <$> c).

Lemma digits_range p : Forall (fun b => 48 <= b < 50) (string_bytes (digits p)).
Proof. induction p; cbn [digits string_bytes]; constructor; try done; vm_compute; done. Qed.

(** A number as text between braces; a text without the closing brace is none. *)
Definition closed (p : positive) : string := bytes_string (123 :: string_bytes (digits p) ++ [125]).
Definition unclosed (s : string) : option positive :=
  if bool_decide (last (string_bytes s) = Some 125)
  then Some (value (bytes_string (removelast (tail (string_bytes s))))) else None.

Lemma closed_bytes p : string_bytes (closed p) = 123 :: string_bytes (digits p) ++ [125].
Proof.
  apply string_bytes_string. constructor; [done|]. apply Forall_app. split; [|by repeat constructor].
  eapply Forall_impl; [apply digits_range|]. unfold is_byte. simpl. lia.
Qed.

Lemma unclosed_closed p : unclosed (closed p) = Some p.
Proof.
  unfold unclosed. rewrite closed_bytes, app_comm_cons. rewrite bool_decide_eq_true_2 by apply last_snoc.
  cbn [app tail]. by rewrite removelast_last, bytes_string_bytes, value_digits.
Qed.

Lemma closed_utf8 p : utf8_valid (string_bytes (closed p)) = true.
Proof.
  rewrite closed_bytes. cbn [utf8_valid].
  rewrite StorageFacts.utf8_valid_ascii; [done|]. eapply Forall_impl; [apply digits_range|]. simpl. lia.
Qed.

Lemma unclosed_torn p n : (n < length (string_bytes (closed p)))%nat ->
  unclosed (bytes_string (take n (string_bytes (closed p)))) = None.
Proof.
  intros Hn. unfold unclosed. rewrite string_bytes_string by (apply Forall_take, string_bytes_ok).
  rewrite closed_bytes in *. set (d := string_bytes (digits _)) in *.
  rewrite bool_decide_eq_false_2; [done|]. intros Hl. apply last_Some_elem_of in Hl.
  rewrite length_cons, length_app in Hn. cbn [length] in Hn. rewrite app_comm_cons, take_app_le in Hl by (cbn; lia).
  apply elem_of_take in Hl as (i & Hi & _). apply list_elem_of_lookup_2, elem_of_cons in Hi as [?|Hi]; [done|].
  pose proof (digits_range p) as HF. rewrite Forall_forall in HF. specialize (HF _ Hi). lia.
Qed.

Definition toy_store : StoreJson := {|
  op_json op := closed (encode (op_enc op));
  op_of_json s := p ← unclosed s; e ← decode p; op_dec e;
  snap_json s := digits (encode (snap_enc s));
  snap_of_json s := snap_dec <$> decode (value s);
|}.

Lemma toy_store_laws : @StoreJsonLaws toy_store.
Proof.
  split.
  - intros op. cbn [op_json op_of_json toy_store]. rewrite unclosed_closed. cbn. rewrite decode_encode. by destruct op.
  - intros op. apply closed_utf8.
  - intros op. cbn [op_json toy_store]. rewrite closed_bytes. eexists. split; [done|]. intros Hin. pose proof (digits_range (encode (op_enc op))) as HF.
    rewrite Forall_forall in HF. specialize (HF _ Hin). lia.
  - intros op n Hn. cbn [op_json op_of_json toy_store] in *. by rewrite unclosed_torn.
  - intros s. cbn [snap_json snap_of_json toy_store]. rewrite value_digits, decode_encode. cbn. destruct s as [u fs cs].
    unfold snap_dec, snap_enc. cbn. rewrite <-!list_fmap_compose. f_equal. f_equal.
    + rewrite <-(list_fmap_id fs) at 2. apply list_fmap_ext. by intros ? [].
    + rewrite <-(list_fmap_id cs) at 2. apply list_fmap_ext. by intros ? [].
  - intros s. unfold str_ok. cbn [snap_json toy_store]. rewrite <-(app_nil_r (string_bytes _)).
    rewrite StorageFacts.utf8_valid_ascii; [done|]. eapply Forall_impl; [apply digits_range|]. simpl. lia.
Qed.

End ToyStore.

#[export] Existing Instance ToyStore.toy_store_laws.

(** ** Crashes *)

Section CrashSafety.
Context `{StoreJson, !StoreJsonLaws}.
Import WalStore StorageFacts.

(** A log that ends inside an entry. *)
Lemma torn_entry ts op n :
  let text := stamp ts ++ string_bytes (op_json op) in
  omap parse_line (ok_lines (lines (take n text))) = if (length text <=? n)%nat then [op] else [].
Proof.
  intros text. destruct (op_line op) as (body & Hj & Hb).
  assert (Hnl : 10 ∉ text).
  { unfold text. rewrite Hj, not_elem_of_app, not_elem_of_cons, not_elem_of_app, list_elem_of_singleton.
    split; [apply stamp_avoids; lia|]. split; [done|]. by split. }
  rewrite lines_last by (intros Hin; apply Hnl; by eapply elem_of_take in Hin as (i & ?%list_elem_of_lookup_2 & _)).
  case_bool_decide as He.
  { destruct (Nat.leb_spec (length text) n) as [Hle|]; [|done]. rewrite take_ge in He by done.
    unfold text in He. rewrite Hj in He. by destruct (stamp ts). }
  cbn [ok_lines]. destruct (Nat.leb_spec (length text) n) as [Hle|Hlt].
  - rewrite take_ge by done. unfold text.
    rewrite utf8_valid_ascii by (eapply Forall_impl; [apply stamp_range|]; simpl; lia).
    rewrite op_utf8. cbn [omap list_omap]. unfold parse_line.
    rewrite Hj, from_brace_app by (apply stamp_avoids; lia). cbn [mbind option_bind].
    by rewrite <-Hj, bytes_string_bytes, op_round_trip.
  - destruct (utf8_valid _); [|done]. cbn [omap list_omap]. replace (parse_line (take n text)) with (@None WalOperation); [done|].
    unfold parse_line, text in *. rewrite take_app. rewrite length_app in Hlt.
    destruct (n - length (stamp ts))%nat as [|m] eqn:Em.
    + rewrite take_0, app_nil_r. rewrite from_brace_none; [done|].
      intros (i & Hi%list_elem_of_lookup_2 & _)%elem_of_take. by apply (stamp_avoids ts 123) in Hi; [|lia].
    + rewrite take_ge by lia. rewrite Hj. cbn [take]. rewrite from_brace_app by (apply stamp_avoids; lia).
      cbn [mbind option_bind]. change (123 :: take m (body ++ [125])) with (take (S m) (123 :: body ++ [125])).
      rewrite <-Hj, op_closed; [done|lia].
Qed.

(** An append is all or nothing for the next start. Wherever the write of an entry stops, at a
    crash or with an error, the log replays to the operations before it, and to the new one
    as well exactly if the text up to its closing brace reached the file. *)
Theorem torn_append_replays l ts op n w :
  let w' := (append (Torn n) ts w op).1 in
  wal_log w = log_of l -> zlen (wal_log w') <= MAX_WAL_BYTES ->
  replay w' = l.*2 ++ (if (length (log_line ts op) <=? S n)%nat then [op] else []).
Proof.
  intros w' Hw Hsz. unfold replay. rewrite Z.gtb_ltb, (proj2 (Z.ltb_ge _ _)) by done.
  unfold w', append. cbn [fst wal_log]. rewrite Hw, replay_tail. f_equal.
  pose proof (log_line_eq ts op) as Hl.
  pose proof (torn_entry ts op n) as Ht. cbn zeta in Ht. rewrite Hl, length_app. cbn [length].
  rewrite take_app. destruct (Nat.leb_spec (length (stamp ts ++ string_bytes (op_json op))) n) as [Hle|Hlt].
  - rewrite (proj2 (Nat.leb_le _ _)) by lia. destruct (n - length (stamp ts ++ string_bytes (op_json op)))%nat eqn:Em.
    + by rewrite take_0, app_nil_r.
    + rewrite (take_ge [10]) by (cbn; lia). rewrite take_ge by done. rewrite <-Hl, <-(app_nil_r (log_line _ _)). apply read_entry.
  - rewrite (proj2 (Nat.leb_gt _ _)) by lia. replace (n - _)%nat with 0%nat by lia. by rewrite take_0, app_nil_r.
Qed.

(** C26: A checkpoint loses nothing, whichever of its file operations fail. The log is emptied only when the new
    snapshot is the one that will be loaded; as long as one of the two renames works, the snapshot
    is the old or the new one. A checkpoint that reports success has both, and one that
    reports an error leaves the next one due. *)
Theorem checkpoint_crash_safe io now w s :
  let w' := (checkpoint io now w s).1 in
  (wal_log w' = wal_log w \/ wal_log w' = [] /\ load_state w' = Some s) /\
  (io_rename io = true \/ io_rename_again io = true -> load_state w' = load_state w \/ load_state w' = Some s) /\
  ((checkpoint io now w s).2 = Ok tt -> load_state w' = Some s /\ replay w' = [] /\ ops_count w' = 0) /\
  ((checkpoint io now w s).2 <> Ok tt -> forall later, should_checkpoint later w' = should_checkpoint later w).
Proof.
  assert (Hs : (if utf8_valid (string_bytes (snap_json s)) then snap_of_json (snap_json s) else None) = Some s).
  { by rewrite snap_utf8, snap_round_trip. }
  unfold checkpoint, replace_state, write_private_file, load_state, replay, should_checkpoint.
  destruct (io_tmp io), (io_rename io), (io_rename_again io), (io_write io), (io_truncate io), (io_sync io);
    cbn; rewrite ?Hs; split_and!; auto; intros; try done; naive_solver.
Qed.

End CrashSafety.

Module StorageWitness.
#[local] Existing Instance ToyStore.toy_store.

(** The crash comes one byte before the end: only the line feed is missing. *)
Lemma torn_append_replays_witness :
  let w := WalStore.open (StorageFacts.log_of [(5, SetUid "alice")]) None 100 0 in
  let n := pred (length (WalStore.log_line 6 (CreateChannel "den"))) in
  WalStore.replay (WalStore.append (Torn n) 6 w (CreateChannel "den")).1 = [SetUid "alice"; CreateChannel "den"].
Proof.
  etransitivity; [apply (torn_append_replays [(5, SetUid "alice")])|vm_compute; reflexivity].
  - reflexivity.
  - vm_compute. discriminate.
Defined.

(** The disk fills up when the log is about to be emptied: the log is still there. *)
Lemma checkpoint_crash_safe_witness :
  let w := WalStore.open (StorageFacts.log_of [(5, SetUid "alice")]) None 100 0 in
  let io := mkCheckpointIo true true true true Written false true in
  let s := mkSnapshot "alice" [] [] in
  WalStore.load_state (WalStore.checkpoint io 7 w s).1 = Some s /\
  WalStore.replay (WalStore.checkpoint io 7 w s).1 = [SetUid "alice"].
Proof.
  intros w io s. destruct (checkpoint_crash_safe io 7 w s) as (_ & Hs & _).
  split; [|vm_compute; reflexivity].
  destruct (Hs (or_introl eq_refl)) as [E|E]; [vm_compute in E; discriminate|exact E].
Defined.

End StorageWitness.
