(* ===== verification/F2f.v ===== *)
(** [dcnet/f2f.rs]: the friend-to-friend bridge. Friends with their edge keys, channels with their
    groups, and the write-ahead log that makes them durable; recovery as [app.rs] runs it.

    Random keys are arguments. One [Env] gives the clock readings of an operation and how its file
    operations end. The flag [running] of a channel is the value of its atomic cell. *)

From S2P Require Import Prelude Crypto Identity Wire Float64 Dcnet RoundNetwork Group Storage.

(** [EdgeKey::to_hex] and [EdgeKey::from_hex]. *)
Definition to_hex (key : bytes) : string := hex_encode key.
Definition from_hex (hex : string) : option bytes := bs ← hex_decode hex; array32 bs.

Record F2fFriend := mkFriend {
  ff_uid : string;
  ff_peer_id : bytes;
  trust_level : Z;
  transport_address : string;
  edge_key : bytes;
}.

Record ChannelInfo := mkChannel {
  ch_name : string;
  topic : string;
  ch_participants : list string;
  ch_round_id : Z;
  running : bool;
}.

Record Env := mkEnv {
  e_now : Z;
  e_ts : Z;
  e_append : AppendIo;
  e_checkpoint : CheckpointIo;
}.

Module F2fDcNetBridge.

Record t := mk {
  friends : gmap string F2fFriend;
  channels : gmap string ChannelInfo;
  groups : gmap string DcGroup;
  reputation : ReputationManager.t;
  my_uid : string;
  current_channel : option string;
  min_trust : Z;
  wal : option WalStore;
}.

Definition new (uid : string) : t := mk ∅ ∅ ∅ ReputationManager.new uid None 1 None.

Definition set_friends (b : t) (x : gmap string F2fFriend) : t :=
  mk x (channels b) (groups b) (reputation b) (my_uid b) (current_channel b) (min_trust b) (wal b).
Definition set_channels (b : t) (x : gmap string ChannelInfo) (y : gmap string DcGroup) : t :=
  mk (friends b) x y (reputation b) (my_uid b) (current_channel b) (min_trust b) (wal b).
Definition set_uid (b : t) (x : string) : t :=
  mk (friends b) (channels b) (groups b) (reputation b) x (current_channel b) (min_trust b) (wal b).
Definition set_wal (b : t) (x : option WalStore) : t :=
  mk (friends b) (channels b) (groups b) (reputation b) (my_uid b) (current_channel b) (min_trust b) x.
Definition set_current (b : t) (x : option string) : t :=
  mk (friends b) (channels b) (groups b) (reputation b) (my_uid b) x (min_trust b) (wal b).

Definition attach_wal (b : t) (w : WalStore) : t := set_wal b (Some w).

(** Replacing the participant list, or the topic, of a channel. *)
Definition with_participants (ps : list string) (c : ChannelInfo) : ChannelInfo :=
  mkChannel (ch_name c) (topic c) ps (ch_round_id c) (running c).
Definition with_topic (tp : string) (c : ChannelInfo) : ChannelInfo :=
  mkChannel (ch_name c) tp (ch_participants c) (ch_round_id c) (running c).
Definition with_trust (tr : Z) (f : F2fFriend) : F2fFriend :=
  mkFriend (ff_uid f) (ff_peer_id f) tr (transport_address f) (edge_key f).
Definition with_key (k : bytes) (f : F2fFriend) : F2fFriend :=
  mkFriend (ff_uid f) (ff_peer_id f) (trust_level f) (transport_address f) k.

Section Bridge.
Context `{Crypto, StoreJson}.

Definition uid_to_peer (uid : string) : bytes := sha256_digest (string_bytes uid).

(** [F2fFriend::new] with the key it generates; [with_edge_key] overwrites it. *)
Definition friend_new (key : bytes) (uid addr : string) (trust : Z) : F2fFriend :=
  mkFriend uid (sha256_digest (string_bytes uid)) (Z.min trust 2) addr key.

Definition with_edge_key (drawn : bytes) (uid addr : string) (trust : Z) (key : bytes) : F2fFriend :=
  with_key key (friend_new drawn uid addr trust).

Definition snapshot_bridge (b : t) : SocialSnapshot :=
  mkSnapshot (my_uid b)
    ((fun p => mkFriendRecord p.1 (transport_address p.2) (trust_level p.2) (Some (to_hex (edge_key p.2))))
       <$> map_to_list (friends b))
    ((fun c => mkChannelRecord (ch_name c) (topic c) (ch_participants c)) <$> (map_to_list (channels b)).*2).

(** A failed append is logged and forgotten. *)
Definition log_wal (e : Env) (b : t) (op : WalOperation) : t :=
  match wal b with
  | None => b
  | Some w =>
      let '(w, _) := WalStore.append (e_append e) (e_ts e) w op in
      let b := set_wal b (Some w) in
      if WalStore.should_checkpoint (e_now e) w then
        set_wal b (Some (WalStore.checkpoint (e_checkpoint e) (e_now e) w (snapshot_bridge b)).1)
      else b
  end.

Definition checkpoint_wal (e : Env) (b : t) : t :=
  match wal b with
  | None => b
  | Some w => set_wal b (Some (WalStore.checkpoint (e_checkpoint e) (e_now e) w (snapshot_bridge b)).1)
  end.

Definition wal_ops_pending (b : t) : Z :=
  match wal b with Some w => WalStore.ops_count w | None => 0 end.

Definition create_channel_no_log (b : t) (name : string) : t * bool :=
  if bool_decide (is_Some (channels b !! name)) then (b, false)
  else
    let group := DcGroup.new (sha256_digest (string_bytes name)) 2 1 in
    let group := DcGroup.join group (uid_to_peer (my_uid b)) in
    (set_channels b (<[name := mkChannel name "" [my_uid b] 0 false]> (channels b))
       (<[name := group]> (groups b)), true).

(** The loop of [join_channel_no_log]: channel, group and the uids joined so far. *)
Definition join_one (b : t) (acc : ChannelInfo * DcGroup * list string) (uid : string)
    : ChannelInfo * DcGroup * list string :=
  let '(ch, group, joined) := acc in
  if bool_decide (uid = my_uid b) then acc
  else
    match friends b !! uid with
    | Some f =>
        if (min_trust b <=? trust_level f) && negb (bool_decide (uid ∈ ch_participants ch)) then
          (with_participants (ch_participants ch ++ [uid]) ch, DcGroup.join group (ff_peer_id f), joined ++ [uid])
        else acc
    | None => acc
    end.

Definition join_channel_no_log (b : t) (channel : string) (uids : list string) : t * list string :=
  match channels b !! channel, groups b !! channel with
  | Some ch, Some group =>
      let '(ch, group, joined) := foldl (join_one b) (ch, group, []) uids in
      (set_channels b (<[channel := ch]> (channels b)) (<[channel := group]> (groups b)), joined)
  | _, _ => (b, [])
  end.

(** Dropping a participant from the list of a channel. *)
Definition retain_channel (b : t) (name uid : string) : gmap string ChannelInfo :=
  alter (fun c => with_participants (filter (fun u => u <> uid) (ch_participants c)) c) name (channels b).

Definition leave_channel_no_log (b : t) (name : string) : t :=
  set_channels b (retain_channel b name (my_uid b))
    (alter (fun g => DcGroup.leave g (uid_to_peer (my_uid b))) name (groups b)).

(** [key] is what [F2fFriend::new] draws. *)
Definition apply_op_no_log (b : t) (op : WalOperation) (key : bytes) : t :=
  match op with
  | AddFriend uid addr trust => set_friends b (<[uid := friend_new key uid addr trust]> (friends b))
  | RemoveFriend uid => set_friends b (delete uid (friends b))
  | UpdateTrust uid trust => set_friends b (alter (with_trust (Z.min trust 2)) uid (friends b))
  | UpdateEdgeKey uid key_hex =>
      match from_hex key_hex with
      | Some k => set_friends b (alter (with_key k) uid (friends b))
      | None => b
      end
  | CreateChannel name => (create_channel_no_log b name).1
  | JoinChannel channel uid => (join_channel_no_log b channel [uid]).1
  | LeaveChannel channel uid =>
      if bool_decide (uid = my_uid b) then leave_channel_no_log b channel
      else
        match channels b !! channel with
        | Some _ => set_channels b (retain_channel b channel uid)
                      (alter (fun g => DcGroup.leave g (uid_to_peer uid)) channel (groups b))
        | None => b
        end
  | SetUid uid => set_uid b uid
  | _ => b
  end.

Definition add_friend (e : Env) (key : bytes) (b : t) (uid addr : string) (trust : Z) : t :=
  let b := log_wal e b (AddFriend uid addr trust) in
  set_friends b (<[uid := friend_new key uid addr trust]> (friends b)).

Definition remove_friend (e : Env) (b : t) (uid : string) : t :=
  let b := log_wal e b (RemoveFriend uid) in set_friends b (delete uid (friends b)).

Definition is_friend (b : t) (uid : string) : bool := bool_decide (is_Some (friends b !! uid)).

Definition update_trust (e : Env) (b : t) (uid : string) (trust : Z) : t :=
  let b := log_wal e b (UpdateTrust uid trust) in
  set_friends b (alter (with_trust (Z.min trust 2)) uid (friends b)).

Definition set_edge_key (e : Env) (b : t) (uid : string) (key : bytes) : t * bool :=
  if negb (bool_decide (is_Some (friends b !! uid))) then (b, false)
  else
    let b := log_wal e b (UpdateEdgeKey uid (to_hex key)) in
    (set_friends b (alter (with_key key) uid (friends b)), true).

Definition import_edge_key (e : Env) (b : t) (uid hex : string) : t * bool :=
  match from_hex hex with
  | Some k => set_edge_key e b uid k
  | None => (b, false)
  end.

Definition edge_key_hex (b : t) (uid : string) : option string := (fun f => to_hex (edge_key f)) <$> friends b !! uid.

Definition set_my_uid (e : Env) (b : t) (uid : string) : t := set_uid (log_wal e b (SetUid uid)) uid.

Definition edge_key_map (b : t) : gmap string bytes := edge_key <$> friends b.

Definition is_trusted (b : t) (uid : string) : bool :=
  match friends b !! uid with Some f => min_trust b <=? trust_level f | None => false end.

Definition get_trust (b : t) (uid : string) : Z :=
  match friends b !! uid with Some f => trust_level f | None => 0 end.

Definition create_channel (e : Env) (b : t) (name : string) : t * bool :=
  if bool_decide (is_Some (channels b !! name)) then (b, false)
  else create_channel_no_log (log_wal e b (CreateChannel name)) name.

(** The logging loop of [join_channel]. *)
Definition log_join (e : Env) (channel : string) (b : t) (uid : string) : t :=
  match channels b !! channel with
  | Some c =>
      if negb (bool_decide (uid ∈ ch_participants c)) && bool_decide (is_Some (friends b !! uid))
      then log_wal e b (JoinChannel channel uid) else b
  | None => b
  end.

Definition join_channel (e : Env) (b : t) (channel : string) (uids : list string) : t * list string :=
  join_channel_no_log (foldl (log_join e channel) b uids) channel uids.

Definition leave_channel (e : Env) (b : t) (name : string) : t :=
  leave_channel_no_log (log_wal e b (LeaveChannel name (my_uid b))) name.

Definition switch_channel (b : t) (name : string) : t * bool :=
  if bool_decide (is_Some (channels b !! name)) then (set_current b (Some name), true) else (b, false).

Definition set_topic (b : t) (channel tp : string) : t :=
  set_channels b (alter (with_topic tp) channel (channels b)) (groups b).

Definition list_participants (b : t) (name : string) : list string :=
  match channels b !! name with Some c => ch_participants c | None => [] end.

(** [fresh] gives the keys drawn while friends are rebuilt. *)
Definition restore_friend (fresh : string -> bytes) (m : gmap string F2fFriend) (f : FriendRecord) : gmap string F2fFriend :=
  let key := default (fresh (fr_uid f)) (hex ← fr_edge_key_hex f; from_hex hex) in
  <[fr_uid f := with_edge_key (fresh (fr_uid f)) (fr_uid f) (fr_addr f) (fr_trust f) key]> m.

Definition restore_channel (b : t) (c : ChannelRecord) : t :=
  let b := (create_channel_no_log b (cr_name c)).1 in
  set_channels b
    (alter (fun i => with_participants (cr_participants c) (with_topic (cr_topic c) i)) (cr_name c) (channels b))
    (alter (fun g => foldl DcGroup.join g (uid_to_peer <$> cr_participants c)) (cr_name c) (groups b)).

Definition apply_snapshot (fresh : string -> bytes) (b : t) (snap : SocialSnapshot) : t :=
  let b := set_channels (set_friends (set_uid b (ss_uid snap)) ∅) ∅ ∅ in
  let b := set_friends b (foldl (restore_friend fresh) (friends b) (ss_friends snap)) in
  foldl restore_channel b (ss_channels snap).

(** [for op in wal.replay() { bridge.apply_op_no_log(&op) }]; [draws] gives the keys drawn. *)
Fixpoint replay_ops (draws : nat -> bytes) (i : nat) (b : t) (ops : list WalOperation) : t :=
  match ops with
  | [] => b
  | op :: r => replay_ops draws (S i) (apply_op_no_log b op (draws i)) r
  end.

(** The start-up of [AppState::new_with_port]: snapshot, then log, then attach. *)
Definition recover (fresh : string -> bytes) (draws : nat -> bytes) (uid : string) (w : WalStore) : t :=
  let b := new uid in
  let b := match WalStore.load_state w with Some snap => apply_snapshot fresh b snap | None => b end in
  attach_wal (replay_ops draws 0 b (WalStore.replay w)) w.

End Bridge.
End F2fDcNetBridge.

Abbreviation F2fDcNetBridge := F2fDcNetBridge.t.

(** ** Runs of operations *)

Module F2fRun.
Import F2fDcNetBridge.

(** What a user does with the bridge. The bridge logs all of it but topics and the current channel. *)
Inductive event :=
| Befriend (uid addr : string) (trust : Z) (key : bytes)
| Unfriend (uid : string)
| Trust (uid : string) (trust : Z)
| Key (uid : string) (key : bytes)
| Nick (uid : string)
| Create (name : string)
| Join (channel : string) (uids : list string)
| Leave (channel : string)
| Topic (channel tp : string)
| Switch (name : string).

Section Run.
Context `{Crypto, StoreJson}.

Definition exec (e : Env) (b : t) (ev : event) : t :=
  match ev with
  | Befriend uid addr trust key => add_friend e key b uid addr trust
  | Unfriend uid => remove_friend e b uid
  | Trust uid trust => update_trust e b uid trust
  | Key uid key => (set_edge_key e b uid key).1
  | Nick uid => set_my_uid e b uid
  | Create name => (create_channel e b name).1
  | Join channel uids => (join_channel e b channel uids).1
  | Leave channel => leave_channel e b channel
  | Topic channel tp => set_topic b channel tp
  | Switch name => (switch_channel b name).1
  end.

(** Whether [join_channel] logs [uid]. *)
Definition joinable (b : t) (c : ChannelInfo) (uid : string) : Prop :=
  uid ∉ ch_participants c /\ is_Some (friends b !! uid).

#[export] Instance joinable_dec b c uid : Decision (joinable b c uid).
Proof. unfold joinable. apply _. Defined.

(** What an operation logs, with the key it draws. *)
Definition logged (b : t) (ev : event) : list (WalOperation * bytes) :=
  match ev with
  | Befriend uid addr trust key => [(AddFriend uid addr trust, key)]
  | Unfriend uid => [(RemoveFriend uid, [])]
  | Trust uid trust => [(UpdateTrust uid trust, [])]
  | Key uid key => if bool_decide (is_Some (friends b !! uid)) then [(UpdateEdgeKey uid (to_hex key), [])] else []
  | Nick uid => [(SetUid uid, [])]
  | Create name => if bool_decide (is_Some (channels b !! name)) then [] else [(CreateChannel name, [])]
  | Join channel uids =>
      match channels b !! channel with
      | Some c => (fun u => (JoinChannel channel u, [])) <$> filter (joinable b c) uids
      | None => []
      end
  | Leave channel => [(LeaveChannel channel (my_uid b), [])]
  | Topic _ _ | Switch _ => []
  end.

Fixpoint run (b : t) (l : list (Env * event)) : t :=
  match l with
  | [] => b
  | (e, ev) :: r => run (exec e b ev) r
  end.

(** The entries a run logs: time stamp, operation, drawn key. *)
Fixpoint entries (b : t) (l : list (Env * event)) : list (Z * WalOperation * bytes) :=
  match l with
  | [] => []
  | (e, ev) :: r => ((fun p => (e_ts e, p.1, p.2)) <$> logged b ev) ++ entries (exec e b ev) r
  end.

(** A key has the type [[u8; 32]]. *)
Definition event_ok (ev : event) : Prop :=
  match ev with
  | Key _ key | Befriend _ _ _ key => length key = 32%nat /\ bytes_ok key
  | _ => True
  end.

(** ** Lemmas *)

Definition apply_all (b : t) (l : list (WalOperation * bytes)) : t :=
  foldl (fun b p => apply_op_no_log b p.1 p.2) b l.

Lemma set_wal_id b : set_wal b (wal b) = b.
Proof. by destruct b. Qed.

Lemma log_wal_eq e b op : log_wal e b op = set_wal b (wal (log_wal e b op)).
Proof.
  unfold log_wal. destruct (wal b) as [w|] eqn:E; [|by rewrite set_wal_id].
  destruct (WalStore.append _ _ w op) as [w' r]. by destruct (WalStore.should_checkpoint _ _).
Qed.

Lemma join_channel_wal b w ch us :
  join_channel_no_log (set_wal b w) ch us =
    (set_wal (join_channel_no_log b ch us).1 w, (join_channel_no_log b ch us).2).
Proof.
  unfold join_channel_no_log. cbn [channels groups set_wal].
  change (join_one (set_wal b w)) with (join_one b).
  destruct (channels b !! ch), (groups b !! ch); try done. by destruct (foldl _ _ us) as [[? ?] ?].
Qed.

Lemma create_channel_wal b w name :
  create_channel_no_log (set_wal b w) name =
    (set_wal (create_channel_no_log b name).1 w, (create_channel_no_log b name).2).
Proof. unfold create_channel_no_log. cbn [channels set_wal]. by case_bool_decide. Qed.

(** No operation reads or writes the log store when replayed. *)
Lemma apply_op_wal b w op key : apply_op_no_log (set_wal b w) op key = set_wal (apply_op_no_log b op key) w.
Proof.
  destruct op; try done; cbn [apply_op_no_log].
  - by rewrite create_channel_wal.
  - by rewrite join_channel_wal.
  - cbn [my_uid set_wal channels]. case_bool_decide; [done|]. by destruct (channels b !! channel).
  - by destruct (from_hex key_hex).
Qed.

Lemma apply_all_wal b w l : apply_all (set_wal b w) l = set_wal (apply_all b l) w.
Proof.
  revert b. induction l as [|[op k] l IH]; intros b; [done|]. unfold apply_all in *. cbn [foldl fst snd].
  by rewrite apply_op_wal, IH.
Qed.

Lemma join_one_joined b c g j j' us :
  (foldl (join_one b) (c, g, j) us).1 = (foldl (join_one b) (c, g, j') us).1.
Proof.
  revert c g j j'. induction us as [|u us IH]; intros c g j j'; [done|]. cbn [foldl join_one].
  case_bool_decide; [apply IH|]. destruct (friends b !! u); [|apply IH]. by case_match; apply IH.
Qed.

(** Joining one by one is joining all at once. *)
Lemma join_one_by_one b ch c g us :
  channels b !! ch = Some c -> groups b !! ch = Some g ->
  apply_all b ((fun u => (JoinChannel ch u, [])) <$> us) =
    let r := (foldl (join_one b) (c, g, []) us).1 in
    set_channels b (<[ch := r.1]> (channels b)) (<[ch := r.2]> (groups b)).
Proof.
  revert b c g. induction us as [|u us IH]; intros b c g Hc Hg.
  { cbn. rewrite !insert_id by done. by destruct b. }
  unfold apply_all in *. cbn [fmap list_fmap foldl fst snd apply_op_no_log].
  unfold join_channel_no_log. rewrite Hc, Hg. cbn [foldl].
  destruct (join_one b (c, g, []) u) as [[c1 g1] j1] eqn:E. cbn [fst].
  erewrite IH; [|cbn [channels set_channels]; apply lookup_insert_eq|cbn [groups set_channels]; apply lookup_insert_eq].
  cbn [channels groups set_channels]. change (join_one (set_channels b _ _)) with (join_one b).
  rewrite !insert_insert_eq, (join_one_joined b c1 g1 [] j1). done.
Qed.

(** Skipping what is not logged changes nothing. *)
Lemma join_filter b c0 c g j us :
  (forall u, u ∈ ch_participants c0 -> u ∈ ch_participants c) ->
  (foldl (join_one b) (c, g, j) us).1 = (foldl (join_one b) (c, g, j) (filter (joinable b c0) us)).1.
Proof.
  revert c g j. induction us as [|u us IH]; intros c g j Hsub; [done|].
  assert (Hgrow : forall r, join_one b (c, g, j) u = r -> forall v, v ∈ ch_participants c0 -> v ∈ ch_participants r.1.1).
  { intros r <- v Hv. unfold join_one. case_bool_decide; [by apply Hsub|].
    destruct (friends b !! u); [|by apply Hsub]. case_match; [|by apply Hsub]. cbn. apply elem_of_app. left. by apply Hsub. }
  destruct (decide (joinable b c0 u)) as [Hj|Hj].
  - rewrite filter_cons_True by done. cbn [foldl]. destruct (join_one b (c, g, j) u) as [[c1 g1] j1] eqn:E.
    apply IH. exact (Hgrow _ eq_refl).
  - rewrite filter_cons_False by done. cbn [foldl].
    assert (join_one b (c, g, j) u = (c, g, j)) as ->; [|by apply IH].
    unfold join_one. case_bool_decide; [done|]. destruct (friends b !! u) as [f|] eqn:Ef; [|done].
    destruct (decide (u ∈ ch_participants c0)) as [Hin|Hin].
    + rewrite (bool_decide_eq_true_2 (u ∈ _)) by auto. by rewrite andb_false_r.
    + destruct Hj. split; [done|]. by rewrite Ef.
Qed.

Lemma log_join_eq e ch b us :
  foldl (log_join e ch) b us = set_wal b (wal (foldl (log_join e ch) b us)).
Proof.
  revert b. induction us as [|u us IH]; intros b; cbn [foldl]; [by rewrite set_wal_id|].
  rewrite IH. generalize (wal (foldl (log_join e ch) (log_join e ch b u) us)). intros W.
  assert (Hl : log_join e ch b u = set_wal b (wal (log_join e ch b u))).
  { unfold log_join. destruct (channels b !! ch); [|by rewrite set_wal_id].
    case_match; [apply log_wal_eq|by rewrite set_wal_id]. }
  by rewrite Hl.
Qed.

Lemma from_to_hex key : length key = 32%nat -> bytes_ok key -> from_hex (to_hex key) = Some key.
Proof.
  intros Hl Hk. unfold from_hex, to_hex. rewrite hex_decode_encode by done. cbn. unfold array32.
  by rewrite bool_decide_eq_true_2.
Qed.

Definition recorded (ev : event) : Prop := match ev with Topic _ _ | Switch _ => False | _ => True end.

(** A logged operation does to the bridge what replaying its entries does. *)
Lemma exec_apply e b ev :
  event_ok ev -> recorded ev -> exec e b ev = set_wal (apply_all b (logged b ev)) (wal (exec e b ev)).
Proof.
  intros Hok Hrec. destruct ev; try done; cbn [exec logged].
  - unfold add_friend. rewrite log_wal_eq. done.
  - unfold remove_friend. rewrite log_wal_eq. done.
  - unfold update_trust. rewrite log_wal_eq. done.
  - destruct Hok as [Hl Hk]. unfold set_edge_key. case_bool_decide; cbn [negb fst]; [|by rewrite set_wal_id].
    rewrite log_wal_eq. unfold apply_all. cbn [foldl fst snd apply_op_no_log]. by rewrite from_to_hex.
  - unfold set_my_uid. rewrite log_wal_eq. done.
  - unfold create_channel. case_bool_decide as Hc; cbn [fst]; [by rewrite set_wal_id|].
    rewrite log_wal_eq, create_channel_wal. done.
  - unfold join_channel. rewrite log_join_eq, join_channel_wal. cbn [fst].
    set (w := wal (foldl _ _ _)). cbn [wal set_wal]. f_equal. clear w.
    unfold join_channel_no_log. destruct (channels b !! channel) as [c|] eqn:Ec; [|done].
    destruct (groups b !! channel) as [g|] eqn:Eg.
    + rewrite (join_one_by_one b channel c g) by done.
      rewrite <-(join_filter b c c g [] uids) by done. by destruct (foldl _ _ uids) as [[? ?] ?].
    + cbn [fst]. induction (filter (joinable b c) uids) as [|u us IH]; [done|].
      unfold apply_all in *. cbn [fmap list_fmap foldl fst snd apply_op_no_log].
      unfold join_channel_no_log. rewrite Ec, Eg. exact IH.
  - unfold leave_channel. rewrite log_wal_eq. unfold apply_all. cbn [foldl fst snd apply_op_no_log].
    by rewrite bool_decide_eq_true_2.
Qed.

(** A store with [log] in it and [n] operations since its checkpoint, otherwise as [w0]. *)
Definition store (w0 : WalStore) (log : bytes) (n : Z) : WalStore :=
  WalStore.mk log (WalStore.state_json w0) n (WalStore.last_checkpoint w0) (WalStore.checkpoint_ops w0)
    (WalStore.checkpoint_interval w0).

(** The clock has not reached the interval, and appends succeed. *)
Definition calm (w0 : WalStore) (e : Env) : Prop :=
  e_append e = Appended /\ e_now e - WalStore.last_checkpoint w0 < WalStore.checkpoint_interval w0.

Lemma log_wal_calm w0 e b op log n :
  wal b = Some (store w0 log n) -> calm w0 e -> 0 <= n -> n + 1 < WalStore.checkpoint_ops w0 -> n + 1 < 2 ^ 64 ->
  wal (log_wal e b op) = Some (store w0 (log ++ WalStore.log_line (e_ts e) op) (n + 1)).
Proof.
  intros Hw [Ha Ht] Hn Hc Hm. unfold log_wal. rewrite Hw. unfold WalStore.append. rewrite Ha.
  cbn [store WalStore.wal_log WalStore.state_json WalStore.ops_since_checkpoint WalStore.last_checkpoint
       WalStore.checkpoint_ops WalStore.checkpoint_interval].
  rewrite wrap64_small by lia.
  unfold WalStore.should_checkpoint. cbn [WalStore.ops_since_checkpoint WalStore.last_checkpoint
       WalStore.checkpoint_ops WalStore.checkpoint_interval].
  by rewrite !(proj2 (Z.leb_gt _ _)) by lia.
Qed.

Lemma zlen_fmap {A B} (f : A -> B) (l : list A) : zlen (f <$> l) = zlen l.
Proof. unfold zlen. by rewrite length_fmap. Qed.

Lemma log_of_cons p l : StorageFacts.log_of (p :: l) = WalStore.log_line p.1 p.2 ++ StorageFacts.log_of l.
Proof. done. Qed.

Lemma log_of_app l k : StorageFacts.log_of (l ++ k) = StorageFacts.log_of l ++ StorageFacts.log_of k.
Proof. unfold StorageFacts.log_of. by rewrite fmap_app, concat_app. Qed.

Lemma log_join_calm w0 e b ch c us log n :
  channels b !! ch = Some c -> wal b = Some (store w0 log n) -> calm w0 e -> 0 <= n ->
  n + zlen (filter (joinable b c) us) < WalStore.checkpoint_ops w0 ->
  n + zlen (filter (joinable b c) us) < 2 ^ 64 ->
  wal (foldl (log_join e ch) b us) =
    Some (store w0 (log ++ StorageFacts.log_of ((fun u => (e_ts e, JoinChannel ch u)) <$> filter (joinable b c) us))
            (n + zlen (filter (joinable b c) us))).
Proof.
  revert b log n. induction us as [|u us IH]; intros b log n Hc Hw He Hn H1 H2; cbn [foldl].
  { rewrite Hw. cbn. unfold StorageFacts.log_of. cbn. by rewrite app_nil_r, Z.add_0_r. }
  pose proof (zlen_nonneg (filter (joinable b c) us)).
  unfold log_join at 2. rewrite Hc. destruct (decide (joinable b c u)) as [Hj|Hj].
  - rewrite filter_cons_True, zlen_cons in * by done. destruct Hj as [Hp Hf].
    rewrite bool_decide_eq_false_2, bool_decide_eq_true_2 by done. cbn [negb andb].
    assert (Hl := log_wal_calm w0 e b (JoinChannel ch u) log n Hw He Hn ltac:(lia) ltac:(lia)).
    rewrite log_wal_eq, Hl. set (b' := set_wal b _).
    rewrite (IH b' (log ++ WalStore.log_line (e_ts e) (JoinChannel ch u)) (n + 1)); try done; try lia.
    + change (filter (joinable b' c) us) with (filter (joinable b c) us). rewrite fmap_cons, log_of_cons, app_assoc.
      do 2 f_equal. lia.
    + change (filter (joinable b' c) us) with (filter (joinable b c) us). lia.
    + change (filter (joinable b' c) us) with (filter (joinable b c) us). lia.
  - rewrite filter_cons_False in * by done.
    assert (negb (bool_decide (u ∈ ch_participants c)) && bool_decide (is_Some (friends b !! u)) = false) as ->.
    { apply not_true_iff_false. intros Ht. breflect. by destruct Hj. }
    by apply IH.
Qed.

(** The entries of one operation are appended in order. *)
Lemma exec_log w0 e b ev log n :
  wal b = Some (store w0 log n) -> calm w0 e -> 0 <= n ->
  n + zlen (logged b ev) < WalStore.checkpoint_ops w0 -> n + zlen (logged b ev) < 2 ^ 64 ->
  wal (exec e b ev) =
    Some (store w0 (log ++ StorageFacts.log_of ((fun p => (e_ts e, p.1)) <$> logged b ev)) (n + zlen (logged b ev))).
Proof.
  intros Hw Hcalm Hn Hc Hm.
  assert (Hone : forall op, n + 1 < WalStore.checkpoint_ops w0 -> n + 1 < 2 ^ 64 ->
    wal (log_wal e b op) = Some (store w0 (log ++ StorageFacts.log_of [(e_ts e, op)]) (n + 1))).
  { intros op ? ?. unfold StorageFacts.log_of. cbn. rewrite app_nil_r. by apply log_wal_calm. }
  assert (Hnone : wal b = Some (store w0 (log ++ StorageFacts.log_of []) (n + 0))).
  { unfold StorageFacts.log_of. cbn. by rewrite app_nil_r, Z.add_0_r. }
  destruct ev; cbn [exec logged] in *; try (by apply Hone).
  - unfold set_edge_key. case_bool_decide; [by apply Hone|done].
  - unfold create_channel. case_bool_decide; [done|]. rewrite log_wal_eq, create_channel_wal. by apply Hone.
  - unfold join_channel. rewrite log_join_eq, join_channel_wal. cbn [fst wal set_wal].
    destruct (channels b !! channel) as [c|] eqn:Ec.
    + rewrite zlen_fmap in *. rewrite (log_join_calm w0 e b channel c uids log n) by done.
      by rewrite <-list_fmap_compose.
    + transitivity (wal b); [|exact Hnone]. clear -Ec. revert b Ec. induction uids as [|u us IH]; intros b Ec; [done|].
      cbn [foldl]. unfold log_join at 2. rewrite Ec. by apply IH.
  - exact Hnone.
  - unfold switch_channel. by case_bool_decide.
Qed.

(** A run without a checkpoint leaves its entries in the log. *)
Lemma run_log w0 l b log n :
  wal b = Some (store w0 log n) -> Forall (fun p => calm w0 p.1) l -> 0 <= n ->
  n + zlen (entries b l) < WalStore.checkpoint_ops w0 -> n + zlen (entries b l) < 2 ^ 64 ->
  wal (run b l) = Some (store w0 (log ++ StorageFacts.log_of (entries b l).*1) (n + zlen (entries b l))).
Proof.
  revert b log n. induction l as [|[e ev] l IH]; intros b log n Hw HF Hn H1 H2.
  { cbn. unfold StorageFacts.log_of. cbn. by rewrite app_nil_r, Z.add_0_r. }
  apply Forall_cons in HF as [He HF]. cbn [run entries fst] in *.
  rewrite zlen_app, zlen_fmap in *. pose proof (zlen_nonneg (logged b ev)).
  pose proof (zlen_nonneg (entries (exec e b ev) l)).
  pose proof (exec_log w0 e b ev log n Hw He Hn ltac:(lia) ltac:(lia)) as Hlog.
  rewrite (IH _ _ _ Hlog HF) by lia. rewrite fmap_app, log_of_app, <-!list_fmap_compose, app_assoc, Z.add_assoc. done.
Qed.

(** ** What a replay brings back *)

(** Friends that differ at most in the edge key, channels with the same members. *)
Definition alike (f g : F2fFriend) : Prop := with_key [] f = with_key [] g.
Definition same_members (c d : ChannelInfo) : Prop := ch_name c = ch_name d /\ ch_participants c = ch_participants d.

(** [r] has what [b] has, but for the keys of the friends in [D], topics and the current channel. *)
Record resembles (D : gset string) (b r : t) : Prop := {
  rb_uid : my_uid r = my_uid b;
  rb_min : min_trust r = min_trust b;
  rb_groups : groups r = groups b;
  rb_channels n : option_Forall2 same_members (channels b !! n) (channels r !! n);
  rb_friends u : option_Forall2 alike (friends b !! u) (friends r !! u);
  rb_keys u : u ∉ D -> friends r !! u = friends b !! u;
}.

Lemma resembles_refl b : resembles ∅ b b.
Proof. split; intros; try done; [destruct (channels b !! n)|destruct (friends b !! u)]; by constructor. Qed.

Lemma resembles_wal D b r w : resembles D b r -> resembles D (set_wal b w) r.
Proof. intros []. by split. Qed.

Lemma resembles_more D D' b r : D ⊆ D' -> resembles D b r -> resembles D' b r.
Proof. intros Hd []. split; try done. intros u Hu. apply rb_keys0. set_solver. Qed.

(** Setting the friends, or the channels, on both sides. *)
Lemma resembles_friends D D' b r fb fr :
  resembles D b r -> (forall u, option_Forall2 alike (fb !! u) (fr !! u)) -> (forall u, u ∉ D' -> fr !! u = fb !! u) ->
  resembles D' (set_friends b fb) (set_friends r fr).
Proof. intros []. by split. Qed.

Lemma resembles_channels D b r cb cr g :
  resembles D b r -> (forall n, option_Forall2 same_members (cb !! n) (cr !! n)) ->
  resembles D (set_channels b cb g) (set_channels r cr g).
Proof. intros []. by split. Qed.

Lemma forall2_insert {A} (R : A -> A -> Prop) (m m' : gmap string A) k x y :
  (forall i, option_Forall2 R (m !! i) (m' !! i)) -> R x y -> forall i, option_Forall2 R (<[k := x]> m !! i) (<[k := y]> m' !! i).
Proof. intros Hm Hr i. destruct (decide (k = i)) as [->|?]; [rewrite !lookup_insert_eq; by constructor|by rewrite !lookup_insert_ne]. Qed.

Lemma forall2_alter {A} (R : A -> A -> Prop) (m m' : gmap string A) k f :
  (forall i, option_Forall2 R (m !! i) (m' !! i)) -> (forall x y, R x y -> R (f x) (f y)) ->
  forall i, option_Forall2 R (alter f k m !! i) (alter f k m' !! i).
Proof.
  intros Hm Hr i. destruct (decide (k = i)) as [->|?]; [rewrite !lookup_alter_eq|by rewrite !lookup_alter_ne].
  destruct (Hm i); constructor. by apply Hr.
Qed.

Lemma same_retain c d u : same_members c d ->
  same_members (with_participants (filter (fun v => v <> u) (ch_participants c)) c) (with_participants (filter (fun v => v <> u) (ch_participants d)) d).
Proof. intros [? E]. split; [done|]. cbn. by rewrite E. Qed.

Lemma join_sim D b r us : resembles D b r -> forall c d g j, same_members c d ->
  let x := foldl (join_one b) (c, g, j) us in let y := foldl (join_one r) (d, g, j) us in
  same_members x.1.1 y.1.1 /\ x.1.2 = y.1.2.
Proof.
  intros Hr. induction us as [|u us IH]; intros c d g j [Hn Hp]; [done|]. cbn [foldl].
  assert (Hs : exists c' d' g' j', join_one b (c, g, j) u = (c', g', j') /\ join_one r (d, g, j) u = (d', g', j') /\ same_members c' d').
  { unfold join_one. rewrite (rb_uid _ _ _ Hr), (rb_min _ _ _ Hr), <-Hp. case_bool_decide; [by repeat eexists|].
    pose proof (rb_friends _ _ _ Hr u) as Hf. destruct Hf as [f f' Hf|]; [|by repeat eexists].
    assert (trust_level f' = trust_level f /\ ff_peer_id f' = ff_peer_id f) as [-> ->] by (unfold alike, with_key in Hf; by simplify_eq).
    destruct (_ && _); [|by repeat eexists]. eexists _, _, _, _. split; [done|]. split; [done|]. done. }
  destruct Hs as (c' & d' & g' & j' & -> & -> & Hs). by apply IH.
Qed.

Lemma same_channel D b r n : resembles D b r ->
  match channels b !! n, channels r !! n with Some c, Some d => same_members c d | None, None => True | _, _ => False end.
Proof. intros Hr. destruct (rb_channels _ _ _ Hr n); done. Qed.

(** The friends whose key a replay draws again. *)
Definition redrawn (D : gset string) (op : WalOperation) : gset string :=
  match op with
  | AddFriend u _ _ => {[u]} ∪ D
  | UpdateEdgeKey u hex => match from_hex hex with Some _ => D ∖ {[u]} | None => D end
  | _ => D
  end.

Lemma apply_sim D b r op k k' : resembles D b r -> resembles (redrawn D op) (apply_op_no_log b op k) (apply_op_no_log r op k').
Proof.
  intros Hr. pose proof (rb_friends _ _ _ Hr) as Hf. pose proof (rb_keys _ _ _ Hr) as Hk. pose proof (rb_channels _ _ _ Hr) as Hc.
  destruct op; cbn [apply_op_no_log redrawn]; try done.
  - eapply resembles_friends; [exact Hr|by apply forall2_insert|]. intros u Hu. rewrite !lookup_insert_ne by set_solver. apply Hk. set_solver.
  - eapply resembles_friends; [exact Hr| |]; intros u; destruct (decide (uid = u)) as [->|?]; rewrite ?lookup_delete_eq, ?lookup_delete_ne by done;
      try constructor; auto.
  - eapply resembles_friends; [exact Hr| |].
    + apply forall2_alter; [done|]. intros [] [] Hfg. unfold alike, with_key, with_trust in *. by simplify_eq/=.
    + intros u Hu. destruct (decide (uid = u)) as [->|?]; [rewrite !lookup_alter_eq|rewrite !lookup_alter_ne by done]; by rewrite Hk.
  - unfold create_channel_no_log. pose proof (same_channel D b r name Hr) as Hs. rewrite (rb_uid _ _ _ Hr), (rb_groups _ _ _ Hr).
    destruct (channels b !! name), (channels r !! name); try done; cbn.
    apply resembles_channels; [done|]. by apply forall2_insert.
  - unfold join_channel_no_log. pose proof (same_channel D b r channel Hr) as Hs. rewrite (rb_groups _ _ _ Hr).
    destruct (channels b !! channel) as [c|], (channels r !! channel) as [d|]; try done. destruct (groups b !! channel) as [g|]; [|done].
    pose proof (join_sim D b r [uid] Hr c d g [] Hs) as Hj. cbv zeta in Hj.
    destruct (foldl (join_one b) _ _) as [[c' g'] j'], (foldl (join_one r) _ _) as [[d' g''] j'']. cbn [fst snd] in *. destruct Hj as [Hj ->].
    apply resembles_channels; [done|]. by apply forall2_insert.
  - rewrite (rb_uid _ _ _ Hr). unfold leave_channel_no_log, retain_channel. rewrite (rb_uid _ _ _ Hr), (rb_groups _ _ _ Hr).
    assert (Hch : forall v g, resembles D (set_channels b (alter (fun c => with_participants (filter (fun u => u <> v) (ch_participants c)) c) channel (channels b)) g)
      (set_channels r (alter (fun c => with_participants (filter (fun u => u <> v) (ch_participants c)) c) channel (channels r)) g)).
    { intros v g. apply resembles_channels; [done|]. apply forall2_alter; [done|]. intros c d. apply same_retain. }
    case_bool_decide; [apply Hch|]. pose proof (same_channel D b r channel Hr) as Hs.
    destruct (channels b !! channel) as [c|], (channels r !! channel) as [d|]; done || apply Hch.
  - destruct Hr. by split.
  - destruct (from_hex key_hex) as [key|]; [|done]. eapply resembles_friends; [exact Hr| |].
    + apply forall2_alter; [done|]. intros [] [] Hfg. unfold alike, with_key in *. by simplify_eq/=.
    + intros u Hu. destruct (decide (uid = u)) as [->|?]; [rewrite !lookup_alter_eq|rewrite !lookup_alter_ne by done; apply Hk; set_solver].
      destruct (Hf u) as [[] [] Hfg|]; [|done]. cbn. unfold alike, with_key in *. by simplify_eq/=.
Qed.

Lemma replay_ops_app draws i b x y : replay_ops draws i b (x ++ y) = replay_ops draws (i + length x) (replay_ops draws i b x) y.
Proof.
  revert i b. induction x as [|op x IH]; intros i b; cbn [app replay_ops length]; [by rewrite Nat.add_0_r|].
  rewrite IH. f_equal. lia.
Qed.

Lemma apply_all_sim D b r draws i l : resembles D b r ->
  resembles (foldl redrawn D l.*1) (apply_all b l) (replay_ops draws i r l.*1).
Proof.
  revert D b r i. induction l as [|[op k] l IH]; intros D b r i Hr; [done|]. cbn [fmap list_fmap foldl replay_ops]. by apply IH, apply_sim.
Qed.

(** The same, read off an operation. *)
Definition redrawn_by (D : gset string) (ev : event) : gset string :=
  match ev with
  | Befriend u _ _ _ => {[u]} ∪ D
  | Key u _ => D ∖ {[u]}
  | _ => D
  end.

Lemma exec_sim D b r draws i e ev : event_ok ev -> resembles D b r ->
  resembles (redrawn_by D ev) (exec e b ev) (replay_ops draws i r (logged b ev).*1).
Proof.
  intros Hok Hr. assert (recorded ev \/ (exists c tp, ev = Topic c tp) \/ (exists n, ev = Switch n)) as [Hrec|[(c & tp & ->)|(n & ->)]] by (destruct ev; cbn; eauto).
  2: { destruct Hr. split; try done. intros n. cbn [exec set_topic channels set_channels logged fmap list_fmap replay_ops].
    destruct (decide (c = n)) as [->|?]; [rewrite lookup_alter_eq|by rewrite lookup_alter_ne].
    destruct (rb_channels0 n) as [x y Hxy|]; constructor. exact Hxy. }
  2: { cbn [exec logged redrawn_by]. unfold switch_channel. case_bool_decide; [|done]. destruct Hr. by split. }
  rewrite (exec_apply e b ev Hok Hrec). apply resembles_wal.
  pose proof (apply_all_sim D b r draws i (logged b ev) Hr) as Ha. destruct ev; try exact Ha; cbn [logged redrawn_by] in *.
  - case_bool_decide as Hf.
    + destruct Hok. replace (D ∖ {[uid]}) with (redrawn D (UpdateEdgeKey uid (to_hex key))); [exact Ha|]. cbn [redrawn]. by rewrite from_to_hex.
    + destruct Ha. split; try done. intros u Hu. destruct (decide (u = uid)) as [->|?]; [|apply rb_keys0; set_solver].
      specialize (rb_friends0 uid). cbn in *. destruct (friends b !! uid); [by destruct Hf|]. by inversion rb_friends0.
  - by case_bool_decide.
  - destruct (channels b !! channel) as [c|]; [|done]. eapply resembles_more; [|exact Ha].
    clear. induction (filter (joinable b c) uids) as [|u us IH]; [done|exact IH].
Qed.

Definition redrawn_in (l : list (Env * event)) : gset string := foldl redrawn_by ∅ l.*2.

Lemma run_sim l D b r draws i : Forall (fun p => event_ok p.2) l -> resembles D b r ->
  resembles (foldl redrawn_by D l.*2) (run b l) (replay_ops draws i r (entries b l).*1.*2).
Proof.
  revert D b r i. induction l as [|[e ev] l IH]; intros D b r i HF Hr; [done|]. apply Forall_cons in HF as [Hok HF].
  cbn [fmap list_fmap foldl run entries]. rewrite !fmap_app, replay_ops_app. apply IH; [done|].
  rewrite <-!list_fmap_compose. apply (exec_sim D b r draws i e ev Hok Hr).
Qed.

(** Replaying sets no topic and no current channel. *)
Definition topic_at (b : t) (n : string) : string := default "" (topic <$> channels b !! n).

Lemma apply_op_topic b op k n : topic_at (apply_op_no_log b op k) n = topic_at b n /\ current_channel (apply_op_no_log b op k) = current_channel b.
Proof.
  assert (Hret : forall c u, default "" (topic <$> retain_channel b c u !! n) = topic_at b n).
  { intros c u. unfold retain_channel, topic_at. destruct (decide (c = n)) as [->|?]; [rewrite lookup_alter_eq|by rewrite lookup_alter_ne].
    by destruct (channels b !! n). }
  destruct op; try done; cbn [apply_op_no_log].
  - unfold create_channel_no_log. case_bool_decide as Hc; [done|]. split; [|done]. unfold topic_at. cbn.
    destruct (decide (name = n)) as [->|?]; [rewrite lookup_insert_eq|by rewrite lookup_insert_ne]. destruct (channels b !! n); [by destruct Hc|done].
  - unfold join_channel_no_log. destruct (channels b !! channel) as [c|] eqn:Ec; [|done]. destruct (groups b !! channel) as [g|]; [|done].
    assert (Ht : topic (foldl (join_one b) (c, g, []) [uid]).1.1 = topic c).
    { cbn. case_bool_decide; [done|]. destruct (friends b !! uid); [|done]. by case_match. }
    destruct (foldl _ _ _) as [[c' g'] j']. cbn [fst] in *. split; [|done]. unfold topic_at. cbn.
    destruct (decide (channel = n)) as [->|?]; [rewrite lookup_insert_eq, Ec; cbn; done|by rewrite lookup_insert_ne].
  - case_bool_decide; [split; [apply Hret|done]|]. destruct (channels b !! channel); [split; [apply Hret|done]|done].
  - by destruct (from_hex key_hex).
Qed.

Lemma replay_topic draws i b ops n :
  topic_at (replay_ops draws i b ops) n = topic_at b n /\ current_channel (replay_ops draws i b ops) = current_channel b.
Proof.
  revert i b. induction ops as [|op ops IH]; intros i b; [done|]. cbn [replay_ops].
  destruct (IH (S i) (apply_op_no_log b op (draws i))) as [-> ->]. apply apply_op_topic.
Qed.

End Run.
End F2fRun.

(** ** Snapshots *)

Module SnapshotFacts.
Import F2fDcNetBridge F2fRun.

Section Snapshot.
Context `{Crypto, StoreJson}.

(** What the bridge maintains of its tables. *)
Definition wf (b : t) : Prop :=
  map_Forall (fun u f => ff_uid f = u /\ ff_peer_id f = uid_to_peer u /\ trust_level f <= 2 /\
    length (edge_key f) = 32%nat /\ bytes_ok (edge_key f)) (friends b) /\
  map_Forall (fun n c => ch_name c = n) (channels b).

Lemma foldl_insert_fresh {K V} (f : K * V -> V) (key : K * V -> string) l (m : gmap string V) k :
  k ∉ key <$> l -> foldl (fun m p => <[key p := f p]> m) m l !! k = m !! k.
Proof.
  revert m. induction l as [|p l IH]; intros m Hk; [done|].
  rewrite fmap_cons, not_elem_of_cons in Hk. cbn. rewrite IH by tauto. rewrite lookup_insert_ne; naive_solver.
Qed.

Lemma foldl_insert_mem {K V} (f : K * V -> V) (key : K * V -> string) l (m : gmap string V) p :
  NoDup (key <$> l) -> p ∈ l -> foldl (fun m p => <[key p := f p]> m) m l !! key p = Some (f p).
Proof.
  revert m. induction l as [|q l IH]; intros m Hnd Hp; [by apply not_elem_of_nil in Hp|].
  rewrite fmap_cons, NoDup_cons in Hnd. destruct Hnd as [Hq Hnd]. cbn.
  apply elem_of_cons in Hp as [->|Hp]; [|by apply IH].
  rewrite foldl_insert_fresh by done. apply lookup_insert_eq.
Qed.

(** Friends come back as they were, edge keys included. *)
Lemma restore_friends fresh b :
  wf b -> foldl (restore_friend fresh) ∅ (ss_friends (snapshot_bridge b)) = friends b.
Proof.
  intros [Hf _]. cbn [ss_friends snapshot_bridge]. rewrite foldl_fmap.
  set (g := fun p : string * F2fFriend => with_edge_key (fresh p.1) p.1 (transport_address p.2) (trust_level p.2)
              (default (fresh p.1) (from_hex (to_hex (edge_key p.2))))).
  change (foldl _ ∅ _) with (foldl (fun (m : gmap string F2fFriend) p => <[p.1 := g p]> m) ∅ (map_to_list (friends b))).
  apply map_eq. intros k. destruct (friends b !! k) as [v|] eqn:E.
  - pose proof (Hf _ _ E) as (Hu & Hp & Ht & Hl & Hk).
    pose proof (foldl_insert_mem g fst (map_to_list (friends b)) ∅ (k, v)) as Hm. cbn [fst] in Hm.
    rewrite Hm; [|apply NoDup_fst_map_to_list|by apply elem_of_map_to_list].
    f_equal. unfold g. cbn [fst snd]. rewrite from_to_hex by done. destruct v as [u pid tr a key]. cbn in *. subst.
    unfold with_edge_key, with_key, friend_new. cbn. f_equal. lia.
  - rewrite (foldl_insert_fresh g fst); [apply lookup_empty|].
    intros ([? v] & -> & Hin)%list_elem_of_fmap. apply elem_of_map_to_list in Hin. cbn in E. congruence.
Qed.

(** A channel as a restart brings it back. *)
Definition restarted (c : ChannelInfo) : ChannelInfo :=
  mkChannel (ch_name c) (topic c) (ch_participants c) 0 false.

Lemma restore_channel_other b c : friends (restore_channel b c) = friends b /\ my_uid (restore_channel b c) = my_uid b.
Proof. unfold restore_channel, create_channel_no_log. by case_bool_decide. Qed.

Lemma restore_channels_other b cs :
  friends (foldl restore_channel b cs) = friends b /\ my_uid (foldl restore_channel b cs) = my_uid b.
Proof.
  revert b. induction cs as [|c cs IH]; intros b; [done|]. cbn. destruct (IH (restore_channel b c)) as [-> ->].
  apply restore_channel_other.
Qed.

(** The group a restored channel gets: ourselves, then the participants. *)
Definition restored_group (me : string) (c : ChannelRecord) : DcGroup :=
  foldl DcGroup.join (DcGroup.join (DcGroup.new (sha256_digest (string_bytes (cr_name c))) 2 1) (uid_to_peer me))
    (uid_to_peer <$> cr_participants c).

Lemma restore_channel_new b c :
  channels b !! cr_name c = None ->
  channels (restore_channel b c) =
    <[cr_name c := mkChannel (cr_name c) (cr_topic c) (cr_participants c) 0 false]> (channels b) /\
  groups (restore_channel b c) = <[cr_name c := restored_group (my_uid b) c]> (groups b).
Proof.
  intros Hc. unfold restore_channel, create_channel_no_log.
  rewrite bool_decide_eq_false_2 by (rewrite Hc; by intros [? ?]). cbn [fst channels groups set_channels].
  by rewrite !alter_insert_eq.
Qed.

Lemma restore_channels_fresh cs b k :
  k ∉ cr_name <$> cs ->
  channels (foldl restore_channel b cs) !! k = channels b !! k /\ groups (foldl restore_channel b cs) !! k = groups b !! k.
Proof.
  revert b. induction cs as [|c cs IH]; intros b Hk; [done|]. rewrite fmap_cons, not_elem_of_cons in Hk.
  cbn. destruct (IH (restore_channel b c)) as [-> ->]; [tauto|].
  unfold restore_channel, create_channel_no_log. destruct Hk as [Hk _].
  case_bool_decide; cbn; rewrite !lookup_alter_ne by done; [done|]. by rewrite !lookup_insert_ne by done.
Qed.

Lemma restore_channels_mem cs b c :
  NoDup (cr_name <$> cs) -> (forall c, c ∈ cs -> channels b !! cr_name c = None) -> c ∈ cs ->
  channels (foldl restore_channel b cs) !! cr_name c = Some (mkChannel (cr_name c) (cr_topic c) (cr_participants c) 0 false) /\
  groups (foldl restore_channel b cs) !! cr_name c = Some (restored_group (my_uid b) c).
Proof.
  revert b. induction cs as [|d cs IH]; intros b Hnd Hfr Hin; [by apply not_elem_of_nil in Hin|].
  rewrite fmap_cons, NoDup_cons in Hnd. destruct Hnd as [Hd Hnd]. cbn.
  destruct (restore_channel_new b d) as [Hch Hgr]; [apply Hfr; by left|].
  apply elem_of_cons in Hin as [->|Hin].
  - destruct (restore_channels_fresh cs (restore_channel b d) (cr_name d) Hd) as [-> ->].
    rewrite Hch, Hgr, !lookup_insert_eq. done.
  - rewrite <-(proj2 (restore_channel_other b d)). apply IH; [done| |done].
    intros c' Hc'. rewrite Hch, lookup_insert_ne; [apply Hfr; by right|].
    intros E. apply Hd. rewrite E. apply list_elem_of_fmap. eauto.
Qed.

Lemma join_members g p pid :
  pid ∈ peer_id <$> DcGroup.participants (DcGroup.join g p) <-> pid = p \/ pid ∈ peer_id <$> DcGroup.participants g.
Proof.
  unfold DcGroup.join. destruct (existsb _ _) eqn:E; cbn [negb].
  - apply existsb_exists in E as (q & Hq & Eq%bool_decide_eq_true). split; [auto|]. intros [->|?]; [|done].
    apply list_elem_of_fmap. exists q. split; [done|]. by apply list_elem_of_In.
  - cbn. rewrite fmap_app, elem_of_app. cbn. rewrite list_elem_of_singleton. tauto.
Qed.

Lemma restored_group_members me c pid :
  pid ∈ peer_id <$> DcGroup.participants (restored_group me c) <->
  pid = uid_to_peer me \/ pid ∈ uid_to_peer <$> cr_participants c.
Proof.
  unfold restored_group. generalize (uid_to_peer <$> cr_participants c). intros l.
  assert (Hg : forall g, pid ∈ peer_id <$> DcGroup.participants (foldl DcGroup.join g l) <->
    pid ∈ peer_id <$> DcGroup.participants g \/ pid ∈ l).
  { induction l as [|p l IH]; intros g; cbn; [rewrite elem_of_nil; tauto|].
    rewrite IH, join_members, elem_of_cons. tauto. }
  rewrite Hg, join_members. cbn. rewrite elem_of_nil. tauto.
Qed.

Lemma map_Forall_alter {V} (P : string -> V -> Prop) (f : V -> V) k (m : gmap string V) :
  map_Forall P m -> (forall v, P k v -> P k (f v)) -> map_Forall P (alter f k m).
Proof.
  intros Hm Hf i v Hv. apply lookup_alter_Some in Hv as [(<- & x & Hx & ->)|[_ Hx]]; [|by apply Hm].
  apply Hf, Hm, Hx.
Qed.

Lemma bridge_new_wf uid : wf (new uid).
Proof. split; apply map_Forall_empty. Qed.

Lemma join_channel_wf b ch us : wf b -> wf (join_channel_no_log b ch us).1.
Proof.
  intros [Hf Hc]. unfold join_channel_no_log. destruct (channels b !! ch) as [c|] eqn:Ec; [|done].
  destruct (groups b !! ch) as [g|]; [|done].
  assert (Hn : forall acc, ch_name (foldl (join_one b) acc us).1.1 = ch_name acc.1.1).
  { induction us as [|u us IH]; intros acc; [done|]. cbn. rewrite IH. destruct acc as [[c0 g0] j0]. cbn.
    case_bool_decide; [done|]. destruct (friends b !! u); [|done]. by case_match. }
  specialize (Hn (c, g, [])). destruct (foldl _ _ us) as [[c1 g1] j1]. cbn in *. split; [done|].
  apply map_Forall_insert_2; [|done]. rewrite Hn. by apply Hc.
Qed.

Definition key_ok (k : bytes) : Prop := length k = 32%nat /\ bytes_ok k.

(** Every operation keeps the tables well formed, replayed or performed. *)
Lemma apply_op_wf b op k : (forall u a n, op = AddFriend u a n -> key_ok k) -> wf b -> wf (apply_op_no_log b op k).
Proof.
  intros Hk [Hf Hc]. destruct op; cbn [apply_op_no_log]; try done.
  - destruct (Hk _ _ _ eq_refl). split; [|done]. apply map_Forall_insert_2; [|done]. cbn. split_and!; try done. lia.
  - split; [|done]. by apply map_Forall_delete.
  - split; [|done]. apply map_Forall_alter; [done|]. intros f (? & ? & ? & ?). cbn. split_and!; try done; try tauto. lia.
  - unfold create_channel_no_log. case_bool_decide; [done|]. split; [done|]. by apply map_Forall_insert_2.
  - by apply join_channel_wf.
  - case_bool_decide; [split; [done|by apply map_Forall_alter]|]. destruct (channels b !! channel); [split; [done|by apply map_Forall_alter]|done].
  - unfold from_hex, array32. destruct (hex_decode key_hex) as [bs|] eqn:Eh; [|done]. cbn. case_bool_decide; [|done]. split; [|done].
    apply map_Forall_alter; [done|]. intros f (? & ? & ? & ?). cbn. split_and!; try done. by eapply hex_decode_bytes_ok.
Qed.

Lemma exec_wf e b ev : event_ok ev -> wf b -> wf (exec e b ev).
Proof.
  intros Hok Hwf. assert (recorded ev \/ (exists c tp, ev = Topic c tp) \/ (exists n, ev = Switch n)) as [Hrec|[(c & tp & ->)|(n & ->)]] by (destruct ev; cbn; eauto).
  2: { destruct Hwf. split; [done|]. cbn. by apply map_Forall_alter. }
  2: { cbn [exec]. unfold switch_channel. by case_bool_decide. }
  rewrite (exec_apply e b ev Hok Hrec).
  assert (Hk : Forall (fun p => forall u a n, p.1 = AddFriend u a n -> key_ok p.2) (logged b ev)).
  { destruct ev; cbn [logged]; try case_bool_decide; rewrite ?Forall_singleton, ?Forall_nil; cbn [fst snd]; try (intros; first [congruence|exact I|exact Hok]).
    destruct (channels b !! channel); [|constructor]. apply Forall_fmap, Forall_true. cbn. congruence. }
  assert (Hall : forall l b, Forall (fun p => forall u a n, p.1 = AddFriend u a n -> key_ok p.2) l -> wf b -> wf (apply_all b l)).
  { clear. induction l as [|[op k] l IH]; intros b HF Hb; [done|]. apply Forall_cons in HF as [? ?]. cbn. apply IH; [done|]. by apply apply_op_wf. }
  exact (Hall _ _ Hk Hwf).
Qed.

Lemma run_wf b l : Forall (fun p => event_ok p.2) l -> wf b -> wf (run b l).
Proof. revert b. induction l as [|[e ev] l IH]; intros b HF Hb; [done|]. apply Forall_cons in HF as [? ?]. by apply IH, exec_wf. Qed.

(** The state recovered from a snapshot of [b] alone. *)
Lemma recover_snapshot `{!StoreJsonLaws} fresh draws me b w :
  WalStore.wal_log w = [] -> WalStore.state_json w = Some (snap_json (snapshot_bridge b)) ->
  recover fresh draws me w = set_wal (apply_snapshot fresh (new me) (snapshot_bridge b)) (Some w).
Proof.
  intros Hl Hs. unfold recover, WalStore.load_state. rewrite Hs. cbn. rewrite snap_utf8, snap_round_trip.
  rewrite (StorageFacts.replay_log []); [done|done|]. by rewrite Hl.
Qed.

Lemma apply_snapshot_friends fresh me b :
  friends (apply_snapshot fresh (new me) (snapshot_bridge b)) =
    foldl (restore_friend fresh) ∅ (ss_friends (snapshot_bridge b)) /\
  my_uid (apply_snapshot fresh (new me) (snapshot_bridge b)) = my_uid b.
Proof.
  unfold apply_snapshot. set (b1 := set_friends _ _).
  destruct (restore_channels_other b1 (ss_channels (snapshot_bridge b))) as [-> ->]. done.
Qed.

Lemma apply_snapshot_channels fresh me b :
  wf b ->
  channels (apply_snapshot fresh (new me) (snapshot_bridge b)) = restarted <$> channels b /\
  (forall n c, channels b !! n = Some c ->
     groups (apply_snapshot fresh (new me) (snapshot_bridge b)) !! n =
       Some (restored_group (my_uid b) (mkChannelRecord (ch_name c) (topic c) (ch_participants c)))).
Proof.
  intros [_ Hc]. unfold apply_snapshot. cbn [ss_channels snapshot_bridge]. rewrite <-list_fmap_compose.
  set (rec := fun p : string * ChannelInfo => mkChannelRecord (ch_name p.2) (topic p.2) (ch_participants p.2)).
  set (b1 := set_friends _ _). change (foldl _ b1 _) with (foldl restore_channel b1 (rec <$> map_to_list (channels b))).
  assert (Hnames : cr_name <$> (rec <$> map_to_list (channels b)) = (map_to_list (channels b)).*1).
  { rewrite <-list_fmap_compose. apply list_fmap_ext. intros i [n c] Hi. cbn.
    apply (list_elem_of_lookup_2 _ i), elem_of_map_to_list in Hi. by apply Hc. }
  assert (Hmem : forall n c, channels b !! n = Some c -> 
    channels (foldl restore_channel b1 (rec <$> map_to_list (channels b))) !! n = Some (restarted c) /\
    groups (foldl restore_channel b1 (rec <$> map_to_list (channels b))) !! n = Some (restored_group (my_uid b) (rec (n, c)))).
  { intros n c E. pose proof (Hc _ _ E) as Hn. rewrite <-Hn.
    apply (restore_channels_mem _ b1 (rec (n, c))).
    - rewrite Hnames. apply NoDup_fst_map_to_list.
    - done.
    - apply list_elem_of_fmap. exists (n, c). split; [done|]. by apply elem_of_map_to_list. }
  split; [|intros n c E; apply (Hmem n c E)].
  apply map_eq. intros n. rewrite lookup_fmap. destruct (channels b !! n) as [c|] eqn:E; [apply (Hmem n c E)|].
  rewrite (proj1 (restore_channels_fresh _ b1 n ltac:(
    rewrite Hnames; intros ([n' c] & -> & Hin)%list_elem_of_fmap; apply elem_of_map_to_list in Hin; cbn in E; congruence))).
  done.
Qed.

(** A snapshot in which every friend has a readable key, as the bridge writes it. *)
Definition keyed (snap : SocialSnapshot) : Prop :=
  Forall (fun f => is_Some (hex ← fr_edge_key_hex f; from_hex hex)) (ss_friends snap).

Lemma snapshot_keyed b : wf b -> keyed (snapshot_bridge b).
Proof.
  intros [Hf _]. unfold keyed. cbn. apply Forall_fmap, Forall_forall. intros [u f] Hin%elem_of_map_to_list. cbn.
  destruct (Hf u f Hin) as (_ & _ & _ & Hl & Hk). rewrite from_to_hex by done. by eexists.
Qed.

(** Then nothing is drawn. *)
Lemma keyed_fresh fresh fresh' b snap : keyed snap -> apply_snapshot fresh b snap = apply_snapshot fresh' b snap.
Proof.
  intros Hk. unfold apply_snapshot. do 2 f_equal. generalize (friends (set_channels (set_friends (set_uid b (ss_uid snap)) ∅) ∅ ∅)).
  induction Hk as [|f l [key Hf] Hk IH]; intros m; [done|]. cbn [foldl]. rewrite <-IH. f_equal. unfold restore_friend. by rewrite Hf.
Qed.

Lemma apply_snapshot_frame fresh b snap :
  current_channel (apply_snapshot fresh b snap) = current_channel b /\ reputation (apply_snapshot fresh b snap) = reputation b.
Proof.
  unfold apply_snapshot. set (b1 := set_friends _ _). change (current_channel b) with (current_channel b1).
  change (reputation b) with (reputation b1). clearbody b1. generalize dependent b1.
  induction (ss_channels snap) as [|c l IH]; intros b1; [done|]. cbn. destruct (IH (restore_channel b1 c)) as [-> ->].
  unfold restore_channel, create_channel_no_log. by case_bool_decide.
Qed.

(** What any store brings back is well formed. *)
Lemma restore_friend_wf fresh m f :
  (forall u, key_ok (fresh u)) ->
  map_Forall (fun u f => ff_uid f = u /\ ff_peer_id f = uid_to_peer u /\ trust_level f <= 2 /\ length (edge_key f) = 32%nat /\ bytes_ok (edge_key f)) m ->
  map_Forall (fun u f => ff_uid f = u /\ ff_peer_id f = uid_to_peer u /\ trust_level f <= 2 /\ length (edge_key f) = 32%nat /\ bytes_ok (edge_key f))
    (restore_friend fresh m f).
Proof.
  intros Hfr Hm. unfold restore_friend. apply map_Forall_insert_2; [|done]. cbn. split; [done|]. split; [done|]. split; [lia|].
  destruct (hex ← fr_edge_key_hex f; from_hex hex) as [k|] eqn:E; [|apply Hfr]. cbn.
  destruct (fr_edge_key_hex f) as [hex|]; [|done]. cbn in E. unfold from_hex, array32 in E.
  destruct (hex_decode hex) as [bs|] eqn:Eh; [|done]. cbn in E. case_bool_decide; [|done]. injection E as <-.
  split; [done|]. by eapply hex_decode_bytes_ok.
Qed.

Lemma restore_channel_wf b c : wf b -> wf (restore_channel b c).
Proof.
  intros [Hf Hc]. split; [by rewrite (proj1 (restore_channel_other b c))|]. unfold restore_channel, create_channel_no_log. cbn [channels set_channels].
  apply map_Forall_alter; [|done]. case_bool_decide; cbn; [done|]. by apply map_Forall_insert_2.
Qed.

Lemma apply_snapshot_wf fresh b snap : (forall u, key_ok (fresh u)) -> wf (apply_snapshot fresh b snap).
Proof.
  intros Hfr. unfold apply_snapshot. set (b1 := set_friends _ _).
  assert (Hb : wf b1).
  { split; [|apply map_Forall_empty]. cbn [b1 friends set_friends set_channels]. generalize (map_Forall_empty
      (fun (u : string) (f : F2fFriend) => ff_uid f = u /\ ff_peer_id f = uid_to_peer u /\ trust_level f <= 2 /\ length (edge_key f) = 32%nat /\ bytes_ok (edge_key f)) (M := gmap string)).
    generalize (∅ : gmap string F2fFriend). induction (ss_friends snap) as [|f l IH]; intros m Hm; [done|]. cbn. by apply IH, restore_friend_wf. }
  clearbody b1. revert b1 Hb. induction (ss_channels snap) as [|c l IH]; intros b1 Hb; [done|]. cbn. by apply IH, restore_channel_wf.
Qed.

Lemma recover_wf fresh draws me w : (forall u, key_ok (fresh u)) -> (forall i, key_ok (draws i)) -> wf (recover fresh draws me w).
Proof.
  intros Hfr Hdr. unfold recover, attach_wal. set (base := match WalStore.load_state w with Some _ => _ | None => _ end).
  assert (Hb : wf base) by (unfold base; destruct (WalStore.load_state w); [by apply apply_snapshot_wf|apply bridge_new_wf]).
  assert (Hr : forall ops i b, wf b -> wf (replay_ops draws i b ops)).
  { clear -Hdr. induction ops as [|op ops IH]; intros i b Hb; [done|]. cbn. apply IH, apply_op_wf; [|done]. intros; apply Hdr. }
  exact (Hr _ _ _ Hb).
Qed.

End Snapshot.
End SnapshotFacts.

Section Durability.
Context `{Crypto, StoreJson, !StoreJsonLaws}.
Import F2fDcNetBridge F2fRun.

Import SnapshotFacts.

(** C19: The log brings back what it recorded. A daemon starts from a store whose log is empty (after a
    checkpoint, or for the first time) and whose snapshot, if there is one, has a key for every friend, as
    all snapshots the bridge writes. Then come any friend, trust, key, channel, topic and name
    operations, no local rounds, every append succeeds, the log stays under 64 MiB and the next
    checkpoint is not due, and the daemon stops without warning. Whatever random keys are
    drawn this time, what the next start recovers from snapshot and log has the same uid,
    groups, friends with addresses and trust, and channels with members. The edge
    keys are the same too, except for a friend that was added in this run and whose key was not
    set afterwards: the log does not carry the key that was drawn. Topics are those of the snapshot and there is
    no current channel. *)
Theorem wal_recovers fresh draws fresh' draws' uid w0 (l : list (Env * event)) :
  WalStore.wal_log w0 = [] -> WalStore.ops_since_checkpoint w0 = 0 ->
  (forall snap, WalStore.load_state w0 = Some snap -> keyed snap) ->
  let b0 := recover fresh draws uid w0 in
  Forall (fun p => calm w0 p.1 /\ event_ok p.2) l ->
  zlen (entries b0 l) < WalStore.checkpoint_ops w0 -> zlen (entries b0 l) < 2 ^ 64 ->
  zlen (StorageFacts.log_of (entries b0 l).*1) <= MAX_WAL_BYTES ->
  let b := run b0 l in
  exists w1, wal b = Some w1 /\
    let r := recover fresh' draws' uid w1 in
    my_uid r = my_uid b /\ groups r = groups b /\
    (forall u, option_Forall2 alike (friends b !! u) (friends r !! u)) /\
    (forall u, u ∉ redrawn_in l -> friends r !! u = friends b !! u) /\
    (forall n, option_Forall2 same_members (channels b !! n) (channels r !! n)) /\
    (forall n, topic_at r n = topic_at b0 n) /\ current_channel r = None.
Proof.
  intros Hlog Hops Hkeyed b0 HF Hn Hm Hsize b. apply Forall_and in HF as [HFc HFo].
  assert (Hw0 : w0 = store w0 [] 0) by (destruct w0; cbn in *; by subst).
  assert (Hb0 : wal b0 = Some (store w0 [] 0)) by (rewrite <-Hw0; done).
  pose proof (run_log w0 l b0 [] 0 Hb0 HFc ltac:(lia) Hn Hm) as Hrun. fold b in Hrun.
  exists (store w0 ([] ++ StorageFacts.log_of (entries b0 l).*1) (0 + zlen (entries b0 l))). split; [done|]. cbv zeta. unfold recover.
  rewrite (StorageFacts.replay_log (entries b0 l).*1) by done. unfold attach_wal.
  change (WalStore.load_state (store _ _ _)) with (WalStore.load_state w0).
  set (base := match WalStore.load_state w0 with Some snap => apply_snapshot fresh' _ _ | None => _ end).
  assert (Hbase : b0 = set_wal base (Some w0)).
  { unfold b0, recover, attach_wal, base. rewrite (StorageFacts.replay_log []); [|done|by rewrite Hlog]. cbn [replay_ops fmap list_fmap].
    destruct (WalStore.load_state w0) as [snap|]; [|done]. by rewrite (keyed_fresh fresh fresh') by auto. }
  assert (Hcur : current_channel base = None).
  { unfold base. destruct (WalStore.load_state w0) as [snap|]; [|done]. apply apply_snapshot_frame. }
  destruct (run_sim l ∅ b0 base draws' 0 HFo) as [Hu _ Hg Hc Hf Hk].
  { rewrite Hbase. apply resembles_wal, resembles_refl. }
  set (ops := (entries b0 l).*1.*2) in *. split_and!; [done|done|done|done|done| |].
  - intros n. change (topic_at (set_wal ?x _) n) with (topic_at x n). rewrite (proj1 (replay_topic draws' 0 base ops n)). by rewrite Hbase.
  - cbn [current_channel set_wal]. by rewrite (proj2 (replay_topic draws' 0 base ops "")).
Qed.

Lemma exec_keeps_wal e b ev : is_Some (wal b) -> is_Some (wal (exec e b ev)).
Proof.
  assert (Hl : forall b op, is_Some (wal b) -> is_Some (wal (log_wal e b op))).
  { intros b0 op [w Hw]. unfold log_wal. rewrite Hw. destruct (WalStore.append _ _ w op) as [w' r].
    destruct (WalStore.should_checkpoint _ _); cbn; eauto. }
  intros Hb. destruct ev; cbn [exec]; try (by apply Hl).
  - unfold set_edge_key. case_bool_decide; [|done]. by apply Hl.
  - unfold create_channel. case_bool_decide; [done|]. rewrite log_wal_eq, create_channel_wal. by apply Hl.
  - unfold join_channel. rewrite log_join_eq, join_channel_wal. cbn [fst wal set_wal].
    revert b Hb. induction uids as [|u us IH]; intros b Hb; [done|]. cbn. apply IH.
    unfold log_join. destruct (channels b !! channel); [|done]. case_match; [by apply Hl|done].
  - done.
  - unfold switch_channel. by case_bool_decide.
Qed.

Lemma run_keeps_wal b l : is_Some (wal b) -> is_Some (wal (run b l)).
Proof. revert b. induction l as [|[e ev] l IH]; intros b Hb; [done|]. by apply IH, exec_keeps_wal. Qed.

(** What a successful checkpoint leaves on disk. *)
Lemma checkpoint_restores fresh draws me b w e :
  wf b -> wal b = Some w -> (WalStore.checkpoint (e_checkpoint e) (e_now e) w (snapshot_bridge b)).2 = Ok tt ->
  exists w', wal (checkpoint_wal e b) = Some w' /\
    let r := recover fresh draws me w' in
    my_uid r = my_uid b /\ friends r = friends b /\ channels r = restarted <$> channels b /\
    current_channel r = None /\ reputation r = ∅ /\
    forall n c, channels b !! n = Some c -> exists g, groups r !! n = Some g /\
      forall pid, pid ∈ peer_id <$> DcGroup.participants g <->
        pid = uid_to_peer (my_uid b) \/ pid ∈ uid_to_peer <$> ch_participants c.
Proof.
  intros Hwf Hw He. unfold checkpoint_wal. rewrite Hw.
  apply StorageFacts.checkpoint_ok in He. rewrite He. cbn [wal set_wal].
  eexists. split; [done|]. cbv zeta. rewrite (recover_snapshot fresh draws me b) by done.
  cbn [my_uid friends channels groups set_wal current_channel reputation].
  destruct (apply_snapshot_frame fresh (new me) (snapshot_bridge b)) as [-> ->].
  destruct (apply_snapshot_friends fresh me b) as [-> ->]. destruct (apply_snapshot_channels fresh me b Hwf) as [-> Hg].
  rewrite restore_friends by done. split_and!; try done.
  intros n c Hc. eexists. split; [by apply Hg|]. intros pid. apply restored_group_members.
Qed.

(** C39: The operation that triggers a checkpoint is lost in a crash. [log_wal] appends it, then
    snapshots the bridge, which does not have it yet, and empties the log. What is on disk after
    any operation that logs one entry and makes a checkpoint due, with all file operations
    succeeding, is what a checkpoint just before it would have left. A new friend added by it is in memory and not in the recovered state. *)
Theorem checkpoint_drops_operation fresh draws me e b w :
  wal b = Some w -> e_append e = Appended -> e_checkpoint e = io_fine ->
  WalStore.should_checkpoint (e_now e) (WalStore.append Appended (e_ts e) w (SetUid "")).1 = true ->
  (forall ev, logged b ev <> [] -> (forall ch us, ev <> Join ch us) ->
     wal (exec e b ev) = wal (checkpoint_wal e b)) /\
  (forall uid addr trust key, friends b !! uid = None -> wf b ->
     let b' := add_friend e key b uid addr trust in
     is_friend b' uid = true /\
     exists w', wal b' = Some w' /\ is_friend (recover fresh draws me w') uid = false).
Proof.
  intros Hw Ha Hk Hdue.
  assert (Hlog : forall op, wal (log_wal e b op) = wal (checkpoint_wal e b)).
  { intros op. unfold log_wal, checkpoint_wal. rewrite Hw. unfold WalStore.append in *. rewrite Ha.
    assert (WalStore.should_checkpoint (e_now e) (WalStore.mk (WalStore.wal_log w ++ WalStore.log_line (e_ts e) op)
      (WalStore.state_json w) (WalStore.ops_since_checkpoint w +₆₄ 1) (WalStore.last_checkpoint w)
      (WalStore.checkpoint_ops w) (WalStore.checkpoint_interval w)) = true) as -> by exact Hdue.
    unfold WalStore.checkpoint. by rewrite Hk. }
  split.
  - intros ev Hev Hj. destruct ev; cbn [exec logged] in *; try apply Hlog.
    + unfold set_edge_key. case_bool_decide; [apply Hlog|done].
    + unfold create_channel. case_bool_decide; [done|]. rewrite log_wal_eq, create_channel_wal. apply Hlog.
    + by destruct (Hj channel uids).
    + by destruct Hev.
    + by destruct Hev.
  - intros uid addr trust key Hu Hwf b'. unfold is_friend. split.
    { apply bool_decide_eq_true_2. unfold b', add_friend. cbn. rewrite lookup_insert_eq. by eexists. }
    assert (Hb' : wal b' = wal (checkpoint_wal e b)) by apply Hlog. rewrite Hb'.
    unfold checkpoint_wal. rewrite Hw. unfold WalStore.checkpoint. rewrite Hk. cbn [fst wal set_wal].
    eexists. split; [done|]. rewrite (recover_snapshot fresh draws me b) by done. cbn [friends set_wal].
    destruct (apply_snapshot_friends fresh me b) as [-> _]. rewrite restore_friends by done.
    apply bool_decide_eq_false_2. rewrite Hu. by intros [? ?].
Qed.

End Durability.

(** ** Concrete runs *)

Module F2fWitness.
Import F2fDcNetBridge F2fRun SnapshotFacts.
#[local] Existing Instance toy_crypto.
#[local] Existing Instance ToyStore.toy_store.

Definition key (n : Z) : bytes := be_bytes 32 n.
Definition at_time (n : Z) : Env := mkEnv (from_secs n) (1000 * n) Appended io_fine.
Definition store0 : WalStore := WalStore.open [] None 100 0.

Definition evening : list (Env * event) :=
  [(at_time 1, Befriend "bob" "10.0.0.2:9000" 3 (key 7)); (at_time 2, Create "den");
   (at_time 3, Join "den" ["bob"; "eve"]); (at_time 4, Key "bob" (key 8)); (at_time 5, Leave "den");
   (at_time 6, Befriend "dora" "10.0.0.4:9000" 1 (key 9)); (at_time 7, Topic "den" "chess"); (at_time 8, Switch "den")].

Lemma same_participants x y : option_Forall2 same_members x y -> ch_participants <$> y = ch_participants <$> x.
Proof. intros [c d [_ E]|]; cbn; [by rewrite E|done]. Qed.

(** Bob's key was set after he was added, Dora's was not. *)
Lemma wal_recovers_witness :
  let b0 := recover (fun _ => []) (fun _ => []) "alice" store0 in
  exists w1, wal (run b0 evening) = Some w1 /\
    let r := recover (fun _ => key 1) (fun _ => key 2) "alice" w1 in
    my_uid r = "alice" /\ edge_key <$> friends r !! "bob" = Some (key 8) /\ topic_at r "den" = "" /\
    ch_participants <$> channels r !! "den" = ch_participants <$> channels (run b0 evening) !! "den".
Proof.
  cbv zeta. destruct (wal_recovers (fun _ => []) (fun _ => []) (fun _ => key 1) (fun _ => key 2) "alice" store0 evening)
    as (w1 & Hw & Hu & _ & _ & Hk & Hc & Ht & _);
    [reflexivity|reflexivity|intros snap; discriminate|repeat constructor; vm_compute; done|vm_compute; reflexivity|vm_compute; reflexivity|vm_compute; discriminate|].
  exists w1. split; [exact Hw|]. rewrite Hu. split; [vm_compute; reflexivity|].
  rewrite Hk by (apply (bool_decide_unpack _); vm_compute; exact I). split; [vm_compute; reflexivity|]. split; [rewrite Ht; vm_compute; reflexivity|].
  exact (same_participants _ _ (Hc "den")).
Defined.

(** One friend is added 61 seconds after the last checkpoint, and the process dies. *)
Lemma checkpoint_drops_operation_witness :
  let b := attach_wal (new "alice") store0 in
  let b' := add_friend (at_time 61) (key 7) b "bob" "10.0.0.2:9000" 2 in
  is_friend b' "bob" = true /\
  exists w', wal b' = Some w' /\ is_friend (recover (fun _ => []) (fun _ => []) "alice" w') "bob" = false.
Proof.
  destruct (checkpoint_drops_operation (fun _ => []) (fun _ => []) "alice" (at_time 61)
              (attach_wal (new "alice") store0) store0) as [_ Hf];
    [reflexivity|reflexivity|reflexivity|vm_compute; reflexivity|].
  apply Hf; [reflexivity|apply bridge_new_wf].
Defined.

End F2fWitness.
