(* ===== verification/LocalBroadcast.v ===== *)
(** The rest of [dcnet/f2f.rs]: [broadcast_message], the DC-net round a bridge plays for all
    participants of a channel at once, and [sync_reputation_to_trust], which it ends with.

    The ephemeral secrets are an argument; a secret is named by its position. *)

From S2P Require Import Prelude Crypto Identity Wire Float64 Dcnet RoundNetwork Group Storage F2f.

Module LocalRound.
Import F2fDcNetBridge.

Section Broadcast.
Context `{Crypto}.

Definition set_reputation (b : F2fDcNetBridge) (x : ReputationManager.t) : F2fDcNetBridge :=
  F2fDcNetBridge.mk (friends b) (channels b) (groups b) x (my_uid b) (current_channel b) (min_trust b) (wal b).

(** [while out.len() < len]: one block per turn. *)
Fixpoint expand_blocks (fuel : nat) (seed : bytes) (len : Z) (out : bytes) (counter : Z) : bytes :=
  match fuel with
  | O => out
  | S fuel' =>
      if zlen out <? len
      then expand_blocks fuel' seed len (out ++ sha256_digest (seed ++ be_bytes 8 counter)) (counter +₆₄ 1)
      else out
  end.

Definition expand_share (seed : bytes) (len : Z) : bytes :=
  take (Z.to_nat len) (expand_blocks (Z.to_nat len) seed len [] 0).

(** The pairs of [for i in 0..n { for j in (i + 1)..n { .. } }], in order. *)
Definition pairs (n : nat) : list (nat * nat) := seq 0 n ≫= fun i => (fun j => (i, j)) <$> seq (S i) (n - S i).

(** The body of that loop on [shares]. *)
Definition mask_pair (secrets : nat -> bytes) (len : Z) (shares : list bytes) (p : nat * nat) : list bytes :=
  let shared := x_dh (secrets p.1) (x_public (secrets p.2)) in
  let expanded := expand_share shared len in
  let shares := alter (fun s => xor_bytes s expanded) p.1 shares in
  alter (fun s => xor_bytes s expanded) p.2 shares.

Definition pair_shares (secrets : nat -> bytes) (n : nat) (len : Z) : list bytes :=
  foldl (mask_pair secrets len) (replicate n (zeros len)) (pairs n).

(** [iter().position(|p| *p == x)]. *)
Fixpoint position (x : bytes) (l : list bytes) : option nat :=
  match l with
  | [] => None
  | y :: r => if bool_decide (y = x) then Some O else S <$> position x r
  end.

(** Reading the length prefix back. *)
Definition extract_text (global_xor : bytes) : string :=
  if 4 <=? zlen global_xor then
    let declared_len := from_be (take 4 global_xor) in
    let actual_len := Z.min declared_len (Z.max 0 (zlen global_xor - 4)) in
    from_utf8_lossy (take (Z.to_nat actual_len) (drop 4 global_xor))
  else from_utf8_lossy global_xor.

Definition level_of (rep : Reputation) : Z :=
  if Reputation.is_malicious rep then 0
  else if f64_ge (score rep) f0_8 then 2
  else if f64_ge (score rep) f0_5 then 1
  else 0.

Definition sync_one (now : Z) (acc : F2fDcNetBridge * list (string * Z)) (f : F2fFriend)
    : F2fDcNetBridge * list (string * Z) :=
  let '(b, changes) := acc in
  let '(m, rep) := ReputationManager.get_or_create now (reputation b) (ff_peer_id f) in
  let b := set_reputation b m in
  let nt := level_of rep in
  if negb (F2f.trust_level f =? nt) then
    match friends b !! ff_uid f with
    | Some g => (set_friends b (<[ff_uid f := with_trust nt g]> (friends b)), changes ++ [(ff_uid f, nt)])
    | None => (b, changes)
    end
  else (b, changes).

(** The order in which a [HashMap] is walked is not specified; the result does not depend on it
    but for the order of [changes]. *)
Definition sync_reputation_to_trust (now : Z) (b : F2fDcNetBridge) : F2fDcNetBridge * list (string * Z) :=
  foldl (sync_one now) (b, []) (map_to_list (friends b)).*2.

(** The end of a round in the channel: its number, and the evictions. *)
Definition close_round (next_id : Z) (malicious : list bytes) (c : ChannelInfo) : ChannelInfo :=
  let bad := filter (fun u => uid_to_peer u ∈ malicious) (ch_participants c) in
  mkChannel (ch_name c) (topic c)
    (if bool_decide (malicious = []) then ch_participants c
     else foldl (fun ps u => filter (fun v => v <> u) ps) (ch_participants c) bad)
    next_id (running c).

Definition broadcast_message (now : Z) (secrets : nat -> bytes) (b : F2fDcNetBridge) (channel text : string)
    : F2fDcNetBridge * option string :=
  match groups b !! channel with
  | None => (b, None)
  | Some group =>
      let participants := peer_id <$> DcGroup.participants group in
      if zlen participants <? 2 then (b, Some text)
      else
        let next_id := match channels b !! channel with Some ch => ch_round_id ch +₆₄ 1 | None => 1 end in
        let '(group, round) := DcGroup.start_round now group next_id in
        let b := set_channels b (channels b) (<[channel := group]> (groups b)) in
        match round with
        | None => (b, None)
        | Some _ =>
            let n := length participants in
            let payload_len := 4 + zlen (string_bytes text) in
            let shares := pair_shares secrets n payload_len in
            match position (uid_to_peer (my_uid b)) participants with
            | None => (b, None)
            | Some sender_idx =>
                let payload := be_bytes 4 (wrap32 (zlen (string_bytes text))) ++ string_bytes text in
                let shares := alter (fun s => xor_bytes s payload) sender_idx shares in
                let global_xor := foldl xor_bytes (zeros payload_len) shares in
                let extracted := extract_text global_xor in
                let '(group, (_, malicious)) := DcGroup.finish_round_with group participants in
                let b := set_channels b (channels b) (<[channel := group]> (groups b)) in
                let '(m, reported) := ReputationManager.process_round now (reputation b) participants participants 100 in
                let b := set_reputation b m in
                let malicious := malicious ++ filter (fun m => length m = 32%nat) reported in
                let b := (sync_reputation_to_trust now b).1 in
                let b := set_channels b (alter (close_round next_id malicious) channel (channels b)) (groups b) in
                (b, Some ("[DC-Net round #" +:+ fmt next_id +:+ " (" +:+ fmt (Z.of_nat n) +:+ " parties)] " +:+ extracted))
            end
        end
  end.

(** The driver thread only sleeps while the flag is set. *)
Definition with_running (r : bool) (c : ChannelInfo) : ChannelInfo :=
  mkChannel (ch_name c) (topic c) (ch_participants c) (ch_round_id c) r.

Definition start_round_driver (b : F2fDcNetBridge) (channel : string) : F2fDcNetBridge :=
  match channels b !! channel with
  | Some c => if running c then b else set_channels b (<[channel := with_running true c]> (channels b)) (groups b)
  | None => b
  end.

Definition stop_round_driver (b : F2fDcNetBridge) (channel : string) : F2fDcNetBridge :=
  match channels b !! channel with
  | Some c => set_channels b (<[channel := with_running false c]> (channels b)) (groups b)
  | None => b
  end.

End Broadcast.
End LocalRound.

(** ** Lemmas *)

Module LocalFacts.
Import F2fDcNetBridge LocalRound.

Section Facts.
Context `{Crypto, !ShaLaws}.

Lemma expand_blocks_length fuel seed len out c :
  len <= zlen out + 32 * Z.of_nat fuel -> len <= zlen (expand_blocks fuel seed len out c).
Proof.
  revert out c. induction fuel as [|fuel IH]; intros out c Hl; cbn [expand_blocks]; [lia|].
  destruct (zlen out <? len) eqn:E; breflect; [|lia]. apply IH.
  unfold zlen in *. rewrite length_app, sha256_length. lia.
Qed.

Lemma expand_share_length seed len : 0 <= len -> length (expand_share seed len) = Z.to_nat len.
Proof.
  intros Hl. unfold expand_share. rewrite length_take.
  pose proof (expand_blocks_length (Z.to_nat len) seed len [] 0) as Hb. unfold zlen in *. cbn in Hb. lia.
Qed.

Lemma pairs_range n i j : (i, j) ∈ pairs n -> (i < n /\ j < n)%nat.
Proof.
  unfold pairs. intros (k & Hk & Hin)%list_elem_of_bind. apply list_elem_of_fmap in Hk as (l & [= -> ->] & Hl).
  apply elem_of_seq in Hin, Hl. lia.
Qed.

(** The XOR of one column of the shares. *)
Definition col (k : nat) (shares : list bytes) : Z := xsum ((fun s => at_ s k) <$> shares).

Lemma col_alter k e i shares :
  (i < length shares)%nat -> col k (alter (fun s => xor_bytes s e) i shares) = Z.lxor (col k shares) (at_ e k).
Proof.
  unfold col. revert i. induction shares as [|s shares IH]; intros i Hi; cbn in Hi; [lia|].
  destruct i as [|i]; cbn [alter list_alter]; rewrite !fmap_cons, !xsum_cons.
  - rewrite xor_bytes_at, !Z.lxor_assoc. f_equal. apply Z.lxor_comm.
  - rewrite IH by lia. by rewrite Z.lxor_assoc.
Qed.

(** Shares that cancel out. *)
Definition balanced (n : nat) (len : Z) (shares : list bytes) : Prop :=
  length shares = n /\ Forall (fun s => length s = Z.to_nat len) shares /\ forall k, col k shares = 0.

Lemma alter_lengths m e i (shares : list bytes) :
  Forall (fun s => length s = m) shares -> (length e <= m)%nat ->
  Forall (fun s => length s = m) (alter (fun s => xor_bytes s e) i shares).
Proof.
  intros HF He. revert i. induction HF as [|s shares Hs HF IH]; intros [|i]; cbn; constructor; auto.
  rewrite xor_bytes_length. lia.
Qed.

Lemma mask_pair_balanced secrets n len shares p :
  0 <= len -> (p.1 < n /\ p.2 < n)%nat -> balanced n len shares -> balanced n len (mask_pair secrets len shares p).
Proof.
  intros Hl [Hi Hj] (Hn & HF & Hc). unfold mask_pair. set (e := expand_share _ _).
  assert (He : (length e <= Z.to_nat len)%nat) by (unfold e; rewrite expand_share_length; lia).
  split_and!.
  - by rewrite !length_alter.
  - by apply alter_lengths; [apply alter_lengths|].
  - intros k. rewrite !col_alter by (rewrite ?length_alter; lia). rewrite Hc, Z.lxor_0_l. apply Z.lxor_nilpotent.
Qed.

Lemma pair_shares_balanced secrets n len : 0 <= len -> balanced n len (pair_shares secrets n len).
Proof.
  intros Hl. unfold pair_shares.
  assert (HF : Forall (fun p => p.1 < n /\ p.2 < n)%nat (pairs n))
    by (apply Forall_forall; intros [i j]; apply pairs_range).
  assert (Hz0 : balanced n len (replicate n (zeros len))).
  { split_and!; [apply length_replicate| |].
    - apply Forall_replicate. apply length_zeros.
    - intros k. unfold col. rewrite fmap_replicate, zeros_at. clear. induction n as [|n IH]; [done|]. cbn [replicate]. by rewrite xsum_cons, IH. }
  revert Hz0. generalize (replicate n (zeros len)). induction HF as [|p l Hp HF IH]; intros s Hs; [done|].
  cbn. by apply IH, mask_pair_balanced.
Qed.

(** The shares of all, one of them with the payload, add up to the payload. *)
Lemma shares_add_up secrets n len i payload :
  length payload = Z.to_nat len -> 0 <= len -> (i < n)%nat ->
  foldl xor_bytes (zeros len) (alter (fun s => xor_bytes s payload) i (pair_shares secrets n len)) = payload.
Proof.
  intros Hp Hl Hi. destruct (pair_shares_balanced secrets n len Hl) as (Hn & HF & Hc). apply bytes_ext.
  - rewrite Hp. apply foldl_xor_length; [apply length_zeros|]. apply alter_lengths; [done|lia].
  - intros k. rewrite foldl_xor_at, zeros_at, Z.lxor_0_l. fold (col k (alter (fun s => xor_bytes s payload) i (pair_shares secrets n len))).
    rewrite col_alter by lia. by rewrite Hc, Z.lxor_0_l.
Qed.

Lemma position_spec x l :
  match position x l with Some i => (i < length l)%nat /\ x ∈ l | None => x ∉ l end.
Proof.
  induction l as [|y l IH]; cbn [position]; [apply not_elem_of_nil|].
  case_bool_decide as E; [subst; split; [cbn; lia|apply elem_of_cons; by left]|].
  destruct (position x l) as [i|]; cbn.
  - split; [lia|]. apply elem_of_cons. right. apply IH.
  - apply not_elem_of_cons. split; [congruence|done].
Qed.

Lemma extract_payload text :
  str_ok text -> zlen (string_bytes text) < 2 ^ 32 ->
  extract_text (be_bytes 4 (wrap32 (zlen (string_bytes text))) ++ string_bytes text) = text.
Proof.
  intros Hs Hl. pose proof (zlen_nonneg (string_bytes text)). rewrite wrap32_small by lia. unfold extract_text.
  assert (Hz : zlen (be_bytes 4 (zlen (string_bytes text)) ++ string_bytes text) = 4 + zlen (string_bytes text)).
  { unfold zlen at 1. rewrite length_app, length_be_bytes. unfold zlen. lia. }
  rewrite Hz, (proj2 (Z.leb_le _ _)) by lia.
  rewrite take_app_length', drop_app_length' by (by rewrite length_be_bytes).
  rewrite from_be_bytes, Z.mod_small by (cbn; lia). rewrite take_ge by (unfold zlen in *; lia).
  by apply from_utf8_lossy_str.
Qed.

(** The record [get_or_create] returns. *)
Definition rep_of (now : Z) (b : F2fDcNetBridge) (pid : bytes) : Reputation :=
  default (Reputation.new now pid) (reputation b !! pid).

Definition resynced (now : Z) (b : F2fDcNetBridge) (f : F2fFriend) : F2fFriend :=
  with_trust (level_of (rep_of now b (ff_peer_id f))) f.

Lemma sync_one_spec now b ch f :
  friends b !! ff_uid f = Some f ->
  exists m ch', sync_one now (b, ch) f =
      (set_reputation (set_friends b (<[ff_uid f := resynced now b f]> (friends b))) m, ch') /\
    forall pid, default (Reputation.new now pid) (m !! pid) = rep_of now b pid.
Proof.
  intros Hf. unfold sync_one, ReputationManager.get_or_create, resynced, rep_of.
  assert (Hstep : forall (m : ReputationManager.t) rep,
    exists m' ch', (let b0 := set_reputation b m in
      if negb (F2f.trust_level f =? level_of rep) then
        match friends b0 !! ff_uid f with
        | Some g => (set_friends b0 (<[ff_uid f := with_trust (level_of rep) g]> (friends b0)), ch ++ [(ff_uid f, level_of rep)])
        | None => (b0, ch)
        end else (b0, ch)) = (set_reputation (set_friends b (<[ff_uid f := with_trust (level_of rep) f]> (friends b))) m', ch') /\ m' = m).
  { intros m rep. cbn [friends set_reputation]. rewrite Hf. destruct (Z.eqb_spec (F2f.trust_level f) (level_of rep)) as [E|E]; cbn [negb].
    - exists m, ch. split; [|done]. rewrite <-E. replace (with_trust (F2f.trust_level f) f) with f by (by destruct f).
      rewrite insert_id by done. by destruct b.
    - exists m. eexists. split; [|done]. by destruct b. }
  destruct (reputation b !! ff_peer_id f) as [r|] eqn:E; cbn [default].
  - destruct (Hstep (reputation b) r) as (m & ch' & E' & ->). exists (reputation b), ch'. by split; [exact E'|].
  - destruct (Hstep (<[ff_peer_id f := Reputation.new now (ff_peer_id f)]> (reputation b)) (Reputation.new now (ff_peer_id f)))
      as (m & ch' & E' & ->). eexists _, ch'. split; [exact E'|]. intros pid.
    destruct (decide (pid = ff_peer_id f)) as [->|Hp]; [rewrite lookup_insert_eq, E; done|by rewrite lookup_insert_ne].
Qed.

Lemma sync_fold now b ch (l : list (string * F2fFriend)) :
  Forall (fun p => ff_uid p.2 = p.1 /\ friends b !! p.1 = Some p.2) l -> NoDup l.*1 ->
  exists m ch', foldl (sync_one now) (b, ch) l.*2 =
    (set_reputation (set_friends b (foldl (fun m p => <[p.1 := resynced now b p.2]> m) (friends b) l)) m, ch').
Proof.
  intros HF Hnd. revert b ch HF. induction l as [|[u f] l IH]; intros b ch HF.
  { exists (reputation b), ch. cbn. by destruct b. }
  apply Forall_cons in HF as [[Hu Hf] HF]. apply NoDup_cons in Hnd as [Hu' Hnd]. cbn [fst snd] in *. subst u.
  destruct (sync_one_spec now b ch f Hf) as (m & ch1 & E & Hm). cbn [fmap list_fmap foldl snd fst]. rewrite E.
  set (b1 := set_reputation _ m) in *.
  destruct (IH Hnd b1 ch1) as (m' & ch' & ->).
  { rewrite Forall_forall in *. intros [u g] Hin. destruct (HF _ Hin) as [Hu Hg]. split; [done|].
    cbn in *. rewrite lookup_insert_ne; [done|]. intros Eu. apply Hu'. rewrite Eu. apply list_elem_of_fmap. by exists (u, g). }
  exists m', ch'. f_equal. assert (Hr : forall g, resynced now b1 g = resynced now b g).
  { intros g. unfold resynced, rep_of at 1. cbn [reputation set_reputation b1]. by rewrite Hm. }
  assert (Hl : forall m0 : gmap string F2fFriend, foldl (fun m p => <[p.1 := resynced now b1 p.2]> m) m0 l =
    foldl (fun m p => <[p.1 := resynced now b p.2]> m) m0 l).
  { clear -Hr. induction l as [|[u g] l IH]; intros m0; [done|]. cbn. by rewrite Hr, IH. }
  rewrite Hl. done.
Qed.

Lemma sync_spec now b :
  SnapshotFacts.wf b ->
  exists m, (sync_reputation_to_trust now b).1 = set_reputation (set_friends b (resynced now b <$> friends b)) m.
Proof.
  intros [Hf _]. unfold sync_reputation_to_trust.
  destruct (sync_fold now b [] (map_to_list (friends b))) as (m & ch & ->).
  - apply Forall_forall. intros [u f] Hin%elem_of_map_to_list. cbn. split; [by apply (Hf u f)|done].
  - apply NoDup_fst_map_to_list.
  - exists m. cbn [fst]. f_equal. f_equal. apply map_eq. intros u. rewrite lookup_fmap.
    set (g := fun p : string * F2fFriend => resynced now b p.2).
    change (foldl _ _ _) with (foldl (fun (m : gmap string F2fFriend) p => <[p.1 := g p]> m) (friends b) (map_to_list (friends b))).
    destruct (friends b !! u) as [f|] eqn:E.
    + pose proof (SnapshotFacts.foldl_insert_mem g fst (map_to_list (friends b)) (friends b) (u, f)) as Hm.
      apply Hm; [apply NoDup_fst_map_to_list|by apply elem_of_map_to_list].
    + rewrite (SnapshotFacts.foldl_insert_fresh g fst); [done|].
      intros ([? f] & -> & Hin)%list_elem_of_fmap. apply elem_of_map_to_list in Hin. cbn in E. congruence.
Qed.

Lemma sync_frame now b ch l :
  let b' := (foldl (sync_one now) (b, ch) l).1 in channels b' = channels b /\ wal b' = wal b.
Proof.
  revert b ch. induction l as [|f l IH]; intros b ch; [done|]. cbn [foldl].
  assert (Hone : channels (sync_one now (b, ch) f).1 = channels b /\ wal (sync_one now (b, ch) f).1 = wal b)
    by (unfold sync_one; repeat case_match; simplify_eq; done).
  destruct (sync_one now (b, ch) f) as [b1 ch1]. destruct (IH b1 ch1) as [-> ->]. done.
Qed.

End Facts.
End LocalFacts.

Section LocalProperties.
Context `{Crypto, !ShaLaws}.
Import F2fDcNetBridge LocalRound LocalFacts.

(** The number of the next round of a channel. *)
Definition next_round (b : F2fDcNetBridge) (channel : string) : Z :=
  match channels b !! channel with Some c => ch_round_id c +₆₄ 1 | None => 1 end.


(** Reputation overrules verification. A synchronisation, which ends every local round, gives
    every friend the level of its record, and a friend that never took part in a round the record
    of a newcomer, whose level is 1: a friend the user marked unverified is
    trusted from then on, one the user trusted fully no longer is, and the log does not record it. *)
Theorem sync_overrules_verification now b uid f :
  SnapshotFacts.wf b -> friends b !! uid = Some f ->
  let b' := (sync_reputation_to_trust now b).1 in
  get_trust b' uid = level_of (rep_of now b (ff_peer_id f)) /\
  (reputation b !! ff_peer_id f = None ->
     get_trust b' uid = 1 /\ is_trusted b' uid = (min_trust b <=? 1)) /\
  wal b' = wal b.
Proof.
  intros Hwf Hf. destruct (sync_spec now b Hwf) as [m E]. cbv zeta. rewrite E.
  assert (Hl : (resynced now b <$> friends b) !! uid = Some (resynced now b f)) by (by rewrite lookup_fmap, Hf).
  unfold get_trust, is_trusted. cbn [friends set_reputation set_friends wal min_trust]. rewrite Hl. split_and!; try done.
  intros Hr. unfold resynced, rep_of. by rewrite Hr.
Qed.

End LocalProperties.

Module LocalWitness.
Import F2fDcNetBridge F2fRun LocalRound.
#[local] Existing Instance toy_crypto.
#[local] Existing Instance ToyStore.toy_store.

(** Alice with Bob in a channel, and Eve, whom she has not verified. *)
Definition alice : F2fDcNetBridge :=
  run (new "alice")
    [(F2fWitness.at_time 1, Befriend "bob" "10.0.0.2:9000" 1 (F2fWitness.key 7));
     (F2fWitness.at_time 2, Befriend "eve" "10.0.0.3:9000" 0 (F2fWitness.key 9));
     (F2fWitness.at_time 3, Create "den"); (F2fWitness.at_time 4, Join "den" ["bob"])].


Lemma sync_overrules_verification_witness :
  is_trusted alice "eve" = false /\ is_trusted (sync_reputation_to_trust 5 alice).1 "eve" = true.
Proof.
  split; [vm_compute; reflexivity|].
  assert (Hwf : SnapshotFacts.wf alice).
  { apply SnapshotFacts.run_wf; [repeat constructor; vm_compute; done|apply SnapshotFacts.bridge_new_wf]. }
  destruct (friends alice !! "eve") as [f|] eqn:E; [|vm_compute in E; discriminate].
  destruct (sync_overrules_verification 5 alice "eve" f Hwf E) as (_ & Hr & _).
  apply Hr. vm_compute. reflexivity.
Defined.

End LocalWitness.
