(* ===== verification/Durability.v ===== *)
(** Checkpoints over the whole life of a bridge: the operations of [dcnet/f2f.rs] that the log
    records ([F2f]), those it does not (topics, the current channel, local rounds with the trust
    changes and evictions they cause, round drivers), explicit checkpoints, and restarts. *)

From S2P Require Import Prelude Crypto Identity Wire Float64 Dcnet RoundNetwork Group Storage F2f LocalBroadcast.

Module BridgeLife.
Import F2fDcNetBridge F2fRun LocalRound SnapshotFacts.

(** Every method of the bridge that changes it. *)
Inductive op :=
| Do (e : Env) (ev : event)
| ImportKey (e : Env) (uid hex : string)
| Broadcast (now : Z) (secrets : nat -> bytes) (channel text : string)
| Sync (now : Z)
| StartDriver (channel : string)
| StopDriver (channel : string)
| Checkpoint (e : Env).

Section Life.
Context `{Crypto, StoreJson}.

Definition perform (b : F2fDcNetBridge) (o : op) : F2fDcNetBridge :=
  match o with
  | Do e ev => exec e b ev
  | ImportKey e uid hex => (import_edge_key e b uid hex).1
  | Broadcast now secrets channel text => (broadcast_message now secrets b channel text).1
  | Sync now => (sync_reputation_to_trust now b).1
  | StartDriver channel => start_round_driver b channel
  | StopDriver channel => stop_round_driver b channel
  | Checkpoint e => checkpoint_wal e b
  end.

(** The keys an operation is given, or draws, have the type [[u8; 32]]. *)
Definition op_ok (o : op) : Prop := match o with Do _ ev => event_ok ev | _ => True end.

(** A bridge with a store: a new one, or one recovered from any files, then any operations. *)
Inductive reached : F2fDcNetBridge -> Prop :=
| re_new uid w : reached (attach_wal (new uid) w)
| re_recover fresh draws uid w :
    (forall u, key_ok (fresh u)) -> (forall i, key_ok (draws i)) -> reached (recover fresh draws uid w)
| re_op b o : reached b -> op_ok o -> reached (perform b o).

Lemma reached_ops b l : reached b -> Forall op_ok l -> reached (foldl perform b l).
Proof. intros Hb HF. revert b Hb. induction HF as [|o l Ho HF IH]; intros b Hb; [done|]. by apply IH, re_op. Qed.

(** ** The tables stay well-formed and the store stays attached *)

Definition sound (b : F2fDcNetBridge) : Prop := wf b /\ is_Some (wal b).

(** A method that leaves the friends alone and keeps the names of the channels. *)
Lemma sound_channels b b' :
  sound b -> friends b' = friends b -> wal b' = wal b -> map_Forall (fun n c => ch_name c = n) (channels b') -> sound b'.
Proof. intros [[Hf _] Hw] Ef Ew Hc. split; [split|]; by rewrite ?Ef, ?Ew. Qed.

Lemma level_of_bound rep : level_of rep <= 2.
Proof. unfold level_of. repeat case_match; lia. Qed.

Lemma sync_sound now b : sound b -> sound (sync_reputation_to_trust now b).1.
Proof.
  intros [Hwf Hw]. destruct (LocalFacts.sync_spec now b Hwf) as [m ->]. destruct Hwf as [Hf Hc]. split; [split|]; [|done|done].
  cbn [friends set_reputation set_friends]. intros u f. rewrite lookup_fmap, fmap_Some. intros (g & Hg & ->).
  destruct (Hf u g Hg) as (? & ? & _ & ? & ?). split_and!; try done. apply level_of_bound.
Qed.

Lemma broadcast_sound now secrets b channel text : sound b -> sound (broadcast_message now secrets b channel text).1.
Proof.
  intros Hb. pose proof (proj2 (proj1 Hb)) as Hc.
  assert (Hg : forall gs, sound (set_channels b (channels b) gs)) by (intros; by apply (sound_channels b)).
  unfold broadcast_message. destruct (groups b !! channel) as [g|]; [|done]. cbv zeta. case_match; [done|].
  destruct (DcGroup.start_round _ _ _) as [g1 round]. destruct round; [|apply Hg]. case_match; [|apply Hg].
  destruct (DcGroup.finish_round_with _ _) as [g2 [? malicious]]. destruct (ReputationManager.process_round _ _ _ _ _) as [m reported].
  cbn [fst set_channels groups channels]. set (b1 := set_reputation _ m).
  assert (Hs : sound (sync_reputation_to_trust now b1).1) by (apply sync_sound; by apply (sound_channels b)).
  eapply sound_channels; [exact Hs|done|done|]. cbn [channels set_channels]. apply map_Forall_alter; [apply Hs|]. done.
Qed.

Lemma drivers_sound b channel : sound b -> sound (start_round_driver b channel) /\ sound (stop_round_driver b channel).
Proof.
  intros Hb. pose proof (proj2 (proj1 Hb)) as Hc. unfold start_round_driver, stop_round_driver.
  destruct (channels b !! channel) as [c|] eqn:E; [|done]. pose proof (Hc _ _ E) as Hn.
  split; [destruct (running c); [done|]|]; (eapply sound_channels; [exact Hb|done|done|]); by apply map_Forall_insert_2.
Qed.

Lemma import_is_key e b uid hex :
  (exists key, key_ok key /\ (import_edge_key e b uid hex).1 = exec e b (Key uid key)) \/ (import_edge_key e b uid hex).1 = b.
Proof.
  unfold import_edge_key. destruct (from_hex hex) as [k|] eqn:E; [left|by right]. exists k. split; [|done].
  unfold from_hex in E. destruct (hex_decode hex) as [v|] eqn:Ev; cbn in E; [|done]. unfold array32 in E. case_bool_decide; simplify_eq.
  split; [done|]. by eapply hex_decode_bytes_ok.
Qed.

Lemma exec_sound e b ev : event_ok ev -> sound b -> sound (exec e b ev).
Proof. intros Hok [Hwf Hw]. split; [by apply exec_wf|by apply exec_keeps_wal]. Qed.

Lemma perform_sound b o : op_ok o -> sound b -> sound (perform b o).
Proof.
  intros Hok Hb. destruct o; cbn [perform].
  - by apply exec_sound.
  - destruct (import_is_key e b uid hex) as [(key & Hk & ->)| ->]; [by apply exec_sound|done].
  - by apply broadcast_sound.
  - by apply sync_sound.
  - by apply drivers_sound.
  - by apply drivers_sound.
  - destruct Hb as [Hwf [w Hw]]. unfold checkpoint_wal. by rewrite Hw.
Qed.

Lemma reached_sound b : reached b -> sound b.
Proof.
  induction 1 as [uid w|fresh draws uid w Hf Hd|b o _ IH Ho].
  - split; [apply bridge_new_wf|done].
  - split; [by apply recover_wf|done].
  - by apply perform_sound.
Qed.

End Life.
End BridgeLife.

Section Checkpoints.
Context `{Crypto, StoreJson, !StoreJsonLaws}.
Import F2fDcNetBridge BridgeLife SnapshotFacts.

(** C20: A checkpoint keeps what the bridge has, whatever led to it. Take any bridge with a store: new, or
    recovered from files in any state, followed by any friend, trust, key, channel, topic and name
    operations, local rounds with the trust changes and evictions they cause, round drivers and
    earlier checkpoints. If a checkpoint succeeds and the node restarts, it has the same uid and the same
    friends, addresses, trust levels and edge keys, with no key drawn anew, and the same
    channels with topics and participants; round counters start over at 0 and no driver
    runs. The group of a restored channel has exactly its participants and the node itself.
    There is no current channel and no reputation record. *)
Theorem checkpoint_roundtrip fresh draws me b w e :
  reached b -> wal b = Some w -> (WalStore.checkpoint (e_checkpoint e) (e_now e) w (snapshot_bridge b)).2 = Ok tt ->
  exists w', wal (checkpoint_wal e b) = Some w' /\
    let r := recover fresh draws me w' in
    my_uid r = my_uid b /\ friends r = friends b /\
    dom (channels r) = dom (channels b) /\
    (forall n c, channels b !! n = Some c -> exists d g,
       channels r !! n = Some d /\ groups r !! n = Some g /\
       topic d = topic c /\ ch_participants d = ch_participants c /\ ch_round_id d = 0 /\ running d = false /\
       forall pid, pid ∈ peer_id <$> DcGroup.participants g <->
         pid = uid_to_peer (my_uid b) \/ pid ∈ uid_to_peer <$> ch_participants c) /\
    current_channel r = None /\ reputation r = ∅.
Proof.
  intros Hr Hw He. destruct (reached_sound b Hr) as [Hwf _].
  destruct (checkpoint_restores fresh draws me b w e Hwf Hw He) as (w' & Hw' & Hu & Hf & Hc & Hcur & Hrep & Hg). exists w'.
  cbv zeta. split_and!; [done|done|done|by rewrite Hc, dom_fmap_L| |done|done].
  intros n c Hn. destruct (Hg n c Hn) as (g & Hgn & Hm). exists (restarted c), g. rewrite Hc, lookup_fmap, Hn. by split_and!.
Qed.

End Checkpoints.

Module LifeWitness.
Import F2fDcNetBridge F2fRun LocalRound BridgeLife SnapshotFacts F2fWitness.
#[local] Existing Instance toy_crypto.
#[local] Existing Instance ToyStore.toy_store.

(** A recovered node with Bob and Dora in its channel, which has a topic, two local rounds and a running driver. *)
Definition life : F2fDcNetBridge :=
  foldl perform (recover (fun _ => key 1) (fun _ => key 2) "alice" store0)
    [Do (at_time 1) (Befriend "bob" "10.0.0.2:9000" 2 (key 7)); Do (at_time 2) (Befriend "dora" "10.0.0.4:9000" 1 (key 9));
     Do (at_time 3) (Create "den"); Do (at_time 4) (Join "den" ["bob"; "dora"]); Do (at_time 5) (Topic "den" "chess");
     Broadcast 6 (fun i => key (Z.of_nat i)) "den" "hi"; Broadcast 7 (fun i => key (Z.of_nat i)) "den" "again";
     StartDriver "den"; Do (at_time 8) (Switch "den")].

Lemma key_small n : key_ok (key n).
Proof. split; [apply length_be_bytes|apply be_bytes_ok]. Qed.

Lemma life_reached : reached life.
Proof. apply reached_ops; [apply re_recover; intros; apply key_small|]. repeat (apply Forall_cons; split); try exact I; try apply key_small. by apply Forall_nil. Qed.

(** Bob's trust is the level his reputation gave him, not the one he was added with. *)
Lemma checkpoint_roundtrip_witness :
  get_trust life "bob" = 1 /\ ch_round_id <$> channels life !! "den" = Some 2 /\
  exists w', wal (checkpoint_wal (at_time 9) life) = Some w' /\
    let r := recover (fun _ => key 3) (fun _ => key 4) "nobody" w' in
    my_uid r = "alice" /\ get_trust r "bob" = 1 /\ edge_key <$> friends r !! "bob" = Some (key 7) /\
    topic_at r "den" = "chess" /\ ch_round_id <$> channels r !! "den" = Some 0.
Proof.
  split; [vm_compute; reflexivity|]. split; [vm_compute; reflexivity|].
  destruct (wal life) as [w|] eqn:Ew; [|vm_compute in Ew; discriminate].
  destruct (checkpoint_roundtrip (fun _ => key 3) (fun _ => key 4) "nobody" life w (at_time 9) life_reached Ew)
    as (w' & Hw & Hu & Hf & _ & Hc & _); [reflexivity|].
  exists w'. cbv zeta. split; [exact Hw|]. unfold get_trust. rewrite Hu, Hf.
  split; [vm_compute; reflexivity|]. split; [vm_compute; reflexivity|]. split; [vm_compute; reflexivity|].
  destruct (channels life !! "den") as [c|] eqn:E; [|vm_compute in E; discriminate].
  destruct (Hc "den" c E) as (d & g & Hd & _ & Ht & _ & Hi & _). unfold topic_at. rewrite Hd. cbn. rewrite Ht, Hi.
  split; [|reflexivity]. vm_compute in E. injection E as <-. reflexivity.
Defined.

End LifeWitness.
