(* ===== verification/Ratchet.v ===== *)
(** [ratchet.rs]: the message ratchet between two peers.

    The secrets and nonces the code draws are arguments. [expect] on the AEAD is an option: [None]
    is the panic. *)

From S2P Require Import Prelude Crypto.

(** [u64::to_le_bytes]. *)
Definition le_bytes8 (z : Z) : bytes := rev (be_bytes 8 z).

Module RatchetState.

Record t := mk {
  dh_private : bytes;
  dh_public : bytes;
  root_key : bytes;
  send_chain : bytes;
  recv_chain : bytes;
  send_idx : Z;
  recv_idx : Z;
  expected_recv_idx : Z;
  prev_hash : bytes;
  snapshot_count : Z;
  handshake_done : bool;
}.

Section Ratchet.
Context `{Crypto}.

Definition hkdf_expand (prk info : bytes) : bytes := hkdf32 None prk info.

(** [private] is what [StaticSecret::random_from_rng] returns. *)
Definition new_alice (private : bytes) : t :=
  {| dh_private := private; dh_public := x_public private;
     root_key := zeros 32; send_chain := zeros 32; recv_chain := zeros 32;
     send_idx := 0; recv_idx := 0; expected_recv_idx := 1; prev_hash := zeros 32;
     snapshot_count := 0; handshake_done := false |}.

Definition complete_handshake (s : t) (peer_public : bytes) : t :=
  if handshake_done s then s
  else
    let shared_secret := x_dh (dh_private s) peer_public in
    let root := hkdf_expand shared_secret (string_bytes "chrono-ratchet-v1") in
    mk (dh_private s) (dh_public s) root root root (send_idx s) (recv_idx s) (expected_recv_idx s)
      (prev_hash s) (snapshot_count s) true.

Definition new_bob (private alice_public : bytes) : t := complete_handshake (new_alice private) alice_public.

(** The frame, its index and the chain hash. *)
Definition encrypt (nonce : bytes) (s : t) (plaintext : bytes) : option (t * (bytes * Z * bytes)) :=
  let idx := send_idx s +₆₄ 1 in
  let msg_key := hkdf_expand (send_chain s) (le_bytes8 idx) in
  ciphertext ← aes_encrypt msg_key nonce plaintext;
  let chain := hkdf_expand (send_chain s) (string_bytes "chain-advance") in
  let result := nonce ++ ciphertext in
  let hash := sha256_digest (prev_hash s ++ result) in
  Some (mk (dh_private s) (dh_public s) (root_key s) chain (recv_chain s) idx (recv_idx s)
          (expected_recv_idx s) hash (snapshot_count s) (handshake_done s), (result, idx, hash)).

Definition decrypt (s : t) (encrypted : bytes) (msg_idx : Z) : t * option (bytes * bytes) :=
  if zlen encrypted <? 28 then (s, None)
  else if msg_idx <? expected_recv_idx s then (s, None)
  else
    let msg_key := hkdf_expand (recv_chain s) (le_bytes8 msg_idx) in
    match aes_decrypt msg_key (take 12 encrypted) (drop 12 encrypted) with
    | None => (s, None)
    | Some plaintext =>
        let expected := msg_idx +₆₄ 1 in
        let chain := hkdf_expand (recv_chain s) (string_bytes "chain-advance") in
        let hash := sha256_digest (prev_hash s ++ encrypted) in
        (mk (dh_private s) (dh_public s) (root_key s) (send_chain s) chain (send_idx s) msg_idx
           expected hash (snapshot_count s) (handshake_done s), Some (plaintext, hash))
    end.

Definition dh_ratchet_advance (new_private : bytes) (s : t) (peer_new_public : bytes) : t :=
  let new_public := x_public new_private in
  let shared1 := x_dh (dh_private s) peer_new_public in
  let shared2 := x_dh new_private peer_new_public in
  let combined := shared1 ++ shared2 in
  mk new_private new_public (hkdf_expand combined (string_bytes "dh-ratchet")) (send_chain s) (recv_chain s)
    (send_idx s) (recv_idx s) (expected_recv_idx s) (prev_hash s) (snapshot_count s) (handshake_done s).

End Ratchet.
End RatchetState.

Abbreviation RatchetState := RatchetState.t.

(** ** Lemmas *)

Module RatchetFacts.
Import RatchetState.

Section Facts.
Context `{Crypto}.

(** Sending a list of messages, each with the nonce drawn for it; [None] is a panic. *)
Fixpoint send_all (s : t) (l : list (bytes * bytes)) : option (t * list (bytes * Z * bytes)) :=
  match l with
  | [] => Some (s, [])
  | (nonce, m) :: r =>
      '(s, f) ← encrypt nonce s m;
      '(s, fs) ← send_all s r;
      Some (s, f :: fs)
  end.

(** Receiving a list of frames in order; what each call returned. *)
Fixpoint recv_all (s : t) (fs : list (bytes * Z * bytes)) : t * list (option (bytes * bytes)) :=
  match fs with
  | [] => (s, [])
  | f :: r =>
      let '(s, o) := decrypt s f.1.1 f.1.2 in
      let '(s, os) := recv_all s r in (s, o :: os)
  end.

(** The receiver is where the sender is. *)
Definition in_step (a b : t) : Prop :=
  recv_chain b = send_chain a /\ expected_recv_idx b = send_idx a + 1.

(** A message the AEAD accepts, with a nonce of its size. *)
Definition sendable (p : bytes * bytes) : Prop := length p.1 = 12%nat /\ zlen p.2 < 2 ^ 36.

Context `{!HkdfLaws, !AesLaws}.

Lemma encrypt_total nonce a m :
  sendable (nonce, m) ->
  exists c, aes_encrypt (hkdf_expand (send_chain a) (le_bytes8 (send_idx a +₆₄ 1))) nonce m = Some c /\
  exists a', encrypt nonce a m = Some (a', (nonce ++ c, send_idx a +₆₄ 1, prev_hash a')) /\
    send_idx a' = send_idx a +₆₄ 1 /\ send_chain a' = hkdf_expand (send_chain a) (string_bytes "chain-advance") /\
    prev_hash a' = sha256_digest (prev_hash a ++ nonce ++ c).
Proof.
  intros [Hn Hm]. cbn in *. unfold encrypt.
  destruct (aes_encrypt_total (hkdf_expand (send_chain a) (le_bytes8 (send_idx a +₆₄ 1))) nonce m) as [c Hc];
    [apply hkdf32_length|done|done|].
  exists c. split; [done|]. rewrite Hc. cbn [mbind option_bind].
  eexists. split; [apply f_equal, f_equal2; reflexivity|]. done.
Qed.

Lemma sealed_length k nonce m c :
  length nonce = 12%nat -> aes_encrypt k nonce m = Some c -> zlen (nonce ++ c) <? 28 = false.
Proof.
  intros Hn Hc. pose proof (aes_tag _ _ _ _ Hc). pose proof (zlen_nonneg m).
  apply Z.ltb_ge. rewrite zlen_app. replace (zlen nonce) with 12 by (unfold zlen; lia). lia.
Qed.

(** One frame in step is read, and the two stay in step. *)
Lemma step_delivers nonce a b m :
  sendable (nonce, m) -> in_step a b -> 0 <= send_idx a < 2 ^ 64 - 2 ->
  exists a' frame b', encrypt nonce a m = Some (a', (frame, send_idx a + 1, prev_hash a')) /\
    decrypt b frame (send_idx a + 1) = (b', Some (m, prev_hash b')) /\
    in_step a' b' /\ send_idx a' = send_idx a + 1 /\ (prev_hash b = prev_hash a -> prev_hash b' = prev_hash a').
Proof.
  intros Hs (Hc & He) Hi. destruct (encrypt_total nonce a m Hs) as (c & Hk & a' & Henc & Hidx & Hch & Hp).
  rewrite wrap64_small in * by lia. exists a', (nonce ++ c). unfold decrypt.
  destruct Hs as [Hn _]. cbn in Hn.
  rewrite (sealed_length _ _ _ _ Hn Hk), He, Z.ltb_irrefl, Hc. rewrite take_app_length', drop_app_length' by done.
  rewrite (aes_round_trip _ _ _ _ Hk). eexists. split_and!; [done|apply f_equal2; reflexivity| |done|].
  - unfold in_step. cbn [recv_chain expected_recv_idx]. rewrite wrap64_small by lia.
    rewrite Hch, Hidx. split_and!; [done|lia].
  - intros Hh. cbn [prev_hash]. by rewrite Hh, Hp.
Qed.

Lemma stream_delivers l a b :
  Forall sendable l -> in_step a b -> 0 <= send_idx a -> send_idx a + zlen l < 2 ^ 64 - 2 ->
  exists a' fs b' os, send_all a l = Some (a', fs) /\ recv_all b fs = (b', os) /\
    fmap fst <$> os = Some <$> l.*2 /\ in_step a' b' /\
    fs.*1.*2 = seqZ (send_idx a + 1) (zlen l) /\ send_idx a' = send_idx a + zlen l /\
    (prev_hash b = prev_hash a -> fmap snd <$> os = Some <$> fs.*2 /\ prev_hash b' = prev_hash a').
Proof.
  intros HF. revert a b. induction HF as [|[nonce m] l Hp HF IH]; intros a b Hs Hge Hl.
  { exists a, [], b, []. rewrite Z.add_0_r. done. }
  rewrite zlen_cons in *. pose proof (zlen_nonneg l).
  destruct (step_delivers nonce a b m Hp Hs) as (a1 & f & b1 & He & Hd & Hs1 & Hi & Hh); [lia|].
  destruct (IH a1 b1 Hs1) as (a' & fs & b' & os & Hsend & Hrecv & Hm & Hs' & Hidx & Hi' & Hh'); [lia..|].
  exists a', ((f, send_idx a + 1, prev_hash a1) :: fs), b', (Some (m, prev_hash b1) :: os).
  cbn [send_all recv_all fst snd]. rewrite He. cbn [mbind option_bind]. rewrite Hsend.
  cbn [mbind option_bind]. rewrite Hd, Hrecv. split_and!; try done.
  - cbn. by rewrite Hm.
  - cbn. rewrite Hidx, Hi. rewrite (seqZ_cons _ (1 + zlen l)) by lia. f_equal. f_equal; lia.
  - lia.
  - intros E. destruct (Hh' (Hh E)) as [E1 E2]. split; [|done]. cbn. by rewrite E1, Hh.
Qed.

(** The index of the next frame a receiver takes never goes back. *)
Lemma decrypt_expected s f i :
  expected_recv_idx s <= i -> i < 2 ^ 64 - 1 -> 0 <= i ->
  expected_recv_idx s <= expected_recv_idx (decrypt s f i).1.
Proof. intros. unfold decrypt. repeat case_match; cbn; try lia. rewrite wrap64_small by lia. lia. Qed.

Lemma decrypt_stale s f i : i < expected_recv_idx s -> decrypt s f i = (s, None).
Proof. intros Hi. unfold decrypt. destruct (zlen f <? 28); [done|]. by rewrite (proj2 (Z.ltb_lt _ _)). Qed.

Lemma encrypt_recv_side nonce a m a' o :
  encrypt nonce a m = Some (a', o) ->
  recv_chain a' = recv_chain a /\ expected_recv_idx a' = expected_recv_idx a.
Proof. unfold encrypt. intros (c & _ & [= <- _])%bind_Some. done. Qed.

Lemma send_all_recv_side l a a' fs :
  send_all a l = Some (a', fs) ->
  recv_chain a' = recv_chain a /\ expected_recv_idx a' = expected_recv_idx a.
Proof.
  revert a fs. induction l as [|[nonce m] l IH]; intros a fs; cbn [send_all]; [by intros [= -> _]|].
  intros ([a1 f] & He & ([a2 fs'] & Hs & [= -> _])%bind_Some)%bind_Some.
  destruct (IH _ _ Hs) as [-> ->]. by eapply encrypt_recv_side.
Qed.

End Facts.
End RatchetFacts.

(** ** Histories of one state *)

Module RatchetRun.
Import RatchetState.

Inductive op :=
| Handshake (peer_public : bytes)
| Send (nonce plaintext : bytes)
| Recv (frame : bytes) (idx : Z)
| Advance (new_private peer_public : bytes).

(** What a call hands to its caller. *)
Inductive output :=
| Nothing
| Sent (frame : bytes) (idx : Z) (hash : bytes)
| Received (o : option (bytes * bytes)).

Section Run.
Context `{Crypto}.

Definition step (s : t) (o : op) : option (t * output) :=
  match o with
  | Handshake p => Some (complete_handshake s p, Nothing)
  | Send n m => '(s, (f, i, h)) ← encrypt n s m; Some (s, Sent f i h)
  | Recv f i => let '(s, r) := decrypt s f i in Some (s, Received r)
  | Advance sk p => Some (dh_ratchet_advance sk s p, Nothing)
  end.

Fixpoint run (s : t) (l : list op) : option (t * list output) :=
  match l with
  | [] => Some (s, [])
  | o :: r => '(s, x) ← step s o; '(s, xs) ← run s r; Some (s, x :: xs)
  end.

(** Equal but for the Diffie-Hellman pair and the root key. *)
Definition same_chains (s1 s2 : t) : Prop :=
  send_chain s1 = send_chain s2 /\ recv_chain s1 = recv_chain s2 /\ send_idx s1 = send_idx s2 /\
  recv_idx s1 = recv_idx s2 /\ expected_recv_idx s1 = expected_recv_idx s2 /\ prev_hash s1 = prev_hash s2 /\
  handshake_done s1 = handshake_done s2.

#[export] Instance same_chains_equiv : Equivalence same_chains.
Proof. split; unfold same_chains; repeat intro; naive_solver congruence. Qed.

Lemma encrypt_same_chains n m s1 s2 s1' o :
  same_chains s1 s2 -> encrypt n s1 m = Some (s1', o) ->
  exists s2', encrypt n s2 m = Some (s2', o) /\ same_chains s1' s2'.
Proof.
  intros (Hs & Hr & Hi & Hri & He & Hp & Hd). unfold encrypt. rewrite <-Hs, <-Hi, <-Hp.
  intros (c & -> & [= <- <-])%bind_Some. cbn [mbind option_bind]. eexists. split; [done|]. by split_and!.
Qed.

Lemma decrypt_same_chains f i s1 s2 :
  same_chains s1 s2 ->
  (decrypt s1 f i).2 = (decrypt s2 f i).2 /\ same_chains (decrypt s1 f i).1 (decrypt s2 f i).1.
Proof.
  intros HS. pose proof HS as (Hs & Hr & Hi & Hri & He & Hp & Hd). unfold decrypt. rewrite <-Hr, <-He, <-Hp.
  destruct (zlen f <? 28); [done|]. destruct (i <? _); [done|].
  destruct (aes_decrypt _ _ _); [|done]. split; [done|]. by split_and!.
Qed.

Lemma step_done s o s' x : handshake_done s = true -> step s o = Some (s', x) -> handshake_done s' = true.
Proof.
  intros Hs. destruct o; cbn [step].
  - intros [= <- _]. unfold complete_handshake. by rewrite Hs.
  - unfold encrypt. by intros ([? [[? ?] ?]] & (? & _ & [= <- _ _ _])%bind_Some & [= <- _])%bind_Some.
  - unfold decrypt. repeat case_match; intros; simplify_eq; done.
  - by intros [= <- _].
Qed.

Lemma run_done l s s' xs : handshake_done s = true -> run s l = Some (s', xs) -> handshake_done s' = true.
Proof.
  revert s xs. induction l as [|o l IH]; intros s xs Hs; cbn [run]; [by intros [= <- _]|].
  intros ([v x] & Hx & ([v' ys] & Hr & [= <- _])%bind_Some)%bind_Some. by eapply IH, Hr; eapply step_done.
Qed.

(** Traffic after the handshake depends on the chains alone. *)
Lemma run_same_chains l s1 s2 s1' xs :
  handshake_done s1 = true -> same_chains s1 s2 -> run s1 l = Some (s1', xs) ->
  exists s2', run s2 l = Some (s2', xs) /\ same_chains s1' s2'.
Proof.
  revert s1 s2 xs. induction l as [|o l IH]; intros s1 s2 xs Hd HS; cbn [run].
  { intros [= -> <-]. eauto. }
  intros ([t1 x] & Hx & ([t1' ys] & Hr & [= -> <-])%bind_Some)%bind_Some.
  pose proof (step_done _ _ _ _ Hd Hx) as Hd'.
  assert (exists t2, step s2 o = Some (t2, x) /\ same_chains t1 t2) as (t2 & -> & HS').
  { destruct o; cbn [step] in *.
    - injection Hx as <- <-. unfold complete_handshake. rewrite Hd.
      replace (handshake_done s2) with true by (symmetry; rewrite <-Hd; symmetry; apply HS). eauto.
    - apply bind_Some in Hx as ([u [[f i] h]] & He & [= <- <-]).
      destruct (encrypt_same_chains _ _ _ _ _ _ HS He) as (u2 & -> & ?). eauto.
    - destruct (decrypt_same_chains frame idx s1 s2 HS) as [E HS'].
      destruct (decrypt s1 frame idx) as [u r] eqn:E1, (decrypt s2 frame idx) as [u2 r2].
      cbn in *. simplify_eq. eauto.
    - injection Hx as <- <-. eexists. split; [done|].
      destruct HS as (? & ? & ? & ? & ? & ? & ?). by split_and!. }
  destruct (IH t1 t2 ys Hd' HS' Hr) as (s2' & Hr2 & HS2). exists s2'. split; [|done].
  cbn [mbind option_bind]. by rewrite Hr2.
Qed.

End Run.
End RatchetRun.

(** ** Properties *)

Section RatchetProperties.
Context `{Crypto, !HkdfLaws, !ShaLaws, !AesLaws, !DhLaws}.
Import RatchetState RatchetFacts RatchetRun.

(** C21: Messages of a ratchet arrive. After the handshake of two nodes with any secrets, the second
    reads every message of the first in order, to the last byte, and both compute the same chain
    hash after each; afterwards every frame of the stream is refused, so none is read twice. *)
Theorem ratchet_delivers secret_a secret_b l :
  Forall sendable l -> zlen l < 2 ^ 64 - 2 ->
  let alice := complete_handshake (new_alice secret_a) (dh_public (new_alice secret_b)) in
  let bob := new_bob secret_b (dh_public (new_alice secret_a)) in
  exists alice' frames bob', send_all alice l = Some (alice', frames) /\
    recv_all bob frames = (bob', Some <$> zip l.*2 frames.*2) /\ prev_hash bob' = prev_hash alice' /\
    Forall (fun f => decrypt bob' f.1.1 f.1.2 = (bob', None)) frames.
Proof.
  intros HF Hl alice bob. pose proof (zlen_nonneg l).
  destruct (stream_delivers l alice bob HF) as (a' & fs & b' & os & Hs & Hr & Hm & [_ Hst] & Hidx & Hi & Hh).
  { split; [|done]. cbn. by rewrite x_dh_comm. }
  { done. }
  { cbn. lia. }
  destruct (Hh eq_refl) as [Ho Hp]. exists a', fs, b'. split_and!; [done| |done|].
  - rewrite Hr. f_equal. clear -Hm Ho. revert l fs Hm Ho. induction os as [|o os IH]; intros [|[n m] l] [|f fs] Hm Ho; try done.
    destruct o as [[m' h']|]; cbn in *; simplify_eq. cbn. f_equal. auto.
  - apply Forall_forall. intros f Hf. apply decrypt_stale. rewrite Hst, Hi.
    assert (f.1.2 ∈ fs.*1.*2) as Hin by (do 2 apply list_elem_of_fmap_2; done).
    rewrite Hidx, elem_of_seqZ in Hin. lia.
Qed.

(** C29: The ratchet has one chain for both directions. Whatever a node sends after its handshake, the
    node itself accepts when the frames are sent back to it, as messages of the peer. *)
Theorem ratchet_reflects secret peer l :
  Forall sendable l -> zlen l < 2 ^ 64 - 2 ->
  let alice := complete_handshake (new_alice secret) peer in
  exists alice' frames alice'' os, send_all alice l = Some (alice', frames) /\
    recv_all alice' frames = (alice'', os) /\ fmap fst <$> os = Some <$> l.*2.
Proof.
  intros HF Hl alice. pose proof (zlen_nonneg l).
  destruct (stream_delivers l alice alice HF) as (a' & fs & _ & _ & Hs & _); [done|done|cbn; lia|].
  destruct (send_all_recv_side _ _ _ _ Hs) as [Hc He].
  destruct (stream_delivers l alice a' HF) as (a1 & fs1 & a'' & os & Hs1 & Hr & Hm & _).
  { split; [by rewrite Hc|by rewrite He]. }
  { done. }
  { cbn. lia. }
  rewrite Hs1 in Hs. simplify_eq. by exists a', fs, a'', os.
Qed.

(** A lost frame ends the ratchet. The receiver derives the key of the next frame from the chain
    it has, one step behind the sender's: it refuses the frame and stays where it is, unless
    the ciphertext is one that two keys, of different steps of the chain, both produce. *)
Theorem lost_frame_breaks_chain n1 n2 m1 m2 a a1 a2 b lost frame idx hash :
  in_step a b -> length n2 = 12%nat ->
  encrypt n1 a m1 = Some (a1, lost) -> encrypt n2 a1 m2 = Some (a2, (frame, idx, hash)) ->
  decrypt b frame idx = (b, None) \/
  exists p c, frame = n2 ++ c /\
    aes_encrypt (hkdf_expand (send_chain a) (le_bytes8 idx)) n2 p = Some c /\
    aes_encrypt (hkdf_expand (hkdf_expand (send_chain a) (string_bytes "chain-advance")) (le_bytes8 idx)) n2 m2 = Some c.
Proof.
  intros [Hc _] Hn. unfold encrypt. intros (c1 & _ & [= <- _])%bind_Some (c & Hc2 & [= <- <- <- <-])%bind_Some.
  cbn [send_chain send_idx] in Hc2. unfold decrypt. repeat case_match; try (by left). right.
  match goal with E : aes_decrypt _ _ _ = Some ?p |- _ =>
    rewrite take_app_length', drop_app_length', Hc in E by done; exists p, c end.
  split_and!; [done|by apply aes_unique|done].
Qed.

(** The Diffie-Hellman step of the ratchet is inert. After a handshake, a node that performs it,
    with any new key and any key of the peer, sends and accepts exactly what it would have without
    it, in every sequence of later calls: the new root key enters no message key. *)
Theorem dh_advance_inert secret peer before new_private peer_new s xs l s' ys :
  let s0 := complete_handshake (new_alice secret) peer in
  run s0 before = Some (s, xs) -> run s l = Some (s', ys) ->
  exists s'', run (dh_ratchet_advance new_private s peer_new) l = Some (s'', ys) /\
    send_chain s'' = send_chain s' /\ recv_chain s'' = recv_chain s'.
Proof.
  intros s0 Hb Hl.
  assert (Hd : handshake_done s = true) by (by eapply run_done; [|exact Hb]).
  destruct (run_same_chains l s (dh_ratchet_advance new_private s peer_new) s' ys Hd) as (s'' & Hr & HS); [|done|].
  { by split_and!. }
  exists s''. split; [done|]. split; symmetry; apply HS.
Qed.

End RatchetProperties.

Module RatchetWitness.
Import RatchetState RatchetFacts RatchetRun.
#[local] Existing Instance toy_crypto.

Definition k (n : Z) : bytes := be_bytes 32 n.
Definition nonce (n : Z) : bytes := be_bytes 12 n.
Definition talk : list (bytes * bytes) := [(nonce 1, string_bytes "hello"); (nonce 2, string_bytes "world")].

Lemma talk_sendable : Forall sendable talk.
Proof. repeat constructor. Qed.

Lemma ratchet_delivers_witness :
  let alice := complete_handshake (new_alice (k 3)) (dh_public (new_alice (k 5))) in
  exists alice' frames bob', send_all alice talk = Some (alice', frames) /\
    recv_all (new_bob (k 5) (dh_public (new_alice (k 3)))) frames = (bob', Some <$> zip talk.*2 frames.*2).
Proof.
  destruct (ratchet_delivers (k 3) (k 5) talk talk_sendable eq_refl) as (a & fs & b & Hs & Hr & _).
  exists a, fs, b. split; [exact Hs|exact Hr].
Defined.

Lemma ratchet_reflects_witness :
  exists alice' frames alice'' os,
    send_all (complete_handshake (new_alice (k 3)) (k 7)) talk = Some (alice', frames) /\
    recv_all alice' frames = (alice'', os) /\ fmap fst <$> os = Some <$> talk.*2.
Proof. apply (ratchet_reflects (k 3) (k 7) talk talk_sendable). reflexivity. Defined.

Lemma lost_frame_breaks_chain_witness :
  let alice := complete_handshake (new_alice (k 3)) (dh_public (new_alice (k 5))) in
  let bob := new_bob (k 5) (dh_public (new_alice (k 3))) in
  exists alice' lost frame hash, send_all alice talk = Some (alice', [lost; (frame, 2, hash)]) /\
    decrypt bob frame 2 = (bob, None).
Proof.
  set (alice := complete_handshake _ _). set (bob := new_bob _ _).
  destruct (encrypt (nonce 1) alice (string_bytes "hello")) as [[a1 lost]|] eqn:E1; [|vm_compute in E1; discriminate].
  destruct (encrypt (nonce 2) a1 (string_bytes "world")) as [[a2 [[frame idx] hash]]|] eqn:E2;
    [|vm_compute in E1; injection E1 as <- _; vm_compute in E2; discriminate].
  pose proof (lost_frame_breaks_chain (nonce 1) (nonce 2) (string_bytes "hello") (string_bytes "world")
    alice a1 a2 bob lost frame idx hash) as Hlost.
  exists a2, lost, frame, hash. vm_compute in E1. injection E1 as <- <-. vm_compute in E2. injection E2 as <- <- <- <-.
  split; [vm_compute; reflexivity|].
  destruct Hlost as [Hn|(p & c & Hf & Hp & Hm)]; [by vm_compute|reflexivity|vm_compute; reflexivity|vm_compute; reflexivity|exact Hn|].
  vm_compute. reflexivity.
Defined.

Lemma dh_advance_inert_witness :
  let s0 := complete_handshake (new_alice (k 3)) (k 7) in
  exists s'' ys, run (dh_ratchet_advance (k 11) s0 (k 13)) [Send (nonce 1) [72; 105]] = Some (s'', ys) /\
    send_chain s'' <> send_chain s0 /\ ys <> [].
Proof.
  set (s0 := complete_handshake (new_alice (k 3)) (k 7)).
  destruct (run s0 [Send (nonce 1) [72; 105]]) as [[s1 ys]|] eqn:E; [|vm_compute in E; discriminate].
  destruct (dh_advance_inert (k 3) (k 7) [] (k 11) (k 13) s0 [] [Send (nonce 1) [72; 105]] s1 ys eq_refl E)
    as (s2 & Hr & Hs & _).
  exists s2, ys. split; [exact Hr|]. rewrite Hs. vm_compute in E. injection E as <- <-. split; vm_compute; discriminate.
Defined.

End RatchetWitness.
