(* ===== verification/Shuffle.v ===== *)
(** [dcnet/shuffle.rs]: commitments to encrypted messages, their reveal and the blame protocol; and
    [reveal_round] of [dcnet/f2f.rs].

    Keys and nonces are arguments; [None] of [submit] is the panic of [expect]. *)

From S2P Require Import Prelude Crypto.

Record ShuffleSlot := mkSlot {
  index : Z;
  ciphertext : bytes;
  commitment : bytes;
  node_id : bytes;
}.

Inductive BlameVerdict :=
| Offline (who : bytes)
| Cheating (who : bytes) (slot : Z)
| Clean.

Module ShuffleCommitment.

Record t := mk {
  round_id : Z;
  node_count : Z;
  slots : list ShuffleSlot;
  merkle_root : bytes;
  slot_keys : gmap Z bytes;
}.

Definition new (round_id0 node_count0 : Z) : t := mk round_id0 node_count0 [] (zeros 32) ∅.

Section Shuffle.
Context `{Crypto}.

Definition update_merkle_root (sc : t) : t :=
  if bool_decide (slots sc = []) then sc
  else mk (round_id sc) (node_count sc) (slots sc) (sha256_digest (concat (commitment <$> slots sc))) (slot_keys sc).

Definition submit (key nonce : bytes) (sc : t) (node message : bytes) : option (t * ShuffleSlot) :=
  let idx := wrap16 (zlen (slots sc)) in
  let hash := sha256_digest message in
  ct ← aes_encrypt key nonce message;
  let slot := mkSlot idx (nonce ++ ct) hash node in
  let sc := mk (round_id sc) (node_count sc) (slots sc ++ [slot]) (merkle_root sc) (<[idx := key]> (slot_keys sc)) in
  Some (update_merkle_root sc, slot).

Definition verify (slot : ShuffleSlot) (plaintext : bytes) : bool :=
  constant_time_eq (sha256_digest plaintext) (commitment slot).

Definition decrypt_slot (sc : t) (slot : ShuffleSlot) : option bytes :=
  if zlen (ciphertext slot) <? 28 then None
  else
    key ← slot_keys sc !! index slot;
    aes_decrypt key (take 12 (ciphertext slot)) (drop 12 (ciphertext slot)).

Definition reveal_key (sc : t) (i : Z) : option bytes := slot_keys sc !! i.

(** The loop of [find_cheater] from position [i]. *)
Fixpoint cheater_from (sc : t) (i : Z) (l : list ShuffleSlot) : option Z :=
  match l with
  | [] => None
  | slot :: r =>
      match decrypt_slot sc slot with
      | Some pt => if negb (verify slot pt) then Some i else cheater_from sc (i + 1) r
      | None => Some i
      end
  end.

Definition find_cheater (sc : t) : option Z := cheater_from sc 0 (slots sc).

End Shuffle.
End ShuffleCommitment.

Abbreviation ShuffleCommitment := ShuffleCommitment.t.

Module BlameProtocol.
Import ShuffleCommitment.

Section Blame.
Context `{Crypto}.

Definition check_attendance (expected actual : list bytes) : list BlameVerdict :=
  Offline <$> filter (fun e => e ∉ actual) expected.

Fixpoint cheating_from (sc : ShuffleCommitment) (i : Z) (l : list ShuffleSlot) : list BlameVerdict :=
  match l with
  | [] => []
  | slot :: r =>
      match decrypt_slot sc slot with
      | Some pt =>
          if negb (verify slot pt) then Cheating (node_id slot) (wrap16 i) :: cheating_from sc (i + 1) r
          else cheating_from sc (i + 1) r
      | None => Cheating (node_id slot) (wrap16 i) :: cheating_from sc (i + 1) r
      end
  end.

Definition check_cheating (sc : ShuffleCommitment) : list BlameVerdict := cheating_from sc 0 (slots sc).

(** [F2fDcNetBridge::reveal_round], which uses nothing of the bridge. *)
Definition reveal_round (sc : ShuffleCommitment) : list string :=
  omap (fun slot => pt ← decrypt_slot sc slot; if verify slot pt then Some (from_utf8_lossy pt) else None) (slots sc).

End Blame.
End BlameProtocol.

(** ** Lemmas *)

Module ShuffleFacts.
Import ShuffleCommitment BlameProtocol.

(** One submission: key, nonce, node and message. *)
Record submission := mkSub { s_key : bytes; s_nonce : bytes; s_node : bytes; s_message : bytes }.

Section Facts.
Context `{Crypto}.

Fixpoint submit_all (sc : t) (l : list submission) : option t :=
  match l with
  | [] => Some sc
  | s :: r => '(sc, _) ← submit (s_key s) (s_nonce s) sc (s_node s) (s_message s); submit_all sc r
  end.

Definition submittable (s : submission) : Prop :=
  length (s_key s) = 32%nat /\ length (s_nonce s) = 12%nat /\ zlen (s_message s) < 2 ^ 36.

(** The slot a submission gets at position [i]. *)
Definition sealed (i : Z) (s : submission) : ShuffleSlot :=
  mkSlot (wrap16 i) (s_nonce s ++ default [] (aes_encrypt (s_key s) (s_nonce s) (s_message s)))
    (sha256_digest (s_message s)) (s_node s).

(** Whether a slot opens to what it commits to. *)
Definition opens (sc : t) (slot : ShuffleSlot) : bool :=
  match decrypt_slot sc slot with Some pt => bool_decide (sha256_digest pt = commitment slot) | None => false end.

Lemma update_root_other sc :
  slots (update_merkle_root sc) = slots sc /\ slot_keys (update_merkle_root sc) = slot_keys sc.
Proof. unfold update_merkle_root. by case_bool_decide. Qed.

Context `{!AesLaws}.

Lemma submit_spec sc s :
  submittable s ->
  exists sc', submit (s_key s) (s_nonce s) sc (s_node s) (s_message s) = Some (sc', sealed (zlen (slots sc)) s) /\
    slots sc' = slots sc ++ [sealed (zlen (slots sc)) s] /\
    slot_keys sc' = <[wrap16 (zlen (slots sc)) := s_key s]> (slot_keys sc).
Proof.
  intros (Hk & Hn & Hm). unfold submit, sealed. destruct (aes_encrypt_total (s_key s) (s_nonce s) (s_message s)) as [c ->]; [done..|].
  cbn [mbind option_bind default]. eexists. split; [reflexivity|].
  match goal with |- slots (update_merkle_root ?x) = _ /\ _ => destruct (update_root_other x) as [-> ->] end. done.
Qed.

(** The slots and the keys after a list of submissions. *)
Lemma submit_all_spec l sc :
  Forall submittable l ->
  exists sc', submit_all sc l = Some sc' /\
    slots sc' = slots sc ++ imap (fun i s => sealed (zlen (slots sc) + Z.of_nat i) s) l /\
    (zlen (slots sc) + zlen l <= 2 ^ 16 -> forall i s, l !! i = Some s ->
       slot_keys sc' !! (zlen (slots sc) + Z.of_nat i) = Some (s_key s)) /\
    (zlen (slots sc) + zlen l <= 2 ^ 16 -> forall j, 0 <= j < zlen (slots sc) -> slot_keys sc' !! j = slot_keys sc !! j).
Proof.
  intros HF. revert sc. induction HF as [|s l Hs HF IH]; intros sc; cbn [submit_all].
  { exists sc. rewrite app_nil_r. done. }
  destruct (submit_spec sc s Hs) as (sc1 & -> & Hslots & Hkeys). cbn [mbind option_bind].
  destruct (IH sc1) as (sc' & -> & Hs' & Hk' & Ho'). exists sc'.
  assert (Hlen : zlen (slots sc1) = zlen (slots sc) + 1) by (rewrite Hslots, zlen_app; done).
  rewrite zlen_cons. pose proof (zlen_nonneg l). pose proof (zlen_nonneg (slots sc)).
  split_and!; [done|..].
  - rewrite Hs', Hslots, <-app_assoc. cbn [imap app]. f_equal. f_equal; [f_equal; lia|].
    apply imap_ext. intros i x Hx. unfold compose. f_equal. rewrite zlen_app. change (zlen [_]) with 1. lia.
  - intros Hle i x Hx. destruct i as [|i]; cbn in Hx.
    + injection Hx as <-. rewrite Z.add_0_r, Ho' by lia. rewrite Hkeys.
      replace (wrap16 (zlen (slots sc))) with (zlen (slots sc)) by (symmetry; apply Z.mod_small; lia).
      apply lookup_insert_eq.
    + replace (zlen (slots sc) + Z.of_nat (S i)) with (zlen (slots sc1) + Z.of_nat i) by lia. apply Hk'; [lia|done].
  - intros Hle j Hj. rewrite Ho', Hkeys by lia. rewrite lookup_insert_ne; [done|].
    unfold wrap16. rewrite Z.mod_small by lia. lia.
Qed.

(** A sealed slot whose key is in place opens. *)
Lemma sealed_opens sc i s :
  submittable s -> 0 <= i < 2 ^ 16 -> slot_keys sc !! i = Some (s_key s) ->
  decrypt_slot sc (sealed i s) = Some (s_message s).
Proof.
  intros (Hk & Hn & Hm) Hi E. unfold decrypt_slot, sealed. cbn [ciphertext index].
  replace (wrap16 i) with i by (symmetry; apply Z.mod_small; lia). rewrite E. cbn [mbind option_bind].
  destruct (aes_encrypt_total (s_key s) (s_nonce s) (s_message s)) as [c Hc]; [done..|]. rewrite Hc. cbn [from_option id]. unfold id.
  pose proof (aes_tag _ _ _ _ Hc). pose proof (zlen_nonneg (s_message s)).
  rewrite (proj2 (Z.ltb_ge _ _)).
  2: { rewrite zlen_app. replace (zlen (s_nonce s)) with 12 by (unfold zlen; lia). lia. }
  rewrite take_app_length', drop_app_length' by done. by apply aes_round_trip.
Qed.

Lemma verify_spec slot pt : verify slot pt = bool_decide (sha256_digest pt = commitment slot).
Proof. apply constant_time_eq_spec. Qed.

(** The blame loop reports the slots that do not open, at their positions. *)
Lemma cheating_from_spec sc l i :
  cheating_from sc i l =
    (fun p => Cheating (node_id p.2) (wrap16 (i + Z.of_nat p.1))) <$>
      filter (fun p => opens sc p.2 = false) (imap pair l).
Proof.
  revert i. induction l as [|s l IH]; intros i; [done|]. cbn [cheating_from imap].
  assert (Htail : (fun p : nat * ShuffleSlot => Cheating (node_id p.2) (wrap16 (i + Z.of_nat p.1))) <$>
      filter (fun p => opens sc p.2 = false) (imap (fun n => pair (S n)) l) = cheating_from sc (i + 1) l).
  { rewrite IH. replace (imap (fun n => pair (S n)) l) with ((fun p : nat * ShuffleSlot => (S p.1, p.2)) <$> imap pair l)
      by (rewrite fmap_imap; by apply imap_ext). rewrite filter_fmap, <-list_fmap_compose.
    apply list_fmap_ext. intros j [n x] _. cbn. f_equal. f_equal. lia. }
  change (pair ∘ S) with (fun n : nat => @pair nat ShuffleSlot (S n)).
  destruct (decrypt_slot sc s) as [pt|] eqn:E.
  - rewrite verify_spec. destruct (bool_decide _) eqn:B; cbn [negb].
    + rewrite filter_cons_False; [by rewrite Htail|]. cbn. unfold opens. by rewrite E, B.
    + rewrite filter_cons_True; [|cbn; unfold opens; by rewrite E]. rewrite fmap_cons, Htail, Z.add_0_r. done.
  - rewrite filter_cons_True; [|cbn; unfold opens; by rewrite E]. rewrite fmap_cons, Htail, Z.add_0_r. done.
Qed.

Lemma cheater_from_spec sc l i :
  cheater_from sc i l = (fun p => i + Z.of_nat p.1) <$> list_find (fun s => opens sc s = false) l.
Proof.
  revert i. induction l as [|s l IH]; intros i; [done|]. cbn [cheater_from list_find].
  assert (Ho : opens sc s = match decrypt_slot sc s with Some pt => bool_decide (sha256_digest pt = commitment s) | None => false end) by done.
  destruct (decrypt_slot sc s) as [pt|] eqn:E; [rewrite verify_spec; destruct (bool_decide _) eqn:B; cbn [negb]|].
  - rewrite decide_False by (by rewrite Ho). rewrite IH. destruct (list_find _ l) as [[j x]|]; cbn; [f_equal; lia|done].
  - rewrite decide_True by done. cbn. f_equal. lia.
  - rewrite decide_True by done. cbn. f_equal. lia.
Qed.

End Facts.
End ShuffleFacts.

(** ** Properties *)

Section ShuffleProperties.
Context `{Crypto, !AesLaws}.
Import ShuffleCommitment BlameProtocol ShuffleFacts.

(** C28: An honest round is clean and is revealed in full. After up to 65536 submissions by any nodes,
    nobody is found cheating, and the reveal returns every message, in the order of submission, as text:
    bytes that are not UTF-8 come back as replacement characters. *)
Theorem honest_round_revealed round nodes l :
  Forall submittable l -> zlen l <= 2 ^ 16 ->
  exists sc, submit_all (new round nodes) l = Some sc /\ find_cheater sc = None /\ check_cheating sc = [] /\
    reveal_round sc = (fun s => from_utf8_lossy (s_message s)) <$> l.
Proof.
  intros HF Hl. destruct (submit_all_spec l (new round nodes) HF) as (sc & Hs & Hslots & Hkeys & _).
  exists sc. change (slots (new round nodes)) with (@nil ShuffleSlot) in *. change (zlen []) with 0 in *. cbn [app] in Hslots.
  specialize (Hkeys Hl).
  assert (Hdec : forall i s, l !! i = Some s -> decrypt_slot sc (sealed (0 + Z.of_nat i) s) = Some (s_message s)).
  { intros i s Hi. apply sealed_opens; [by eapply Forall_lookup_1|apply lookup_lt_Some in Hi; unfold zlen in Hl; lia|by apply (Hkeys i)]. }
  assert (Hopens : Forall (fun x => opens sc x = true) (slots sc)).
  { rewrite Hslots. apply Forall_lookup_2. intros i x. rewrite list_lookup_imap.
    intros (s & Hi & ->)%fmap_Some. unfold opens. rewrite Hdec by done. by apply bool_decide_eq_true_2. }
  split_and!; [done|..].
  - unfold find_cheater. rewrite cheater_from_spec. cut (list_find (fun s => opens sc s = false) (slots sc) = None); [by intros ->|].
    apply list_find_None. eapply Forall_impl; [exact Hopens|]. intros x Hx. by rewrite Hx.
  - unfold check_cheating. rewrite cheating_from_spec, filter_none; [done|].
    apply Forall_lookup_2. intros i [j x]. rewrite list_lookup_imap. intros (y & Hy & [= _ ->])%fmap_Some. cbn.
    rewrite Forall_lookup in Hopens. by rewrite (Hopens i y Hy).
  - unfold reveal_round. rewrite Hslots. clear Hslots Hopens Hkeys Hs Hl.
    assert (Hgen : forall k r, (forall i s, r !! i = Some s -> decrypt_slot sc (sealed (k + Z.of_nat i) s) = Some (s_message s)) ->
      omap (fun slot => pt ← decrypt_slot sc slot; if verify slot pt then Some (from_utf8_lossy pt) else None)
        (imap (fun i s => sealed (k + Z.of_nat i) s) r) = (fun s => from_utf8_lossy (s_message s)) <$> r).
    { intros k r. revert k. induction r as [|x r IH]; intros k Hr; [done|]. cbn [imap omap list_omap].
      rewrite (Hr 0%nat x eq_refl). cbn [mbind option_bind]. rewrite verify_spec, bool_decide_eq_true_2 by done.
      rewrite fmap_cons. f_equal. rewrite <-(IH (k + 1)).
      - f_equal. apply imap_ext. intros i y _. unfold compose. f_equal. lia.
      - intros i y Hy. rewrite <-(Hr (S i) y Hy). do 2 f_equal. lia. }
    apply (Hgen 0). done.
Qed.

(** C31: Blame is exact. Whatever slots a commitment holds, the blame protocol reports, each at its
    position, exactly the slots that do not open, with the key on record, to a text with the
    committed digest, and [find_cheater] names the first of them. *)
Theorem blame_exact sc :
  check_cheating sc =
    (fun p => Cheating (node_id p.2) (wrap16 (Z.of_nat p.1))) <$>
      filter (fun p => opens sc p.2 = false) (imap pair (slots sc)) /\
  (forall i, find_cheater sc = Some i -> exists x, slots sc !! Z.to_nat i = Some x /\ opens sc x = false /\
     forall j y, slots sc !! j = Some y -> Z.of_nat j < i -> opens sc y = true) /\
  (find_cheater sc = None <-> Forall (fun x => opens sc x = true) (slots sc)).
Proof.
  unfold check_cheating, find_cheater. rewrite cheating_from_spec, cheater_from_spec. split_and!; [done|..].
  - intros i (j & Hj & E)%fmap_Some. destruct j as [j x]. apply list_find_Some in Hj as (Hx & Ho & Hbefore).
    cbn [fst] in E. subst i. exists x. replace (Z.to_nat (0 + Z.of_nat j)) with j by lia. split_and!; [done..|]. intros k y Hy Hk.
    destruct (opens sc y) eqn:Ey; [done|]. destruct (Hbefore k y Hy); [lia|done].
  - rewrite fmap_None, list_find_None. apply Forall_iff. intros x. by destruct (opens sc x).
Qed.

(** Slot numbers have 16 bits. In a round of 65537 submissions the last key replaces the first:
    the honest first node is found cheating, unless its ciphertext is one both keys produce. *)
Theorem slot_index_wraps round nodes first l last :
  submittable first -> Forall submittable l -> submittable last -> zlen l = 2 ^ 16 - 1 ->
  exists sc, submit_all (new round nodes) (first :: l ++ [last]) = Some sc /\
    slots sc !! 0%nat = Some (sealed 0 first) /\ reveal_key sc 0 = Some (s_key last) /\
    (find_cheater sc = Some 0 \/
     exists p, aes_encrypt (s_key last) (s_nonce first) p = aes_encrypt (s_key first) (s_nonce first) (s_message first)).
Proof.
  intros Hf HF Hlast Hl. assert (HF' : Forall submittable (first :: l)) by by constructor.
  destruct (submit_all_spec (first :: l) (new round nodes) HF') as (sc & Hs & Hslots & _ & _).
  change (slots (new round nodes)) with (@nil ShuffleSlot) in *. change (zlen []) with 0 in *.
  assert (Hlen : zlen (slots sc) = 2 ^ 16).
  { rewrite Hslots. unfold zlen. rewrite length_app, length_imap. cbn [length app]. unfold zlen in Hl. lia. }
  destruct (submit_spec sc last Hlast) as (sc' & Hs' & Hslots' & Hkeys').
  exists sc'. assert (H0th : slots sc' !! 0%nat = Some (sealed 0 first)) by (rewrite Hslots', Hslots; done).
  assert (Hkey : reveal_key sc' 0 = Some (s_key last)).
  { unfold reveal_key. rewrite Hkeys', Hlen. apply lookup_insert_eq. }
  split_and!; [|done|done|].
  { rewrite app_comm_cons. clear -Hs Hs'. revert Hs. generalize (new round nodes) as u, (first :: l) as r.
    intros u r. revert u. induction r as [|x r IH]; intros u; cbn [submit_all app].
    - intros [= ->]. by rewrite Hs'.
    - intros ([v slot] & -> & Hr)%bind_Some. cbn [mbind option_bind]. by apply IH. }
  unfold find_cheater. rewrite cheater_from_spec. destruct (slots sc') as [|x r]; [done|]. injection H0th as ->.
  cbn [list_find]. destruct (opens sc' (sealed 0 first)) eqn:Eo.
  2: { left. by rewrite decide_True. }
  right. unfold opens, decrypt_slot in Eo. unfold reveal_key in Hkey. cbn [index sealed] in Eo.
  change (wrap16 0) with 0 in Eo. rewrite Hkey in Eo. cbn [mbind option_bind] in Eo. repeat case_match; try done.
  destruct Hf as (Hk & Hn & Hm). destruct (aes_encrypt_total (s_key first) (s_nonce first) (s_message first)) as [c Hc]; [done..|].
  match goal with E : aes_decrypt _ _ _ = Some ?p |- _ => exists p; unfold sealed in E; cbn [ciphertext] in E;
    rewrite Hc in E; cbn [from_option id] in E; rewrite take_app_length', drop_app_length' in E by done; apply aes_unique in E; rewrite E end.
  by rewrite Hc.
Qed.

End ShuffleProperties.

Module ShuffleWitness.
Import ShuffleCommitment BlameProtocol ShuffleFacts.
#[local] Existing Instance toy_crypto.

Definition sub (n : Z) (m : string) : submission := mkSub (be_bytes 32 n) (be_bytes 12 n) [n] (string_bytes m).

Lemma sub_ok n m : zlen (string_bytes m) < 2 ^ 36 -> submittable (sub n m).
Proof. intros. split_and!; [apply length_be_bytes|apply length_be_bytes|done]. Qed.

Lemma honest_round_revealed_witness :
  exists sc, submit_all (new 1 2) [sub 3 "one"; sub 4 "two"] = Some sc /\ reveal_round sc = ["one"; "two"].
Proof.
  destruct (honest_round_revealed 1 2 [sub 3 "one"; sub 4 "two"]) as (sc & Hs & _ & _ & Hr).
  - repeat constructor.
  - vm_compute. discriminate.
  - exists sc. split; [exact Hs|]. rewrite Hr. vm_compute. reflexivity.
Defined.

(** A slot whose text is not the committed one. *)
Definition forged : ShuffleCommitment.t :=
  match submit_all (new 1 2) [sub 3 "one"] with
  | Some sc => mk (round_id sc) (node_count sc)
                 ((fun x => mkSlot (index x) (ciphertext x) [0] (node_id x)) <$> slots sc) (merkle_root sc) (slot_keys sc)
  | None => new 1 2
  end.

Lemma blame_exact_witness : find_cheater forged = Some 0 /\ exists x, slots forged !! 0%nat = Some x /\ opens forged x = false.
Proof.
  assert (find_cheater forged = Some 0) as E by (vm_compute; reflexivity). split; [exact E|].
  destruct (proj1 (proj2 (blame_exact forged)) 0 E) as (x & Hx & Ho & _). exists x. split; [exact Hx|exact Ho].
Defined.

Lemma slot_index_wraps_witness :
  exists sc, submit_all (new 1 2) (sub 3 "first" :: replicate (Z.to_nat 65535) (sub 4 "same") ++ [sub 5 "last"]) = Some sc /\
    reveal_key sc 0 = Some (s_key (sub 5 "last")).
Proof.
  destruct (slot_index_wraps 1 2 (sub 3 "first") (replicate (Z.to_nat 65535) (sub 4 "same")) (sub 5 "last"))
    as (sc & Hs & _ & Hk & _).
  - by apply sub_ok.
  - apply Forall_replicate. by apply sub_ok.
  - by apply sub_ok.
  - unfold zlen. rewrite length_replicate, Z2Nat.id by done. done.
  - exists sc. split; [exact Hs|exact Hk].
Defined.

End ShuffleWitness.
