(* ===== verification/AddressBook.v ===== *)
(** [address_book.rs]: known peers with their addresses, and gossip between friends.

    The clock, in seconds, is an argument. The order in which a [HashMap] is listed is that of the
    model's map. *)

From S2P Require Import Prelude Text Float64 WebOfTrust.

Inductive AddressSource := Manual | LAN | Gossip.

Record AddressEntry := mkEntry {
  ae_uid : string;
  addresses : list SocketAddr;
  ae_public_key : string;
  last_seen : Z;
  source : AddressSource;
  confidence : f64;
}.

Record PeerAnnounce := mkAnnounce {
  pa_uid : string;
  pa_addresses : list SocketAddr;
  pa_public_key : string;
}.

Module AddressBook.

Abbreviation t := (gmap string AddressEntry).

Definition new : t := ∅.

(** The loop that merges addresses into an entry. *)
Definition merge_addresses (known extra : list SocketAddr) : list SocketAddr :=
  foldl (fun l a => if bool_decide (a ∈ l) then l else l ++ [a]) known extra.

(** The closure of [and_modify]. *)
Definition modify (now : Z) (extra : list SocketAddr) (src : AddressSource) (conf : f64) (e : AddressEntry) : AddressEntry :=
  let merged := merge_addresses (addresses e) extra in
  if f64_gt conf (confidence e) || (now >? last_seen e)
  then mkEntry (ae_uid e) merged (ae_public_key e) now src conf
  else mkEntry (ae_uid e) merged (ae_public_key e) (last_seen e) (source e) (confidence e).

Definition add_or_update (now : Z) (book : t) (uid : string) (addrs : list SocketAddr) (key : string)
    (src : AddressSource) (conf : f64) : t :=
  match book !! uid with
  | Some e => <[uid := modify now addrs src conf e]> book
  | None => <[uid := mkEntry uid addrs key now src conf]> book
  end.

Definition get (book : t) (uid : string) : option AddressEntry := book !! uid.

Definition get_addresses (book : t) (uid : string) : list SocketAddr :=
  match book !! uid with Some e => addresses e | None => [] end.

(** [now - e.last_seen] wraps below zero. *)
Definition prune_stale (now : Z) (book : t) (max_age_secs : Z) : t :=
  filter (fun p => wrap64 (now - last_seen p.2) < max_age_secs) book.

Definition len (book : t) : Z := Z.of_nat (size book).
Definition is_empty (book : t) : bool := bool_decide (book = ∅).
Definition list_uids (book : t) : list string := (map_to_list book).*1.

Definition weight_of (level : TrustLevel) : f64 :=
  match level with
  | Ultimate => f1_0
  | Full => f0_8
  | Marginal => f0_4
  | _ => f0_0
  end.

Definition handle_gossip_response (now : Z) (book : t) (from_uid : string) (level : TrustLevel)
    (peers : list PeerAnnounce) : t * Z :=
  if negb (TrustLevel.ge level Marginal) then (book, 0)
  else
    (foldl (fun b p => add_or_update now b (pa_uid p) (pa_addresses p) (pa_public_key p) Gossip (weight_of level)) book peers,
     zlen peers).

Definition build_gossip_response (book : t) (exclude_uid : string) : list PeerAnnounce :=
  (fun p => mkAnnounce p.1 (addresses p.2) (ae_public_key p.2)) <$>
    filter (fun p => p.1 <> exclude_uid) (map_to_list book).

End AddressBook.

(** ** Lemmas *)

Module AddressFacts.
Import AddressBook.

(** The abstract book: who is known, under which key, at which addresses. *)
Definition known_key (book : t) (uid : string) : option string := ae_public_key <$> book !! uid.
Definition at_address (book : t) (uid : string) (a : SocketAddr) : Prop := a ∈ get_addresses book uid.

Lemma elem_merge known extra a : a ∈ merge_addresses known extra <-> a ∈ known \/ a ∈ extra.
Proof.
  unfold merge_addresses. revert known. induction extra as [|x extra IH]; intros known; cbn [foldl].
  { rewrite elem_of_nil. tauto. }
  rewrite IH, elem_of_cons. case_bool_decide as Hx; [|rewrite elem_of_app, list_elem_of_singleton; tauto].
  split; [naive_solver|]. intros [?|[->|?]]; auto.
Qed.

Lemma modify_key now extra src conf e : ae_public_key (modify now extra src conf e) = ae_public_key e.
Proof. unfold modify. by case_match. Qed.

Lemma modify_addresses now extra src conf e : addresses (modify now extra src conf e) = merge_addresses (addresses e) extra.
Proof. unfold modify. by case_match. Qed.

Lemma modify_newer now extra src conf e :
  last_seen e < now ->
  modify now extra src conf e = mkEntry (ae_uid e) (merge_addresses (addresses e) extra) (ae_public_key e) now src conf.
Proof. intros Hl. unfold modify. by rewrite (proj2 (Z.gtb_lt _ _)), orb_true_r. Qed.

Lemma add_key now book uid addrs key src conf u :
  known_key (add_or_update now book uid addrs key src conf) u =
    if bool_decide (u = uid) then Some (default key (known_key book uid)) else known_key book u.
Proof.
  unfold add_or_update, known_key. case_bool_decide as E.
  - subst. destruct (book !! uid) as [e|]; rewrite lookup_insert_eq; cbn; [by rewrite modify_key|done].
  - destruct (book !! uid); by rewrite lookup_insert_ne.
Qed.

Lemma add_address now book uid addrs key src conf u a :
  at_address (add_or_update now book uid addrs key src conf) u a <->
    at_address book u a \/ (u = uid /\ a ∈ addrs).
Proof.
  unfold add_or_update, at_address, get_addresses. destruct (decide (u = uid)) as [->|E].
  - destruct (book !! uid) as [e|]; rewrite lookup_insert_eq.
    + rewrite modify_addresses, elem_merge. naive_solver.
    + cbn. rewrite elem_of_nil. naive_solver.
  - destruct (book !! uid); rewrite lookup_insert_ne by done; naive_solver.
Qed.

(** A fresh book after a list of distinct peers. *)
Lemma gossip_fold now w (l : list (string * AddressEntry)) (b : t) uid :
  NoDup l.*1 -> (forall p, p ∈ l -> b !! p.1 = None) ->
  (fun e => (ae_public_key e, addresses e)) <$>
    foldl (fun b p => add_or_update now b p.1 (addresses p.2) (ae_public_key p.2) Gossip w) b l !! uid =
  match list_find (fun p => p.1 = uid) l with
  | Some (_, p) => Some (ae_public_key p.2, addresses p.2)
  | None => (fun e => (ae_public_key e, addresses e)) <$> b !! uid
  end.
Proof.
  revert b. induction l as [|[u e] l IH]; intros b Hnd Hb; [done|]. cbn [foldl list_find fst snd].
  rewrite fmap_cons in Hnd. apply NoDup_cons in Hnd as [Hu Hnd]. cbn [fst] in Hu.
  assert (Hb1 : add_or_update now b u (addresses e) (ae_public_key e) Gossip w =
    <[u := mkEntry u (addresses e) (ae_public_key e) now Gossip w]> b).
  { unfold add_or_update. pose proof (Hb (u, e)) as E. cbn in E. rewrite E; [done|apply elem_of_cons; by left]. }
  rewrite IH; [|done|].
  - rewrite Hb1. case_decide as E; cbn in E.
    + subst uid. destruct (list_find _ l) as [[i p]|] eqn:F.
      * apply list_find_Some in F as (F & Fe & _). destruct Hu. rewrite <-Fe.
        eapply list_elem_of_fmap_2, list_elem_of_lookup_2. exact F.
      * by rewrite lookup_insert_eq.
    + rewrite lookup_insert_ne by done. by destruct (list_find _ l) as [[i p]|].
  - intros p Hp. rewrite Hb1, lookup_insert_ne; [apply Hb; apply elem_of_cons; by right|].
    intros ->. apply Hu. by apply list_elem_of_fmap_2.
Qed.

End AddressFacts.

(** ** Properties *)

Section AddressProperties.
Import AddressBook AddressFacts.

(** C30: Gossip is a merge. From a friend below marginal trust nothing is taken. From any other friend
    the book knows afterwards exactly the addresses it knew and those announced, and every peer
    under the key it was known by, or else the first key announced for it. *)
Theorem gossip_merges now book from level peers uid :
  let '(book', n) := handle_gossip_response now book from level peers in
  if TrustLevel.ge level Marginal then
    n = zlen peers /\
    known_key book' uid =
      match known_key book uid with
      | Some k => Some k
      | None => pa_public_key <$> head (filter (fun p => pa_uid p = uid) peers)
      end /\
    forall a, at_address book' uid a <-> at_address book uid a \/ exists p, p ∈ peers /\ pa_uid p = uid /\ a ∈ pa_addresses p
  else book' = book /\ n = 0.
Proof.
  unfold handle_gossip_response. destruct (TrustLevel.ge level Marginal); cbn [negb]; [|done].
  generalize (weight_of level) as w. intros w. split; [done|]. revert book.
  induction peers as [|p peers IH]; intros book; cbn [foldl].
  { rewrite filter_nil. split; [by destruct (known_key book uid)|]. intros a. split; [auto|].
    intros [?|(p & Hp & _)]; [done|by apply not_elem_of_nil in Hp]. }
  destruct (IH (add_or_update now book (pa_uid p) (pa_addresses p) (pa_public_key p) Gossip w)) as [Hk Ha]. split.
  - rewrite Hk, add_key. case_bool_decide as E.
    + subst uid. rewrite filter_cons_True by done. by destruct (known_key book (pa_uid p)).
    + rewrite filter_cons_False by congruence. done.
  - intros a. rewrite Ha, add_address. setoid_rewrite elem_of_cons. naive_solver.
Qed.

(** A book that was gossiped to a friend who knew nothing is known to the friend: every peer but
    the one left out, with the same key and the same addresses in the same order. *)
Theorem gossip_roundtrip now book me level friend :
  TrustLevel.ge level Marginal = true ->
  let '(theirs, n) := handle_gossip_response now new me level (build_gossip_response book friend) in
  forall uid, (fun e => (ae_public_key e, addresses e)) <$> theirs !! uid =
    if bool_decide (uid = friend) then None else (fun e => (ae_public_key e, addresses e)) <$> book !! uid.
Proof.
  intros Hl. unfold handle_gossip_response. rewrite Hl. cbn [negb]. generalize (weight_of level) as w. intros w uid.
  unfold build_gossip_response. set (l := filter _ (map_to_list book)).
  assert (Hnd : NoDup l.*1) by (eapply sublist_NoDup; [apply (NoDup_fst_map_to_list book)|apply fmap_sublist, sublist_filter]).
  rewrite foldl_fmap.
  cbn [pa_uid pa_addresses pa_public_key]. rewrite gossip_fold by (done || intros; apply lookup_empty).
  destruct (list_find _ l) as [[i p]|] eqn:F.
  - apply list_find_Some in F as (F & Fe & _). apply list_elem_of_lookup_2, list_elem_of_filter in F as [Fx F].
    destruct p as [u e]. cbn in *. subst u. apply elem_of_map_to_list in F. rewrite F.
    by rewrite bool_decide_eq_false_2.
  - apply list_find_None in F. unfold new. rewrite lookup_empty. case_bool_decide as E; [done|]. destruct (book !! uid) as [e|] eqn:B; [|done].
    rewrite Forall_forall in F. destruct (F (uid, e)); [|done]. apply list_elem_of_filter. split; [done|].
    by apply elem_of_map_to_list.
Qed.

(** The first key wins. Whoever of marginal trust announces a peer first decides its key for as
    long as the entry stays: no later gossip and no manual entry of whatever confidence
    replaces it. And gossip of a later second takes over the source and the confidence of an
    entry made by hand. *)
Theorem first_key_wins t0 t1 t2 book from from2 level uid addrs good bad addrs2 key2 level2 :
  book !! uid = None -> TrustLevel.ge level Marginal = true -> TrustLevel.ge level2 Marginal = true ->
  let book1 := (handle_gossip_response t0 book from level [mkAnnounce uid addrs bad]).1 in
  let book2 := add_or_update t1 book1 uid addrs good Manual f1_0 in
  let book3 := (handle_gossip_response t2 book2 from2 level2 [mkAnnounce uid addrs2 key2]).1 in
  known_key book2 uid = Some bad /\ known_key book3 uid = Some bad /\
  (t0 < t1 < t2 -> (fun e => (source e, confidence e)) <$> book3 !! uid = Some (Gossip, weight_of level2)).
Proof.
  intros Hb Hl Hl2. unfold handle_gossip_response. rewrite Hl, Hl2. cbn [negb foldl pa_uid pa_addresses pa_public_key fst].
  rewrite !add_key. rewrite (bool_decide_eq_true_2 (uid = uid)) by done. unfold known_key at 1 2. rewrite Hb. cbn.
  split_and!; [done..|]. intros Ht. unfold add_or_update. rewrite Hb, !lookup_insert_eq. cbn [fmap option_fmap option_map].
  rewrite !modify_newer by (rewrite ?modify_newer by (cbn; lia); cbn; lia). done.
Qed.

(** Pruning by age is exact on entries of the past, and drops entries dated in the future, such
    as those made before the clock was set back, unless the limit exceeds 2^64 less the difference. *)
Theorem prune_exact now book max uid e :
  0 <= now < 2 ^ 64 -> book !! uid = Some e -> 0 <= last_seen e < 2 ^ 64 ->
  (prune_stale now book max !! uid = Some e <->
     if last_seen e <=? now then now - last_seen e < max else now - last_seen e + 2 ^ 64 < max) /\
  forall u x, prune_stale now book max !! u = Some x -> book !! u = Some x.
Proof.
  intros Hn He Hl. unfold prune_stale. split; [|by intros u x (? & _)%map_lookup_filter_Some].
  rewrite map_lookup_filter_Some. cbn. unfold wrap64. destruct (Z.leb_spec (last_seen e) now).
  - rewrite Z.mod_small by lia. naive_solver.
  - replace ((now - last_seen e) mod 2 ^ 64) with (now - last_seen e + 2 ^ 64); [naive_solver|].
    rewrite <-(Z.mod_small (now - last_seen e + 2 ^ 64) (2 ^ 64)) by lia.
    rewrite <-Zplus_mod_idemp_r, Z_mod_same_full, Z.add_0_r by lia. done.
Qed.

End AddressProperties.

Module AddressWitness.
Import AddressBook AddressFacts.

Definition home : SocketAddr := V4 2130706433 9000.
Definition far : SocketAddr := V4 167772161 9000.
Definition book : AddressBook.t := add_or_update 5 (add_or_update 5 new "alice" [home] "ka" Manual f1_0) "bob" [far; home] "kb" LAN f0_5.

Lemma gossip_roundtrip_witness :
  (fun e => (ae_public_key e, addresses e)) <$>
    (handle_gossip_response 9 new "me" Full (build_gossip_response book "alice")).1 !! "bob" = Some ("kb", [far; home]).
Proof. exact (gossip_roundtrip 9 book "me" Full "alice" eq_refl "bob"). Defined.

Lemma first_key_wins_witness :
  known_key (add_or_update 8 (handle_gossip_response 7 new "eve" Marginal [mkAnnounce "carol" [far] "forged"]).1
    "carol" [far] "genuine" Manual f1_0) "carol" = Some "forged".
Proof.
  exact (proj1 (first_key_wins 7 8 9 new "eve" "eve" Marginal "carol" [far] "genuine" "forged" [] "" Marginal
    eq_refl eq_refl eq_refl)).
Defined.

Lemma prune_exact_witness :
  exists e, book !! "bob" = Some e /\ (prune_stale 100 book 60 !! "bob" = Some e <-> 100 - last_seen e < 60).
Proof.
  destruct (book !! "bob") as [e|] eqn:E; [|vm_compute in E; discriminate].
  exists e. split; [reflexivity|].
  destruct (prune_exact 100 book 60 "bob" e) as [Hp _]; [lia|exact E| |].
  - vm_compute in E. injection E as <-. cbn. lia.
  - vm_compute in E. injection E as <-. exact Hp.
Defined.

End AddressWitness.
