(* ===== verification/Service.v ===== *)
(** [service.rs]: services offered inside a network, their approval, and who may use their proxies.

    The identifier [Uuid::new_v4] draws and the clock are arguments. [values_mut().find] takes the
    first proxy in the order the map is walked in, which is not specified: the ports in
    that order are an argument. *)

From S2P Require Import Prelude.

Inductive ServiceStatus := Pending | Active | Rejected | Closed.

#[export] Instance ServiceStatus_eq_dec : EqDecision ServiceStatus.
Proof. solve_decision. Defined.

Record F2fService := mkService {
  id : string;
  name : string;
  owner_uid : string;
  network_name : string;
  owner_port : Z;
  status : ServiceStatus;
  created : Z;
}.

Record ProxyConfig := mkProxy {
  target_uid : string;
  target_port : Z;
  allowed_clients : list string;
  allow_all_members : bool;
}.

Module ServiceManager.

Record t := mk {
  services : gmap string F2fService;
  proxies : gmap Z ProxyConfig;
  next_port : Z;
}.

Definition new : t := mk ∅ ∅ 18080.

Definition with_status (x : ServiceStatus) (s : F2fService) : F2fService :=
  mkService (id s) (name s) (owner_uid s) (network_name s) (owner_port s) x (created s).

Definition create_service (uuid : string) (now : Z) (m : t) (nm owner network : string) (port : Z) : t * F2fService :=
  let service := mkService uuid nm owner network port Pending now in
  (mk (<[uuid := service]> (services m)) (proxies m) (next_port m), service).

Definition accept_service (m : t) (service_id : string) : t * result (Z * ProxyConfig) string :=
  match services m !! service_id with
  | None => (m, Err "服务不存在")
  | Some service =>
      if negb (bool_decide (status service = Pending)) then (m, Err "服务不在待批准状态")
      else
        let local_port := next_port m in
        let config := mkProxy (owner_uid service) (owner_port service) [] true in
        (mk (<[service_id := with_status Active service]> (services m)) (<[local_port := config]> (proxies m))
           (wrap16 (next_port m + 1)), Ok (local_port, config))
  end.

Definition reject_service (m : t) (service_id : string) : t * result unit string :=
  match services m !! service_id with
  | None => (m, Err "服务不存在")
  | Some service => (mk (<[service_id := with_status Rejected service]> (services m)) (proxies m) (next_port m), Ok tt)
  end.

Definition close_service (m : t) (service_id requester : string) : t * result unit string :=
  match services m !! service_id with
  | None => (m, Err "服务不存在")
  | Some service =>
      if negb (bool_decide (owner_uid service = requester)) then (m, Err "只有服务创建者可以关闭")
      else
        (mk (<[service_id := with_status Closed service]> (services m))
           (filter (fun p => target_uid p.2 <> owner_uid service) (proxies m)) (next_port m), Ok tt)
  end.

(** The predicate of [find] in [allow_client] and [deny_client]. *)
Definition serves (m : t) (service_name : string) (p : ProxyConfig) : bool :=
  existsb (fun s => bool_decide (name s = service_name) && bool_decide (owner_uid s = target_uid p))
    (map_to_list (services m)).*2.

(** [values_mut().find], with the port of the proxy found. *)
Fixpoint find_proxy (m : t) (order : list Z) (service_name : string) : option (Z * ProxyConfig) :=
  match order with
  | [] => None
  | port :: r =>
      match proxies m !! port with
      | Some p => if serves m service_name p then Some (port, p) else find_proxy m r service_name
      | None => find_proxy m r service_name
      end
  end.

Definition set_proxy (m : t) (port : Z) (p : ProxyConfig) : t :=
  mk (services m) (<[port := p]> (proxies m)) (next_port m).

Definition allow_client (order : list Z) (m : t) (service_name uid : string) : t * result unit string :=
  match find_proxy m order service_name with
  | None => (m, Err "服务代理不存在")
  | Some (port, p) =>
      let clients := if bool_decide (uid ∈ allowed_clients p) then allowed_clients p else allowed_clients p ++ [uid] in
      (set_proxy m port (mkProxy (target_uid p) (target_port p) clients false), Ok tt)
  end.

Definition deny_client (order : list Z) (m : t) (service_name uid : string) : t * result unit string :=
  match find_proxy m order service_name with
  | None => (m, Err "服务代理不存在")
  | Some (port, p) =>
      (set_proxy m port (mkProxy (target_uid p) (target_port p) (filter (fun c => c <> uid) (allowed_clients p))
                           (allow_all_members p)), Ok tt)
  end.

Definition can_access (m : t) (uid : string) (local_port : Z) : bool :=
  match proxies m !! local_port with
  | Some cfg => allow_all_members cfg || bool_decide (uid ∈ allowed_clients cfg)
  | None => false
  end.

Definition list_services (m : t) : list F2fService :=
  filter (fun s => status s = Active) (map_to_list (services m)).*2.
Definition list_pending (m : t) : list F2fService :=
  filter (fun s => status s = Pending) (map_to_list (services m)).*2.

Definition active_count (m : t) : Z := zlen (list_services m).
Definition pending_count (m : t) : Z := zlen (list_pending m).
Definition proxy_count (m : t) : Z := Z.of_nat (size (proxies m)).

End ServiceManager.

Abbreviation ServiceManager := ServiceManager.t.

(** ** Histories *)

Module ServiceRun.
Import ServiceManager.

Inductive op :=
| Create (uuid nm owner network : string) (port now : Z)
| Accept (service_id : string)
| Reject (service_id : string)
| Close (service_id requester : string)
| Allow (order : list Z) (service_name uid : string)
| Deny (order : list Z) (service_name uid : string).

Definition exec (m : t) (o : op) : t :=
  match o with
  | Create u nm ow nw p now => (create_service u now m nm ow nw p).1
  | Accept i => (accept_service m i).1
  | Reject i => (reject_service m i).1
  | Close i r => (close_service m i r).1
  | Allow o s u => (allow_client o m s u).1
  | Deny o s u => (deny_client o m s u).1
  end.

Definition run (m : t) (l : list op) : t := foldl exec m l.

(** Identifiers are drawn fresh. *)
Fixpoint fresh_ids (m : t) (l : list op) : Prop :=
  match l with
  | [] => True
  | o :: r =>
      match o with Create u _ _ _ _ _ => services m !! u = None | _ => True end /\ fresh_ids (exec m o) r
  end.

(** Number of acceptances in a history. *)
Definition accept_of (o : op) : Z := match o with Accept _ => 1 | _ => 0 end.
Definition accepts (l : list op) : Z := foldr (fun o n => accept_of o + n) 0 l.

Lemma find_proxy_Some m order nm port p :
  find_proxy m order nm = Some (port, p) -> proxies m !! port = Some p /\ serves m nm p = true.
Proof.
  induction order as [|x r IH]; [done|]. cbn [find_proxy]. destruct (proxies m !! x) as [q|] eqn:E; [|done].
  destruct (serves m nm q) eqn:S; [|done]. by intros [= <- <-].
Qed.

Lemma accepts_nonneg l : 0 <= accepts l.
Proof. unfold accepts. induction l as [|x l IH]; cbn [foldr]; [done|]. destruct x; cbn [accept_of]; lia. Qed.

Lemma accepts_app l l' : accepts (l ++ l') = accepts l + accepts l'.
Proof. unfold accepts. induction l as [|x l IH]; cbn [foldr app]; lia. Qed.

Lemma fresh_ids_app m l l' : fresh_ids m (l ++ l') <-> fresh_ids m l /\ fresh_ids (run m l) l'.
Proof. revert m. induction l as [|o l IH]; intros m; cbn [fresh_ids app run foldl]; [tauto|]. rewrite IH. tauto. Qed.

Lemma run_snoc m l o : run m (l ++ [o]) = exec (run m l) o.
Proof. apply foldl_snoc. Qed.

Lemma run_service_app m l l' : run m (l ++ l') = run (run m l) l'.
Proof. apply foldl_app. Qed.

(** While there are ports left, they only grow. *)
Lemma exec_port m o : 0 <= next_port m -> next_port m + 1 < 2 ^ 16 ->
  next_port m <= next_port (exec m o) <= next_port m + accept_of o.
Proof.
  intros H0 H1. destruct o; cbn [exec accept_of create_service fst next_port]; try lia.
  - unfold accept_service. destruct (services m !! service_id); [|cbn; lia]. destruct (negb _); cbn [fst next_port]; [lia|].
    unfold wrap16. rewrite Z.mod_small; lia.
  - unfold reject_service. destruct (services m !! service_id); cbn; lia.
  - unfold close_service. destruct (services m !! service_id); [|cbn; lia]. destruct (negb _); cbn; lia.
  - unfold allow_client. destruct (find_proxy _ _ _) as [[]|]; cbn; lia.
  - unfold deny_client. destruct (find_proxy _ _ _) as [[]|]; cbn; lia.
Qed.

Lemma run_port m l : 0 <= next_port m -> next_port m + accepts l + 1 < 2 ^ 16 ->
  next_port m <= next_port (run m l) <= next_port m + accepts l.
Proof.
  induction l as [|o l IH] using rev_ind; intros H0 H1; [cbn; lia|]. rewrite accepts_app in *. rewrite run_snoc.
  change (accepts [o]) with (accept_of o + 0) in *. pose proof (accepts_nonneg [o]). cbn [accepts foldr] in *.
  pose proof (exec_port (run m l) o). lia.
Qed.

End ServiceRun.

(** ** Who may use a proxy, abstractly *)

Module AccessList.
Import ServiceManager.

(** Everyone, or the members of a set. *)
Definition acl := option (gset string).

Inductive request := Grant (uid : string) | Revoke (uid : string).

Definition acl_step (a : acl) (r : request) : acl :=
  match r, a with
  | Grant u, None => Some {[u]}
  | Grant u, Some s => Some (s ∪ {[u]})
  | Revoke u, None => None
  | Revoke u, Some s => Some (s ∖ {[u]})
  end.

Definition permits (a : acl) (uid : string) : bool :=
  match a with None => true | Some s => bool_decide (uid ∈ s) end.

(** A request at the manager, with the order the proxies are walked in. *)
Definition ask (nm : string) (m : t) (r : list Z * request) : t :=
  match r.2 with
  | Grant u => (allow_client r.1 m nm u).1
  | Revoke u => (deny_client r.1 m nm u).1
  end.

(** The proxy holds the abstract list. *)
Definition holds (p : ProxyConfig) (a : acl) : Prop :=
  match a with
  | None => allow_all_members p = true /\ allowed_clients p = []
  | Some s => allow_all_members p = false /\ forall u, u ∈ allowed_clients p <-> u ∈ s
  end.

Lemma holds_permits p a uid : holds p a -> allow_all_members p || bool_decide (uid ∈ allowed_clients p) = permits a uid.
Proof. destruct a as [s|]; intros [-> Ha]; [|done]. cbn. apply bool_decide_ext, Ha. Qed.

(** What [allow_client] and [deny_client] make of a proxy. *)
Definition changed (r : request) (p : ProxyConfig) : ProxyConfig :=
  match r with
  | Grant u => mkProxy (target_uid p) (target_port p)
      (if bool_decide (u ∈ allowed_clients p) then allowed_clients p else allowed_clients p ++ [u]) false
  | Revoke u => mkProxy (target_uid p) (target_port p) (filter (fun c => c <> u) (allowed_clients p)) (allow_all_members p)
  end.

Lemma changed_holds p a r : holds p a -> holds (changed r p) (acl_step a r).
Proof.
  intros Ha. destruct r as [u|u], a as [s|]; cbn [changed holds acl_step allow_all_members allowed_clients] in *; destruct Ha as [Hm Ha].
  - split; [done|]. intros x. rewrite elem_of_union, elem_of_singleton, <-Ha.
    case_bool_decide; [naive_solver|rewrite elem_of_app, list_elem_of_singleton; tauto].
  - rewrite Ha. split; [done|]. intros x. rewrite bool_decide_eq_false_2 by apply not_elem_of_nil.
    cbn. by rewrite list_elem_of_singleton, elem_of_singleton.
  - split; [done|]. intros x. rewrite list_elem_of_filter, elem_of_difference, elem_of_singleton, Ha. tauto.
  - by rewrite Ha.
Qed.

(** The name leads to one proxy. *)
Definition leads_to (m : t) (nm : string) (port : Z) : Prop :=
  forall q p, proxies m !! q = Some p -> (serves m nm p = true <-> q = port).

Lemma find_leads_to m order nm port p :
  leads_to m nm port -> proxies m !! port = Some p -> port ∈ order -> find_proxy m order nm = Some (port, p).
Proof.
  intros Hl Hp. induction order as [|x r IH]; [by intros ?%not_elem_of_nil|]. cbn [find_proxy].
  destruct (decide (x = port)) as [->|Hx].
  - intros _. rewrite Hp. by rewrite (proj2 (Hl _ _ Hp)).
  - intros [?|Hin]%elem_of_cons; [congruence|]. destruct (proxies m !! x) as [q|] eqn:E; [|by apply IH].
    destruct (serves m nm q) eqn:S; [by apply (Hl _ _ E) in S|by apply IH].
Qed.

Lemma serves_target m m' nm p q :
  services m' = services m -> target_uid q = target_uid p -> serves m' nm q = serves m nm p.
Proof. unfold serves. by intros -> ->. Qed.

Lemma set_proxy_leads m nm port p q :
  leads_to m nm port -> proxies m !! port = Some p -> target_uid q = target_uid p ->
  leads_to (set_proxy m port q) nm port.
Proof.
  intros Hl Hp Hq x r. cbn. destruct (decide (x = port)) as [->|Hx].
  - rewrite lookup_insert_eq. intros [= <-]. rewrite (serves_target m _ nm p q) by done. by apply Hl.
  - rewrite lookup_insert_ne by done. intros E. rewrite (serves_target m _ nm r r) by done. by apply Hl.
Qed.

(** One request, seen from the port. *)
Lemma ask_step nm m port p a r :
  leads_to m nm port -> proxies m !! port = Some p -> holds p a -> port ∈ r.1 ->
  exists p', proxies (ask nm m r) !! port = Some p' /\ holds p' (acl_step a r.2) /\ leads_to (ask nm m r) nm port /\
    forall q, q <> port -> proxies (ask nm m r) !! q = proxies m !! q.
Proof.
  intros Hl Hp Ha Hin. destruct r as [order req]. cbn [fst snd] in *. unfold ask. cbn [fst snd].
  pose proof (find_leads_to m order nm port p Hl Hp Hin) as Hf.
  destruct req as [u|u]; unfold allow_client, deny_client; rewrite Hf; cbn [fst]; eexists;
    (split_and!; [apply lookup_insert_eq| |by eapply set_proxy_leads|intros q Hq; cbn; by rewrite lookup_insert_ne]).
  - exact (changed_holds p a (Grant u) Ha).
  - exact (changed_holds p a (Revoke u) Ha).
Qed.

End AccessList.

(** ** What a history has granted *)

Module Grants.
Import ServiceManager ServiceRun AccessList.

(** A service that was asked for and not yet decided on, read off the history. *)
Definition waiting (l : list op) (i : string) (s : F2fService) : Prop :=
  exists la nm ow nw p now lb, l = la ++ Create i nm ow nw p now :: lb /\ s = mkService i nm ow nw p Pending now /\
    Accept i ∉ lb /\ Reject i ∉ lb /\ Close i ow ∉ lb.

(** A service with this identifier was asked for by [ow]. *)
Definition asked_by (l : list op) (i ow : string) : Prop := exists nm nw p now, Create i nm ow nw p now ∈ l.

(** The request an operation makes at a port. *)
Definition request_at (m : t) (port : Z) (o : op) : list request :=
  match o with
  | Allow order nm u => match find_proxy m order nm with Some (q, _) => if q =? port then [Grant u] else [] | None => [] end
  | Deny order nm u => match find_proxy m order nm with Some (q, _) => if q =? port then [Revoke u] else [] | None => [] end
  | _ => []
  end.

Fixpoint requests_at (m : t) (port : Z) (l : list op) : list request :=
  match l with [] => [] | o :: l => request_at m port o ++ requests_at (exec m o) port l end.

(** The port was given to [s] by an acceptance while it was waiting, its owner has closed no service
    since, and these are the requests that found the port since. *)
Definition open_for (l : list op) (port : Z) (s : F2fService) (rs : list request) : Prop :=
  exists l1 i l2, l = l1 ++ Accept i :: l2 /\ waiting l1 i s /\ next_port (run new l1) = port /\
    (forall la j lb, l2 = la ++ Close j (owner_uid s) :: lb -> ~ asked_by (l1 ++ Accept i :: la) j (owner_uid s)) /\
    rs = requests_at (run new (l1 ++ [Accept i])) port l2.

(** ** Services over a history *)

Definition service_step (o : op) (i : string) (x : option F2fService) : option F2fService :=
  match o with
  | Create u nm ow nw p now => if bool_decide (u = i) then Some (mkService u nm ow nw p Pending now) else x
  | Accept j => if bool_decide (j = i) then (fun s => if bool_decide (status s = Pending) then with_status Active s else s) <$> x else x
  | Reject j => if bool_decide (j = i) then with_status Rejected <$> x else x
  | Close j r => if bool_decide (j = i) then (fun s => if bool_decide (owner_uid s = r) then with_status Closed s else s) <$> x else x
  | _ => x
  end.

Lemma exec_service m o i : services (exec m o) !! i = service_step o i (services m !! i).
Proof.
  destruct o; cbn [exec service_step]; unfold accept_service, reject_service, close_service, allow_client, deny_client; cbn [create_service fst services].
  1: case_bool_decide; [subst; apply lookup_insert_eq|by apply lookup_insert_ne].
  1-3: destruct (decide (service_id = i)) as [<-|Hi]; [rewrite (bool_decide_eq_true_2 (service_id = service_id)) by done|rewrite (bool_decide_eq_false_2 (service_id = i)) by done];
    destruct (services m !! service_id) as [s|] eqn:E; rewrite ?E; try done; cbn [fmap option_fmap option_map];
    try case_bool_decide; cbn; rewrite ?E, ?lookup_insert_eq, ?lookup_insert_ne by done; done.
  all: by destruct (find_proxy _ _ _) as [[]|].
Qed.

Lemma fresh_snoc l o : fresh_ids new (l ++ [o]) ->
  fresh_ids new l /\ match o with Create u _ _ _ _ _ => services (run new l) !! u = None | _ => True end.
Proof. intros [? [? _]]%fresh_ids_app. done. Qed.

(** Owners never change. *)
Lemma asked_service l i ow : fresh_ids new l -> asked_by l i ow <-> exists s, services (run new l) !! i = Some s /\ owner_uid s = ow.
Proof.
  induction l as [|o l IH] using rev_ind; intros Hf.
  { cbn. split; [intros (? & ? & ? & ? & ?%not_elem_of_nil); done|intros (? & ? & _); done]. }
  apply fresh_snoc in Hf as [Hf Ho]. specialize (IH Hf). rewrite run_snoc, exec_service.
  assert (Hs : asked_by (l ++ [o]) i ow <-> asked_by l i ow \/ exists nm nw p now, o = Create i nm ow nw p now).
  { unfold asked_by. setoid_rewrite elem_of_app. setoid_rewrite list_elem_of_singleton. naive_solver. }
  rewrite Hs, IH. destruct o; cbn [service_step]; try case_bool_decide as Hi; subst; try naive_solver.
  all: destruct (services (run new l) !! i) as [s|]; cbn; try case_bool_decide; naive_solver.
Qed.

Lemma waiting_snoc l o i s : waiting (l ++ [o]) i s <->
  (exists nm ow nw p now, o = Create i nm ow nw p now /\ s = mkService i nm ow nw p Pending now) \/
  waiting l i s /\ o <> Accept i /\ o <> Reject i /\ o <> Close i (owner_uid s).
Proof.
  split.
  - intros (la & nm & ow & nw & p & now & lb & E & -> & Ha & Hr & Hc). destruct lb as [|o' lb _] using rev_ind.
    + apply app_inj_tail in E as [_ ->]. left. eauto 10.
    + rewrite app_comm_cons, app_assoc in E. apply app_inj_tail in E as [-> ->]. right.
      rewrite !elem_of_app, !list_elem_of_singleton in *. split; [|cbn; split_and!; congruence || naive_solver].
      exists la, nm, ow, nw, p, now, lb. naive_solver.
  - intros [(nm & ow & nw & p & now & -> & ->)|[(la & nm & ow & nw & p & now & lb & -> & -> & Ha & Hr & Hc) (Na & Nr & Nc)]].
    + exists l, nm, ow, nw, p, now, []. split_and!; try done; apply not_elem_of_nil.
    + exists la, nm, ow, nw, p, now, (lb ++ [o]). rewrite <-app_assoc. cbn in Nc. rewrite !elem_of_app, !list_elem_of_singleton. naive_solver.
Qed.

(** A service is pending when it is waiting. *)
Lemma waiting_service l i s : fresh_ids new l -> waiting l i s <-> services (run new l) !! i = Some s /\ status s = Pending.
Proof.
  revert s. induction l as [|o l IH] using rev_ind; intros s Hf.
  { split; [|by intros [? _]]. intros (la & ? & ? & ? & ? & ? & lb & E & _). by destruct la. }
  apply fresh_snoc in Hf as [Hf Ho]. rewrite waiting_snoc, (IH s Hf), run_snoc, exec_service.
  destruct o; cbn [service_step]; try case_bool_decide as Hi; subst; try naive_solver.
  all: destruct (services (run new l) !! i) as [s'|]; cbn; try case_bool_decide; naive_solver.
Qed.

(** ** Proxies over a history *)

Definition after (rs : list request) (p : ProxyConfig) : ProxyConfig := foldl (fun p r => changed r p) p rs.

Lemma after_target rs p : target_uid (after rs p) = target_uid p /\ target_port (after rs p) = target_port p.
Proof. revert p. induction rs as [|r rs IH]; intros p; [done|]. destruct (IH (changed r p)) as [E1 E2]. cbn. unfold after in *. rewrite E1, E2. by destruct r. Qed.

Lemma after_holds rs p a : holds p a -> holds (after rs p) (foldl acl_step a rs).
Proof. revert p a. induction rs as [|r rs IH]; intros p a Ha; [done|]. cbn. by apply IH, changed_holds. Qed.

(** Where a proxy comes from. *)
Lemma exec_proxy m o port p' : proxies (exec m o) !! port = Some p' ->
  (exists i s, o = Accept i /\ services m !! i = Some s /\ status s = Pending /\ port = next_port m /\
     p' = mkProxy (owner_uid s) (owner_port s) [] true) \/
  (exists p, proxies m !! port = Some p /\ p' = after (request_at m port o) p /\
     forall j s, o = Close j (target_uid p) -> services m !! j = Some s -> owner_uid s <> target_uid p).
Proof.
  assert (Hset : forall q p r, proxies m !! q = Some p -> <[q := changed r p]> (proxies m) !! port = Some p' ->
    exists p, proxies m !! port = Some p /\ p' = after (if q =? port then [r] else []) p).
  { intros q p r Hq. destruct (Z.eqb_spec q port) as [->|Hn]; [rewrite lookup_insert_eq; intros [= <-]|rewrite lookup_insert_ne by done]; eauto. }
  destruct o; cbn [exec request_at]; unfold accept_service, reject_service, close_service, allow_client, deny_client; cbn [create_service fst proxies].
  - intros E. right. by exists p'.
  - destruct (services m !! service_id) as [s|] eqn:Es; [|intros E; right; by exists p']. case_bool_decide as Hs; [|intros E; right; by exists p'].
    cbn. destruct (decide (port = next_port m)) as [->|Hn].
    + rewrite lookup_insert_eq. intros [= <-]. left. by exists service_id, s.
    + rewrite lookup_insert_ne by done. intros E. right. by exists p'.
  - intros E. right. exists p'. by destruct (services m !! service_id).
  - destruct (services m !! service_id) as [s|] eqn:Es; [|intros E; right; exists p'; split_and!; [done|done|]; intros j s [= <- ->] ?; congruence].
    case_bool_decide as Ho; cbn; [intros [E Hf]%map_lookup_filter_Some|intros E]; right; exists p'; (split_and!; [done|done|]);
      intros j s' [= <- ->] E'; rewrite Es in E'; injection E' as <-; cbn in *; congruence.
  - destruct (find_proxy m order service_name) as [[q p]|] eqn:Ef; [|intros E; right; by exists p']. apply find_proxy_Some in Ef as [Hq _].
    intros E. right. destruct (Hset q p (Grant uid) Hq E) as (p1 & ? & ?). by exists p1.
  - destruct (find_proxy m order service_name) as [[q p]|] eqn:Ef; [|intros E; right; by exists p']. apply find_proxy_Some in Ef as [Hq _].
    intros E. right. destruct (Hset q p (Revoke uid) Hq E) as (p1 & ? & ?). by exists p1.
Qed.

(** What keeps one. *)
Lemma exec_keeps m o port p : proxies m !! port = Some p -> port < next_port m ->
  (forall j s, o = Close j (target_uid p) -> services m !! j = Some s -> owner_uid s <> target_uid p) ->
  proxies (exec m o) !! port = Some (after (request_at m port o) p).
Proof.
  intros Hp Hlt Hc.
  assert (Hset : forall q p' r, proxies m !! q = Some p' ->
    <[q := changed r p']> (proxies m) !! port = Some (after (if q =? port then [r] else []) p)).
  { intros q p' r Hq. destruct (Z.eqb_spec q port) as [->|Hn]; [|by rewrite lookup_insert_ne].
    rewrite Hp in Hq. injection Hq as <-. by rewrite lookup_insert_eq. }
  destruct o; cbn [exec request_at]; unfold accept_service, reject_service, close_service, allow_client, deny_client; cbn [create_service fst proxies].
  - done.
  - destruct (services m !! service_id); [|done]. destruct (negb _); [done|]. cbn. rewrite lookup_insert_ne; [done|lia].
  - by destruct (services m !! service_id).
  - destruct (services m !! service_id) as [s|] eqn:Es; [|done]. case_bool_decide as Ho; [|done]. cbn. apply map_lookup_filter_Some.
    split; [done|]. cbn. intros Ht. subst requester. eapply Hc; [by rewrite Ht|exact Es|done].
  - destruct (find_proxy m order service_name) as [[q p']|] eqn:Ef; [|done]. apply find_proxy_Some in Ef as [Hq _]. by apply (Hset q p' (Grant uid)).
  - destruct (find_proxy m order service_name) as [[q p']|] eqn:Ef; [|done]. apply find_proxy_Some in Ef as [Hq _]. by apply (Hset q p' (Revoke uid)).
Qed.

Lemma requests_snoc m port l o : requests_at m port (l ++ [o]) = requests_at m port l ++ request_at (run m l) port o.
Proof. revert m. induction l as [|x l IH]; intros m; cbn [requests_at app run foldl]; [by rewrite app_nil_r|]. by rewrite IH, app_assoc. Qed.

(** The proxy and the service it stands for. *)
Definition stands_for (p : ProxyConfig) (s : F2fService) (rs : list request) : Prop :=
  target_uid p = owner_uid s /\ target_port p = owner_port s /\ holds p (foldl acl_step None rs).

Lemma stands_after p s rs rs' : stands_for p s rs -> stands_for (after rs' p) s (rs ++ rs').
Proof.
  intros (Hu & Ht & Hh). unfold stands_for. destruct (after_target rs' p) as [-> ->]. split_and!; [done|done|]. rewrite foldl_app. by apply after_holds.
Qed.

(** Every proxy is a grant. *)
Lemma proxy_granted l port p : fresh_ids new l -> proxies (run new l) !! port = Some p ->
  exists s rs, open_for l port s rs /\ stands_for p s rs.
Proof.
  revert p. induction l as [|o l IH] using rev_ind; intros p' Hf; [by cbn|]. apply fresh_snoc in Hf as [Hf _].
  rewrite run_snoc. intros [(i & s & -> & Hs & Hst & -> & ->)|(p & Hp & -> & Hc)]%exec_proxy.
  - exists s, []. split; [|done]. exists l, i, []. split_and!; [done|by apply waiting_service|done| |done]. intros la j lb E. by destruct la.
  - destruct (IH p Hf Hp) as (s & rs & (l1 & i & l2 & -> & Hw & Hn & Hcl & ->) & Hst). eexists s, _. split; [|by apply stands_after].
    exists l1, i, (l2 ++ [o]). split_and!; [by rewrite <-app_assoc|done|done| |].
    + intros la j lb E. destruct lb as [|x lb _] using rev_ind.
      * apply app_inj_tail in E as [-> ->]. intros (s' & Hs' & Ho)%asked_service; [|done]. destruct Hst as (Hu & _).
        rewrite <-Hu in *. by apply (Hc j s').
      * rewrite app_comm_cons, app_assoc in E. apply app_inj_tail in E as [-> ->]. by eapply Hcl.
    + rewrite requests_snoc. do 2 f_equal. rewrite <-run_service_app, <-app_assoc. done.
Qed.

(** Every grant is a proxy. *)
Lemma granted_proxy l port s rs : fresh_ids new l -> accepts l + 1 < 2 ^ 16 - 18080 -> open_for l port s rs ->
  exists p, proxies (run new l) !! port = Some p /\ stands_for p s rs /\ port < next_port (run new l).
Proof.
  intros Hf Ha (l1 & i & l2 & -> & Hw & Hn & Hcl & ->). revert Hf Ha Hcl. induction l2 as [|o l2 IH] using rev_ind; intros Hf Ha Hcl.
  - apply fresh_ids_app in Hf as [Hf _]. apply waiting_service in Hw as [Hs Hst]; [|done]. rewrite accepts_app in Ha.
    pose proof (run_port new l1 ltac:(cbn; lia)) as Hb. rewrite run_snoc. cbn [exec requests_at accepts foldr accept_of new next_port] in *.
    unfold accept_service. rewrite Hs, bool_decide_eq_true_2 by done. cbn [negb fst proxies next_port]. subst port.
    eexists. rewrite lookup_insert_eq. split_and!; [done|done|]. unfold wrap16. rewrite Z.mod_small; lia.
  - rewrite app_comm_cons, app_assoc in Hf, Ha |- *. apply fresh_snoc in Hf as [Hf _]. rewrite accepts_app in Ha. pose proof (accepts_nonneg [o]).
    destruct (IH Hf ltac:(lia)) as (p & Hp & Hst & Hlt); [intros la j lb ->; eapply (Hcl la j (lb ++ [o])); by rewrite <-app_assoc|].
    rewrite run_snoc. exists (after (request_at (run new (l1 ++ Accept i :: l2)) port o) p). split_and!.
    + apply exec_keeps; [done|done|]. intros j s' -> Hs' Ho. destruct Hst as (Hu & _). rewrite Hu in *.
      apply (Hcl l2 j []); [done|]. apply asked_service; [done|]. eauto.
    + rewrite requests_snoc, <-run_service_app, <-app_assoc. by apply stands_after.
    + pose proof (run_port new (l1 ++ Accept i :: l2) ltac:(cbn; lia) ltac:(cbn [new next_port]; lia)) as Hb. cbn [new next_port] in Hb.
      pose proof (exec_port (run new (l1 ++ Accept i :: l2)) o). lia.
Qed.

End Grants.

(** ** Properties *)

Section ServiceProperties.
Import ServiceManager ServiceRun AccessList Grants.


(** Access control refines an access list. From the acceptance of a service whose name leads to
    its proxy alone, after any requests to allow and deny clients, in whatever order the
    proxies are walked, the port admits exactly whom the abstract list permits; no other port is
    touched. A request to deny changes nothing while everyone is admitted. *)
Theorem access_refines_acl m i m1 port cfg nm reqs :
  accept_service m i = (m1, Ok (port, cfg)) -> leads_to m1 nm port ->
  Forall (fun r => port ∈ r.1) reqs ->
  let m2 := foldl (ask nm) m1 reqs in
  (forall uid, can_access m2 uid port = permits (foldl acl_step None reqs.*2) uid) /\
  (forall uid q, q <> port -> can_access m2 uid q = can_access m1 uid q).
Proof.
  intros Hacc Hl HF.
  assert (Hgen : forall m p a, leads_to m nm port -> proxies m !! port = Some p -> holds p a ->
    exists p', proxies (foldl (ask nm) m reqs) !! port = Some p' /\ holds p' (foldl acl_step a reqs.*2) /\
      forall q, q <> port -> proxies (foldl (ask nm) m reqs) !! q = proxies m !! q).
  { clear -HF. induction HF as [|r reqs Hr HF IH]; intros m p a Hl Hp Ha; [by exists p|]. cbn [foldl fmap list_fmap].
    destruct (ask_step nm m port p a r Hl Hp Ha Hr) as (p1 & Hp1 & Ha1 & Hl1 & Ho).
    destruct (IH _ p1 _ Hl1 Hp1 Ha1) as (p' & Hp' & Ha' & Ho'). exists p'. split_and!; [done..|].
    intros q Hq. by rewrite Ho', Ho. }
  unfold accept_service in Hacc. destruct (services m !! i) as [s|]; [|done]. case_bool_decide; [|done]. cbn [negb] in Hacc.
  injection Hacc as <- <- <-. destruct (Hgen _ (mkProxy (owner_uid s) (owner_port s) [] true) None Hl) as (p' & Hp' & Ha' & Ho);
    [apply lookup_insert_eq|done|].
  split.
  - intros uid. unfold can_access. rewrite Hp'. by apply holds_permits.
  - intros uid q Hq. unfold can_access. by rewrite Ho.
Qed.

(** A decision against a service does not close it, and closing one closes others. A service that
    is rejected after its acceptance stays open to everyone at its port; when an owner closes one
    service, no proxy leads to that owner any more, while other services of the owner stay listed as
    active. *)
Theorem revocation_misses m i m1 port cfg :
  accept_service m i = (m1, Ok (port, cfg)) ->
  (let m2 := (reject_service m1 i).1 in
   (status <$> services m2 !! i = Some Rejected) /\ forall uid, can_access m2 uid port = true) /\
  (forall j s, j <> i -> services m !! j = Some s -> owner_uid s = target_uid cfg -> status s = Active ->
   let m2 := (close_service m1 i (target_uid cfg)).1 in
   s ∈ list_services m2 /\ forall q p, proxies m2 !! q = Some p -> target_uid p <> owner_uid s).
Proof.
  unfold accept_service. destruct (services m !! i) as [x|] eqn:E; [|done]. case_bool_decide; [|done]. cbn [negb].
  intros [= <- <- <-]. split.
  - unfold reject_service. cbn [services fst]. rewrite lookup_insert_eq. cbn [fst services]. rewrite lookup_insert_eq.
    split; [done|]. intros uid. unfold can_access. cbn [proxies]. by rewrite lookup_insert_eq.
  - intros j s Hj Hs Ho Ha. cbn [target_uid] in *. unfold close_service. cbn [services]. rewrite lookup_insert_eq.
    cbn [owner_uid with_status]. rewrite bool_decide_eq_true_2 by done. cbn [negb fst]. split.
    + unfold list_services. apply list_elem_of_filter. split; [done|]. apply list_elem_of_fmap. exists (j, s). split; [done|].
      apply elem_of_map_to_list. cbn [services]. by rewrite !lookup_insert_ne.
    + cbn [proxies]. intros q p (_ & Hp)%map_lookup_filter_Some. cbn in Hp. by rewrite Ho.
Qed.

(** Accepting a list of services in turn. *)
Definition accept_all (m : t) (ids : list string) : t := foldl (fun m i => (accept_service m i).1) m ids.

Lemma accept_all_snoc m ids i : accept_all m (ids ++ [i]) = (accept_service (accept_all m ids) i).1.
Proof. unfold accept_all. by rewrite foldl_snoc. Qed.

Lemma accept_all_spec ids m :
  NoDup ids -> (forall i, i ∈ ids -> exists s, services m !! i = Some s /\ status s = Pending) ->
  next_port (accept_all m ids) = (if decide (ids = []) then next_port m else wrap16 (next_port m + zlen ids)) /\
  (forall i s, i ∉ ids -> services m !! i = Some s -> services (accept_all m ids) !! i = Some s) /\
  (forall i s, i ∈ ids -> services m !! i = Some s -> services (accept_all m ids) !! i = Some (with_status Active s)).
Proof.
  revert m. induction ids as [|x ids IH]; intros m Hnd Hpend; [split_and!; [done|done|by intros ? ? ?%not_elem_of_nil]|].
  apply NoDup_cons in Hnd as [Hx Hnd]. destruct (Hpend x) as (s & Hs & Hst); [apply elem_of_cons; by left|].
  cbn [accept_all foldl]. unfold accept_service at 2 4 6. rewrite Hs, bool_decide_eq_true_2 by done. cbn [negb fst].
  set (m1 := mk _ _ _). destruct (IH m1 Hnd) as (Hp & Hout & Hin).
  { intros i Hi. destruct (Hpend i) as (si & ? & ?); [apply elem_of_cons; by right|]. exists si. split; [|done].
    cbn. rewrite lookup_insert_ne; [done|]. intros ->. done. }
  unfold accept_all in *. split_and!.
  - rewrite Hp. cbn [next_port m1]. rewrite zlen_cons. destruct (decide (x :: ids = [])) as [|_]; [done|].
    case_decide as E.
    + by subst ids.
    + unfold wrap16. rewrite Zplus_mod_idemp_l. f_equal. lia.
  - intros i si Hi Hsi. apply not_elem_of_cons in Hi as [? ?]. apply Hout; [done|]. cbn. by rewrite lookup_insert_ne.
  - intros i si Hi Hsi. apply elem_of_cons in Hi as [->|Hi].
    + apply Hout; [done|]. cbn. rewrite lookup_insert_eq. congruence.
    + apply Hin; [done|]. cbn. rewrite lookup_insert_ne; [done|]. intros ->. done.
Qed.

(** Ports have 16 bits and are never returned. The acceptance after 65536 others gets the port of
    the first: both services are active, and the port of the first leads to the owner of the last. *)
Theorem ports_wrap m first ids last sf sl :
  NoDup (first :: ids ++ [last]) -> zlen ids = 2 ^ 16 - 1 -> 0 <= next_port m < 2 ^ 16 ->
  (forall i, i ∈ first :: ids ++ [last] -> exists s, services m !! i = Some s /\ status s = Pending) ->
  services m !! first = Some sf -> services m !! last = Some sl ->
  let m' := accept_all m (first :: ids ++ [last]) in
  (accept_service m first).2 = Ok (next_port m, mkProxy (owner_uid sf) (owner_port sf) [] true) /\
  proxies m' !! next_port m = Some (mkProxy (owner_uid sl) (owner_port sl) [] true) /\
  services m' !! first = Some (with_status Active sf) /\ services m' !! last = Some (with_status Active sl).
Proof.
  intros Hnd Hlen Hport Hpend Hf Hl m'.
  destruct (accept_all_spec _ m Hnd Hpend) as (_ & _ & Hin).
  assert (Hsp : forall i s, i ∈ first :: ids ++ [last] -> services m !! i = Some s -> status s = Pending).
  { intros i s Hi Hs. destruct (Hpend i Hi) as (s' & ? & ?). congruence. }
  assert (Hfi : first ∈ first :: ids ++ [last]) by (apply elem_of_cons; by left).
  assert (Hli : last ∈ first :: ids ++ [last]) by (rewrite app_comm_cons; apply elem_of_app; right; by apply list_elem_of_singleton).
  split_and!; [| |by apply Hin|by apply Hin].
  { unfold accept_service. rewrite Hf, bool_decide_eq_true_2 by (eapply Hsp, Hf; exact Hfi). done. }
  unfold m'. rewrite app_comm_cons, accept_all_snoc.
  rewrite app_comm_cons in Hnd. apply NoDup_app in Hnd as (Hnd & Hdis & _).
  destruct (accept_all_spec (first :: ids) m Hnd) as (Hp & Hout & _).
  { intros i Hi. apply Hpend. rewrite app_comm_cons. apply elem_of_app. by left. }
  unfold accept_service. rewrite (Hout last sl), bool_decide_eq_true_2.
  - cbn [negb fst proxies]. rewrite Hp, zlen_cons, Hlen. destruct (decide (first :: ids = [])) as [|_]; [done|].
    replace (wrap16 (next_port m + (1 + (2 ^ 16 - 1)))) with (next_port m); [apply lookup_insert_eq|].
    unfold wrap16. rewrite <-Zplus_mod_idemp_r. replace ((1 + (2 ^ 16 - 1)) mod 2 ^ 16) with 0 by done. rewrite Z.add_0_r, Z.mod_small; lia.
  - eapply Hsp, Hl. exact Hli.
  - intros Hin'. apply (Hdis last Hin'). by apply list_elem_of_singleton.
  - done.
Qed.

End ServiceProperties.

Module ServiceWitness.
Import ServiceManager ServiceRun AccessList Grants.

Definition board : list op :=
  [Create "1" "bbs" "bob" "net" 8080 5; Create "2" "files" "bob" "net" 21 6; Accept "1"; Accept "2";
   Allow [18080; 18081] "bbs" "carol"].


Definition one : ServiceManager := (create_service "1" 5 new "bbs" "bob" "net" 8080).1.

Lemma one_leads : leads_to (accept_service one "1").1 "bbs" 18080.
Proof.
  intros q p. change (proxies (accept_service one "1").1) with (<[18080 := mkProxy "bob" 8080 [] true]> (∅ : gmap Z ProxyConfig)).
  destruct (decide (q = 18080)) as [->|Hq].
  - rewrite lookup_insert_eq. intros [= <-]. split; [done|]. intros _. vm_compute. reflexivity.
  - rewrite lookup_insert_ne, lookup_empty by done. done.
Qed.

Lemma access_refines_acl_witness :
  let m2 := foldl (ask "bbs") (accept_service one "1").1 [([18080], Revoke "eve"); ([18080], Grant "carol")] in
  can_access (accept_service one "1").1 "eve" 18080 = true /\ can_access m2 "carol" 18080 = true /\ can_access m2 "eve" 18080 = false.
Proof.
  destruct (access_refines_acl one "1" (accept_service one "1").1 18080 (mkProxy "bob" 8080 [] true) "bbs"
    [([18080], Revoke "eve"); ([18080], Grant "carol")]) as [Ha _].
  - vm_compute. reflexivity.
  - exact one_leads.
  - repeat constructor.
  - split; [vm_compute; reflexivity|]. rewrite !Ha. split; vm_compute; reflexivity.
Defined.

Lemma revocation_misses_witness :
  can_access (reject_service (accept_service one "1").1 "1").1 "eve" 18080 = true.
Proof.
  destruct (revocation_misses one "1" (accept_service one "1").1 18080 (mkProxy "bob" 8080 [] true)) as [[_ Hr] _].
  - vm_compute. reflexivity.
  - apply Hr.
Defined.

(** A manager with as many pending services as there are port numbers, and one more. *)
Definition service_at (n : nat) : string * F2fService :=
  (pretty n, mkService (pretty n) "s" (pretty n) "net" 80 Pending 0).
Definition crowd (n : nat) : ServiceManager := mk (list_to_map (service_at <$> seq 0 n)) ∅ 18080.

Lemma crowd_services n i : (i < n)%nat -> services (crowd n) !! pretty i = Some (service_at i).2.
Proof.
  intros Hi. cbn. apply elem_of_list_to_map_1.
  - rewrite <-list_fmap_compose. apply (NoDup_fmap_2 (fun n : nat => pretty n)), NoDup_seq.
  - apply list_elem_of_fmap. exists i. split; [done|]. apply elem_of_seq. lia.
Qed.

Lemma ports_wrap_witness :
  exists m ids first last, zlen ids = 2 ^ 16 - 1 /\
    proxies (accept_all m (first :: ids ++ [last])) !! 18080 = Some (mkProxy last 80 [] true).
Proof.
  set (n := Z.to_nat 65535).
  exists (crowd (2 + n)), (pretty <$> seq 1 n), (pretty 0%nat), (pretty (S n)). split.
  { unfold zlen. rewrite length_fmap, length_seq. unfold n. lia. }
  assert (Hids : pretty 0%nat :: (pretty <$> seq 1 n) ++ [pretty (S n)] = pretty <$> seq 0 (2 + n)).
  { change (2 + n)%nat with (S (S n)). rewrite seq_S, fmap_app. reflexivity. }
  destruct (ports_wrap (crowd (2 + n)) (pretty 0%nat) (pretty <$> seq 1 n) (pretty (S n))
    (service_at 0).2 (service_at (S n)).2) as (_ & Hp & _).
  - rewrite Hids. apply (NoDup_fmap_2 (fun n : nat => pretty n)), NoDup_seq.
  - unfold zlen. rewrite length_fmap, length_seq. unfold n. lia.
  - cbn. lia.
  - rewrite Hids. intros i (k & -> & Hk%elem_of_seq)%list_elem_of_fmap. exists (service_at k).2.
    split; [apply crowd_services; lia|reflexivity].
  - apply crowd_services. lia.
  - apply crowd_services. lia.
  - exact Hp.
Defined.

End ServiceWitness.
