(* ===== verification/ProtocolFilter.v ===== *)
(** [protocol_filter.rs]: which messages may pass a proxy.

    serde's JSON is a parameter: the keys of the object a text parses to, if it parses to one. *)

From S2P Require Import Prelude Identity Text.

Inductive Protocol := IRC | BBS | Unknown.

Inductive RejectReason :=
| TooLarge (size max : Z)
| NotText
| BinaryDetected.

(** [str::to_uppercase], as far as an ASCII prefix can tell: ASCII letters, and the characters whose
    upper case has ASCII letters in it. Every other character has an upper case without
    ASCII and is kept. *)
Fixpoint to_uppercase (bs : bytes) : bytes :=
  match bs with
  | 195 :: 159 :: r => [83; 83] ++ to_uppercase r
  | 196 :: 177 :: r => [73] ++ to_uppercase r
  | 197 :: 191 :: r => [83] ++ to_uppercase r
  | 197 :: 137 :: r => [202; 188; 78] ++ to_uppercase r
  | 199 :: 176 :: r => [74; 204; 140] ++ to_uppercase r
  | 225 :: 186 :: 150 :: r => [72; 204; 177] ++ to_uppercase r
  | 225 :: 186 :: 151 :: r => [84; 204; 136] ++ to_uppercase r
  | 225 :: 186 :: 152 :: r => [87; 204; 138] ++ to_uppercase r
  | 225 :: 186 :: 153 :: r => [89; 204; 138] ++ to_uppercase r
  | 225 :: 186 :: 154 :: r => [65; 202; 190] ++ to_uppercase r
  | 239 :: 172 :: 128 :: r => [70; 70] ++ to_uppercase r
  | 239 :: 172 :: 129 :: r => [70; 73] ++ to_uppercase r
  | 239 :: 172 :: 130 :: r => [70; 76] ++ to_uppercase r
  | 239 :: 172 :: 131 :: r => [70; 70; 73] ++ to_uppercase r
  | 239 :: 172 :: 132 :: r => [70; 70; 76] ++ to_uppercase r
  | 239 :: 172 :: 133 :: r => [83; 84] ++ to_uppercase r
  | 239 :: 172 :: 134 :: r => [83; 84] ++ to_uppercase r
  | b :: r => ascii_upper b :: to_uppercase r
  | [] => []
  end.

Definition contains_binary (text : bytes) : bool :=
  existsb (fun b => (b =? 0) || ((b <? 32) && negb (b =? 13) && negb (b =? 10) && negb (b =? 9)) || (b =? 127)) text.

Definition irc_verbs : list string :=
  ["PRIVMSG"; "JOIN"; "PART"; "NICK"; "USER"; "PING"; "PONG"; "QUIT"; "NOTICE"; "MODE"; "TOPIC"; "KICK"; "INVITE"; "WHOIS"].

(** [text.get(..3)]: [None] inside a character. *)
Definition get3 (text : bytes) : option bytes :=
  if zlen text <? 3 then None
  else match text !! 3%nat with
       | Some b => if cont b then None else Some (take 3 text)
       | None => Some (take 3 text)
       end.

Definition looks_like_irc (text : bytes) : bool :=
  let text := skip_back (fun b => (b =? 13) || (b =? 10)) text in
  if zlen text <? 3 then false
  else
    let upper := to_uppercase text in
    if existsb (fun verb => starts_with (string_bytes verb) upper || starts_with (58 :: string_bytes verb) upper) irc_verbs
    then true
    else match get3 text with Some s => forallb (byte_in 48 57) s | None => false end.

Record ProtocolFilter := mkFilter {
  max_message_bytes : Z;
  allow_irc : bool;
  allow_bbs : bool;
  allow_unknown_text : bool;
}.

Definition default_filter : ProtocolFilter := mkFilter 8192 true true false.

Section Filter.
Context (json_keys : string -> option (list string)).

Definition looks_like_bbs (text : bytes) : bool :=
  match json_keys (bytes_string text) with
  | Some keys => bool_decide ("topic" ∈ keys) || bool_decide ("body" ∈ keys) || bool_decide ("title" ∈ keys)
  | None => false
  end.

Definition check (f : ProtocolFilter) (data : bytes) : result Protocol RejectReason :=
  if zlen data >? max_message_bytes f then Err (TooLarge (zlen data) (max_message_bytes f))
  else if negb (utf8_valid data) then Err NotText
  else if contains_binary data then Err BinaryDetected
  else if allow_irc f && looks_like_irc data then Ok IRC
  else if allow_bbs f && looks_like_bbs data then Ok BBS
  else if allow_unknown_text f then Ok Unknown
  else Err NotText.

(** ** Lemmas *)

Lemma binary_spec text :
  contains_binary text = false <-> Forall (fun b => b <> 127 /\ (32 <= b \/ b = 9 \/ b = 10 \/ b = 13)) text.
Proof.
  unfold contains_binary. rewrite <-not_true_iff_false, existsb_exists, Forall_forall. split.
  - intros Hn b Hb. destruct (Z.eqb_spec b 127) as [->|H7].
    { destruct Hn. exists 127. split; [by apply list_elem_of_In|done]. }
    split; [done|]. destruct (decide (32 <= b \/ b = 9 \/ b = 10 \/ b = 13)) as [?|Hno]; [done|].
    destruct Hn. exists b. split; [by apply list_elem_of_In|]. rewrite !orb_true_iff, !andb_true_iff, !negb_true_iff, !Z.eqb_neq, Z.ltb_lt, !Z.eqb_eq. lia.
  - intros HF (b & Hb & E). specialize (HF b (proj2 (list_elem_of_In _ _) Hb)).
    rewrite !orb_true_iff, !andb_true_iff, !negb_true_iff, !Z.eqb_neq, Z.ltb_lt, !Z.eqb_eq in E. lia.
Qed.

Lemma skip_back_app {A} (f : A -> bool) l s : forallb f s = true -> skip_back f (l ++ s) = skip_back f l.
Proof.
  unfold skip_back. intros Hs. rewrite rev_app_distr. f_equal.
  assert (Hr : forallb f (rev s) = true).
  { apply forallb_true_Forall, Forall_rev, forallb_true_Forall, Hs. }
  clear Hs. induction (rev s) as [|x r IH]; [done|]. cbn in *. apply andb_true_iff in Hr as [-> Hr]. auto.
Qed.

Lemma skip_back_stop {A} (f : A -> bool) l x : f x = false -> skip_back f (l ++ [x]) = l ++ [x].
Proof.
  intros Hf. unfold skip_back. rewrite rev_app_distr. cbn [rev app skip_while]. rewrite Hf. cbn [rev].
  by rewrite rev_involutive.
Qed.

Lemma skip_back_keep {A} (f : A -> bool) p x l : f x = false -> exists r, skip_back f (p ++ x :: l) = p ++ x :: r.
Proof.
  intros Hf. induction l as [|y l IH] using rev_ind; [exists []; by apply skip_back_stop|].
  rewrite app_comm_cons, app_assoc. destruct (f y) eqn:E.
  - rewrite skip_back_app; [done|]. cbn. by rewrite E.
  - exists (l ++ [y]). rewrite skip_back_stop by done. by rewrite <-app_assoc.
Qed.

(** ** Properties *)

(** The filter lets only clean text of the configured size through: valid UTF-8 without control
    characters other than tab and line ends. What it takes for IRC or BBS depends on the text alone,
    line ends after an IRC message make no difference, and each switch that is turned on only
    lets more through. *)
Theorem filter_sound f data p :
  check f data = Ok p ->
  zlen data <= max_message_bytes f /\ utf8_valid data = true /\
  Forall (fun b => b <> 127 /\ (32 <= b \/ b ∈ [9; 10; 13])) data /\
  (p = IRC -> forall ends, forallb (fun b => (b =? 13) || (b =? 10)) ends = true -> looks_like_irc (data ++ ends) = true) /\
  (forall g, max_message_bytes f <= max_message_bytes g ->
     (allow_irc f = true -> allow_irc g = true) -> (allow_bbs f = true -> allow_bbs g = true) ->
     (allow_unknown_text f = true -> allow_unknown_text g = true) -> is_ok (check g data) = true).
Proof.
  unfold check. intros E. rewrite Z.gtb_ltb in E. destruct (Z.ltb_spec (max_message_bytes f) (zlen data)); [done|].
  destruct (utf8_valid data) eqn:Eu; [|done]. destruct (contains_binary data) eqn:Eb; [done|]. cbn [negb] in E.
  pose proof (proj1 (binary_spec data) Eb) as Hb. split_and!; [done|done| | |].
  - eapply Forall_impl; [exact Hb|]. intros b [H7 Hr]. split; [done|].
    destruct Hr as [?|[-> | [-> | ->]]]; [by left|right; set_solver..].
  - intros ->. intros ends He. destruct (allow_irc f && looks_like_irc data) eqn:Ei.
    + apply andb_true_iff in Ei as [_ Ei]. unfold looks_like_irc in *. by rewrite skip_back_app.
    + destruct (allow_bbs f && looks_like_bbs data); [done|]. by destruct (allow_unknown_text f).
  - intros g Hm Hi Hb' Hu. rewrite Z.gtb_ltb, (proj2 (Z.ltb_ge _ _)) by lia. cbn [negb].
    destruct (allow_irc g && looks_like_irc data) eqn:G1; [done|].
    destruct (allow_bbs g && looks_like_bbs data) eqn:G2; [done|]. destruct (allow_unknown_text g) eqn:G3; [done|].
    exfalso. destruct (allow_irc f && looks_like_irc data) eqn:F1.
    { apply andb_true_iff in F1 as [F1 F1']. by rewrite Hi, F1' in G1. }
    destruct (allow_bbs f && looks_like_bbs data) eqn:F2.
    { apply andb_true_iff in F2 as [F2 F2']. by rewrite Hb', F2' in G2. }
    destruct (allow_unknown_text f); [|done]. by specialize (Hu eq_refl).
Qed.

(** IRC messages with an origin are refused. A line that begins with a colon and a name, as
    servers relay them, is not taken for IRC unless the name itself begins with a verb; the
    default filter refuses it unless it parses as a JSON object. *)
Theorem irc_origin_refused nick rest :
  Forall (fun b => 32 < b < 127) nick -> (8 <= length nick)%nat ->
  forallb (fun verb => negb (starts_with (string_bytes verb) (ascii_upper <$> nick))) irc_verbs = true ->
  let line := 58 :: nick ++ rest in
  looks_like_irc line = false /\
  (json_keys (bytes_string line) = None -> is_err (check default_filter line) = true).
Proof.
  intros Hn Hl Hv line.
  assert (Hup : forall r, to_uppercase (nick ++ r) = (ascii_upper <$> nick) ++ to_uppercase r).
  { clear -Hn. intros r. induction Hn as [|b nick Hb Hn IH]; [done|]. cbn [app fmap list_fmap]. rewrite <-IH.
    destruct b as [|q|q]; [lia| |lia]. do 8 (destruct q as [q|q|]; try done); lia. }
  assert (Hirc : looks_like_irc line = false).
  { unfold looks_like_irc. set (t := skip_back _ line).
    assert (exists r, t = 58 :: nick ++ r) as [r ->].
    { destruct nick as [|b nick _] using rev_ind; [cbn in Hl; lia|]. apply Forall_app in Hn as [_ Hb].
      apply Forall_cons in Hb as [Hb _]. destruct (skip_back_keep (fun b => (b =? 13) || (b =? 10)) (58 :: nick) b rest) as [r E].
      { by rewrite !(proj2 (Z.eqb_neq _ _)) by lia. }
      exists r. unfold t, line. rewrite <-!app_assoc. exact E. }
    destruct (_ <? 3); [done|]. change (to_uppercase (58 :: nick ++ r)) with (58 :: to_uppercase (nick ++ r)). rewrite Hup.
    replace (existsb _ irc_verbs) with false.
    - unfold get3. repeat case_match; simplify_eq; done.
    - symmetry. apply not_true_iff_false. rewrite existsb_exists. intros (v & Hv1 & Hv2).
      rewrite forallb_forall in Hv. specialize (Hv v Hv1). apply negb_true_iff, not_true_iff_false in Hv.
      apply orb_true_iff in Hv2 as [Hv2|Hv2].
      + clear -Hv1 Hv2. cbn in Hv1. repeat destruct Hv1 as [<-|Hv1]; done.
      + apply Hv, starts_with_spec. apply starts_with_spec in Hv2 as [k E]. cbn [app] in E. injection E as E.
        assert (Hlen : (length (string_bytes v) <= length (ascii_upper <$> nick))%nat).
        { rewrite length_fmap. clear -Hv1 Hl. cbn in Hv1. repeat destruct Hv1 as [<-|Hv1]; cbn; done || lia. }
        exists (drop (length (string_bytes v)) (ascii_upper <$> nick)).
        apply (f_equal (take (length (string_bytes v)))) in E. rewrite take_app_length, take_app_le in E by done.
        rewrite <-E at 1. symmetry. apply take_drop. }
  split; [done|]. intros Hj. unfold check. destruct (zlen line >? _); [done|]. destruct (utf8_valid line); [|done].
  destruct (contains_binary line); [done|]. cbn [negb]. rewrite Hirc. unfold looks_like_bbs. by rewrite Hj.
Qed.

End Filter.

Module FilterWitness.

Definition no_json (_ : string) : option (list string) := None.

Lemma filter_sound_witness :
  utf8_valid (string_bytes "PRIVMSG #c :hi") = true /\ zlen (string_bytes "PRIVMSG #c :hi") <= 8192.
Proof.
  destruct (filter_sound no_json default_filter (string_bytes "PRIVMSG #c :hi") IRC) as (H1 & H2 & _).
  - vm_compute. reflexivity.
  - split; [exact H2|exact H1].
Defined.

Lemma irc_origin_refused_witness :
  is_err (check no_json default_filter (58 :: string_bytes "alice!al@host" ++ string_bytes " PRIVMSG #c :hi")) = true.
Proof.
  destruct (irc_origin_refused no_json (string_bytes "alice!al@host") (string_bytes " PRIVMSG #c :hi")) as [_ Hr].
  - repeat constructor.
  - cbn. lia.
  - vm_compute. reflexivity.
  - apply Hr. reflexivity.
Defined.

End FilterWitness.
