(* ===== verification/WebConsole.v ===== *)
(** [web.rs]: the HTTP console on the loop-back address. Reading a request under its limits, the
    header checks, the bearer token, the routes, the spawned connection attempts, and the counter
    that bounds the handler threads.

    Text is bytes. A connection is what the peer sends and how the stream ends: closed, or an error
    (the read time-out included). [serde_json] and the page [include_str!] embeds are parameters. *)

From S2P Require Import Prelude Crypto Identity Wire Session ConnectionManager App Text.

Definition MAX_REQUEST_LINE : Z := 8192.
Definition MAX_HEADER_LINE : Z := 2048.
Definition MAX_HEADER_BYTES : Z := 16384.
Definition MAX_BODY_BYTES : Z := 65536.
Definition REQUEST_TOTAL_TIMEOUT_SECS : Z := 30.
Definition MAX_WEB_CONNS : Z := 64.

Abbreviation lit := string_bytes.
Definition crlf : bytes := [13; 10].

(** A JSON literal of the source, written with single quotation marks. *)
Definition js (s : string) : bytes := (fun b => if b =? 39 then 34 else b) <$> lit s.

Definition SECURITY_HEADERS : bytes :=
  lit "X-Content-Type-Options: nosniff" ++ crlf ++ lit "X-Frame-Options: DENY" ++ crlf ++
  lit "Content-Security-Policy: default-src 'self'; script-src 'self' 'unsafe-inline'; style-src 'self' 'unsafe-inline'; img-src 'self' data:" ++ crlf.

(** ** Reading lines *)

Inductive Ending := Eof | Failed.

Record Input := mkInput { unread : bytes; ending : Ending }.

Definition advance (i : Input) (n : nat) : Input := mkInput (drop n (unread i)) (ending i).

(** The bytes up to and with the first line feed. *)
Fixpoint until_newline (bs : bytes) : option bytes :=
  match bs with
  | [] => None
  | b :: r => if b =? 10 then Some [b] else (cons b) <$> until_newline r
  end.

(** [read_until] on [take(limit)]: what was read, or an error of the stream. *)
Definition read_until (i : Input) (limit : nat) : option bytes :=
  match until_newline (take limit (unread i)) with
  | Some line => Some line
  | None =>
      if (limit <=? length (unread i))%nat then Some (take limit (unread i))
      else match ending i with Eof => Some (unread i) | Failed => None end
  end.

Inductive line_read := Line (s : bytes) (rest : Input) | LineEof | LineErr.

Definition read_limited_line (i : Input) (max : Z) : line_read :=
  match read_until i (Z.to_nat (max + 1)) with
  | None => LineErr
  | Some buf =>
      if zlen buf =? 0 then LineEof
      else if max <? zlen buf then LineErr
      else Line (utf8_lossy buf) (advance i (length buf))
  end.

(** ** Header checks *)

Definition bearer_token (authorization : option bytes) : option bytes :=
  header ← authorization;
  match splitn2 32 (trim header) with
  | [] => None
  | scheme :: parts =>
      if negb (eq_ignore_ascii_case scheme (lit "Bearer")) then None
      else match parts with
           | [] => None
           | t :: _ => let token := trim t in if bool_decide (token = []) then None else Some token
           end
  end.

Definition token_authorized (expected : bytes) (authorization : option bytes) : bool :=
  match bearer_token authorization with
  | Some provided => constant_time_eq expected provided
  | None => false
  end.

Definition host_allowed (host : bytes) : bool :=
  bool_decide (host ∈ lit <$> ["127.0.0.1"; "127.0.0.1:10888"; "localhost"; "localhost:10888"; "[::1]"; "[::1]:10888"]).

Definition origin_allowed (origin : bytes) : bool :=
  bool_decide (origin ∈ lit <$> ["http://127.0.0.1:10888"; "http://localhost:10888"; "http://[::1]:10888"]).

Definition ct_allows_json (ct : bytes) : bool :=
  starts_with (lit "application/json") (to_ascii_lowercase (trim ct)).

(** ** Headers *)

(** The locals of the header loop. *)
Record Headers := mkHeaders {
  content_length : Z;
  authorization : option bytes;
  host : option bytes;
  origin : option bytes;
  content_type : option bytes;
}.

Definition no_headers : Headers := mkHeaders 0 None None None None.

(** One header line, its end trimmed. *)
Definition header_line (h : Headers) (trimmed : bytes) : Headers :=
  let lower := to_ascii_lowercase trimmed in
  match strip_prefix (lit "content-length:") lower with
  | Some v =>
      mkHeaders (Z.min (default 0 (parse_uint usize_max (trim v))) MAX_BODY_BYTES)
        (authorization h) (host h) (origin h) (content_type h)
  | None =>
  match strip_prefix (lit "authorization:") lower with
  | Some v => mkHeaders (content_length h) (Some (trim v)) (host h) (origin h) (content_type h)
  | None =>
  match strip_prefix (lit "host:") lower with
  | Some v => mkHeaders (content_length h) (authorization h) (Some (trim v)) (origin h) (content_type h)
  | None =>
  match strip_prefix (lit "origin:") lower with
  | Some v => mkHeaders (content_length h) (authorization h) (host h) (Some (trim v)) (content_type h)
  | None =>
  match strip_prefix (lit "content-type:") lower with
  | Some v => mkHeaders (content_length h) (authorization h) (host h) (origin h) (Some (trim v))
  | None => h
  end end end end end.

Inductive headers_read := HeadersDone (h : Headers) (rest : Input) | HeadersClosed | OutOfFuel.

(** [late k]: the request's total time is over after its [k]-th line. *)
Definition late (elapsed : nat -> Z) (k : nat) : bool :=
  REQUEST_TOTAL_TIMEOUT_SECS * 10 ^ 9 <? elapsed k.

Fixpoint header_loop (fuel : nat) (elapsed : nat -> Z) (k : nat) (header_bytes : Z) (h : Headers) (i : Input) : headers_read :=
  match fuel with
  | O => OutOfFuel
  | S fuel' =>
      match read_limited_line i MAX_HEADER_LINE with
      | Line line rest =>
          if late elapsed k then HeadersClosed
          else
            let header_bytes := header_bytes + zlen line in
            if MAX_HEADER_BYTES <? header_bytes then HeadersClosed
            else
              let trimmed := trim_end line in
              if bool_decide (trimmed = []) then HeadersDone h rest
              else header_loop fuel' elapsed (S k) header_bytes (header_line h trimmed) rest
      | _ => HeadersClosed
      end
  end.

(** Every line has at least one byte, so the loop runs at most once per unread byte. *)
Definition read_headers (elapsed : nat -> Z) (i : Input) : headers_read :=
  header_loop (S (length (unread i))) elapsed 1 0 no_headers i.

(** ** Routes *)

(** What [Handle::try_current] depends on: only a thread inside a tokio runtime has a handle. *)
Inductive Thread := StdThread | RuntimeThread.
Definition try_current (th : Thread) : bool := match th with StdThread => false | RuntimeThread => true end.

(** The future handed to [handle.spawn]. *)
Record ConnectTask := mkTask { ct_uid : string; ct_socket : SocketAddr; ct_auth : SessionAuth }.

Record Response := mkResponse { status : bytes; response_ct : bytes; response : bytes; spawned : option ConnectTask }.

Definition json_response (status body : bytes) : Response := mkResponse status (lit "application/json") body None.

Section Console.
Context `{Crypto}.
Context (index_html : bytes).
Context (peers_json : gset string -> bytes).
(** [serde_json::from_str::<Value>]; the strings at [addr] and [uid] when it succeeds. *)
Context (connect_request : bytes -> option (option bytes * option bytes)).

Definition state_poisoned : Response := json_response (lit "500") (js "{'error':'state poisoned'}").

Definition route_connect (body : bytes) (state : option AppState) (th : Thread) : Response :=
  match connect_request body with
  | None => json_response (lit "400") (js "{'error':'invalid json'}")
  | Some (req_addr, req_uid) =>
      let addr := default [] req_addr in
      let uid := bytes_string (default (lit "peer") req_uid) in
      if negb (validate_uid uid) then json_response (lit "400") (js "{'error':'invalid uid'}")
      else
        match parse_socket_addr addr with
        | None => json_response (lit "400") (js "{'error':'invalid socket address syntax'}")
        | Some socket =>
            match state with
            | None => state_poisoned
            | Some s =>
                match signing_key (identity s) with
                | None => json_response (lit "500") (js "{'error':'no identity key'}")
                | Some sk =>
                    let auth := mkAuth (Identity.uid (identity s)) (public_hex (identity s)) sk in
                    if try_current th then
                      mkResponse (lit "200 OK") (lit "application/json") (js "{'status':'connecting'}")
                        (Some (mkTask uid socket auth))
                    else json_response (lit "500") (js "{'error':'no runtime'}")
                end
            end
        end
  end.

Definition route_status (state : option AppState) (pid uptime : Z) : Response :=
  match state with
  | None => state_poisoned
  | Some s =>
      let conns := match connection_manager s with Some cm => ConnectionManager.connected_count cm | None => 0 end in
      json_response (lit "200 OK")
        (js "{'pid':" ++ lit (fmt pid) ++ js ",'uptime_secs':" ++ lit (fmt uptime) ++ js ",'connections':" ++
         lit (fmt conns) ++ js ",'version':'0.0.9','tests':164}")
  end.

Definition route_peers (state : option AppState) : Response :=
  match state with
  | None => state_poisoned
  | Some s =>
      let peers : gset string :=
        default ∅ (cm ← connection_manager s; conns ← ConnectionManager.active_connections cm; Some (dom conns)) in
      json_response (lit "200 OK") (js "{'peers':" ++ peers_json peers ++ js "}")
  end.

Definition route (method path body : bytes) (state : option AppState) (pid uptime : Z) (token : bytes)
    (auth : option bytes) (th : Thread) : Response :=
  let at_ (m p : string) := bool_decide (method = lit m) && bool_decide (path = lit p) in
  if starts_with (lit "/api/") path && negb (token_authorized token auth) then
    json_response (lit "401 Unauthorized") (js "{'error':'unauthorized'}")
  else if at_ "GET" "/" then mkResponse (lit "200 OK") (lit "text/html; charset=utf-8") index_html None
  else if at_ "GET" "/api/status" then route_status state pid uptime
  else if at_ "GET" "/api/peers" then route_peers state
  else if at_ "GET" "/api/services" then json_response (lit "200 OK") (js "{'services':[]}")
  else if at_ "POST" "/api/connect" then route_connect body state th
  else mkResponse (lit "404 Not Found") (lit "text/plain") (lit "404") None.

Definition write_response (status content_type extra_headers body : bytes) : bytes :=
  lit "HTTP/1.0 " ++ status ++ crlf ++ lit "Content-Type: " ++ content_type ++ crlf ++
  lit "Content-Length: " ++ lit (fmt (zlen body)) ++ crlf ++ lit "Connection: close" ++ crlf ++
  SECURITY_HEADERS ++ extra_headers ++ crlf ++ body.

(** ** One request *)

(** What a connection sees: it is closed without an answer, or it gets one. The unread input tells
    how much was consumed. *)
Inductive outcome := Closed | Answer (sent : bytes) (task : option ConnectTask) (rest : Input).

Definition forbidden (rest : Input) : outcome :=
  Answer (write_response (lit "403 Forbidden") (lit "text/plain") [] (lit "403")) None rest.

(** [read_exact] of the body, [None] when the stream ends first. *)
Definition read_body (method : bytes) (h : Headers) (i : Input) : option (bytes * Input) :=
  if bool_decide (method = lit "POST") && (0 <? content_length h) then
    let n := Z.to_nat (content_length h) in
    if (length (unread i) <? n)%nat then None else Some (utf8_lossy (take n (unread i)), advance i n)
  else Some ([], i).

(** The part of [handle_http] after the headers. *)
Definition respond (method path : bytes) (h : Headers) (i : Input) (state : option AppState) (pid uptime : Z)
    (token : bytes) (th : Thread) : outcome :=
  if match host h with Some x => negb (host_allowed x) | None => false end then forbidden i
  else if match origin h with Some x => negb (origin_allowed x) | None => false end then forbidden i
  else if bool_decide (method = lit "POST") && bool_decide (path = lit "/api/connect") &&
          negb (match content_type h with Some ct => ct_allows_json ct | None => false end) then
    Answer (write_response (lit "415 Unsupported Media Type") (lit "application/json")
              (lit "Cache-Control: no-store" ++ crlf) (js "{'error':'unsupported media type'}")) None i
  else
    match read_body method h i with
    | None => Closed
    | Some (body, rest) =>
        let r := route method path body state pid uptime token (authorization h) th in
        let extra :=
          (if starts_with (lit "/api/") path then lit "Cache-Control: no-store" ++ crlf else []) ++
          (if bool_decide (status r = lit "401 Unauthorized") then lit "WWW-Authenticate: Bearer" ++ crlf else []) in
        Answer (write_response (status r) (response_ct r) extra (response r)) (spawned r) rest
    end.

Definition handle_http (elapsed : nat -> Z) (i : Input) (state : option AppState) (pid uptime : Z) (token : bytes)
    (th : Thread) : outcome :=
  match read_limited_line i MAX_REQUEST_LINE with
  | Line request_line rest =>
      if late elapsed 0 then Closed
      else
        match split_whitespace request_line with
        | method :: path :: _ =>
            match read_headers elapsed rest with
            | HeadersDone h rest => respond method path h rest state pid uptime token th
            | _ => Closed
            end
        | _ => Closed
        end
  | _ => Closed
  end.

(** ** Start-up *)

(** [generate_web_token]; [random] is what [OsRng] fills in. *)
Definition generate_web_token (random : bytes) : bytes := hex_encode_bytes random.

(** The token file: its text, when it could be read. *)
Definition web_token (file : option bytes) (random : bytes) : bytes :=
  match file with
  | Some existing => let trimmed := trim existing in
                     if bool_decide (trimmed = []) then generate_web_token random else trimmed
  | None => generate_web_token random
  end.

(** A handler thread of [start_web_console], which is made with [std::thread::spawn]. *)
Definition console_thread (elapsed : nat -> Z) (i : Input) (state : option AppState) (pid uptime : Z) (token : bytes) : outcome :=
  handle_http elapsed i state pid uptime token StdThread.

End Console.

(** ** The spawned attempts *)

(** One attempt's environment: the ephemeral key, the nonce and the peer's bytes. *)
Definition attempt : Type := bytes * bytes * option bytes.

(** The loop of the spawned task: it ends with a connection or with the fifth failure. [show]
    prints a socket address. *)
Fixpoint connect_loop `{Crypto, Json} (show : SocketAddr -> string) (task : ConnectTask) (attempts : Z)
    (env : list attempt) (st : NetState.t) : NetState.t * Z * bool :=
  match env with
  | [] => (st, attempts, false)
  | (eph, nonce, input) :: env' =>
      match NetState.connect_to_peer st (ct_uid task) (show (ct_socket task)) (ct_auth task) eph nonce input with
      | (st, Ok _) => (st, attempts, true)
      | (st, Err _) =>
          let attempts := attempts + 1 in
          if 5 <=? attempts then (st, attempts, false)
          else connect_loop show task attempts env' st
      end
  end.

(** ** The thread slots *)

(** [active] is the counter, [running] the handler threads, [refusing] says the acceptor is between
    the [fetch_add] that found no room and the [fetch_sub] that gives it back. *)
Record Slots := mkSlots { active : Z; running : Z; refusing : bool }.

Definition slots_init : Slots := mkSlots 0 0 false.

Inductive slot_event := Incoming | Refuse | HandlerEnd.

(** [Incoming] is [fetch_add] with its test, [Refuse] the [fetch_sub] of the refusal, [HandlerEnd] the
    [Drop] of [ConnGuard]. *)
Definition slot_step (s : Slots) (e : slot_event) : option Slots :=
  match e with
  | Incoming =>
      if refusing s then None
      else if MAX_WEB_CONNS <=? active s then Some (mkSlots (active s +₆₄ 1) (running s) true)
      else Some (mkSlots (active s +₆₄ 1) (running s + 1) false)
  | Refuse => if refusing s then Some (mkSlots (wrap64 (active s - 1)) (running s) false) else None
  | HandlerEnd =>
      if running s <=? 0 then None else Some (mkSlots (wrap64 (active s - 1)) (running s - 1) (refusing s))
  end.

Inductive slots_reach : Slots -> Prop :=
| slots_start : slots_reach slots_init
| slots_next s e s' : slots_reach s -> slot_step s e = Some s' -> slots_reach s'.

(** ** Lemmas *)

(** The replacement character is at least as long as what it replaces. *)
Lemma utf8_lossy_length bs : (length bs <= length (utf8_lossy bs))%nat.
Proof.
  induction bs as [bs IH] using (induction_ltof1 _ (@length Z)). unfold ltof in IH.
  destruct bs as [|b0 [|b1 [|b2 [|b3 r]]]]; cbn [utf8_lossy]; repeat case_match; subst;
    cbn [length app replacement]; rewrite ?length_app; cbn [length replacement];
    repeat match goal with |- context [utf8_lossy ?l] =>
      let L := fresh "L" in pose proof (IH l ltac:(cbn [length]; lia)) as L; cbn [length] in L; revert L;
      generalize (length (utf8_lossy l)); intros ? ? end; try lia.
Qed.

Lemma until_newline_part bs line : until_newline bs = Some line -> exists r, bs = line ++ r /\ (1 <= length line)%nat.
Proof.
  revert line. induction bs as [|b bs IH]; intros line; cbn [until_newline]; [done|].
  destruct (b =? 10); [intros [= <-]; by exists bs|]. destruct (until_newline bs) as [l|]; cbn; [|done]. intros [= <-].
  destruct (IH l eq_refl) as (r & -> & Hl). exists r. split; [done|]. cbn. lia.
Qed.

(** A line was at the front of the input; it is not empty, within the limit, and no longer than its text. *)
Lemma read_limited_line_part i max s rest :
  read_limited_line i max = Line s rest ->
  exists raw, unread i = raw ++ unread rest /\ (1 <= length raw)%nat /\ zlen raw <= max /\ zlen raw <= zlen s /\ s = utf8_lossy raw.
Proof.
  unfold read_limited_line. destruct (read_until i (Z.to_nat (max + 1))) as [buf|] eqn:E; [|done].
  destruct (Z.eqb_spec (zlen buf) 0) as [|Hn]; [done|]. destruct (Z.ltb_spec max (zlen buf)) as [|Hm]; [done|]. intros [= <- <-].
  assert (exists r, unread i = buf ++ r) as [r Hr].
  { unfold read_until in E. destruct (until_newline _) as [l|] eqn:U.
    - injection E as ->. apply until_newline_part in U as (r & Hr & _). eexists.
      rewrite <-(take_drop (Z.to_nat (max + 1)) (unread i)), Hr, <-app_assoc. done.
    - destruct (_ <=? _)%nat; [injection E as <-; eexists; symmetry; apply take_drop|].
      destruct (ending i); simplify_eq. exists []. by rewrite app_nil_r. }
  exists buf. unfold advance. cbn [unread]. rewrite Hr, drop_app_length. unfold zlen in *. pose proof (utf8_lossy_length buf).
  repeat split; try done; lia.
Qed.

(** The header loop ends, and what it read is within the limit. *)
Lemma header_loop_ends fuel elapsed k n h i :
  (length (unread i) < fuel)%nat ->
  header_loop fuel elapsed k n h i <> OutOfFuel /\
  forall h' rest, header_loop fuel elapsed k n h i = HeadersDone h' rest ->
  exists raw, unread i = raw ++ unread rest /\ n + zlen raw <= MAX_HEADER_BYTES.
Proof.
  revert k n h i. induction fuel as [|fuel IH]; intros k n h i Hf; [lia|]. cbn [header_loop].
  destruct (read_limited_line i MAX_HEADER_LINE) as [line rest| |] eqn:E; [|by split|by split].
  apply read_limited_line_part in E as (raw & Hi & H1 & _ & Hs & _). rewrite Hi, length_app in Hf.
  destruct (late elapsed k); [by split|]. destruct (Z.ltb_spec MAX_HEADER_BYTES (n + zlen line)); [by split|].
  case_bool_decide.
  - split; [done|]. intros ? ? [= <- <-]. exists raw. split; [done|lia].
  - destruct (IH (S k) (n + zlen line) (header_line h (trim_end line)) rest ltac:(lia)) as [Hne Hd]. split; [done|].
    intros h' rest' (raw' & Hr & Hb)%Hd. exists (raw ++ raw'). rewrite Hi, Hr, app_assoc. split; [done|].
    rewrite zlen_app. lia.
Qed.

(** An invariant of the headers that every line keeps holds at the end. *)
Lemma header_loop_ind (P : Headers -> Prop) fuel elapsed k n h i h' rest :
  (forall h line, P h -> P (header_line h line)) -> P h ->
  header_loop fuel elapsed k n h i = HeadersDone h' rest -> P h'.
Proof.
  intros Hs. revert k n h i. induction fuel as [|fuel IH]; intros k n h i Hp; cbn [header_loop]; [done|].
  destruct (read_limited_line i MAX_HEADER_LINE) as [line r| |]; try done. repeat case_match; try done.
  - by intros [= <- <-].
  - apply IH. by apply Hs.
Qed.

Lemma parse_digits_range max acc bs n : 0 <= acc -> parse_digits max acc bs = Some n -> 0 <= n.
Proof.
  revert acc. induction bs as [|b bs IH]; intros acc Ha; cbn [parse_digits]; [by intros [= <-]|].
  destruct (digit 10 b) as [d|] eqn:E; cbn; [|done]. destruct (max <? 10 * acc + d); [done|]. apply IH.
  assert (0 <= d); [|lia]. unfold digit, to_digit, byte_in in E. repeat case_match; simplify_eq/=; repeat case_match; simplify_eq/=; breflect; lia.
Qed.

Lemma parse_uint_range max bs n : parse_uint max bs = Some n -> 0 <= n.
Proof. unfold parse_uint. repeat case_match; try done; by apply parse_digits_range. Qed.

Lemma header_line_length h line :
  0 <= content_length h <= MAX_BODY_BYTES -> 0 <= content_length (header_line h line) <= MAX_BODY_BYTES.
Proof.
  intros Hh. unfold header_line. repeat case_match; cbn [content_length]; try done.
  destruct (parse_uint usize_max (trim _)) as [n|] eqn:E; cbn [default]; unfold MAX_BODY_BYTES in *;
    [apply parse_uint_range in E|]; unfold default, from_option, id; lia.
Qed.

(** ** The bearer token *)

Definition not_upper (b : Z) : Prop := byte_in 65 90 b = false.

Lemma to_ascii_lowercase_not_upper bs : Forall not_upper (to_ascii_lowercase bs).
Proof. apply Forall_fmap, Forall_forall. intros b _. apply ascii_lower_lower. Qed.

Lemma splitn2_at_Forall (P : Z -> Prop) sep part bs :
  Forall P part -> Forall P bs -> Forall (Forall P) (splitn2_at sep part bs).
Proof.
  revert part. induction bs as [|b bs IH]; intros part Hp Hb; cbn [splitn2_at]; [by repeat constructor|].
  inversion_clear Hb. case_match; [by repeat constructor|]. apply IH; [|done]. rewrite Forall_app. by repeat constructor.
Qed.

Lemma bearer_token_Forall (P : Z -> Prop) h t : Forall P h -> bearer_token (Some h) = Some t -> Forall P t.
Proof.
  intros Hh. unfold bearer_token. cbn.
  pose proof (splitn2_at_Forall P 32 [] (trim h) ltac:(done) (trim_Forall P h Hh)) as Hs. unfold splitn2.
  destruct (splitn2_at 32 [] (trim h)) as [|a [|b l]]; repeat case_match; try done. intros [= <-].
  apply trim_Forall. inversion_clear Hs as [|? ? _ Hs']. by inversion_clear Hs'.
Qed.

(** The value of every header is lower case, because the whole line is lowered before it is taken apart. *)
Lemma header_line_not_upper h line :
  (forall a, authorization h = Some a -> Forall not_upper a) ->
  forall a, authorization (header_line h line) = Some a -> Forall not_upper a.
Proof.
  intros Hh a. unfold header_line.
  destruct (strip_prefix (lit "content-length:") _); [apply Hh|].
  destruct (strip_prefix (lit "authorization:") _) as [v|] eqn:E; [|repeat case_match; apply Hh].
  cbn [authorization]. intros [= <-]. apply trim_Forall. apply strip_prefix_Some in E.
  pose proof (to_ascii_lowercase_not_upper line) as Hl. rewrite E, Forall_app in Hl. apply Hl.
Qed.

Lemma read_headers_not_upper elapsed i h rest a :
  read_headers elapsed i = HeadersDone h rest -> authorization h = Some a -> Forall not_upper a.
Proof.
  intros E. revert a. refine (header_loop_ind (fun h => forall a, authorization h = Some a -> Forall not_upper a)
    _ _ _ _ _ _ _ _ _ _ E); [apply header_line_not_upper|done].
Qed.

Lemma token_authorized_spec token auth : token_authorized token auth = true <-> bearer_token auth = Some token.
Proof.
  unfold token_authorized. destruct (bearer_token auth) as [t|]; [|done]. rewrite constant_time_eq_spec, bool_decide_eq_true.
  split; congruence.
Qed.

Lemma upper_case_unauthorized elapsed i h rest token :
  Exists (fun b => byte_in 65 90 b = true) token -> read_headers elapsed i = HeadersDone h rest ->
  token_authorized token (authorization h) = false.
Proof.
  intros Hu Hr. apply not_true_iff_false. intros [=Ht]%token_authorized_spec.
  destruct (authorization h) as [a|] eqn:Ea; [|done].
  pose proof (bearer_token_Forall not_upper a token (read_headers_not_upper _ _ _ _ _ Hr Ea) Ht) as Hf.
  apply Exists_exists in Hu as (b & Hb & Hx). rewrite Forall_forall in Hf. specialize (Hf _ Hb). unfold not_upper in Hf. congruence.
Qed.

(** ** A request with the right token *)

(** What a usable token is made of: visible ASCII without upper-case letters. *)
Definition token_char (b : Z) : Prop := 33 <= b <= 126 /\ not_upper b.

Lemma token_char_solid b : token_char b -> solid b.
Proof.
  intros [Hb _]. split; [lia|]. rewrite is_whitespace_single. unfold byte_in. destruct (Z.eqb_spec b 32); [lia|].
  rewrite orb_false_r. apply andb_false_iff. right. apply Z.leb_gt. lia.
Qed.

Lemma token_chars t : Forall token_char t ->
  Forall (fun b => b < 128) t /\ Forall solid t /\ to_ascii_lowercase t = t /\ 10 ∉ t.
Proof.
  intros Ht. repeat split.
  - eapply Forall_impl; [done|]. intros b [? _]. lia.
  - eapply Forall_impl; [done|]. apply token_char_solid.
  - unfold to_ascii_lowercase. induction Ht as [|b t [_ Hu] _ IH]; [done|]. cbn. rewrite IH. unfold ascii_lower. by rewrite Hu.
  - intros Hin. rewrite Forall_forall in Ht. destruct (Ht _ Hin). lia.
Qed.

Lemma until_newline_line l r : 10 ∉ l -> until_newline (l ++ 10 :: r) = Some (l ++ [10]).
Proof.
  induction l as [|b l IH]; intros Hl; [done|]. apply not_elem_of_cons in Hl as [Hb Hl]. cbn [until_newline app].
  rewrite (proj2 (Z.eqb_neq _ _)) by congruence. by rewrite IH.
Qed.

Lemma read_limited_line_ascii l r e max :
  Forall (fun b => b < 128) l -> 10 ∉ l -> zlen l + 1 <= max ->
  read_limited_line (mkInput (l ++ 10 :: r) e) max = Line (l ++ [10]) (mkInput r e).
Proof.
  intros Ha Hl Hm. unfold read_limited_line, read_until. cbn [unread ending advance].
  assert (exists r', take (Z.to_nat (max + 1)) (l ++ 10 :: r) = l ++ 10 :: r') as [r' ->].
  { exists (take (Z.to_nat (max + 1) - length l - 1) r). unfold zlen in Hm.
    rewrite take_app_ge by lia. f_equal. destruct (Z.to_nat (max + 1) - length l)%nat eqn:E; [lia|]. cbn. do 2 f_equal. lia. }
  rewrite until_newline_line by done. rewrite zlen_app, zlen_cons. change (zlen (@nil Z)) with 0. pose proof (zlen_nonneg l).
  destruct (Z.eqb_spec (zlen l + (1 + 0)) 0); [lia|]. destruct (Z.ltb_spec max (zlen l + (1 + 0))); [lia|].
  rewrite utf8_lossy_ascii by (rewrite Forall_app; repeat constructor; done). f_equal. unfold advance. cbn [unread ending].
  f_equal. rewrite (app_assoc l [10] r : l ++ 10 :: r = _), drop_app_length. done.
Qed.

(** The header a client sends for token [t]. *)
Definition bearer_line (t : bytes) : bytes := lit "Authorization: Bearer " ++ t.

Lemma bearer_line_ascii t : Forall token_char t -> Forall (fun b => b < 128) (bearer_line t).
Proof. intros (Ha & _)%token_chars. unfold bearer_line. rewrite Forall_app. split; [by apply ascii_check|done]. Qed.

Lemma bearer_line_trim t w : t <> [] -> Forall token_char t -> Forall blank w -> trim_end (bearer_line t ++ w) = bearer_line t.
Proof.
  intros Hn Ht Hw. pose proof (token_chars t Ht) as (_ & Hs & _).
  apply trim_end_ascii; [by apply bearer_line_ascii|by apply solid_end|done].
Qed.

Lemma splitn2_bearer t : splitn2 32 (lit "bearer" ++ 32 :: t) = [lit "bearer"; t].
Proof. reflexivity. Qed.

Lemma bearer_line_header h t : t <> [] -> Forall token_char t ->
  authorization (header_line h (bearer_line t)) = Some (lit "bearer " ++ t) /\
  bearer_token (Some (lit "bearer " ++ t)) = Some t.
Proof.
  intros Hn Ht. destruct (token_chars t Ht) as (Ha & Hs & Hl & _).
  assert (forall w, Forall blank w -> trim (w ++ lit "bearer " ++ t) = lit "bearer " ++ t) as Hb.
  { intros w Hw. apply trim_ascii; [done| |by cbn|by apply solid_end].
    rewrite Forall_app. split; [by apply ascii_check|done]. }
  split.
  - unfold header_line, bearer_line, to_ascii_lowercase. rewrite fmap_app. fold (to_ascii_lowercase t). rewrite Hl.
    change (ascii_lower <$> lit "Authorization: Bearer ") with (lit "authorization:" ++ [32] ++ lit "bearer ").
    rewrite <-!app_assoc. rewrite (proj2 (strip_prefix_Some (lit "authorization:") _ _) eq_refl).
    change (strip_prefix (lit "content-length:") (lit "authorization:" ++ [32] ++ lit "bearer " ++ t)) with (@None bytes).
    cbn [authorization]. by rewrite Hb by (repeat constructor).
  - unfold bearer_token. cbn [mbind option_bind]. pose proof (Hb [] ltac:(constructor)) as Hb0. cbn [app] in Hb0. rewrite Hb0.
    change (lit "bearer " ++ t) with (lit "bearer" ++ 32 :: t). rewrite splitn2_bearer.
    change (eq_ignore_ascii_case (lit "bearer") (lit "Bearer")) with true. cbn [negb].
    assert (trim t = t) as -> by (apply (trim_ascii []); [constructor|done|by destruct Hs|by apply rev_first]).
    by rewrite bool_decide_eq_false_2.
Qed.

Lemma late_not elapsed k : elapsed k <= REQUEST_TOTAL_TIMEOUT_SECS * 10 ^ 9 -> late elapsed k = false.
Proof. apply Z.ltb_ge. Qed.

(** The request of a client that has the token. *)
Definition status_request (t : bytes) : bytes :=
  lit "GET /api/status HTTP/1.1" ++ [13] ++ 10 :: bearer_line t ++ [13] ++ 10 :: [13] ++ [10].

Lemma bearer_headers elapsed t e :
  t <> [] -> Forall token_char t -> zlen t <= 1024 -> (forall k, elapsed k <= REQUEST_TOTAL_TIMEOUT_SECS * 10 ^ 9) ->
  read_headers elapsed (mkInput ((bearer_line t ++ [13]) ++ 10 :: [13] ++ [10]) e) =
  HeadersDone (header_line no_headers (bearer_line t)) (mkInput [] e).
Proof.
  intros Hn Ht Hz He. pose proof (token_chars t Ht) as (Ha & _ & _ & Hnl). unfold read_headers. cbn [unread].
  assert (exists m, length ((bearer_line t ++ [13]) ++ 10 :: [13] ++ [10]) = S m) as [m ->].
  { rewrite length_app. cbn [length]. rewrite <-plus_n_Sm. by eexists. }
  cbn [header_loop]. rewrite read_limited_line_ascii.
  - rewrite late_not by done. rewrite <-app_assoc. rewrite bearer_line_trim by (try done; repeat constructor).
    rewrite bool_decide_eq_false_2 by done. rewrite late_not by done.
    assert (read_limited_line (mkInput ([13] ++ [10]) e) MAX_HEADER_LINE = Line [13; 10] (mkInput [] e)) as E2 by reflexivity.
    rewrite E2. unfold bearer_line. rewrite !zlen_app. change (zlen (lit "Authorization: Bearer ")) with 22.
    change (zlen [13; 10]) with 2. unfold MAX_HEADER_BYTES.
    change (zlen [13]) with 1. change (zlen [10]) with 1.
    rewrite (proj2 (Z.ltb_ge 16384 (0 + (22 + zlen t + (1 + 1))))), (proj2 (Z.ltb_ge 16384 (0 + (22 + zlen t + (1 + 1)) + 2))) by lia.
    reflexivity.
  - rewrite Forall_app. split; [by apply bearer_line_ascii|by apply ascii_check].
  - unfold bearer_line. rewrite !elem_of_app. intros [[Hx|Hx]|Hx]; [|done|]; revert Hx; by apply (bool_decide_unpack (_ ∉ _)).
  - unfold bearer_line, MAX_HEADER_LINE. rewrite !zlen_app. change (zlen (lit "Authorization: Bearer ")) with 22.
    change (zlen [13]) with 1. lia.
Qed.

Lemma fresh_token_chars random : bytes_ok random -> Forall token_char (hex_encode_bytes random).
Proof.
  intros Hr. induction Hr as [|b r Hb _ IH]; [constructor|]. cbn [hex_encode_bytes].
  assert (forall d, 0 <= d < 16 -> token_char (hex_digit d)) as Hd.
  { intros d Hd. unfold token_char, not_upper, byte_in, hex_digit. destruct (Z.ltb_spec d 10).
    - split; [lia|]. apply andb_false_iff. left. apply Z.leb_gt. lia.
    - split; [lia|]. apply andb_false_iff. right. apply Z.leb_gt. lia. }
  pose proof (Z.mod_pos_bound b 16 eq_refl). unfold is_byte in Hb.
  apply Forall_cons_2; [|apply Forall_cons_2; [by apply Hd|done]]. apply Hd.
  split; [apply Z.div_pos|apply Z.div_lt_upper_bound]; lia.
Qed.

(** ** Theorems on requests *)

Section Requests.
Context `{Crypto}.
Context (index_html : bytes) (peers_json : gset string -> bytes).
Context (connect_request : bytes -> option (option bytes * option bytes)).

Abbreviation handle_http := (handle_http index_html peers_json connect_request).
Abbreviation respond := (respond index_html peers_json connect_request).
Abbreviation route := (route index_html peers_json connect_request).

(** Without the token a route neither looks at the state nor starts anything. *)
Lemma route_unauthorized method path body st1 st2 pid1 pid2 up1 up2 token auth th1 th2 :
  token_authorized token auth = false ->
  route method path body st1 pid1 up1 token auth th1 = route method path body st2 pid2 up2 token auth th2 /\
  spawned (route method path body st1 pid1 up1 token auth th1) = None.
Proof.
  intros Ha. unfold WebConsole.route. rewrite Ha. cbn [negb]. rewrite andb_true_r.
  destruct (starts_with (lit "/api/") path) eqn:E; [done|].
  assert (forall p : string, starts_with (lit "/api/") (lit p) = true -> bool_decide (path = lit p) = false) as Hp.
  { intros p Hp. apply bool_decide_eq_false. intros ->. congruence. }
  rewrite !(Hp "/api/status"), !(Hp "/api/peers"), !(Hp "/api/services"), !(Hp "/api/connect") by reflexivity.
  rewrite !andb_false_r. by repeat case_match.
Qed.

(** The header checks refuse, whatever the state, or they pass and the route answers. *)
Definition json_posted (method path : bytes) (h : Headers) : Prop :=
  bool_decide (method = lit "POST") && bool_decide (path = lit "/api/connect") &&
  negb (match content_type h with Some ct => ct_allows_json ct | None => false end) = false.

Lemma respond_cases method path h i :
  (exists sent, forall st pid up token th, respond method path h i st pid up token th = Answer sent None i) \/
  (json_posted method path h /\ exists sent, forall st pid up token th,
     respond method path h i st pid up token th =
     match read_body method h i with
     | None => Closed
     | Some (body, rest) =>
         Answer (sent (route method path body st pid up token (authorization h) th))
           (spawned (route method path body st pid up token (authorization h) th)) rest
     end).
Proof.
  unfold WebConsole.respond, forbidden, json_posted.
  destruct (match host h with Some x => negb (host_allowed x) | None => false end); [left; by eexists|].
  destruct (match origin h with Some x => negb (origin_allowed x) | None => false end); [left; by eexists|].
  destruct (_ && _ && _); [left; by eexists|]. right. split; [done|].
  exists (fun r => write_response (status r) (response_ct r)
    ((if starts_with (lit "/api/") path then lit "Cache-Control: no-store" ++ crlf else []) ++
     (if bool_decide (status r = lit "401 Unauthorized") then lit "WWW-Authenticate: Bearer" ++ crlf else [])) (response r)).
  intros. by destruct (read_body method h i) as [[body rest]|].
Qed.

Lemma respond_unauthorized method path h i st1 st2 pid1 pid2 up1 up2 token th1 th2 :
  token_authorized token (authorization h) = false ->
  respond method path h i st1 pid1 up1 token th1 = respond method path h i st2 pid2 up2 token th2 /\
  forall sent task rest, respond method path h i st1 pid1 up1 token th1 = Answer sent task rest -> task = None.
Proof.
  intros Ha. destruct (respond_cases method path h i) as [[s E]|[_ [s E]]]; rewrite !E; [split; [done|congruence]|].
  destruct (read_body method h i) as [[body rest]|]; [|split; [done|congruence]].
  destruct (route_unauthorized method path body st1 st2 pid1 pid2 up1 up2 token (authorization h) th1 th2 Ha) as [<- Hs].
  split; [done|]. intros ? ? ? [= _ <- _]. done.
Qed.


(** A token with an upper-case letter locks the console: no request is ever authorised, since
    header values are compared after the line was lowered. *)
Theorem upper_case_token_locks elapsed i st1 st2 pid1 pid2 up1 up2 token th1 th2 :
  Exists (fun b => byte_in 65 90 b = true) token ->
  handle_http elapsed i st1 pid1 up1 token th1 = handle_http elapsed i st2 pid2 up2 token th2.
Proof.
  intros Hu. unfold WebConsole.handle_http. destruct (read_limited_line i MAX_REQUEST_LINE) as [line rest| |]; [|done..].
  repeat (case_match; [done|]). destruct (read_headers elapsed rest) as [h rest'| |] eqn:Eh; [|done..].
  apply respond_unauthorized. by eapply upper_case_unauthorized.
Qed.

Lemma read_body_part method h i body rest :
  0 <= content_length h <= MAX_BODY_BYTES -> read_body method h i = Some (body, rest) ->
  exists raw, unread i = raw ++ unread rest /\ zlen raw <= MAX_BODY_BYTES.
Proof.
  intros Hc. unfold read_body. destruct (_ && _); [destruct (Nat.ltb_spec (length (unread i)) (Z.to_nat (content_length h))); [done|]|].
  - intros [= _ <-]. exists (take (Z.to_nat (content_length h)) (unread i)). cbn [unread advance]. rewrite take_drop.
    split; [done|]. unfold zlen. rewrite length_take. lia.
  - intros [= _ <-]. exists []. split; [done|]. unfold zlen, MAX_BODY_BYTES. cbn. lia.
Qed.

Lemma respond_part method path h i st pid up token th sent task rest :
  0 <= content_length h <= MAX_BODY_BYTES -> respond method path h i st pid up token th = Answer sent task rest ->
  exists raw, unread i = raw ++ unread rest /\ zlen raw <= MAX_BODY_BYTES.
Proof.
  intros Hc. destruct (respond_cases method path h i) as [[s Es]|[_ [s Es]]]; rewrite !Es; [intros [= _ _ <-]; by exists []|].
  destruct (read_body method h i) as [[body r]|] eqn:E; [|done].
  intros [= _ _ <-]. by eapply read_body_part.
Qed.

(** C32: reading a request ends, and what an answered request consumed is at most the request line's,
    the headers' and the body's limit together, however much the peer sends. *)
Theorem request_bounded elapsed i st pid up token th sent task rest :
  handle_http elapsed i st pid up token th = Answer sent task rest ->
  (forall i', read_headers elapsed i' <> OutOfFuel) /\
  exists raw, unread i = raw ++ unread rest /\ zlen raw <= MAX_REQUEST_LINE + MAX_HEADER_BYTES + MAX_BODY_BYTES.
Proof.
  intros E. split; [intros i'; unfold read_headers; apply header_loop_ends; lia|]. revert E. unfold WebConsole.handle_http.
  destruct (read_limited_line i MAX_REQUEST_LINE) as [line r1| |] eqn:E1; [|done..].
  apply read_limited_line_part in E1 as (raw1 & Hp1 & _ & Hl & _). repeat (case_match; [done|]).
  destruct (read_headers elapsed r1) as [h r2| |] eqn:E2; [|done..].
  pose proof (header_loop_ind (fun h => 0 <= content_length h <= MAX_BODY_BYTES) _ _ _ _ no_headers _ _ _ header_line_length
    ltac:(unfold MAX_BODY_BYTES; cbn; lia) E2) as Hc.
  apply (proj2 (header_loop_ends _ elapsed _ _ _ r1 (Nat.lt_succ_diag_r _))) in E2 as (raw2 & Hp2 & Hn).
  intros (raw3 & Hp3 & Hb)%respond_part; [|done]. exists (raw1 ++ raw2 ++ raw3). rewrite Hp1, Hp2, Hp3, <-!app_assoc. split; [done|].
  rewrite !zlen_app. lia.
Qed.

Lemma console_spawns_nothing elapsed i st pid up token sent task rest :
  console_thread index_html peers_json connect_request elapsed i st pid up token = Answer sent task rest -> task = None.
Proof.
  unfold console_thread, WebConsole.handle_http.
  destruct (read_limited_line i MAX_REQUEST_LINE) as [line r1| |]; [|done..]. repeat (case_match; [done|]).
  destruct (read_headers elapsed r1) as [h r2| |]; [|done..].
  match goal with |- respond ?m ?p _ _ _ _ _ _ _ = _ -> _ =>
    destruct (respond_cases m p h r2) as [[s E]|[_ [s E]]]; rewrite !E; [congruence|] end.
  destruct (read_body _ _ _) as [[body r]|]; [|done]. intros [= _ <- _].
  unfold WebConsole.route, route_connect, route_status, route_peers. cbn [try_current]. repeat case_match; done.
Qed.

(** The handler threads have no runtime, so the console never starts a connection: a well-formed and
    authorised connect request is answered with an error. *)
Theorem console_never_connects elapsed i st pid up token sent task rest :
  console_thread index_html peers_json connect_request elapsed i st pid up token = Answer sent task rest -> task = None.
Proof. apply console_spawns_nothing. Qed.

(** A started connection attempt passed every guard: the right method, path and media type, the
    token, an acceptable uid and a socket address. *)
Theorem connect_guards method path h i st pid up token th sent task rest :
  respond method path h i st pid up token th = Answer sent (Some task) rest ->
  method = lit "POST" /\ path = lit "/api/connect" /\ token_authorized token (authorization h) = true /\
  match content_type h with Some ct => ct_allows_json ct | None => false end = true /\
  validate_uid (ct_uid task) = true /\ th = RuntimeThread /\
  exists body addr u, connect_request body = Some (addr, u) /\ ct_uid task = bytes_string (default (lit "peer") u) /\
    parse_socket_addr (default [] addr) = Some (ct_socket task).
Proof.
  destruct (respond_cases method path h i) as [[? E]|[Eg [? E]]]; rewrite !E; [congruence|]. unfold json_posted in Eg.
  destruct (read_body _ _ _) as [[body r]|]; [|done]. intros [= _ Ht _]. revert Ht.
  unfold WebConsole.route. cbv zeta. destruct (starts_with (lit "/api/") path && negb (token_authorized _ _)) eqn:Ea; [done|].
  destruct (bool_decide (method = lit "GET") && bool_decide (path = lit "/")); [done|].
  destruct (bool_decide (method = lit "GET") && bool_decide (path = lit "/api/status")); [by destruct st|].
  destruct (bool_decide (method = lit "GET") && bool_decide (path = lit "/api/peers")); [by destruct st|].
  destruct (bool_decide (method = lit "GET") && bool_decide (path = lit "/api/services")); [done|].
  destruct (bool_decide (method = lit "POST") && bool_decide (path = lit "/api/connect")) eqn:Em; [|done].
  cbn [andb] in Eg. apply negb_false_iff in Eg. breflect. subst. change (starts_with (lit "/api/") (lit "/api/connect")) with true in Ea.
  cbn [andb] in Ea. apply negb_false_iff in Ea. unfold route_connect.
  destruct (connect_request body) as [[addr u]|] eqn:Er; [|done]. destruct (validate_uid _) eqn:Ev; cbn [negb]; [|done].
  destruct (parse_socket_addr _) as [sock|] eqn:Es; [|done]. destruct st as [s|]; [|done].
  destruct (signing_key (identity s)); [|done]. destruct th; [done|]. cbn. intros [= <-]. repeat split; try done.
  by exists body, addr, u.
Qed.

(** The token a first start makes is one the console accepts: with no token file or a blank one,
    a client that sends the new token is told the status. *)
Theorem fresh_token_opens elapsed file random e s pid up th :
  bytes_ok random -> length random = 32%nat -> (forall k, elapsed k <= REQUEST_TOTAL_TIMEOUT_SECS * 10 ^ 9) ->
  (forall existing, file = Some existing -> trim existing = []) ->
  let token := web_token file random in
  exists rest sent, handle_http elapsed (mkInput (status_request token) e) (Some s) pid up token th = Answer sent None rest /\
    sent = write_response (lit "200 OK") (lit "application/json") (lit "Cache-Control: no-store" ++ crlf)
             (response (route_status (Some s) pid up)).
Proof.
  intros Hr Hl He Hf token. assert (token = hex_encode_bytes random) as Et.
  { unfold token, web_token. destruct file as [x|]; [|done]. by rewrite (Hf x eq_refl). }
  clearbody token. subst token. pose proof (fresh_token_chars random Hr) as Ht.
  set (t := hex_encode_bytes random) in *. assert (length t = 64%nat) as Hn by (unfold t; rewrite length_hex_encode_bytes; lia).
  assert (t <> []) as Ht0 by (by intros ->). clearbody t.
  pose proof (bearer_headers elapsed t e Ht0 Ht ltac:(unfold zlen; lia) He) as Eh.
  pose proof (bearer_line_header no_headers t Ht0 Ht) as [Ea Eb].
  unfold WebConsole.handle_http, status_request.
  pose proof (read_limited_line_ascii (lit "GET /api/status HTTP/1.1" ++ [13]) (bearer_line t ++ [13] ++ 10 :: [13] ++ [10]) e MAX_REQUEST_LINE) as El.
  rewrite <-(app_assoc (lit _)) in El. rewrite El; [|by apply ascii_check|by apply (bool_decide_unpack (_ ∉ _))|done].
  rewrite late_not by done.
  change (split_whitespace ((lit "GET /api/status HTTP/1.1" ++ [13]) ++ [10])) with [lit "GET"; lit "/api/status"; lit "HTTP/1.1"].
  cbn beta iota. rewrite app_assoc, Eh. unfold WebConsole.respond.
  assert (host (header_line no_headers (bearer_line t)) = None /\ origin (header_line no_headers (bearer_line t)) = None) as [-> ->].
  { revert Ea. unfold header_line. repeat case_match; try done. }
  change (read_body (lit "GET") ?h ?i) with (Some (@nil Z, i)).
  do 2 eexists. split; [|reflexivity]. unfold WebConsole.route. rewrite Ea.
  rewrite (proj2 (token_authorized_spec t (Some (lit "bearer " ++ t))) Eb). reflexivity.
Qed.

End Requests.

(** ** The spawned attempts end *)

(** The task stops with a connection or after five failures, never later. *)
Theorem connect_loop_ends `{Crypto, Json} show task n env st :
  0 <= n < 5 -> 5 - n <= zlen env ->
  let '(_, attempts, connected) := connect_loop show task n env st in
  n <= attempts <= 5 /\ (connected = true \/ attempts = 5).
Proof.
  revert n st. induction env as [|[[eph nonce] input] env IH]; intros n st Hn Hl; cbn [connect_loop].
  { change (zlen (@nil attempt)) with 0 in Hl. lia. }
  rewrite zlen_cons in Hl. destruct (NetState.connect_to_peer _ _ _ _ _ _ _) as [st' [u|e]]; [split; [lia|by left]|].
  destruct (Z.leb_spec 5 (n + 1)); [split; [lia|right; lia]|].
  specialize (IH (n + 1) st' ltac:(lia) ltac:(lia)). destruct (connect_loop _ _ _ _ _) as [[? ?] ?].
  destruct IH as [? ?]. split; [lia|done].
Qed.

(** ** Theorems on the slots *)

(** The counter is exact. *)
Definition slots_ok (s : Slots) : Prop :=
  0 <= running s <= MAX_WEB_CONNS /\ active s = running s + (if refusing s then 1 else 0).

Lemma slot_step_ok s e s' : slots_ok s -> slot_step s e = Some s' -> slots_ok s'.
Proof.
  unfold slots_ok, slot_step, wrap64, MAX_WEB_CONNS. destruct s as [a r f]; cbn [active running refusing].
  intros [Hr ->] E. destruct e, f; repeat case_match; simplify_eq; cbn [active running refusing]; breflect;
    rewrite ?Z.mod_small; lia.
Qed.

Lemma slots_reach_ok s : slots_reach s -> slots_ok s.
Proof. induction 1; [by unfold slots_ok, MAX_WEB_CONNS|]. by eapply slot_step_ok. Qed.

(** C33: under every interleaving of arrivals, refusals and ends of handlers there are at most 64
    handler threads, and no slot is lost: with fewer, and no refusal under way, the next
    connection is served, and with all of them taken it is refused. *)
Theorem web_slots s :
  slots_reach s ->
  0 <= running s <= 64 /\ 0 <= active s <= 65 /\
  (refusing s = false ->
   slot_step s Incoming = Some (if running s <? 64 then mkSlots (running s + 1) (running s + 1) false
                                else mkSlots (running s + 1) (running s) true)).
Proof.
  intros [Hr Ha]%slots_reach_ok. unfold MAX_WEB_CONNS in *. repeat split; try (destruct (refusing s); lia).
  intros Hf. unfold slot_step, wrap64, MAX_WEB_CONNS. rewrite Hf in *. rewrite Z.mod_small by lia.
  rewrite Ha, Z.add_0_r. destruct (Z.leb_spec 64 (running s)), (Z.ltb_spec (running s) 64); try lia; done.
Qed.

(** ** Witnesses *)

Module WebWitness.
#[local] Existing Instance toy_crypto.

Definition node : AppState := new_with_port (generate "alice" (be_bytes 32 5) 0) 9000.
Definition page : bytes := lit "<html></html>".
Definition show_peers (_ : gset string) : bytes := lit "[]".

(** A reader of one request body only. *)
Definition read_request (body : bytes) : option (option bytes * option bytes) :=
  if bool_decide (body = lit "{connect}") then Some (Some (lit "127.0.0.1:9000"), Some (lit "bob")) else None.

Definition text (ls : list string) (body : string) : Input :=
  mkInput (concat ((fun l => lit l ++ crlf) <$> ls) ++ crlf ++ lit body) Eof.

Definition wrong_token : Input := text ["GET /api/status HTTP/1.1"; "Host: localhost:10888"; "Authorization: Bearer secrets"] "".

Definition connect_post : Input :=
  text ["POST /api/connect HTTP/1.1"; "Authorization: Bearer secret"; "Content-Type: application/json"; "Content-Length: 9"] "{connect}".

Definition at_once (_ : nat) : Z := 0.

Definition serve (i : Input) (st : option AppState) (token : string) (th : Thread) : outcome :=
  handle_http page show_peers read_request at_once i st 7 11 (lit token) th.


(** With the token in the request, but in upper case in the file. *)
Lemma upper_case_token_locks_witness :
  serve (text ["GET /api/status HTTP/1.1"; "Authorization: Bearer SECRET"] "") None "SECRET" StdThread =
  serve (text ["GET /api/status HTTP/1.1"; "Authorization: Bearer SECRET"] "") (Some node) "SECRET" StdThread.
Proof. apply upper_case_token_locks. vm_compute. by left. Defined.

Lemma request_bounded_witness :
  exists sent rest, serve connect_post (Some node) "secret" StdThread = Answer sent None rest /\
  exists raw, unread connect_post = raw ++ unread rest /\ zlen raw <= MAX_REQUEST_LINE + MAX_HEADER_BYTES + MAX_BODY_BYTES.
Proof.
  assert (exists sent rest, serve connect_post (Some node) "secret" StdThread = Answer sent None rest) as (sent & rest & E).
  { do 2 eexists. vm_compute. reflexivity. }
  exists sent, rest. split; [exact E|]. exact (proj2 (request_bounded _ _ _ _ _ _ _ _ _ _ _ _ _ E)).
Defined.

(** The same request on a runtime thread would start the attempt. *)
Lemma console_never_connects_witness :
  (exists sent task rest, serve connect_post (Some node) "secret" RuntimeThread = Answer sent (Some task) rest) /\
  exists sent task rest,
    console_thread page show_peers read_request at_once connect_post (Some node) 7 11 (lit "secret") = Answer sent task rest /\
    task = None.
Proof.
  split; [do 3 eexists; vm_compute; reflexivity|].
  assert (exists sent task rest, console_thread page show_peers read_request at_once connect_post (Some node) 7 11 (lit "secret") =
    Answer sent task rest) as (sent & task & rest & E) by (do 3 eexists; vm_compute; reflexivity).
  exists sent, task, rest. split; [exact E|]. exact (console_never_connects _ _ _ _ _ _ _ _ _ _ _ _ E).
Defined.

Definition json_headers : Headers := mkHeaders 9 (Some (lit "bearer secret")) None None (Some (lit "application/json")).

Lemma connect_guards_witness :
  exists sent task rest,
    respond page show_peers read_request (lit "POST") (lit "/api/connect") json_headers (mkInput (lit "{connect}") Eof)
      (Some node) 7 11 (lit "secret") RuntimeThread = Answer sent (Some task) rest /\ validate_uid (ct_uid task) = true.
Proof.
  assert (exists sent task rest,
    respond page show_peers read_request (lit "POST") (lit "/api/connect") json_headers (mkInput (lit "{connect}") Eof)
      (Some node) 7 11 (lit "secret") RuntimeThread = Answer sent (Some task) rest) as (sent & task & rest & E)
    by (do 3 eexists; vm_compute; reflexivity).
  exists sent, task, rest. split; [exact E|].
  exact (proj1 (proj2 (proj2 (proj2 (proj2 (connect_guards _ _ _ _ _ _ _ _ _ _ _ _ _ _ _ E)))))).
Defined.

Lemma fresh_token_opens_witness :
  let token := web_token None (be_bytes 32 77) in
  exists rest sent, handle_http page show_peers read_request at_once (mkInput (status_request token) Eof) (Some node) 7 11 token
    StdThread = Answer sent None rest.
Proof.
  destruct (fresh_token_opens page show_peers read_request at_once None (be_bytes 32 77) Eof node 7 11 StdThread)
    as (rest & sent & E & _); [apply be_bytes_ok|apply length_be_bytes|intros k; by vm_compute|done|].
  exists rest, sent. exact E.
Defined.

(** A handler runs and a second connection arrives. *)
Lemma web_slots_witness :
  exists s, slot_step slots_init Incoming = Some s /\ slot_step s Incoming = Some (mkSlots 2 2 false).
Proof.
  exists (mkSlots 1 1 false). split; [reflexivity|].
  refine (proj2 (proj2 (web_slots (mkSlots 1 1 false) _)) eq_refl).
  by apply (slots_next slots_init Incoming); [constructor|].
Defined.

End WebWitness.
