(* ===== verification/Discovery.v ===== *)
(** [net/lan.rs], [net/transport.rs] and [network.rs]: LAN announcements, the persisted transport
    choice, and the SOCKS5 client.

    The network is an argument: the datagrams a socket receives, and for a stream the pieces in
    which its bytes arrive. [serde_json] of the transport configuration is an interface. *)

From S2P Require Import Prelude Identity Text Wire Storage.

(** ** LAN announcements *)

Module Lan.

Record LanPeer := mkPeer { uid : bytes; port : Z; addr : bytes }.

(** [format!("CHRONO:{}:{}", uid, port)]. *)
Definition announce (uid : bytes) (port : Z) : bytes :=
  string_bytes "CHRONO" ++ 58 :: uid ++ 58 :: string_bytes (fmt port).

(** [format!("{}:{}", ip, port)]. *)
Definition at_port (ip : bytes) (port : Z) : bytes := ip ++ 58 :: string_bytes (fmt port).

Definition parse_announce (data : bytes) : option LanPeer :=
  match split 58 (trim data) with
  | [tag; u; p] =>
      if bool_decide (tag = string_bytes "CHRONO") then
        n ← parse_uint u16_max p; Some (mkPeer u n (at_port (string_bytes "0.0.0.0") n))
      else None
  | _ => None
  end.

(** One pass of the receive loop: whether the deadline has passed, and what [recv_from] gives, a
    datagram with its source or an error. *)
Record Pass := mkPass { expired : bool; received : option (bytes * bytes) }.

Fixpoint receive (my_uid : bytes) (passes : list Pass) : list LanPeer :=
  match passes with
  | [] => []
  | p :: rest =>
      if expired p then []
      else
        match received p with
        | None => []
        | Some (data, ip) =>
            match parse_announce (utf8_lossy (take 256 data)) with
            | Some peer =>
                if bool_decide (uid peer = my_uid) then receive my_uid rest
                else mkPeer (uid peer) (port peer) (at_port ip (port peer)) :: receive my_uid rest
            | None => receive my_uid rest
            end
        end
  end.

(** What is broadcast, and the peers found; [bound] says the socket could be bound. *)
Definition discover_peers (bound : bool) (port : Z) (my_uid : bytes) (passes : list Pass) : option bytes * list LanPeer :=
  if bound then (Some (announce my_uid port), receive my_uid passes) else (None, []).

End Lan.

(** ** Transports *)

Module Transport.

Inductive t :=
| Direct
| Tor (socks5_addr : string)
| Obfs4 (bridge_line socks5_addr : string)
| WebTunnel (url socks5_addr : string).

#[export] Instance t_eq_dec : EqDecision t.
Proof. solve_decision. Defined.

Definition name (x : t) : string :=
  match x with Direct => "direct" | Tor _ => "tor" | Obfs4 _ _ => "obfs4" | WebTunnel _ _ => "webtunnel" end.

Definition description (x : t) : string :=
  match x with
  | Direct => "Direct TCP"
  | Tor a => "Tor SOCKS5 → " +:+ a
  | Obfs4 _ a => "Obfs4 (bridge configured) via " +:+ a
  | WebTunnel _ a => "WebTunnel (url hidden) via " +:+ a
  end.

Record TransportConfig := mkConfig { transport : t; data_dir : string }.

Class ConfigJson := {
  config_json : TransportConfig -> option string;
  config_of_json : string -> option TransportConfig;
}.

Class ConfigJsonLaws `{ConfigJson} : Prop := {
  config_written c : is_Some (config_json c);
  config_json_id c j : config_json c = Some j -> config_of_json j = Some c;
  (** JSON text is not empty, and a proper prefix of an object is not one. *)
  config_torn c j n : config_json c = Some j -> (n < length (string_bytes j))%nat ->
    config_of_json (bytes_string (take n (string_bytes j))) = None;
  config_utf8 c j : config_json c = Some j -> utf8_valid (string_bytes j) = true;
}.

(** The static, and the [transport.json] of each data directory. *)
Record world := mkWorld { global : option TransportConfig; files : gmap string string }.

Section Config.
Context `{ConfigJson}.

Definition get_transport (w : world) : t := match global w with Some c => transport c | None => Direct end.

Definition set_transport (io : WriteIo) (w : world) (x : t) (dir : string) : world :=
  let config := mkConfig x dir in
  let files :=
    match config_json config with
    | Some json =>
        match (write_private_file io (files w !! dir) json).1 with
        | Some text => <[dir := text]> (files w)
        | None => files w
        end
    | None => files w
    end in
  mkWorld (Some config) files.

Definition load_transport (w : world) (dir : string) : world * t :=
  match files w !! dir with
  | Some json =>
      if utf8_valid (string_bytes json) then
        match config_of_json json with
        | Some config => (mkWorld (Some config) (files w), transport config)
        | None => (w, Direct)
        end
      else (w, Direct)
  | None => (w, Direct)
  end.

(** A new process: the files stay. *)
Definition restart (w : world) : world := mkWorld None (files w).

End Config.
End Transport.

(** ** SOCKS5 *)

Module Socks5.

(** The bytes of a stream in the pieces in which they arrive; after the last, the stream is closed. *)
Definition pieces := list bytes.

(** [read]: at most [n] bytes of the first piece. *)
Definition read (n : nat) (s : pieces) : bytes * pieces :=
  match s with
  | [] => ([], [])
  | p :: s' => (take n p, match drop n p with [] => s' | r => r :: s' end)
  end.

(** [read_exact]: as many reads as it takes. *)
Fixpoint read_exact (fuel : nat) (n : nat) (s : pieces) : option (bytes * pieces) :=
  match n, fuel with
  | O, _ => Some ([], s)
  | _, O => None
  | _, S fuel' =>
      let '(got, s') := read n s in
      match got with
      | [] => None
      | _ => '(more, s'') ← read_exact fuel' (n - length got) s'; Some (got ++ more, s'')
      end
  end.

Inductive error := Resolve | Connect | Io | AuthFailed | DomainTooLong | ConnectFailed.

Inductive attempt := Connected (s : pieces) | Failed (e : error) | Panicked.

Definition greeting : bytes := [5; 1; 0].

Definition request (domain : bytes) (port : Z) : bytes :=
  [5; 1; 0; 3; wrap8 (zlen domain)] ++ domain ++ [Z.shiftr port 8; Z.land port 255].

(** What one connection attempt meets: the addresses the proxy's name resolves to, whether the first
    accepts, whether the two writes succeed, and the proxy's bytes. *)
Record Env := mkEnv { resolved : option (list bytes); accepts : bool; write1 : bool; write2 : bool; replies : pieces }.

(** The bytes written, and the outcome. [read_exact] of two bytes needs at most two reads. *)
Definition connect (e : Env) (domain : bytes) (port : Z) : bytes * attempt :=
  match resolved e with
  | None => ([], Failed Resolve)
  | Some [] => ([], Panicked)
  | Some _ =>
      if negb (accepts e) then ([], Failed Connect)
      else if negb (write1 e) then ([], Failed Io)
      else
        match read_exact 2 2 (replies e) with
        | None => (greeting, Failed Io)
        | Some (resp, s) =>
            if negb (bool_decide (resp = [5; 0])) then (greeting, Failed AuthFailed)
            else if 255 <? zlen domain then (greeting, Failed DomainTooLong)
            else if negb (write2 e) then (greeting, Failed Io)
            else
              let '(resp2, s) := read 262 s in
              let sent := greeting ++ request domain port in
              if (zlen resp2 <? 10) || negb (bool_decide (resp2 !! 1%nat = Some 0)) then (sent, Failed ConnectFailed)
              else (sent, Connected s)
        end
  end.

(** The wait after attempt [i], in milliseconds. *)
Definition backoff (i : nat) : Z := wrap64 (500 * wrap64 (2 ^ Z.of_nat i)).

(** The loop over the attempts: the waits, and the outcome. *)
Fixpoint try_from (env : nat -> Env) (domain : bytes) (port : Z) (i left : nat) (last : option error) : list Z * attempt :=
  match left with
  | O => ([], Failed (default ConnectFailed last))
  | S left' =>
      match (connect (env i) domain port).2 with
      | Connected s => ([], Connected s)
      | Panicked => ([], Panicked)
      | Failed e => let '(ws, r) := try_from env domain port (S i) left' (Some e) in (backoff i :: ws, r)
      end
  end.

Definition socks5_connect (env : nat -> Env) (domain : bytes) (port : Z) (retries : Z) : list Z * attempt :=
  try_from env domain port 0 (Z.to_nat (if retries =? 0 then 1 else retries)) None.

End Socks5.

(** ** Theorems on announcements *)

Lemma split_at_length sep part bs : length (split_at sep part bs) = S (length (filter (sep =.) bs)).
Proof.
  revert part. induction bs as [|b bs IH]; intros part; cbn [split_at]; [done|]. rewrite filter_cons.
  destruct (Z.eqb_spec b sep) as [->|Hb]; [rewrite decide_True by done|rewrite decide_False by congruence]; cbn [length]; by rewrite IH.
Qed.

Lemma digit_solid b : byte_in 48 57 b -> solid b /\ b <> 58.
Proof.
  unfold byte_in. intros [H1%Z.leb_le H2%Z.leb_le]%Is_true_true%andb_true_iff. unfold solid. rewrite is_whitespace_single. unfold byte_in.
  split; [|lia]. split; [lia|]. rewrite (proj2 (Z.leb_gt b 13)), (proj2 (Z.eqb_neq b 32)), andb_false_r by lia. done.
Qed.

(** The port's text: not empty, ASCII, without a colon. *)
Lemma port_text p : 0 <= p ->
  Forall solid (string_bytes (fmt p)) /\ 58 ∉ string_bytes (fmt p) /\ string_bytes (fmt p) <> [].
Proof.
  intros Hp. pose proof (fmt_digits p Hp) as Hd. repeat split.
  - eapply Forall_impl; [done|]. intros b Hb. by apply digit_solid.
  - intros Hin. rewrite Forall_forall in Hd. by destruct (digit_solid 58 (Hd _ Hin)).
  - intros E. pose proof (parse_uint_fmt p p ltac:(lia)) as Hq. by rewrite E in Hq.
Qed.

Lemma validate_uid_ascii u : validate_uid u = true -> Forall (fun b => b < 128) (string_bytes u).
Proof.
  unfold validate_uid. intros [_ Hf]%andb_true_iff. apply forallb_true_Forall in Hf. eapply Forall_impl; [exact Hf|]. intros b. cbn.
  unfold is_ascii_alphanumeric, uid_punct, byte_in. intros [Hb|Hb]%orb_true_iff.
  - rewrite !orb_true_iff, !andb_true_iff, !Z.leb_le in Hb. lia.
  - apply bool_decide_eq_true in Hb. set_unfold in Hb. lia.
Qed.

Lemma trim_announce u p : Forall (fun b => b < 128) u -> 0 <= p -> trim (Lan.announce u p) = Lan.announce u p.
Proof.
  intros Hu Hp. destruct (port_text p Hp) as (Hs & _ & Hne). apply (trim_ascii []); [constructor| |by cbn|].
  - unfold Lan.announce. rewrite Forall_app. split; [by apply ascii_check|]. constructor; [done|]. rewrite Forall_app. split; [done|].
    constructor; [done|]. eapply Forall_impl; [done|]. by intros b [Hb _].
  - unfold Lan.announce. replace (string_bytes "CHRONO" ++ 58 :: u ++ 58 :: string_bytes (fmt p))
      with ((string_bytes "CHRONO" ++ 58 :: u ++ [58]) ++ string_bytes (fmt p)) by (rewrite <-!app_assoc; cbn; by rewrite <-app_assoc).
    by apply solid_end.
Qed.

(** An announcement is understood exactly when the announced uid has no colon: the uid and the
    port come back as they were sent. A uid that contains one, which [validate_uid] accepts, is
    never discovered. *)
Theorem announce_exact u p :
  validate_uid u = true -> 0 <= p <= u16_max ->
  Lan.parse_announce (Lan.announce (string_bytes u) p) =
    if bool_decide (58 ∈ string_bytes u) then None
    else Some (Lan.mkPeer (string_bytes u) p (Lan.at_port (string_bytes "0.0.0.0") p)).
Proof.
  intros Hv [Hp Hm]. unfold Lan.parse_announce. rewrite trim_announce by (try done; by apply validate_uid_ascii).
  destruct (port_text p Hp) as (_ & Hn & _). unfold Lan.announce, split. rewrite split_at_sep by (by apply (bool_decide_unpack (_ ∉ _))).
  destruct (bool_decide_reflect (58 ∈ string_bytes u)) as [Hc|Hc].
  - assert (exists a b c l, split_at 58 [] (string_bytes u ++ 58 :: string_bytes (fmt p)) = a :: b :: c :: l) as (a & b & c & l & ->).
    { pose proof (split_at_length 58 [] (string_bytes u ++ 58 :: string_bytes (fmt p))) as Hl.
      rewrite filter_app, length_app, filter_cons_True in Hl by done. cbn [length] in Hl.
      assert (58 ∈ filter (58 =.) (string_bytes u)) as Hin by (by apply list_elem_of_filter).
      destruct (filter (58 =.) (string_bytes u)); [by apply not_elem_of_nil in Hin|]. cbn [length] in Hl.
      destruct (split_at _ _ _) as [|? [|? [|? ?]]]; cbn [length] in Hl; try lia. by repeat eexists. }
    done.
  - rewrite split_at_sep, split_at_part by done. cbn [app]. rewrite bool_decide_eq_true_2 by done.
    rewrite parse_uint_fmt by done. done.
Qed.

(** ** Theorems on the transport *)

Section TransportTheorems.
Import Transport.
Context `{ConfigJson, !ConfigJsonLaws}.

(** A change of the setting: how its file operation ended, the transport and the data directory. *)
Definition change (w : world) (c : WriteIo * t * string) : world := set_transport c.1.1 w c.1.2 c.2.

(** A write that stops, stops before the end. *)
Definition torn_short (c : WriteIo * t * string) : Prop :=
  match c.1.1, config_json (mkConfig c.1.2 c.2) with
  | Partly n, Some j => (n < length (string_bytes j))%nat
  | _, _ => True
  end.

(** What a directory should hold after a change. *)
Definition kept (dir : string) (x : t) (c : WriteIo * t * string) : t :=
  if bool_decide (c.2 = dir) then match c.1.1 with Written => c.1.2 | NotOpened => x | Partly _ => Direct end else x.

Definition reloaded (w : world) (dir : string) : t := (load_transport (restart w) dir).2.

Lemma change_kept w c dir : torn_short c -> reloaded (change w c) dir = kept dir (reloaded w dir) c.
Proof.
  destruct c as [[io x] d]. unfold torn_short, kept, reloaded, change, set_transport, load_transport, restart. cbn [fst snd files].
  destruct (config_written (mkConfig x d)) as [j Ej]. rewrite Ej. intros Hs. case_bool_decide as Hd; [subst d|].
  - destruct io as [| |n]; cbn [write_private_file fst].
    + by rewrite lookup_insert_eq, (config_utf8 _ _ Ej), (config_json_id _ _ Ej).
    + destruct (files w !! dir) as [old|] eqn:Eo; [by rewrite insert_id, Eo|by rewrite Eo].
    + rewrite lookup_insert_eq, (config_torn _ _ _ Ej Hs). by case_match.
  - destruct (write_private_file io (files w !! d) j).1; [rewrite lookup_insert_ne by done; by repeat case_match|done].
Qed.

(** C38: the transport setting over restarts. After any changes of the setting, in any data directories and
    however their file operations ended, the running process has the last transport set; a process
    started afterwards on a directory takes, as its setting and as the answer of [load_transport], the
    transport of the last change there whose file was written in full, unless a later write there
    stopped half-way: then it takes [Direct], without an error. Changes whose file could not be opened
    leave what was there. *)
Theorem transport_restart w l dir :
  Forall torn_short l ->
  let w' := foldl change w l in
  get_transport w' = default (get_transport w) ((fun c => c.1.2) <$> last l) /\
  (load_transport (restart w') dir).2 = foldl (kept dir) (load_transport (restart w) dir).2 l /\
  get_transport (load_transport (restart w') dir).1 = (load_transport (restart w') dir).2.
Proof.
  intros HF w'. split_and!.
  - unfold w'. destruct l as [|c l _] using rev_ind; [done|]. by rewrite foldl_snoc, last_snoc.
  - unfold w'. clear w'. revert w. induction HF as [|c l Hc HF IH]; intros w; [done|]. cbn [foldl]. rewrite IH.
    f_equal. by apply change_kept.
  - generalize w'. intros v. unfold load_transport, restart. cbn [files]. destruct (files v !! dir) as [j|]; [|done].
    destruct (utf8_valid (string_bytes j)); [|done]. by destruct (config_of_json j).
Qed.
End TransportTheorems.

(** ** Theorems on SOCKS5 *)

Section SocksTheorems.
Import Socks5.

(** The proxy's side of a request: the domain and the port it asks for. *)
Definition parse_request (bs : bytes) : option (bytes * Z) :=
  match bs with
  | 5 :: 1 :: 0 :: 3 :: n :: r =>
      match drop (Z.to_nat n) r with
      | [hi; lo] => Some (take (Z.to_nat n) r, hi * 256 + lo)
      | _ => None
      end
  | _ => None
  end.

Lemma request_parses domain port :
  zlen domain <= 255 -> 0 <= port < 2 ^ 16 -> parse_request (request domain port) = Some (domain, port).
Proof.
  intros Hd Hp. unfold request, parse_request, wrap8. cbn [app]. rewrite Z.mod_small by (pose proof (zlen_nonneg domain); lia).
  unfold zlen. rewrite Nat2Z.id, drop_app_length, take_app_length. do 2 f_equal.
  rewrite Z.shiftr_div_pow2 by lia. change 255 with (Z.ones 8). rewrite Z.land_ones by lia. change (2 ^ 8) with 256.
  pose proof (Z.div_mod port 256). lia.
Qed.

(** With a proxy that accepts, the client asks for exactly the given domain and port and is
    connected when the answer's code is 0. All the bytes that arrived together with the answer
    are consumed with it, up to 262: what the far end sent right after it ([early]) is lost. *)
Theorem socks5_exchange e domain port auth answer early rest :
  resolved e <> None -> resolved e <> Some [] -> accepts e = true -> write1 e = true -> write2 e = true ->
  replies e = [5; 0] :: (answer ++ early) :: rest -> answer = [5; 0] ++ auth -> length answer = 10%nat ->
  (length early <= 252)%nat -> zlen domain <= 255 -> 0 <= port < 2 ^ 16 ->
  connect e domain port = (greeting ++ request domain port, Connected rest) /\
  parse_request (request domain port) = Some (domain, port).
Proof.
  intros Hr Hr' Ha Hw1 Hw2 Hp -> Hl He Hd Hport. split; [|by apply request_parses].
  unfold connect. destruct (resolved e) as [[|a l]|]; [done| |done]. rewrite Ha, Hw1, Hp. cbn [negb].
  change (read_exact 2 2 ([5; 0] :: (([5; 0] ++ auth) ++ early) :: rest)) with (Some ([5; 0], (([5; 0] ++ auth) ++ early) :: rest)).
  cbn beta iota. rewrite bool_decide_eq_true_2 by done. cbn [negb]. rewrite (proj2 (Z.ltb_ge _ _)), Hw2 by done. cbn [negb].
  unfold read. rewrite take_ge, drop_ge by (rewrite length_app; lia).
  rewrite (proj2 (Z.ltb_ge _ _)) by (unfold zlen; rewrite length_app; lia). cbn [orb].
  by rewrite bool_decide_eq_true_2.
Qed.

Lemma try_from_connects env domain port left i k last s :
  (k < left)%nat -> (forall j, (i <= j < i + k)%nat -> exists e, (connect (env j) domain port).2 = Failed e) ->
  (connect (env (i + k)%nat) domain port).2 = Connected s ->
  try_from env domain port i left last = (backoff <$> seq i k, Connected s).
Proof.
  revert left i last. induction k as [|k IH]; intros [|left] i last Hk Hf Hc; try lia; cbn [try_from].
  - rewrite Nat.add_0_r in Hc. by rewrite Hc.
  - destruct (Hf i ltac:(lia)) as [e ->]. rewrite (IH left (S i)); [done|lia| |].
    + intros j Hj. apply Hf. lia.
    + by rewrite Nat.add_succ_comm.
Qed.

Lemma try_from_fails env domain port left i last :
  (forall j, exists e, (connect (env j) domain port).2 = Failed e) ->
  exists e, try_from env domain port i left last = (backoff <$> seq i left, Failed e).
Proof.
  intros Hf. revert i last. induction left as [|left IH]; intros i last; cbn [try_from]; [by eexists|].
  destruct (Hf i) as [e ->]. destruct (IH (S i) (Some e)) as [e' ->]. by eexists.
Qed.

(** The client returns the first connection that an attempt makes, waiting half a second, then
    twice as long each time; a retry count of 0 means one attempt. The wait is the intended one up to
    the 55th attempt; from the 63rd on the product overflows to no wait at all. *)
Theorem socks5_retries env domain port retries :
  0 <= retries < 2 ^ 32 ->
  let n := Z.to_nat (Z.max 1 retries) in
  (forall k s, (k < n)%nat -> (forall j, (j < k)%nat -> exists e, (connect (env j) domain port).2 = Failed e) ->
     (connect (env k) domain port).2 = Connected s ->
     socks5_connect env domain port retries = (backoff <$> seq 0 k, Connected s)) /\
  ((forall j, exists e, (connect (env j) domain port).2 = Failed e) ->
     exists e, socks5_connect env domain port retries = (backoff <$> seq 0 n, Failed e)) /\
  (forall i, (i < 55)%nat -> backoff i = 500 * 2 ^ Z.of_nat i) /\
  (forall i, (62 <= i)%nat -> backoff i = 0).
Proof.
  intros Hr n. assert (Z.to_nat (if retries =? 0 then 1 else retries) = n) as En.
  { unfold n. destruct (Z.eqb_spec retries 0); f_equal; lia. }
  unfold socks5_connect. rewrite En. repeat split.
  - intros k s Hk Hf Hc. apply try_from_connects; [done| |done]. intros j Hj. apply Hf. lia.
  - intros Hf. by apply try_from_fails.
  - intros i Hi. unfold backoff. assert (2 ^ Z.of_nat i <= 2 ^ 54) by (apply Z.pow_le_mono_r; lia).
    assert (0 < 2 ^ Z.of_nat i) by (apply Z.pow_pos_nonneg; lia). rewrite (wrap64_small (2 ^ _)), wrap64_small; lia.
  - intros i Hi. unfold backoff, wrap64. rewrite Zmult_mod_idemp_r.
    replace (Z.of_nat i) with (62 + (Z.of_nat i - 62)) by lia. rewrite Z.pow_add_r by lia.
    replace (500 * (2 ^ 62 * 2 ^ (Z.of_nat i - 62))) with (125 * 2 ^ (Z.of_nat i - 62) * 2 ^ 64) by lia. apply Z.mod_mul. lia.
Qed.
End SocksTheorems.

(** ** Witnesses *)

Module DiscoveryWitness.
Import Transport.

Definition config_enc (c : TransportConfig) : nat * string * string * string :=
  match transport c with
  | Direct => (0%nat, "", "", data_dir c)
  | Tor a => (1%nat, a, "", data_dir c)
  | Obfs4 a b => (2%nat, a, b, data_dir c)
  | WebTunnel a b => (3%nat, a, b, data_dir c)
  end.

Definition config_dec (e : nat * string * string * string) : TransportConfig :=
  let '(n, a, b, d) := e in
  mkConfig (match n with O => Direct | 1%nat => Tor a | 2%nat => Obfs4 a b | _ => WebTunnel a b end) d.

Definition toy_config : ConfigJson := {|
  config_json c := Some (ToyStore.closed (encode (config_enc c)));
  config_of_json s := p ← ToyStore.unclosed s; config_dec <$> decode p;
|}.

Lemma toy_config_laws : @ConfigJsonLaws toy_config.
Proof.
  split; cbn [config_json config_of_json toy_config].
  - by eexists.
  - intros c j [= <-]. rewrite ToyStore.unclosed_closed. cbn. rewrite decode_encode. by destruct c as [[] d].
  - intros c j n [= <-] Hn. by rewrite ToyStore.unclosed_torn.
  - intros c j [= <-]. apply ToyStore.closed_utf8.
Qed.
#[local] Existing Instances toy_config toy_config_laws.

(** A uid with a colon is valid, and its announcement is not understood. *)
Lemma announce_exact_witness :
  validate_uid "node:7" = true /\ Lan.parse_announce (Lan.announce (string_bytes "node:7") 9000) = None /\
  Lan.parse_announce (Lan.announce (string_bytes "bob") 9000) =
    Some (Lan.mkPeer (string_bytes "bob") 9000 (string_bytes "0.0.0.0:9000")).
Proof.
  split; [reflexivity|]. split.
  - rewrite (announce_exact "node:7" 9000); [reflexivity|reflexivity|by vm_compute].
  - rewrite (announce_exact "bob" 9000); [reflexivity|reflexivity|by vm_compute].
Defined.

(** Tor is set, then changed by a write that stops after three bytes, and again in another directory. *)
Definition changes : list (WriteIo * t * string) :=
  [(Written, Tor "127.0.0.1:9050", "data"); (NotOpened, Direct, "data"); (Written, Tor "127.0.0.1:9150", "other")].
Definition torn : WriteIo * t * string := (Partly 3, Tor "127.0.0.1:9250", "data").

Lemma transport_restart_witness :
  (load_transport (restart (foldl change (mkWorld None ∅) changes)) "data").2 = Tor "127.0.0.1:9050" /\
  (load_transport (restart (foldl change (mkWorld None ∅) (changes ++ [torn]))) "data").2 = Direct.
Proof.
  destruct (transport_restart (mkWorld None ∅) changes "data") as (_ & E1 & _); [repeat constructor|].
  destruct (transport_restart (mkWorld None ∅) (changes ++ [torn]) "data") as (_ & E2 & _); [repeat constructor; vm_compute; repeat constructor|].
  rewrite E1, E2. split; reflexivity.
Defined.

Definition proxy (tail : Socks5.pieces) : Socks5.Env := Socks5.mkEnv (Some [string_bytes "127.0.0.1:9050"]) true true true tail.

Definition eager : Socks5.Env := proxy [[5; 0]; [5; 0; 0; 1; 127; 0; 0; 1; 0; 80] ++ string_bytes "hello"].

(** The far end's greeting arrives with the proxy's answer and is lost. *)
Lemma socks5_exchange_witness : (Socks5.connect eager (string_bytes "example.org") 443).2 = Socks5.Connected [].
Proof.
  rewrite (proj1 (socks5_exchange eager (string_bytes "example.org") 443 [0; 1; 127; 0; 0; 1; 0; 80]
    [5; 0; 0; 1; 127; 0; 0; 1; 0; 80] (string_bytes "hello") [] ltac:(done) ltac:(done) eq_refl eq_refl eq_refl eq_refl
    eq_refl eq_refl ltac:(vm_compute; lia) ltac:(by vm_compute) ltac:(by vm_compute))).
  reflexivity.
Defined.

(** The first attempt is refused, the second succeeds. *)
Definition second_time (i : nat) : Socks5.Env :=
  match i with
  | O => Socks5.mkEnv (Some [[]]) false true true []
  | _ => proxy [[5; 0]; [5; 0; 0; 1; 127; 0; 0; 1; 0; 80]]
  end.

Lemma socks5_retries_witness :
  Socks5.socks5_connect second_time (string_bytes "example.org") 443 3 = ([500], Socks5.Connected []).
Proof.
  rewrite (proj1 (socks5_retries second_time (string_bytes "example.org") 443 3 ltac:(lia)) 1%nat []);
    [vm_compute; reflexivity|vm_compute; lia| |vm_compute; reflexivity].
  intros [|j] Hj; [|lia]. eexists. vm_compute. reflexivity.
Defined.

End DiscoveryWitness.
