(* ===== verification/Daemon.v ===== *)
(** [main.rs], the start-up and shutdown of [app.rs], and the identity file of [identity.rs]: how a
    daemon comes up from its data directory, serves its queues and goes down.

    A [Daemon] is the whole application state: the relay part ([App.AppState]), the bridge, the round
    engine, the web of trust and the transport. [serde_json] of the identity and of the web of trust is
    an interface; random draws, clocks and the outcome of every file operation are arguments. *)

From S2P Require Import Prelude Crypto Identity Text Wire RoundNetwork RoundDriver RoundEngine WebOfTrust Relay Session ConnectionManager App Storage F2f Discovery.

(** ** The data directory *)

Record DataDir := mkDir {
  identity_json : option string;
  wot_json : option string;
  wal_log : bytes;
  state_json : option string;
}.

Definition empty_dir : DataDir := mkDir None None [] None.

Definition set_identity_json (d : DataDir) (x : option string) : DataDir := mkDir x (wot_json d) (wal_log d) (state_json d).
Definition set_wot_json (d : DataDir) (x : option string) : DataDir := mkDir (identity_json d) x (wal_log d) (state_json d).

(** [json!] of an identity and [to_string_pretty] of the web of trust, with their parsers. *)
Class DaemonJson := {
  id_json : Identity -> option string;
  id_of_json : string -> option Identity;
  wot_to_json : WebOfTrust.t -> option string;
  wot_of_json : string -> option WebOfTrust.t;
}.

(** The cache of the web of trust is not written. *)
Class DaemonJsonLaws `{DaemonJson} : Prop := {
  id_written i : is_Some (id_json i);
  id_round_trip i j : id_json i = Some j -> id_of_json j = Some i;
  id_utf8 i j : id_json i = Some j -> utf8_valid (string_bytes j) = true;
  (** A proper prefix of an object is not one. *)
  id_torn i j n : id_json i = Some j -> (n < length (string_bytes j))%nat -> id_of_json (bytes_string (take n (string_bytes j))) = None;
  wot_written w : is_Some (wot_to_json w);
  wot_round_trip w j : wot_to_json w = Some j -> wot_of_json j = Some (WebOfTrust.invalidate_cache w);
  wot_utf8 w j : wot_to_json w = Some j -> utf8_valid (string_bytes j) = true;
}.

(** [read_to_string] and a parser. *)
Definition read_parsed {A} (parse : string -> option A) (file : option string) : option A :=
  text ← file; if utf8_valid (string_bytes text) then parse text else None.

Section Files.
Context `{Crypto, DaemonJson}.

(** [Identity::save]: a failure is ignored. *)
Definition save_identity (io : WriteIo) (d : DataDir) (id : Identity) : DataDir :=
  match id_json id with
  | Some json => set_identity_json d (write_private_file io (identity_json d) json).1
  | None => d
  end.

Definition load_or_generate (io : WriteIo) (seed : bytes) (now : Z) (d : DataDir) (uid0 : string) : DataDir * Identity :=
  match read_parsed id_of_json (identity_json d) with
  | Some id => (d, id)
  | None => let id := generate uid0 seed now in (save_identity io d id, id)
  end.

(** A fresh web with the own key, or the stored one with the own key added. *)
Definition load_wot (now : Z) (d : DataDir) (id : Identity) : WebOfTrust.t :=
  match read_parsed wot_of_json (wot_json d) with
  | Some saved => WebOfTrust.add_own_key saved (PgpIdentity.from_identity now id)
  | None => WebOfTrust.add_own_key WebOfTrust.new (PgpIdentity.from_identity now id)
  end.

End Files.

(** ** The daemon *)

Record Daemon := mkDaemon {
  app : AppState;
  bridge : F2fDcNetBridge.t;
  engine : RoundEngine;
  wot : WebOfTrust.t;
  transport : Transport.t;
  incoming : list (string * PeerMessage);
}.

Definition with_app (d : Daemon) (s : AppState) : Daemon :=
  mkDaemon s (bridge d) (engine d) (wot d) (transport d) (incoming d).
Definition with_engine (d : Daemon) (e : RoundEngine) : Daemon :=
  mkDaemon (app d) (bridge d) e (wot d) (transport d) (incoming d).
Definition with_incoming (d : Daemon) (q : list (string * PeerMessage)) : Daemon :=
  mkDaemon (app d) (bridge d) (engine d) (wot d) (transport d) q.

(** What a start draws and meets: the identity's seed, the edge keys of the recovery, the clocks, and
    whether the identity can be written and the log opened. *)
Record StartEnv := mkStart {
  se_seed : bytes;
  se_fresh : string -> bytes;
  se_draws : nat -> bytes;
  se_unix : Z;
  se_instant : Z;
  se_write : WriteIo;
  se_wal : bool;
  se_transport : Transport.t;
}.

Section Daemon.
Context `{Crypto, Json, StoreJson, DaemonJson}.

(** [AppState::new_with_port]; [se_transport] is what [load_transport] returns. *)
Definition start (env : StartEnv) (d : DataDir) (listen_port : Z) : DataDir * Daemon :=
  let '(d, id) := load_or_generate (se_write env) (se_seed env) (se_unix env) d "" in
  let b :=
    if se_wal env then
      F2fDcNetBridge.recover (se_fresh env) (se_draws env) (uid id)
        (WalStore.open (wal_log d) (state_json d) 100 (se_instant env))
    else F2fDcNetBridge.new (uid id) in
  (d, mkDaemon (new_with_port id listen_port) b (RoundEngine.new (se_instant env) (uid id))
        (load_wot (se_unix env) d id) (se_transport env) []).

(** [Drop for AppState]: the bridge's checkpoint, the identity, the web of trust. *)
Definition shutdown (env : Env) (id_io wot_io : WriteIo) (d : DataDir) (x : Daemon) : DataDir :=
  let b := F2fDcNetBridge.checkpoint_wal env (bridge x) in
  let d := match F2fDcNetBridge.wal b with
           | Some w => mkDir (identity_json d) (wot_json d) (WalStore.wal_log w) (WalStore.state_json w)
           | None => d
           end in
  let d := save_identity id_io d (identity (app x)) in
  match wot_to_json (wot x) with
  | Some json => set_wot_json d (write_private_file wot_io (wot_json d) json).1
  | None => d
  end.

(** The arguments of [main]: the last parsable [--port]. *)
Fixpoint parse_args (port : Z) (args : list string) : Z :=
  match args with
  | [] => port
  | a :: rest =>
      if bool_decide (a = "--port") then
        match rest with
        | [] => port
        | v :: rest => parse_args (default port (parse_uint u16_max (string_bytes v))) rest
        end
      else parse_args port rest
  end.

(** What [main] hands to the listener; [None] is [exit(1)]. *)
Definition listener_auth (x : Daemon) : option SessionAuth :=
  sk ← signing_key (identity (app x));
  Some (mkAuth (uid (identity (app x))) (public_hex (identity (app x))) sk).

(** [main] up to its idle loop: the data directory, the running state and the credentials the
    listener gets. *)
Definition main (env : StartEnv) (args : list string) (d : DataDir) : option (DataDir * Daemon * SessionAuth) :=
  let '(d, x) := start env d (parse_args 9000 args) in
  auth ← listener_auth x; Some (d, x, auth).

(** ** The pumps *)

(** The context of a round message. *)
Definition round_context (x : Daemon) : option RoundContext :=
  sk ← signing_key (identity (app x));
  Some (mkRoundContext (uid (identity (app x))) sk (F2fDcNetBridge.edge_key_map (bridge x)) (App.known_keys (app x))).

(** A queued message with the clocks at the time it is served: Unix seconds for the relay, the
    monotonic clock for the rounds. *)
Record Item := mkItem { from : string; msg : PeerMessage; unix : Z; instant : Z }.

(** One message of the batch; [None] when [emit] waits for ever. *)
Definition pump_one (x : Daemon) (it : Item) : option Daemon :=
  if is_relay (msg it) then s ← pump_relay (app x) (msg it) (unix it); Some (with_app x s)
  else
    match round_context x with
    | None => Some x
    | Some ctx =>
        let '(e, (_, outgoing)) := RoundEngine.handle_incoming (instant it) (engine x) (msg it) ctx in
        let s := foldl (fun s p => (send_outgoing s p).1) (app x) outgoing in
        Some (with_app (with_engine x e) s)
    end.

Fixpoint pump_batch (x : Daemon) (items : list Item) : option Daemon :=
  match items with
  | [] => Some x
  | it :: rest => x ← pump_one x it; pump_batch x rest
  end.

(** One turn of [incoming_pump]: take the whole queue, then serve it. [times] are the clocks. *)
Definition incoming_pump (x : Daemon) (times : nat -> Z * Z) : option Daemon :=
  pump_batch (with_incoming x [])
    (imap (fun i p => mkItem p.1 p.2 (times i).1 (times i).2) (incoming x)).

(** [outgoing_pump] on the messages of its channel; a poisoned lock skips the message. *)
Definition outgoing_pump (show : TrySendError -> string) (cm : option ConnectionManager) (q : list (string * PeerMessage)) : option ConnectionManager :=
  foldl (fun cm p => c ← cm; Some (ConnectionManager.send_to show c p.1 p.2).1) cm q.

End Daemon.

(** ** Lemmas on the pump *)

Module PumpFacts.
Import AppFacts.

Section Facts.
Context `{Crypto}.

(** A relay message changes the verifier and adds to the outgoing queue; what it adds does not depend
    on what is queued. *)
Lemma handle_shape s m now : exists v out es, forall q,
  handle_relay_message (set_outgoing s q) m now = (set_verifier (set_outgoing s (q ++ out)) v, es).
Proof.
  unfold handle_relay_message. destruct (relay_fields m) as [r|]; [|exists (relay_verifier s), [], []; intros q; rewrite app_nil_r; by destruct s].
  unfold relay_key. cbn [relay_verifier set_outgoing].
  assert (forall v, exists out es, forall q,
    deliver_or_forward (set_verifier (set_outgoing s q) v) r = (set_verifier (set_outgoing s (q ++ out)) v, es)) as Hd.
  { intros v. unfold deliver_or_forward, send_outgoing, App.route. cbn [identity set_verifier set_outgoing connection_manager relay outgoing_open outgoing].
    repeat case_match; first [exists []; eexists; intros q; rewrite app_nil_r; reflexivity | eexists _, _; intros q; reflexivity]. }
  assert (forall es, exists v out es', forall q : list (string * PeerMessage),
    (set_outgoing s q, es) = (set_verifier (set_outgoing s (q ++ out)) v, es' : list AppEvent)) as Hn.
  { intros es. exists (relay_verifier s), [], es. intros q. rewrite app_nil_r. by destruct s. }
  assert (forall v es, exists v' out es', forall q : list (string * PeerMessage),
    (set_verifier (set_outgoing s q) v, es) = (set_verifier (set_outgoing s (q ++ out)) v', es' : list AppEvent)) as Hv.
  { intros v es. exists v, [], es. intros q. by rewrite app_nil_r. }
  assert (forall q, App.known_keys (set_outgoing s q) = App.known_keys s) as Hk by done. setoid_rewrite Hk.
  destruct (App.known_keys s !! from_uid r) as [k|].
  - destruct (parse_verifying_key k); [|apply Hn]. destruct (verify_relay _ _ _ _ _ _ _); cbn [negb]; [|apply Hn]. cbn [relay_verifier set_outgoing].
    destruct (RelayVerifier.check _ _ _ _ _) as [v [[]|e]]; [|apply Hv]. destruct (Hd v) as (out & es & E). by exists v, out, es.
  - destruct (RelayVerifier.pin_key _ _ _) as [v0 [[]|e]]; [|apply Hv].
    destruct (parse_verifying_key _); [|apply Hv]. destruct (verify_relay _ _ _ _ _ _ _); cbn [negb]; [|apply Hv].
    cbn [relay_verifier set_verifier set_outgoing]. destruct (RelayVerifier.check _ _ _ _ _) as [v [[]|e]]; [|apply Hv].
    destruct (Hd v) as (out & es & E). by exists v, out, es.
Qed.

Lemma set_outgoing_id s : set_outgoing s (outgoing s) = s.
Proof. by destruct s. Qed.

(** What the relay part of a batch leaves alone. *)
Definition same_node (s s' : AppState) : Prop :=
  identity s' = identity s /\ connection_manager s' = connection_manager s /\ outgoing_open s' = outgoing_open s.

Lemma handle_same s m now : same_node s (handle_relay_message s m now).1.
Proof.
  destruct (handle_shape s m now) as (v & out & es & E). specialize (E (outgoing s)). rewrite set_outgoing_id in E. by rewrite E.
Qed.

Lemma handle_all_outgoing s l : exists out, forall q,
  handle_all (set_outgoing s q) l = (set_outgoing (handle_all s l).1 (q ++ out), (handle_all s l).2).
Proof.
  revert s. induction l as [|[m now] l IH]; intros s; [exists []; intros q; by rewrite app_nil_r|].
  destruct (handle_shape s m now) as (v & out & es & E). pose proof (E (outgoing s)) as E0. rewrite set_outgoing_id in E0.
  destruct (IH (set_verifier s v)) as [out' E']. exists (out ++ out'). intros q. cbn [handle_all]. rewrite E, E0.
  change (set_verifier (set_outgoing s (?a)) v) with (set_outgoing (set_verifier s v) a). rewrite !E'.
  destruct (handle_all (set_verifier s v) l). cbn. by rewrite app_assoc.
Qed.

Lemma send_all s l : outgoing_open s = true ->
  foldl (fun s p => (send_outgoing s p).1) s l = set_outgoing s (outgoing s ++ l).
Proof.
  revert s. induction l as [|p l IH]; intros s Ho; cbn [foldl]; [by rewrite app_nil_r, set_outgoing_id|].
  unfold send_outgoing at 2. rewrite Ho. cbn [fst]. rewrite IH by done. cbn [outgoing set_outgoing]. by rewrite <-app_assoc.
Qed.
End Facts.
End PumpFacts.

(** ** Theorems on the pump *)

Section PumpTheorems.
Import AppFacts PumpFacts.
Context `{Crypto}.

(** The relay messages of a batch with their clock, and the others with theirs. *)
Definition relay_part (items : list Item) : list (PeerMessage * Z) :=
  omap (fun it => if is_relay (msg it) then Some (msg it, unix it) else None) items.
Definition round_part (items : list Item) : list (Z * PeerMessage) :=
  omap (fun it => if is_relay (msg it) then None else Some (instant it, msg it)) items.

Lemma round_context_same x s e : same_node (app x) s -> round_context (with_app (with_engine x e) s) = round_context x.
Proof. intros (Hi & Hc & _). unfold round_context, App.known_keys. cbn. by rewrite Hi, Hc. Qed.

Lemma pump_batch_spec items x ctx :
  round_context x = Some ctx -> outgoing_open (app x) = true -> zlen (events (app x)) <= EVENT_CHANNEL_CAP ->
  let '(s, es) := handle_all (app x) (relay_part items) in
  let '(e, acts) := EngineFacts.incoming ctx (engine x) (round_part items) in
  if zlen (events (app x)) + zlen es <=? EVENT_CHANNEL_CAP then
    exists out, out ≡ₚ outgoing s ++ concat (snd <$> acts) /\
      pump_batch x items = Some (with_app (with_engine x e) (set_events (set_outgoing s out) (events (app x) ++ es)))
  else pump_batch x items = None.
Proof.
  revert x. induction items as [|it items IH]; intros x Hc Ho He.
  { cbn. unfold zlen at 2. cbn. rewrite Z.add_0_r, (proj2 (Z.leb_le _ _)) by done. exists (outgoing (app x)).
    rewrite !app_nil_r. split; [done|]. rewrite set_outgoing_id, set_events_id. by destruct x. }
  unfold relay_part, round_part. cbn [omap list_omap pump_batch]. unfold pump_one. destruct (is_relay (msg it)) eqn:Er.
  - fold (relay_part items) (round_part items). cbn [handle_all]. unfold pump_relay.
    pose proof (handle_same (app x) (msg it) (unix it)) as Hs. pose proof (handle_keeps_events (app x) (msg it) (unix it)) as Hev.
    destruct (handle_relay_message (app x) (msg it) (unix it)) as [s1 es1]. cbn [fst] in Hs, Hev.
    rewrite emit_all_spec, Hev by (by rewrite Hev).
    set (x1 := with_app x (set_events s1 (events (app x) ++ es1))).
    assert (round_context x1 = Some ctx) as Hc1 by (rewrite <-Hc; by apply (round_context_same x (set_events s1 _) (engine x))).
    specialize (IH x1 Hc1). destruct Hs as (_ & _ & Hop). specialize (IH ltac:(cbn; congruence)). cbn [x1 app with_app events set_events engine] in IH.
    rewrite handle_all_set_events in IH. destruct (handle_all s1 (relay_part items)) as [s2 es2]. cbn [fst snd] in IH.
    destruct (EngineFacts.incoming ctx (engine x) (round_part items)) as [e acts].
    rewrite zlen_app in *. pose proof (zlen_nonneg es1). pose proof (zlen_nonneg es2).
    destruct (Z.leb_spec (zlen (events (app x)) + zlen es1) EVENT_CHANNEL_CAP) as [Hf|Hf]; cbn [mbind option_bind].
    + specialize (IH Hf). rewrite Z.add_assoc in *. destruct (_ <=? _); [|exact IH].
      destruct IH as (out & Hp & E). exists out. split; [exact Hp|]. etransitivity; [exact E|]. by rewrite app_assoc.
    + by rewrite (proj2 (Z.leb_gt _ _)) by lia.
  - fold (relay_part items) (round_part items). rewrite Hc. cbn [EngineFacts.incoming].
    destruct (RoundEngine.handle_incoming (instant it) (engine x) (msg it) ctx) as [e1 [ev out1]] eqn:Eh.
    rewrite send_all by done. cbn [mbind option_bind].
    set (x1 := with_app (with_engine x e1) (set_outgoing (app x) (outgoing (app x) ++ out1))).
    assert (round_context x1 = Some ctx) as Hc1 by (rewrite <-Hc; by apply (round_context_same x (set_outgoing (app x) _) e1)).
    specialize (IH x1 Hc1 Ho He). cbn [x1 app with_app events set_outgoing engine with_engine] in IH.
    destruct (handle_all_outgoing (app x) (relay_part items)) as [out2 E2]. rewrite E2 in IH.
    specialize (E2 (outgoing (app x))). rewrite set_outgoing_id in E2.
    destruct (handle_all (app x) (relay_part items)) as [s es]. cbn [fst snd] in IH, E2.
    injection E2 as Es. assert (outgoing s = outgoing (app x) ++ out2) as Eo by (rewrite Es; done).
    destruct (EngineFacts.incoming ctx e1 (round_part items)) as [e acts].
    destruct (_ <=? _); [|exact IH]. destruct IH as (out & Hp & E). exists out. split; [|exact E].
    rewrite Hp. cbn [outgoing set_outgoing fmap list_fmap concat snd]. rewrite Eo. solve_Permutation.
Qed.

(** A turn of the incoming pump either serves its whole queue or stops in [emit]. When the events
    of the relayed messages fit the channel it returns with the queue empty: every round message went
    through the engine in order, every relay message through admission in order, and the outgoing queue
    got exactly what the two produced. *)
Theorem pump_serves_all x times ctx :
  round_context x = Some ctx -> outgoing_open (app x) = true -> zlen (events (app x)) <= EVENT_CHANNEL_CAP ->
  let items := imap (fun i p => mkItem p.1 p.2 (times i).1 (times i).2) (incoming x) in
  let '(s, es) := handle_all (app x) (relay_part items) in
  let '(e, acts) := EngineFacts.incoming ctx (engine x) (round_part items) in
  if zlen (events (app x)) + zlen es <=? EVENT_CHANNEL_CAP then
    exists x', incoming_pump x times = Some x' /\ incoming x' = [] /\ engine x' = e /\
      relay_verifier (app x') = relay_verifier s /\ events (app x') = events (app x) ++ es /\
      outgoing (app x') ≡ₚ outgoing s ++ concat (snd <$> acts)
  else incoming_pump x times = None.
Proof.
  intros Hc Ho He items. pose proof (pump_batch_spec items (with_incoming x []) ctx Hc Ho He) as Hp.
  cbn [app with_incoming engine] in Hp. destruct (handle_all (app x) (relay_part items)) as [s es].
  destruct (EngineFacts.incoming ctx (engine x) (round_part items)) as [e acts].
  destruct (_ <=? _); [|exact Hp]. destruct Hp as (out & Hp & E). eexists. split; [exact E|]. done.
Qed.
End PumpTheorems.

(** ** Theorems on start-up *)

Section StartTheorems.
Context `{Crypto, Json, StoreJson, DaemonJson}.

Lemma read_written `{!DaemonJsonLaws} d id : read_parsed id_of_json (identity_json (save_identity Written d id)) = Some id.
Proof.
  unfold save_identity, read_parsed. destruct (id_written id) as [j Ej]. rewrite Ej. cbn.
  by rewrite (id_utf8 _ _ Ej), (id_round_trip _ _ Ej).
Qed.

Lemma start_identity env d port :
  identity (app (start env d port).2) = (load_or_generate (se_write env) (se_seed env) (se_unix env) d "").2.
Proof. unfold start. by destruct (load_or_generate _ _ _ _ _). Qed.

Lemma start_dir env d port :
  (start env d port).1 = (load_or_generate (se_write env) (se_seed env) (se_unix env) d "").1.
Proof. unfold start. by destruct (load_or_generate _ _ _ _ _). Qed.

(** An identity that was written once stays: later starts, with other random draws, load it, and
    the shutdown of a running node writes it back with the web of trust, which a start restores with
    its own key. *)
Theorem identity_survives `{!DaemonJsonLaws} env env' d port port' e io :
  se_write env = Written ->
  let '(d1, x) := start env d port in
  identity (app (start env' d1 port').2) = identity (app x) /\
  let d2 := shutdown e Written Written d1 x in
  identity (app (start env' d2 port').2) = identity (app x) /\
  identity (app (start env' (shutdown e Written io d1 x) port').2) = identity (app x) /\
  wot (start env' d2 port').2 = WebOfTrust.add_own_key (WebOfTrust.invalidate_cache (wot x)) (PgpIdentity.from_identity (se_unix env') (identity (app x))).
Proof.
  intros Hw. pose proof (start_identity env d port) as Hi. pose proof (start_dir env d port) as Hd.
  destruct (start env d port) as [d1 x]. cbn [fst snd] in Hi, Hd.
  destruct (wot_written (wot x)) as [jw Ew].
  assert (read_parsed id_of_json (identity_json d1) = Some (identity (app x))) as Hr1.
  { rewrite Hd, Hi. unfold load_or_generate. destruct (read_parsed id_of_json (identity_json d)) as [id|] eqn:E; [exact E|].
    cbn [fst snd]. rewrite Hw. apply read_written. }
  assert (forall d2, read_parsed id_of_json (identity_json d2) = Some (identity (app x)) ->
    identity (app (start env' d2 port').2) = identity (app x)) as Hs.
  { intros d2 E2. rewrite start_identity. unfold load_or_generate. by rewrite E2. }
  assert (forall io, read_parsed id_of_json (identity_json (shutdown e Written io d1 x)) = Some (identity (app x))) as Hr2.
  { intros io'. unfold shutdown. rewrite Ew. cbn [identity_json set_wot_json]. apply read_written. }
  split; [by apply Hs|]. cbv zeta. split; [by apply Hs|]. split; [by apply Hs|].
  unfold start, load_or_generate. rewrite Hr2. cbn [wot]. unfold load_wot.
  assert (read_parsed wot_of_json (wot_json (shutdown e Written Written d1 x)) = Some (WebOfTrust.invalidate_cache (wot x))) as ->; [|done].
  unfold shutdown, read_parsed. rewrite Ew. cbn. by rewrite (wot_utf8 _ _ Ew), (wot_round_trip _ _ Ew).
Qed.

(** One life of a daemon on a data directory: its start, what it becomes while it runs, and, unless
    it is killed, its shutdown with the outcome of every file operation. *)
Record Life := mkLife {
  lf_env : StartEnv;
  lf_args : list string;
  lf_later : Daemon -> Daemon;
  lf_stop : option (Env * WriteIo * WriteIo);
}.

Definition live (d : DataDir) (f : Life) : DataDir :=
  let '(d, x) := start (lf_env f) d (parse_args 9000 (lf_args f)) in
  match lf_stop f with
  | None => d
  | Some (e, id_io, wot_io) => shutdown e id_io wot_io d (lf_later f x)
  end.

(** Nothing in the daemon changes its identity while it runs. *)
Definition keeps_identity (f : Life) : Prop := forall x, identity (app (lf_later f x)) = identity (app x).

(** A directory with no identity, or with one that has no name. *)
Definition nameless (d : DataDir) : Prop := forall id, read_parsed id_of_json (identity_json d) = Some id -> uid id = "".

Lemma save_nameless `{!DaemonJsonLaws} io d id : nameless d -> uid id = "" -> nameless (save_identity io d id).
Proof.
  intros Hd Hu id'. destruct io as [| |n]; [rewrite read_written; by intros [= <-]| |];
    unfold save_identity; destruct (id_written id) as [j Ej]; rewrite Ej; cbn [identity_json set_identity_json write_private_file fst].
  - apply Hd.
  - unfold read_parsed. cbn [mbind option_bind]. destruct (utf8_valid _); [|done]. destruct (decide (n < length (string_bytes j))%nat) as [Hn|Hn].
    + by rewrite (id_torn _ _ _ Ej Hn).
    + rewrite take_ge by lia. rewrite bytes_string_bytes, (id_round_trip _ _ Ej). by intros [= <-].
Qed.

Lemma start_nameless `{!DaemonJsonLaws} env d port : nameless d ->
  nameless (start env d port).1 /\ uid (identity (app (start env d port).2)) = "".
Proof.
  intros Hd. rewrite start_dir, start_identity. unfold load_or_generate. destruct (read_parsed id_of_json (identity_json d)) as [id|] eqn:E.
  - split; [done|]. by apply Hd.
  - split; [by apply save_nameless|done].
Qed.

Lemma live_nameless `{!DaemonJsonLaws} d f : keeps_identity f -> nameless d -> nameless (live d f).
Proof.
  intros Hf Hd. unfold live. destruct (start_nameless (lf_env f) d (parse_args 9000 (lf_args f)) Hd) as [Hd' Hu].
  destruct (start _ _ _) as [d' x]. cbn [fst snd] in *. destruct (lf_stop f) as [[[e io] io']|]; [|done].
  unfold shutdown. set (d1 := match F2fDcNetBridge.wal _ with Some _ => _ | None => _ end).
  assert (Hd1 : nameless d1) by (unfold d1; by destruct (F2fDcNetBridge.wal _)).
  assert (Hs : nameless (save_identity io d1 (identity (app (lf_later f x))))) by (apply save_nameless; [done|]; by rewrite Hf).
  destruct (wot_to_json _); [|done]. exact Hs.
Qed.

(** C18: a daemon that starts on a data directory without an identity has the empty uid, on its first start
    and on every later one, after any number of lives of the daemon on that directory, each ended
    by a crash or a shutdown and with its file operations succeeding or failing in any way. No node ever
    completes a handshake with it: both the challenge it sends and the response it gives are
    refused for their uid. *)
Theorem fresh_daemon_unreachable `{!DaemonJsonLaws, !JsonLaws} d lives env args d2 x auth :
  read_parsed id_of_json (identity_json d) = None -> Forall keeps_identity lives ->
  main env args (foldl live d lives) = Some (d2, x, auth) ->
  sa_uid auth = "" /\ uid (identity (app x)) = "" /\
  (forall peer known eph eph' nonce rest, fits (challenge auth eph nonce) ->
     (inbound_handshake peer known eph' (send_json [] (challenge auth eph nonce) ++ rest)).2 =
     Err (InvalidData "invalid challenger uid")) /\
  (forall peer known eph nonce key sig ephhex rest, fits (AuthResponse (sa_uid auth) key ephhex sig) ->
     (outbound_handshake peer known eph nonce (send_json [] (AuthResponse (sa_uid auth) key ephhex sig) ++ rest)).2 =
     Err (InvalidData "invalid responder uid")).
Proof.
  intros Hd HF. assert (Hn : nameless (foldl live d lives)).
  { assert (Hd0 : nameless d) by (intros id; congruence). clear Hd. revert d Hd0.
    induction HF as [|f lives Hf HF IH]; intros d Hd; [done|]. by apply IH, live_nameless. }
  unfold main. destruct (start_nameless env _ (parse_args 9000 args) Hn) as [_ Hu]. destruct (start env _ _) as [d3 x3]. cbn [snd] in Hu.
  unfold listener_auth. destruct (signing_key _); [|done]. cbn [mbind option_bind].
  intros [= <- <- <-]. cbn [sa_uid]. rewrite Hu. split; [done|]. split; [done|]. split.
  - intros. unfold inbound_handshake. rewrite recv_send_json by done. cbn. done.
  - intros. unfold outbound_handshake. rewrite recv_send_json by done. done.
Qed.
End StartTheorems.

(** ** Witnesses *)

Module DaemonWitness.
#[local] Existing Instances toy_crypto ToyJson.toy_json ToyStore.toy_store.

Definition id_enc (i : Identity) : string * string * string * Z := (uid i, secret_hex i, public_hex i, created i).
Definition id_dec (e : string * string * string * Z) : Identity := let '(a, b, c, d) := e in mkIdentity a b c d.

Definition pgp_enc (p : PgpIdentity) : string * string * string * Z :=
  match p with mkPgp a b c d => (a, b, c, d) end.
Definition pgp_dec (e : string * string * string * Z) : PgpIdentity := let '(a, b, c, d) := e in mkPgp a b c d.

Definition sig_enc (s : TrustSignature) : string * string * Z * Z * list Z :=
  match s with mkTrustSig a b c d e => (a, b, c, d, e) end.
Definition sig_dec (e : string * string * Z * Z * list Z) : TrustSignature :=
  let '(a, b, c, d, f) := e in mkTrustSig a b c d f.

Definition wot_enc (w : WebOfTrust.t) :=
  ((prod_map id pgp_enc <$> map_to_list (WebOfTrust.keys w), sig_enc <$> WebOfTrust.signatures w),
   (elements (WebOfTrust.own_fingerprints w), elements (WebOfTrust.trusted_introducers w)),
   prod_map id TrustLevel.to_i32 <$> map_to_list (WebOfTrust.manual_overrides w)).

Definition wot_dec (e : (list (string * (string * string * string * Z)) * list (string * string * Z * Z * list Z)) *
    (list string * list string) * list (string * Z)) : WebOfTrust.t :=
  let '((ks, sg), (own, intro), man) := e in
  WebOfTrust.mk (list_to_map (prod_map id pgp_dec <$> ks)) (sig_dec <$> sg) (list_to_set own) (list_to_set intro)
    (list_to_map (prod_map id TrustLevel.from_i32 <$> man)) ∅ false.

Definition toy_daemon : DaemonJson := {|
  id_json i := Some (ToyStore.closed (encode (id_enc i)));
  id_of_json s := p ← ToyStore.unclosed s; id_dec <$> decode p;
  wot_to_json w := Some (ToyStore.closed (encode (wot_enc w)));
  wot_of_json s := p ← ToyStore.unclosed s; wot_dec <$> decode p;
|}.

Lemma map_roundtrip {A B} (f : A -> B) (g : B -> A) (m : gmap string A) :
  (forall a, g (f a) = a) -> list_to_map (prod_map id g <$> (prod_map id f <$> map_to_list m)) = m.
Proof.
  intros Hg. rewrite <-list_fmap_compose. rewrite <-(list_to_map_to_list m) at 2. f_equal.
  rewrite <-(list_fmap_id (map_to_list m)) at 2. apply list_fmap_ext. intros i [k a] _. cbn. by rewrite Hg.
Qed.

Lemma toy_daemon_laws : @DaemonJsonLaws toy_daemon.
Proof.
  split; cbn [id_json id_of_json wot_to_json wot_of_json toy_daemon].
  - by eexists.
  - intros i j [= <-]. rewrite ToyStore.unclosed_closed. cbn. rewrite decode_encode. by destruct i.
  - intros i j [= <-]. apply ToyStore.closed_utf8.
  - intros i j n [= <-] Hn. by rewrite ToyStore.unclosed_torn.
  - by eexists.
  - intros w j [= <-]. rewrite ToyStore.unclosed_closed. cbn [mbind option_bind]. rewrite decode_encode. cbn [fmap option_fmap option_map].
    unfold wot_dec, wot_enc, WebOfTrust.invalidate_cache. f_equal. f_equal.
    + apply map_roundtrip. by intros [].
    + rewrite <-list_fmap_compose. rewrite <-(list_fmap_id (WebOfTrust.signatures w)) at 2. apply list_fmap_ext. by intros ? [] _.
    + apply leibniz_equiv, list_to_set_elements.
    + apply leibniz_equiv, list_to_set_elements.
    + apply map_roundtrip. by intros [].
  - intros w j [= <-]. apply ToyStore.closed_utf8.
Qed.
#[local] Existing Instances toy_daemon toy_daemon_laws.

Definition start_env (seed : Z) : StartEnv :=
  mkStart (be_bytes 32 seed) (fun _ => zeros 32) (fun _ => zeros 32) 1000 0 Written true Transport.Direct.

Definition tick : Env := mkEnv 0 0 Appended io_fine.

(** A second start, with another seed, has the first start's key. *)
Lemma identity_survives_witness :
  identity (app (start (start_env 6) (start (start_env 5) empty_dir 9000).1 9000).2) = generate "" (be_bytes 32 5) 1000.
Proof. exact (proj1 (identity_survives (start_env 5) (start_env 6) empty_dir 9000 9000 tick Written eq_refl)). Defined.

(** A first life whose identity file is torn, a second that is killed, and the start after them. *)
Definition lives : list Life :=
  [mkLife (mkStart (be_bytes 32 5) (fun _ => zeros 32) (fun _ => zeros 32) 1000 0 (Partly 4) true Transport.Direct) [] (fun x => x) None;
   mkLife (start_env 6) [] (fun x => x) None].

Lemma fresh_daemon_unreachable_witness :
  exists d2 x auth, main (start_env 7) ["--port"; "9001"] (foldl live empty_dir lives) = Some (d2, x, auth) /\ sa_uid auth = "".
Proof.
  destruct (main (start_env 7) ["--port"; "9001"] (foldl live empty_dir lives)) as [[[d2 x] auth]|] eqn:E; [|vm_compute in E; discriminate].
  exists d2, x, auth. split; [reflexivity|].
  assert (HF : Forall keeps_identity lives) by (repeat constructor).
  destruct (fresh_daemon_unreachable empty_dir lives (start_env 7) ["--port"; "9001"] d2 x auth eq_refl HF E) as [Hu _]. exact Hu.
Defined.

(** A node with a relayed message to pass on and a round to take part in. *)
Definition busy : Daemon :=
  mkDaemon (AppWitness.connected "carol" 7 "bob")
    (F2fDcNetBridge.set_friends (F2fDcNetBridge.new "carol") {["bob" := F2fDcNetBridge.friend_new (be_bytes 32 9) "bob" "" 1]})
    (RoundEngine.new 0 "carol") WebOfTrust.new Transport.Direct
    [("alice", relay_message (AppWitness.letter "bob" 1 8));
     ("bob", DcRoundStart "#main" 1 "bob" ["bob"; "carol"] 30 64)].

Definition at_1010 (_ : nat) : Z * Z := (1010, 0).

Lemma pump_serves_all_witness :
  exists x', incoming_pump busy at_1010 = Some x' /\ incoming x' = [] /\ length (outgoing (app x')) = 2%nat.
Proof.
  destruct (round_context busy) as [ctx|] eqn:Ec; [|vm_compute in Ec; discriminate].
  pose proof (pump_serves_all busy at_1010 ctx Ec eq_refl ltac:(by vm_compute)) as Hp. vm_compute in Ec. injection Ec as <-. cbv zeta in Hp.
  destruct (handle_all _ _) as [s es] eqn:Eh. destruct (EngineFacts.incoming _ _ _) as [e acts] eqn:Ei.
  assert (length (outgoing s) = 1%nat /\ length es = 0%nat) as [Hs He] by (vm_compute in Eh; by injection Eh as <- <-).
  assert (length (concat (snd <$> acts)) = 1%nat) as Ha by (vm_compute in Ei; by injection Ei as <- <-).
  destruct es; [|done]. destruct Hp as (x' & E & Hq & _ & _ & _ & Ho). exists x'. split; [exact E|]. split; [exact Hq|].
  rewrite Ho, length_app, Hs, Ha. reflexivity.
Defined.

End DaemonWitness.
