(* ===== verification/Legacy.v ===== *)
(** Operations the daemon keeps but does not call itself: the store of earlier versions at the end of
    [storage.rs], shareable identities ([export] and [import] of [pgp/mod.rs]), [keepalive_frame] of
    [net/tcp.rs], the report of [ConnectionManager::debug_info], and the start of the console in
    [web.rs]. serde's JSON of the types is the class [LegacyJson]. *)

From S2P Require Import Prelude Crypto Identity Text Wire WebOfTrust Session ConnectionManager App Storage WebConsole.

(** ** The store of earlier versions *)

Record FriendEntry := mkFriendEntry { fe_uid : string; fe_addr : string; fe_trust_level : Z }.
Record MessageEntry := mkMessageEntry { me_from : string; me_to : string; me_text : string; me_ts : Z }.

Record SocialState := mkSocial {
  so_uid : string;
  so_addr : string;
  so_friends : list FriendEntry;
  so_messages : list MessageEntry;
}.

(** [to_string_pretty] and [from_str]. *)
Class LegacyJson := {
  social_json : SocialState -> string;
  social_of_json : string -> option SocialState;
  pgp_json : PgpIdentity -> option string;
  pgp_of_json : string -> result PgpIdentity string;
}.

(** An object is closed by its brace: no proper prefix of its text parses. *)
Class LegacyJsonLaws `{LegacyJson} : Prop := {
  social_round_trip s : social_of_json (social_json s) = Some s;
  social_utf8 s : utf8_valid (string_bytes (social_json s)) = true;
  social_closed s n : (n < length (string_bytes (social_json s)))%nat ->
    social_of_json (bytes_string (take n (string_bytes (social_json s)))) = None;
  pgp_written p : is_Some (pgp_json p);
  pgp_round_trip p j : pgp_json p = Some j -> pgp_of_json j = Ok p;
}.

Section Legacy.
Context `{LegacyJson}.

(** [file] is [social_state.json]; [fs::write] empties it before it writes. *)
Definition save_social_state (io : WriteIo) (file : option string) (state : SocialState) : option string * result unit string :=
  write_private_file io file (social_json state).

Definition load_social_state (file : option string) : option SocialState :=
  json ← file; if utf8_valid (string_bytes json) then social_of_json json else None.

(** [unwrap_or_default]. *)
Definition export (p : PgpIdentity) : string := default "" (pgp_json p).

Definition import (data : string) : result PgpIdentity string :=
  match pgp_of_json data with
  | Ok p => Ok p
  | Err e => Err ("Invalid identity data: " +:+ e)
  end.

End Legacy.

(** ** Keepalives *)

(** [random] is what [OsRng] fills in. *)
Definition keepalive_frame (random : bytes) : bytes := take (Z.to_nat PADDED_SIZE) random.

(** ** The report of the connection manager *)

(** [lines.join] with a line feed. *)
Fixpoint join_lines (lines : list string) : string :=
  match lines with
  | [] => ""
  | [l] => l
  | l :: rest => l +:+ String (Ascii.ascii_of_nat 10) (join_lines rest)
  end.

(** The lines before they are joined. [now] is the clock in nanoseconds, [show] the debug form of the
    addresses. *)
Definition debug_lines (show : list string -> string) (now : Z) (c : ConnectionManager) (conns : gmap string PeerWriter) : list string :=
  [ "=== Connection Manager ==="; "Listen port: " +:+ fmt (ConnectionManager.listen_port c);
    "Active connections: " +:+ fmt (Z.of_nat (size conns)) +:+ " | Known peers: " +:+
      fmt (Z.of_nat (size (ConnectionManager.known_peers c))) ] ++
  (if bool_decide (conns = ∅) then []
   else "  Connected to:" :: ((fun uid => "    " +:+ uid) <$> (map_to_list conns).*1)) ++
  (if bool_decide (ConnectionManager.known_peers c = ∅) then []
   else "  Known peers:" ::
     ((fun p => "    " +:+ p.1 +:+ " (last seen: " +:+ fmt (Z.max 0 (now - last_seen p.2) / 10 ^ 9) +:+
                "s ago, addrs: " +:+ show (addresses p.2) +:+ ")") <$> map_to_list (ConnectionManager.known_peers c))).

Definition debug_info (show : list string -> string) (now : Z) (c : ConnectionManager) : string :=
  match ConnectionManager.active_connections c with
  | None => "=== Connection Manager === (map poisoned)"
  | Some conns => join_lines (debug_lines show now c conns)
  end.

(** ** The start of the console *)

(** The token the handler threads get, and their slots; [None] when the console does not start
    because the state is poisoned or the address cannot be bound. *)
Definition start_web_console (state : option AppState) (token_file : option bytes) (random : bytes) (bound : bool) :
    option (bytes * Slots) :=
  match state with
  | None => None
  | Some _ =>
      let token := web_token token_file random in
      if bound then Some (token, slots_init) else None
  end.

(** ** Properties *)

Section LegacyTheorems.
Context `{LegacyJson, !LegacyJsonLaws}.

(** The store of earlier versions is not safe against a crash. A state that was written in full is read
    back, a write that could not begin leaves the old one; but a write that stops anywhere before its
    end leaves neither the old state nor the new one. *)
Theorem legacy_store_torn file state io :
  load_social_state (save_social_state io file state).1 =
    match io with
    | Written => Some state
    | NotOpened => load_social_state file
    | Partly n => if (length (string_bytes (social_json state)) <=? n)%nat then Some state else None
    end.
Proof.
  assert (Hw : load_social_state (Some (social_json state)) = Some state).
  { unfold load_social_state. cbn. by rewrite social_utf8, social_round_trip. }
  unfold save_social_state, write_private_file. destruct io as [| |n]; cbn [fst]; [exact Hw|done|].
  destruct (Nat.leb_spec (length (string_bytes (social_json state))) n).
  - by rewrite take_ge, bytes_string_bytes.
  - unfold load_social_state. cbn [mbind option_bind]. rewrite social_closed by done. by case_match.
Qed.

(** A shared identity is read back as it was. *)
Theorem identity_shared p : import (export p) = Ok p.
Proof. unfold import, export. destruct (pgp_written p) as [j Ej]. rewrite Ej. cbn. by rewrite (pgp_round_trip _ _ Ej). Qed.

End LegacyTheorems.

(** A keepalive is a frame without content: what [pad_frame] makes of nothing with the same random
    bytes, and of the same length as every padded frame. *)
Theorem keepalive_is_padding random : PADDED_SIZE <= zlen random ->
  pad_frame [] random = Ok (keepalive_frame random) /\ zlen (keepalive_frame random) = PADDED_SIZE /\
  forall payload padded, pad_frame payload random = Ok padded -> zlen padded = zlen (keepalive_frame random).
Proof.
  intros Hr. assert (Hk : zlen (keepalive_frame random) = PADDED_SIZE).
  { unfold zlen, keepalive_frame, PADDED_SIZE in *. rewrite length_take. lia. }
  split; [done|]. split; [exact Hk|]. intros payload padded. unfold pad_frame. destruct (_ >? _) eqn:E; [done|]. intros [= <-].
  rewrite Hk. unfold zlen, PADDED_SIZE in *. rewrite length_take, length_app. lia.
Qed.

(** The report names every connection: one line per active connection and per known peer, and three
    lines and two captions besides. *)
Theorem debug_lines_complete show now c conns :
  (forall u, is_Some (conns !! u) -> "    " +:+ u ∈ debug_lines show now c conns) /\
  zlen (debug_lines show now c conns) =
    3 + (if bool_decide (conns = ∅) then 0 else 1 + Z.of_nat (size conns)) +
    (if bool_decide (ConnectionManager.known_peers c = ∅) then 0 else 1 + Z.of_nat (size (ConnectionManager.known_peers c))).
Proof.
  unfold debug_lines. split.
  - intros u [w Hw]. rewrite !elem_of_app. right. left.
    rewrite bool_decide_eq_false_2 by (intros ->; by rewrite lookup_empty in Hw). right. apply list_elem_of_fmap. exists u. split; [done|].
    apply list_elem_of_fmap. exists (u, w). split; [done|]. by apply elem_of_map_to_list.
  - rewrite !zlen_app. assert (Hm : forall A B (f : string * A -> B) (m : gmap string A), zlen (f <$> map_to_list m) = Z.of_nat (size m)).
    { intros. unfold zlen. by rewrite length_fmap, length_map_to_list. }
    assert (Hc : zlen ((fun uid => "    " +:+ uid) <$> (map_to_list conns).*1) = Z.of_nat (size conns))
      by (rewrite <-list_fmap_compose; apply Hm).
    change (zlen (_ :: _ :: _ :: [])) with 3. do 2 case_bool_decide; rewrite ?zlen_cons, ?Hm, ?Hc; unfold zlen; cbn [length]; lia.
Qed.

(** The console starts only on a sound state and a bound address, with no handler running; a token
    file that is empty or cannot be read gives a fresh token. *)
Theorem console_start state file random bound token slots :
  start_web_console state file random bound = Some (token, slots) ->
  is_Some state /\ bound = true /\ slots = slots_init /\
  (default [] (trim <$> file) = [] -> token = hex_encode_bytes random).
Proof.
  unfold start_web_console. destruct state; [|done]. destruct bound; [|done]. intros [= <- <-]. split_and!; try done.
  unfold web_token, generate_web_token. destruct file as [x|]; [|done]. cbn. intros E. by rewrite E.
Qed.

(** ** Witnesses *)

Module LegacyWitness.

Definition social_enc (s : SocialState) :=
  (so_uid s, so_addr s, (fun f => (fe_uid f, fe_addr f, fe_trust_level f)) <$> so_friends s,
   (fun m => (me_from m, me_to m, me_text m, me_ts m)) <$> so_messages s).
Definition social_dec (e : string * string * list (string * string * Z) * list (string * string * string * Z)) : SocialState :=
  let '(u, a, fs, ms) := e in
  mkSocial u a ((fun f => mkFriendEntry f.1.1 f.1.2 f.2) <$> fs) ((fun m => mkMessageEntry m.1.1.1 m.1.1.2 m.1.2 m.2) <$> ms).

Definition toy_legacy : LegacyJson := {|
  social_json s := ToyStore.closed (encode (social_enc s));
  social_of_json t := p ← ToyStore.unclosed t; social_dec <$> decode p;
  pgp_json i := Some (ToyStore.closed (encode (user_id i, public_key_hex i, WebOfTrust.pgp_fingerprint i, pgp_created i)));
  pgp_of_json t :=
    match (p ← ToyStore.unclosed t; decode p) with
    | Some (a, b, c, d) => Ok (mkPgp a b c d)
    | None => Err "expected an object"
    end;
|}.

Lemma toy_legacy_laws : @LegacyJsonLaws toy_legacy.
Proof.
  split; cbn [social_json social_of_json pgp_json pgp_of_json toy_legacy].
  - intros [u a fs ms]. rewrite ToyStore.unclosed_closed. cbn [mbind option_bind]. rewrite decode_encode. cbn.
    rewrite <-!list_fmap_compose. do 2 f_equal; [rewrite <-(list_fmap_id fs) at 2|rewrite <-(list_fmap_id ms) at 2]; apply list_fmap_ext; by intros ? [].
  - intros s. apply ToyStore.closed_utf8.
  - intros s n Hn. by rewrite ToyStore.unclosed_torn.
  - intros p. by eexists.
  - intros p j [= <-]. rewrite ToyStore.unclosed_closed. cbn [mbind option_bind]. rewrite decode_encode. by destruct p.
Qed.
#[local] Existing Instances toy_legacy toy_legacy_laws.

Definition old_state : SocialState := mkSocial "alice" "10.0.0.1:9000" [mkFriendEntry "bob" "10.0.0.2:9000" 2] [].
Definition new_state : SocialState := mkSocial "alice" "10.0.0.1:9000" [] [mkMessageEntry "alice" "bob" "hi" 5].

(** The write of the new state stops after ten bytes, and the old one is gone as well. *)
Lemma legacy_store_torn_witness :
  let file := (save_social_state Written None old_state).1 in
  load_social_state file = Some old_state /\ load_social_state (save_social_state (Partly 10) file new_state).1 = None.
Proof.
  split; [exact (legacy_store_torn None old_state Written)|].
  etransitivity; [apply legacy_store_torn|]. vm_compute. reflexivity.
Defined.

Lemma keepalive_is_padding_witness : zlen (keepalive_frame (zeros 2000)) = 1024.
Proof. apply (keepalive_is_padding (zeros 2000)). vm_compute. discriminate. Defined.

Lemma console_start_witness :
  exists token, start_web_console (Some WebWitness.node) (Some (lit " ")) (be_bytes 32 7) true = Some (token, slots_init) /\
    token = hex_encode_bytes (be_bytes 32 7).
Proof.
  eexists. split; [reflexivity|].
  apply (console_start (Some WebWitness.node) (Some (lit " ")) (be_bytes 32 7) true _ slots_init eq_refl). reflexivity.
Defined.

End LegacyWitness.
