(* ===== verification/Ffi.v ===== *)
(** [ffi.rs] and [parser.rs]: the C interface. Entry points work on addresses of a memory that C and
    Rust share; [None] is undefined behaviour (an access to an address that is not there, a release of
    something that was not allocated so).

    [blocks] are the allocations Rust has handed out and not got back. The bridge behind
    [APP_STATE_PTR] is the one of [F2f]; [serde_json] is an interface. Addresses of new blocks come
    from a counter. *)

From S2P Require Import Prelude Crypto Identity Text Wire Group Storage F2f LocalBroadcast.

Definition MAX_FFI_BUF : Z := 1024 * 1024.
Definition MAX_JSON_CSTR_BYTES : nat := Z.to_nat (64 * 1024).
Definition MAX_JSON_INPUT : Z := 1024 * 1024.

(** ** Memory *)

Abbreviation memory := (gmap Z Z).

Fixpoint get (m : memory) (p : Z) (n : nat) : option bytes :=
  match n with
  | O => Some []
  | S n => b ← m !! p; r ← get m (p + 1) n; Some (b :: r)
  end.

Fixpoint put (m : memory) (p : Z) (bs : bytes) : memory :=
  match bs with
  | [] => m
  | b :: r => <[p := b]> (put m (p + 1) r)
  end.

Fixpoint del (m : memory) (p : Z) (n : nat) : memory :=
  match n with
  | O => m
  | S n => delete p (del m (p + 1) n)
  end.

(** A write through a pointer of the caller: every address must be there. *)
Definition write (m : memory) (p : Z) (bs : bytes) : option memory :=
  _ ← get m p (length bs); Some (put m p bs).

(** The bytes before the first NUL; the scan ends at a NUL or at a missing address, so it is never
    longer than the memory. *)
Fixpoint scan (fuel : nat) (m : memory) (p : Z) : option bytes :=
  match fuel with
  | O => None
  | S fuel => b ← m !! p; if b =? 0 then Some [] else r ← scan fuel m (p + 1); Some (b :: r)
  end.

(** [CStr::from_ptr(p).to_bytes()]. *)
Definition c_bytes (m : memory) (p : Z) : option bytes := scan (S (size m)) m p.

Inductive Kind := Bytes | CStr.

#[export] Instance Kind_eq_dec : EqDecision Kind.
Proof. solve_decision. Defined.

(** What [APP_STATE_PTR] points at. *)
Inductive AppPtr := NullState | Poisoned | Live (b : F2fDcNetBridge.t).

Record World := mkWorld {
  mem : memory;
  blocks : gmap Z (Kind * nat);
  next : Z;
  app_state : AppPtr;
}.

Definition set_mem (w : World) (m : memory) : World := mkWorld m (blocks w) (next w) (app_state w).
Definition set_app (w : World) (a : AppPtr) : World := mkWorld (mem w) (blocks w) (next w) a.

Definition null : Z := 0.

(** A new block with its content. A boxed slice without bytes is not allocated: its pointer dangles at
    the alignment. *)
Definition alloc (w : World) (k : Kind) (bs : bytes) : World * Z :=
  if bool_decide (bs = []) then (w, 1)
  else (mkWorld (put (mem w) (next w) bs) (<[next w := (k, length bs)]> (blocks w)) (next w + zlen bs) (app_state w), next w).

(** [CString::new(s).unwrap_or_default().into_raw()]: empty when there is a NUL inside. *)
Definition into_raw (w : World) (s : bytes) : World * Z :=
  alloc w CStr ((if bool_decide (0 ∈ s) then [] else s) ++ [0]).

(** A [u32] in memory. *)
Definition le_bytes4 (z : Z) : bytes := rev (be_bytes 4 (wrap32 z)).

(** ** [parser.rs] *)

Record JsonValue := mkJsonValue { raw : string }.

(** [serde_json]: parsing a value and printing it, and the texts of the results. *)
Class FfiJson := {
  json_value : string -> option string;
  uids_of_json : string -> option (list string);
  strings_json : list string -> string;
  changes_json : list (string * Z) -> string;
  status_json : Z * Z * Z * string * string -> string;
  channel_json : (string * string * Z * Z * bool * Z * bool) + string -> string;
}.

Definition parse_json `{FfiJson} (input : string) : option JsonValue :=
  if MAX_JSON_INPUT <? slen input then None else mkJsonValue <$> json_value input.

(** The escapes of [serde_json]'s strings. *)
Definition escape_byte (b : Z) : bytes :=
  if b =? 34 then [92; 34]
  else if b =? 92 then [92; 92]
  else if b =? 8 then [92; 98]
  else if b =? 9 then [92; 116]
  else if b =? 10 then [92; 110]
  else if b =? 12 then [92; 102]
  else if b =? 13 then [92; 114]
  else if b <? 32 then [92; 117; 48; 48; hex_digit (b / 16); hex_digit (b mod 16)]
  else [b].

Definition escape_json (input : bytes) : bytes := 34 :: concat (escape_byte <$> input) ++ [34].

(** ** Strings from C *)

(** The loop of [bounded_c_str]: [Some None] when no NUL was met. *)
Fixpoint scan_bounded (max : nat) (m : memory) (p : Z) : option (option bytes) :=
  match max with
  | O => Some None
  | S max =>
      b ← m !! p;
      if b =? 0 then Some (Some [])
      else r ← scan_bounded max m (p + 1); Some (match r with Some l => Some (b :: l) | None => None end)
  end.

Definition bounded_c_str (m : memory) (p : Z) (max : nat) : option (option string) :=
  if p =? null then Some None
  else r ← scan_bounded max m p; Some (bs ← r; from_utf8 bs).

Definition safe_c_str (m : memory) (p : Z) : option (option string) :=
  if p =? null then Some None else bs ← c_bytes m p; Some (from_utf8 bs).

(** The macro [c_str!]. *)
Definition c_str (m : memory) (p : Z) : option string := s ← safe_c_str m p; Some (default EmptyString s).

(** ** Status reports of the bridge *)

Definition list_channels (b : F2fDcNetBridge.t) : list string := (map_to_list (F2fDcNetBridge.channels b)).*1.

Definition group_status (b : F2fDcNetBridge.t) : Z * Z * Z * string * string :=
  (Z.of_nat (size (F2fDcNetBridge.friends b)),
   zlen (filter (fun f => F2fDcNetBridge.min_trust b <= trust_level f) (map_to_list (F2fDcNetBridge.friends b)).*2),
   Z.of_nat (size (F2fDcNetBridge.channels b)),
   default "none" (F2fDcNetBridge.current_channel b),
   F2fDcNetBridge.my_uid b).

Definition channel_status (b : F2fDcNetBridge.t) (name : string) : (string * string * Z * Z * bool * Z * bool) + string :=
  match F2fDcNetBridge.channels b !! name, F2fDcNetBridge.groups b !! name with
  | Some ch, Some g =>
      inl (ch_name ch, topic ch, zlen (ch_participants ch), DcGroup.size g, DcGroup.is_healthy g, ch_round_id ch, running ch)
  | _, _ => inr ("channel not found: " +:+ name)
  end.

(** ** Entry points *)

Section Ffi.
Context `{Crypto, StoreJson, FfiJson}.

(** The block a cipher's result becomes, with its length at [out_len]. *)
Definition return_bytes (w : World) (out_len : Z) (r : option bytes) : option (World * Z) :=
  match r with
  | Some bs =>
      m ← write (mem w) out_len (le_bytes4 (zlen bs));
      Some (alloc (set_mem w m) Bytes bs)
  | None => Some (w, null)
  end.

Definition rust_encrypt_e2e (nonce : bytes) (w : World) (plaintext plaintext_len key out_len : Z) : option (World * Z) :=
  if (plaintext =? null) || (key =? null) || (out_len =? null) then Some (w, null)
  else if (plaintext_len =? 0) || (65536 <? plaintext_len) then Some (w, null)
  else
    pt ← get (mem w) plaintext (Z.to_nat plaintext_len);
    karr ← get (mem w) key 32;
    return_bytes w out_len (encrypt_e2e nonce pt karr).

Definition rust_decrypt_e2e (w : World) (enc enc_len key out_len : Z) : option (World * Z) :=
  if (enc =? null) || (key =? null) || (out_len =? null) then Some (w, null)
  else if (enc_len =? 0) || (65536 <? enc_len) then Some (w, null)
  else
    e ← get (mem w) enc (Z.to_nat enc_len);
    karr ← get (mem w) key 32;
    return_bytes w out_len (decrypt_e2e e karr).

(** [drawn] are the random bytes. *)
Definition rust_secure_random (drawn : nat -> bytes) (w : World) (buf len : Z) : option (World * Z) :=
  if (buf =? null) || (MAX_FFI_BUF <? len) then Some (w, -1)
  else m ← write (mem w) buf (take (Z.to_nat len) (drawn (Z.to_nat len))); Some (set_mem w m, 0).

Definition rust_constant_time_eq (w : World) (a al b bl : Z) : option (World * Z) :=
  if (a =? null) || (b =? null) then Some (w, 0)
  else
    x ← get (mem w) a (Z.to_nat al); y ← get (mem w) b (Z.to_nat bl);
    Some (w, if constant_time_eq x y then 1 else 0).

Definition rust_parse_json (w : World) (i : Z) : option (World * Z) :=
  if i =? null then Some (w, null)
  else
    s ← bounded_c_str (mem w) i MAX_JSON_CSTR_BYTES;
    match s with
    | Some s => match parse_json s with Some _ => Some (into_raw w (string_bytes "ok")) | None => Some (w, null) end
    | None => Some (w, null)
    end.

Definition rust_escape_json (w : World) (i : Z) : option (World * Z) :=
  if i =? null then Some (w, null)
  else
    bs ← c_bytes (mem w) i;
    let s := if utf8_valid bs then bs else [] in
    Some (into_raw w (escape_json s)).

Definition rust_validate_utf8 (w : World) (d l : Z) : option (World * Z) :=
  if d =? null then Some (w, 0)
  else bs ← get (mem w) d (Z.to_nat l); Some (w, if utf8_valid bs then 1 else 0).

(** [Box::from_raw] of a slice: the layout must be the one of the allocation; a slice without bytes has
    no allocation. *)
Definition rust_free_bytes (w : World) (p l : Z) : option World :=
  if p =? null then Some w
  else if l =? 0 then Some w
  else
    match blocks w !! p with
    | Some (Bytes, n) =>
        if bool_decide (Z.of_nat n = l) then Some (mkWorld (del (mem w) p n) (delete p (blocks w)) (next w) (app_state w)) else None
    | _ => None
    end.

(** [CString::from_raw] takes the length of the string as it is now; it must be the allocated one. *)
Definition rust_free_string (w : World) (p : Z) : option World :=
  if p =? null then Some w
  else
    bs ← c_bytes (mem w) p;
    match blocks w !! p with
    | Some (CStr, n) =>
        if bool_decide (n = S (length bs)) then Some (mkWorld (del (mem w) p n) (delete p (blocks w)) (next w) (app_state w)) else None
    | _ => None
    end.

Definition rust_secure_clear (w : World) (p l : Z) : option World :=
  if negb (p =? null) && (l <=? MAX_FFI_BUF) then
    old ← get (mem w) p (Z.to_nat l); m ← write (mem w) p (secure_clear old); Some (set_mem w m)
  else Some w.

Definition ffi_set_app_state (w : World) (a : AppPtr) : World := set_app w a.

(** [f2f_or!] on an operation of the bridge: the default when the pointer is null or the lock
    poisoned. The operation itself may read memory. *)
Definition with_bridge {A} (w : World) (f : F2fDcNetBridge.t -> option (F2fDcNetBridge.t * A)) (dflt : A) : option (World * A) :=
  match app_state w with
  | Live b => '(b, r) ← f b; Some (set_app w (Live b), r)
  | _ => Some (w, dflt)
  end.

(** ... that answers with a string. *)
Definition with_bridge_text (w : World) (f : F2fDcNetBridge.t -> option (F2fDcNetBridge.t * string)) : option (World * Z) :=
  '(w, r) ← with_bridge w (fun b => '(b, s) ← f b; Some (b, Some s)) None;
  match r with
  | Some s => Some (into_raw w (string_bytes s))
  | None => Some (w, null)
  end.

Definition b2i (b : bool) : Z := if b then 1 else 0.

Definition rust_f2f_init (w : World) (my_uid : Z) : World * Z := (w, 0).

(** [e] is the bridge's clock and log, [key] the edge key drawn. *)
Definition rust_f2f_add_friend (e : Env) (key : bytes) (w : World) (uid addr tl : Z) : option (World * Z) :=
  if (uid =? null) || (addr =? null) then Some (w, -1)
  else with_bridge w (fun b =>
    u ← c_str (mem w) uid; a ← c_str (mem w) addr; Some (F2fDcNetBridge.add_friend e key b u a tl, 0)) (-1).

Definition rust_f2f_remove_friend (e : Env) (w : World) (uid : Z) : option (World * Z) :=
  if uid =? null then Some (w, -1)
  else with_bridge w (fun b => u ← c_str (mem w) uid; Some (F2fDcNetBridge.remove_friend e b u, 0)) (-1).

Definition rust_f2f_update_trust (e : Env) (w : World) (uid tl : Z) : option (World * Z) :=
  if uid =? null then Some (w, -1)
  else with_bridge w (fun b => u ← c_str (mem w) uid; Some (F2fDcNetBridge.update_trust e b u tl, 0)) (-1).

Definition rust_f2f_form_group (e : Env) (w : World) : option (World * Z) :=
  with_bridge_text w (fun b =>
    let b := (F2fDcNetBridge.create_channel e b "#main").1 in Some (b, strings_json (list_channels b))).

Definition rust_f2f_is_trusted (w : World) (uid : Z) : option (World * Z) :=
  if uid =? null then Some (w, 0)
  else with_bridge w (fun b => u ← c_str (mem w) uid; Some (b, b2i (F2fDcNetBridge.is_trusted b u))) 0.

Definition rust_f2f_get_trust (w : World) (uid : Z) : option (World * Z) :=
  if uid =? null then Some (w, 0)
  else with_bridge w (fun b => u ← c_str (mem w) uid; Some (b, F2fDcNetBridge.get_trust b u)) 0.

Definition rust_f2f_sync_reputation (now : Z) (w : World) : option (World * Z) :=
  with_bridge_text w (fun b =>
    let '(b, c) := LocalRound.sync_reputation_to_trust now b in Some (b, changes_json c)).

(** The default is a text here. *)
Definition rust_f2f_group_status (w : World) : option (World * Z) :=
  let q := bytes_string [34] in
  '(w, s) ← with_bridge w (fun b => Some (b, status_json (group_status b)))
              ("{" +:+ q +:+ "error" +:+ q +:+ ":" +:+ q +:+ "not_initialized" +:+ q +:+ "}");
  Some (into_raw w (string_bytes s)).

Definition rust_f2f_create_channel (e : Env) (w : World) (name : Z) : option (World * Z) :=
  if name =? null then Some (w, -1)
  else with_bridge w (fun b =>
    n ← c_str (mem w) name; let '(b, r) := F2fDcNetBridge.create_channel e b n in Some (b, b2i r)) (-1).

Definition rust_f2f_join_channel (e : Env) (w : World) (ch uids_json : Z) : option (World * Z) :=
  if (ch =? null) || (uids_json =? null) then Some (w, null)
  else
    j ← c_str (mem w) uids_json;
    let uids := default [] (uids_of_json j) in
    with_bridge_text w (fun b =>
      c ← c_str (mem w) ch;
      let '(b, joined) := F2fDcNetBridge.join_channel e b c uids in Some (b, strings_json joined)).

Definition rust_f2f_leave_channel (e : Env) (w : World) (name : Z) : option (World * Z) :=
  if name =? null then Some (w, -1)
  else with_bridge w (fun b => n ← c_str (mem w) name; Some (F2fDcNetBridge.leave_channel e b n, 0)) (-1).

(** The default is the empty list. *)
Definition rust_f2f_list_channels (w : World) : option (World * Z) :=
  '(w, l) ← with_bridge w (fun b => Some (b, list_channels b)) [];
  Some (into_raw w (string_bytes (strings_json l))).

Definition rust_f2f_channel_status (w : World) (name : Z) : option (World * Z) :=
  if name =? null then Some (w, null)
  else with_bridge_text w (fun b => n ← c_str (mem w) name; Some (b, channel_json (channel_status b n))).

Definition rust_f2f_switch_channel (w : World) (name : Z) : option (World * Z) :=
  if name =? null then Some (w, -1)
  else with_bridge w (fun b =>
    n ← c_str (mem w) name; let '(b, r) := F2fDcNetBridge.switch_channel b n in Some (b, b2i r)) (-1).

End Ffi.

(** ** Lemmas on memory *)

Module FfiFacts.

Lemma get_mapped m p n : is_Some (get m p n) <-> forall a, p <= a < p + Z.of_nat n -> is_Some (m !! a).
Proof.
  revert p. induction n as [|n IH]; intros p; cbn [get]; [split; [intros; lia|by eexists]|]. split.
  - intros [x E] a Ha. destruct (m !! p) as [b|] eqn:Eb; [|done]. cbn [mbind option_bind] in E.
    destruct (get m (p + 1) n) as [r|] eqn:Er; [|done].
    destruct (decide (a = p)) as [->|Hn]; [by eexists|]. apply (IH (p + 1)); [by eexists|lia].
  - intros Hm. destruct (Hm p ltac:(lia)) as [b ->]. cbn [mbind option_bind].
    destruct (proj2 (IH (p + 1))) as [r ->]; [intros a Ha; apply Hm; lia|]. by eexists.
Qed.

Lemma get_length m p n bs : get m p n = Some bs -> length bs = n.
Proof.
  revert p bs. induction n as [|n IH]; intros p bs; cbn [get]; [by intros [= <-]|].
  destruct (m !! p); [|done]. cbn [mbind option_bind]. destruct (get m (p + 1) n) eqn:E; [|done]. intros [= <-]. cbn. f_equal. by eapply IH.
Qed.

Lemma put_outside m p bs a : ~ p <= a < p + zlen bs -> put m p bs !! a = m !! a.
Proof.
  revert p. induction bs as [|b bs IH]; intros p Ha; [done|]. rewrite zlen_cons in Ha. cbn [put]. pose proof (zlen_nonneg bs).
  rewrite lookup_insert_ne by lia. apply IH. lia.
Qed.

Lemma put_inside m p bs a : p <= a < p + zlen bs -> is_Some (put m p bs !! a).
Proof.
  revert p. induction bs as [|b bs IH]; intros p Ha; [unfold zlen in Ha; cbn in Ha; lia|]. rewrite zlen_cons in Ha. cbn [put].
  destruct (decide (a = p)) as [->|Hn]; [rewrite lookup_insert_eq; by eexists|]. rewrite lookup_insert_ne by lia. apply IH. lia.
Qed.

Lemma del_lookup m p n a : del m p n !! a = if decide (p <= a < p + Z.of_nat n) then None else m !! a.
Proof.
  revert p. induction n as [|n IH]; intros p; cbn [del]; [by rewrite decide_False by lia|].
  destruct (decide (a = p)) as [->|Hn].
  - rewrite lookup_delete_eq. by rewrite decide_True by lia.
  - rewrite lookup_delete_ne, IH by done. repeat case_decide; try done; lia.
Qed.

Lemma get_ext m m' p n : (forall a, p <= a < p + Z.of_nat n -> m' !! a = m !! a) -> get m' p n = get m p n.
Proof.
  revert p. induction n as [|n IH]; intros p Hm; [done|]. cbn [get]. rewrite Hm by lia. destruct (m !! p); [|done].
  cbn [mbind option_bind]. rewrite IH; [done|]. intros a Ha. apply Hm. lia.
Qed.

Lemma get_put m p bs : get (put m p bs) p (length bs) = Some bs.
Proof.
  revert m p. induction bs as [|b bs IH]; intros m p; [done|]. cbn [get put length]. rewrite lookup_insert_eq. cbn [mbind option_bind].
  rewrite (get_ext (put m (p + 1) bs)); [by rewrite IH|]. intros a Ha. rewrite lookup_insert_ne by lia. done.
Qed.

Lemma del_put m p bs : (forall a, p <= a < p + zlen bs -> m !! a = None) -> del (put m p bs) p (length bs) = m.
Proof.
  intros Hm. apply map_eq. intros a. rewrite del_lookup. case_decide; [symmetry; by apply Hm|]. by apply put_outside.
Qed.

(** A write changes no address's presence. *)
Lemma write_mapped m p bs m' : write m p bs = Some m' -> forall a, is_Some (m' !! a) <-> is_Some (m !! a).
Proof.
  unfold write. destruct (get m p (length bs)) as [old|] eqn:E; [|done]. cbn [mbind option_bind]. intros [= <-] a.
  destruct (decide (p <= a < p + zlen bs)) as [Ha|Ha]; [|by rewrite put_outside].
  pose proof (proj1 (get_mapped m p (length bs)) ltac:(by eexists) a ltac:(unfold zlen in Ha; lia)). split; [done|]. intros _. by apply put_inside.
Qed.

(** ** Ownership *)

(** Every block is in memory, and blocks do not overlap; new addresses are beyond all of them. *)
Record wf (w : World) : Prop := {
  wf_mem a : is_Some (mem w !! a) -> 0 < a < next w;
  wf_next : 1 < next w;
  wf_block p k n : blocks w !! p = Some (k, n) -> 1 < p /\ (0 < n)%nat /\ is_Some (get (mem w) p n);
  wf_apart p k n q k' n' : blocks w !! p = Some (k, n) -> blocks w !! q = Some (k', n') -> p <> q ->
    p + Z.of_nat n <= q \/ q + Z.of_nat n' <= p;
}.

(** A new block with its content, at an address that was free. *)
Definition grows (w w' : World) (k : Kind) (p : Z) (bs : bytes) : Prop :=
  1 < p /\ bs <> [] /\ blocks w !! p = None /\ blocks w' = <[p := (k, length bs)]> (blocks w) /\ get (mem w') p (length bs) = Some bs.

(** What a call that answers with a string returns: null, or a new NUL-terminated block. *)
Definition returns_text (w w' : World) (p : Z) : Prop :=
  p = null /\ blocks w' = blocks w \/ exists s, 0 ∉ s /\ grows w w' CStr p (s ++ [0]).

(** What a cipher returns: null, or a new block with its length at [out]; an empty result has no block
    and the length 0. *)
Definition returns_buffer (w w' : World) (out p : Z) : Prop :=
  p = null /\ blocks w' = blocks w \/
  exists bs, get (mem w') out 4 = Some (le_bytes4 (zlen bs)) /\ zlen bs < 2 ^ 32 /\
    (bs = [] /\ p = 1 /\ blocks w' = blocks w \/ grows w w' Bytes p bs).

Lemma wf_set_mem w m : wf w -> (forall a, is_Some (m !! a) <-> is_Some (mem w !! a)) -> wf (set_mem w m).
Proof.
  intros [H1 H2 H3 H4] Hm. split; cbn [mem next blocks set_mem]; [|done| |done].
  - intros a Ha. by apply H1, Hm.
  - intros p k n Hp. destruct (H3 p k n Hp) as (Hp0 & Hn & Hg). split; [done|]. split; [done|]. rewrite get_mapped in *. intros a Ha.
    by apply Hm, Hg.
Qed.

Lemma wf_set_app w a : wf w -> wf (set_app w a).
Proof. intros [H1 H2 H3 H4]. by split. Qed.

Lemma block_below w p k n : wf w -> blocks w !! p = Some (k, n) -> p + Z.of_nat n <= next w.
Proof.
  intros Hw Hp. destruct (wf_block w Hw _ _ _ Hp) as (_ & Hn & Hg). rewrite get_mapped in Hg.
  pose proof (wf_mem w Hw _ (Hg (p + Z.of_nat n - 1) ltac:(lia))). lia.
Qed.

Lemma next_free w : wf w -> blocks w !! next w = None.
Proof.
  intros Hw. destruct (blocks w !! next w) as [[k' n']|] eqn:E; [|done]. pose proof (block_below w _ _ _ Hw E).
  destruct (wf_block w Hw _ _ _ E) as (_ & ? & _). lia.
Qed.

(** A new block does not touch what is in memory. *)
Lemma get_below w p n bs bs' : wf w -> get (mem w) p n = Some bs -> get (put (mem w) (next w) bs') p n = Some bs.
Proof.
  intros Hw Hg. rewrite <-Hg. apply get_ext. intros a Ha. apply put_outside.
  pose proof (proj1 (get_mapped (mem w) p n) ltac:(by eexists) a Ha) as Hm. apply (wf_mem w Hw) in Hm. lia.
Qed.

Lemma alloc_ok w k bs w' p : wf w -> alloc w k bs = (w', p) ->
  wf w' /\ (bs = [] /\ p = 1 /\ w' = w \/ grows w w' k p bs /\ mem w' = put (mem w) (next w) bs).
Proof.
  intros Hw. unfold alloc. case_bool_decide as Hb; [intros [= <- <-]; split; [done|by left]|]. intros [= <- <-].
  assert (0 < zlen bs) as Hz by (unfold zlen; destruct bs; [done|cbn; lia]).
  pose proof (wf_next w Hw) as Hn. pose proof (next_free w Hw) as Hf. pose proof (get_put (mem w) (next w) bs) as Hg.
  split; [|right; split; [|done]; by repeat split]. split; cbn [mem next blocks].
  - intros a Ha. destruct (decide (next w <= a < next w + zlen bs)); [lia|]. rewrite put_outside in Ha by done. apply (wf_mem w Hw) in Ha. lia.
  - lia.
  - intros q k' n' Hq. destruct (decide (q = next w)) as [->|Hne].
    + rewrite lookup_insert_eq in Hq. injection Hq as <- <-. split; [done|]. split; [unfold zlen in Hz; lia|by eexists].
    + rewrite lookup_insert_ne in Hq by done. destruct (wf_block w Hw _ _ _ Hq) as (? & ? & x & Hgq). split; [done|]. split; [done|].
      exists x. by apply get_below.
  - intros q k' n' r k'' n'' Hq Hr Hne.
    destruct (decide (q = next w)) as [->|Hq1], (decide (r = next w)) as [->|Hr1]; try done;
      rewrite ?lookup_insert_eq in *; rewrite ?lookup_insert_ne in * by done.
    + pose proof (block_below w _ _ _ Hw Hr). lia.
    + pose proof (block_below w _ _ _ Hw Hq). lia.
    + by apply (wf_apart w Hw q k' n' r k'' n'').
Qed.

Lemma into_raw_ok w s w' p : wf w -> into_raw w s = (w', p) -> wf w' /\ returns_text w w' p.
Proof.
  intros Hw E. destruct (alloc_ok _ _ _ _ _ Hw E) as [Hw' [(Hn & _)|[Hg _]]]; [by destruct (bool_decide (0 ∈ s)), s|].
  split; [done|right]. eexists. split; [|exact Hg]. case_bool_decide; [apply not_elem_of_nil|done].
Qed.

(** Releasing a block leaves the others. *)
Lemma free_ok w p k n : wf w -> blocks w !! p = Some (k, n) ->
  wf (mkWorld (del (mem w) p n) (delete p (blocks w)) (next w) (app_state w)).
Proof.
  intros Hw Hp. split; cbn [mem next blocks].
  - intros a. rewrite del_lookup. case_decide; [by intros []|]. apply (wf_mem w Hw).
  - apply (wf_next w Hw).
  - intros q k' n' Hq. apply lookup_delete_Some in Hq as [Hne Hq]. destruct (wf_block w Hw _ _ _ Hq) as (? & ? & Hg).
    split; [done|]. split; [done|]. erewrite get_ext; [exact Hg|]. intros a Ha. rewrite del_lookup, decide_False; [done|].
    destruct (wf_apart w Hw p k n q k' n' Hp Hq Hne); lia.
  - intros q k' n' r k'' n'' [_ Hq]%lookup_delete_Some [_ Hr]%lookup_delete_Some. by apply (wf_apart w Hw q k' n' r k'' n'').
Qed.

End FfiFacts.

Module StringFacts.
Import FfiFacts.

Lemma get_size m p n : is_Some (get m p n) -> (n <= size m)%nat.
Proof.
  rewrite get_mapped. intros Hm. rewrite <-size_dom.
  assert (size (list_to_set (seqZ p (Z.of_nat n)) : gset Z) = n) as <-.
  { rewrite size_list_to_set by apply NoDup_seqZ. rewrite length_seqZ. lia. }
  apply subseteq_size. intros a Ha%elem_of_list_to_set%elem_of_seqZ. by apply elem_of_dom, Hm.
Qed.

Lemma scan_spec fuel m p s : (length s < fuel)%nat -> get m p (S (length s)) = Some (s ++ [0]) -> 0 ∉ s -> scan fuel m p = Some s.
Proof.
  revert fuel p. induction s as [|b s IH]; intros [|fuel] p Hf Hg Hs; cbn [length] in *; try lia; cbn [get scan] in *.
  - destruct (m !! p) as [x|]; [|done]. cbn in Hg. injection Hg as ->. done.
  - destruct (m !! p) as [x|]; [|done]. cbn [mbind option_bind] in *.
    destruct (y ← m !! (p + 1); r ← get m (p + 1 + 1) (length s); Some (y :: r)) as [r|] eqn:E; [|done].
    cbn [mbind option_bind] in Hg. injection Hg as -> ->. apply not_elem_of_cons in Hs as [Hb Hs].
    rewrite (proj2 (Z.eqb_neq b 0)) by congruence. rewrite (IH fuel (p + 1)); [done|lia|exact E|done].
Qed.

(** What C sees of a string in memory. *)
Lemma c_bytes_spec m p s : get m p (S (length s)) = Some (s ++ [0]) -> 0 ∉ s -> c_bytes m p = Some s.
Proof.
  intros Hg Hs. apply scan_spec; [|done|done]. pose proof (get_size m p (S (length s)) ltac:(by eexists)). lia.
Qed.

Lemma zlen_le_bytes4 z : zlen (le_bytes4 z) = 4.
Proof. unfold le_bytes4, zlen. rewrite length_rev, length_be_bytes. done. Qed.

Lemma write_some m p bs : is_Some (get m p (length bs)) -> write m p bs = Some (put m p bs).
Proof. intros [old E]. unfold write. by rewrite E. Qed.

Lemma mapped_pos w p n bs : wf w -> get (mem w) p n = Some bs -> (0 < n)%nat -> 0 < p.
Proof.
  intros Hw Hg Hn. pose proof (proj1 (get_mapped (mem w) p n) ltac:(by eexists) p ltac:(lia)) as Hp. apply (wf_mem w Hw) in Hp. lia.
Qed.

End StringFacts.

(** ** Calls from C *)

Inductive call :=
| Encrypt (nonce : bytes) (plaintext plaintext_len key out_len : Z)
| Decrypt (enc enc_len key out_len : Z)
| SecureRandom (drawn : nat -> bytes) (buf len : Z)
| ConstantTimeEq (a al b bl : Z)
| ParseJson (i : Z)
| EscapeJson (i : Z)
| ValidateUtf8 (d l : Z)
| FreeBytes (p l : Z)
| FreeString (p : Z)
| SecureClear (p l : Z)
| SetAppState (a : AppPtr)
| F2fInit (uid : Z)
| F2fAddFriend (e : Env) (key : bytes) (uid addr tl : Z)
| F2fRemoveFriend (e : Env) (uid : Z)
| F2fUpdateTrust (e : Env) (uid tl : Z)
| F2fFormGroup (e : Env)
| F2fIsTrusted (uid : Z)
| F2fGetTrust (uid : Z)
| F2fSyncReputation (now : Z)
| F2fGroupStatus
| F2fCreateChannel (e : Env) (name : Z)
| F2fJoinChannel (e : Env) (ch uids_json : Z)
| F2fLeaveChannel (e : Env) (name : Z)
| F2fListChannels
| F2fChannelStatus (name : Z)
| F2fSwitchChannel (name : Z).

Section Calls.
Import FfiFacts StringFacts.
Context `{Crypto, StoreJson, FfiJson}.

Definition exec (w : World) (c : call) : option (World * Z) :=
  match c with
  | Encrypt n p l k o => rust_encrypt_e2e n w p l k o
  | Decrypt p l k o => rust_decrypt_e2e w p l k o
  | SecureRandom d b l => rust_secure_random d w b l
  | ConstantTimeEq a al b bl => rust_constant_time_eq w a al b bl
  | ParseJson i => rust_parse_json w i
  | EscapeJson i => rust_escape_json w i
  | ValidateUtf8 d l => rust_validate_utf8 w d l
  | FreeBytes p l => w ← rust_free_bytes w p l; Some (w, 0)
  | FreeString p => w ← rust_free_string w p; Some (w, 0)
  | SecureClear p l => w ← rust_secure_clear w p l; Some (w, 0)
  | SetAppState a => Some (ffi_set_app_state w a, 0)
  | F2fInit u => Some (rust_f2f_init w u)
  | F2fAddFriend e k u a t => rust_f2f_add_friend e k w u a t
  | F2fRemoveFriend e u => rust_f2f_remove_friend e w u
  | F2fUpdateTrust e u t => rust_f2f_update_trust e w u t
  | F2fFormGroup e => rust_f2f_form_group e w
  | F2fIsTrusted u => rust_f2f_is_trusted w u
  | F2fGetTrust u => rust_f2f_get_trust w u
  | F2fSyncReputation now => rust_f2f_sync_reputation now w
  | F2fGroupStatus => rust_f2f_group_status w
  | F2fCreateChannel e n => rust_f2f_create_channel e w n
  | F2fJoinChannel e c u => rust_f2f_join_channel e w c u
  | F2fLeaveChannel e n => rust_f2f_leave_channel e w n
  | F2fListChannels => rust_f2f_list_channels w
  | F2fChannelStatus n => rust_f2f_channel_status w n
  | F2fSwitchChannel n => rust_f2f_switch_channel w n
  end.

(** What C may rely on after a call: what the result is and which blocks there are. *)
Definition ownership (w : World) (c : call) (w' : World) (r : Z) : Prop :=
  match c with
  | Encrypt _ _ _ _ out | Decrypt _ _ _ out => returns_buffer w w' out r
  | ParseJson _ | EscapeJson _ | F2fFormGroup _ | F2fSyncReputation _ | F2fGroupStatus | F2fJoinChannel _ _ _
  | F2fListChannels | F2fChannelStatus _ => returns_text w w' r
  | FreeBytes p l => blocks w' = if (p =? null) || (l =? 0) then blocks w else delete p (blocks w)
  | FreeString p => blocks w' = if p =? null then blocks w else delete p (blocks w)
  | _ => blocks w' = blocks w
  end.

(** Nonces have 12 bytes. *)
Definition call_ok (c : call) : Prop := match c with Encrypt n _ _ _ _ => length n = 12%nat | _ => True end.

Lemma return_bytes_ok w o r w' p : wf w -> (forall bs, r = Some bs -> zlen bs < 2 ^ 32) ->
  return_bytes w o r = Some (w', p) -> wf w' /\ returns_buffer w w' o p.
Proof.
  intros Hw Hr. unfold return_bytes. destruct r as [bs|]; [|intros [= <- <-]; split; [done|by left]].
  destruct (write (mem w) o (le_bytes4 (zlen bs))) as [m|] eqn:E; [|done]. cbn [mbind option_bind].
  destruct (alloc (set_mem w m) Bytes bs) as [w1 p1] eqn:Ea. intros [= <- <-].
  assert (Hwm : wf (set_mem w m)) by (apply wf_set_mem; [done|by eapply write_mapped]).
  assert (Ho : get (mem (set_mem w m)) o 4 = Some (le_bytes4 (zlen bs))).
  { unfold write in E. destruct (get (mem w) o _); [|done]. cbn in E. injection E as <-. cbn [mem set_mem].
    exact (get_put (mem w) o (le_bytes4 (zlen bs))). }
  destruct (alloc_ok _ _ _ _ _ Hwm Ea) as [Hw1 [(Hb & Hp & ->)|[Hg Hm]]]; (split; [done|right; exists bs]).
  - split; [done|]. split; [by apply Hr|by left].
  - rewrite Hm. split; [by apply get_below|]. split; [by apply Hr|by right].
Qed.

Lemma with_bridge_ok {A} w f (d : A) w' r : wf w -> with_bridge w f d = Some (w', r) -> wf w' /\ blocks w' = blocks w.
Proof.
  intros Hw. unfold with_bridge. destruct (app_state w); [by intros [= <- <-]|by intros [= <- <-]|].
  destruct (f b) as [[b' r']|]; [|done]. intros [= <- <-]. split; [by apply wf_set_app|done].
Qed.

Lemma returns_text_via w w1 w2 p : blocks w1 = blocks w -> returns_text w1 w2 p -> returns_text w w2 p.
Proof. unfold returns_text, grows. by intros ->. Qed.

Lemma with_bridge_raw {A} w (f : F2fDcNetBridge.t -> option (F2fDcNetBridge.t * A)) d (g : A -> bytes) w' r :
  wf w -> ('(w, x) ← with_bridge w f d; Some (into_raw w (g x))) = Some (w', r) -> wf w' /\ returns_text w w' r.
Proof.
  intros Hw. destruct (with_bridge w f d) as [[w1 x]|] eqn:E; [|done]. cbn [mbind option_bind]. intros [= E2].
  apply with_bridge_ok in E as [Hw1 Eb]; [|done]. apply into_raw_ok in E2 as [Hw2 Ho]; [|done]. split; [done|].
  by eapply returns_text_via.
Qed.

Lemma with_bridge_text_ok w f w' r : wf w -> with_bridge_text w f = Some (w', r) -> wf w' /\ returns_text w w' r.
Proof.
  intros Hw. unfold with_bridge_text. destruct (with_bridge w _ _) as [[w1 x]|] eqn:E; [|done]. cbn [mbind option_bind].
  apply with_bridge_ok in E as [Hw1 Eb]; [|done]. destruct x as [s|]; intros [= E2].
  - apply into_raw_ok in E2 as [Hw2 Ho]; [|done]. split; [done|]. by eapply returns_text_via.
  - subst. split; [done|by left].
Qed.

Lemma set_mem_ok w p bs m : wf w -> write (mem w) p bs = Some m -> wf (set_mem w m) /\ blocks (set_mem w m) = blocks w.
Proof. intros Hw E. split; [|done]. apply wf_set_mem; [done|]. by eapply write_mapped. Qed.

(** The ciphers stay within the length C is told. *)
Lemma encrypt_fits `{!AesLaws} nonce pt key bs : length nonce = 12%nat -> zlen pt <= 65536 -> encrypt_e2e nonce pt key = Some bs -> zlen bs < 2 ^ 32.
Proof.
  unfold encrypt_e2e. intros Hn Hp E. destruct (aes_encrypt key nonce pt) as [c|] eqn:Ec; [|done]. injection E as <-.
  rewrite zlen_app, (aes_tag _ _ _ _ Ec). unfold zlen at 1. lia.
Qed.

Lemma decrypt_fits `{!AesLaws} enc key bs : zlen enc <= 65536 -> decrypt_e2e enc key = Some bs -> zlen bs < 2 ^ 32.
Proof.
  unfold decrypt_e2e. intros Hp E. destruct (zlen enc <? 28); [done|]. apply aes_unique, aes_tag in E.
  unfold zlen in *. rewrite length_drop in E. lia.
Qed.

(** Discharges a call that ends in one of the lemmas above. *)
Ltac settle :=
  match goal with
  | |- Some (?w, _) = Some _ -> _ => intros [= <- <-]; split; [done|first [done|by left]]
  | |- Some (into_raw _ _) = Some _ -> _ => let E := fresh in intros E; apply (inj Some) in E; by eapply into_raw_ok
  | |- with_bridge _ _ _ = Some _ -> _ => by apply with_bridge_ok
  | |- with_bridge_text _ _ = Some _ -> _ => by apply with_bridge_text_ok
  end.

(** Case on the next test or memory access. *)
Ltac advance :=
  match goal with
  | |- (if ?b then _ else _) = _ -> _ => destruct b
  | |- (mbind _ ?o) = _ -> _ => destruct o eqn:?; cbn [mbind option_bind]; [|done]
  | |- match ?o with _ => _ end = _ -> _ => destruct o eqn:?
  end.

Lemma ciphers_ok `{!AesLaws} w c w' r : wf w -> call_ok c -> exec w c = Some (w', r) ->
  match c with Encrypt _ _ _ _ _ | Decrypt _ _ _ _ => wf w' /\ ownership w c w' r | _ => True end.
Proof.
  intros Hw Hc. destruct c; try done; cbn [exec ownership call_ok] in *; unfold rust_encrypt_e2e, rust_decrypt_e2e;
    (destruct (_ || _ || _); [settle|]);
    (destruct ((_ =? 0) || (65536 <? _)) eqn:El; [settle|]); apply orb_false_iff in El as [_ El%Z.ltb_ge]; do 2 advance;
    apply return_bytes_ok; try done; intros bs;
    match goal with Hg : get _ _ (Z.to_nat _) = Some _ |- _ => apply get_length in Hg end;
    [apply encrypt_fits; [done|]|apply decrypt_fits]; unfold zlen; lia.
Qed.

Lemma releases_ok w c w' r : wf w -> exec w c = Some (w', r) ->
  match c with FreeBytes _ _ | FreeString _ | SecureClear _ _ => wf w' /\ ownership w c w' r | _ => True end.
Proof.
  intros Hw. destruct c; try done; cbn [exec ownership].
  - unfold rust_free_bytes. destruct (Z.eqb_spec p null); cbn [orb mbind option_bind]; [settle|].
    destruct (Z.eqb_spec l 0); cbn [mbind option_bind]; [settle|].
    destruct (blocks w !! p) as [[[] n']|] eqn:Eb; [|done..]. case_bool_decide; [|done]. cbn [mbind option_bind]. intros [= <- <-].
    split; [by eapply free_ok|done].
  - unfold rust_free_string. destruct (Z.eqb_spec p null); cbn [mbind option_bind]; [settle|].
    destruct (c_bytes (mem w) p) as [bs|]; [|done]. cbn [mbind option_bind]. destruct (blocks w !! p) as [[[] n']|] eqn:Eb; [done| |done].
    case_bool_decide; [|done]. cbn [mbind option_bind]. intros [= <- <-]. split; [by eapply free_ok|done].
  - unfold rust_secure_clear. destruct (_ && _); cbn [mbind option_bind]; [|settle].
    destruct (get (mem w) p (Z.to_nat l)) as [old|]; [|done]. cbn [mbind option_bind].
    destruct (write (mem w) p _) as [m|] eqn:Ew; [|done]. cbn [mbind option_bind]. intros [= <- <-]. by eapply set_mem_ok.
Qed.

Lemma exec_ok `{!AesLaws} w c w' r : wf w -> call_ok c -> exec w c = Some (w', r) -> wf w' /\ ownership w c w' r.
Proof.
  intros Hw Hc E. pose proof (ciphers_ok w c w' r Hw Hc E) as Hcip. pose proof (releases_ok w c w' r Hw E) as Hrel.
  destruct c; try assumption; clear Hcip Hrel; revert E; cbn [exec ownership];
    unfold rust_secure_random, rust_constant_time_eq, rust_parse_json, rust_escape_json,
      rust_validate_utf8, rust_f2f_add_friend, rust_f2f_remove_friend, rust_f2f_update_trust, rust_f2f_form_group,
      rust_f2f_is_trusted, rust_f2f_get_trust, rust_f2f_sync_reputation, rust_f2f_create_channel, rust_f2f_join_channel,
      rust_f2f_leave_channel, rust_f2f_channel_status, rust_f2f_switch_channel, rust_f2f_init, ffi_set_app_state;
    try (repeat first [settle | advance]; fail).
  - repeat first [settle | advance]. intros [= <- <-]. by eapply set_mem_ok.
  - intros [= <- <-]. split; [by apply wf_set_app|done].
  - unfold rust_f2f_group_status. cbv zeta. by apply (with_bridge_raw w _ _ string_bytes).
  - unfold rust_f2f_list_channels. by apply (with_bridge_raw w _ _ (fun l => string_bytes (strings_json l))).
Qed.

(** A sequence of calls with their results. *)
Fixpoint calls (w : World) (l : list call) : option (World * list Z) :=
  match l with
  | [] => Some (w, [])
  | c :: l => '(w, r) ← exec w c; '(w, rs) ← calls w l; Some (w, r :: rs)
  end.

(** The addresses C has to release, counted from the calls and their results alone: what was returned,
    null and the empty buffer apart, and not yet given back. *)
Definition ledger (owed : gset Z) (x : call * Z) : gset Z :=
  match x.1 with
  | Encrypt _ _ _ _ _ | Decrypt _ _ _ _ | ParseJson _ | EscapeJson _ | F2fFormGroup _ | F2fSyncReputation _ | F2fGroupStatus
  | F2fJoinChannel _ _ _ | F2fListChannels | F2fChannelStatus _ => if 1 <? x.2 then {[x.2]} ∪ owed else owed
  | FreeBytes p l => if (p =? null) || (l =? 0) then owed else owed ∖ {[p]}
  | FreeString p => if p =? null then owed else owed ∖ {[p]}
  | _ => owed
  end.

(** A result can be read as far as C is told, and the release that goes with it takes it back, once. *)
Definition returnable (w : World) (c : call) (w' : World) (r : Z) : Prop :=
  match c with
  | Encrypt _ _ _ _ out | Decrypt _ _ _ out =>
      exists bs w2, get (mem w') out 4 = Some (le_bytes4 (zlen bs)) /\ zlen bs < 2 ^ 32 /\ get (mem w') r (length bs) = Some bs /\
        rust_free_bytes w' r (zlen bs) = Some w2 /\ blocks w2 = blocks w /\ (bs <> [] -> rust_free_bytes w2 r (zlen bs) = None)
  | ParseJson _ | EscapeJson _ | F2fFormGroup _ | F2fSyncReputation _ | F2fGroupStatus | F2fJoinChannel _ _ _
  | F2fListChannels | F2fChannelStatus _ =>
      exists s w2, c_bytes (mem w') r = Some s /\ rust_free_string w' r = Some w2 /\ blocks w2 = blocks w /\ rust_free_string w2 r = None
  | _ => True
  end.

Lemma buffer_returnable w w' out r : r <> null -> returns_buffer w w' out r ->
  exists bs w2, get (mem w') out 4 = Some (le_bytes4 (zlen bs)) /\ zlen bs < 2 ^ 32 /\ get (mem w') r (length bs) = Some bs /\
    rust_free_bytes w' r (zlen bs) = Some w2 /\ blocks w2 = blocks w /\ (bs <> [] -> rust_free_bytes w2 r (zlen bs) = None).
Proof.
  intros Hr [[? _]|(bs & Ho & Hl & [(-> & -> & Hb)|(H1r & Hbs & Hf & Hb & Hg)])]; [done| |].
  - exists [], w'. split_and!; done.
  - assert (0 < zlen bs) by (unfold zlen; destruct bs; [done|cbn; lia]). exists bs. unfold rust_free_bytes.
    rewrite !(proj2 (Z.eqb_neq _ _)) by (done || lia). rewrite Hb, lookup_insert_eq, bool_decide_true by done.
    eexists. split_and!; [done|done|done|done|cbn; by rewrite delete_insert_id|]. intros _. cbn [blocks]. by rewrite lookup_delete_eq.
Qed.

Lemma text_returnable w w' r : r <> null -> returns_text w w' r ->
  exists s w2, c_bytes (mem w') r = Some s /\ rust_free_string w' r = Some w2 /\ blocks w2 = blocks w /\ rust_free_string w2 r = None.
Proof.
  intros Hr [[? _]|(s & Hs & H1r & _ & Hf & Hb & Hg)]; [done|]. rewrite length_app, Nat.add_1_r in Hg, Hb.
  pose proof (c_bytes_spec _ _ _ Hg Hs) as Hc. exists s. unfold rust_free_string.
  rewrite (proj2 (Z.eqb_neq _ _)), Hc by done. cbn [mbind option_bind]. rewrite Hb, lookup_insert_eq, bool_decide_true by done.
  eexists. split_and!; [done|done|cbn; by rewrite delete_insert_id|]. cbn [mem blocks].
  destruct (c_bytes (del _ _ _) r); [|done]. cbn [mbind option_bind]. by rewrite lookup_delete_eq.
Qed.

Lemma ledger_step w c w' r : ownership w c w' r -> dom (blocks w') = ledger (dom (blocks w)) (c, r).
Proof.
  assert (Hg : forall k bs, grows w w' k r bs -> dom (blocks w') = if 1 <? r then {[r]} ∪ dom (blocks w) else dom (blocks w)).
  { intros k bs (Hr & _ & _ & -> & _). rewrite (proj2 (Z.ltb_lt _ _)) by done. by rewrite dom_insert_L. }
  assert (Hbuf : forall o, returns_buffer w w' o r -> dom (blocks w') = if 1 <? r then {[r]} ∪ dom (blocks w) else dom (blocks w))
    by (intros o [[-> ->]|(bs & _ & _ & [(_ & -> & ->)|?])]; eauto).
  assert (Htxt : returns_text w w' r -> dom (blocks w') = if 1 <? r then {[r]} ∪ dom (blocks w) else dom (blocks w))
    by (intros [[-> ->]|(s & _ & ?)]; eauto).
  destruct c; cbn [ownership ledger fst snd]; eauto; try (by intros ->); intros ->.
  - destruct (_ || _); [done|apply dom_delete_L].
  - destruct (p =? null); [done|apply dom_delete_L].
Qed.

Lemma calls_ledger `{!AesLaws} w l w' rs : wf w -> Forall call_ok l -> calls w l = Some (w', rs) ->
  wf w' /\ dom (blocks w') = foldl ledger (dom (blocks w)) (zip l rs).
Proof.
  revert w rs. induction l as [|c l IH]; intros w rs Hw Hl; cbn [calls]; [by intros [= <- <-]|].
  apply Forall_cons in Hl as [Hc Hl]. destruct (exec w c) as [[w1 r]|] eqn:E; [|done]. cbn [mbind option_bind].
  destruct (calls w1 l) as [[w2 rs']|] eqn:El; [|done]. cbn [mbind option_bind]. intros [= <- <-].
  destruct (exec_ok _ _ _ _ Hw Hc E) as [Hw1 Ho]. cbn [zip zip_with foldl]. rewrite <-(ledger_step _ _ _ _ Ho). by apply IH.
Qed.


(** A buffer that was handed out can be released with the reported length, once: the release gives
    back the memory as it was before, and a second one, or one with another length, is undefined. *)
Theorem release_exact w bs :
  wf w -> bs <> [] ->
  let '(w1, p) := alloc w Bytes bs in
  get (mem w1) p (length bs) = Some bs /\
  (exists w2, rust_free_bytes w1 p (zlen bs) = Some w2 /\ mem w2 = mem w /\ blocks w2 = blocks w /\
     rust_free_bytes w2 p (zlen bs) = None) /\
  (forall l, l <> 0 -> l <> zlen bs -> rust_free_bytes w1 p l = None).
Proof.
  intros Hw Hb. destruct (alloc w Bytes bs) as [w1 p] eqn:Ea. pose proof (alloc_ok _ _ _ _ _ Hw Ea) as [Hw1 _].
  unfold alloc in Ea. rewrite bool_decide_eq_false_2 in Ea by done. injection Ea as <- <-. cbn [mem].
  pose proof (wf_next w Hw) as Hn. assert (0 < zlen bs) as Hz by (unfold zlen; destruct bs; [done|cbn; lia]).
  assert (blocks w !! next w = None) as Hf.
  { destruct (blocks w !! next w) as [[k n]|] eqn:E; [|done]. pose proof (block_below w _ _ _ Hw E).
    destruct (wf_block w Hw _ _ _ E) as (_ & ? & _). lia. }
  split; [apply get_put|]. unfold rust_free_bytes. unfold null. rewrite (proj2 (Z.eqb_neq (next w) 0)) by lia.
  cbn [blocks mem]. rewrite lookup_insert_eq. split.
  - rewrite (proj2 (Z.eqb_neq (zlen bs) 0)) by lia. rewrite bool_decide_eq_true_2 by done. eexists. split; [done|]. cbn [mem blocks].
    split; [|split].
    + apply del_put. intros a Ha. destruct (mem w !! a) eqn:E; [|done]. pose proof (wf_mem w Hw a ltac:(by eexists)). lia.
    + by rewrite delete_insert_id.
    + by rewrite lookup_delete_eq.
  - intros l Hl0 Hl. rewrite (proj2 (Z.eqb_neq l 0)) by done. rewrite bool_decide_eq_false_2; [done|]. unfold zlen in Hl. congruence.
Qed.

End Calls.

(** ** Theorems on the entry points *)

Section Entry.
Import FfiFacts StringFacts.
Context `{Crypto, StoreJson, FfiJson}.

(** The returned buffer, when the result is not empty. *)
Lemma return_bytes_some w o bs : wf w -> is_Some (get (mem w) o 4) -> bs <> [] ->
  return_bytes w o (Some bs) =
    Some (mkWorld (put (put (mem w) o (le_bytes4 (zlen bs))) (next w) bs) (<[next w := (Bytes, length bs)]> (blocks w))
            (next w + zlen bs) (app_state w), next w).
Proof.
  intros Hw Ho Hb. unfold return_bytes. rewrite write_some by (rewrite <-(Nat2Z.id (length _)); fold (zlen (le_bytes4 (zlen bs)));
    by rewrite zlen_le_bytes4). cbn [mbind option_bind]. unfold alloc. rewrite bool_decide_eq_false_2 by done. done.
Qed.

(** A plaintext of up to 65536 bytes encrypts into a new buffer of 28 bytes more. Decrypting that
    buffer through the interface gives the plaintext back, but only up to 65508 bytes: the same limit of
    65536 applies to the ciphertext, so what was made of the last 28 lengths is refused. *)
Theorem ffi_cipher_limit `{!AesLaws} nonce w pt key out plain karr :
  wf w -> length nonce = 12%nat -> 0 < zlen plain <= 65536 ->
  get (mem w) pt (length plain) = Some plain -> get (mem w) key 32 = Some karr -> is_Some (get (mem w) out 4) ->
  out + 4 <= key \/ key + 32 <= out ->
  exists w1 p, rust_encrypt_e2e nonce w pt (zlen plain) key out = Some (w1, p) /\ p <> null /\
    get (mem w1) out 4 = Some (le_bytes4 (zlen plain + 28)) /\
    (zlen plain <= 65508 -> exists w2 q, rust_decrypt_e2e w1 p (zlen plain + 28) key out = Some (w2, q) /\
       get (mem w2) q (length plain) = Some plain) /\
    (65508 < zlen plain -> rust_decrypt_e2e w1 p (zlen plain + 28) key out = Some (w1, null)).
Proof.
  intros Hw Hn Hz Hp Hk Ho Hd. destruct Ho as [old Ho].
  pose proof (mapped_pos w _ _ _ Hw Hp ltac:(unfold zlen in Hz; lia)) as Hp0. pose proof (mapped_pos w _ _ _ Hw Hk ltac:(lia)) as Hk0.
  pose proof (mapped_pos w _ _ _ Hw Ho ltac:(lia)) as Ho0. pose proof (wf_next w Hw) as Hx.
  destruct (aes_encrypt_total karr nonce plain (get_length _ _ _ _ Hk) Hn ltac:(lia)) as [c Ec].
  assert (zlen (nonce ++ c) = zlen plain + 28) as Hc by (rewrite zlen_app, (aes_tag _ _ _ _ Ec); unfold zlen at 1; rewrite Hn; lia).
  assert (forall a n bs, get (mem w) a n = Some bs -> a + Z.of_nat n <= next w \/ n = 0%nat) as Hbelow.
  { intros a n bs Ha. destruct n as [|n]; [by right|left].
    pose proof (proj1 (get_mapped (mem w) a (S n)) ltac:(by eexists) (a + Z.of_nat n) ltac:(lia)) as Hm. apply (wf_mem w Hw) in Hm. lia. }
  pose proof (Hbelow _ _ _ Hk) as Hk1. pose proof (Hbelow _ _ _ Ho) as Ho1.
  unfold rust_encrypt_e2e, null. rewrite !(proj2 (Z.eqb_neq _ 0)), (proj2 (Z.ltb_ge _ _)) by lia. cbn [orb].
  replace (Z.to_nat (zlen plain)) with (length plain) by (unfold zlen; lia). rewrite Hp. cbn [mbind option_bind]. rewrite Hk. cbn [mbind option_bind].
  unfold encrypt_e2e. rewrite Ec. rewrite return_bytes_some; [|done|by eexists|destruct nonce; done].
  set (enc := nonce ++ c) in *. eexists _, _. split; [done|]. split; [lia|]. cbn [mem].
  assert (forall a n m', a + Z.of_nat n <= next w \/ n = 0%nat -> get (put m' (next w) enc) a n = get m' a n) as Hout.
  { intros a n m' Ha. apply get_ext. intros b Hb. apply put_outside. lia. }
  rewrite (Hout out 4%nat) by lia. rewrite Hc.
  split; [rewrite <-(get_put (mem w) out (le_bytes4 (zlen plain + 28))); f_equal; pose proof (zlen_le_bytes4 (zlen plain + 28)); unfold zlen in *; lia|].
  split; intros Hl; unfold rust_decrypt_e2e, null; rewrite !(proj2 (Z.eqb_neq _ 0)) by lia; cbn [orb].
  - rewrite (proj2 (Z.ltb_ge _ _)) by lia. cbn [mem].
    replace (Z.to_nat (zlen plain + 28)) with (length enc) by (unfold zlen in *; lia). rewrite get_put. cbn [mbind option_bind].
    rewrite (Hout key 32%nat) by lia. rewrite (get_ext (mem w)), Hk by (intros a Ha; apply put_outside; rewrite zlen_le_bytes4; lia).
    cbn [mbind option_bind]. unfold decrypt_e2e. rewrite (proj2 (Z.ltb_ge _ _)) by lia.
    assert (take 12 enc = nonce /\ drop 12 enc = c) as [-> ->] by (unfold enc; by rewrite <-Hn, take_app_length, drop_app_length).
    rewrite (aes_round_trip _ _ _ _ Ec).
    set (w1 := mkWorld _ _ _ _). assert (wf w1) as Hw1.
    { assert (return_bytes w out (Some enc) = Some (w1, next w)) as Er.
      { rewrite return_bytes_some; [|done|by eexists|unfold enc; destruct nonce; done]. by rewrite Hc. }
      apply return_bytes_ok in Er as [? _]; [done|done|]. intros bs [= <-]. lia. }
    rewrite return_bytes_some; [|done| |destruct plain; [unfold zlen in Hz; cbn in Hz; lia|done]].
    + eexists _, _. split; [done|]. cbn [mem]. apply get_put.
    + cbn [w1 mem]. rewrite (Hout out 4%nat) by lia. rewrite get_mapped. intros a Ha. apply put_inside. rewrite zlen_le_bytes4. lia.
  - rewrite (proj2 (Z.ltb_lt _ _)) by lia. done.
Qed.

(** A uid that is not UTF-8 is not refused: the friend is added under the empty uid, with success
    reported, and a second such uid replaces the first one's entry. *)
Theorem bad_utf8_friend e key w uid addr tl b ub ab :
  app_state w = Live b -> uid <> null -> addr <> null ->
  c_bytes (mem w) uid = Some ub -> utf8_valid ub = false -> c_bytes (mem w) addr = Some ab ->
  exists b', rust_f2f_add_friend e key w uid addr tl = Some (set_app w (Live b'), 0) /\
    F2fDcNetBridge.friends b' =
      <["" := F2fDcNetBridge.friend_new key "" (if utf8_valid ab then bytes_string ab else "") tl]> (F2fDcNetBridge.friends b).
Proof.
  intros Hs Hu Ha Eu Hv Ea. unfold rust_f2f_add_friend. rewrite !(proj2 (Z.eqb_neq _ null)) by done. cbn [orb].
  unfold with_bridge. rewrite Hs. unfold c_str, safe_c_str. rewrite !(proj2 (Z.eqb_neq _ null)) by done. rewrite Eu, Ea. cbn [mbind option_bind].
  unfold from_utf8 at 1. rewrite Hv. eexists. split; [done|]. unfold F2fDcNetBridge.add_friend. cbn [F2fDcNetBridge.friends F2fDcNetBridge.set_friends].
  assert (forall o, F2fDcNetBridge.friends (F2fDcNetBridge.log_wal e b o) = F2fDcNetBridge.friends b) as ->.
  { intros o. unfold F2fDcNetBridge.log_wal. destruct (F2fDcNetBridge.wal b); [|done]. destruct (WalStore.append _ _ _ _). by case_match. }
  f_equal. unfold from_utf8. by destruct (utf8_valid ab).
Qed.

(** A returned string can be released as it is, which gives the memory back. After
    [rust_secure_clear] wiped it, the release is undefined, because [CString::from_raw] takes the length
    from the bytes. *)
Theorem cleared_string_release w s :
  wf w -> s <> [] -> 0 ∉ s -> zlen s <= MAX_FFI_BUF ->
  let '(w1, p) := into_raw w s in
  c_bytes (mem w1) p = Some s /\
  (exists w2, rust_free_string w1 p = Some w2 /\ mem w2 = mem w /\ blocks w2 = blocks w) /\
  (exists w2, rust_secure_clear w1 p (zlen s) = Some w2 /\ rust_free_string w2 p = None).
Proof.
  intros Hw Hne Hs Hl. destruct (into_raw w s) as [w1 p] eqn:Ea. unfold into_raw in Ea. rewrite bool_decide_eq_false_2 in Ea by done.
  unfold alloc in Ea. rewrite bool_decide_eq_false_2 in Ea by (by destruct s). injection Ea as <- <-. cbn [mem].
  pose proof (wf_next w Hw) as Hn. set (m1 := put (mem w) (next w) (s ++ [0])).
  assert (get m1 (next w) (S (length s)) = Some (s ++ [0])) as Hg.
  { rewrite <-(get_put (mem w) (next w) (s ++ [0])). f_equal. rewrite length_app. cbn. lia. }
  assert (c_bytes m1 (next w) = Some s) as Hc by (by apply c_bytes_spec).
  assert (forall a, next w <= a -> mem w !! a = None) as Hfresh.
  { intros a Ha. destruct (mem w !! a) eqn:E; [|done]. pose proof (wf_mem w Hw a ltac:(by eexists)). lia. }
  assert (blocks w !! next w = None) as Hf.
  { destruct (blocks w !! next w) as [[k n]|] eqn:E; [|done]. pose proof (block_below w _ _ _ Hw E).
    destruct (wf_block w Hw _ _ _ E) as (_ & ? & _). lia. }
  split; [done|]. unfold rust_free_string, rust_secure_clear, null. rewrite (proj2 (Z.eqb_neq (next w) 0)) by lia. cbn [negb andb mem blocks].
  split.
  - rewrite Hc. cbn [mbind option_bind]. rewrite lookup_insert_eq, bool_decide_eq_true_2 by (rewrite length_app; cbn; lia).
    eexists. split; [done|]. cbn [mem blocks]. split; [apply del_put; intros a Ha; apply Hfresh; lia|by rewrite delete_insert_id].
  - rewrite (proj2 (Z.leb_le _ _)) by done. replace (Z.to_nat (zlen s)) with (length s) by (unfold zlen; lia).
    assert (is_Some (get m1 (next w) (length s))) as [old Hold].
    { rewrite get_mapped. intros a Ha. apply put_inside. rewrite zlen_app. unfold zlen. lia. }
    rewrite Hold. cbn [mbind option_bind]. pose proof (get_length _ _ _ _ Hold) as Hlo.
    assert (length (secure_clear old) = length s) as Hlc by (unfold secure_clear; rewrite length_fmap; done).
    rewrite write_some by (rewrite Hlc; by eexists). cbn [mbind option_bind]. eexists. split; [done|].
    cbn [mem set_mem blocks].
    assert (c_bytes (put m1 (next w) (secure_clear old)) (next w) = Some []) as ->.
    { destruct s as [|x s]; [done|]. destruct old as [|y old]; [done|]. apply c_bytes_spec; [|by apply not_elem_of_nil].
      cbn [length get secure_clear fmap list_fmap put app]. by rewrite lookup_insert_eq. }
    cbn [mbind option_bind]. rewrite lookup_insert_eq, bool_decide_eq_false_2; [done|]. rewrite length_app. cbn. destruct s; [done|]. cbn. lia.
Qed.

End Entry.

(** ** Witnesses *)

Module FfiWitness.
Import FfiFacts.
#[local] Existing Instances toy_crypto ToyStore.toy_store.

(** A parser that knows one text, and printers that print one. *)
#[local] Instance toy_ffi : FfiJson := {|
  json_value s := if bool_decide (s = "{}") then Some s else None;
  uids_of_json s := None;
  strings_json _ := "[]"; changes_json _ := "[]"; status_json _ := "{}"; channel_json _ := "{}";
|}.

Lemma wf_start m n a : 1 < n -> bool_decide (map_Forall (fun p _ => 0 < p < n) m) = true -> wf (mkWorld m ∅ n a).
Proof.
  intros Hn Hm%bool_decide_eq_true. split; cbn [mem next blocks]; [|done|by intros ? ? ?; rewrite lookup_empty..].
  intros p [x E]. by apply (Hm p x).
Qed.

(** A key at 100, a length at 200, a message at 300, a text that is not UTF-8 at 400, an empty one at 410. *)
Definition heap : memory :=
  put (put (put (put (put ∅ 100 (be_bytes 32 7)) 200 [0; 0; 0; 0]) 300 [1; 2; 3]) 400 [255; 0]) 410 [0].

Definition world : World := mkWorld heap ∅ 1000 (Live (F2fDcNetBridge.new "alice")).

Lemma world_wf : wf world.
Proof. apply wf_start; [done|]. vm_compute. reflexivity. Qed.

(** A message is encrypted and decrypted; the ciphertext, of 31 bytes, is released. *)
Definition session : list call := [Encrypt (zeros 12) 300 3 100 200; Decrypt 1000 31 100 200; FreeBytes 1000 31].


Lemma release_exact_witness :
  exists w1 p w2, alloc world Bytes [1; 2; 3] = (w1, p) /\ rust_free_bytes w1 p 3 = Some w2 /\ rust_free_bytes w2 p 3 = None.
Proof.
  pose proof (release_exact world [1; 2; 3] world_wf ltac:(done)) as Hr. destruct (alloc world Bytes [1; 2; 3]) as [w1 p].
  destruct Hr as (_ & (w2 & E1 & _ & _ & E2) & _). exists w1, p, w2. split; [reflexivity|]. split; [exact E1|exact E2].
Defined.

Lemma ffi_cipher_limit_witness :
  exists w1 p w2 q, rust_encrypt_e2e (zeros 12) world 300 3 100 200 = Some (w1, p) /\
    rust_decrypt_e2e w1 p 31 100 200 = Some (w2, q) /\ get (mem w2) q 3 = Some [1; 2; 3].
Proof.
  destruct (ffi_cipher_limit (zeros 12) world 300 100 200 [1; 2; 3] (be_bytes 32 7) world_wf eq_refl ltac:(by vm_compute)
    ltac:(vm_compute; reflexivity) ltac:(vm_compute; reflexivity) ltac:(vm_compute; by eexists) ltac:(right; lia))
    as (w1 & p & E1 & _ & _ & Hd & _).
  destruct (Hd ltac:(by vm_compute)) as (w2 & q & E2 & E3). exists w1, p, w2, q. split; [exact E1|]. split; [exact E2|exact E3].
Defined.

Definition now : Env := mkEnv 0 0 Appended io_fine.

Lemma bad_utf8_friend_witness :
  exists b', rust_f2f_add_friend now (zeros 32) world 400 410 2 = Some (set_app world (Live b'), 0) /\
    is_Some (F2fDcNetBridge.friends b' !! "").
Proof.
  destruct (bad_utf8_friend now (zeros 32) world 400 410 2 (F2fDcNetBridge.new "alice") [255] [] eq_refl ltac:(done) ltac:(done)
    ltac:(vm_compute; reflexivity) eq_refl ltac:(vm_compute; reflexivity)) as (b' & E & Hf).
  exists b'. split; [exact E|]. rewrite Hf, lookup_insert_eq. by eexists.
Defined.

Lemma cleared_string_release_witness :
  exists w1 p w2, into_raw world [111; 107] = (w1, p) /\ rust_secure_clear w1 p 2 = Some w2 /\ rust_free_string w2 p = None.
Proof.
  pose proof (cleared_string_release world [111; 107] world_wf ltac:(done) ltac:(by apply (bool_decide_unpack (_ ∉ _))) ltac:(by vm_compute)) as Hr.
  destruct (into_raw world [111; 107]) as [w1 p]. destruct Hr as (_ & _ & (w2 & E1 & E2)).
  exists w1, p, w2. split; [reflexivity|]. split; [exact E1|exact E2].
Defined.

End FfiWitness.
