(* ===== verification/RoundSystem.v ===== *)
(** Rounds over a whole network: all the engines, or all the mesh drivers, of a round with the
    messages in flight between them. A message is delivered at any time and in any order, or lost;
    a node that receives one runs the handler of [round_engine.rs] or [dcnet/round_driver.rs] and
    puts its answers in flight.

    [PacketNet] is the network and [Protocol] what has to be shown of a handler: what a node has
    received determines its state and what the nodes have sent. [LeaderNet] and [MeshNet] show it
    for the two protocols. *)

From S2P Require Import Prelude Crypto Identity Wire Float64 Dcnet RoundNetwork RoundDriver RoundEngine.

(** ** The network *)

(** A message and its addressee. *)
Abbreviation packet := outgoing_msg.

(** What a node of state [S] does with a message at a time: its new state, what it reports to its
    user and what it sends. *)
Class Node (S E : Type) := receive : string -> Z -> S -> PeerMessage -> S * (list E * list packet).

Module PacketNet.

Lemma in_snoc (tr : list packet) p q : q ∈ tr ++ [p] <-> q = p \/ q ∈ tr.
Proof. rewrite elem_of_app, list_elem_of_singleton. tauto. Qed.

Lemma in_snoc_ne (tr : list packet) p q : q <> p -> q ∈ tr ++ [p] <-> q ∈ tr.
Proof. rewrite in_snoc. tauto. Qed.

(** What the delivery of a packet adds to what has been sent, when [sent tr] has been after [tr]. *)
Definition adds (sent : list packet -> packet -> Prop) (tr : list packet) (p : packet) (out : list packet) : Prop :=
  NoDup out /\ forall q, q ∈ out <-> sent (tr ++ [p]) q /\ ~ sent tr q.

Lemma adds_nothing (sent : list packet -> packet -> Prop) tr p :
  (forall q, sent (tr ++ [p]) q -> sent tr q) -> adds sent tr p [].
Proof. intros Hq. split; [apply NoDup_nil_2|]. intros q. split; [by intros ?%not_elem_of_nil|intros [Hi Hn]; by apply Hq in Hi]. Qed.

Section Net.
Context {St Ev : Type} `{!Node St Ev}.

(** [nodes] has each node's state and reports; [trace] and [lost] are the packets delivered and
    lost so far. *)
Record t := mk {
  nodes : string -> St * list Ev;
  soup : list packet;
  trace : list packet;
  lost : list packet;
}.

(** Deliver or lose the packet at position [i]. *)
Inductive action := Deliver (i : nat) (now : Z) | Lose (i : nat).

Definition upd {A} (f : string -> A) (u : string) (a : A) (v : string) : A :=
  if bool_decide (v = u) then a else f v.

Definition step (s : t) (a : action) : option t :=
  match a with
  | Deliver i now =>
      p ← soup s !! i;
      let '(x, evs) := nodes s p.1 in
      let '(x', (evs', out)) := receive p.1 now x p.2 in
      Some (mk (upd (nodes s) p.1 (x', evs ++ evs')) (delete i (soup s) ++ out) (trace s ++ [p]) (lost s))
  | Lose i =>
      p ← soup s !! i;
      Some (mk (nodes s) (delete i (soup s)) (trace s) (lost s ++ [p]))
  end.

Fixpoint run (s : t) (acts : list action) : option t :=
  match acts with
  | [] => Some s
  | a :: acts' => s' ← step s a; run s' acts'
  end.

(** Every delivery happens in the time window. *)
Definition within (lo hi : Z) (acts : list action) : Prop :=
  Forall (fun a => match a with Deliver _ now => lo <= now < hi | Lose _ => True end) acts.

(** A protocol whose nodes are determined by what has been delivered: [issued tr q] when [q] has
    been sent once [tr] has been delivered, [node_ok u tr x] when [x] is the state of [u]. *)
Class Protocol (lo hi : Z) := {
  issued : list packet -> packet -> Prop;
  node_ok : string -> list packet -> St * list Ev -> Prop;
  issued_mono tr p q : issued tr q -> issued (tr ++ [p]) q;
  node_frame u tr p x : p.1 <> u -> node_ok u tr x -> node_ok u (tr ++ [p]) x;
  node_step now u m tr x evs x' evs' out :
    lo <= now < hi -> (forall q, q ∈ tr -> issued tr q) -> NoDup tr ->
    issued tr (u, m) -> (u, m) ∉ tr -> node_ok u tr (x, evs) ->
    receive u now x m = (x', (evs', out)) ->
    node_ok u (tr ++ [(u, m)]) (x', evs ++ evs') /\ adds issued tr (u, m) out;
}.

Record inv `{Protocol lo hi} (s : t) : Prop := {
  inv_once : NoDup (soup s ++ trace s ++ lost s);
  inv_sent q : q ∈ soup s ++ trace s ++ lost s <-> issued (trace s) q;
  inv_nodes u : node_ok u (trace s) (nodes s u);
  inv_causal tr1 q tr2 : trace s = tr1 ++ q :: tr2 -> issued tr1 q;
}.

Section Facts.
Context `{Protocol lo hi}.

Lemma upd_eq {A} (f : string -> A) u a : upd f u a u = a.
Proof. unfold upd. by rewrite bool_decide_eq_true_2. Qed.

Lemma upd_ne {A} (f : string -> A) u a v : v <> u -> upd f u a v = f v.
Proof. intros. unfold upd. by rewrite bool_decide_eq_false_2. Qed.

(** What is in flight moves to the trace, and the answers join. *)
Lemma net_step_inv s a s' :
  inv s -> within lo hi [a] -> step s a = Some s' -> inv s'.
Proof.
  intros [Honce Hsent Hnodes Hcausal] Ht Hs. destruct a as [i now|i]; cbn [step] in Hs;
    destruct (soup s !! i) as [p|] eqn:Ei; try done; cbn [mbind option_bind] in Hs;
    pose proof (delete_Permutation _ _ _ Ei) as Hp; set (rest := delete i (soup s)) in *.
  - unfold within in Ht. rewrite Forall_singleton in Ht. destruct p as [u m]. cbn [fst snd] in Hs. pose proof (Hnodes u) as Hu.
    destruct (nodes s u) as [x evs]. destruct (receive u now x m) as [x' [evs' out]] eqn:Er. simplify_eq.
    assert (Hissued : issued (trace s) (u, m)) by (apply Hsent; rewrite Hp; by left).
    assert (Hfresh : (u, m) ∉ trace s).
    { rewrite Hp in Honce. cbn in Honce. apply NoDup_cons in Honce as [Hx _].
      intros Hin. apply Hx. rewrite !elem_of_app. auto. }
    destruct (node_step now u m (trace s) x evs x' evs' out) as (Hok & Hnd & Hout);
      [exact Ht| | |exact Hissued|exact Hfresh|exact Hu|exact Er|].
    { intros q Hq. apply Hsent. rewrite !elem_of_app. auto. }
    { apply NoDup_app in Honce as (_ & _ & Hn). by apply NoDup_app in Hn as (? & _ & _). }
    assert (Hmv : (rest ++ out) ++ (trace s ++ [(u, m)]) ++ lost s ≡ₚ
                  out ++ soup s ++ trace s ++ lost s) by (rewrite Hp; solve_Permutation).
    split; cbn [soup trace lost nodes].
    + rewrite Hmv. apply NoDup_app. split_and!; [done| |done]. intros q Hq.
      rewrite Hsent. apply Hout in Hq. tauto.
    + intros q. rewrite Hmv, elem_of_app, Hsent, Hout. split.
      * intros [[? _]|?]; [done|]. by apply issued_mono.
      * intros Hq. destruct (decide (q ∈ soup s ++ trace s ++ lost s)) as [Hin|Hin]; rewrite Hsent in Hin; auto.
    + intros v. destruct (decide (v = u)) as [->|Hne].
      * by rewrite upd_eq.
      * rewrite upd_ne by done. apply node_frame; [cbn; congruence|done].
    + intros tr1 q tr2 E. destruct (decide (tr2 = [])) as [->|Hn].
      * apply app_inj_tail in E as [<- <-]. done.
      * destruct (exists_last Hn) as (tr3 & q' & ->). rewrite app_comm_cons, app_assoc in E.
        apply app_inj_tail in E as [E _]. by eapply Hcausal.
  - simplify_eq. assert (Hmv : rest ++ trace s ++ lost s ++ [p] ≡ₚ soup s ++ trace s ++ lost s)
      by (rewrite Hp; solve_Permutation).
    split; cbn [soup trace lost nodes]; [by rewrite Hmv|intros q; by rewrite Hmv|done|done].
Qed.

Lemma step_length s a s' : step s a = Some s' -> length (trace s' ++ lost s') = (1 + length (trace s ++ lost s))%nat.
Proof.
  destruct a as [i now|i]; cbn [step]; destruct (soup s !! i) as [p|]; try done; cbn [mbind option_bind].
  - destruct (nodes s p.1) as [x evs]. destruct (receive p.1 now x p.2) as [x' [evs' out]]. intros [= <-].
    cbn. rewrite !length_app. cbn. lia.
  - intros [= <-]. cbn. rewrite !length_app. cbn. lia.
Qed.

Lemma net_run_inv s acts s' : inv s -> within lo hi acts -> run s acts = Some s' -> inv s'.
Proof.
  intros Hi Ht. revert s Hi. induction Ht as [|a acts Ha Ht IH]; intros s Hi; cbn [run]; [by intros [= <-]|].
  destruct (step s a) as [s1|] eqn:E; [|done]. cbn [mbind option_bind]. apply IH.
  eapply net_step_inv; [done| |done]. unfold within. by rewrite Forall_singleton.
Qed.

Lemma run_length s acts s' :
  run s acts = Some s' -> length (trace s' ++ lost s') = (length acts + length (trace s ++ lost s))%nat.
Proof.
  revert s. induction acts as [|a acts IH]; intros s; cbn [run]; [by intros [= <-]|].
  destruct (step s a) as [s1|] eqn:E; [|done]. cbn [mbind option_bind]. intros Hr.
  rewrite (IH _ Hr), (step_length _ _ _ E). cbn. lia.
Qed.

(** Every run is finite: no longer than the list of all packets that can be sent. *)
Lemma run_bound universe s acts s' :
  inv s -> within lo hi acts -> run s acts = Some s' -> (forall tr q, issued tr q -> q ∈ universe) ->
  (length acts <= length universe)%nat.
Proof.
  intros Hi Ht Hr Hu. pose proof (run_length _ _ _ Hr) as Hl. destruct (net_run_inv _ _ _ Hi Ht Hr) as [Honce Hsent _ _].
  assert (Hsub : trace s' ++ lost s' ⊆+ universe).
  { apply NoDup_submseteq; [by apply NoDup_app in Honce as (_ & _ & ?)|]. intros q Hq.
    eapply Hu, Hsent. rewrite elem_of_app. by right. }
  apply submseteq_length in Hsub. lia.
Qed.

(** When nothing is in flight and nothing was lost, all that was sent has been delivered. *)
Lemma quiescent s q : inv s -> soup s = [] -> lost s = [] -> issued (trace s) q -> q ∈ trace s.
Proof. intros [_ Hsent _ _] E1 E2 Hq. apply Hsent in Hq. by rewrite E1, E2, app_nil_r in Hq. Qed.

(** A packet in flight can be delivered. *)
Lemma progress s now : soup s <> [] -> exists s', step s (Deliver 0 now) = Some s'.
Proof.
  destruct (soup s) as [|p l] eqn:E; [done|]. intros _. cbn. rewrite E. cbn.
  destruct (nodes s p.1) as [x evs]. destruct (receive p.1 now x p.2) as [x' [evs' out]]. eauto.
Qed.

Lemma net_run_app s acts1 acts2 : run s (acts1 ++ acts2) = (s' ← run s acts1; run s' acts2).
Proof.
  revert s. induction acts1 as [|a acts1 IH]; intros s; [done|]. cbn. destruct (step s a); [|done]. cbn. apply IH.
Qed.

(** From every state the network can be drained without loss. *)
Lemma drains (universe : list packet) s :
  lo < hi -> (forall tr q, issued tr q -> q ∈ universe) -> inv s ->
  exists acts s', within lo hi acts /\ run s acts = Some s' /\ soup s' = [] /\ lost s' = lost s /\ trace s `prefix_of` trace s'.
Proof.
  intros Hlt Hu. remember (length universe - length (trace s))%nat as k eqn:Hk. revert s Hk.
  induction k as [k IH] using lt_wf_ind. intros s -> Hi. destruct (decide (soup s = [])) as [Hs|Hs].
  { exists [], s. split_and!; try done. apply Forall_nil_2. }
  destruct (soup s) as [|p l] eqn:Es; [done|]. destruct (progress s lo) as [s1 Hstep]; [by rewrite Es|].
  assert (Hw : within lo hi [Deliver 0 lo]) by (apply Forall_singleton; lia).
  assert (Htr : trace s1 = trace s ++ [p] /\ lost s1 = lost s).
  { cbn in Hstep. rewrite Es in Hstep. cbn in Hstep. destruct (nodes s p.1). destruct (receive p.1 lo s0 p.2) as [? [? ?]].
    by simplify_eq. }
  destruct Htr as [Htr Hlost]. pose proof (net_step_inv _ _ _ Hi Hw Hstep) as Hi1.
  assert (Hb : trace s1 ⊆+ universe).
  { apply NoDup_submseteq.
    - pose proof (inv_once _ Hi1) as Ho. apply NoDup_app in Ho as (_ & _ & Ho). by apply NoDup_app in Ho as (? & _ & _).
    - intros q Hq. eapply Hu, (inv_sent _ Hi1). rewrite !elem_of_app. auto. }
  apply submseteq_length in Hb. rewrite Htr, length_app in Hb. cbn in Hb.
  destruct (IH (length universe - length (trace s1))%nat) with (s := s1) as (acts & s' & Ha & Hr & E1 & E2 & E3); try done.
  { rewrite Htr, length_app. cbn. lia. }
  exists (Deliver 0 lo :: acts), s'. split_and!; try done.
  - apply Forall_cons. split; [by apply Forall_inv in Hw|done].
  - cbn [run]. rewrite Hstep. exact Hr.
  - congruence.
  - etransitivity; [|exact E3]. rewrite Htr. by apply prefix_app_r.
Qed.

End Facts.
End Net.
Arguments t : clear implicits.
End PacketNet.

(** ** A collector that holds the shares of some participants *)

Module Holding.
Import DriverFacts.

Section Holding.
Context `{Crypto, !ShaLaws, !HkdfLaws}.
Variables (keys : string -> gmap string bytes) (ps : list string) (sender text ch : string) (r n : Z).
Local Abbreviation share := (mesh_share keys ps sender text r n).

Definition shares_of (P : string -> Prop) (m : gmap string bytes) : Prop :=
  forall u s, m !! u = Some s <-> P u /\ s = share u.

Definition collector (now : Z) (m : gmap string bytes) : RoundCollector :=
  RoundCollector.set_shares (RoundCollector.new now ch r ps 30 n) m.

Lemma shares_of_none P m u : shares_of P m -> ~ P u -> m !! u = None.
Proof. intros Hm Hu. apply eq_None_not_Some. intros [s Hs]. apply Hm in Hs. tauto. Qed.

Lemma shares_of_ext P Q m : shares_of P m -> (forall u, P u <-> Q u) -> shares_of Q m.
Proof. intros Hm HPQ u s. by rewrite (Hm u s), HPQ. Qed.

Lemma shares_of_empty : shares_of (fun _ => False) ∅.
Proof. intros u s. rewrite lookup_empty. split; [done|tauto]. Qed.

Lemma shares_of_insert P m u : shares_of P m -> shares_of (fun v => v = u \/ P v) (<[u := share u]> m).
Proof.
  intros Hm v s. destruct (decide (v = u)) as [->|Hne].
  - rewrite lookup_insert_eq. split; [intros [= <-]; auto|by intros [_ ->]].
  - rewrite lookup_insert_ne by done. rewrite (Hm v s). naive_solver.
Qed.

Hypotheses
  (Hnd : NoDup ps) (Hkeys : edge_keys_agree ps keys) (Htwo : 2 <= zlen ps) (Hsender : sender ∈ ps)
  (Htext : str_ok text) (Hfit : slen text + 36 <= n) (Hn : 4 <= n <= 65536).

(** A first share is accepted. *)
Lemma collector_submit P now m u :
  shares_of P m -> ~ P u -> u ∈ ps ->
  RoundCollector.submit_share (collector now m) u (share u) = (collector now (<[u := share u]> m), Ok tt).
Proof.
  intros Hm HP Hu. destruct (CollectorFacts.submit_share_cases (collector now m) u (share u))
    as [(c & E & -> & _)|(e & _ & [Hx|[Hx|Hx]])]; [exact E|..]; cbn in Hx.
  - destruct Hx. by apply elem_of_list_to_set.
  - rewrite (shares_of_none P) in Hx by done. by destruct Hx.
  - rewrite (mesh_share_zlen keys ps sender text r n) in Hx by done. unfold clampZ in Hx. lia.
Qed.

Lemma collector_wf P now m : shares_of P m -> (forall u, P u -> u ∈ ps) -> CollectorFacts.wf (collector now m).
Proof.
  intros Hm HP. split; cbn.
  - unfold clampZ. lia.
  - intros u [s Hs]%elem_of_dom. apply Hm in Hs as [Hu _]. apply elem_of_list_to_set. auto.
  - intros u s Hs. apply Hm in Hs as [Hu ->]. rewrite (mesh_share_zlen keys ps sender text r n) by auto. unfold clampZ. lia.
Qed.

Lemma collector_missing P now m u :
  shares_of P m -> u ∈ RoundCollector.missing_participants (collector now m) <-> u ∈ ps /\ ~ P u.
Proof.
  intros Hm. rewrite CollectorFacts.missing_spec. cbn. rewrite elem_of_list_to_set. split; intros [Hu HP]; split; try done.
  - intros Hx. assert (m !! u = Some (share u)) by (by apply Hm). congruence.
  - by apply (shares_of_none P).
Qed.

Lemma collector_incomplete P now m u :
  shares_of P m -> (forall v, P v -> v ∈ ps) -> u ∈ ps -> ~ P u ->
  RoundCollector.is_complete (collector now m) = false.
Proof.
  intros Hm HP Hu Hx. eapply missing_incomplete; [by eapply collector_wf|]. by eapply (collector_missing P).
Qed.

(** With everybody's share it is the collector of a whole round. *)
Lemma collector_full now m :
  shares_of (fun u => u ∈ ps) m ->
  collector now m = CollectorFacts.submit_all (RoundCollector.new now ch r ps 30 n) (with_share share <$> ps).
Proof.
  intros Hm. set (c0 := RoundCollector.new now ch r ps 30 n).
  assert (Hset : forall l c, CollectorFacts.submit_all c l =
    RoundCollector.set_shares c (RoundCollector.shares_received (CollectorFacts.submit_all c l))).
  { induction l as [|[u s] l IH]; intros c; cbn; [by destruct c|]. rewrite IH at 1. cbn.
    destruct (CollectorFacts.submit_share_cases c u s) as [(? & -> & -> & _)|(? & -> & _)]; by destruct c. }
  rewrite Hset. unfold collector. fold c0. f_equal.
  assert (Hf : (with_share share <$> ps).*1 = ps) by (rewrite <-list_fmap_compose; apply list_fmap_id).
  rewrite CollectorFacts.submit_all_shares; [|by rewrite Hf| |done].
  - unfold c0, RoundCollector.new. cbn [RoundCollector.shares_received]. rewrite (right_id_L ∅ _). apply map_eq. intros u. apply option_eq. intros s. rewrite (Hm u s).
    rewrite <-elem_of_list_to_map by (by rewrite Hf). rewrite list_elem_of_fmap. unfold with_share. split.
    + intros [Hu ->]. by exists u.
    + intros (v & [= -> ->] & Hv). done.
  - intros u s (v & [= -> ->] & Hv)%list_elem_of_fmap. split; [by apply elem_of_list_to_set|].
    rewrite (mesh_share_zlen keys ps sender text r n) by done. cbn. unfold clampZ. lia.
Qed.

Lemma collector_extracts now m :
  shares_of (fun u => u ∈ ps) m ->
  RoundCollector.is_complete (collector now m) = true /\
  RoundCollector.extract_message (collector now m) = Some (frame (string_bytes text) n) /\
  unpad_message (frame (string_bytes text) n) = Some (string_bytes text).
Proof.
  intros Hm. rewrite (collector_full now m Hm).
  by apply (mesh_extract keys ps sender text ch r n Hnd Hkeys Htwo Hsender Hfit Hn now ps).
Qed.

Lemma collector_expired now now' m : now' < now + from_secs 30 -> RoundCollector.is_expired now' (collector now m) = false.
Proof. intros. unfold RoundCollector.is_expired. cbn. apply Z.leb_gt. done. Qed.

End Holding.
End Holding.

(** ** The leader protocol *)

(** The counter never stands still. *)
Lemma mark_seen_current rt : 1 <= RoundTracker.current_round_id rt < 2 ^ 64 ->
  RoundTracker.mark_seen rt (RoundTracker.current_round_id rt) = (rt, false).
Proof.
  intros Hr. unfold RoundTracker.mark_seen. destruct (_ =? _) eqn:E; [|done]. breflect. exfalso. unfold wrap64 in E.
  destruct (decide (RoundTracker.current_round_id rt + 1 = 2 ^ 64)) as [Hx|Hx];
    [rewrite Hx, Z.mod_same in E by lia; lia|rewrite Z.mod_small in E by lia; lia].
Qed.

Module LeaderNet.
Import RoundEngine DriverFacts Holding PacketNet.

(** The engine of [u] in its context. *)
Definition engine_node `{Crypto} (ctxs : string -> RoundContext) : Node RoundEngine.t RoundEvent :=
  fun u now e m => let '(e', (ev, out)) := handle_incoming now e m (ctxs u) in (e', (option_list ev, out)).

Section Leader.
Context `{Crypto, !ShaLaws, !HkdfLaws, !EdLaws}.
Variables (ctxs : string -> RoundContext) (keys : string -> gmap string bytes) (sk : string -> bytes)
  (ps : list string) (leader sender text ch : string) (r t0 : Z).

Definition start : PeerMessage := DcRoundStart ch r leader ps 30 DEFAULT_PAYLOAD_LEN.
Definition share (w : string) : PeerMessage :=
  DcRoundShare ch r w (mesh_share keys ps sender text r DEFAULT_PAYLOAD_LEN w)
    (mesh_sig keys sk ps sender text ch r DEFAULT_PAYLOAD_LEN w).
Definition result : PeerMessage := DcRoundResult ch r (frame (string_bytes text) DEFAULT_PAYLOAD_LEN) [].

(** The leader has everybody's share. *)
Definition all_in (tr : list packet) : Prop := Forall (fun w => (leader, share w) ∈ tr) (others leader ps).

Definition leader_issued (tr : list packet) (q : packet) : Prop :=
  (exists v, v ∈ ps /\ q = (v, start)) \/
  (exists w, w ∈ others leader ps /\ (w, start) ∈ tr /\ q = (leader, share w)) \/
  (all_in tr /\ exists v, v ∈ ps /\ q = (v, result)).

Definition received (tr : list packet) (u : string) : list RoundEvent :=
  if decide ((u, result) ∈ tr) then [MessageReceived ch text r] else [].

Definition leader_state (tr : list packet) (e : RoundEngine.t) (evs : list RoundEvent) : Prop :=
  RoundTracker.current_round_id (tracker e) = r /\
  if decide (all_in tr) then
    collectors e !! r = None /\ evs = MessageExtracted ch text r :: received tr leader
  else
    evs = [] /\ exists m, collectors e !! r = Some (collector ps ch r DEFAULT_PAYLOAD_LEN t0 m) /\
      shares_of keys ps sender text r DEFAULT_PAYLOAD_LEN
        (fun v => v = leader \/ v ∈ others leader ps /\ (leader, share v) ∈ tr) m.

Definition member_state (u : string) (tr : list packet) (e : RoundEngine.t) (evs : list RoundEvent) : Prop :=
  ((u, start) ∉ tr -> ready r u (queue_of sender text u) e) /\ evs = received tr u.

Definition leader_node_ok (u : string) (tr : list packet) (x : RoundEngine.t * list RoundEvent) : Prop :=
  u ∈ ps -> if decide (u = leader) then leader_state tr x.1 x.2 else member_state u tr x.1 x.2.

Hypotheses
  (Hnd : NoDup ps) (Hkeys : edge_keys_agree ps keys) (Htwo : 2 <= zlen ps) (Hleader : leader ∈ ps)
  (Hsender : sender ∈ ps) (Htext : str_ok text) (Hfit : slen text + 36 <= DEFAULT_PAYLOAD_LEN)
  (Hr : 1 <= r < 2 ^ 64) (Hctx : forall u, u ∈ ps -> honest_ctx keys sk u (ctxs u)).

Lemma all_in_snoc tr p : (forall w, p <> (leader, share w)) -> all_in (tr ++ [p]) <-> all_in tr.
Proof.
  intros Hp. unfold all_in. rewrite !Forall_forall. setoid_rewrite in_snoc_ne; [done|]. intros E. by destruct (Hp x).
Qed.

Lemma received_snoc tr p u : p <> (u, result) -> received (tr ++ [p]) u = received tr u.
Proof.
  intros Hp. unfold received. apply decide_ext. apply in_snoc_ne. congruence.
Qed.

Lemma leader_issued_mono tr p q : leader_issued tr q -> leader_issued (tr ++ [p]) q.
Proof.
  unfold leader_issued, all_in. intros [?|[(w & ? & ? & ->)|[Ha ?]]]; [by left|right; left|right; right].
  - exists w. rewrite in_snoc. auto.
  - split; [|done]. eapply Forall_impl; [exact Ha|]. intros w Hw. rewrite in_snoc. auto.
Qed.

Lemma leader_state_snoc tr p e evs :
  (forall w, p <> (leader, share w)) -> p <> (leader, result) ->
  leader_state (tr ++ [p]) e evs <-> leader_state tr e evs.
Proof.
  intros Hp Hq. unfold leader_state. pose proof (all_in_snoc tr p Hp) as Ha. rewrite received_snoc by done.
  destruct (decide (all_in (tr ++ [p]))), (decide (all_in tr)); try tauto.
  do 2 apply and_iff_compat_l. split; intros (m & Ec & Hm); exists m; (split; [done|]); eapply shares_of_ext; try done;
    intros v; cbn; rewrite in_snoc_ne by (by symmetry; apply Hp); done.
Qed.

Lemma leader_node_frame u tr p x : p.1 <> u -> leader_node_ok u tr x -> leader_node_ok u (tr ++ [p]) x.
Proof.
  intros Hp Hok Hu. specialize (Hok Hu). destruct (decide (u = leader)) as [->|Hne].
  - apply leader_state_snoc; [intros w ->; done|intros ->; done|done].
  - destruct Hok as [Hs He]. split.
    + intros Hn. apply Hs. intros Hx. apply Hn. rewrite in_snoc. auto.
    + rewrite received_snoc; [done|]. intros ->. done.
Qed.

Local Abbreviation adds := (PacketNet.adds leader_issued).

Lemma adds_no_share tr p :
  (forall w, p <> (leader, share w)) -> (forall w, w <> leader -> p <> (w, start)) -> adds tr p [].
Proof.
  intros Hp Hs. apply adds_nothing. intros q [?|[(w & Hw & Ht & ->)|[Ha ?]]].
  - by left.
  - right; left. exists w. split_and!; [done| |done]. apply elem_of_others in Hw as [Hw _].
    rewrite in_snoc_ne in Ht; [done|]. intros E. by apply (Hs w).
  - right; right. split; [|done]. by rewrite all_in_snoc in Ha.
Qed.

Lemma leader_share_inj (u u' v w : string) : (u, share v) = (u', share w) -> v = w.
Proof. by intros [= _ ->]. Qed.

Lemma adds_share tr w : w ∈ others leader ps -> (w, start) ∉ tr -> (forall q, q ∈ tr -> leader_issued tr q) ->
  adds tr (w, start) [(leader, share w)].
Proof.
  intros Hw Ht Hcl. split; [apply NoDup_singleton|]. intros q. rewrite list_elem_of_singleton. split.
  - intros ->. split; [right; left; exists w; rewrite in_snoc; auto|].
    intros [(v & _ & E)|[(v & Hv & Hs & E)|[_ (v & _ & E)]]]; try done.
    apply leader_share_inj in E as ->. done.
  - intros [[(v & Hv & ->)|[(v & Hv & Hs & ->)|[Ha Hr']]] Hn].
    + destruct Hn. left. eauto.
    + apply in_snoc in Hs as [[= ->]|Hs]; [done|]. destruct Hn. right; left. eauto.
    + destruct Hn. right; right. split; [|done]. by rewrite all_in_snoc in Ha.
Qed.

Lemma adds_results tr w rs : w ∈ others leader ps -> (leader, share w) ∉ tr -> all_in (tr ++ [(leader, share w)]) ->
  rs ≡ₚ ps -> adds tr (leader, share w) ((fun v => (v, result)) <$> rs).
Proof.
  intros Hw Ht Ha Hrs. split.
  - apply NoDup_fmap_2; [by intros ?? [= ->]|by rewrite Hrs].
  - intros q. rewrite list_elem_of_fmap. split.
    + intros (v & -> & Hv). rewrite Hrs in Hv. split; [right; right; eauto|].
      intros [(x & _ & E)|[(x & _ & _ & E)|[Hall _]]]; try done.
      unfold all_in in Hall. rewrite Forall_forall in Hall. by apply Ht, Hall.
    + intros [[(v & Hv & ->)|[(v & Hv & Hs & ->)|[_ (v & Hv & ->)]]] Hn].
      * destruct Hn. left. eauto.
      * apply in_snoc in Hs as [E|Hs]; [done|]. destruct Hn. right; left. eauto.
      * exists v. by rewrite Hrs.
Qed.

Lemma adds_waiting tr w : ~ all_in (tr ++ [(leader, share w)]) -> adds tr (leader, share w) [].
Proof.
  intros Ha. apply adds_nothing. intros q [?|[(v & Hv & Hs & ->)|[? _]]]; [by left| |done].
  right; left. exists v. apply in_snoc in Hs as [E|Hs]; [done|]. auto.
Qed.

(** All results are out only when every member has had its start. *)
Lemma all_in_started tr u :
  (forall q, q ∈ tr -> leader_issued tr q) -> all_in tr -> u ∈ others leader ps -> (u, start) ∈ tr.
Proof.
  intros Hcl Ha Hu. unfold all_in in Ha. rewrite Forall_forall in Ha. specialize (Ha u Hu).
  destruct (Hcl _ Ha) as [(v & _ & E)|[(v & _ & Hs & E)|[_ (v & _ & E)]]]; try done.
  by apply leader_share_inj in E as ->.
Qed.

Lemma result_handled now e c : exists e', handle_incoming now e result c = (e', (Some (MessageReceived ch text r), [])) /\
  RoundEngine.collectors e' = RoundEngine.collectors e /\
  (RoundTracker.current_round_id (tracker e) = r -> e' = e).
Proof.
  cbn [handle_incoming result]. unfold handle_round_result, text_or_binary.
  rewrite unpad_frame_msg, from_utf8_str by (rewrite ?zlen_string_bytes; unfold DEFAULT_PAYLOAD_LEN in *; done || lia).
  destruct (RoundTracker.mark_seen (tracker e) r) as [tr b] eqn:E. eexists; split_and!; try done.
  intros Hc. rewrite <-Hc, mark_seen_current in E by (by rewrite Hc). injection E as <- _. by destruct e.
Qed.

(** The four deliveries: a start to the leader itself, a start to a member, a share, a result. *)
Definition delivers (now : Z) (u : string) (m : PeerMessage) (tr : list packet) (x : RoundEngine.t) (evs : list RoundEvent) : Prop :=
  exists x' ev out, handle_incoming now x m (ctxs u) = (x', (ev, out)) /\
    leader_node_ok u (tr ++ [(u, m)]) (x', evs ++ option_list ev) /\ adds tr (u, m) out.

Lemma deliver_own_start now tr e evs : leader_state tr e evs -> delivers now leader start tr e evs.
Proof.
  intros Hs. exists e, None, []. split_and!.
  - destruct Hs as [Hcur _]. cbn [handle_incoming start]. unfold handle_round_start.
    rewrite <-Hcur, mark_seen_current; [done|by rewrite Hcur].
  - intros _. cbn [fst snd option_list]. rewrite decide_True by done. rewrite app_nil_r. by apply leader_state_snoc.
  - apply adds_no_share; [done|]. by intros w Hw [= ->].
Qed.

Lemma leader_deliver_start now u tr e evs :
  u ∈ ps -> u <> leader -> (u, start) ∉ tr -> (forall q, q ∈ tr -> leader_issued tr q) ->
  member_state u tr e evs -> delivers now u start tr e evs.
Proof.
  intros Hu Hne Ht Hcl [Hready He].
  destruct (member_answers keys sk ps sender text ch r leader now u e (ctxs u)) as (e' & E & _); auto.
  exists e', None, [(leader, share u)]. split_and!; [exact E| |].
  - intros _. cbn [fst snd option_list]. rewrite decide_False, app_nil_r by done. split; [intros []; rewrite in_snoc; auto|].
    by rewrite received_snoc.
  - apply adds_share; try done. by apply elem_of_others.
Qed.

(** What a share adds to the shares the leader holds. *)
Lemma held_snoc tr w v : w ∈ others leader ps ->
  v = w \/ v = leader \/ v ∈ others leader ps /\ (leader, share v) ∈ tr <->
  v = leader \/ v ∈ others leader ps /\ (leader, share v) ∈ tr ++ [(leader, share w)].
Proof.
  intros Hw. rewrite in_snoc. split; [intros [->|[?|[? ?]]]; auto|].
  intros [?|[? [E|?]]]; [auto| |auto]. apply leader_share_inj in E. auto.
Qed.

Lemma not_all_in tr : ~ all_in tr -> exists v, v ∈ ps /\ ~ (v = leader \/ v ∈ others leader ps /\ (leader, share v) ∈ tr).
Proof.
  unfold all_in. intros Ha. apply not_Forall_Exists in Ha; [|intros x; apply _]. apply Exists_exists in Ha as (v & Hv & Hnv).
  apply elem_of_others in Hv as [Hvl Hv]. exists v. split; [done|]. intros [?|[_ ?]]; [by apply Hvl|by apply Hnv].
Qed.

Lemma leader_deliver_share now w tr e evs :
  t0 <= now < t0 + from_secs 30 -> w ∈ others leader ps -> (leader, share w) ∉ tr ->
  (forall q, q ∈ tr -> leader_issued tr q) ->
  leader_state tr e evs -> delivers now leader (share w) tr e evs.
Proof.
  intros Hnow Hw Ht Hcl [Hcur Hs]. pose proof Hw as [Hne Hwp]%elem_of_others.
  assert (Hn : ~ all_in tr) by (unfold all_in; rewrite Forall_forall; intros Ha; by apply Ht, Ha).
  rewrite decide_False in Hs by done. destruct Hs as (-> & m & Ec & Hm).
  set (P := fun v => v = leader \/ v ∈ others leader ps /\ (leader, share v) ∈ tr) in Hm.
  assert (HP : ~ P w) by (intros [?|[_ ?]]; done).
  pose proof (shares_of_insert keys ps sender text r DEFAULT_PAYLOAD_LEN P m w Hm) as Hm'. set (m' := <[w := _]> m) in Hm'.
  pose proof (collector_submit keys ps sender text ch r DEFAULT_PAYLOAD_LEN Hkeys Htwo Hfit ltac:(done) P t0 m w Hm HP Hwp) as Hsub.
  assert (Hadm : RoundDriver.share_admitted (ctxs leader) ch r w (mesh_share keys ps sender text r DEFAULT_PAYLOAD_LEN w)
    (mesh_sig keys sk ps sender text ch r DEFAULT_PAYLOAD_LEN w) = true) by (eapply honest_admits; eauto).
  assert (HPs : forall v, v = w \/ P v -> v ∈ ps).
  { intros v [->|[->|[Hv _]]]; try done. by apply elem_of_others in Hv as [_ ?]. }
  assert (HQ : forall v, v = w \/ P v <-> v = leader \/ v ∈ others leader ps /\ (leader, share v) ∈ tr ++ [(leader, share w)]).
  { intros v. by apply held_snoc. }
  destruct (decide (all_in (tr ++ [(leader, share w)]))) as [Ha|Ha].
  - assert (Hfull : shares_of keys ps sender text r DEFAULT_PAYLOAD_LEN (fun u => u ∈ ps) m').
    { eapply shares_of_ext; [exact Hm'|]. intros v. cbn. split; [apply HPs|]. intros Hv. apply HQ.
      destruct (decide (v = leader)); [by left|]. right. unfold all_in in Ha. rewrite Forall_forall in Ha.
      assert (v ∈ others leader ps) by (by apply elem_of_others). auto. }
    destruct (collector_extracts keys ps sender text ch r DEFAULT_PAYLOAD_LEN Hnd Hkeys Htwo Hsender Hfit ltac:(done) t0 m' Hfull)
      as (Hcp & Hx & Hu).
    eexists _, _, _. split; [|split].
    + eapply EngineFacts.engine_share_final; [exact Ec|exact Hadm|exact Hsub|exact Hcp|exact Hx|exact Hu].
    + intros _. cbn [fst snd option_list]. rewrite decide_True by done. split; [done|].
      rewrite decide_True by done. split; [cbn; apply lookup_delete_eq|].
      unfold text_or_binary. rewrite from_utf8_str by done. cbn. f_equal. unfold received. rewrite decide_False; [done|].
      rewrite in_snoc. intros [?|[(?&_&?)|[(?&_&_&?)|[? _]]]%Hcl]; done.
    + apply adds_results; try done. cbn. by rewrite elements_list_to_set.
  - destruct (not_all_in _ Ha) as (v & Hv & Hnv). rewrite <-HQ in Hnv.
    eexists _, _, _. split; [|split].
    + eapply EngineFacts.engine_share_wait; [exact Ec|exact Hadm|exact Hsub| |].
      * by eapply (collector_incomplete keys ps sender text ch r DEFAULT_PAYLOAD_LEN).
      * apply collector_expired. lia.
    + intros _. cbn [fst snd option_list]. rewrite decide_True by done. split; [done|].
      rewrite decide_False by done. split; [done|]. exists m'. split; [cbn; apply lookup_insert_eq|].
      eapply shares_of_ext; [exact Hm'|exact HQ].
    + by apply adds_waiting.
Qed.

Lemma deliver_result now u tr e evs :
  u ∈ ps -> all_in tr -> (u, result) ∉ tr -> (forall q, q ∈ tr -> leader_issued tr q) ->
  leader_node_ok u tr (e, evs) -> delivers now u result tr e evs.
Proof.
  intros Hu Ha Ht Hcl Hok. specialize (Hok Hu). cbn [fst snd] in Hok.
  destruct (result_handled now e (ctxs u)) as (e' & E & Hcoll & Hsame).
  exists e', (Some (MessageReceived ch text r)), []. split_and!; [exact E| |by apply adds_no_share].
  assert (Hrec : received tr u = [] /\ received (tr ++ [(u, result)]) u = [MessageReceived ch text r]).
  { unfold received. rewrite decide_False, decide_True by (rewrite ?in_snoc; auto). done. }
  destruct Hrec as [Hr0 Hr1]. intros _. cbn [fst snd option_list]. destruct (decide (u = leader)) as [->|Hne].
  - destruct Hok as [Hcur Hs]. rewrite decide_True in Hs by done. destruct Hs as [Hc ->]. rewrite Hr0, (Hsame Hcur).
    split; [done|]. rewrite decide_True by (by apply all_in_snoc). by rewrite Hr1.
  - destruct Hok as [Hs ->]. rewrite Hr0. split; [|by rewrite Hr1]. intros Hx. destruct Hx. rewrite in_snoc. right.
    apply all_in_started; try done. by apply elem_of_others.
Qed.

Definition leader_protocol : @Protocol _ _ (engine_node ctxs) t0 (t0 + from_secs 30).
Proof.
  refine (@Build_Protocol _ _ (engine_node ctxs) t0 (t0 + from_secs 30) leader_issued leader_node_ok
    leader_issued_mono leader_node_frame _).
  intros now u m tr x evs x' evs' out Hnow Hcl _ Hi Hf Hok Hrecv.
  assert (Hd : delivers now u m tr x evs).
  { destruct Hi as [(v & Hv & [= -> ->])|[(w & Hw & Hs & [= -> ->])|[Ha (v & Hv & [= -> ->])]]].
    - specialize (Hok Hv). destruct (decide (v = leader)) as [->|Hne]; [by apply deliver_own_start|by apply leader_deliver_start].
    - specialize (Hok Hleader). rewrite decide_True in Hok by done. by apply leader_deliver_share.
    - by apply deliver_result. }
  destruct Hd as (y & ev & out' & E & Hy & Hadd). unfold receive, engine_node in Hrecv. rewrite E in Hrecv.
  injection Hrecv as <- <- <-. split; [exact Hy|exact Hadd].
Defined.

(** The network when the leader has started the round. *)
Definition leader_begin (eng : string -> RoundEngine.t) : PacketNet.t RoundEngine.t RoundEvent :=
  let '(e, out) := start_round_as_leader t0 (eng leader) ch ps (ctxs leader) in
  PacketNet.mk (upd (fun u => (eng u, [])) leader (e, [])) out [] [].

(** What each participant's user is told. *)
Definition leader_reports (u : string) : list RoundEvent :=
  (if decide (u = leader) then [MessageExtracted ch text r] else []) ++ [MessageReceived ch text r].

Definition leader_universe : list packet :=
  ((fun v => (v, start)) <$> ps) ++ ((fun w => (leader, share w)) <$> others leader ps) ++ ((fun v => (v, result)) <$> ps).

Lemma issued_universe tr q : leader_issued tr q -> q ∈ leader_universe.
Proof.
  unfold leader_universe. rewrite !elem_of_app, !list_elem_of_fmap.
  intros [(v & ? & ->)|[(w & ? & _ & ->)|[_ (v & ? & ->)]]]; eauto 6.
Qed.

Lemma leader_universe_length : (length leader_universe + 1 = 3 * length ps)%nat.
Proof.
  unfold leader_universe. rewrite !length_app, !length_fmap.
  pose proof (Permutation_length (others_perm leader ps Hnd Hleader)) as Hl. cbn in Hl. lia.
Qed.

Lemma none_in : ~ all_in [].
Proof.
  intros Ha. pose proof (Permutation_length (others_perm leader ps Hnd Hleader)) as Hl. unfold all_in in Ha.
  destruct (others leader ps) as [|w l]; [cbn in Hl; unfold zlen in Htwo; lia|].
  apply Forall_cons in Ha as [?%not_elem_of_nil _]. done.
Qed.

Lemma leader_begin_inv eng :
  (forall u, u ∈ ps -> ready r u (queue_of sender text u) (eng u)) ->
  @inv _ _ _ _ _ leader_protocol (leader_begin eng).
Proof.
  intros Hready. destruct (leader_starts keys sk ps sender text ch r leader t0 (eng leader) (ctxs leader)) as (e1 & E & Hc); auto.
  assert (Hcur : RoundTracker.current_round_id (tracker e1) = r).
  { pose proof (rd_cur _ _ _ _ (Hready _ Hleader)) as Hcu. revert E. unfold start_round_as_leader, RoundTracker.next_round.
    rewrite Hcu, wrap64_small by lia. unfold RoundTracker.dequeue_message. repeat case_match; intros [= <- _]; simplify_eq; done. }
  unfold leader_begin. rewrite E. split; cbn [soup trace lost nodes]; rewrite ?app_nil_r.
  - apply NoDup_fmap_2; [by intros ?? [= ->]|done].
  - intros q. cbn [issued leader_protocol]. rewrite ?app_nil_r, list_elem_of_fmap. split.
    + intros (v & -> & Hv). left. eauto.
    + intros [(v & Hv & ->)|[(w & _ & ?%not_elem_of_nil & _)|[Ha _]]]; [eauto|done|].
      by apply none_in in Ha.
  - intros u Hu. destruct (decide (u = leader)) as [->|Hne].
    + rewrite upd_eq. split; [done|]. rewrite decide_False by apply none_in. split; [done|]. eexists. split.
      * cbn [fst]. rewrite Hc. f_equal. cbn [CollectorFacts.submit_all foldl fst snd].
        exact (f_equal fst (collector_submit keys ps sender text ch r DEFAULT_PAYLOAD_LEN Hkeys Htwo Hfit ltac:(done)
          (fun _ => False) t0 ∅ leader (shares_of_empty _ _ _ _ _ _) (fun x => x) Hleader)).
      * eapply shares_of_ext; [apply shares_of_insert, shares_of_empty|].
        intros v. cbn. split; [tauto|]. intros [?|[_ ?%not_elem_of_nil]]; tauto.
    + rewrite upd_ne by done. split; [auto|done].
  - intros [|? tr1] q tr2; discriminate.
Qed.

Lemma leader_told tr e evs u :
  u ∈ ps -> leader_node_ok u tr (e, evs) -> evs `prefix_of` leader_reports u /\
  (all_in tr -> (u, result) ∈ tr -> evs = leader_reports u).
Proof.
  intros Hu Hok. specialize (Hok Hu). cbn [fst snd] in Hok. unfold leader_reports.
  assert (Hrec : received tr u `prefix_of` [MessageReceived ch text r] /\
    ((u, result) ∈ tr -> received tr u = [MessageReceived ch text r])).
  { unfold received. destruct (decide ((u, result) ∈ tr)); split; try done. apply prefix_nil. }
  destruct Hrec as [Hp Hf]. destruct (decide (u = leader)) as [->|Hne].
  - destruct Hok as [_ Hs]. destruct (decide (all_in tr)) as [Ha|Ha].
    + destruct Hs as [_ ->]. split; [by apply prefix_cons|]. intros _ Hin. by rewrite Hf.
    + destruct Hs as [-> _]. split; [apply prefix_nil|done].
  - destruct Hok as [_ ->]. split; [done|auto].
Qed.

End Leader.
End LeaderNet.

Section LeaderTheorem.
Context `{Crypto, !ShaLaws, !HkdfLaws, !EdLaws}.
Import RoundEngine DriverFacts PacketNet LeaderNet.

(** C6: a leader's round over the whole network. When the leader has started the round, the
    messages between the participants may arrive in any order before the deadline, and any of them
    may be lost. Every such run is finite, three packets per participant less one. What a
    participant's user has been told at any point is the beginning of: the sender's text, twice for
    the leader. The messages in flight can always still be delivered, and when nothing is in flight
    any more and nothing was lost, every participant has been told all of it. *)
Theorem leader_network_delivers keys sk ps leader sender text ch r t0
    (eng : string -> RoundEngine.t) (ctxs : string -> RoundContext) acts s :
  NoDup ps -> edge_keys_agree ps keys -> 2 <= zlen ps -> leader ∈ ps -> sender ∈ ps ->
  str_ok text -> slen text + 36 <= DEFAULT_PAYLOAD_LEN -> 1 <= r < 2 ^ 64 ->
  (forall u, u ∈ ps -> ready r u (queue_of sender text u) (eng u)) ->
  (forall u, u ∈ ps -> honest_ctx keys sk u (ctxs u)) ->
  within t0 (t0 + from_secs 30) acts ->
  run (Node0 := engine_node ctxs) (leader_begin ctxs ps leader ch t0 eng) acts = Some s ->
  (length acts + 1 <= 3 * length ps)%nat /\
  (forall u, u ∈ ps -> (nodes s u).2 `prefix_of` leader_reports leader text ch r u) /\
  (exists acts' s', within t0 (t0 + from_secs 30) acts' /\ run (Node0 := engine_node ctxs) s acts' = Some s' /\
     soup s' = [] /\ lost s' = lost s /\ trace s `prefix_of` trace s') /\
  (soup s = [] -> lost s = [] -> forall u, u ∈ ps -> (nodes s u).2 = leader_reports leader text ch r u).
Proof.
  intros Hnd Hk Htwo Hl Hs Ht Hfit Hr Hready Hctx Hw Hrun.
  pose proof (leader_begin_inv ctxs keys sk ps leader sender text ch r t0 Hnd Hk Htwo Hl Hs Ht Hfit Hr Hctx eng Hready) as Hi0.
  set (Pr := leader_protocol _ _ _ _ _ _ _ _ _ _ _ _ _ _ _ _ _ _ _) in Hi0.
  pose proof (net_run_inv _ _ _ Hi0 Hw Hrun) as Hi.
  pose proof (run_bound (leader_universe keys sk ps leader sender text ch r) _ _ _ Hi0 Hw Hrun
    (issued_universe keys sk ps leader sender text ch r)) as Hlen.
  pose proof (leader_universe_length keys sk ps leader sender text ch r Hnd Hl).
  split_and!; [lia| | |].
  2: { refine (drains (H := Pr) (leader_universe keys sk ps leader sender text ch r) s _ (issued_universe keys sk ps leader sender text ch r) Hi).
       unfold from_secs. lia. }
  - intros u Hu. pose proof (inv_nodes _ Hi u) as Hn. destruct (nodes s u) as [e evs].
    exact (proj1 (leader_told keys sk ps leader sender text ch r t0 (trace s) e evs u Hu Hn)).
  - intros Es El u Hu. pose proof (inv_nodes _ Hi u) as Hn. destruct (nodes s u) as [e evs].
    assert (Hq : forall q, leader_issued keys sk ps leader sender text ch r (trace s) q -> q ∈ trace s)
      by (intros q; by apply (quiescent s q Hi)).
    assert (Ha : all_in keys sk ps leader sender text ch r (trace s)).
    { apply Forall_forall. intros w Hw'. apply Hq. right; left. exists w. split_and!; try done.
      apply Hq. left. exists w. apply elem_of_others in Hw' as [_ ?]. done. }
    apply (leader_told keys sk ps leader sender text ch r t0 (trace s) e evs u Hu Hn); [done|].
    apply Hq. right; right. eauto.
Qed.

End LeaderTheorem.

(** ** The mesh protocol *)

Module MeshNet.
Import RoundDriver DriverFacts Holding PacketNet.

(** The driver of [u] in its context. *)
Definition driver_node `{Crypto} (ctxs : string -> RoundContext) : Node RoundDriver.t ExtractedMessage :=
  fun u now d m => let '(d', act) := handle now d m (ctxs u) in (d', (extracted act, outgoing act)).

Section Mesh.
Context `{Crypto, !ShaLaws, !HkdfLaws, !EdLaws}.
Variables (ctxs : string -> RoundContext) (keys : string -> gmap string bytes) (sk : string -> bytes)
  (ps : list string) (init text ch : string) (r t0 : Z).
Local Abbreviation n := CHANNEL_PAYLOAD_LEN.
Local Abbreviation share_of := (mesh_share keys ps init text r n).
Local Abbreviation sig_of := (mesh_sig keys sk ps init text ch r n).

Definition start : PeerMessage := DcRoundStart ch r init ps CHANNEL_ROUND_DEADLINE_SECS n.
Definition share (w : string) : PeerMessage := DcRoundShare ch r w (share_of w) (sig_of w).

(** What was delivered before and after the start of [v]. *)
Fixpoint before_start (v : string) (tr : list packet) : list packet :=
  match tr with
  | [] => []
  | p :: tr' => if decide (p = (v, start)) then [] else p :: before_start v tr'
  end.

Fixpoint after_start (v : string) (tr : list packet) : list packet :=
  match tr with
  | [] => []
  | p :: tr' => if decide (p = (v, start)) then tr' else after_start v tr'
  end.

(** A share reached [v] before the start did. *)
Definition early (v : string) (tr : list packet) : Prop :=
  Exists (fun w => (v, share w) ∈ before_start v tr) ps.

(** [v] has the share of [w] in its collector. *)
Definition counted (v : string) (tr : list packet) (w : string) : Prop :=
  if decide (v = init) then (init, share w) ∈ tr else (v, share w) ∈ after_start v tr.

#[local] Instance counted_dec v tr w : Decision (counted v tr w).
Proof. unfold counted. destruct (decide (v = init)); apply _. Defined.

Definition full (v : string) (tr : list packet) : Prop := Forall (counted v tr) (others v ps).

(** [w] has sent its share. *)
Definition sent (tr : list packet) (w : string) : Prop :=
  if decide (w = init) then full init tr else (w, start) ∈ tr.

Definition mesh_issued (tr : list packet) (q : packet) : Prop :=
  (exists v, v ∈ others init ps /\ q = (v, start)) \/
  (exists w v, w ∈ ps /\ v ∈ ps /\ v <> w /\ sent tr w /\ q = (v, share w)).

(** Collecting the shares of the others since [now]. *)
Record collecting (v : string) (tr : list packet) (now : Z) (own : bool) (d : RoundDriver.t) : Prop := {
  co_time : t0 <= now < t0 + from_secs 30;
  co_shares : exists m, waiting r (collector ps ch r n now m) d /\
    shares_of keys ps init text r n (fun w => (own = true /\ w = v) \/ w ∈ others v ps /\ counted v tr w) m;
}.

Definition neutral_state (v : string) (tr : list packet) (d : RoundDriver.t) (evs : list ExtractedMessage) : Prop :=
  if decide ((v, start) ∈ tr) then
    if decide (full v tr) then evs = [mkExtracted ch text r]
    else evs = [] /\ pending_round_id d = None /\ exists now, collecting v tr now true d
  else idle r d /\ evs = [].

Definition init_state (tr : list packet) (d : RoundDriver.t) (evs : list ExtractedMessage) : Prop :=
  if decide (full init tr) then evs = [mkExtracted ch text r]
  else evs = [] /\ pending_round_id d = Some r /\ my_share d = Some (share_of init, sig_of init) /\
    my_share_broadcast d = false /\ collecting init tr t0 false d.

Definition mesh_node_ok (u : string) (tr : list packet) (x : RoundDriver.t * list ExtractedMessage) : Prop :=
  u ∈ ps -> if decide (u = init) then init_state tr x.1 x.2 else neutral_state u tr x.1 x.2.

Hypotheses
  (Hnd : NoDup ps) (Hkeys : edge_keys_agree ps keys) (Htwo : 2 <= zlen ps) (Hinit : init ∈ ps)
  (Htext : str_ok text) (Hfit : slen text + 36 <= n)
  (Hctx : forall u, u ∈ ps -> honest_ctx keys sk u (ctxs u)).

Lemma before_after v tr : (v, start) ∈ tr -> tr = before_start v tr ++ (v, start) :: after_start v tr.
Proof.
  induction tr as [|p tr IH]; [by intros ?%not_elem_of_nil|]. cbn. case_decide as Hp; [by subst|].
  intros [?|?]%elem_of_cons; [congruence|]. cbn. f_equal. auto.
Qed.

Lemma before_all v tr : (v, start) ∉ tr -> before_start v tr = tr /\ after_start v tr = [].
Proof.
  induction tr as [|p tr IH]; [done|]. intros [Hp Ht]%not_elem_of_cons. cbn. rewrite !decide_False by congruence.
  destruct (IH Ht) as [-> ->]. done.
Qed.

Lemma before_snoc v tr p : before_start v (tr ++ [p]) =
  if decide ((v, start) ∈ tr) then before_start v tr else if decide (p = (v, start)) then tr else tr ++ [p].
Proof.
  induction tr as [|q tr IH]; cbn.
  - rewrite (decide_False (P := _ ∈ [])) by apply not_elem_of_nil. by case_decide.
  - destruct (decide (q = (v, start))) as [->|Hq]; [by rewrite decide_True by left|]. rewrite IH.
    destruct (decide ((v, start) ∈ tr)) as [Hin|Hin]; [by rewrite decide_True by (by right)|].
    rewrite (decide_False (P := _ ∈ q :: tr)) by (by intros [?|?]%elem_of_cons). by case_decide.
Qed.

Lemma after_snoc v tr p : after_start v (tr ++ [p]) = if decide ((v, start) ∈ tr) then after_start v tr ++ [p] else [].
Proof.
  induction tr as [|q tr IH]; cbn.
  - rewrite (decide_False (P := _ ∈ [])) by apply not_elem_of_nil. by case_decide.
  - destruct (decide (q = (v, start))) as [->|Hq]; [by rewrite decide_True by left|]. rewrite IH. apply decide_ext.
    rewrite elem_of_cons. naive_solver.
Qed.

Lemma after_sub v tr q : q ∈ after_start v tr -> q ∈ tr.
Proof.
  intros Hq. destruct (decide ((v, start) ∈ tr)) as [Ht|Ht].
  - rewrite (before_after v tr Ht), elem_of_app, elem_of_cons. auto.
  - destruct (before_all v tr Ht) as [_ E]. rewrite E in Hq. by apply not_elem_of_nil in Hq.
Qed.

Lemma counted_in v tr w : counted v tr w -> (v, share w) ∈ tr.
Proof. unfold counted. case_decide as Hv; [by subst|]. apply after_sub. Qed.

Lemma mesh_share_inj (u u' v w : string) : (u, share v) = (u', share w) -> u = u' /\ v = w.
Proof. intros E. injection E. intros. by subst. Qed.

Lemma others_inhabited v : v ∈ ps -> exists w, w ∈ others v ps.
Proof.
  intros Hv. pose proof (Permutation_length (others_perm v ps Hnd Hv)) as Hl.
  destruct (others v ps) as [|w l]; [cbn in Hl; unfold zlen in Htwo; lia|]. exists w. by left.
Qed.

Lemma counted_snoc v tr p w : p <> (v, share w) -> counted v (tr ++ [p]) w <-> counted v tr w.
Proof.
  intros Hp. unfold counted. case_decide as Hv; [subst; by apply in_snoc_ne|]. rewrite after_snoc.
  destruct (decide ((v, start) ∈ tr)) as [Ht|Ht]; [by apply in_snoc_ne|].
  by destruct (before_all v tr Ht) as [_ ->].
Qed.

Lemma counted_new v tr w : v = init \/ (v, start) ∈ tr -> counted v (tr ++ [(v, share w)]) w.
Proof.
  intros Hv. unfold counted. case_decide as Hi; [subst; apply in_snoc; auto|]. destruct Hv as [?|Hv]; [done|].
  rewrite after_snoc, decide_True by done. apply in_snoc. auto.
Qed.

Lemma full_snoc v tr p : (forall w, p <> (v, share w)) -> full v (tr ++ [p]) <-> full v tr.
Proof. intros Hp. unfold full. rewrite !Forall_forall. by setoid_rewrite counted_snoc; [|apply Hp]. Qed.

(** Only a start or the last share for the initiator makes somebody send. *)
Lemma sent_snoc tr p w : p <> (w, start) -> (w = init -> forall x, p <> (init, share x)) -> sent (tr ++ [p]) w <-> sent tr w.
Proof.
  intros Hp Hi. unfold sent. case_decide as Hw; [apply full_snoc; auto|]. by apply in_snoc_ne.
Qed.

Lemma counted_mono v tr p w : counted v tr w -> counted v (tr ++ [p]) w.
Proof.
  unfold counted. case_decide; [rewrite in_snoc; auto|]. rewrite after_snoc.
  destruct (decide ((v, start) ∈ tr)) as [Ht|Ht]; [rewrite in_snoc; auto|].
  destruct (before_all v tr Ht) as [_ ->]. by intros ?%not_elem_of_nil.
Qed.

Lemma sent_mono tr p w : sent tr w -> sent (tr ++ [p]) w.
Proof.
  unfold sent. case_decide; [|rewrite in_snoc; auto]. intros Hf. eapply Forall_impl; [exact Hf|]. intros x. apply counted_mono.
Qed.

Lemma mesh_issued_mono tr p q : mesh_issued tr q -> mesh_issued (tr ++ [p]) q.
Proof.
  intros [?|(w & v & ? & ? & ? & Hs & ->)]; [by left|]. right. exists w, v. split_and!; try done. by apply sent_mono.
Qed.

Lemma collecting_snoc v tr p now own d :
  (forall w, p <> (v, share w)) -> collecting v tr now own d -> collecting v (tr ++ [p]) now own d.
Proof.
  intros Hp [Ht (m & Hw & Hm)]. split; [done|]. exists m. split; [done|]. eapply shares_of_ext; [exact Hm|].
  intros w. cbn. by rewrite (counted_snoc v tr p w) by auto.
Qed.

Lemma mesh_node_frame u tr p x : p.1 <> u -> mesh_node_ok u tr x -> mesh_node_ok u (tr ++ [p]) x.
Proof.
  intros Hp Hok Hu. specialize (Hok Hu).
  assert (Hne : forall w, p <> (u, share w)) by (intros w ->; done).
  pose proof (full_snoc u tr p Hne) as Hf. destruct (decide (u = init)) as [->|Hi].
  - unfold init_state in *. destruct (decide (full init (tr ++ [p]))), (decide (full init tr)); try tauto.
    destruct Hok as (? & ? & ? & ? & ?). split_and!; try done. by apply collecting_snoc.
  - unfold neutral_state in *. assert (Hs : (u, start) ∈ tr ++ [p] <-> (u, start) ∈ tr) by (apply in_snoc_ne; intros <-; done).
    destruct (decide ((u, start) ∈ tr ++ [p])), (decide ((u, start) ∈ tr)); try tauto.
    destruct (decide (full u (tr ++ [p]))), (decide (full u tr)); try tauto.
    destruct Hok as (? & ? & now & ?). split_and!; try done. exists now. by apply collecting_snoc.
Qed.

Local Abbreviation adds := (PacketNet.adds mesh_issued).

Lemma adds_silent tr p :
  (forall w, w ∈ ps -> sent (tr ++ [p]) w -> sent tr w) -> adds tr p [].
Proof.
  intros Hs. apply adds_nothing. intros q [?|(w & v & ? & ? & ? & ? & ->)]; [by left|].
  right. exists w, v. auto 6.
Qed.

(** The share of [w] goes to everybody else. *)
Lemma adds_broadcast tr p w rs :
  w ∈ ps -> rs ≡ₚ ps -> ~ sent tr w -> sent (tr ++ [p]) w ->
  (forall x, x <> w -> sent (tr ++ [p]) x -> sent tr x) ->
  adds tr p (to_others w rs (share w)).
Proof.
  intros Hw Hrs Hn Hs Hx. unfold to_others. split.
  - apply NoDup_fmap_2; [by intros ?? [= ->]|]. apply NoDup_filter. by rewrite Hrs.
  - intros q. rewrite list_elem_of_fmap. split.
    + intros (v & -> & [Hv Hvp]%elem_of_others). rewrite Hrs in Hvp. split; [right; exists w, v; auto|].
      intros [(y & _ & E)|(y & z & _ & _ & _ & Hy & E)]; [done|]. apply mesh_share_inj in E as [_ ->]. done.
    + intros [[?|(y & z & Hy & Hz & Hne & Hsy & ->)] Hni]; [destruct Hni; by left|].
      destruct (decide (y = w)) as [->|Hyw].
      * exists z. split; [done|]. apply elem_of_others. by rewrite Hrs.
      * destruct Hni. right. exists y, z. auto 6.
Qed.

Lemma collector_holds now m :
  shares_of keys ps init text r n (fun u => u ∈ ps) m -> holds (collector ps ch r n now m) text.
Proof.
  intros Hm. destruct (collector_extracts keys ps init text ch r n Hnd Hkeys Htwo Hinit Hfit ltac:(done) now m Hm) as (Hc & Hx & Hu).
  split; [exact Hc|]. rewrite Hx. cbn [mbind option_bind]. rewrite Hu. by apply from_utf8_str.
Qed.

Lemma admitted v w : v ∈ ps -> share_admitted (ctxs v) ch r w (share_of w) (sig_of w) = true.
Proof. intros Hv. eapply honest_admits. by apply Hctx. Qed.

(** The deliveries: a start, a share before the start, a share for a neutral participant, a share
    for the initiator. *)
Definition delivers (now : Z) (u : string) (m : PeerMessage) (tr : list packet) (x : RoundDriver.t) (evs : list ExtractedMessage) : Prop :=
  exists x' act, handle now x m (ctxs u) = (x', act) /\
    mesh_node_ok u (tr ++ [(u, m)]) (x', evs ++ extracted act) /\ adds tr (u, m) (outgoing act).

Lemma mesh_deliver_start now v tr d :
  t0 <= now < t0 + from_secs 30 -> v ∈ others init ps -> (v, start) ∉ tr -> idle r d -> delivers now v start tr d [].
Proof.
  intros Hnow [Hne Hv]%elem_of_others Ht Hi.
  destruct (mesh_start keys sk ps init text ch r now Hkeys Htwo Hfit (ctxs v) v d) as (c & d1 & E & Hw & Hp & _ & Ec); auto.
  exists d1. eexists. split; [exact E|]. cbn [extracted outgoing]. split.
  - intros _. cbn [fst snd]. rewrite decide_False by done. unfold neutral_state.
    assert (Hnc : forall w, ~ counted v (tr ++ [(v, start)]) w).
    { intros w. unfold counted. rewrite decide_False, after_snoc, decide_False by done. apply not_elem_of_nil. }
    rewrite decide_True by (rewrite in_snoc; auto). rewrite decide_False.
    2: { unfold full. destruct (others_inhabited v Hv) as [w Hw']. rewrite Forall_forall. intros Ha. by apply (Hnc w), Ha. }
    split_and!; try done. exists now. split; [done|]. eexists. split.
    + replace (collector _ _ _ _ _ _) with c; [exact Hw|]. rewrite Ec. cbn [CollectorFacts.submit_all foldl fst snd].
      exact (f_equal fst (collector_submit keys ps init text ch r n Hkeys Htwo Hfit ltac:(done)
        (fun _ => False) now ∅ v (shares_of_empty _ _ _ _ _ _) (fun x => x) Hv)).
    + eapply shares_of_ext; [apply shares_of_insert, shares_of_empty|]. intros w. cbn. naive_solver.
  - apply (adds_broadcast tr (v, start) v ps); try done.
    + unfold sent. by rewrite decide_False.
    + unfold sent. rewrite decide_False, in_snoc by done. auto.
    + intros x Hx Hs. rewrite sent_snoc in Hs; [done|congruence|done].
Qed.

Lemma deliver_early now v w tr d :
  v ∈ ps -> v <> init -> (v, start) ∉ tr -> idle r d -> delivers now v (share w) tr d [].
Proof.
  intros Hv Hne Ht Hi. exists d, no_action. split; [|split].
  - unfold handle. rewrite (idle_no_expired r) by done. cbn [share]. unfold on_round_share.
    rewrite (admitted v w Hv), (idle_coll _ _ Hi), lookup_empty. cbn. rewrite (idle_out _ _ Hi).
    f_equal. by apply set_outgoing_nil, Hi.
  - intros _. cbn [fst snd]. rewrite decide_False by done. unfold neutral_state. rewrite decide_False by (by rewrite in_snoc_ne).
    done.
  - apply adds_silent. intros x _ Hs. rewrite sent_snoc in Hs; [done|done|]. intros _ y E. injection E. congruence.
Qed.

(** A new share enters the collector. *)
Lemma collecting_submit v tr now own d w :
  collecting v tr now own d -> v = init \/ (v, start) ∈ tr -> w ∈ others v ps -> (v, share w) ∉ tr ->
  exists m m', waiting r (collector ps ch r n now m) d /\
    RoundCollector.submit_share (collector ps ch r n now m) w (share_of w) = (collector ps ch r n now m', Ok tt) /\
    shares_of keys ps init text r n
      (fun x => (own = true /\ x = v) \/ x ∈ others v ps /\ counted v (tr ++ [(v, share w)]) x) m'.
Proof.
  intros [_ (m & Hw & Hm)] Hv Hwo Ht. pose proof Hwo as [Hne Hwp]%elem_of_others.
  exists m, (<[w := share_of w]> m). split; [done|]. split.
  - eapply collector_submit; try done. intros [[_ ?]|[_ ?%counted_in]]; done.
  - eapply shares_of_ext; [by apply shares_of_insert|]. intros x. cbn. destruct (decide (x = w)) as [->|Hx].
    + split; [|auto]. intros _. right. split; [done|]. by apply counted_new.
    + rewrite counted_snoc; [naive_solver|]. intros E. apply mesh_share_inj in E as [_ ?]. congruence.
Qed.

Lemma not_full_missing v tr : ~ full v tr -> exists x, x ∈ others v ps /\ ~ counted v tr x.
Proof. intros Hf. apply not_Forall_Exists in Hf; [|apply _]. by apply Exists_exists in Hf. Qed.

Lemma full_covers v tr own m : full v tr -> v ∈ ps ->
  shares_of keys ps init text r n (fun x => (own = true /\ x = v) \/ x ∈ others v ps /\ counted v tr x) m ->
  shares_of keys ps init text r n (fun x => (own = true /\ x = v) \/ x ∈ ps /\ x <> v) m.
Proof.
  intros Hf Hv Hm. eapply shares_of_ext; [exact Hm|]. unfold full in Hf. rewrite Forall_forall in Hf.
  intros x. cbn. specialize (Hf x). rewrite elem_of_others in *. naive_solver.
Qed.

Lemma mesh_deliver_share now v w tr d :
  t0 <= now < t0 + from_secs 30 -> v ∈ ps -> v <> init -> w ∈ others v ps -> (v, start) ∈ tr -> (v, share w) ∉ tr ->
  neutral_state v tr d [] -> delivers now v (share w) tr d [].
Proof.
  intros Hnow Hv Hne Hw Hs Ht Hok. pose proof Hw as [_ Hwp]%elem_of_others. unfold neutral_state in Hok. rewrite decide_True in Hok by done.
  rewrite decide_False in Hok by (unfold full; rewrite Forall_forall; intros Ha; by apply Ht, counted_in, Ha).
  destruct Hok as (_ & Hp & now0 & Hco).
  destruct (collecting_submit v tr now0 true d w Hco) as (m & m' & Hwait & Hsub & Hm'); auto.
  assert (Hx : RoundCollector.is_expired now (collector ps ch r n now0 m) = false)
    by (apply collector_expired; destruct (co_time _ _ _ _ _ Hco); lia).
  assert (Hadd : adds tr (v, share w) []).
  { apply adds_silent. intros x _ Hsx. rewrite sent_snoc in Hsx; [done|done|]. intros _ y E. injection E. congruence. }
  assert (Hst : (v, start) ∈ tr ++ [(v, share w)]) by (rewrite in_snoc; auto).
  assert (Hok' : forall x' evs,
    (full v (tr ++ [(v, share w)]) -> evs = [mkExtracted ch text r]) ->
    (~ full v (tr ++ [(v, share w)]) -> evs = [] /\ pending_round_id x' = None /\
       exists now, collecting v (tr ++ [(v, share w)]) now true x') ->
    mesh_node_ok v (tr ++ [(v, share w)]) (x', evs)).
  { intros x' evs H1' H2' _. cbn [fst snd]. rewrite decide_False by done. unfold neutral_state. rewrite decide_True by done.
    case_decide; auto. }
  destruct (decide (full v (tr ++ [(v, share w)]))) as [Hf|Hf].
  - pose proof (full_covers v _ _ _ Hf Hv Hm') as Hfull.
    eexists _, _. split.
    + eapply handle_share_final; [exact Hwait|done|exact Hx|by apply admitted|exact Hsub|]. apply collector_holds.
      eapply shares_of_ext; [exact Hfull|]. intros x. cbn. destruct (decide (x = v)); naive_solver.
    + split; [by apply Hok'|exact Hadd].
  - destruct (not_full_missing _ _ Hf) as (x & Hxo & Hxc). apply elem_of_others in Hxo as [Hxv Hxp].
    eexists _, no_action. split; [|split; [apply Hok'; [done|intros _]|exact Hadd]].
    + eapply handle_share_wait; [exact Hwait|exact Hx|by apply admitted|exact Hsub|congruence|].
      eapply (collector_incomplete keys ps init text ch r n) with (u := x); [done|done|done|done|exact Hm'| |done|].
      * intros y [[_ ->]|[Hy _]]; [done|]. by apply elem_of_others in Hy as [_ ?].
      * intros [[_ ?]|[_ ?]]; done.
    + split_and!; [done|done|]. exists now0. destruct Hco as [Htm _]. split; [done|]. exists m'. split; [|done].
      by eapply waiting_step.
Qed.

(** With every other share there, the initiator is the one missing, and its own share enters. *)
Lemma init_last now m :
  shares_of keys ps init text r n (fun x => (false = true /\ x = init) \/ x ∈ ps /\ x <> init) m ->
  RoundCollector.missing_participants (collector ps ch r n now m) = [init] /\
  RoundCollector.submit_share (collector ps ch r n now m) init (share_of init) =
    (collector ps ch r n now (<[init := share_of init]> m), Ok tt) /\
  shares_of keys ps init text r n (fun x => x ∈ ps) (<[init := share_of init]> m).
Proof.
  intros Hfull. split_and!.
  - apply NoDup_singleton_iff; [apply NoDup_filter, NoDup_elements|]. intros y.
    rewrite (collector_missing keys ps init text ch r n) by (done || exact Hfull). destruct (decide (y = init)); naive_solver.
  - eapply collector_submit; [done..|exact Hfull| |done]. intros [[? _]|[_ ?]]; done.
  - eapply shares_of_ext; [by apply shares_of_insert|]. intros y. cbn. destruct (decide (y = init)); naive_solver.
Qed.

Lemma deliver_to_init now w tr d :
  t0 <= now < t0 + from_secs 30 -> w ∈ others init ps -> (init, share w) ∉ tr ->
  init_state tr d [] -> delivers now init (share w) tr d [].
Proof.
  intros Hnow Hw Ht Hok. pose proof Hw as [Hwi Hwp]%elem_of_others. unfold init_state in Hok.
  assert (Hnf : ~ full init tr) by (unfold full; rewrite Forall_forall; intros Ha; by apply Ht, counted_in, Ha).
  rewrite decide_False in Hok by done. destruct Hok as (_ & Hp & Hsh & Hb & Hco).
  destruct (collecting_submit init tr t0 false d w Hco) as (m & m' & Hwait & Hsub & Hm'); auto.
  pose proof (hc_uid _ _ _ _ (Hctx init Hinit)) as Hme.
  assert (Hx : RoundCollector.is_expired now (collector ps ch r n t0 m) = false) by (apply collector_expired; lia).
  assert (Hok' : forall x' evs,
    (full init (tr ++ [(init, share w)]) -> evs = [mkExtracted ch text r]) ->
    (~ full init (tr ++ [(init, share w)]) -> evs = [] /\ pending_round_id x' = Some r /\
       my_share x' = Some (share_of init, sig_of init) /\ my_share_broadcast x' = false /\
       collecting init (tr ++ [(init, share w)]) t0 false x') ->
    mesh_node_ok init (tr ++ [(init, share w)]) (x', evs)).
  { intros x' evs H1' H2' _. cbn [fst snd]. rewrite decide_True by done. unfold init_state. case_decide; auto. }
  assert (Hsi : forall x, x <> init -> sent (tr ++ [(init, share w)]) x -> sent tr x)
    by (intros x Hxi Hs; by rewrite sent_snoc in Hs).
  destruct (decide (full init (tr ++ [(init, share w)]))) as [Hf|Hf].
  - pose proof (full_covers init _ _ _ Hf Hinit Hm') as Hfull.
    destruct (init_last t0 m' Hfull) as (Hmiss & Hown & Hall). rewrite <-Hme in Hmiss, Hown at 1.
    eexists _, _. split; [|split].
    + eapply handle_share_mine; [exact Hwait|exact Hp|exact Hsh|exact Hb|exact Hx|by apply admitted|exact Hsub|exact Hmiss|].
      rewrite Hown. by apply collector_holds.
    + by apply Hok'.
    + cbn [outgoing]. rewrite Hme. apply (adds_broadcast tr _ init).
      * done.
      * cbn. by rewrite elements_list_to_set.
      * unfold sent. by rewrite decide_True.
      * unfold sent. by rewrite decide_True.
      * done.
  - destruct (not_full_missing _ _ Hf) as (x & Hxo & Hxc). apply elem_of_others in Hxo as [Hxv Hxp].
    eexists _, no_action. split; [|split; [apply Hok'; [done|intros _]|]].
    + eapply handle_share_wait; [exact Hwait|exact Hx|by apply admitted|exact Hsub| |].
      * intros _ E. assert (Hin : x ∈ RoundCollector.missing_participants (collector ps ch r n t0 m')).
        { rewrite (collector_missing keys ps init text ch r n) by (done || exact Hm'). split; [done|]. intros [[? _]|[_ ?]]; done. }
        rewrite E, Hme in Hin. by apply list_elem_of_singleton in Hin.
      * eapply (collector_incomplete keys ps init text ch r n) with (u := x); [done|done|done|done|exact Hm'| |done|].
        -- intros y [[? _]|[Hy _]]; [done|]. by apply elem_of_others in Hy as [_ ?].
        -- intros [[? _]|[_ ?]]; done.
    + split_and!; [done|exact Hp|exact Hsh|exact Hb|]. destruct Hco as [Htm _]. split; [done|]. exists m'. split; [|done].
      by eapply waiting_step.
    + apply adds_silent. intros y Hy Hs. destruct (decide (y = init)) as [->|?]; [|auto].
      unfold sent in Hs. by rewrite decide_True in Hs.
Qed.

Definition mesh_protocol : @Protocol _ _ (driver_node ctxs) t0 (t0 + from_secs 30).
Proof.
  refine (@Build_Protocol _ _ (driver_node ctxs) t0 (t0 + from_secs 30) mesh_issued mesh_node_ok
    mesh_issued_mono mesh_node_frame _).
  intros now u m tr x evs x' evs' out Hnow Hcl _ Hi Hf Hok Hrecv.
  assert (Hd : evs = [] /\ delivers now u m tr x []).
  { destruct Hi as [(v & Hv & [= -> ->])|(w & v & Hw & Hv & Hne & Hs & [= -> ->])].
    - pose proof Hv as [Hvi Hvp]%elem_of_others. specialize (Hok Hvp). cbn [fst snd] in Hok. rewrite decide_False in Hok by done. unfold neutral_state in Hok.
      rewrite decide_False in Hok by done. destruct Hok as [? ->]. split; [done|]. by apply mesh_deliver_start.
    - specialize (Hok Hv). cbn [fst snd] in Hok. assert (Hwo : w ∈ others v ps) by (by apply elem_of_others).
      assert (Hnf : ~ full v tr) by (unfold full; rewrite Forall_forall; intros Ha; by apply Hf, counted_in, Ha).
      destruct (decide (v = init)) as [->|Hvi].
      + assert (evs = []) as -> by (unfold init_state in Hok; rewrite decide_False in Hok by done; apply Hok).
        split; [done|]. by apply deliver_to_init.
      + destruct (decide ((v, start) ∈ tr)) as [Hst|Hst].
        * assert (evs = []) as -> by (unfold neutral_state in Hok; rewrite decide_True, decide_False in Hok by done; apply Hok).
          split; [done|]. by apply mesh_deliver_share.
        * unfold neutral_state in Hok. rewrite decide_False in Hok by done. destruct Hok as [? ->]. split; [done|]. by apply deliver_early. }
  destruct Hd as (-> & y & act & E & Hy & Hadd). unfold receive, driver_node in Hrecv. rewrite E in Hrecv.
  injection Hrecv as <- <- <-. split; [exact Hy|exact Hadd].
Defined.

(** The network when the initiator has called [initiate]. *)
Definition mesh_begin (drv : string -> RoundDriver.t) : PacketNet.t RoundDriver.t ExtractedMessage :=
  let '(d, res) := initiate t0 (drv init) ch text ps (ctxs init) in
  PacketNet.mk (upd (fun u => (drv u, [])) init (d, [])) (match res with Ok out => out | Err _ => [] end) [] [].

Definition mesh_universe : list packet :=
  ((fun v => (v, start)) <$> others init ps) ++ concat ((fun w => to_others w ps (share w)) <$> ps).

Lemma mesh_issued_universe tr q : mesh_issued tr q -> q ∈ mesh_universe.
Proof.
  unfold mesh_universe. rewrite elem_of_app, list_elem_of_fmap. intros [(v & ? & ->)|(w & v & Hw & Hv & Hne & _ & ->)]; [eauto|].
  right. apply list_elem_of_In, in_concat. exists (to_others w ps (share w)). rewrite <-!list_elem_of_In. split.
  - apply list_elem_of_fmap. eauto.
  - unfold to_others. apply list_elem_of_fmap. exists v. split; [done|]. by apply elem_of_others.
Qed.

Lemma others_length v : v ∈ ps -> (length (others v ps) + 1 = length ps)%nat.
Proof. intros Hv. pose proof (Permutation_length (others_perm v ps Hnd Hv)) as Hl. cbn in Hl. lia. Qed.

Lemma mesh_universe_length : (length mesh_universe + 1 = length ps * length ps)%nat.
Proof.
  assert (Hc : forall l, (forall w, w ∈ l -> w ∈ ps) ->
    (length (concat ((fun w => to_others w ps (share w)) <$> l)) + length l = length l * length ps)%nat).
  { induction l as [|w l IH]; intros Hl; [done|]. cbn [fmap list_fmap concat length]. rewrite length_app.
    unfold to_others at 1. rewrite length_fmap. pose proof (others_length w ltac:(apply Hl; by left)).
    specialize (IH ltac:(intros; apply Hl; by right)). cbn [fmap list_fmap] in IH. lia. }
  unfold mesh_universe. rewrite length_app, length_fmap. pose proof (others_length init Hinit).
  specialize (Hc ps ltac:(auto)). lia.
Qed.

Lemma mesh_begin_inv drv : (forall u, u ∈ ps -> idle r (drv u)) -> @inv _ _ _ _ _ mesh_protocol (mesh_begin drv).
Proof.
  intros Hidle. destruct (mesh_initiate keys sk ps init text ch r t0 Hkeys Htwo Hinit Hfit (ctxs init) (drv init))
    as (d1 & E & Hw & Hp & Hs & Hb & _); auto.
  assert (Hnc : forall v w, ~ counted v [] w) by (intros v w ?%counted_in%not_elem_of_nil; done).
  assert (Hnf : forall v, v ∈ ps -> ~ full v []).
  { intros v Hv. destruct (others_inhabited v Hv) as [w Hw']. unfold full. rewrite Forall_forall. intros Ha. by apply (Hnc v w), Ha. }
  unfold mesh_begin. rewrite E. split; cbn [soup trace lost nodes]; rewrite ?app_nil_r.
  - unfold to_others. apply NoDup_fmap_2; [by intros ?? [= ->]|]. by apply NoDup_filter.
  - intros q. cbn [issued mesh_protocol]. rewrite ?app_nil_r. unfold to_others. rewrite list_elem_of_fmap. split.
    + intros (v & -> & Hv). left. eauto.
    + intros [(v & Hv & ->)|(w & v & Hw' & _ & _ & Hsent & ->)]; [eauto|]. exfalso. revert Hsent. unfold sent. case_decide.
      * by apply Hnf.
      * by intros ?%not_elem_of_nil.
  - intros u Hu. destruct (decide (u = init)) as [->|Hne].
    + rewrite upd_eq. unfold init_state. rewrite decide_False by auto. split_and!; try done. split; [unfold from_secs; lia|].
      exists ∅. split; [exact Hw|]. eapply shares_of_ext; [apply shares_of_empty|]. intros w. cbn. specialize (Hnc init w). naive_solver.
    + rewrite upd_ne by done. unfold neutral_state. rewrite decide_False by apply not_elem_of_nil.
      split; [by apply Hidle|done].
  - intros [|? tr1] q tr2; discriminate.
Qed.

Lemma mesh_told tr d evs u : u ∈ ps -> mesh_node_ok u tr (d, evs) ->
  evs `prefix_of` [mkExtracted ch text r] /\
  ((u <> init -> (u, start) ∈ tr) -> (evs = [mkExtracted ch text r] <-> full u tr)).
Proof.
  intros Hu Hok. specialize (Hok Hu). cbn [fst snd] in Hok. destruct (decide (u = init)) as [->|Hne].
  - unfold init_state in Hok. destruct (decide (full init tr)); [subst; done|]. destruct Hok as [-> _]. split; [apply prefix_nil|done].
  - unfold neutral_state in Hok. destruct (decide ((u, start) ∈ tr)) as [Hs|Hs].
    + destruct (decide (full u tr)); [subst; done|]. destruct Hok as [-> _]. split; [apply prefix_nil|done].
    + destruct Hok as [_ ->]. split; [apply prefix_nil|]. intros Hx. by destruct Hs; apply Hx.
Qed.

(** When everything has been delivered, a neutral participant has all shares exactly when none came
    before its start. *)
Lemma full_not_early v tr :
  NoDup tr -> (forall q, q ∈ tr <-> mesh_issued tr q) -> v ∈ others init ps -> (forall w, w ∈ ps -> sent tr w) ->
  full v tr <-> ~ early v tr.
Proof.
  intros Hnt Hq Hv Hs. pose proof Hv as [Hne Hvp]%elem_of_others.
  assert (Hst : (v, start) ∈ tr) by (apply Hq; left; eauto).
  assert (Hin : forall w, w ∈ others v ps -> (v, share w) ∈ tr).
  { intros w [Hw Hwp]%elem_of_others. apply Hq. right. exists w, v. auto 6. }
  pose proof (before_after v tr Hst) as Etr. unfold full, early. rewrite Forall_forall, Exists_exists.
  assert (Hc : forall w, counted v tr w <-> (v, share w) ∈ after_start v tr) by (intros; unfold counted; by rewrite decide_False).
  setoid_rewrite Hc.
  split.
  - intros Hf (w & Hw & Hb). assert (Hwo : w ∈ others v ps).
    { apply elem_of_others. split; [|done]. assert (Hx : (v, share w) ∈ tr) by (rewrite Etr, elem_of_app; auto).
      apply Hq in Hx as [(? & _ & E)|(x & y & _ & _ & Hxy & _ & E)]; [done|]. apply mesh_share_inj in E as [-> ->]. congruence. }
    rewrite Etr in Hnt. apply NoDup_app in Hnt as (_ & Hdis & _). apply (Hdis _ Hb). right. auto.
  - intros Hn w Hw. pose proof (Hin w Hw) as Hx. rewrite Etr, elem_of_app, elem_of_cons in Hx.
    destruct Hx as [Hb|[?|?]]; [|done|done]. destruct Hn. exists w. by apply elem_of_others in Hw as [_ ?].
Qed.

(** With two participants no share can overtake a start. *)
Lemma pair_never_early v tr :
  (forall tr1 q tr2, tr = tr1 ++ q :: tr2 -> mesh_issued tr1 q) -> length ps = 2%nat -> v ∈ others init ps -> ~ early v tr.
Proof.
  intros Hcausal H2' Hv. unfold early. rewrite Exists_exists. intros (w & Hw & Hb). pose proof Hv as [Hne Hvp]%elem_of_others.
  assert (Hpre : exists tr2, tr = before_start v tr ++ tr2).
  { destruct (decide ((v, start) ∈ tr)) as [Ht|Ht]; [eexists; by apply before_after|].
    exists []. rewrite app_nil_r. by destruct (before_all v tr Ht) as [-> _]. }
  destruct Hpre as [tr2 Etr]. assert (Hns : (v, start) ∉ before_start v tr).
  { clear. induction tr as [|p tr IH]; cbn; [apply not_elem_of_nil|]. case_decide; [apply not_elem_of_nil|]. by apply not_elem_of_cons. }
  set (b := before_start v tr) in *. apply list_elem_of_split in Hb as (b1 & b2 & Eb).
  assert (Hi : mesh_issued b1 (v, share w)) by (eapply Hcausal; rewrite Etr, Eb, <-app_assoc; reflexivity).
  destruct Hi as [(? & _ & E)|(x & y & Hx & _ & Hxy & Hsent & E)]; [done|]. apply mesh_share_inj in E as [<- ->].
  assert (Hwi : x = init).
  { pose proof (others_perm init ps Hnd Hinit) as Hp. pose proof (others_length init Hinit) as Hl.
    destruct (others init ps) as [|a [|? ?]]; cbn in Hl; try lia. rewrite <-Hp in Hx. apply list_elem_of_singleton in Hv as ->.
    apply elem_of_cons in Hx as [?|?%list_elem_of_singleton]; congruence. }
  subst x. unfold sent in Hsent. rewrite decide_True in Hsent by done. unfold full in Hsent. rewrite Forall_forall in Hsent.
  specialize (Hsent v Hv). apply counted_in, list_elem_of_split in Hsent as (c1 & c2 & Ec).
  assert (Hi : mesh_issued c1 (init, share v)).
  { eapply Hcausal. rewrite Etr, Eb, Ec, <-!app_assoc. reflexivity. }
  destruct Hi as [(? & _ & E)|(x & y & _ & _ & _ & Hsent & E)]; [done|]. apply mesh_share_inj in E as [_ <-].
  unfold sent in Hsent. rewrite decide_False in Hsent by done. apply Hns. rewrite Eb, Ec, !elem_of_app. auto.
Qed.

End Mesh.
End MeshNet.

Section MeshTheorem.
Context `{Crypto, !ShaLaws, !HkdfLaws, !EdLaws}.
Import RoundDriver DriverFacts PacketNet MeshNet.

(** C5: a mesh round over the whole network, for every order of delivery before the deadline and
    every loss. A run is finite and can always be brought to its end; nobody is ever told anything but
    the initiator's text, and at most once. When nothing is in flight any more and nothing was lost, the initiator has been told its
    text; every other participant has been told it exactly when no share reached it before the start
    did, as the driver drops such a share; and in a round of two that cannot happen. *)
Theorem mesh_network_delivers keys sk ps init text ch r t0
    (drv : string -> RoundDriver.t) (ctxs : string -> RoundContext) acts s :
  NoDup ps -> edge_keys_agree ps keys -> 2 <= zlen ps -> init ∈ ps ->
  str_ok text -> slen text + 36 <= CHANNEL_PAYLOAD_LEN ->
  (forall u, u ∈ ps -> idle r (drv u)) -> (forall u, u ∈ ps -> honest_ctx keys sk u (ctxs u)) ->
  within t0 (t0 + from_secs 30) acts ->
  run (Node0 := driver_node ctxs) (mesh_begin ctxs ps init text ch t0 drv) acts = Some s ->
  let told := [mkExtracted ch text r] in
  (length acts + 1 <= length ps * length ps)%nat /\
  (forall u, u ∈ ps -> (nodes s u).2 `prefix_of` told) /\
  (exists acts' s', within t0 (t0 + from_secs 30) acts' /\ run (Node0 := driver_node ctxs) s acts' = Some s' /\
     soup s' = [] /\ lost s' = lost s /\ trace s `prefix_of` trace s') /\
  (soup s = [] -> lost s = [] ->
     (nodes s init).2 = told /\
     (forall v, v ∈ others init ps -> (nodes s v).2 = told <-> ~ early keys sk ps init text ch r v (trace s)) /\
     (length ps = 2%nat -> forall u, u ∈ ps -> (nodes s u).2 = told)).
Proof.
  intros Hnd Hk Htwo Hin Ht Hfit Hidle Hctx Hw Hrun told.
  pose proof (mesh_begin_inv ctxs keys sk ps init text ch r t0 Hnd Hk Htwo Hin Ht Hfit Hctx drv Hidle) as Hi0.
  set (Pr := mesh_protocol _ _ _ _ _ _ _ _ _ _ _ _ _ _ _ _) in Hi0.
  pose proof (net_run_inv _ _ _ Hi0 Hw Hrun) as Hi.
  pose proof (run_bound (mesh_universe keys sk ps init text ch r) _ _ _ Hi0 Hw Hrun
    (mesh_issued_universe keys sk ps init text ch r)) as Hlen.
  pose proof (mesh_universe_length keys sk ps init text ch r Hnd Hin).
  assert (Htold : forall u, u ∈ ps -> (nodes s u).2 `prefix_of` told /\
    ((u <> init -> (u, start ps init ch r) ∈ trace s) -> ((nodes s u).2 = told <-> full keys sk ps init text ch r u (trace s)))).
  { intros u Hu. pose proof (inv_nodes _ Hi u) as Hn. destruct (nodes s u) as [d evs].
    exact (mesh_told keys sk ps init text ch r t0 (trace s) d evs u Hu Hn). }
  split_and!; [lia|intros u Hu; by apply Htold| |].
  { refine (drains (H := Pr) (mesh_universe keys sk ps init text ch r) s _ (mesh_issued_universe keys sk ps init text ch r) Hi). unfold from_secs. lia. }
  intros Es El.
  assert (Hq : forall q, q ∈ trace s <-> mesh_issued keys sk ps init text ch r (trace s) q).
  { intros q. split; [|by apply (quiescent s q Hi)]. intros Hq. apply (inv_sent _ Hi). rewrite !elem_of_app. auto. }
  assert (Hstart : forall v, v ∈ others init ps -> (v, start ps init ch r) ∈ trace s) by (intros v Hv; apply Hq; left; eauto).
  assert (Hfi : full keys sk ps init text ch r init (trace s)).
  { apply Forall_forall. intros w Hw'. unfold counted. rewrite decide_True by done. apply Hq. right.
    exists w, init. pose proof Hw' as [? ?]%elem_of_others. split_and!; try done. unfold sent. rewrite decide_False by done. auto. }
  assert (Hsent : forall w, w ∈ ps -> sent keys sk ps init text ch r (trace s) w).
  { intros w Hw'. unfold sent. case_decide; [done|]. apply Hstart. by apply elem_of_others. }
  assert (Hnt : NoDup (trace s)).
  { pose proof (inv_once _ Hi) as Ho. apply NoDup_app in Ho as (_ & _ & Ho). by apply NoDup_app in Ho as (? & _ & _). }
  assert (Hv : forall v, v ∈ others init ps -> (nodes s v).2 = told <-> ~ early keys sk ps init text ch r v (trace s)).
  { intros v Hv. pose proof Hv as [_ Hvp]%elem_of_others. destruct (Htold v Hvp) as [_ ->]; [|auto]. by apply full_not_early. }
  assert (Hinit : (nodes s init).2 = told) by (apply (Htold init Hin); [done|exact Hfi]).
  split_and!; [done|exact Hv|]. intros H2' u Hu. destruct (decide (u = init)) as [->|Hne]; [done|].
  assert (Huo : u ∈ others init ps) by (by apply elem_of_others). apply (Hv u Huo).
  apply pair_never_early; try done. exact (inv_causal _ Hi).
Qed.

End MeshTheorem.

(** ** Witnesses *)

Module SystemWitness.
Import PacketNet RoundWitness DriverWitness EngineWitness.
#[local] Existing Instance toy_crypto.

Lemma within_app lo hi acts1 acts2 : within lo hi acts1 -> within lo hi acts2 -> within lo hi (acts1 ++ acts2).
Proof. intros. by apply Forall_app. Qed.

(** Alice leads and Carol has something to say. *)
Definition leader_first : PacketNet.t RoundEngine RoundEvent := LeaderNet.leader_begin ctx ps "alice" "#a" 0 eng.

Lemma leader_network_delivers_witness :
  exists acts s, run (Node0 := LeaderNet.engine_node ctx) leader_first acts = Some s /\ soup s = [] /\
    (nodes s "alice").2 = [MessageExtracted "#a" "hi" 1; MessageReceived "#a" "hi" 1] /\
    (nodes s "bob").2 = [MessageReceived "#a" "hi" 1].
Proof.
  assert (Hrun : forall acts s, within 0 (0 + from_secs 30) acts ->
    run (Node0 := LeaderNet.engine_node ctx) leader_first acts = Some s -> _) by
    (intros acts s Hw Hr; refine (leader_network_delivers keys sk ps "alice" "carol" "hi" "#a" 1 0 eng ctx acts s ps_nodup keys_agree
      ltac:(vm_compute; done) ltac:(left) ltac:(right; right; left) ltac:(reflexivity) ltac:(vm_compute; done) ltac:(lia)
      eng_ready (fun u _ => ctx_honest u) Hw Hr)).
  destruct (Hrun [] leader_first) as (_ & _ & (acts & s & Hw & Hr & Hs & Hl & _) & _); [constructor|reflexivity|].
  destruct (Hrun acts s Hw Hr) as (_ & _ & _ & Hall).
  assert (Hl' : lost leader_first = []) by (unfold leader_first, LeaderNet.leader_begin; by destruct (RoundEngine.start_round_as_leader _ _ _ _ _)).
  rewrite Hl' in Hl. exists acts, s. split; [exact Hr|]. split; [exact Hs|].
  split; (rewrite (Hall Hs Hl); [reflexivity|]); [left|right; left].
Defined.

(** Bob initiates, and Alice's share reaches Carol before Bob's start does. *)
Definition mesh_first : PacketNet.t RoundDriver ExtractedMessage :=
  MeshNet.mesh_begin ctx ps "bob" "hi" "#a" 0 (fun _ => RoundDriver.new 0).
Definition overtaking : list action := [Deliver 0 1; Deliver 2 2].

(** The addressee of a packet and, for a share, its sender. *)
Definition share_edge (p : packet) : string * option string :=
  (p.1, match p.2 with DcRoundShare _ _ w _ _ => Some w | _ => None end).

Lemma overtaking_in_time : within 0 (0 + from_secs 30) overtaking.
Proof. repeat constructor; vm_compute; done. Qed.

Lemma overtaking_runs : option_map (fun s => (share_edge <$> trace s, lost s)) (run (Node0 := MeshNet.driver_node ctx) mesh_first overtaking) =
  Some ([("alice", None); ("carol", Some "alice")], []).
Proof. reflexivity. Qed.

Lemma overtaking_early s2 (s : PacketNet.t RoundDriver ExtractedMessage) :
  run (Node0 := MeshNet.driver_node ctx) mesh_first overtaking = Some s2 -> trace s2 `prefix_of` trace s ->
  MeshNet.early keys sk ps "bob" "hi" "#a" 1 "carol" (trace s).
Proof.
  intros E [tr Htr]. pose proof overtaking_runs as Ho. rewrite E in Ho. injection Ho as He _.
  pose proof (MeshNet.mesh_begin_inv ctx keys sk ps "bob" "hi" "#a" 1 0 ps_nodup keys_agree ltac:(vm_compute; done)
    ltac:(right; left) eq_refl ltac:(vm_compute; done) (fun u _ => ctx_honest u) (fun _ => RoundDriver.new 0) (fun _ _ => new_idle)) as Hi.
  apply (net_run_inv _ _ _ Hi overtaking_in_time) in E. destruct (trace s2) as [|[u1 m1] [|[u2 m2] [|]]] eqn:E2; try discriminate.
  cbn in He. injection He as -> _ -> Hm2.
  assert (Hq : MeshNet.mesh_issued keys sk ps "bob" "hi" "#a" 1 (trace s2) ("carol", m2)).
  { apply (inv_sent _ E). rewrite E2, !elem_of_app. right. left. right. left. }
  destruct Hq as [(v & _ & [= _ ->])|(w & v & Hw & _ & _ & _ & [= _ ->])]; [discriminate|].
  apply Exists_exists. exists w. split; [exact Hw|]. rewrite Htr. cbn [app MeshNet.before_start].
  rewrite decide_False by (intros [=]). rewrite decide_False by done. right. left.
Qed.

(** Everything is delivered in the end, and Carol is never told. *)
Lemma mesh_network_delivers_witness :
  exists acts s, run (Node0 := MeshNet.driver_node ctx) mesh_first acts = Some s /\ soup s = [] /\ lost s = [] /\
    (nodes s "bob").2 = [mkExtracted "#a" "hi" 1] /\ (nodes s "carol").2 <> [mkExtracted "#a" "hi" 1].
Proof.
  assert (Hrun : forall acts s, within 0 (0 + from_secs 30) acts ->
    run (Node0 := MeshNet.driver_node ctx) mesh_first acts = Some s -> _) by
    (intros acts s Hw Hr; refine (mesh_network_delivers keys sk ps "bob" "hi" "#a" 1 0 (fun _ => RoundDriver.new 0) ctx acts s ps_nodup keys_agree
      ltac:(vm_compute; done) ltac:(right; left) ltac:(reflexivity) ltac:(vm_compute; done)
      (fun _ _ => new_idle) (fun u _ => ctx_honest u) Hw Hr)).
  pose proof overtaking_runs as Ho. destruct (run mesh_first overtaking) as [s2|] eqn:E2; [|discriminate].
  destruct (Hrun overtaking s2 overtaking_in_time E2) as (_ & _ & (acts & s & Hw & Hr & Hs & Hl & Hpre) & _).
  assert (Hr' : run (Node0 := MeshNet.driver_node ctx) mesh_first (overtaking ++ acts) = Some s) by (rewrite net_run_app, E2; exact Hr).
  destruct (Hrun _ s (within_app _ _ _ _ overtaking_in_time Hw) Hr') as (_ & _ & _ & Hall).
  injection Ho as Htr Hl2. rewrite Hl2 in Hl. destruct (Hall Hs Hl) as (Hi & Hv & _).
  exists (overtaking ++ acts), s. split_and!; [exact Hr'|exact Hs|exact Hl|exact Hi|].
  intros Hc. apply (Hv "carol"); [right; left|exact Hc|exact (overtaking_early s2 s E2 Hpre)].
Defined.

End SystemWitness.
