(* ===== verification/System.v ===== *)
(** The whole node: the connection tasks, the two pumps and the console threads of a running daemon
    over one shared state, interleaved in any order.

    A state is the network side ([NetState.t], which owns the connection manager), the application
    state, the batch the incoming pump holds, and the connection attempts the console has spawned.
    One [action] is what one task does between two points where others may run: an event of a
    connection task, the pump taking a message off the channel or serving one, the outgoing pump
    sending one, a console thread answering a request, a spawned attempt. The messages a handler
    sends and the events it emits are taken with it. *)

From S2P Require Import Prelude Crypto Identity Text Wire RoundNetwork RoundDriver RoundEngine WebOfTrust Relay Session ConnectionManager App Storage F2f Discovery WebConsole Daemon.

Module System.

(** [hung]: the pump waits in [emit] with the lock of the application state held. [arrived] and
    [served] record the messages that entered the channel and those that were handled. *)
Record t := mk {
  net : NetState.t;
  core : Daemon;
  serving : bool;
  batch : list (string * PeerMessage);
  hung : bool;
  pending : list ConnectTask;
  arrived : list (string * PeerMessage);
  served : list (string * PeerMessage);
}.

(** What a console thread needs: the clock of its reads, the request, and the numbers it shows. *)
Record Request := mkRequest { rq_elapsed : nat -> Z; rq_input : Input; rq_pid : Z; rq_uptime : Z; rq_token : bytes }.

Inductive action :=
| Net (e : NetState.event)
| Recv
| Serve (unix instant : Z)
| Transmit
| Console (rq : Request)
| Dial (k : nat) (eph nonce : bytes) (input : option bytes).

(** The events of the listener and of the readers and writers. *)
Definition listener_event (e : NetState.event) : bool :=
  match e with
  | NetState.Accept | NetState.Handshake _ _ _ _ | NetState.Read _ _ | NetState.WriterEnd _ | NetState.Flush _ => true
  | _ => false
  end.

(** Events that are not the pumps' own. *)
Definition task_event (e : NetState.event) : bool :=
  match e with NetState.Send _ _ | NetState.Broadcast _ _ | NetState.Drain => false | _ => true end.

(** What the shipped daemon does: nothing in it calls [register_peer], and only spawned attempts
    connect. *)
Definition shipped (a : action) : Prop := match a with Net e => listener_event e = true | _ => True end.

Section Step.
Context `{Crypto, Json} (show : TrySendError -> string) (show_addr : SocketAddr -> string).
Context (index_html : bytes) (peers_json : gset string -> bytes).
Context (connect_request : bytes -> option (option bytes * option bytes)).

Definition with_manager (s : AppState) (c : ConnectionManager) : AppState :=
  mkApp (identity s) (relay s) (Some c) (relay_verifier s) (relay_nonce s) (outgoing s) (outgoing_open s) (events s).

(** The application state without the manager, which [net] holds. *)
Definition detach (x : Daemon) : Daemon :=
  with_app x (mkApp (identity (app x)) (relay (app x)) None (relay_verifier (app x)) (relay_nonce (app x))
    (outgoing (app x)) (outgoing_open (app x)) (events (app x))).

(** The application state as the pump and the console see it. *)
Definition view (s : t) : Daemon := with_app (core s) (with_manager (app (core s)) (NetState.cm (net s))).

Definition with_net (s : t) (n : NetState.t) : t :=
  mk n (core s) (serving s) (batch s) (hung s) (pending s)
    (arrived s ++ drop (length (NetState.incoming (net s))) (NetState.incoming n)) (served s).

Definition with_queue (n : NetState.t) (q : list (string * PeerMessage)) : NetState.t :=
  NetState.mk (NetState.cm n) (NetState.conns n) (NetState.handshakes n) (NetState.conn_count n) (NetState.next_conn_id n) q.

(** [while let Ok(msg) = r.try_recv() { batch.push(msg) }]. *)
Definition recv (s : t) : t :=
  if serving s then s
  else
    match NetState.incoming (net s) with
    | [] => mk (net s) (core s) true (batch s) (hung s) (pending s) (arrived s) (served s)
    | p :: q => mk (with_queue (net s) q) (core s) false (batch s ++ [p]) (hung s) (pending s) (arrived s) (served s)
    end.

(** Where a relayed message leaves the pump when its events do not fit: the handler has run, the
    channel is full and the lock is held. *)
Definition stuck (x : Daemon) (it : Item) : Daemon :=
  let '(s', es) := handle_relay_message (app x) (msg it) (Daemon.unix it) in
  with_app x (set_events s' (take (Z.to_nat EVENT_CHANNEL_CAP) (events s' ++ es))).

(** The next message of the batch; at its end the pump sleeps and collects again. *)
Definition serve (s : t) (unix instant : Z) : t :=
  if negb (serving s) || hung s then s
  else
    match batch s with
    | [] => mk (net s) (core s) false [] false (pending s) (arrived s) (served s)
    | p :: b =>
        let it := mkItem p.1 p.2 unix instant in
        match pump_one (view s) it with
        | Some x => mk (net s) (detach x) true b false (pending s) (arrived s) (served s ++ [p])
        | None => mk (net s) (detach (stuck (view s) it)) true b true (pending s) (arrived s) (served s ++ [p])
        end
    end.

(** One turn of the loop of [outgoing_pump]. *)
Definition transmit (s : t) : t :=
  match outgoing (app (core s)) with
  | [] => s
  | p :: q =>
      mk (NetState.with_cm (net s) (ConnectionManager.send_to show (NetState.cm (net s)) p.1 p.2).1)
        (with_app (core s) (set_outgoing (app (core s)) q)) (serving s) (batch s) (hung s) (pending s) (arrived s) (served s)
  end.

(** A console thread; a request that needs the state waits for ever when the pump holds the lock. *)
Definition console (s : t) (rq : Request) : t :=
  if hung s then s
  else
    match console_thread index_html peers_json connect_request (rq_elapsed rq) (rq_input rq) (Some (app (view s)))
            (rq_pid rq) (rq_uptime rq) (rq_token rq) with
    | Answer _ (Some task) _ =>
        mk (net s) (core s) (serving s) (batch s) (hung s) (pending s ++ [task]) (arrived s) (served s)
    | _ => s
    end.

(** An attempt of a spawned task. *)
Definition dial (s : t) (k : nat) (eph nonce : bytes) (input : option bytes) : t :=
  match pending s !! k with
  | Some task =>
      with_net s (NetState.connect_to_peer (net s) (ct_uid task) (show_addr (ct_socket task)) (ct_auth task) eph nonce input).1
  | None => s
  end.

Definition step (s : t) (a : action) : t :=
  match a with
  | Net e => if task_event e then with_net s (NetState.step show (net s) e) else s
  | Recv => recv s
  | Serve unix instant => serve s unix instant
  | Transmit => transmit s
  | Console rq => console s rq
  | Dial k eph nonce input => dial s k eph nonce input
  end.

Definition run (s : t) (acts : list action) : t := foldl step s acts.

(** The node when [main] has started its tasks. *)
Definition boot (x : Daemon) (port : Z) : t :=
  mk (NetState.init port) (detach x) false [] false [] [] [].

End Step.
End System.

(** ** Lemmas *)

Module SystemFacts.
Import System NetFacts.

Section Facts.
Context `{Crypto, Json} (show : TrySendError -> string) (show_addr : SocketAddr -> string).
Context (index_html : bytes) (peers_json : gset string -> bytes).
Context (connect_request : bytes -> option (option bytes * option bytes)).
Local Abbreviation step := (System.step show show_addr index_html peers_json connect_request).
Local Abbreviation run := (System.run show show_addr index_html peers_json connect_request).

(** What the connection tasks may do to the sessions and the channel: add to them. *)
Definition grows (st st' : NetState.t) : Prop :=
  (c_ctx <$> NetState.conns st) `prefix_of` (c_ctx <$> NetState.conns st') /\
  NetState.incoming st `prefix_of` NetState.incoming st'.

Lemma grows_same st st' :
  c_ctx <$> NetState.conns st' = c_ctx <$> NetState.conns st -> NetState.incoming st' = NetState.incoming st -> grows st st'.
Proof. intros E1 E2. split; by rewrite ?E1, ?E2. Qed.

Lemma install_grows st addr s inb h n : grows st (NetState.with_slots (NetState.install st addr s inb).1 h n).
Proof.
  unfold NetState.install. destruct (ConnectionManager.active_connections _); [|by apply grows_same].
  split; cbn; [|done]. rewrite fmap_app. by apply prefix_app_r.
Qed.

Lemma half_done_grows st i c c' : NetState.conns st !! i = Some c -> c_ctx c' = c_ctx c -> grows st (NetState.half_done st i c c').
Proof. intros Hi Hc. apply grows_same; [|done]. cbn. by apply (fmap_insert_same _ _ _ c). Qed.

Lemma connect_grows st uid addr auth eph nonce input : grows st (NetState.connect_to_peer st uid addr auth eph nonce input).1.
Proof.
  unfold NetState.connect_to_peer. destruct input as [bs|]; [|by apply grows_same].
  destruct (outbound_handshake _ _ _ _ bs).2 as [[s rest]|e]; [|by apply grows_same].
  case_bool_decide; [|by apply grows_same]. cbn [negb].
  pose proof (install_grows st addr s false (NetState.handshakes st) (NetState.conn_count st)) as Hg.
  destruct (NetState.install st addr s false) as [st' b]. exact Hg.
Qed.

Lemma task_grows st e : task_event e = true -> grows st (NetState.step show st e).
Proof.
  intros He. destruct e; try done; cbn [NetState.step]; try by apply grows_same.
  - unfold NetState.accept. case_match; by apply grows_same.
  - unfold NetState.finish_handshake. destruct (_ <=? 0); [by apply grows_same|]. destruct input as [bs|]; [|by apply grows_same].
    destruct (inbound_handshake _ _ _ bs).2 as [[s rest]|]; [|by apply grows_same].
    pose proof (install_grows st addr s true) as Hg. destruct (NetState.install st addr s true) as [st' b]. apply Hg.
  - apply connect_grows.
  - unfold NetState.connection_reader. destruct (NetState.conns st !! i) as [[ctx inb [last|] w]|] eqn:Hi; try by apply grows_same.
    destruct (reader_round ctx last read) as [last' [[[msg|] rest]|]].
    + split; cbn [NetState.conns NetState.incoming]; [by rewrite (fmap_insert_same _ _ _ _ _ Hi)|].
      unfold NetState.forward. case_match; [done|]. by apply prefix_app_r.
    + apply grows_same; [|done]. cbn. by apply (fmap_insert_same _ _ _ _ _ Hi).
    + by eapply half_done_grows.
  - unfold NetState.connection_writer_end. destruct (NetState.conns st !! i) as [[ctx inb r [|]]|] eqn:Hi; try by apply grows_same.
    by eapply half_done_grows.
Qed.

(** Every message comes from the connection that carried it, and is served in its turn. *)
Record node_inv (s : t) : Prop := {
  ni_net : inv (net s);
  ni_order : served s ++ batch s ++ NetState.incoming (net s) = arrived s;
  ni_origin : Forall (fun p => exists ctx, ctx ∈ c_ctx <$> NetState.conns (net s) /\ admitted ctx p) (arrived s);
  ni_hung : hung s = true -> serving s = true;
}.

Lemma inv_with_queue st q q' : inv st -> NetState.incoming st = q' ++ q -> inv (with_queue st q).
Proof.
  intros [] Eq. split; cbn [with_queue NetState.conn_count NetState.handshakes NetState.conns NetState.cm NetState.incoming]; try done.
  - rewrite Eq, zlen_app in inv_incoming_len0. pose proof (zlen_nonneg q'). lia.
  - rewrite Eq in inv_incoming0. by apply Forall_app in inv_incoming0 as [_ ?].
Qed.

Lemma with_net_inv s st' : node_inv s -> inv st' -> grows (net s) st' -> node_inv (with_net s st').
Proof.
  intros [] Hi [Hc [k Hk]]. split; cbn [with_net net served batch arrived hung serving]; try done.
  - rewrite Hk, drop_app_length, <-ni_order0, <-!app_assoc. done.
  - rewrite Hk, drop_app_length. apply Forall_app. split.
    + eapply Forall_impl; [exact ni_origin0|]. intros p (ctx & Hx & Ha). exists ctx. split; [|done].
      destruct Hc as [l ->]. apply elem_of_app. auto.
    + pose proof (inv_incoming _ Hi) as Hin. rewrite Hk in Hin. by apply Forall_app in Hin as [_ ?].
Qed.

Lemma node_step_inv s a : node_inv s -> node_inv (step s a).
Proof.
  intros Hs. pose proof (ni_net _ Hs) as Hn. destruct a; cbn [System.step].
  - destruct (task_event e) eqn:He; [|done]. apply with_net_inv; [done|by apply inv_step|by apply task_grows].
  - unfold recv. destruct (serving s) eqn:E; [done|]. destruct Hs as [? Ho ? Hh].
    destruct (NetState.incoming (net s)) as [|p q] eqn:Eq; split; cbn; rewrite ?Eq in *; try done.
    + by apply (inv_with_queue _ _ [p]).
    + by rewrite <-Ho, <-!app_assoc.
    + intros Hx. rewrite (Hh Hx) in E. done.
  - unfold serve. destruct (negb (serving s) || hung s) eqn:E; [done|]. destruct Hs as [? Ho ? Hh].
    destruct (batch s) as [|p b] eqn:Eb; [split; cbn; rewrite ?Eb in *; done|].
    destruct (pump_one _ _); split; cbn; rewrite ?Eb, <-?app_assoc in *; done.
  - unfold transmit. destruct (outgoing (app (core s))) as [|p q]; [done|]. destruct Hs. split; try done.
    cbn. change (inv (NetState.step show (net s) (NetState.Send p.1 p.2))). by apply inv_step.
  - unfold console. destruct (hung s) eqn:Eh; [done|]. destruct (console_thread _ _ _ _ _ _ _ _ _) as [|? [task|] ?]; try done. by destruct Hs.
  - unfold dial. destruct (pending s !! k) as [task|]; [|done]. apply with_net_inv; [done|by apply inv_connect|apply connect_grows].
Qed.

Lemma node_run_inv s acts : node_inv s -> node_inv (run s acts).
Proof. revert s. induction acts as [|a acts IH]; intros s Hs; [done|]. apply IH. by apply node_step_inv. Qed.

Lemma boot_inv x port : node_inv (boot x port).
Proof. split; cbn; try done. apply inv_init. Qed.

Lemma node_run_app s acts1 acts2 : run s (acts1 ++ acts2) = run (run s acts1) acts2.
Proof. apply foldl_app. Qed.

(** *** A node without registered peers *)

(** Nothing is queued for any peer. *)
Definition silent (st : NetState.t) : Prop :=
  forall active, ConnectionManager.active_connections (NetState.cm st) = Some active -> map_Forall (fun _ w => queue w = []) active.

Lemma silent_step st e : listener_event e = true -> silent st -> silent (NetState.step show st e).
Proof.
  intros He Hs. destruct e; try done; cbn [NetState.step].
  - unfold NetState.accept. by case_match.
  - unfold NetState.finish_handshake. destruct (_ <=? 0); [done|]. destruct input as [bs|]; [|done].
    destruct (inbound_handshake _ _ _ bs).2 as [[s rest]|]; [|done]. unfold NetState.install.
    destruct (ConnectionManager.active_connections _) as [active|] eqn:Ea; cbn in Ea; unfold silent; cbn; [|by rewrite Ea].
    intros a [= <-]. apply map_Forall_insert_2; [done|]. by apply Hs.
  - unfold NetState.connection_reader. destruct (NetState.conns st !! i) as [[ctx inb [last|] w]|]; try done.
    destruct (reader_round ctx last read) as [last' [[[msg|] rest]|]]; try done.
    intros a Ha u w' Hw. cbn in Ha. destruct (remove_connection_sub _ _ _ _ _ _ Ha Hw) as (a' & Ea & Hw'). by eapply Hs.
  - unfold NetState.connection_writer_end. destruct (NetState.conns st !! i) as [[ctx inb r [|]]|]; try done.
    intros a Ha u w' Hw. cbn in Ha. destruct (remove_connection_sub _ _ _ _ _ _ Ha Hw) as (a' & Ea & Hw'). by eapply Hs.
  - unfold NetState.flush, silent. cbn. destruct (ConnectionManager.active_connections (NetState.cm st)) as [a|] eqn:Ea; [|by rewrite Ea].
    specialize (Hs _ Ea). destruct (a !! uid) as [w|] eqn:Ew; cbn; [|rewrite Ea; by intros ? [= <-]].
    intros ? [= <-]. apply map_Forall_insert_2; [|done]. cbn. by rewrite (Hs _ _ Ew).
Qed.

(** A keepalive changes nothing. *)
Lemma keepalive_noop x it : allowed_unauthenticated (msg it) = true -> pump_one x it = Some x.
Proof.
  intros Hm. unfold pump_one. destruct (msg it); try done; cbn [is_relay]; (destruct (round_context x); [|done]); cbn; by destruct x.
Qed.

Record inert (x : Daemon) (s : t) : Prop := {
  in_core : core s = detach x;
  in_hung : hung s = false;
  in_pending : pending s = [];
  in_keys : ConnectionManager.known_peer_keys (NetState.cm (net s)) = Some ∅;
  in_silent : silent (net s);
  in_arrived : Forall (fun p => allowed_unauthenticated p.2 = true) (arrived s);
}.

Lemma detach_view s x : core s = detach x -> detach (view s) = core s.
Proof. intros E. unfold view. rewrite E. by destruct x as [[] ? ? ? ? ?]. Qed.

Lemma inert_step x s a : outgoing (app x) = [] -> shipped a -> node_inv s -> inert x s -> inert x (step s a).
Proof.
  intros Ho Ha Hn Hs. destruct a; cbn [System.step].
  - cbn in Ha. assert (Ht : task_event e = true) by (by destruct e). rewrite Ht. destruct Hs.
    assert (Hk : ConnectionManager.known_peer_keys (NetState.cm (NetState.step show (net s) e)) = Some ∅)
      by (rewrite keys_step; [done|intros ?; by destruct e]).
    pose proof (inv_step show _ e (ni_net _ Hn)) as Hi. split; cbn; try done; [by apply silent_step|].
    apply Forall_app. split; [done|]. apply Forall_drop. by apply unregistered_keepalives.
  - unfold recv. destruct (serving s); [done|]. destruct Hs. destruct (NetState.incoming (net s)); by split.
  - unfold serve. destruct (negb (serving s) || hung s); [done|]. pose proof (ni_order _ Hn) as Hor. destruct Hs.
    destruct (batch s) as [|p b]; [by split|]. rewrite keepalive_noop.
    + split; cbn; try done. rewrite <-in_core0. by apply (detach_view s x).
    + cbn. rewrite <-Hor, !Forall_app, Forall_cons in in_arrived0. tauto.
  - unfold transmit. rewrite (in_core _ _ Hs). cbn. by rewrite Ho.
  - unfold console. destruct (hung s); [done|]. destruct (console_thread _ _ _ _ _ _ _ _ _) as [|? [task|] ?] eqn:E; try done.
    by apply console_spawns_nothing in E.
  - unfold dial. by rewrite (in_pending _ _ Hs).
Qed.

Lemma inert_run x s acts : outgoing (app x) = [] -> Forall shipped acts -> node_inv s -> inert x s -> inert x (run s acts).
Proof.
  intros Ho HF. revert s. induction HF as [|a acts Ha HF IH]; intros s Hn Hs; [done|].
  apply IH; [by apply node_step_inv|by apply inert_step].
Qed.

Lemma inert_boot x port : inert x (boot x port).
Proof. split; try done. intros a [= <-]. apply map_Forall_empty. Qed.

(** *** A pump that waits for ever *)

Lemma hung_step s a : hung s = true -> node_inv s ->
  hung (step s a) = true /\ batch (step s a) = batch s /\ served (step s a) = served s /\
  engine (core (step s a)) = engine (core s) /\ events (app (core (step s a))) = events (app (core s)).
Proof.
  intros Hh Hn. pose proof (ni_hung _ Hn Hh) as Hs. destruct a; cbn [System.step].
  - by destruct (task_event e).
  - unfold recv. by rewrite Hs.
  - unfold serve. by rewrite Hs, Hh.
  - unfold transmit. by destruct (outgoing (app (core s))).
  - unfold console. by rewrite Hh.
  - unfold dial. by destruct (pending s !! k).
Qed.

Lemma hung_run s acts : hung s = true -> node_inv s ->
  hung (run s acts) = true /\ batch (run s acts) = batch s /\ served (run s acts) = served s /\
  engine (core (run s acts)) = engine (core s) /\ events (app (core (run s acts))) = events (app (core s)).
Proof.
  revert s. induction acts as [|a acts IH]; intros s Hh Hn; [done|]. change (run s (a :: acts)) with (run (step s a) acts).
  destruct (hung_step s a Hh Hn) as (Hh' & <- & <- & <- & <-). apply IH; [done|by apply node_step_inv].
Qed.

(** *** The pump's messages one at a time *)

(** What serving a message keeps: the manager, and room for the events. *)
Lemma pump_one_keeps x it x' :
  zlen (events (app x)) <= EVENT_CHANNEL_CAP -> pump_one x it = Some x' ->
  connection_manager (app x') = connection_manager (app x) /\ incoming x' = incoming x /\ zlen (events (app x')) <= EVENT_CHANNEL_CAP.
Proof.
  intros He. unfold pump_one. destruct (is_relay (msg it)).
  - unfold pump_relay. pose proof (PumpFacts.handle_same (app x) (msg it) (unix it)) as (_ & Hc & _).
    pose proof (handle_keeps_events (app x) (msg it) (unix it)) as Hev.
    destruct (handle_relay_message (app x) (msg it) (unix it)) as [s1 es]. cbn [fst] in *.
    rewrite emit_all_spec, Hev by (by rewrite Hev). destruct (_ <=? _) eqn:E; [|done]. breflect. cbn.
    intros [= <-]. cbn. rewrite zlen_app. done.
  - destruct (round_context x); [|intros [= <-]; done].
    destruct (RoundEngine.handle_incoming _ _ _ _) as [e [ev out]]. intros [= <-]. cbn.
    assert (Hf : forall l s, connection_manager (foldl (fun s p => (send_outgoing s p).1) s l) = connection_manager s /\
      events (foldl (fun s p => (send_outgoing s p).1) s l) = events s).
    { induction l as [|p l IH]; intros s; [done|]. cbn. destruct (IH (send_outgoing s p).1) as [-> ->].
      unfold send_outgoing. by destruct (outgoing_open s). }
    destruct (Hf out (app x)) as [-> ->]. done.
Qed.

Lemma view_detach n x sv b h pd ar se : connection_manager (app x) = Some (NetState.cm n) -> view (mk n (detach x) sv b h pd ar se) = x.
Proof. intros E. unfold view, detach, with_manager. destruct x as [[] ? ? ? ? ?]. cbn in *. by subst. Qed.

Definition room (s : t) : Prop := zlen (events (app (core s))) <= EVENT_CHANNEL_CAP.

(** A stuck pump has filled the channel and left the engine alone. *)
Lemma stuck_full x it : zlen (events (app (stuck x it))) <= EVENT_CHANNEL_CAP.
Proof.
  unfold stuck. destruct (handle_relay_message _ _ _) as [s' es]. cbn [app with_app events set_events]. unfold zlen.
  rewrite length_take. pose proof (eq_refl : EVENT_CHANNEL_CAP = 4096). lia.
Qed.

Lemma stuck_brimful x p s' es :
  zlen (events (app x)) <= EVENT_CHANNEL_CAP -> handle_relay_message (app x) (msg p) (Daemon.unix p) = (s', es) ->
  EVENT_CHANNEL_CAP < zlen (events (app x)) + zlen es -> zlen (events (app (detach (stuck x p)))) = EVENT_CHANNEL_CAP.
Proof.
  intros Hr Hm Hc. unfold stuck. pose proof (handle_keeps_events (app x) (msg p) (Daemon.unix p)) as Hev. rewrite Hm in *.
  cbn in Hev. cbn [app with_app detach events set_events]. unfold zlen in *. rewrite length_take, length_app, Hev.
  pose proof (eq_refl : EVENT_CHANNEL_CAP = 4096). lia.
Qed.

Lemma stuck_engine x it : engine (stuck x it) = engine x.
Proof. unfold stuck. by destruct (handle_relay_message _ _ _). Qed.

Lemma room_step s a : room s -> room (step s a).
Proof.
  intros Hs. destruct a; cbn [System.step].
  - by destruct (task_event e).
  - unfold recv. destruct (serving s); [done|]. by destruct (NetState.incoming (net s)).
  - unfold serve. destruct (_ || _); [done|]. destruct (batch s) as [|p b]; [done|].
    destruct (pump_one (view s) _) as [x|] eqn:E; [|apply stuck_full]. apply pump_one_keeps in E as (_ & _ & He); [exact He|exact Hs].
  - unfold transmit. by destruct (outgoing (app (core s))).
  - unfold console. destruct (hung s); [done|]. by destruct (console_thread _ _ _ _ _ _ _ _ _) as [|? [task|] ?].
  - unfold dial. by destruct (pending s !! k).
Qed.

Lemma room_run s acts : room s -> room (run s acts).
Proof. revert s. induction acts as [|a acts IH]; intros s Hs; [done|]. apply IH. by apply room_step. Qed.

End Facts.
End SystemFacts.

(** ** Theorems *)

Section SystemTheorems.
Context `{Crypto, Json, StoreJson, DaemonJson} (show : TrySendError -> string) (show_addr : SocketAddr -> string).
Context (index_html : bytes) (peers_json : gset string -> bytes).
Context (connect_request : bytes -> option (option bytes * option bytes)).
Import System NetFacts SystemFacts.
Local Abbreviation run := (System.run show show_addr index_html peers_json connect_request).

(** C7: whatever the peers send and however the tasks interleave, the messages that entered the
    channel are served one by one in the order they arrived, none twice and none dropped in
    between. A message other than a keepalive came over a session whose peer has a key on record,
    and unless it is relay traffic or carries a [peer@] name it states that peer as its sender. *)
Theorem node_serves_in_order x port acts :
  let s := run (boot x port) acts in
  served s ++ batch s ++ NetState.incoming (net s) = arrived s /\
  zlen (NetState.incoming (net s)) <= INCOMING_CHANNEL_CAP /\
  Forall (fun p =>
    (allowed_unauthenticated p.2 = true \/
     exists k, ConnectionManager.known_peer_keys (NetState.cm (net s)) = Some k /\ is_Some (k !! p.1)) /\
    exists addr, let claimed := extract_uid p.2 addr in
      validate_uid claimed = true /\ (claimed = p.1 \/ is_relay p.2 = true \/ starts_with claimed "peer@" = true)) (arrived s).
Proof.
  intros s. destruct (node_run_inv show show_addr index_html peers_json connect_request (boot x port) acts (boot_inv x port)) as [Hn Ho Hor _].
  fold s in Hn, Ho, Hor. split_and!; [exact Ho|apply Hn|]. eapply Forall_impl; [exact Hor|].
  intros p (ctx & Hc & Hu & Hv & Ha & Hcl). split; [|exists (rc_addr ctx); cbv zeta; by rewrite <-Hu in * || auto].
  destruct Ha as [Ha|Ha]; [|auto]. right. pose proof (inv_sessions _ Hn) as HF. rewrite Forall_forall in HF.
  destruct (HF _ Hc) as [_ Hr]. rewrite Hu. by apply Hr.
Qed.

(** C8: the shipped daemon is inert. Nothing it runs registers a peer and its console spawns no
    connection, so whatever its peers and its user do: no peer key is ever on record, no session is
    authenticated, only keepalives enter the channel, the application state stays what the start
    made it (rounds, relay, events, friends), no connection is ever dialled, and nothing is ever
    queued for any peer. *)
Theorem shipped_daemon_inert env args d d' x auth acts :
  main env args d = Some (d', x, auth) -> Forall shipped acts ->
  let s := run (boot x (parse_args 9000 args)) acts in
  core s = detach x /\ hung s = false /\ pending s = [] /\
  ConnectionManager.known_peer_keys (NetState.cm (net s)) = Some ∅ /\
  Forall (fun ctx => rc_peer_authenticated ctx = false) (c_ctx <$> NetState.conns (net s)) /\
  Forall (fun p => allowed_unauthenticated p.2 = true) (arrived s) /\
  (forall active, ConnectionManager.active_connections (NetState.cm (net s)) = Some active ->
     map_Forall (fun _ w => queue w = []) active).
Proof.
  intros Hm HF s. assert (Hout : outgoing (app x) = []).
  { revert Hm. unfold main, start. destruct (load_or_generate _ _ _ _ _) as [d1 id]. unfold listener_auth.
    destruct (signing_key _); [|done]. by intros [= <- <- <-]. }
  pose proof (boot_inv x (parse_args 9000 args)) as Hb.
  destruct (inert_run show show_addr index_html peers_json connect_request x _ acts Hout HF Hb (inert_boot x _)) as [? ? ? Hk ? ?].
  fold s in Hk. pose proof (node_run_inv show show_addr index_html peers_json connect_request _ acts Hb) as Hn. fold s in Hn.
  split_and!; try done. by apply unregistered_keepalives; [apply Hn|].
Qed.

(** C9: a full event channel stops the node for good. When the events of a relayed message do not fit,
    the pump waits with the lock of the application state held: from then on the channel is full, no
    message is served and no console request has any effect, whatever happens, and at most 1024
    further messages are taken in before every later one is dropped. *)
Theorem full_channel_hangs x port acts s p b s' es unix instant acts2 :
  zlen (events (app x)) <= EVENT_CHANNEL_CAP -> s = run (boot x port) acts ->
  serving s = true -> hung s = false -> batch s = p :: b -> is_relay p.2 = true ->
  handle_relay_message (app (view s)) p.2 unix = (s', es) ->
  EVENT_CHANNEL_CAP < zlen (events (app (core s))) + zlen es ->
  let s2 := run s (Serve unix instant :: acts2) in
  hung s2 = true /\ served s2 = served s ++ [p] /\ batch s2 = b /\ engine (core s2) = engine (core s) /\
  zlen (events (app (core s2))) = EVENT_CHANNEL_CAP /\
  (forall rq, console index_html peers_json connect_request s2 rq = s2) /\
  zlen (arrived s2) <= zlen (arrived s) + INCOMING_CHANNEL_CAP.
Proof.
  intros He Es Hs Hh Hb Hr Hm Hc s2.
  pose proof (node_run_inv show show_addr index_html peers_json connect_request _ acts (boot_inv x port)) as Hn. rewrite <-Es in Hn.
  pose proof (room_run show show_addr index_html peers_json connect_request (boot x port) acts He) as Hrm. rewrite <-Es in Hrm.
  clear Es.
  set (s1 := System.step show show_addr index_html peers_json connect_request s (Serve unix instant)).
  assert (E1 : s1 = mk (net s) (detach (stuck (view s) (mkItem p.1 p.2 unix instant))) true b true (pending s) (arrived s) (served s ++ [p])).
  { unfold s1. cbn [System.step]. unfold serve. rewrite Hs, Hh, Hb. cbn [negb orb]. unfold pump_one. cbn [msg Daemon.unix]. rewrite Hr.
    unfold pump_relay. pose proof (handle_keeps_events (app (view s)) p.2 unix) as Hev. rewrite Hm in *. cbn [fst] in Hev.
    rewrite emit_all_spec by (rewrite Hev; exact Hrm). rewrite Hev. cbn. by rewrite (proj2 (Z.leb_gt _ _)) by exact Hc. }
  assert (Hn1 : node_inv s1) by (by apply node_step_inv).
  destruct (hung_run show show_addr index_html peers_json connect_request s1 acts2) as (Hh2 & Hb2 & Hse & Hen & Hev); [by rewrite E1|done|].
  pose proof (node_run_inv show show_addr index_html peers_json connect_request _ acts2 Hn1) as Hn2.
  change (System.run _ _ _ _ _ s1 acts2) with s2 in Hh2, Hb2, Hse, Hen, Hev, Hn2. clearbody s2.
  rewrite E1 in Hb2, Hse, Hen, Hev. cbn [batch served core] in Hb2, Hse, Hen, Hev.
  split_and!; try done.
  - rewrite Hen. exact (stuck_engine _ _).
  - rewrite Hev. exact (stuck_brimful (view s) (mkItem p.1 p.2 unix instant) _ _ Hrm Hm Hc).
  - intros rq. unfold console. by rewrite Hh2.
  - rewrite <-(ni_order _ Hn2), <-(ni_order _ Hn), Hse, Hb2, Hb. pose proof (inv_incoming_len _ (ni_net _ Hn2)).
    unfold zlen in *. rewrite !length_app. cbn [length]. lia.
Qed.

End SystemTheorems.

(** ** Witnesses *)

Module NodeWitness.
Import System SystemFacts NetWitness.
#[local] Existing Instances toy_crypto ToyJson.toy_json ToyStore.toy_store DaemonWitness.toy_daemon.

(** Alice's first frame to Bob's node, over the session of [NetWitness.hello]. *)
Definition first_frame (m : PeerMessage) : bytes :=
  match (outbound_handshake alice None (be_bytes 32 3) (be_bytes 32 77) (inbound_handshake bob None (be_bytes 32 4) hello).1).2 with
  | Ok (k, _) =>
      match (send_secure_frame [] (string_bytes (to_json m)) (send_key k) 0 (zeros 12)).2 with Ok f => f | Err _ => [] end
  | Err _ => []
  end.

(** Alice connects and sends [m]; the pump collects it and is about to serve it. *)
Definition visit (m : PeerMessage) : list action :=
  [Net NetState.Accept; Net (NetState.Handshake "10.0.0.1:4000" bob (be_bytes 32 4) (Some hello));
   Net (NetState.Read 0 (Some (first_frame m))); Recv; Recv].

Definition known (m : PeerMessage) : list action :=
  Net (NetState.Register "alice" "10.0.0.1:9000" (sa_public_hex alice) 0) :: visit m.

(** Bob's node, with Alice as a friend and [n] events nobody has read. *)
Definition bob_node (n : nat) : Daemon :=
  mkDaemon (set_events (AppWitness.node "bob" 6) (replicate n (Info "")))
    (F2fDcNetBridge.set_friends (F2fDcNetBridge.new "bob") {["alice" := F2fDcNetBridge.friend_new (be_bytes 32 9) "alice" "" 1]})
    (RoundEngine.new 0 "bob") WebOfTrust.new Transport.Direct [].

Local Abbreviation go := (System.run (fun _ => "") (fun _ => "") [] (fun _ => []) (fun _ => None)).

Definition call : PeerMessage := DcRoundStart "#a" 1 "alice" ["alice"; "bob"] 30 48.

(** With Alice's key on record her round start is served and Bob's share is queued for her; without
    it the start does not even enter the channel. *)
Example registered_peer_is_served :
  let s := go (boot (bob_node 0) 9000) (known call ++ [Serve 1000 0; Transmit]) in
  served s = [("alice", call)] /\ outgoing (app (core s)) = [] /\
  option_map (fun a => length <$> (queue <$> a !! "alice")) (ConnectionManager.active_connections (NetState.cm (net s))) = Some (Some 1%nat) /\
  arrived (go (boot (bob_node 0) 9000) (visit call)) = [].
Proof. vm_compute. done. Qed.

Lemma shipped_daemon_inert_witness :
  exists d x auth, main (DaemonWitness.start_env 5) [] empty_dir = Some (d, x, auth) /\
    let s := go (boot x (parse_args 9000 [])) (visit (Ping 7) ++ [Serve 1000 0]) in
    core s = detach x /\ served s = [("alice", Ping 7)].
Proof.
  destruct (main (DaemonWitness.start_env 5) [] empty_dir) as [[[d x] auth]|] eqn:E; [|vm_compute in E; discriminate].
  exists d, x, auth. split; [reflexivity|]. split.
  - apply (shipped_daemon_inert (fun _ => "") (fun _ => "") [] (fun _ => []) (fun _ => None) (DaemonWitness.start_env 5) [] empty_dir d x auth
      (visit (Ping 7) ++ [Serve 1000 0]) E). repeat constructor.
  - vm_compute in E. injection E as _ <- _. vm_compute. reflexivity.
Defined.
Definition parcel : PeerMessage := relay_message (AppWitness.letter "bob" 1 8).

(** The node with a full event channel, about to serve a relayed message for its user. *)
Definition brimful : t := go (boot (bob_node 4096) 9000) (known parcel).

Lemma full_channel_hangs_witness :
  let s2 := go brimful (Serve 1010 0 :: known call ++ [Serve 1010 0]) in
  hung s2 = true /\ served s2 = [("alice", parcel)].
Proof.
  destruct (handle_relay_message (app (view brimful)) parcel 1010) as [s' es] eqn:Em.
  assert (Hes : zlen es = 1) by (vm_compute in Em; injection Em as _ <-; reflexivity).
  assert (Hev : zlen (events (app (core brimful))) = 4096) by (vm_compute; reflexivity).
  destruct (full_channel_hangs (fun _ => "") (fun _ => "") [] (fun _ => []) (fun _ => None) (bob_node 4096) 9000 (known parcel)
    brimful ("alice", parcel) [] s' es 1010 0 (known call ++ [Serve 1010 0])) as (Hh & Hs & _);
    [vm_compute; discriminate|reflexivity|vm_compute; reflexivity|vm_compute; reflexivity|vm_compute; reflexivity
    |reflexivity|exact Em|rewrite Hev, Hes; reflexivity|].
  split; [exact Hh|]. refine (eq_trans Hs _). vm_compute. reflexivity.
Defined.

End NodeWitness.
