(* ===== verification/World.v ===== *)
(** Several whole daemons and the connections between them.

    A [World] has one [System.t] per node and one [Wire] per direction of a connection: the keys of
    the session, the writer's counter and the bytes in flight. [link] runs both ends of the handshake
    against each other, [write] is a turn of the loop of [connection_writer] and [read] one of
    [connection_reader] of [net/connection_manager.rs], [turn] a step of one node's pumps or console.

    The pumps, queues, frames and filters together implement the network of [RoundSystem]: every run
    of a world is a run of [PacketNet] ([WorldFacts]), and a round started in one daemon is told to the
    users of all of them. *)

From S2P Require Import Prelude Crypto Identity Text Wire Float64 Dcnet RoundNetwork RoundDriver RoundEngine WebOfTrust Relay Session ConnectionManager App Storage F2f Discovery WebConsole Daemon RoundSystem System.

Module World.
Import System.

(** One direction of a connection: the index of the connection at the sender and at the receiver,
    the writer's key and counter, and what is on its way. *)
Record Wire := mkWire {
  w_writer : nat;
  w_reader : nat;
  w_key : bytes;
  w_seq : Z;
  w_flight : bytes;
}.

(** [told] has the events the incoming pumps have logged, [failed] the packets the outgoing pumps
    could not queue, with their sender, and [overrun] those the readers dropped because the channel
    was full. *)
Record t := mk {
  nodes : string -> System.t;
  wires : string -> string -> option Wire;
  told : string -> list RoundEvent;
  failed : list (string * packet);
  overrun : list packet;
}.

Inductive action :=
| Turn (u : string) (a : System.action)
| Write (u v : string) (nonce : bytes)
| Read (u v : string)
| Link (u v : string) (eph_u eph_v nonce : bytes) (addr_u addr_v : string).

(** What a node does by itself. *)
Definition inner (a : System.action) : bool :=
  match a with Recv | Serve _ _ | Transmit | Console _ => true | _ => false end.

Definition set_wire (f : string -> string -> option Wire) (u v : string) (w : Wire) (x y : string) : option Wire :=
  if bool_decide (x = u /\ y = v) then Some w else f x y.

Section Step.
Context `{Crypto, Json} (show : TrySendError -> string) (show_addr : SocketAddr -> string).
Context (index_html : bytes) (peers_json : gset string -> bytes).
Context (connect_request : bytes -> option (option bytes * option bytes)).

Definition node_step : System.t -> System.action -> System.t :=
  System.step show show_addr index_html peers_json connect_request.

(** What the incoming pump logs when it serves the next message. *)
Definition reports (s : System.t) (instant : Z) : list RoundEvent :=
  if negb (serving s) || hung s then []
  else
    match batch s with
    | [] => []
    | p :: _ =>
        if is_relay p.2 then []
        else
          match round_context (view s) with
          | None => []
          | Some ctx => option_list (RoundEngine.handle_incoming instant (engine (core s)) p.2 ctx).2.1
          end
    end.

(** The packet for which [send_to] fails in [outgoing_pump]. *)
Definition refused (u : string) (s : System.t) : list (string * packet) :=
  match outgoing (app (core s)) with
  | [] => []
  | p :: _ =>
      match (ConnectionManager.send_to show (NetState.cm (net s)) p.1 p.2).2 with
      | Ok _ => []
      | Err _ => [(u, p)]
      end
  end.

Definition turn (W : t) (u : string) (a : System.action) : t :=
  let s := nodes W u in
  mk (PacketNet.upd (nodes W) u (node_step s a)) (wires W)
    (match a with Serve _ instant => PacketNet.upd (told W) u (told W u ++ reports s instant) | _ => told W end)
    (match a with Transmit => failed W ++ refused u s | _ => failed W end)
    (overrun W).

(** A turn of the writer's loop: the next payload is sealed and written, or the task ends. *)
Definition write (W : t) (u v : string) (nonce : bytes) : t :=
  match wires W u v, ConnectionManager.active_connections (NetState.cm (net (nodes W u))) ≫= (fun active => active !! v) with
  | Some w, Some wr =>
      match queue wr with
      | [] => W
      | payload :: _ =>
          let '(seq, res) := send_secure_frame (w_flight w) payload (w_key w) (w_seq w) nonce in
          let '(event, flight) :=
            match res with
            | Ok stream => (NetState.Flush v, stream)
            | Err _ => (NetState.WriterEnd (w_writer w), w_flight w)
            end in
          mk (PacketNet.upd (nodes W) u (node_step (nodes W u) (Net event)))
            (set_wire (wires W) u v (mkWire (w_writer w) (w_reader w) (w_key w) seq flight))
            (told W) (failed W) (overrun W)
      end
  | _, _ => W
  end.

(** A turn of the reader's loop when something has arrived. *)
Definition read (W : t) (u v : string) : t :=
  match wires W u v with
  | Some w =>
      let st := net (nodes W v) in
      match w_flight w, NetState.conns st !! w_reader w with
      | _ :: _, Some (mkConn ctx _ (Some last) _) =>
          let '(lost, rest) :=
            match (reader_round ctx last (Some (w_flight w))).2 with
            | Some (Some m, rest) => (if INCOMING_CHANNEL_CAP <=? zlen (NetState.incoming st) then [(v, m)] else [], rest)
            | Some (None, rest) => ([], rest)
            | None => ([], [])
            end in
          mk (PacketNet.upd (nodes W) v (node_step (nodes W v) (Net (NetState.Read (w_reader w) (Some (w_flight w))))))
            (set_wire (wires W) u v (mkWire (w_writer w) (w_reader w) (w_key w) (w_seq w) rest))
            (told W) (failed W) (overrun W ++ lost)
      | _, _ => W
      end
  | None => W
  end.

(** [u] connects to [v]: the challenge and the response are what the two ends write. *)
Definition link (W : t) (u v : string) (eph_u eph_v nonce : bytes) (addr_u addr_v : string) : t :=
  let nu := nodes W u in let nv := nodes W v in
  match listener_auth (core nu), listener_auth (core nv) with
  | Some a, Some b =>
      if bool_decide (u = v) || (MAX_CONNECTIONS <=? NetState.conn_count (net nv)) then W
      else
        let ku := ConnectionManager.known_peer_keys (NetState.cm (net nu)) in
        let kv := ConnectionManager.known_peer_keys (NetState.cm (net nv)) in
        let challenge := (outbound_handshake a ku eph_u nonce []).1 in
        let '(response, ends_v) := inbound_handshake b kv eph_v challenge in
        let nu' := node_step nu (Net (NetState.Connect v addr_v a eph_u nonce (Some response))) in
        let nv' := node_step (node_step nv (Net NetState.Accept)) (Net (NetState.Handshake addr_u b eph_v (Some challenge))) in
        let i := length (NetState.conns (net nu)) in let j := length (NetState.conns (net nv)) in
        let ws :=
          match (outbound_handshake a ku eph_u nonce response).2, ends_v with
          | Ok (sa, _), Ok (sb, _) =>
              if bool_decide (length (NetState.conns (net nu')) = S i /\ length (NetState.conns (net nv')) = S j) then
                set_wire (set_wire (wires W) u v (mkWire i j (send_key sa) 0 [])) v u (mkWire j i (send_key sb) 0 [])
              else wires W
          | _, _ => wires W
          end in
        mk (PacketNet.upd (PacketNet.upd (nodes W) u nu') v nv') ws (told W) (failed W) (overrun W)
  | _, _ => W
  end.

Definition step (W : t) (a : action) : t :=
  match a with
  | Turn u a => if inner a then turn W u a else W
  | Write u v nonce => write W u v nonce
  | Read u v => read W u v
  | Link u v eph_u eph_v nonce addr_u addr_v => link W u v eph_u eph_v nonce addr_u addr_v
  end.

Definition run (W : t) (acts : list action) : t := foldl step W acts.

(** A caller of the engine starts a round and hands the packets to the outgoing channel. *)
Definition start_round (W : t) (leader ch : string) (participants : list string) (now : Z) : t :=
  let s := nodes W leader in
  match round_context (view s) with
  | None => W
  | Some ctx =>
      let '(e, out) := RoundEngine.start_round_as_leader now (engine (core s)) ch participants ctx in
      let x := with_app (with_engine (core s) e) (foldl (fun s p => (send_outgoing s p).1) (app (core s)) out) in
      mk (PacketNet.upd (nodes W) leader
            (System.mk (net s) x (serving s) (batch s) (hung s) (pending s) (arrived s) (served s)))
        (wires W) (told W) (failed W) (overrun W)
  end.

End Step.
End World.

(** ** Lemmas *)

Module WorldFacts.
Import System World.

(** *** Messages in flight *)

Section Flight.
Context `{Crypto, Json, !AesLaws}.

Definition payload (m : PeerMessage) : bytes := string_bytes (to_json m).

(** [stream] holds the frames of [ms], sealed after the reader's [last] up to the writer's [seq]. *)
Fixpoint flying (key : bytes) (last : Z) (ms : list PeerMessage) (stream : bytes) (seq : Z) : Prop :=
  match ms with
  | [] => stream = [] /\ seq = last
  | m :: ms' =>
      exists f stream', stream = f ++ stream' /\
        (forall rest, recv_secure_frame (f ++ rest) key last = (last + 1, Ok (payload m, rest))) /\
        flying key (last + 1) ms' stream' seq
  end.

Lemma flying_snoc key last ms stream seq m f :
  flying key last ms stream seq -> (forall rest, recv_secure_frame (f ++ rest) key seq = (seq + 1, Ok (payload m, rest))) ->
  flying key last (ms ++ [m]) (stream ++ f) (seq + 1).
Proof.
  revert last stream. induction ms as [|m' ms IH]; intros last stream; cbn.
  - intros [-> ->] Hf. exists f, []. by rewrite app_nil_r.
  - intros (f' & stream' & -> & Hf' & Hfl) Hf. exists f', (stream' ++ f). rewrite <-app_assoc. auto.
Qed.

(** Frames are not empty. *)
Lemma flying_empty key last ms seq : flying key last ms [] seq -> ms = [].
Proof.
  destruct ms as [|m ms]; [done|]. intros (f & stream' & E & Hf & _). symmetry in E. apply app_nil in E as [-> ->].
  specialize (Hf []). discriminate Hf.
Qed.

Lemma sealed stream m key seq nonce :
  length key = 32%nat -> length nonce = 12%nat -> 0 <= seq < 2 ^ 64 - 1 -> slen (to_json m) + 36 <= MAX_FRAME ->
  exists f, send_secure_frame stream (payload m) key seq nonce = (seq + 1, Ok (stream ++ f)) /\
    forall rest, recv_secure_frame (f ++ rest) key seq = (seq + 1, Ok (payload m, rest)).
Proof.
  intros Hk Hn Hs Hm. rewrite <-zlen_string_bytes in Hm.
  destruct (secure_frame_received stream (payload m) key seq nonce [] Hk Hn Hs Hm) as (f & Hf & _). exists f. split; [done|].
  intros rest. destruct (secure_frame_received stream (payload m) key seq nonce rest Hk Hn Hs Hm) as (f' & Hf' & Hr).
  rewrite Hf in Hf'. by simplify_eq.
Qed.

(** What the reader of a session with [u] forwards of a message [u] may send. *)
Lemma filter_passes `{!JsonLaws} ctx m :
  rc_peer_authenticated ctx = true -> validate_uid (rc_peer_uid ctx) = true -> validate_uid ("peer@" +:+ rc_addr ctx) = true ->
  extract_uid m (rc_addr ctx) = rc_peer_uid ctx \/ extract_uid m (rc_addr ctx) = "peer@" +:+ rc_addr ctx ->
  filter_payload ctx (payload m) = Some m.
Proof.
  intros Ha Hu Hp Hc. unfold filter_payload, payload. rewrite from_utf8_str by apply json_utf8. cbn [mbind option_bind].
  rewrite json_round_trip. cbn [mbind option_bind]. rewrite Ha. cbn [negb andb]. destruct Hc as [->| ->].
  - rewrite Hu. cbn. rewrite bool_decide_true by done. by rewrite andb_false_r.
  - rewrite Hp. cbn [negb]. replace (starts_with ("peer@" +:+ rc_addr ctx) "peer@") with true; [done|].
    symmetry. apply bool_decide_eq_true. rewrite string_bytes_app. by apply take_app_length'.
Qed.

End Flight.

(** *** Lists that change in one place *)

Lemma bind_at {A B} (f g : A -> list B) (l : list A) x :
  NoDup l -> x ∈ l -> (forall y, y ∈ l -> y <> x -> g y = f y) ->
  exists R, l ≫= f ≡ₚ f x ++ R /\ l ≫= g ≡ₚ g x ++ R.
Proof.
  intros Hnd [k Hk]%elem_of_Permutation Hg. exists (k ≫= f). rewrite Hk in Hnd. apply NoDup_cons in Hnd as [Hx _].
  assert (Hgf : k ≫= g = k ≫= f).
  { assert (Hin : forall y, y ∈ k -> g y = f y) by (intros y Hy; apply Hg; [rewrite Hk; by right|by intros ->]).
    clear Hk Hx Hg. induction k as [|y k IH]; [done|]. cbn. rewrite Hin by (by left). f_equal. apply IH. intros; apply Hin. by right. }
  rewrite Hk. cbn. by rewrite Hgf.
Qed.

(** *** A protocol on daemons *)

Section Refine.
Context `{Crypto, Json, !AesLaws, !JsonLaws} (show : TrySendError -> string) (show_addr : SocketAddr -> string).
Context (index_html : bytes) (peers_json : gset string -> bytes).
Context (connect_request : bytes -> option (option bytes * option bytes)).
Context (ctxs : string -> RoundContext) (lo hi : Z) (Pr : @PacketNet.Protocol _ _ (LeaderNet.engine_node ctxs) lo hi).
Context (ps : list string) (links : list (string * string)).
#[local] Existing Instance Pr.
#[local] Instance engines : Node RoundEngine.t RoundEvent := LeaderNet.engine_node ctxs.
Local Abbreviation Net := (PacketNet.t RoundEngine.t RoundEvent).
Local Abbreviation node_step := (World.node_step show show_addr index_html peers_json connect_request).
Local Abbreviation step := (World.step show show_addr index_html peers_json connect_request).
Local Abbreviation run := (World.run show show_addr index_html peers_json connect_request).

(** What a protocol has to promise to run on daemons: every packet has an author, the node whose
    handler sent it; a packet passes the filter of the author's sessions and fits a frame; and the
    packets of one author to one node, and all to one node, fit the queues. *)
Class Deployment := {
  author : packet -> string;
  author_new tr p q : PacketNet.issued (tr ++ [p]) q -> ~ PacketNet.issued tr q -> author q = p.1;
  message_ok tr q : PacketNet.issued tr q ->
    is_relay q.2 = false /\ slen (to_json q.2) + 36 <= MAX_FRAME /\
    forall addr, extract_uid q.2 addr = author q \/ extract_uid q.2 addr = "peer@" +:+ addr;
  wire_room u v l : NoDup l -> (forall q, q ∈ l -> q.1 = v /\ author q = u /\ exists tr, PacketNet.issued tr q) ->
    zlen l <= WRITER_QUEUE_CAP;
  inbox_room v l : NoDup l -> (forall q, q ∈ l -> q.1 = v /\ exists tr, PacketNet.issued tr q) ->
    zlen l <= INCOMING_CHANNEL_CAP;
}.

Context `{!Deployment}.

Definition outq (s : System.t) (v : string) : option PeerWriter :=
  ConnectionManager.active_connections (NetState.cm (net s)) ≫= (fun active => active !! v).

(** A daemon in the middle of a round. *)
Record steady (u : string) (s : System.t) : Prop := {
  sd_ctx : round_context (view s) = Some (ctxs u);
  sd_manager : connection_manager (app (core s)) = None;
  sd_open : outgoing_open (app (core s)) = true;
  sd_hung : hung s = false;
  sd_said : Forall (fun q => author q = u) (outgoing (app (core s)));
  sd_heard : Forall (fun p => (author (u, p.2), u) ∈ links) (batch s ++ NetState.incoming (net s));
  sd_peers v : is_Some (outq s v) <-> (u, v) ∈ links;
}.

(** The wire from [u] to [v], with the messages that wait in its queue and those in flight. *)
Record joined (u v : string) (w : Wire) (wr : PeerWriter) (c : Conn) (qs fs : list PeerMessage) (b : Z) : Prop := {
  jn_alive : receiver_alive wr = true;
  jn_queue : queue wr = payload <$> qs;
  jn_reader : exists last, c_reader c = Some last /\ 0 <= last /\ flying (w_key w) last fs (w_flight w) (w_seq w);
  jn_seq : 0 <= w_seq w <= b;
  jn_key : rc_recv_key (c_ctx c) = w_key w /\ length (w_key w) = 32%nat;
  jn_uid : rc_peer_uid (c_ctx c) = u /\ validate_uid u = true /\ validate_uid ("peer@" +:+ rc_addr (c_ctx c)) = true;
  jn_auth : rc_peer_authenticated (c_ctx c) = true;
  jn_said : Forall (fun m => author (v, m) = u) (fs ++ qs);
}.

Definition wired (W : t) (u v : string) (qs fs : list PeerMessage) (b : Z) : Prop :=
  exists w wr c, wires W u v = Some w /\ outq (nodes W u) v = Some wr /\
    NetState.conns (net (nodes W v)) !! w_reader w = Some c /\ joined u v w wr c qs fs b.

Abbreviation mail := (string -> string -> list PeerMessage).

Definition pend (u : string) (s : System.t) : list packet :=
  outgoing (app (core s)) ++ ((fun p => (u, p.2)) <$> (batch s ++ NetState.incoming (net s))).
Definition hop (Q F : mail) (l : string * string) : list packet := pair l.2 <$> (F l.1 l.2 ++ Q l.1 l.2).

(** All packets on their way. *)
Definition transit (W : t) (Q F : mail) : list packet :=
  (ps ≫= (fun u => pend u (nodes W u))) ++ (links ≫= hop Q F).

(** A world and the network it implements; [b] bounds the counters of the wires. *)
Record refines (b : Z) (W : t) (P : Net) (Q F : mail) : Prop := {
  re_inv : PacketNet.inv P;
  re_nodes u : u ∈ ps -> PacketNet.nodes P u = (engine (core (nodes W u)), told W u);
  re_steady u : u ∈ ps -> steady u (nodes W u);
  re_wired u v : (u, v) ∈ links -> wired W u v (Q u v) (F u v) b;
  re_soup : PacketNet.soup P ≡ₚ transit W Q F;
  re_trace : Forall (fun q => (author q, q.1) ∈ links) (PacketNet.trace P);
  re_lost : PacketNet.lost P ≡ₚ (failed W).*2;
  re_failed : Forall (fun x => author x.2 = x.1 /\ (x.1, x.2.1) ∉ links) (failed W);
  re_overrun : overrun W = [];
}.

Hypotheses (Hps : NoDup ps) (Hlinks : NoDup links) (Hends : forall u v, (u, v) ∈ links -> u ∈ ps /\ v ∈ ps /\ u <> v).

(** *** Bookkeeping *)

Lemma upd_self {A} (f : string -> A) u a : PacketNet.upd f u a u = a.
Proof. apply PacketNet.upd_eq. Qed.

Lemma upd_other {A} (f : string -> A) u a v : v <> u -> PacketNet.upd f u a v = f v.
Proof. apply PacketNet.upd_ne. Qed.

Definition put (Q : mail) (u v : string) (l : list PeerMessage) (x y : string) : list PeerMessage :=
  if bool_decide (x = u /\ y = v) then l else Q x y.

Lemma put_self Q u v l : put Q u v l u v = l.
Proof. unfold put. by rewrite bool_decide_true. Qed.

Lemma put_other Q u v l x y : (x, y) <> (u, v) -> put Q u v l x y = Q x y.
Proof. intros Hne. unfold put. rewrite bool_decide_false; [done|]. intros [-> ->]. done. Qed.

Lemma set_wire_self f u v w : set_wire f u v w u v = Some w.
Proof. unfold set_wire. by rewrite bool_decide_true. Qed.

Lemma set_wire_other f u v w x y : (x, y) <> (u, v) -> set_wire f u v w x y = f x y.
Proof. intros Hne. unfold set_wire. rewrite bool_decide_false; [done|]. intros [-> ->]. done. Qed.

(** Worlds that cannot be told apart. *)
Record same (W W' : t) : Prop := {
  sm_nodes u : nodes W' u = nodes W u;
  sm_wires u v : wires W' u v = wires W u v;
  sm_told u : told W' u = told W u;
  sm_failed : failed W' = failed W;
  sm_overrun : overrun W' = overrun W;
}.

Lemma transit_same W W' Q F : (forall u, nodes W' u = nodes W u) -> transit W' Q F = transit W Q F.
Proof.
  intros Hn. unfold transit. f_equal. apply list_bind_ext; [|done]. intros u. by rewrite Hn.
Qed.

Lemma joined_later u v w wr c qs fs b b' : b <= b' -> joined u v w wr c qs fs b -> joined u v w wr c qs fs b'.
Proof. intros Hb []. split; try done. lia. Qed.

Lemma wired_later W u v qs fs b b' : b <= b' -> wired W u v qs fs b -> wired W u v qs fs b'.
Proof. intros Hb (w & wr & c & ? & ? & ? & ?). exists w, wr, c. eauto using joined_later. Qed.

Lemma refines_same b b' W W' P Q F : b <= b' -> same W W' -> refines b W P Q F -> refines b' W' P Q F.
Proof.
  intros Hb [Hn Hw Ht Hf Ho] []. split; try done.
  - intros u Hu. rewrite Hn, Ht. auto.
  - intros u Hu. rewrite Hn. auto.
  - intros u v Hl. apply (wired_later _ _ _ _ _ b); [done|]. unfold wired. rewrite !Hn, Hw. by apply re_wired0.
  - by rewrite (transit_same W).
  - by rewrite Hf.
  - by rewrite Hf.
  - by rewrite Ho.
Qed.

(** A packet on its way has been issued, and is on its way once. *)
Lemma on_way b W P Q F : refines b W P Q F ->
  NoDup (transit W Q F) /\ forall q, q ∈ transit W Q F -> PacketNet.issued (PacketNet.trace P) q.
Proof.
  intros [Hi _ _ _ Hs _ _ _ _]. split.
  - rewrite <-Hs. pose proof (PacketNet.inv_once _ Hi) as Ho. by apply NoDup_app in Ho as [? _].
  - intros q Hq. apply (PacketNet.inv_sent _ Hi). rewrite elem_of_app. left. by rewrite Hs.
Qed.

Lemma net_lose (P : Net) q R : PacketNet.soup P ≡ₚ q :: R ->
  exists i P', PacketNet.step P (PacketNet.Lose i) = Some P' /\ PacketNet.soup P' ≡ₚ R /\
    PacketNet.nodes P' = PacketNet.nodes P /\ PacketNet.trace P' = PacketNet.trace P /\ PacketNet.lost P' = PacketNet.lost P ++ [q].
Proof.
  intros Hs. assert (Hq : q ∈ PacketNet.soup P) by (rewrite Hs; by left). apply list_elem_of_lookup in Hq as [i Hi].
  exists i. cbn. rewrite Hi. eexists. split; [done|]. cbn. split_and!; try done.
  apply (Permutation_cons_inv (a := q)). by rewrite <-(delete_Permutation _ _ _ Hi).
Qed.

Lemma net_deliver (P : Net) v m R now e evs e' ev out :
  PacketNet.soup P ≡ₚ (v, m) :: R -> PacketNet.nodes P v = (e, evs) ->
  RoundEngine.handle_incoming now e m (ctxs v) = (e', (ev, out)) ->
  exists i P', PacketNet.step P (PacketNet.Deliver i now) = Some P' /\ PacketNet.soup P' ≡ₚ out ++ R /\
    PacketNet.nodes P' = PacketNet.upd (PacketNet.nodes P) v (e', evs ++ option_list ev) /\
    PacketNet.trace P' = PacketNet.trace P ++ [(v, m)] /\ PacketNet.lost P' = PacketNet.lost P.
Proof.
  intros Hs Hn Hh. assert (Hq : (v, m) ∈ PacketNet.soup P) by (rewrite Hs; by left). apply list_elem_of_lookup in Hq as [i Hi].
  exists i. cbn. rewrite Hi. cbn. rewrite Hn. unfold receive, engines, LeaderNet.engine_node. cbn. rewrite Hh. eexists. split; [done|]. cbn.
  split_and!; try done. rewrite (Permutation_app_comm _ out). apply Permutation_app; [done|].
  apply (Permutation_cons_inv (a := (v, m))). by rewrite <-(delete_Permutation _ _ _ Hi).
Qed.

(** *** What is left to do *)

Definition mode (s : System.t) : nat :=
  if serving s then match batch s with [] => 2%nat | _ :: _ => 0%nat end else 1%nat.

Definition node_load (s : System.t) : nat :=
  (5 * length (outgoing (app (core s))) + 2 * length (NetState.incoming (net s)) + length (batch s) + mode s)%nat.
Definition wire_load (Q F : mail) (l : string * string) : nat := (3 * length (F l.1 l.2) + 4 * length (Q l.1 l.2))%nat.
Definition load (W : t) (Q F : mail) : nat :=
  (sum_list_with (fun u => node_load (nodes W u)) ps + sum_list_with (wire_load Q F) links)%nat.

Definition settled (P : Net) : nat := length (PacketNet.trace P ++ PacketNet.lost P).

Lemma sum_at {A} (f g : A -> nat) l x : NoDup l -> x ∈ l -> (forall y, y ∈ l -> y <> x -> g y = f y) ->
  (sum_list_with g l + f x = sum_list_with f l + g x)%nat.
Proof.
  induction 1 as [|y l Hy Hl IH]; intros Hx Hg; [by apply not_elem_of_nil in Hx|]. cbn.
  apply elem_of_cons in Hx as [->|Hx].
  - assert (Hs : forall l', (forall u, u ∈ l' -> g u = f u) -> sum_list_with g l' = sum_list_with f l').
    { clear. induction l' as [|z l' IH]; intros Hg; [done|]. cbn. rewrite Hg by (by left). f_equal. apply IH. intros; apply Hg. by right. }
    rewrite Hs; [lia|]. intros u Hu. apply Hg; [by right|]. by intros ->.
  - rewrite (Hg y); [|by left|by intros ->]. specialize (IH Hx). rewrite <-Nat.add_assoc, IH; [lia|]. intros u Hu. apply Hg. by right.
Qed.

(** One step of a world: the network makes some steps, and the work left shrinks. *)
Definition advances (b : Z) (W : t) (P : Net) (Q F : mail) (W' : t) : Prop :=
  exists acts P' Q' F', PacketNet.run P acts = Some P' /\ PacketNet.within lo hi acts /\ refines b W' P' Q' F' /\
    ((settled P < settled P')%nat \/ settled P' = settled P /\ (load W' Q' F' < load W Q F)%nat).

(** *** The pumps *)

Lemma wired_frame W W' u v qs fs b :
  wires W' u v = wires W u v -> outq (nodes W' u) v = outq (nodes W u) v ->
  NetState.conns (net (nodes W' v)) = NetState.conns (net (nodes W v)) ->
  wired W u v qs fs b -> wired W' u v qs fs b.
Proof. intros Hw Ho Hc (w & wr & c & ? & ? & ? & ?). exists w, wr, c. by rewrite Hw, Ho, Hc. Qed.

(** A node changes that leaves its connections alone. *)
Lemma refines_local b W P Q F u s' ev fl P' :
  refines b W P Q F -> u ∈ ps -> (forall v, outq s' v = outq (nodes W u) v) ->
  NetState.conns (net s') = NetState.conns (net (nodes W u)) -> steady u s' ->
  PacketNet.inv P' -> (forall v, PacketNet.nodes P' v = PacketNet.upd (PacketNet.nodes P) u (engine (core s'), told W u ++ ev) v) ->
  (forall R, PacketNet.soup P ≡ₚ pend u (nodes W u) ++ R -> PacketNet.soup P' ≡ₚ pend u s' ++ R) ->
  Forall (fun q => (author q, q.1) ∈ links) (PacketNet.trace P') -> PacketNet.lost P' ≡ₚ fl.*2 ->
  Forall (fun x => author x.2 = x.1 /\ (x.1, x.2.1) ∉ links) fl ->
  refines b (World.mk (PacketNet.upd (nodes W) u s') (wires W) (PacketNet.upd (told W) u (told W u ++ ev)) fl (overrun W)) P' Q F.
Proof.
  intros [Hi Hn Hs Hw Hp Ht Hl Hf Ho] Hu Hout Hc Hs' Hi' Hn' Hp' Ht' Hl' Hf'. split; cbn [nodes told failed overrun]; try done.
  - intros v Hv. rewrite Hn'. unfold PacketNet.upd. case_bool_decide; [by subst|auto].
  - intros v Hv. unfold PacketNet.upd. case_bool_decide; [by subst|auto].
  - intros x y Hxy. eapply wired_frame; [..|by apply Hw]; [done| |]; cbn; unfold PacketNet.upd; case_bool_decide; by subst.
  - destruct (bind_at (fun v => pend v (nodes W v)) (fun v => pend v (PacketNet.upd (nodes W) u s' v)) ps u Hps Hu) as (R & HR & HR').
    { intros y _ Hy. by rewrite upd_other. }
    unfold transit in *. cbn [nodes]. rewrite HR', upd_self, <-app_assoc. apply Hp'. rewrite Hp, HR. by rewrite <-app_assoc.
Qed.

(** The load when one node changes. *)
Lemma load_node W Q F u s' a c f o :
  u ∈ ps -> (load (World.mk (PacketNet.upd (nodes W) u s') a c f o) Q F + node_load (nodes W u) = load W Q F + node_load s')%nat.
Proof.
  intros Hu. unfold load. cbn [nodes].
  pose proof (sum_at (fun v => node_load (nodes W v)) (fun v => node_load (PacketNet.upd (nodes W) u s' v)) ps u Hps Hu) as Hs.
  cbn beta in Hs. rewrite upd_self in Hs. specialize (Hs ltac:(intros y _ Hy; by rewrite upd_other)). lia.
Qed.

(** The pump's modes and the way from the channel into the batch. *)
Lemma refines_shift b W P Q F u s' told' :
  refines b W P Q F -> u ∈ ps -> core s' = core (nodes W u) -> hung s' = hung (nodes W u) ->
  NetState.cm (net s') = NetState.cm (net (nodes W u)) -> NetState.conns (net s') = NetState.conns (net (nodes W u)) ->
  batch s' ++ NetState.incoming (net s') = batch (nodes W u) ++ NetState.incoming (net (nodes W u)) ->
  (forall v, told' v = told W v) ->
  refines b (World.mk (PacketNet.upd (nodes W) u s') (wires W) told' (failed W) (overrun W)) P Q F.
Proof.
  intros Hr Hu Hc Hh Hm Hco Hb Htold. pose proof (re_steady _ _ _ _ _ Hr u Hu) as [].
  assert (Hn : PacketNet.nodes P u = (engine (core (nodes W u)), told W u)) by (by apply (re_nodes _ _ _ _ _ Hr)).
  apply (refines_same b b (World.mk (PacketNet.upd (nodes W) u s') (wires W) (PacketNet.upd (told W) u (told W u ++ [])) (failed W) (overrun W))); [done| |].
  { split; cbn; try done. intros v. rewrite Htold, app_nil_r. unfold PacketNet.upd. case_bool_decide; by subst. }
  eapply refines_local; [exact Hr|done| |done| |apply Hr| | |apply Hr|apply Hr|apply Hr].
  - intros v. unfold outq. by rewrite Hm.
  - split; rewrite ?Hc, ?Hh, ?Hb; try done; [unfold view; by rewrite Hc, Hm|intros v; unfold outq; rewrite Hm; apply sd_peers0].
  - intros v. rewrite Hc, app_nil_r. unfold PacketNet.upd. case_bool_decide; by subst.
  - intros R. unfold pend. by rewrite Hc, Hb.
Qed.

Lemma shift_advances b W P Q F u s' told' :
  refines b (World.mk (PacketNet.upd (nodes W) u s') (wires W) told' (failed W) (overrun W)) P Q F -> u ∈ ps ->
  (node_load s' < node_load (nodes W u))%nat ->
  advances b W P Q F (World.mk (PacketNet.upd (nodes W) u s') (wires W) told' (failed W) (overrun W)).
Proof.
  intros Hr Hu Hlt. exists [], P, Q, F. split_and!; [done|by apply Forall_nil|done|]. right. split; [done|].
  pose proof (load_node W Q F u s' (wires W) told' (failed W) (overrun W) Hu). lia.
Qed.

Lemma recv_refines b W P Q F u : refines b W P Q F -> u ∈ ps -> refines b (step W (Turn u Recv)) P Q F.
Proof.
  intros Hr Hu. apply refines_shift; try done; cbn [World.node_step System.step]; unfold World.node_step; cbn; unfold recv;
    (destruct (serving (nodes W u)); [done|]); (destruct (NetState.incoming (net (nodes W u))) as [|p q] eqn:Ei; [cbn; by rewrite ?Ei|]); cbn; try done.
  by rewrite <-app_assoc.
Qed.

Lemma recv_advances b W P Q F u :
  refines b W P Q F -> u ∈ ps -> serving (nodes W u) = false ->
  batch (nodes W u) ++ NetState.incoming (net (nodes W u)) <> [] -> advances b W P Q F (step W (Turn u Recv)).
Proof.
  intros Hr Hu Hs Hne. pose proof (recv_refines _ _ _ _ _ _ Hr Hu) as Hr'. apply shift_advances; [exact Hr'|done|].
  unfold World.node_step. cbn [System.step]. unfold recv, node_load, mode. rewrite Hs.
  destruct (NetState.incoming (net (nodes W u))) as [|p q] eqn:Ei; cbn.
  - rewrite Ei. rewrite app_nil_r in Hne. destruct (batch (nodes W u)); [done|]. cbn. lia.
  - rewrite length_app. cbn. lia.
Qed.

Lemma rest_advances b W P Q F u unix instant :
  refines b W P Q F -> u ∈ ps -> serving (nodes W u) = true -> batch (nodes W u) = [] ->
  advances b W P Q F (step W (Turn u (Serve unix instant))).
Proof.
  intros Hr Hu Hs Hb. pose proof (sd_hung _ _ (re_steady _ _ _ _ _ Hr u Hu)) as Hh.
  cbn. unfold turn. cbn [World.node_step System.step]. unfold serve, reports. rewrite Hs, Hh, Hb. cbn.
  apply shift_advances; [|done|unfold node_load, mode; cbn; rewrite Hs, Hb; cbn; lia].
  apply refines_shift; try done; cbn; rewrite ?Hb; try done.
  intros v. rewrite app_nil_r. unfold PacketNet.upd. case_bool_decide; by subst.
Qed.

(** What a handler sends has the node as its author. *)
Lemma deliver_authored (P P' : Net) i now v m R out :
  PacketNet.inv P -> PacketNet.inv P' -> PacketNet.step P (PacketNet.Deliver i now) = Some P' ->
  PacketNet.soup P ≡ₚ (v, m) :: R -> PacketNet.soup P' ≡ₚ out ++ R -> PacketNet.trace P' = PacketNet.trace P ++ [(v, m)] ->
  PacketNet.lost P' = PacketNet.lost P -> Forall (fun q => author q = v) out.
Proof.
  intros Hi Hi' _ Hs Hs' Ht Hl. apply Forall_forall. intros q Hq.
  apply (author_new (PacketNet.trace P) (v, m)).
  - rewrite <-Ht. apply (PacketNet.inv_sent _ Hi'). rewrite elem_of_app. left. rewrite Hs', elem_of_app. auto.
  - intros Hissued. apply (PacketNet.inv_sent _ Hi) in Hissued. pose proof (PacketNet.inv_once _ Hi') as Hnd.
    rewrite Hs', Ht, Hl, <-app_assoc in Hnd. apply NoDup_app in Hnd as (_ & Hnd & _). apply (Hnd q Hq).
    rewrite Hs in Hissued. rewrite !elem_of_app in *. rewrite elem_of_cons in Hissued. rewrite list_elem_of_singleton. tauto.
Qed.

Lemma serve_advances b W P Q F u p l unix instant :
  refines b W P Q F -> u ∈ ps -> lo <= instant < hi -> serving (nodes W u) = true -> batch (nodes W u) = p :: l ->
  advances b W P Q F (step W (Turn u (Serve unix instant))).
Proof.
  intros Hr Hu Hnow Hs Hb. pose proof (re_steady _ _ _ _ _ Hr u Hu) as [Hctx Hm Hop Hh Hsd Hhd Hpe].
  pose proof (re_nodes _ _ _ _ _ Hr u Hu) as Hn. pose proof (re_inv _ _ _ _ _ Hr) as Hi.
  assert (Hq : (u, p.2) ∈ transit W Q F).
  { apply elem_of_app. left. apply list_elem_of_bind. exists u. split; [|done]. apply elem_of_app. right.
    apply list_elem_of_fmap. exists p. split; [done|]. rewrite Hb. by left. }
  destruct (on_way _ _ _ _ _ Hr) as [_ Hway]. destruct (message_ok _ _ (Hway _ Hq)) as [Hrel _]. cbn [snd] in Hrel.
  rewrite <-(re_soup _ _ _ _ _ Hr) in Hq. apply elem_of_Permutation in Hq as [R HR].
  destruct (RoundEngine.handle_incoming instant (engine (core (nodes W u))) p.2 (ctxs u)) as [e [ev out]] eqn:Eh.
  destruct (net_deliver P u p.2 R instant _ _ e ev out HR Hn Eh) as (i & P' & Hstep & Hs' & Hn' & Ht' & Hl').
  assert (Hi' : PacketNet.inv P') by (apply (PacketNet.net_step_inv P (PacketNet.Deliver i instant)); [done|by apply Forall_singleton|done]).
  pose proof (deliver_authored _ _ _ _ _ _ _ _ Hi Hi' Hstep HR Hs' Ht' Hl') as Hau.
  exists [PacketNet.Deliver i instant], P', Q, F. split_and!; [cbn [PacketNet.run]; by rewrite Hstep|by apply Forall_singleton| |].
  2: { left. unfold settled. rewrite Ht', Hl', !length_app. cbn. lia. }
  cbn. unfold turn. cbn [World.node_step System.step]. unfold serve, reports, pump_one. rewrite Hs, Hh, Hb. cbn [negb orb msg].
  rewrite Hrel, Hctx. cbn [engine view with_app]. cbn [Daemon.instant]. rewrite Eh. cbn [fst snd].
  rewrite PumpFacts.send_all by exact Hop.
  assert (Hsd' : Forall (fun q => author q = u) (outgoing (app (core (nodes W u))) ++ out)) by (by apply Forall_app).
  rewrite Hb in Hhd. apply Forall_cons in Hhd as [Hp Hhd].
  apply (refines_local b W P); try done.
  - intros v. by rewrite Hn'.
  - intros R0 HR0. rewrite Hs'. unfold pend in *. rewrite Hb in HR0. cbn in HR0 |- *. rewrite HR0, <-app_assoc in HR. cbn in HR.
    rewrite <-Permutation_middle in HR. apply Permutation_cons_inv in HR. rewrite <-HR. solve_Permutation.
  - rewrite Ht'. apply Forall_app. split; [apply Hr|by apply Forall_singleton].
  - rewrite Hl'. apply Hr.
  - apply Hr.
Qed.

(** The packets of one wire, one more from the author's own channel included, fit its queue. *)
Lemma wire_fits b W P Q F u v p :
  refines b W P Q F -> (u, v) ∈ links -> p ∈ outgoing (app (core (nodes W u))) -> p.1 = v ->
  zlen (Q u v) < WRITER_QUEUE_CAP.
Proof.
  intros Hr Hl Hp <-. destruct (Hends _ _ Hl) as (Hu & _ & _). destruct (on_way _ _ _ _ _ Hr) as [Hnd Hiss].
  assert (Hpt : p ∈ ps ≫= (fun u => pend u (nodes W u))).
  { apply list_elem_of_bind. exists u. split; [|done]. apply elem_of_app. auto. }
  assert (Hht : forall q, q ∈ hop Q F (u, p.1) -> q ∈ links ≫= hop Q F) by (intros q Hq; apply list_elem_of_bind; eauto).
  destruct (bind_at (hop Q F) (hop Q F) links (u, p.1) Hlinks Hl (fun _ _ _ => eq_refl)) as (R & HR & _).
  assert (Hn : NoDup (p :: hop Q F (u, p.1))).
  { unfold transit in Hnd. apply NoDup_app in Hnd as (_ & Hd & Hnd). apply NoDup_cons. split.
    - intros Hh. by apply (Hd p Hpt), Hht.
    - rewrite HR in Hnd. by apply NoDup_app in Hnd as [? _]. }
  pose proof (wire_room u p.1 _ Hn) as Hroom. unfold zlen, hop in Hroom. cbn [length fst snd] in Hroom. rewrite length_fmap, length_app in Hroom.
  unfold zlen. enough (Z.of_nat (S (length (F u p.1) + length (Q u p.1))) <= WRITER_QUEUE_CAP) by lia. apply Hroom. clear Hroom Hn.
  intros q [->|Hq]%elem_of_cons.
  - split_and!; [done| |eexists; apply Hiss, elem_of_app; by left].
    pose proof (sd_said _ _ (re_steady _ _ _ _ _ Hr u Hu)) as Hsaid. rewrite Forall_forall in Hsaid. by apply Hsaid.
  - pose proof Hq as Hq'. apply list_elem_of_fmap in Hq as (m & -> & Hm). split_and!; [done| |eexists; apply Hiss, elem_of_app; right; by apply Hht].
    destruct (re_wired _ _ _ _ _ Hr u p.1 Hl) as (w & wr & c & _ & _ & _ & Hj). pose proof (jn_said _ _ _ _ _ _ _ _ Hj) as Hsaid.
    rewrite Forall_forall in Hsaid. by apply Hsaid.
Qed.

(** A packet moves between the places where it waits. *)
Lemma transit_at W W' Q F Q' F' n u v :
  n ∈ ps -> (u, v) ∈ links -> (forall x, x <> n -> nodes W' x = nodes W x) ->
  (forall x y, (x, y) <> (u, v) -> Q' x y = Q x y /\ F' x y = F x y) ->
  pend n (nodes W' n) ++ hop Q' F' (u, v) ≡ₚ pend n (nodes W n) ++ hop Q F (u, v) -> transit W' Q' F' ≡ₚ transit W Q F.
Proof.
  intros Hu Hl Hn HQ Hp. unfold transit.
  destruct (bind_at (fun x => pend x (nodes W x)) (fun x => pend x (nodes W' x)) ps n Hps Hu) as (R & HR & HR').
  { intros x _ Hx. by rewrite Hn. }
  destruct (bind_at (hop Q F) (hop Q' F') links (u, v) Hlinks Hl) as (S & HS & HS').
  { intros [x y] _ Hx. unfold hop. cbn. by destruct (HQ _ _ Hx) as [-> ->]. }
  rewrite HR, HR', HS, HS'. transitivity ((pend n (nodes W' n) ++ hop Q' F' (u, v)) ++ R ++ S); [solve_Permutation|].
  rewrite Hp. solve_Permutation.
Qed.

Lemma load_wire W Q F Q' F' u v : (u, v) ∈ links -> (forall x y, (x, y) <> (u, v) -> Q' x y = Q x y /\ F' x y = F x y) ->
  (load W Q' F' + wire_load Q F (u, v) = load W Q F + wire_load Q' F' (u, v))%nat.
Proof.
  intros Hl HQ. unfold load. pose proof (sum_at (wire_load Q F) (wire_load Q' F') links (u, v) Hlinks Hl) as Hs.
  specialize (Hs ltac:(intros [x y] _ Hx; unfold wire_load; cbn; by destruct (HQ _ _ Hx) as [-> ->])). lia.
Qed.

Lemma advances_same b W P Q F W' W'' : same W' W'' -> advances b W P Q F W' -> advances b W P Q F W''.
Proof.
  intros Hs (acts & P' & Q' & F' & Hrun & Hin & Hr & Hd). exists acts, P', Q', F'. split_and!; [done|done|by eapply refines_same|].
  destruct Hd as [?|[? Hd]]; [auto|]. right. split; [done|]. unfold load in *.
  assert (Hx : forall l, sum_list_with (fun u => node_load (nodes W'' u)) l = sum_list_with (fun u => node_load (nodes W' u)) l).
  { induction l as [|u l IH]; [done|]. cbn. rewrite (sm_nodes _ _ Hs). f_equal. exact IH. }
  by rewrite Hx.
Qed.

(** A node and its wire to [v] change: packets move from the channel to the queue or on to the wire. *)
Lemma refines_wire b b' W P Q F u v s' w' wr' c qs fs :
  refines b W P Q F -> b <= b' -> (u, v) ∈ links ->
  steady u s' -> engine (core s') = engine (core (nodes W u)) -> NetState.conns (net s') = NetState.conns (net (nodes W u)) ->
  outq s' v = Some wr' -> (forall y, y <> v -> outq s' y = outq (nodes W u) y) ->
  NetState.conns (net (nodes W v)) !! w_reader w' = Some c -> joined u v w' wr' c qs fs b' ->
  pend u s' ++ (pair v <$> fs ++ qs) ≡ₚ pend u (nodes W u) ++ (pair v <$> F u v ++ Q u v) ->
  (node_load s' + 3 * length fs + 4 * length qs < node_load (nodes W u) + 3 * length (F u v) + 4 * length (Q u v))%nat ->
  advances b' W P Q F (World.mk (PacketNet.upd (nodes W) u s') (set_wire (wires W) u v w') (told W) (failed W) (overrun W)).
Proof.
  intros Hr Hb Hl Hst He Hcs Hov Hoy Hc Hj Hpe Hload. destruct (Hends _ _ Hl) as (Hu & _ & Hne).
  set (Q' := put Q u v qs). set (F' := put F u v fs). exists [], P, Q', F'.
  assert (HQF : forall x y, (x, y) <> (u, v) -> Q' x y = Q x y /\ F' x y = F x y) by (intros x y Hx; split; by apply put_other).
  split_and!; [done|by apply Forall_nil| |].
  - destruct Hr as [Hi Hn Hs Hwd Hp Htr Hlo Hfl Hou]. split; cbn [nodes told failed overrun]; try done.
    + intros y Hy. rewrite (Hn y Hy). unfold PacketNet.upd. case_bool_decide; [subst y|done]. by rewrite He.
    + intros y Hy. unfold PacketNet.upd. case_bool_decide; [by subst y|by apply Hs].
    + intros x y Hxy. destruct (decide ((x, y) = (u, v))) as [[= -> ->]|Hx].
      * exists w', wr', c. unfold Q', F'. rewrite !put_self. cbn. by rewrite set_wire_self, upd_self, upd_other.
      * unfold Q', F'. rewrite !put_other by done. eapply wired_frame; [..|apply (wired_later _ _ _ _ _ b); [done|by apply Hwd]];
          cbn; [by apply set_wire_other| |]; unfold PacketNet.upd; case_bool_decide; try done.
        -- subst x. apply Hoy. by intros ->.
        -- by subst y.
    + rewrite Hp. symmetry. apply (transit_at _ _ _ _ _ _ u u v); try done; [intros x Hx; by apply upd_other|].
      cbn [nodes]. rewrite upd_self. unfold hop, Q', F'. cbn [fst snd]. by rewrite !put_self.
  - right. split; [done|]. pose proof (load_node W Q F u s' (set_wire (wires W) u v w') (told W) (failed W) (overrun W) Hu) as Hln.
    pose proof (load_wire (World.mk (PacketNet.upd (nodes W) u s') (set_wire (wires W) u v w') (told W) (failed W) (overrun W)) Q F Q' F' u v Hl HQF) as Hlw.
    unfold wire_load in Hlw. cbn [fst snd] in Hlw. unfold Q' at 2, F' at 2 in Hlw. rewrite !put_self in Hlw. lia.
Qed.

Lemma queued_advances b W P Q F u p rest :
  refines b W P Q F -> u ∈ ps -> outgoing (app (core (nodes W u))) = p :: rest -> (u, p.1) ∈ links ->
  advances b W P Q F (step W (Turn u Transmit)).
Proof.
  intros Hr Hu Ho Hl. pose proof (wire_fits _ _ _ _ _ u p.1 p Hr Hl ltac:(rewrite Ho; by left) eq_refl) as Hroom.
  pose proof (re_steady _ _ _ _ _ Hr u Hu) as [Hctx Hm Hop Hh Hsd Hhd Hpe]. rewrite Ho in Hsd. apply Forall_cons in Hsd as [Hau Hsd].
  destruct (re_wired _ _ _ _ _ Hr u p.1 Hl) as (w & wr & c & Hw & Hq & Hc & Hj). pose proof Hq as Hq0. unfold outq in Hq.
  destruct (ConnectionManager.active_connections (NetState.cm (net (nodes W u)))) as [active|] eqn:Ea; [|done]. cbn in Hq.
  set (wr' := mkWriter (payload <$> Q u p.1 ++ [p.2]) true (conn_id wr)).
  assert (Ht : try_send wr (payload p.2) = (wr', Ok tt)).
  { unfold try_send, wr'. rewrite (jn_alive _ _ _ _ _ _ _ _ Hj), (jn_queue _ _ _ _ _ _ _ _ Hj). cbn [negb].
    unfold zlen in *. rewrite length_fmap, (proj2 (Z.leb_gt _ _)) by done. by rewrite fmap_app. }
  cbn. unfold turn. cbn [World.node_step System.step]. unfold transmit, refused. rewrite Ho.
  unfold ConnectionManager.send_to. rewrite Ea, Hq. change (string_bytes (to_json p.2)) with (payload p.2). rewrite Ht. cbn [fst snd].
  set (s' := System.mk _ _ _ _ _ _ _ _). rewrite app_nil_r.
  assert (Hout : outq s' p.1 = Some wr') by (unfold outq; cbn; apply lookup_insert_eq).
  assert (Houty : forall y, y <> p.1 -> outq s' y = outq (nodes W u) y).
  { intros y Hy. unfold outq. cbn. rewrite Ea. by apply lookup_insert_ne. }
  eapply advances_same; [|eapply (refines_wire b b W P Q F u p.1 s' w wr' c (Q u p.1 ++ [p.2]) (F u p.1)); try done].
  - split; cbn; try done. intros x y. unfold set_wire. case_bool_decide as E; [|done]. destruct E as [-> ->]. done.
  - split; try done. intros v. destruct (decide (v = p.1)) as [->|Hv]; [|by rewrite Houty].
    rewrite <-Hpe, Hout, Hq0. split; by eexists.
  - destruct Hj. split; try done. rewrite app_assoc. apply Forall_app. split; [done|]. apply Forall_singleton. by destruct p.
  - unfold pend. rewrite Ho. destruct p as [v m]. cbn. rewrite !fmap_app. cbn. solve_Permutation.
  - unfold node_load, mode. rewrite Ho, length_app. cbn. lia.
Qed.

Lemma refused_advances b W P Q F u p rest :
  refines b W P Q F -> u ∈ ps -> outgoing (app (core (nodes W u))) = p :: rest -> (u, p.1) ∉ links ->
  advances b W P Q F (step W (Turn u Transmit)).
Proof.
  intros Hr Hu Ho Hl. pose proof (re_steady _ _ _ _ _ Hr u Hu) as [Hctx Hm Hop Hh Hsd Hhd Hpe]. rewrite Ho in Hsd.
  apply Forall_cons in Hsd as [Hau Hsd].
  assert (Hsend : exists e, ConnectionManager.send_to show (NetState.cm (net (nodes W u))) p.1 p.2 = (NetState.cm (net (nodes W u)), Err e)).
  { rewrite <-Hpe, <-eq_None_not_Some in Hl. unfold outq in Hl. unfold ConnectionManager.send_to.
    destruct (ConnectionManager.active_connections _) as [active|]; [|by eexists]. cbn in Hl. rewrite Hl. by eexists. }
  destruct Hsend as [e Hsend].
  assert (Hq : p ∈ PacketNet.soup P).
  { rewrite (re_soup _ _ _ _ _ Hr). apply elem_of_app. left. apply list_elem_of_bind. exists u. split; [|done].
    apply elem_of_app. left. rewrite Ho. by left. }
  apply elem_of_Permutation in Hq as [R HR]. destruct (net_lose P p R HR) as (i & P' & Hstep & Hs' & Hn' & Ht' & Hl').
  exists [PacketNet.Lose i], P', Q, F. split_and!; [cbn [PacketNet.run]; by rewrite Hstep|by apply Forall_singleton| |].
  2: { left. unfold settled. rewrite Ht', Hl', !length_app. cbn. lia. }
  cbn. unfold turn. cbn [World.node_step System.step]. unfold transmit, refused. rewrite Ho, Hsend. cbn [fst snd].
  eapply refines_same; [reflexivity| |eapply (refines_local b W P Q F u _ [] (failed W ++ [(u, p)]) P' Hr Hu)].
  - split; cbn; try done. intros v. rewrite app_nil_r. unfold PacketNet.upd. by case_bool_decide; [subst v|].
  - done.
  - done.
  - by split.
  - apply (PacketNet.net_step_inv P (PacketNet.Lose i)); [apply Hr|by apply Forall_singleton|done].
  - intros v. rewrite Hn', app_nil_r. unfold PacketNet.upd. case_bool_decide; [subst v|done]. by apply (re_nodes _ _ _ _ _ Hr).
  - intros R0 HR0. rewrite Hs'. unfold pend in *. rewrite Ho, HR in HR0. cbn in HR0 |- *. by apply Permutation_cons_inv in HR0.
  - rewrite Ht'. apply Hr.
  - rewrite Hl', fmap_app. cbn. by rewrite (re_lost _ _ _ _ _ Hr).
  - apply Forall_app. split; [apply Hr|by apply Forall_singleton].
Qed.

(** *** The wires *)

Lemma write_advances b W P Q F u v m qs nonce :
  refines b W P Q F -> (u, v) ∈ links -> Q u v = m :: qs -> length nonce = 12%nat -> b < 2 ^ 64 - 1 ->
  advances (b + 1) W P Q F (step W (Write u v nonce)).
Proof.
  intros Hr Hl HQ Hnonce Hb. destruct (Hends _ _ Hl) as (Hu & _ & Hne).
  destruct (re_wired _ _ _ _ _ Hr u v Hl) as (w & wr & c & Hw & Hq & Hc & Hj). rewrite HQ in Hj.
  assert (Hm : slen (to_json m) + 36 <= MAX_FRAME).
  { destruct (on_way _ _ _ _ _ Hr) as [_ Hway]. apply (message_ok (PacketNet.trace P) (v, m)), Hway. apply elem_of_app. right.
    apply list_elem_of_bind. exists (u, v). split; [|done]. apply list_elem_of_fmap. exists m. split; [done|]. cbn. rewrite HQ. apply elem_of_app. right. by left. }
  pose proof (jn_seq _ _ _ _ _ _ _ _ Hj). pose proof (jn_key _ _ _ _ _ _ _ _ Hj) as [Hkey Hk].
  destruct (sealed (w_flight w) m (w_key w) (w_seq w) nonce Hk Hnonce ltac:(lia) Hm) as (f & Hf & Hrecv).
  pose proof (re_steady _ _ _ _ _ Hr u Hu) as [Hctx Hman Hop Hh Hsd Hhd Hpe].
  cbn. unfold write. rewrite Hw. pose proof Hq as Hq0. unfold outq in Hq. rewrite Hq.
  rewrite (jn_queue _ _ _ _ _ _ _ _ Hj). cbn [fmap list_fmap]. change (list_fmap _ _ ?g ?l) with (g <$> l). rewrite Hf.
  destruct (ConnectionManager.active_connections (NetState.cm (net (nodes W u)))) as [active|] eqn:Ea; [|done]. cbn in Hq.
  set (wr' := mkWriter (payload <$> qs) true (conn_id wr)).
  assert (Hfl : NetState.flush (NetState.cm (net (nodes W u))) v = ConnectionManager.set_active (NetState.cm (net (nodes W u))) (Some (<[v := wr']> active))).
  { unfold NetState.flush. by rewrite Ea, Hq, (jn_queue _ _ _ _ _ _ _ _ Hj), (jn_alive _ _ _ _ _ _ _ _ Hj). }
  cbn [World.node_step System.step task_event NetState.step]. unfold World.node_step. cbn [System.step task_event NetState.step].
  rewrite Hfl. set (s' := with_net _ _).
  assert (Hout : outq s' v = Some wr') by (unfold outq; cbn; apply lookup_insert_eq).
  assert (Houty : forall y, y <> v -> outq s' y = outq (nodes W u) y).
  { intros y Hy. unfold outq. cbn. rewrite Ea. by apply lookup_insert_ne. }
  eapply (refines_wire b (b + 1) W P Q F u v s' _ wr' c qs (F u v ++ [m])); try done.
  - lia.
  - split; try done. intros y. destruct (decide (y = v)) as [->|Hv]; [|by rewrite Houty].
    rewrite <-Hpe, Hout, Hq0. split; by eexists.
  - destruct Hj as [_ _ (last & Hlast & Hl0 & Hfly) Hsq _ Huid Hauth Hsaid]. split; cbn; try done; [|lia|by rewrite <-app_assoc].
    exists last. split_and!; [done|done|]. by apply flying_snoc.
  - by rewrite HQ, <-(app_assoc (F u v)).
  - rewrite HQ, length_app. unfold node_load, mode. cbn. lia.
Qed.

(** The channel towards the pump has room for every packet that is still to come. *)
Lemma inbox_fits b W P Q F u v m fs :
  refines b W P Q F -> (u, v) ∈ links -> F u v = m :: fs -> zlen (NetState.incoming (net (nodes W v))) < INCOMING_CHANNEL_CAP.
Proof.
  intros Hr Hl HF. destruct (Hends _ _ Hl) as (_ & Hv & _). destruct (on_way _ _ _ _ _ Hr) as [Hnd Hiss].
  set (inbox := (fun p : string * PeerMessage => (v, p.2)) <$> NetState.incoming (net (nodes W v))).
  destruct (bind_at (fun x => pend x (nodes W x)) (fun x => pend x (nodes W x)) ps v Hps Hv (fun _ _ _ => eq_refl)) as (R & HR & _).
  assert (Hin : forall q, q ∈ inbox -> q ∈ ps ≫= (fun u => pend u (nodes W u))).
  { intros q Hq. rewrite HR. unfold pend at 1. rewrite fmap_app. rewrite !elem_of_app. auto. }
  assert (Hm : (v, m) ∈ links ≫= hop Q F).
  { apply list_elem_of_bind. exists (u, v). split; [|done]. apply list_elem_of_fmap. exists m. split; [done|]. cbn. rewrite HF. by left. }
  assert (Hn : NoDup ((v, m) :: inbox)).
  { unfold transit in Hnd. apply NoDup_app in Hnd as (Hnd & Hd & _). apply NoDup_cons. split; [intros Hq; by apply (Hd (v, m)); [apply Hin|]|].
    rewrite HR in Hnd. unfold pend at 1 in Hnd. rewrite fmap_app in Hnd. apply NoDup_app in Hnd as (Hnd & _).
    apply NoDup_app in Hnd as (_ & _ & Hnd). by apply NoDup_app in Hnd as (_ & _ & ?). }
  enough (zlen ((v, m) :: inbox) <= INCOMING_CHANNEL_CAP) as Hz.
  { unfold zlen, inbox in *. cbn [length] in Hz. rewrite length_fmap in Hz. lia. }
  apply (inbox_room v); [done|]. intros q [->|Hq]%elem_of_cons; (split; [|eexists; apply Hiss, elem_of_app]); [done|by right| |left; auto].
  unfold inbox in Hq. by apply list_elem_of_fmap in Hq as (p & -> & _).
Qed.

(** A message leaves the wire for the receiver's channel. *)
Lemma refines_read b W P Q F u v m fs s' w' wr c c' :
  refines b W P Q F -> (u, v) ∈ links -> F u v = m :: fs -> outq (nodes W u) v = Some wr ->
  NetState.conns (net (nodes W v)) !! w_reader w' = Some c -> rc_peer_uid (c_ctx c) = u ->
  joined u v w' wr c' (Q u v) fs b -> author (v, m) = u ->
  core s' = core (nodes W v) -> NetState.cm (net s') = NetState.cm (net (nodes W v)) -> hung s' = hung (nodes W v) ->
  serving s' = serving (nodes W v) -> batch s' = batch (nodes W v) ->
  NetState.incoming (net s') = NetState.incoming (net (nodes W v)) ++ [(u, m)] ->
  NetState.conns (net s') = <[w_reader w' := c']> (NetState.conns (net (nodes W v))) ->
  advances b W P Q F (World.mk (PacketNet.upd (nodes W) v s') (set_wire (wires W) u v w') (told W) (failed W) (overrun W)).
Proof.
  intros Hr Hl HF Hq Hc Huid Hj Hau Hco Hcm Hhu Hse Hba Hin Hcs. destruct (Hends _ _ Hl) as (_ & Hv & Hne).
  pose proof (re_steady _ _ _ _ _ Hr v Hv) as [Hctx Hman Hop Hh Hsd Hhd Hpe].
  set (F' := put F u v fs). exists [], P, Q, F'.
  assert (HQF : forall x y, (x, y) <> (u, v) -> Q x y = Q x y /\ F' x y = F x y) by (intros x y Hx; split; [done|by apply put_other]).
  split_and!; [done|by apply Forall_nil| |].
  - destruct Hr as [Hi Hn Hs Hwd Hp Htr Hlo Hfl Hou]. split; cbn [nodes told failed overrun]; try done.
    + intros y Hy. rewrite (Hn y Hy). unfold PacketNet.upd. case_bool_decide; [subst y|done]. by rewrite Hco.
    + intros y Hy. unfold PacketNet.upd. case_bool_decide; [subst y|by apply Hs].
      split; rewrite ?Hco, ?Hhu; try done; [unfold view; by rewrite Hco, Hcm| |intros y; unfold outq; rewrite Hcm; apply Hpe].
      rewrite Hba, Hin, app_assoc. apply Forall_app. split; [done|]. apply Forall_singleton. cbn. by rewrite Hau.
    + intros x y Hxy. destruct (decide ((x, y) = (u, v))) as [[= -> ->]|Hx].
      * exists w', wr, c'. unfold F'. rewrite !put_self. cbn. rewrite set_wire_self, upd_self, upd_other by done. split_and!; try done.
        rewrite Hcs. apply list_lookup_insert_eq. by eapply lookup_lt_Some.
      * unfold F'. rewrite put_other by done. destruct (Hwd x y Hxy) as (w1 & wr1 & c1 & Hw1 & Hq1 & Hc1 & Hj1). exists w1, wr1, c1. cbn.
        rewrite set_wire_other by done. split_and!; [done| | |done]; unfold PacketNet.upd; case_bool_decide; try done; subst.
        -- unfold outq. by rewrite Hcm.
        -- rewrite Hcs, list_lookup_insert_ne; [done|]. intros E. rewrite E in Hc. rewrite Hc in Hc1. simplify_eq.
           apply Hx. by rewrite (proj1 (jn_uid _ _ _ _ _ _ _ _ Hj1)).
    + rewrite Hp. symmetry. apply (transit_at _ _ _ _ _ _ v u v); try done; [intros x Hx; by apply upd_other|].
      cbn [nodes]. rewrite upd_self. unfold pend, hop, F'. cbn [fst snd]. rewrite put_self, Hco, Hba, Hin, HF. cbn.
      rewrite !fmap_app. cbn. solve_Permutation.
  - right. split; [done|]. pose proof (load_node W Q F v s' (set_wire (wires W) u v w') (told W) (failed W) (overrun W) Hv) as Hln.
    pose proof (load_wire (World.mk (PacketNet.upd (nodes W) v s') (set_wire (wires W) u v w') (told W) (failed W) (overrun W)) Q F Q F' u v Hl HQF) as Hlw.
    unfold wire_load in Hlw. cbn [fst snd] in Hlw. unfold F' at 2 in Hlw. rewrite put_self, HF in Hlw. cbn [length] in Hlw.
    unfold node_load, mode in Hln. rewrite Hco, Hba, Hin, Hse, length_app in Hln. cbn [length] in Hln. lia.
Qed.

Lemma read_advances b W P Q F u v m fs :
  refines b W P Q F -> (u, v) ∈ links -> F u v = m :: fs -> advances b W P Q F (step W (Read u v)).
Proof.
  intros Hr Hl HF. destruct (Hends _ _ Hl) as (_ & Hv & Hne). pose proof (inbox_fits _ _ _ _ _ _ _ _ _ Hr Hl HF) as Hroom.
  destruct (re_wired _ _ _ _ _ Hr u v Hl) as (w & wr & c & Hw & Hq & Hc & Hj). rewrite HF in Hj.
  pose proof (re_steady _ _ _ _ _ Hr v Hv) as [Hctx Hman Hop Hh Hsd Hhd Hpe].
  assert (Hau : author (v, m) = u) by (pose proof (jn_said _ _ _ _ _ _ _ _ Hj) as Hsaid; by apply Forall_cons in Hsaid as [? _]).
  assert (Hext : extract_uid m (rc_addr (c_ctx c)) = rc_peer_uid (c_ctx c) \/ extract_uid m (rc_addr (c_ctx c)) = "peer@" +:+ rc_addr (c_ctx c)).
  { destruct (on_way _ _ _ _ _ Hr) as [_ Hway]. destruct (message_ok (PacketNet.trace P) (v, m)) as (_ & _ & He).
    - apply Hway. apply elem_of_app. right. apply list_elem_of_bind. exists (u, v). split; [|done]. apply list_elem_of_fmap. exists m.
      split; [done|]. cbn. rewrite HF. by left.
    - rewrite (proj1 (jn_uid _ _ _ _ _ _ _ _ Hj)), <-Hau. apply He. }
  pose proof Hj as [_ _ (last & Hlast & Hl0 & Hfly) Hsq [Hkey Hk] (Huid & Hvu & Hvp) Hauth Hsaid].
  assert (Hfl : w_flight w <> []) by (intros E; rewrite E in Hfly; by apply flying_empty in Hfly).
  destruct Hfly as (f & stream & Ef & Hrecv & Hfly). specialize (Hrecv stream). rewrite <-Ef, <-Hkey in Hrecv.
  destruct c as [ctx inb rd wt]. cbn in Hlast, Hkey, Huid, Hvp, Hauth, Hext, Hrecv. subst rd.
  assert (Hround : reader_round ctx last (Some (w_flight w)) = (last + 1, Some (Some m, stream))).
  { unfold reader_round. rewrite Hrecv, filter_passes; try done. by rewrite Huid. }
  cbn. unfold read. rewrite Hw, Hc. destruct (w_flight w) as [|b0 bs] eqn:Efl; [done|]. rewrite <-Efl in *. rewrite Hround. cbn [snd].
  rewrite (proj2 (Z.leb_gt _ _) Hroom).
  unfold World.node_step. cbn [System.step task_event NetState.step]. unfold NetState.connection_reader. rewrite Hc, Hround.
  unfold NetState.forward. rewrite (proj2 (Z.leb_gt _ _) Hroom), Huid.
  set (s' := with_net _ _). set (w' := mkWire _ _ _ _ _). rewrite app_nil_r.
  eapply (refines_read b W P Q F u v m fs s' w' wr _ (mkConn ctx inb (Some (last + 1)) wt)); try done.
  split; try done; [apply Hj|apply Hj| |by apply Forall_cons in Hsaid as [_ ?]].
  exists (last + 1). split_and!; [done|lia|done].
Qed.

(** *** Runs *)

(** What happens during a round: the participants' own steps, with clocks before the deadline, and
    the wires between them. *)
Definition proper (a : action) : Prop :=
  match a with
  | Turn u (Serve _ instant) => u ∈ ps /\ lo <= instant < hi
  | Turn u _ => u ∈ ps
  | Write u v nonce => (u, v) ∈ links /\ length nonce = 12%nat
  | Read u v => (u, v) ∈ links
  | Link _ _ _ _ _ _ _ => False
  end.

Lemma turn_idle b W P Q F u a : refines b W P Q F -> node_step (nodes W u) a = nodes W u ->
  (forall x y, a = Serve x y -> reports (nodes W u) y = []) -> (a = Transmit -> refused show u (nodes W u) = []) ->
  refines b (turn show show_addr index_html peers_json connect_request W u a) P Q F.
Proof.
  intros Hr Hs Hre Hf. apply (refines_same b b W); [done| |done]. split; cbn; try done.
  - intros v. rewrite Hs. unfold PacketNet.upd. case_bool_decide; by subst.
  - intros v. destruct a; try done. rewrite (Hre _ _ eq_refl), app_nil_r. unfold PacketNet.upd. case_bool_decide; by subst.
  - destruct a; try done. by rewrite Hf, app_nil_r.
Qed.

Lemma console_idle s rq : node_step s (Console rq) = s.
Proof.
  unfold World.node_step. cbn. unfold console. destruct (hung s); [done|].
  destruct (console_thread _ _ _ _ _ _ _ _ _) as [|? [task|] ?] eqn:E; [done| |done]. by apply console_spawns_nothing in E.
Qed.

Definition follows (b : Z) (P : Net) (W' : t) : Prop :=
  exists acts P' Q' F', PacketNet.run P acts = Some P' /\ PacketNet.within lo hi acts /\ refines b W' P' Q' F'.

Lemma advances_follows b b' W P Q F W' : b <= b' -> advances b W P Q F W' -> follows b' P W'.
Proof.
  intros Hb (acts & P' & Q' & F' & ? & ? & Hr & _). exists acts, P', Q', F'. split_and!; [done|done|].
  by apply (refines_same b b' W').
Qed.

Lemma idle_follows b b' W P Q F : b <= b' -> refines b W P Q F -> follows b' P W.
Proof. intros Hb Hr. exists [], P, Q, F. split_and!; [done|by apply Forall_nil|by apply (refines_same b b' W)]. Qed.

Lemma step_follows b W P Q F a : refines b W P Q F -> proper a -> b < 2 ^ 64 - 1 -> follows (b + 1) P (step W a).
Proof.
  intros Hr Ha Hb. destruct a as [u a|u v nonce|u v|]; [|destruct Ha as [Hl Hn]| |done].
  - cbn [World.step]. destruct (inner a) eqn:Ei; [|apply (idle_follows b _ _ _ Q F); [lia|done]].
    assert (Hu : u ∈ ps) by (destruct a; cbn in Ha; tauto). destruct a as [e| |unix instant| |rq|]; try done.
    + apply (idle_follows b _ _ _ Q F); [lia|]. by apply (recv_refines _ _ _ _ _ u).
    + destruct (serving (nodes W u)) eqn:Es.
      * apply (advances_follows b _ W _ Q F); [lia|]. destruct (batch (nodes W u)) as [|p l] eqn:Eb; [by apply rest_advances|].
        eapply serve_advances; try done. apply Ha.
      * apply (idle_follows b _ _ _ Q F); [lia|]. apply turn_idle; [done| |intros x y [= _ <-]|done].
        -- unfold World.node_step. cbn. unfold serve. by rewrite Es.
        -- unfold reports. by rewrite Es.
    + destruct (outgoing (app (core (nodes W u)))) as [|p rest] eqn:Eo.
      * apply (idle_follows b _ _ _ Q F); [lia|]. apply turn_idle; [done| |done|intros _; unfold refused; by rewrite Eo].
        unfold World.node_step. cbn. unfold transmit. by rewrite Eo.
      * apply (advances_follows b _ W _ Q F); [lia|]. destruct (decide ((u, p.1) ∈ links)); [by eapply queued_advances|by eapply refused_advances].
    + apply (idle_follows b _ _ _ Q F); [lia|]. apply turn_idle; try done. apply console_idle.
  - destruct (Q u v) as [|m qs] eqn:EQ; [|apply (advances_follows (b + 1) _ W _ Q F); [lia|by eapply write_advances]].
    apply (idle_follows b _ _ _ Q F); [lia|]. destruct (re_wired _ _ _ _ _ Hr u v Hl) as (w & wr & c & Hw & Hq & _ & Hj).
    cbn. unfold write. rewrite Hw. unfold outq in Hq. rewrite Hq, (jn_queue _ _ _ _ _ _ _ _ Hj), EQ. done.
  - destruct (F u v) as [|m fs] eqn:EF; [|apply (advances_follows b _ W _ Q F); [lia|by eapply read_advances]].
    apply (idle_follows b _ _ _ Q F); [lia|]. destruct (re_wired _ _ _ _ _ Hr u v Ha) as (w & wr & c & Hw & _ & _ & Hj).
    destruct (jn_reader _ _ _ _ _ _ _ _ Hj) as (last & _ & _ & Hfly). rewrite EF in Hfly. destruct Hfly as [Hfl _].
    cbn. unfold read. by rewrite Hw, Hfl.
Qed.

Lemma run_follows b W P Q F acts :
  refines b W P Q F -> Forall proper acts -> b + zlen acts < 2 ^ 64 -> follows (b + zlen acts) P (run W acts).
Proof.
  intros Hr Ha. revert b W P Q F Hr. induction Ha as [|a acts Hp Ha IH]; intros b W P Q F Hr Hb.
  { apply (idle_follows b _ _ _ Q F); [unfold zlen; cbn; lia|done]. }
  rewrite zlen_cons in *. pose proof (zlen_nonneg acts).
  destruct (step_follows _ _ _ _ _ _ Hr Hp ltac:(lia)) as (acts1 & P1 & Q1 & F1 & Hrun1 & Hin1 & Hr1).
  destruct (IH _ _ _ _ _ Hr1 ltac:(lia)) as (acts2 & P2 & Q2 & F2 & Hrun2 & Hin2 & Hr2).
  exists (acts1 ++ acts2), P2, Q2, F2. split_and!; [by rewrite PacketNet.net_run_app, Hrun1|by apply Forall_app|].
  by replace (b + (1 + zlen acts)) with (b + 1 + zlen acts) by lia.
Qed.

(** *** The end of a run *)

(** Nothing is on its way. *)
Record quiet (W : t) : Prop := {
  qt_nodes u : u ∈ ps -> outgoing (app (core (nodes W u))) = [] /\ batch (nodes W u) = [] /\ NetState.incoming (net (nodes W u)) = [];
  qt_queues u v wr : (u, v) ∈ links -> outq (nodes W u) v = Some wr -> queue wr = [];
  qt_wires u v w : (u, v) ∈ links -> wires W u v = Some w -> w_flight w = [];
}.

Lemma bind_empty {A B} (f : A -> list B) l : (forall x, x ∈ l -> f x = []) -> l ≫= f = [].
Proof. induction l as [|x l IH]; intros Hf; [done|]. cbn. rewrite Hf by (by left). apply IH. intros; apply Hf. by right. Qed.

Lemma quiet_transit b W P Q F : refines b W P Q F -> quiet W -> transit W Q F = [].
Proof.
  intros Hr [Hn Hqs Hws]. unfold transit. rewrite !bind_empty; [done| |].
  - intros [u v] Huv. destruct (re_wired _ _ _ _ _ Hr u v Huv) as (w & wr & c & Hw & Ho & _ & Hj). unfold hop. cbn.
    pose proof (jn_queue _ _ _ _ _ _ _ _ Hj) as Hqu. rewrite (Hqs _ _ _ Huv Ho) in Hqu. symmetry in Hqu. apply fmap_nil_inv in Hqu as ->.
    destruct (jn_reader _ _ _ _ _ _ _ _ Hj) as (last & _ & _ & Hfly). rewrite (Hws _ _ _ Huv Hw) in Hfly. by apply flying_empty in Hfly as ->.
  - intros u Hu. unfold pend. by destruct (Hn u Hu) as (-> & -> & ->).
Qed.

(** When all is quiet, what was issued has arrived exactly where its author has a connection. *)
Lemma quiet_arrived b W P Q F q :
  refines b W P Q F -> quiet W -> PacketNet.issued (PacketNet.trace P) q -> q ∈ PacketNet.trace P <-> (author q, q.1) ∈ links.
Proof.
  intros Hr Hqt Hq. split.
  { intros Ht. pose proof (re_trace _ _ _ _ _ Hr) as HF. rewrite Forall_forall in HF. by apply HF. }
  intros Hl. pose proof (quiet_transit _ _ _ _ _ Hr Hqt) as Hs.
  pose proof (re_soup _ _ _ _ _ Hr) as Hsoup. rewrite Hs in Hsoup. apply Permutation_nil_r in Hsoup.
  apply (PacketNet.inv_sent _ (re_inv _ _ _ _ _ Hr)) in Hq. rewrite Hsoup, !elem_of_app in Hq.
  destruct Hq as [Hq|[Hq|Hq]]; [by apply not_elem_of_nil in Hq|done|]. exfalso. rewrite (re_lost _ _ _ _ _ Hr) in Hq.
  apply list_elem_of_fmap in Hq as (x & -> & Hx). pose proof (re_failed _ _ _ _ _ Hr) as HF. rewrite Forall_forall in HF.
  destruct (HF x Hx) as [Hau Hnl]. rewrite Hau in Hl. done.
Qed.

(** As long as something is on its way some step makes progress. *)
Lemma busy_advances b W P Q F : refines b W P Q F -> b < 2 ^ 64 - 1 -> lo < hi ->
  quiet W \/ exists a, proper a /\ advances (b + 1) W P Q F (step W a).
Proof.
  intros Hr Hb Htime.
  assert (Hlater : forall W', advances b W P Q F W' -> advances (b + 1) W P Q F W').
  { intros W' (acts & P' & Q' & F' & ? & ? & Hr' & ?). exists acts, P', Q', F'. split_and!; try done. apply (refines_same b _ W'); [lia|done|done]. }
  destruct (decide (Exists (fun u => length (pend u (nodes W u)) <> 0%nat) ps)) as [He|Hn].
  - right. apply Exists_exists in He as (u & Hu & Hne). destruct (outgoing (app (core (nodes W u)))) as [|p rest] eqn:Eo.
    + assert (Hin : batch (nodes W u) ++ NetState.incoming (net (nodes W u)) <> []).
      { unfold pend in Hne. rewrite Eo in Hne. cbn in Hne. intros E. by rewrite E in Hne. }
      destruct (serving (nodes W u)) eqn:Es.
      * exists (Turn u (Serve 0 lo)). split; [cbn; split; [done|lia]|]. apply Hlater.
        destruct (batch (nodes W u)) as [|p l] eqn:Eb; [by apply rest_advances|]. eapply serve_advances; try done.
      * exists (Turn u Recv). split; [done|]. apply Hlater. by apply recv_advances.
    + exists (Turn u Transmit). split; [done|]. apply Hlater. destruct (decide ((u, p.1) ∈ links)); [by eapply queued_advances|by eapply refused_advances].
  - destruct (decide (Exists (fun l => length (hop Q F l) <> 0%nat) links)) as [He|Hn'].
    + right. apply Exists_exists in He as ([u v] & Hl & Hne). unfold hop in Hne. cbn in Hne. destruct (F u v) as [|m fs] eqn:EF.
      * destruct (Q u v) as [|m qs] eqn:EQ; [done|]. exists (Write u v (replicate 12 0)). split; [by cbn|]. by eapply write_advances.
      * exists (Read u v). split; [done|]. apply Hlater. by eapply read_advances.
    + left. apply not_Exists_Forall in Hn; [|solve_decision]. apply not_Exists_Forall in Hn'; [|solve_decision].
      rewrite Forall_forall in Hn. rewrite Forall_forall in Hn'.
      assert (Hhop : forall u v, (u, v) ∈ links -> F u v = [] /\ Q u v = []).
      { intros u v Hl. specialize (Hn' _ Hl). unfold hop in Hn'. cbn in Hn'. rewrite length_fmap, length_app in Hn'.
        destruct (F u v), (Q u v); cbn in Hn'; try done; lia. }
      split.
      * intros u Hu. specialize (Hn u Hu). cbn beta in Hn. unfold compose, pend in Hn. cbn beta in Hn. rewrite length_app, length_fmap, length_app in Hn.
        destruct (outgoing _), (batch _), (NetState.incoming _); cbn in Hn; try done; lia.
      * intros u v wr Hl Hq. destruct (re_wired _ _ _ _ _ Hr u v Hl) as (w & wr' & c & _ & Hq' & _ & Hj).
        assert (wr' = wr) as -> by congruence. rewrite (jn_queue _ _ _ _ _ _ _ _ Hj). by rewrite (proj2 (Hhop u v Hl)).
      * intros u v w Hl Hw. destruct (re_wired _ _ _ _ _ Hr u v Hl) as (w' & wr & c & Hw' & _ & _ & Hj).
        assert (w' = w) as -> by congruence. destruct (jn_reader _ _ _ _ _ _ _ _ Hj) as (last & _ & _ & Hfly).
        rewrite (proj1 (Hhop u v Hl)) in Hfly. apply Hfly.
Qed.

Context (universe : list packet) (Huniverse : forall tr q, PacketNet.issued tr q -> q ∈ universe).

Lemma length_bind_sum {A B} (f : A -> list B) l : length (l ≫= f) = sum_list_with (fun x => length (f x)) l.
Proof. induction l as [|x l IH]; [done|]. cbn. rewrite length_app. by f_equal. Qed.

Lemma load_bound W Q F : (load W Q F <= 5 * length (transit W Q F) + 2 * length ps)%nat.
Proof.
  unfold load, transit. rewrite length_app, !length_bind_sum.
  assert (Hx : forall u, (node_load (nodes W u) <= 5 * length (pend u (nodes W u)) + 2)%nat).
  { intros u. unfold node_load, pend. rewrite length_app, length_fmap, length_app.
    assert (mode (nodes W u) <= 2)%nat by (unfold mode; repeat case_match; lia). lia. }
  assert (Hy : forall x, (wire_load Q F x <= 5 * length (hop Q F x))%nat).
  { intros x. unfold wire_load, hop. rewrite length_fmap, length_app. lia. }
  assert (Hn : forall l, (sum_list_with (fun u => node_load (nodes W u)) l <=
    5 * sum_list_with (fun u => length (pend u (nodes W u))) l + 2 * length l)%nat).
  { induction l as [|u l IH]; [done|]. specialize (Hx u). cbn [sum_list_with length]. lia. }
  assert (Hw : forall l, (sum_list_with (wire_load Q F) l <= 5 * sum_list_with (fun x => length (hop Q F x)) l)%nat).
  { induction l as [|x l IH]; [done|]. specialize (Hy x). cbn [sum_list_with]. lia. }
  specialize (Hn ps). specialize (Hw links). lia.
Qed.

Lemma settled_bound b W P Q F : refines b W P Q F -> (length (transit W Q F) + settled P <= length universe)%nat.
Proof.
  intros Hr. pose proof (re_inv _ _ _ _ _ Hr) as Hi. unfold settled. rewrite <-(Permutation_length (re_soup _ _ _ _ _ Hr)), <-length_app.
  apply submseteq_length, NoDup_submseteq; [apply Hi|]. intros q Hq. apply (PacketNet.inv_sent _ Hi) in Hq. by eapply Huniverse.
Qed.

(** How many steps the rest of a run may take. *)
Definition span : nat := (S (length universe) * S (5 * length universe + 2 * length ps))%nat.

Lemma world_drains b W P Q F : refines b W P Q F -> lo < hi -> b + Z.of_nat span < 2 ^ 64 - 1 ->
  exists acts, Forall proper acts /\ (length acts <= span)%nat /\ quiet (run W acts).
Proof.
  intros Hr Ht Hb. set (K := S (5 * length universe + 2 * length ps)).
  assert (Hgo : forall n b W P Q F, refines b W P Q F -> ((length universe - settled P) * K + load W Q F <= n)%nat ->
    b + Z.of_nat n < 2 ^ 64 - 1 -> exists acts, Forall proper acts /\ (length acts <= n)%nat /\ quiet (run W acts)).
  { clear b W P Q F Hr Hb. induction n as [|n IH]; intros b W P Q F Hr Hn Hb;
      (destruct (busy_advances _ _ _ _ _ Hr ltac:(lia) Ht) as [Hq|(a & Ha & acts & P' & Q' & F' & _ & _ & Hr' & Hd)];
        [exists []; split_and!; [by apply Forall_nil|cbn; lia|done]|]);
      pose proof (settled_bound _ _ _ _ _ Hr'); pose proof (settled_bound _ _ _ _ _ Hr); pose proof (load_bound (step W a) Q' F').
    - exfalso. destruct Hd as [Hd|[Hd Hld]]; [|lia]. assert (0 < (length universe - settled P) * K)%nat by (apply Nat.mul_pos_pos; unfold K; lia). lia.
    - destruct (IH (b + 1) (step W a) P' Q' F' Hr') as (acts' & Hp & Hlen & Hq); [|lia|].
      + destruct Hd as [Hd|[Hd Hld]]; [|rewrite Hd; lia].
        assert (Hmul : ((length universe - settled P') * K + K <= (length universe - settled P) * K)%nat)
          by (rewrite <-Nat.mul_succ_l; apply Nat.mul_le_mono_r; lia).
        unfold K in *. lia.
      + exists (a :: acts'). split_and!; [by apply Forall_cons|cbn; lia|done]. }
  apply (Hgo span b W P Q F Hr); [|done]. pose proof (settled_bound _ _ _ _ _ Hr). pose proof (load_bound W Q F). unfold span, K. nia.
Qed.

End Refine.
End WorldFacts.

(** ** The leader protocol on daemons *)

Module LeaderWorld.
Import RoundEngine DriverFacts World WorldFacts LeaderNet.

(** An idle connection from [u] to [v] on which [v] knows [u]. *)
Definition connected (W : World.t) (u v : string) : Prop :=
  exists w wr c, wires W u v = Some w /\ outq (nodes W u) v = Some wr /\
    NetState.conns (System.net (nodes W v)) !! w_reader w = Some c /\
    receiver_alive wr = true /\ queue wr = [] /\ w_flight w = [] /\ w_seq w = 0 /\ c_reader c = Some 0 /\
    rc_recv_key (c_ctx c) = w_key w /\ length (w_key w) = 32%nat /\ rc_peer_uid (c_ctx c) = u /\ validate_uid u = true /\
    validate_uid ("peer@" +:+ rc_addr (c_ctx c)) = true /\ rc_peer_authenticated (c_ctx c) = true.

(** A daemon with nothing to do, connected to its neighbours in [links]. *)
Record resting (ctx : RoundContext) (links : list (string * string)) (u : string) (s : System.t) : Prop := {
  rs_ctx : round_context (System.view s) = Some ctx;
  rs_manager : connection_manager (app (System.core s)) = None;
  rs_open : outgoing_open (app (System.core s)) = true;
  rs_hung : System.hung s = false;
  rs_empty : outgoing (app (System.core s)) = [] /\ System.batch s = [] /\ NetState.incoming (System.net s) = [];
  rs_peers v : is_Some (outq s v) <-> (u, v) ∈ links;
}.

Section Leader.
Context `{Crypto, !ShaLaws, !HkdfLaws, !EdLaws, Json, !AesLaws, !JsonLaws}.
Variables (ctxs : string -> RoundContext) (keys : string -> gmap string bytes) (sk : string -> bytes)
  (ps : list string) (links : list (string * string)) (leader sender text ch : string) (r t0 : Z).
Local Abbreviation start := (LeaderNet.start ps leader ch r).
Local Abbreviation share := (LeaderNet.share keys sk ps sender text ch r).
Local Abbreviation result := (LeaderNet.result text ch r).
Local Abbreviation issued := (LeaderNet.leader_issued keys sk ps leader sender text ch r).
Local Abbreviation all_in := (LeaderNet.all_in keys sk ps leader sender text ch r).

Hypotheses
  (Hnd : NoDup ps) (Hkeys : edge_keys_agree ps keys) (Htwo : 2 <= zlen ps) (Hleader : leader ∈ ps)
  (Hsender : sender ∈ ps) (Htext : str_ok text) (Hfit : slen text + 36 <= DEFAULT_PAYLOAD_LEN)
  (Hr : 1 <= r < 2 ^ 64) (Hctx : forall u, u ∈ ps -> honest_ctx keys sk u (ctxs u))
  (Hmany : zlen ps < INCOMING_CHANNEL_CAP)
  (Hframe : forall m, m = start \/ m = result \/ (exists w, w ∈ ps /\ m = share w) -> slen (to_json m) + 36 <= MAX_FRAME).
Local Abbreviation protocol :=
  (leader_protocol ctxs keys sk ps leader sender text ch r t0 Hnd Hkeys Htwo Hleader Hsender Htext Hfit Hr Hctx).

(** The participant who sends a packet of the round. *)
Definition leader_author (q : packet) : string :=
  match q.2 with DcRoundShare _ _ w _ _ => w | _ => leader end.

Lemma leader_author_new tr p q : issued (tr ++ [p]) q -> ~ issued tr q -> leader_author q = p.1.
Proof.
  intros [(v & Hv & ->)|[(w & Hw & Hs & ->)|[Ha (v & Hv & ->)]]] Hn.
  - destruct Hn. left. eauto.
  - apply PacketNet.in_snoc in Hs as [<-|Hs]; [done|]. destruct Hn. right. left. eauto.
  - destruct (decide (Forall (fun w => (leader, share w) ∈ tr) (others leader ps))) as [Ht|Ht]; [destruct Hn; right; right; eauto|].
    apply not_Forall_Exists in Ht; [|intros x; apply _]. apply Exists_exists in Ht as (w & Hw & Hnw).
    unfold LeaderNet.all_in in Ha. rewrite Forall_forall in Ha. specialize (Ha w Hw).
    apply PacketNet.in_snoc in Ha as [<-|?]; done.
Qed.

Lemma leader_message_ok tr q : issued tr q ->
  is_relay q.2 = false /\ slen (to_json q.2) + 36 <= MAX_FRAME /\
  forall addr, extract_uid q.2 addr = leader_author q \/ extract_uid q.2 addr = "peer@" +:+ addr.
Proof.
  intros [(v & Hv & ->)|[(w & [_ Hw]%elem_of_others & Hs & ->)|[Ha (v & Hv & ->)]]]; (split_and!; [done|apply Hframe; eauto|]); cbn; auto.
Qed.

Lemma leader_wire_room u v l :
  NoDup l -> (forall q, q ∈ l -> q.1 = v /\ leader_author q = u /\ exists tr, issued tr q) -> zlen l <= WRITER_QUEUE_CAP.
Proof.
  intros Hl Hq. assert (Hs : l ⊆+ [(v, start); (v, share u); (v, result)]).
  { apply NoDup_submseteq; [done|]. intros q Hin. rewrite !elem_of_cons.
    destruct (Hq q Hin) as (<- & <- & tr & [(y & Hy & ->)|[(w & Hw & Hs & ->)|[Ha (y & Hy & ->)]]]); cbn; auto. }
  apply submseteq_length in Hs. cbn in Hs. unfold zlen, WRITER_QUEUE_CAP. lia.
Qed.

Lemma leader_inbox_room v l :
  NoDup l -> (forall q, q ∈ l -> q.1 = v /\ exists tr, issued tr q) -> zlen l <= INCOMING_CHANNEL_CAP.
Proof.
  intros Hl Hq. assert (Hs : l ⊆+ (v, start) :: (v, result) :: ((fun w => (v, share w)) <$> others leader ps)).
  { apply NoDup_submseteq; [done|]. intros q Hin. rewrite !elem_of_cons, list_elem_of_fmap.
    destruct (Hq q Hin) as (<- & tr & [(y & Hy & ->)|[(w & Hw & Hs & ->)|[Ha (y & Hy & ->)]]]); cbn; eauto. }
  apply submseteq_length in Hs. cbn in Hs. rewrite length_fmap in Hs.
  pose proof (Permutation_length (others_perm leader ps Hnd Hleader)) as Ho. cbn in Ho. unfold zlen in *. lia.
Qed.

Definition leader_deployment : Deployment ctxs t0 (t0 + from_secs 30) protocol :=
  @Build_Deployment _ _ ctxs t0 (t0 + from_secs 30) protocol leader_author
    leader_author_new leader_message_ok leader_wire_room leader_inbox_room.

#[local] Existing Instance leader_deployment.
Context (W0 : World.t).
Local Abbreviation eng := (fun u => engine (System.core (nodes W0 u))).
Hypotheses (Hlinks : NoDup links) (Hends : forall u v, (u, v) ∈ links -> u ∈ ps /\ v ∈ ps /\ u <> v)
  (Hready : forall u, u ∈ ps -> ready r u (queue_of sender text u) (eng u))
  (Hrest : forall u, u ∈ ps -> resting (ctxs u) links u (nodes W0 u))
  (Hconn : forall u v, (u, v) ∈ links -> connected W0 u v)
  (Hnew : (forall u, told W0 u = []) /\ failed W0 = [] /\ overrun W0 = []).
Local Abbreviation refines := (WorldFacts.refines ctxs t0 (t0 + from_secs 30) protocol ps links).
Local Abbreviation W1 := (World.start_round W0 leader ch ps t0).
Local Abbreviation begin := (leader_begin ctxs ps leader ch t0 eng).

Lemma begin_refines : refines 0 W1 begin (fun _ _ => []) (fun _ _ => []).
Proof.
  pose proof (leader_begin_inv ctxs keys sk ps leader sender text ch r t0 Hnd Hkeys Htwo Hleader Hsender Htext Hfit Hr Hctx eng Hready) as Hi.
  destruct (leader_starts keys sk ps sender text ch r leader t0 (eng leader) (ctxs leader)) as (e & E & _); auto.
  destruct Hnew as (Hto & Hfa & Hov). pose proof (Hrest leader Hleader) as [Hcx Hm Hop Hh (Hou & Hba & Hin) Hpe].
  unfold World.start_round. rewrite Hcx, E, PumpFacts.send_all by done. unfold leader_begin in *. cbn beta in E, Hi. rewrite E in *.
  set (out := (fun p => (p, start)) <$> ps) in *. set (s' := System.mk _ _ _ _ _ _ _ _).
  assert (Hs' : outgoing (app (System.core s')) = out) by (cbn; by rewrite Hou).
  split; cbn [nodes told failed overrun PacketNet.nodes PacketNet.soup PacketNet.trace PacketNet.lost].
  - exact Hi.
  - intros u Hu. rewrite Hto. unfold PacketNet.upd. by case_bool_decide; [subst u|].
  - intros u Hu. unfold PacketNet.upd. case_bool_decide; [subst u|].
    2: { destruct (Hrest u Hu) as [? ? ? ? (Ea & Eb & Ec) ?]. split; rewrite ?Ea, ?Eb, ?Ec; done. }
    split; try done.
    + rewrite Hs'. apply Forall_forall. by intros q (p & -> & _)%list_elem_of_fmap.
    + cbn. by rewrite Hba, Hin.
  - intros u v Hl. destruct (Hconn u v Hl) as (w & wr & c & Hw & Hq & Hc & Ha & Hqu & Hfl & Hse & Hrd & Hk1 & Hk2 & Hu1 & Hu2 & Hu3 & Hau).
    exists w, wr, c. cbn [wires nodes]. split_and!; [done| | |].
    + unfold PacketNet.upd. case_bool_decide as Ed; [rewrite Ed in Hq|]; exact Hq.
    + unfold PacketNet.upd. case_bool_decide as Ed; [rewrite Ed in Hc|]; exact Hc.
    + split; try done; [|by rewrite Hse]. exists 0. by rewrite Hfl, Hse.
  - unfold transit. rewrite (bind_empty (hop _ _)), app_nil_r by done. cbn [nodes].
    destruct (bind_at (fun _ => []) (fun u => pend u (PacketNet.upd (nodes W0) leader s' u)) ps leader Hnd Hleader)
      as (R & HR & ->).
    { intros y Hy Hne. rewrite upd_other by done. unfold pend. by destruct (Hrest y Hy) as [_ _ _ _ (-> & -> & ->) _]. }
    rewrite bind_empty in HR by done. cbn in HR. symmetry in HR. apply Permutation_nil_r in HR. rewrite HR.
    rewrite upd_self, app_nil_r. unfold pend. rewrite Hs'. cbn. by rewrite Hba, Hin, app_nil_r.
  - by apply Forall_nil.
  - by rewrite Hfa.
  - rewrite Hfa. by apply Forall_nil.
  - done.
Qed.

Hypothesis Hstar : forall v, v ∈ others leader ps -> (leader, v) ∈ links /\ (v, leader) ∈ links.

(** What each user is told in the end: the leader does not connect to itself. *)
Definition daemon_reports (u : string) : list RoundEvent :=
  [if decide (u = leader) then MessageExtracted ch text r else MessageReceived ch text r].

Lemma only_own_lost b W P Q F x : refines b W P Q F -> x ∈ failed W -> x.1 = leader /\ x.2.1 = leader.
Proof.
  intros Hre Hx. pose proof (re_failed _ _ _ _ _ _ _ _ _ _ _ Hre) as Hf. rewrite Forall_forall in Hf. destruct (Hf x Hx) as [Hau Hno].
  assert (Hq : issued (PacketNet.trace P) x.2).
  { apply (PacketNet.inv_sent _ (re_inv _ _ _ _ _ _ _ _ _ _ _ Hre)). rewrite !elem_of_app, (re_lost _ _ _ _ _ _ _ _ _ _ _ Hre).
    right. right. apply list_elem_of_fmap. eauto. }
  destruct x as [u q]. cbn in *. destruct Hq as [(v & Hv & ->)|[(w & Hw & Hs & ->)|[Ha (v & Hv & ->)]]]; cbn in *.
  - split; [done|]. destruct (decide (v = leader)); [done|]. destruct Hno. rewrite <-Hau. apply Hstar. by apply elem_of_others.
  - destruct Hno. rewrite <-Hau. by apply Hstar.
  - split; [done|]. destruct (decide (v = leader)); [done|]. destruct Hno. rewrite <-Hau. apply Hstar. by apply elem_of_others.
Qed.

Lemma told_so_far b W P Q F u : refines b W P Q F -> u ∈ ps -> told W u `prefix_of` leader_reports leader text ch r u.
Proof.
  intros Hre Hu. pose proof (PacketNet.inv_nodes _ (re_inv _ _ _ _ _ _ _ _ _ _ _ Hre) u) as Hn.
  rewrite (re_nodes _ _ _ _ _ _ _ _ _ _ _ Hre u Hu) in Hn.
  exact (proj1 (leader_told keys sk ps leader sender text ch r t0 _ _ _ u Hu Hn)).
Qed.

Lemma told_in_the_end b W P Q F u : refines b W P Q F -> quiet ps links W -> u ∈ ps -> told W u = daemon_reports u.
Proof.
  intros Hre Hqt Hu. pose proof (PacketNet.inv_nodes _ (re_inv _ _ _ _ _ _ _ _ _ _ _ Hre) u Hu) as Hn.
  rewrite (re_nodes _ _ _ _ _ _ _ _ _ _ _ Hre u Hu) in Hn. cbn [fst snd] in Hn.
  pose proof (fun q => quiet_arrived _ _ _ _ _ _ _ _ _ _ _ q Hre Hqt) as Harr.
  assert (Hself : (leader, leader) ∉ links) by (intros Hl; by apply Hends in Hl as (_ & _ & ?)).
  assert (Hall : all_in (PacketNet.trace P)).
  { apply Forall_forall. intros w Hw. destruct (Hstar w Hw) as [H1' H2']. pose proof Hw as [_ Hwp]%elem_of_others.
    apply (Harr (leader, share w)); [|exact H2']. right. left. exists w. split_and!; [done| |done].
    apply (Harr (w, start)); [|exact H1']. left. eauto. }
  assert (Hres : (u, result) ∈ PacketNet.trace P <-> (leader, u) ∈ links).
  { apply (Harr (u, result)). right. right. split; [done|]. eauto. }
  unfold daemon_reports. destruct (decide (u = leader)) as [->|Hne].
  - destruct Hn as [_ Hn]. rewrite decide_True in Hn by done. destruct Hn as [_ ->]. unfold received. rewrite decide_False; [done|]. by rewrite Hres.
  - destruct Hn as [_ ->]. unfold received. rewrite decide_True; [done|]. apply Hres, Hstar. by apply elem_of_others.
Qed.

End Leader.

(** *** Making connections *)

Section Linking.
Context `{Crypto, !HkdfLaws, !EdLaws, !DhLaws, Json, !JsonLaws}.
Context (show : TrySendError -> string) (show_addr : SocketAddr -> string) (index_html : bytes).
Context (peers_json : gset string -> bytes) (connect_request : bytes -> option (option bytes * option bytes)).
Local Abbreviation node_step := (World.node_step show show_addr index_html peers_json connect_request).

(** What a node gains when a session is installed. *)
Record gains (s s' : System.t) (peer : string) (c : Conn) : Prop := {
  gn_core : System.core s' = System.core s;
  gn_hung : System.hung s' = System.hung s;
  gn_batch : System.batch s' = System.batch s;
  gn_incoming : NetState.incoming (System.net s') = NetState.incoming (System.net s);
  gn_keys : ConnectionManager.known_peer_keys (NetState.cm (System.net s')) = ConnectionManager.known_peer_keys (NetState.cm (System.net s));
  gn_conns : NetState.conns (System.net s') = NetState.conns (System.net s) ++ [c];
  gn_new : exists wr, outq s' peer = Some wr /\ receiver_alive wr = true /\ queue wr = [];
  gn_old v : v <> peer -> outq s' v = outq s v;
}.

(** The connection of a session with a peer whose key is on record. *)
Definition session_conn (addr : string) (k : SessionKeys) (inbound : bool) (id : Z) : Conn :=
  mkConn (mkReader addr (recv_key k) (peer_uid k) (peer_authenticated k) id) inbound (Some 0) true.

Lemma install_gains s addr k inb keys active h n :
  ConnectionManager.known_peer_keys (NetState.cm (System.net s)) = Some keys -> is_Some (keys !! peer_uid k) ->
  ConnectionManager.active_connections (NetState.cm (System.net s)) = Some active ->
  NetState.install (System.net s) addr k inb = ((NetState.install (System.net s) addr k inb).1, true) /\
  gains s (System.with_net s (NetState.with_slots (NetState.install (System.net s) addr k inb).1 h n)) (peer_uid k)
    (session_conn addr k inb (NetState.next_conn_id (System.net s))).
Proof.
  intros Hk [key Hkey] Ha. unfold NetState.install. cbn [ConnectionManager.active_connections ConnectionManager.set_keys]. rewrite Ha. cbn [fst].
  split; [done|]. split; try done.
  - cbn. unfold pin_session. rewrite Hk. destruct (peer_authenticated k); [|done]. cbn. by rewrite Hkey.
  - exists (PeerWriter_new (NetState.next_conn_id (System.net s))). unfold outq. cbn. by rewrite lookup_insert_eq.
  - intros v Hv. unfold outq. cbn. rewrite Ha. cbn. by apply lookup_insert_ne.
Qed.

Lemma outbound_gains s peer addr auth eph nonce input out k rest keys active :
  ConnectionManager.known_peer_keys (NetState.cm (System.net s)) = Some keys -> is_Some (keys !! peer) ->
  ConnectionManager.active_connections (NetState.cm (System.net s)) = Some active ->
  outbound_handshake auth (Some keys) eph nonce input = (out, Ok (k, rest)) -> peer_uid k = peer ->
  gains s (node_step s (System.Net (NetState.Connect peer addr auth eph nonce (Some input)))) peer
    (session_conn addr k false (NetState.next_conn_id (System.net s))).
Proof.
  intros Hk Hin Ha Ho <-. unfold World.node_step. cbn [System.step System.task_event NetState.step]. unfold NetState.connect_to_peer.
  rewrite Hk, Ho. cbn [snd]. rewrite bool_decide_true by done. cbn [negb].
  destruct (install_gains s addr k false keys active (NetState.handshakes (System.net s)) (NetState.conn_count (System.net s)) Hk Hin Ha) as [E Hg].
  rewrite E. cbn [fst]. replace (NetState.install (System.net s) addr k false).1 with
    (NetState.with_slots (NetState.install (System.net s) addr k false).1 (NetState.handshakes (System.net s)) (NetState.conn_count (System.net s)));
    [exact Hg|]. unfold NetState.install. by destruct (ConnectionManager.active_connections _).
Qed.

Lemma inbound_gains s addr auth eph input out k rest keys active :
  ConnectionManager.known_peer_keys (NetState.cm (System.net s)) = Some keys -> is_Some (keys !! peer_uid k) ->
  ConnectionManager.active_connections (NetState.cm (System.net s)) = Some active ->
  0 <= NetState.handshakes (System.net s) -> NetState.conn_count (System.net s) < MAX_CONNECTIONS ->
  inbound_handshake auth (Some keys) eph input = (out, Ok (k, rest)) ->
  gains s (node_step (node_step s (System.Net NetState.Accept)) (System.Net (NetState.Handshake addr auth eph (Some input)))) (peer_uid k)
    (session_conn addr k true (NetState.next_conn_id (System.net s))).
Proof.
  intros Hk Hin Ha Hh Hc Ho. unfold World.node_step. cbn [System.step System.task_event NetState.step]. unfold NetState.accept.
  rewrite (proj2 (Z.leb_gt _ _)) by done. set (s1 := System.with_net s _). unfold NetState.finish_handshake. cbn [NetState.handshakes NetState.with_slots s1 System.with_net System.net].
  rewrite (proj2 (Z.leb_gt _ _)) by lia.
  change (NetState.cm _) with (NetState.cm (System.net s)). rewrite Hk, Ho. cbn [snd].
  destruct (install_gains s1 addr k true keys active (NetState.handshakes (System.net s1) - 1) (NetState.conn_count (System.net s1)) Hk Hin Ha) as [E Hg].
  change (NetState.with_slots (System.net s) (NetState.handshakes (System.net s) + 1) (NetState.conn_count (System.net s) + 1)) with (System.net s1).
  rewrite E. destruct Hg. by split.
Qed.

(** A connection of which neither end changes. *)
Lemma connected_frame W W' x y :
  wires W' x y = wires W x y -> outq (nodes W' x) y = outq (nodes W x) y ->
  NetState.conns (System.net (nodes W y)) `prefix_of` NetState.conns (System.net (nodes W' y)) ->
  connected W x y -> connected W' x y.
Proof.
  intros Hw Ho [l Hc] (w & wr & c & ? & ? & Hi & Hrest). exists w, wr, c. rewrite Hw, Ho, Hc. split_and!; try done; try apply Hrest.
  rewrite lookup_app_l; [done|]. by eapply lookup_lt_Some.
Qed.

(** The new end of a connection at [u], read by [v]. *)
Lemma gains_connected W u v i w sv sv' wr key addr id inb sender_keys :
  wires W u v = Some w -> outq (nodes W u) v = Some wr -> receiver_alive wr = true -> queue wr = [] ->
  nodes W v = sv' -> gains sv sv' u (session_conn addr sender_keys inb id) -> w = mkWire i (length (NetState.conns (System.net sv))) key 0 [] ->
  recv_key sender_keys = key -> length key = 32%nat -> peer_uid sender_keys = u -> peer_authenticated sender_keys = true ->
  validate_uid u = true -> validate_uid ("peer@" +:+ addr) = true -> connected W u v.
Proof.
  intros Hw Ho Ha Hq Hn Hg -> Hk Hlen Hp Hau Hu Had. eexists _, wr, _. split; [exact Hw|]. split; [exact Ho|].
  rewrite Hn, (gn_conns _ _ _ _ Hg). split; [by apply list_lookup_middle|]. by cbn.
Qed.

End Linking.

Lemma gains_resting `{Crypto} ctx links links' s s' peer c x :
  gains s s' peer c -> resting ctx links x s -> (forall y, (x, y) ∈ links' <-> (x, y) ∈ links \/ y = peer) -> resting ctx links' x s'.
Proof.
  intros [Hco Hhu Hba Hin Hke _ (wr & Hw & _) Hol] [Hcx Hma Hop Hh (Ho & Hb & Hi) Hpe] Hl. split; rewrite ?Hco; try done.
  - rewrite <-Hcx. unfold round_context, App.known_keys. cbn. rewrite Hco, Hke. done.
  - by rewrite Hhu.
  - by rewrite Hba, Hin.
  - intros y. rewrite Hl. destruct (decide (y = peer)) as [->|Hy]; [rewrite Hw; split; [by right|by eexists]|].
    rewrite Hol by done. rewrite Hpe. naive_solver.
Qed.

(** Daemons that are about to run a round: connected to the leader both ways, with the edge keys and
    identity keys of each other, and all messages of the round within the size of a frame. *)
Record staged `{Crypto, Json} (keys : string -> gmap string bytes) (sk : string -> bytes) (ctxs : string -> RoundContext)
    (ps : list string) (links : list (string * string)) (leader sender text ch : string) (r : Z) (W : World.t) : Prop := {
  sg_once : NoDup ps;
  sg_edges : edge_keys_agree ps keys;
  sg_size : 2 <= zlen ps < INCOMING_CHANNEL_CAP;
  sg_leader : leader ∈ ps;
  sg_sender : sender ∈ ps;
  sg_text : str_ok text /\ slen text + 36 <= DEFAULT_PAYLOAD_LEN;
  sg_round : 1 <= r < 2 ^ 64;
  sg_ctx u : u ∈ ps -> honest_ctx keys sk u (ctxs u);
  sg_ready u : u ∈ ps -> ready r u (queue_of sender text u) (engine (System.core (nodes W u)));
  sg_frames m : m = LeaderNet.start ps leader ch r \/ m = LeaderNet.result text ch r \/
      (exists w, w ∈ ps /\ m = LeaderNet.share keys sk ps sender text ch r w) -> slen (to_json m) + 36 <= MAX_FRAME;
  sg_links : NoDup links /\ (forall u v, (u, v) ∈ links -> u ∈ ps /\ v ∈ ps /\ u <> v);
  sg_star v : v ∈ others leader ps -> (leader, v) ∈ links /\ (v, leader) ∈ links;
  sg_resting u : u ∈ ps -> resting (ctxs u) links u (nodes W u);
  sg_connected u v : (u, v) ∈ links -> connected W u v;
  sg_new : (forall u, told W u = []) /\ failed W = [] /\ overrun W = [];
}.
End LeaderWorld.

(** ** Theorems *)

Section WorldTheorems.
Context `{Crypto, !ShaLaws, !HkdfLaws, !EdLaws, !AesLaws, Json, !JsonLaws}.
Context (show : TrySendError -> string) (show_addr : SocketAddr -> string) (index_html : bytes).
Context (peers_json : gset string -> bytes) (connect_request : bytes -> option (option bytes * option bytes)).
Import RoundEngine World WorldFacts LeaderNet LeaderWorld.
Local Abbreviation run := (World.run show show_addr index_html peers_json connect_request).

(** C2: whole daemons implement the network. Every run of connected daemons in which one has started
    a round, with their pumps, queues, writers, encrypted frames, readers and filters interleaved in
    any way before the deadline, is a run of the network of engines: the engines are in the same
    states and have reported the same, nothing is dropped by a full queue, the packets lost are those
    the leader addresses to itself, and when all queues and wires are empty nothing is in flight. *)
Theorem daemons_refine_network keys sk ctxs ps links leader sender text ch r t0 W0 acts :
  staged keys sk ctxs ps links leader sender text ch r W0 ->
  Forall (proper t0 (t0 + from_secs 30) ps links) acts -> zlen acts < 2 ^ 63 ->
  let W := run (start_round W0 leader ch ps t0) acts in
  exists nacts P,
    PacketNet.run (Node0 := engine_node ctxs) (leader_begin ctxs ps leader ch t0 (fun u => engine (System.core (nodes W0 u)))) nacts = Some P /\
    PacketNet.within t0 (t0 + from_secs 30) nacts /\
    (forall u, u ∈ ps -> PacketNet.nodes P u = (engine (System.core (nodes W u)), told W u)) /\
    overrun W = [] /\ PacketNet.lost P ≡ₚ (failed W).*2 /\ Forall (fun x => x.1 = leader /\ x.2.1 = leader) (failed W) /\
    (quiet ps links W -> PacketNet.soup P = []).
Proof.
  intros [Ha Hb [Hc Hc'] Hd He [Hf Hf'] Hg Hh Hi Hj [Hk Hk'] Hl Hm Hn Ho] Hacts Hlen W.
  destruct (run_follows show show_addr index_html peers_json connect_request ctxs t0 (t0 + from_secs 30) _ ps links Ha Hk Hk' 0 _ _ _ _ acts
    (begin_refines ctxs keys sk ps links leader sender text ch r t0 Ha Hb Hc Hd He Hf Hf' Hg Hh Hc' Hj W0 Hi Hm Hn Ho) Hacts ltac:(lia))
    as (nacts & P & Q & F & Hrun & Hin & Hre).
  exists nacts, P. split_and!; [exact Hrun|exact Hin|apply Hre|apply Hre|apply Hre| |].
  - apply Forall_forall. intros x Hx. by eapply only_own_lost.
  - intros Hq. apply Permutation_nil_r. rewrite (re_soup _ _ _ _ _ _ _ _ _ _ _ Hre). by rewrite (quiet_transit _ _ _ _ _ _ _ _ _ _ _ Hre Hq).
Qed.

(** C1: a round among whole daemons is heard. However the tasks of the daemons and their connections
    interleave before the deadline, nobody's user is told anything but the sender's text; from every
    state the daemons can reach, at most 51 steps per pair of participants empty all queues and wires;
    and once they are empty the leader's user has been told the text as extracted and every other
    participant's user as received. *)
Theorem daemons_deliver keys sk ctxs ps links leader sender text ch r t0 W0 acts :
  staged keys sk ctxs ps links leader sender text ch r W0 ->
  Forall (proper t0 (t0 + from_secs 30) ps links) acts -> zlen acts < 2 ^ 63 ->
  let W := run (start_round W0 leader ch ps t0) acts in
  (forall u, u ∈ ps -> told W u `prefix_of` leader_reports leader text ch r u) /\
  (exists acts', Forall (proper t0 (t0 + from_secs 30) ps links) acts' /\ zlen acts' <= 51 * zlen ps * zlen ps /\
     quiet ps links (run W acts') /\ forall u, u ∈ ps -> told (run W acts') u = daemon_reports leader text ch r u) /\
  (quiet ps links W -> forall u, u ∈ ps -> told W u = daemon_reports leader text ch r u).
Proof.
  intros [Ha Hb [Hc Hc'] Hd He [Hf Hf'] Hg Hh Hi Hj [Hk Hk'] Hl Hm Hn Ho] Hacts Hlen W.
  pose proof (begin_refines ctxs keys sk ps links leader sender text ch r t0 Ha Hb Hc Hd He Hf Hf' Hg Hh Hc' Hj W0 Hi Hm Hn Ho) as Hre0.
  destruct (run_follows show show_addr index_html peers_json connect_request ctxs t0 (t0 + from_secs 30) _ ps links Ha Hk Hk' 0 _ _ _ _ acts
    Hre0 Hacts ltac:(lia)) as (nacts & P & Q & F & _ & _ & Hre).
  change (World.run _ _ _ _ _ _ acts) with W in Hre. clearbody W. clear Hre0.
  set (Pr := leader_protocol _ _ _ _ _ _ _ _ _ _ _ _ _ _ _ _ _ _ _) in Hre.
  set (universe := leader_universe keys sk ps leader sender text ch r).
  assert (Hspan : Z.of_nat (span ps universe) <= 51 * zlen ps * zlen ps /\ zlen ps < 2 ^ 10).
  { pose proof (leader_universe_length keys sk ps leader sender text ch r Ha Hd) as Hu. fold universe in Hu.
    unfold span, zlen, INCOMING_CHANNEL_CAP in *. split; [nia|lia]. }
  split_and!.
  - intros u Hu. by eapply told_so_far.
  - destruct (world_drains show show_addr index_html peers_json connect_request ctxs t0 (t0 + from_secs 30) Pr ps links Ha Hk Hk' universe
      (issued_universe keys sk ps leader sender text ch r) _ _ _ _ _ Hre) as (acts' & Hp & Hl' & Hq); [unfold from_secs; lia|nia|].
    assert (Hz : zlen acts' <= 51 * zlen ps * zlen ps) by (unfold zlen in *; lia).
    exists acts'. split_and!; [done|done|exact Hq|]. intros u Hu.
    destruct (run_follows show show_addr index_html peers_json connect_request ctxs t0 (t0 + from_secs 30) _ ps links Ha Hk Hk' _ _ _ _ _ acts'
      Hre Hp ltac:(nia)) as (nacts' & P' & Q' & F' & _ & _ & Hre'). by eapply told_in_the_end.
  - intros Hq u Hu. by eapply told_in_the_end.
Qed.

(** C3: a link between two daemons that have each other's key on record. When [u] connects to [v]
    both ends of the handshake succeed, each enters the other as a connected and authenticated
    peer, what one writes the other's reader can open, in both directions. Every other connection that
    was up with nothing in flight still is, and the cores of all daemons stay as they were. Both uids
    and the names the sockets give are valid, the listener has room, the exchanged secret is
    contributory and both messages fit a frame. *)
Theorem link_connects `{!DhLaws} W u v sku skv ku kv eph_u eph_v nonce addr_u addr_v :
  let a := auth_of u sku in let b := auth_of v skv in
  let nu := nodes W u in let nv := nodes W v in
  u <> v -> validate_uid u = true -> validate_uid v = true ->
  validate_uid ("peer@" +:+ addr_u) = true -> validate_uid ("peer@" +:+ addr_v) = true ->
  listener_auth (System.core nu) = Some a -> listener_auth (System.core nv) = Some b ->
  ConnectionManager.known_peer_keys (NetState.cm (System.net nu)) = Some ku -> ku !! v = Some (sa_public_hex b) ->
  ConnectionManager.known_peer_keys (NetState.cm (System.net nv)) = Some kv -> kv !! u = Some (sa_public_hex a) ->
  is_Some (ConnectionManager.active_connections (NetState.cm (System.net nu))) ->
  is_Some (ConnectionManager.active_connections (NetState.cm (System.net nv))) ->
  0 <= NetState.handshakes (System.net nv) -> NetState.conn_count (System.net nv) < MAX_CONNECTIONS ->
  x_contributory (x_dh eph_u (x_public eph_v)) = true -> fits (challenge a eph_u nonce) ->
  fits (AuthResponse v (sa_public_hex b) (hex_encode (x_public eph_v)) (ed_sign skv (x_public eph_u ++ x_public eph_v ++ nonce))) ->
  let W' := World.step show show_addr index_html peers_json connect_request W (Link u v eph_u eph_v nonce addr_u addr_v) in
  connected W' u v /\ connected W' v u /\
  (forall x y, (x, y) <> (u, v) -> (x, y) <> (v, u) -> connected W x y -> connected W' x y) /\
  (forall x ctx links, resting ctx links x (nodes W x) -> resting ctx ((u, v) :: (v, u) :: links) x (nodes W' x)) /\
  (forall x, System.core (nodes W' x) = System.core (nodes W x)).
Proof.
  intros a b nu nv Hne Hu Hv Hau Hav Hla Hlb Hku Hkv' Hkv Hku' [au Hacu] [av Hacv] Hhs Hcc Hdh Hfc Hfr W'.
  destruct (honest_handshake u sku v skv eph_u eph_v nonce ku kv Hu Hv ltac:(by right) ltac:(by right) Hdh Hfc Hfr) as [Hin Hout].
  fold a b in Hin, Hout. rewrite bool_decide_true in Hin, Hout by eauto.
  set (resp := send_json [] _) in Hin, Hout. set (master := derive_session_key _ _ _) in Hin, Hout.
  set (chal := (outbound_handshake a (Some ku) eph_u nonce []).1) in Hin, Hout.
  pose proof (outbound_gains show show_addr index_html peers_json connect_request nu v addr_v a eph_u nonce resp _ _ _ ku au Hku
    (mk_is_Some _ _ Hkv') Hacu Hout eq_refl) as Gu.
  pose proof (inbound_gains show show_addr index_html peers_json connect_request nv addr_u b eph_v chal resp
    (mkKeys (dir_b master) (dir_a master) u (sa_public_hex a) true) [] kv av Hkv (mk_is_Some _ _ Hku') Hacv Hhs Hcc Hin) as Gv.
  set (nu' := World.node_step _ _ _ _ _ _ _) in Gu. set (nv' := World.node_step _ _ _ _ _ _ _) in Gv.
  set (i := length (NetState.conns (System.net nu))). set (j := length (NetState.conns (System.net nv))).
  assert (EW : W' = World.mk (PacketNet.upd (PacketNet.upd (nodes W) u nu') v nv')
    (set_wire (set_wire (wires W) u v (mkWire i j (dir_a master) 0 [])) v u (mkWire j i (dir_b master) 0 [])) (told W) (failed W) (overrun W)).
  { unfold W'. cbn [World.step]. unfold link. fold nu nv. rewrite Hla, Hlb, bool_decide_false, (proj2 (Z.leb_gt _ _) Hcc) by done. cbn [orb].
    rewrite Hku, Hkv. fold chal. rewrite Hin, Hout. cbn [snd]. fold nu' nv' i j. rewrite bool_decide_true; [done|].
    rewrite (gn_conns _ _ _ _ Gu), (gn_conns _ _ _ _ Gv), !length_app. cbn. unfold i, j. lia. }
  clearbody W' nu' nv'. subst W'.
  destruct (gn_new _ _ _ _ Gu) as (wru & Hou & Hru & Hqu). destruct (gn_new _ _ _ _ Gv) as (wrv & Hov & Hrv & Hqv). cbn [peer_uid] in *.
  assert (Hnu : PacketNet.upd (PacketNet.upd (nodes W) u nu') v nv' u = nu') by (rewrite upd_other, upd_self by done; done).
  assert (Hnv : PacketNet.upd (PacketNet.upd (nodes W) u nu') v nv' v = nv') by apply upd_self.
  assert (Hnx : forall x, x <> u -> x <> v -> PacketNet.upd (PacketNet.upd (nodes W) u nu') v nv' x = nodes W x)
    by (intros x ? ?; by rewrite !upd_other).
  split_and!.
  - eapply (gains_connected _ u v i _ nv nv' wru (dir_a master)); [|cbn; by rewrite Hnu|done|done|cbn; by rewrite Hnv|exact Gv|done|done|apply hkdf32_length|done..].
    cbn. rewrite set_wire_other by congruence. by apply set_wire_self.
  - eapply (gains_connected _ v u j _ nu nu' wrv (dir_b master)); [|cbn; by rewrite Hnv|done|done|cbn; by rewrite Hnu|exact Gu|done|done|apply hkdf32_length|done..].
    cbn. by apply set_wire_self.
  - intros x y Hx1 Hx2. apply connected_frame; cbn.
    + by rewrite !set_wire_other.
    + destruct (decide (x = u)) as [->|?]; [rewrite Hnu; apply Gu; congruence|].
      destruct (decide (x = v)) as [->|?]; [rewrite Hnv; apply Gv; congruence|by rewrite Hnx].
    + destruct (decide (y = u)) as [->|?]; [rewrite Hnu, (gn_conns _ _ _ _ Gu); by apply prefix_app_r|].
      destruct (decide (y = v)) as [->|?]; [rewrite Hnv, (gn_conns _ _ _ _ Gv); by apply prefix_app_r|by rewrite Hnx].
  - intros x ctx links Hrs. cbn.
    destruct (decide (x = u)) as [->|?]; [|destruct (decide (x = v)) as [->|?]].
    + rewrite Hnu. eapply gains_resting; [exact Gu|exact Hrs|]. intros y. rewrite !elem_of_cons. naive_solver.
    + rewrite Hnv. eapply gains_resting; [exact Gv|exact Hrs|]. intros y. rewrite !elem_of_cons. naive_solver.
    + rewrite Hnx by done. destruct Hrs. split; try done. intros y. rewrite !elem_of_cons, rs_peers0. naive_solver.
  - intros x. cbn. destruct (decide (x = u)) as [->|?]; [rewrite Hnu; apply Gu|]. destruct (decide (x = v)) as [->|?]; [rewrite Hnv; apply Gv|by rewrite Hnx].
Qed.

End WorldTheorems.

(** ** Witnesses *)

Module WorldWitness.
Import World WorldFacts LeaderNet LeaderWorld RoundWitness EngineWitness.
#[local] Existing Instances toy_crypto ToyJson.field_eq_dec ToyJson.field_countable.

(** A shorter serializer than [toy_json], two bits to a character: a share has to fit a frame. *)
Fixpoint digits2 (p : positive) : string :=
  match p with
  | xH => EmptyString
  | xO xH => String (byte_ascii 97) EmptyString
  | xI xH => String (byte_ascii 98) EmptyString
  | xO (xO p) => String (byte_ascii 48) (digits2 p)
  | xI (xO p) => String (byte_ascii 49) (digits2 p)
  | xO (xI p) => String (byte_ascii 50) (digits2 p)
  | xI (xI p) => String (byte_ascii 51) (digits2 p)
  end.

Fixpoint value2 (s : string) : positive :=
  match s with
  | EmptyString => xH
  | String c s =>
      match ascii_byte c with
      | 97 => xO xH | 98 => xI xH
      | 48 => xO (xO (value2 s)) | 49 => xI (xO (value2 s))
      | 50 => xO (xI (value2 s)) | _ => xI (xI (value2 s))
      end
  end.

#[local] Instance terse_json : Json := {|
  to_json m := digits2 (encode (ToyJson.enc m));
  from_json s := decode (value2 s) ≫= ToyJson.dec;
|}.

Lemma value2_digits2 : forall p, value2 (digits2 p) = p.
Proof. fix IH 1. intros [[p|p|]|[p|p|]|]; cbn [digits2 value2]; try reflexivity; rewrite IH; reflexivity. Qed.

Lemma digits2_ok : forall p, str_ok (digits2 p).
Proof. fix IH 1. intros [[p|p|]|[p|p|]|]; try reflexivity; exact (IH p). Qed.

#[local] Instance terse_json_laws : JsonLaws.
Proof.
  split; intros m; cbn [to_json from_json terse_json].
  - rewrite value2_digits2, decode_encode. by destruct m.
  - apply digits2_ok.
Qed.

Definition number (u : string) : Z := if bool_decide (u = "alice") then 5 else if bool_decide (u = "bob") then 6 else 7.
Definition seed (u : string) : bytes := be_bytes 32 (number u).
Definition pair_key (u v : string) : bytes := be_bytes 32 (number u * number v).
Definition names (u : string) : list string := filter (fun v => v <> u) ps.

(** A daemon that is a friend of the other two and has their identity keys on record. *)
Definition daemon (u : string) : Daemon :=
  mkDaemon (AppWitness.node u (number u))
    (F2fDcNetBridge.set_friends (F2fDcNetBridge.new u)
      (list_to_map ((fun v => (v, F2fDcNetBridge.friend_new (pair_key u v) v "" 1)) <$> names u)))
    (eng u) WebOfTrust.new Transport.Direct [].

Local Abbreviation go := (World.run (fun _ => "") (fun _ => "") [] (fun _ => []) (fun _ => None)).

Definition booted (u : string) : System.t :=
  foldl (World.node_step (fun _ => "") (fun _ => "") [] (fun _ => []) (fun _ => None)) (System.boot (daemon u) 9000)
    ((fun v => System.Net (NetState.Register v "10.0.0.1:9000" (hex_encode (ed_public (seed v))) 0)) <$> names u).

Definition apart : World.t := World.mk booted (fun _ _ => None) (fun _ => []) [] [].

Definition call (v : string) : action := Link "alice" v (be_bytes 32 3) (be_bytes 32 4) (be_bytes 32 77) "10.0.0.1:4000" "10.0.0.2:9000".

(** Alice has connected to Bob and to Carol. *)
Definition star : World.t := go apart [call "bob"; call "carol"].
Definition links : list (string * string) := [("alice", "bob"); ("bob", "alice"); ("alice", "carol"); ("carol", "alice")].

Definition ctxs (u : string) : RoundContext :=
  default (mkRoundContext u (seed u) ∅ ∅) (round_context (System.view (nodes star u))).
Definition keys (u : string) : gmap string bytes := edge_keys (ctxs u).

Lemma star_told : (forall u, told star u = []) /\ failed star = [] /\ overrun star = [].
Proof. split_and!; [intros u; reflexivity|reflexivity|reflexivity]. Qed.

Lemma star_connected u v : (u, v) ∈ links -> connected star u v.
Proof.
  unfold links. intros Hl.
  repeat (apply elem_of_cons in Hl as [[= -> ->]|Hl];
    [eexists _, _, _; split; [vm_compute; reflexivity|split; [vm_compute; reflexivity|split; [vm_compute; reflexivity|vm_compute; done]]]|]).
  by apply not_elem_of_nil in Hl.
Qed.

(** The participants one by one. *)
Lemma cases (P : string -> Prop) : P "alice" -> P "bob" -> P "carol" -> forall u, u ∈ ps -> P u.
Proof. intros ? ? ? u Hu. unfold ps in Hu. repeat (apply elem_of_cons in Hu as [->|Hu]; [done|]). by apply not_elem_of_nil in Hu. Qed.

Ltac each := match goal with |- forall u, u ∈ ps -> @?P u => apply (cases P) end; cbv beta.

Lemma star_edges : edge_keys_agree ps keys.
Proof.
  enough (Hall : forall u, u ∈ ps -> forall v, v ∈ ps -> u <> v -> is_Some (keys u !! v) /\ keys u !! v = keys v !! u) by (intros u v Hu Hv; exact (Hall u Hu v Hv)).
  each; each; intros Hne; (exfalso; apply Hne; reflexivity) || (split; [eexists; vm_compute; reflexivity|vm_compute; reflexivity]).
Qed.

Definition record (u : string) : gmap string string := list_to_map ((fun v => (v, hex_encode (ed_public (seed v)))) <$> names u).

Lemma star_honest u : u ∈ ps -> DriverFacts.honest_ctx keys seed u (ctxs u).
Proof.
  intros Hu. assert (Hk : my_uid (ctxs u) = u /\ ctx_signing_key (ctxs u) = seed u /\ RoundDriver.known_keys (ctxs u) = record u)
    by (revert u Hu; each; vm_compute; repeat split).
  destruct Hk as (Hm & Hs & Hk). split; [exact Hm|cbv beta delta [keys]; reflexivity|exact Hs|]. intros w k Hw. rewrite Hk in Hw. unfold record in Hw.
  apply elem_of_list_to_map_2, list_elem_of_fmap in Hw as (v & E & _). injection E as -> ->. reflexivity.
Qed.


Lemma star_active u : u ∈ ps ->
  ConnectionManager.active_connections (NetState.cm (System.net (nodes star u))) =
    Some (if bool_decide (u = "alice") then {["bob" := PeerWriter_new 1; "carol" := PeerWriter_new 2]} else {["alice" := PeerWriter_new 1]}).
Proof. revert u. each; vm_compute; reflexivity. Qed.

Lemma star_peers u v : u ∈ ps -> is_Some (outq (nodes star u) v) <-> (u, v) ∈ links.
Proof.
  intros Hu. unfold outq. rewrite (star_active u Hu). cbn [mbind option_bind]. unfold links. revert u Hu.
  each; case_bool_decide as E; try discriminate E; try (exfalso; apply E; reflexivity);
    rewrite ?lookup_insert_is_Some, ?lookup_singleton_is_Some, !elem_of_cons, elem_of_nil; naive_solver.
Qed.

Lemma star_resting u : u ∈ ps -> resting (ctxs u) links u (nodes star u).
Proof. intros Hu. split; [..|intros v; by apply star_peers]; revert u Hu; each; vm_compute; repeat split. Qed.

Lemma star_staged : staged keys seed ctxs ps links "alice" "carol" "hi" "#a" 1 star.
Proof.
  split.
  - apply ps_nodup.
  - apply star_edges.
  - vm_compute; done.
  - left.
  - right; right; left.
  - vm_compute; done.
  - lia.
  - apply star_honest.
  - intros u Hu. replace (engine (System.core (nodes star u))) with (eng u); [by apply eng_ready|]. revert u Hu. each; vm_compute; reflexivity.
  - intros m Hm. apply Z.leb_le. destruct Hm as [->|[->|(w & Hw & ->)]]; [vm_compute; reflexivity|vm_compute; reflexivity|].
    revert w Hw. each; vm_compute; reflexivity.
  - split; [apply (bool_decide_unpack _); vm_compute; exact I|]. unfold links. intros u v Hl.
    repeat (apply elem_of_cons in Hl as [[= -> ->]|Hl]; [split_and!; [apply (bool_decide_unpack _); vm_compute; exact I..|done]|]).
    by apply not_elem_of_nil in Hl.
  - intros v Hv. unfold links. change (v ∈ ["bob"; "carol"]) in Hv. repeat (apply elem_of_cons in Hv as [->|Hv]; [rewrite !elem_of_cons; tauto|]).
    by apply not_elem_of_nil in Hv.
  - apply star_resting.
  - apply star_connected.
  - apply star_told.
Qed.

(** A schedule of the round: [pass u v] carries a message of [u] for [v] over their connection and
    has [v]'s pump collect a batch and serve it. *)
Definition send (u : string) : action := Turn u System.Transmit.
Definition pass (u v : string) (instant : Z) : list action :=
  [Write u v (be_bytes 12 9); Read u v; Turn v System.Recv; Turn v System.Recv; Turn v (System.Serve 1 instant); Turn v (System.Serve 1 instant)].
Definition opening : list action := replicate 3 (send "alice") ++ pass "alice" "bob" 1 ++ pass "alice" "carol" 1.
Definition closing : list action :=
  [send "carol"; send "bob"] ++ pass "carol" "alice" 2 ++ pass "bob" "alice" 3 ++ replicate 3 (send "alice") ++
  pass "alice" "carol" 4 ++ pass "alice" "bob" 4.

(** The run, evaluated: everybody's user is told, and the leader's packets to itself are the failures. *)
Example round_heard :
  let W := go (start_round star "alice" "#a" ps 0) (opening ++ closing) in
  map (told W) ps = [[MessageExtracted "#a" "hi" 1]; [MessageReceived "#a" "hi" 1]; [MessageReceived "#a" "hi" 1]] /\
  map (fun x => (x.1, x.2.1)) (failed W) = [("alice", "alice"); ("alice", "alice")].
Proof. vm_compute. split; reflexivity. Qed.

Lemma opening_proper : Forall (proper 0 (0 + from_secs 30) ps links) opening.
Proof. unfold opening, ps, links. repeat constructor; cbn; rewrite ?elem_of_cons; try tauto; unfold from_secs; lia. Qed.

Lemma daemons_deliver_witness :
  exists acts, forall u, u ∈ ps -> told (go (go (start_round star "alice" "#a" ps 0) opening) acts) u = daemon_reports "alice" "hi" "#a" 1 u.
Proof.
  destruct (daemons_deliver (fun _ => "") (fun _ => "") [] (fun _ => []) (fun _ => None) keys seed ctxs ps links "alice" "carol" "hi" "#a" 1 0 star opening
    star_staged opening_proper ltac:(vm_compute; reflexivity)) as (_ & (acts & _ & _ & _ & Ht) & _).
  exists acts. exact Ht.
Defined.

Lemma daemons_refine_network_witness :
  let W := go (start_round star "alice" "#a" ps 0) opening in
  overrun W = [] /\ Forall (fun x => x.1 = "alice" /\ x.2.1 = "alice") (failed W).
Proof.
  destruct (daemons_refine_network (fun _ => "") (fun _ => "") [] (fun _ => []) (fun _ => None) keys seed ctxs ps links "alice" "carol" "hi" "#a" 1 0 star opening
    star_staged opening_proper ltac:(vm_compute; reflexivity)) as (nacts & P & _ & _ & _ & Ho & _ & Hf & _).
  split; [exact Ho|exact Hf].
Defined.

Lemma link_connects_witness : connected (go apart [call "bob"]) "alice" "bob" /\ connected (go apart [call "bob"]) "bob" "alice".
Proof.
  destruct (link_connects (fun _ => "") (fun _ => "") [] (fun _ => []) (fun _ => None) apart "alice" "bob" (seed "alice") (seed "bob")
    (record "alice") (record "bob") (be_bytes 32 3) (be_bytes 32 4) (be_bytes 32 77) "10.0.0.1:4000" "10.0.0.2:9000") as (Hab & Hba & _);
    [discriminate|vm_compute; first [reflexivity|discriminate|eexists; reflexivity]..|].
  split; [exact Hab|exact Hba].
Defined.

End WorldWitness.
